(* ===== verification/_CoqProject ===== *)
-Q . S2P
Prelude.v
Text.v
Codec.v
Disk.v
Core.v
Store.v
Wire.v
Contract.v
Custody.v
Sui.v
Chain.v
SuiInbox.v
Deadline.v
SuiRotation.v
Config.v
NodeRotation.v
Watcher.v
Client.v
JsonValue.v
Engine.v
L2Rpc.v
P2p.v
Gossip.v
Tracker.v
Inclusion.v
Runner.v
Lifecycle.v
Sequencer.v
FullNode.v
Pipeline.v
NodeLife.v
Committee.v
Vault.v
Ptb.v
Bridge.v
BridgeFacts.v
Relay.v
Token.v
Release.v
Setup.v
SetupFacts.v
Boot.v
Shutdown.v
NodeBoot.v
Mcp.v
Cli.v
McpFacts.v
Metrics.v
