(* ===== verification/Prelude.v ===== *)
(** * Podseq: a verification development for the podseq sequencer

    Podseq orders transactions for an EVM layer 2.  A sequencer builds blocks
    through the Engine API of an execution node, publishes them in batches to
    Walrus (data availability), settles each height on Sui (settlement), and
    broadcasts blocks to full nodes, which rebuild the same chain from Sui and
    Walrus.  Users can force a transaction in through an inbox on Sui: when the
    sequencer leaves it out past its deadline, the contract stops settling.  A
    relayer carries deposits and withdrawals between a vault on Sui and tokens
    on the layer 2.

    ** Parts and their files

    Paths are under [src/]; a definition carries the name of the function it
    translates.

    - Prelude.v (this file): results, the state-and-error monad [M], the class
      [Runtime] (clock, sleep, shutdown), shared lemmas and tactics.  Text.v:
      the string operations of Rust's library the code calls.  Codec.v:
      third-party codecs and cryptography as classes with their laws.  Disk.v:
      files with faults and crashes.  JsonValue.v: JSON values and accessors.
    - Core.v: crates/core (blocks, signing messages, keys).  Wire.v:
      crates/sui/src/wire.rs, blob_id.rs and the signature check of lib.rs.
    - Store.v: crates/node/src/store, one Module per store.
    - Config.v: crates/node/src/config.rs.
    - Contract.v: move/sources/settlement.move, inbox.move and rotation.move, as
      far as the node calls them; Custody.v: who holds the capabilities that
      steer them, and the package upgrades.
      Vault.v: move/sources/bridge.move and its client crates/sui/src/bridge.rs.
      Committee.v: the peer book of settlement.move.  Relay.v, Module L2Token:
      the two entry points of solidity/src/Bridge.sol the relay calls; Token.v:
      the whole of it.
    - Sui.v (settlement.rs), SuiInbox.v (inbox.rs, peers.rs, state_root.rs),
      Deadline.v, SuiRotation.v, Client.v (lib.rs): crates/sui/src.
    - Chain.v: the settlement client of Sui.v running on the contracts of
      Contract.v, behind an RPC that fails or loses replies.  Ptb.v: every
      transaction block of the clients against the signatures of the contracts.
    - Engine.v: crates/engine/src/client.rs and lib.rs.
    - L2Rpc.v: the layer-2 JSON-RPC calls in crates/node/src/bridge.rs.
    - Tracker.v: crates/node/src/inbox.rs; Inclusion.v: its poller task, and an
      entry that the layer 2 refuses.  Runner.v: runner.rs; Lifecycle.v: its
      [run] as a process that crashes and restarts.  FullNode.v: full_node.rs;
      NodeLife.v: its [run] through restarts.  NodeRotation.v: rotation.rs;
      Watcher.v: its task, on a chain that moves between the reads.
    - P2p.v, Gossip.v: crates/p2p/src (keys, announcements and admission; the
      block message, the broadcaster and the receiver).
    - Sequencer.v: the finalizer of Runner.v over the client of Client.v over
      the chain of Chain.v.  Pipeline.v: full nodes tick by tick, and a full
      node of FullNode.v reading the chain that finalizer settled.
    - Bridge.v: crates/node/src/bridge.rs; BridgeFacts.v: its registry and
      history scan; Relay.v, Release.v: the two relays over the contracts.
    - Setup.v: settlement.rs, keyring.rs and the configuration readers of
      main.rs; SetupFacts.v: what a first start leaves to a restart; Boot.v,
      NodeBoot.v: [start_sequencer] and [start_full_node] of main.rs; Cli.v: its
      commands; Shutdown.v: its gas gauge, the accept loops of metrics.rs and
      mcp.rs, and how they stop.
    - Mcp.v: mcp.rs; McpFacts.v: its theorems.  Metrics.v: metrics.rs.

    ** How the parts interact

    The producer ([Runner.produce_block]) builds on the engine, stores the block
    and its pending marker, and hands it to the finalizer over a channel.  The
    finalizer ([Runner.finalizer_turn]) publishes a batch, takes each block
    through the inclusion gate and the settle call of Tracker.v, finalizes it
    on the engine, and clears its marker.  The tracker learns of forced
    transactions from Sui (SuiInbox.v) and of their inclusion from the layer 2
    (L2Rpc.v); it decides when the sequencer must halt.  A full node
    (FullNode.v) reads commitments from settlement and blobs from availability,
    and applies broadcasts early without finalizing them.  The rotation watcher
    (NodeRotation.v) moves the settlement and vault capabilities to the key the
    chain names; its plan is a function of chain state (SuiRotation.v).

    Where two components meet, the meeting point is a class: [EngineApi],
    [DataAvailability], [SettlementLayer], [ChainMem], [Channel], [HasDisk],
    [VaultReads], [TokenOps], [BurnOps], [NodeReads], [InboxTransport],
    [RotationExecutor], [ExecutionRpc] and others.  Clients are proved against
    the class; the implementing component gives the instance
    ([Client.client_settlement], [Bridge.relayer_vault] and those after it,
    [sui_walrus_reads] of Mcp.v), and the compositions above use it.

    State is threaded explicitly: [M W E A] is a function from a world to a
    result and the world after it, and the world survives a failure, as the
    effects before an early return do.  A task that runs beside others sees
    their effects through [Runtime.sleep_ms] or through a world whose steps are
    chosen by a schedule.  Whole processes are step relations: in
    [Lifecycle.step] the producer, the finalizer, the poller, a shutdown signal,
    a crash and the outside take turns in any order, one operation at a time,
    and a crash can fall inside a flush or, as a disk fault, inside a write;
    [NodeLife.life_step] is the same for a full node.

    ** What the theorems show

    - Lives: whatever crashes, fails or interleaves, a block handed to the
      finalizer is settled or still recoverable
      ([Lifecycle.no_produced_block_is_lost]); full nodes agree across restarts
      ([NodeLife.full_nodes_agree_across_restarts]).
    - Block path: a block is durable before it is announced
      ([Runner.produced_block_is_durable]); a marker is cleared only for a
      settled block ([Runner.flush_clears_only_settled]); a healthy flush
      settles the whole batch ([Sequencer.flush_settles_batch]), and one that
      failed half way can wedge the chain
      ([Sequencer.republished_batch_never_settles]).
    - Stores: refinement of the pending store to a set, monotone inbox records,
      round trips; all under disk faults (Store.v).
    - Settlement: a commit is atomic and safe to retry, whatever the RPC does
      (Chain.v); the contract's history is append-only, and its deadline rule
      is exact (Contract.v).  Every block of commands that the clients submit
      type-checks against the contracts ([Ptb.submitted_blocks_well_typed]).
    - Forced inclusion: the halt gate, the settle cursor and the window
      arithmetic against the contract (Tracker.v, SuiInbox.v); the halt verdict
      of an outside observer is sound on a moving chain (Deadline.v).  An entry
      that the layer 2 refuses stops the inbox and, past its deadline, settlement
      ([Inclusion.refused_entry_halts_settlement]).
    - Full nodes: they finalize only settled and signed blocks, in order;
      broadcasts never finalize (FullNode.v).  What a sequencer settles, a full
      node finalizes, and full nodes agree at every height (Pipeline.v).  Those
      that follow the committee's book agree on every peer set (Committee.v).
    - Rotation: authority is never lost, a claimed rotation finishes, and a
      node's role is what the contract will allow (NodeRotation.v,
      SuiRotation.v); the same for the running task, whose reads may see
      different moments ([Watcher.watched_rotation_never_strands],
      [Watcher.quiet_watch_converges]).  Only the owner of an object's one
      steering capability can ask for a rotation ([Custody.steering_custody]).
    - Bridge: the vault never pays out more than it took; a burn is released at
      most once and a deposit minted at most once, in order; a pass over a
      quiet network delivers everything (Vault.v, Relay.v, Release.v).  The
      token's balances sum to its supply through any calls
      ([Token.token_stays_backed]).
    - Start: a sequencer that starts is of one piece ([Boot.boot_is_consistent]),
      and a restart attaches to what the first start deployed
      ([SetupFacts.restart_attaches]); a full node follows the contracts and the
      key its configuration names ([NodeBoot.node_follows_sequencer]); a
      configuration that [init] wrote loads ([Cli.init_then_load]).
    - Stop: the tasks of a sequencer stop in twelve seconds
      ([Shutdown.stop_is_bounded]); a notification reaches exactly the tasks
      that wait for it ([Shutdown.mcp_ctrl_c_exact]).
    - Messages: a block survives the wire, and an announced block is the one
      received ([Gossip.message_roundtrip], [Gossip.announced_block_received]).
    - MCP: requests are bounded, answered once, and change no file (McpFacts.v).
    - Engine: a rejected payload never becomes the head; polling stops
      (Engine.v).

    Theorems about defects state the behaviour of the code as it is
    ([Relay.unmintable_deposit_blocks], [FullNode.rejected_block_is_finalized],
    [Tracker.settle_cursor_counts_gaps], [L2Rpc.receipt_wait_never_polls],
    [Lifecycle.crash_before_state_forks_height],
    [Lifecycle.read_fault_at_start_loses_block],
    [Store.unlocked_updates_lose_a_marker],
    [NodeLife.restart_finalizes_a_broadcast],
    [Inclusion.refused_entry_halts_settlement],
    [Shutdown.missed_notice_keeps_refreshing]).

    ** Hypotheses

    Classes named [...Laws] state documented behaviour of code outside the
    repository: a codec reads back what it wrote, a key signs what its public
    key verifies, a content-addressed store returns what it was given.  They are
    instantiated by concrete functions, in the Modules named [...Demo] and
    [...Sim] and in [Codec.CountableCodec], and the witnesses run on those.

    ** Fuel and bounds

    - [Text.trim_start_matches], [fmt_dec] and [is_utf8]: the length of the
      text or number, which every step shortens.
    - [Mcp.read_headers]: one more than the bytes of the stream;
      [McpFacts.headers_terminate] shows that more changes nothing.
    - [Bridge.scan_fuel]: every call either advances the range or shrinks the
      chunk; [BridgeFacts.creation_scan_indexes_history] shows that the scan
      ends within it.
    - [Engine.head_loop]: 121 polls, enough for a minute of 500 ms waits
      ([Engine.head_poll_terminates]); the forkchoice wait recurses on the
      code's own retry count.
    - Retry loops that go on until success or shutdown ([Runner.publish_loop],
      [Runner.settle_loop], [Tracker.wait_inclusion_gate],
      [Tracker.retry_with_backoff], [Inclusion.run_poller], [Watcher.watch],
      [Shutdown.refresh_sui_gas_balance]) take fuel and are [None] without it: they
      need not end.  Safety holds at every fuel; the liveness theorem needs one
      unit.  [Deadline.status_attempts] and the relayer's retries recurse on the
      code's own counts.
    - [u64] arithmetic is [N] with the source's behaviour written out where it
      can be reached: wrapping ([wadd]), saturating ([sat_sub] and the like),
      checked, or an abort in Move.

    ** Not modelled

    - crates/engine/src/auth.rs and crates/core/src/runtime.rs wrap the JWT
      library and tokio.  The networking of crates/p2p/src/node.rs is
      commonware's; only what a node hands to it is modelled.
    - Addresses of sockets are parsed by a parameter.  The handlers that the
      accept loops spawn run apart: a connection is one call of
      [Mcp.handle_connection] or [Metrics.handle_connection].
    - Interleavings inside an operation: tasks take turns at whole operations,
      but for the crashes and for [Store.mark_beside_clear].
    - In Ptb.v, [deploy] and the bridge's [initialize], whose object ids come
      from replies.
    - Logging; metrics that no decision reads.  The text encoding of metrics is
      the prometheus client's.
    - Events of Bridge.sol beyond the withdrawal; events, display helpers and
      test-only functions of the Move modules; the Move and EVM machines.
    - crates/sui/examples, e2e, tests, docs and deployment files.

    ** Plan

    What is left of the implementation is tests, logging, and declarations
    whose content is in the third-party code they wrap; the next step would be
    the rotation watcher as a step of Lifecycle.v beside the producer. *)

From stdpp Require Export base tactics list gmap strings pretty numbers countable sorting.
From Stdlib Require Export Strings.Byte.
From Stdlib Require Import Lia.

#[global] Open Scope N_scope.

(** ** Results

    Rust's [Result<A, E>] with the error type first, so that [result E] is a
    monad in stdpp's sense and the source's [?] reads [x ← m; k]. *)

Inductive result (E A : Type) : Type :=
| Ok (a : A)
| Err (e : E).
Arguments Ok {E A} a.
Arguments Err {E A} e.

#[global] Instance result_eq_dec {E A} `{EqDecision E, EqDecision A} : EqDecision (result E A).
Proof. solve_decision. Defined.

#[global] Instance result_ret {E} : MRet (result E) := λ A a, Ok a.
#[global] Instance result_bind {E} : MBind (result E) :=
  λ A B f r, match r with Ok a => f a | Err e => Err e end.
#[global] Instance result_fmap {E} : FMap (result E) :=
  λ A B f r, match r with Ok a => Ok (f a) | Err e => Err e end.

(** [Result::map_err], [Option::ok_or], [Result::ok], [Result::is_ok]. *)
Definition map_err {E F A} (f : E → F) (r : result E A) : result F A :=
  match r with Ok a => Ok a | Err e => Err (f e) end.
Definition ok_or {E A} (o : option A) (e : E) : result E A :=
  match o with Some a => Ok a | None => Err e end.
Definition to_option {E A} (r : result E A) : option A :=
  match r with Ok a => Some a | Err _ => None end.
Definition is_ok {E A} (r : result E A) : bool :=
  match r with Ok _ => true | Err _ => false end.

Lemma result_bind_ok {E A B} (r : result E A) (f : A → result E B) b :
  (r ≫= f) = Ok b ↔ ∃ a, r = Ok a ∧ f a = Ok b.
Proof. destruct r; cbn; naive_solver. Qed.

Lemma ok_or_ok {E A} (o : option A) (e : E) a : ok_or o e = Ok a ↔ o = Some a.
Proof. destruct o; cbn; naive_solver. Qed.

Lemma mapM_result_ok {E A B} (f : A → result E B) (l : list A) (k : list B) :
  mapM f l = Ok k ↔ Forall2 (λ x y, f x = Ok y) l k.
Proof.
  revert k; induction l as [|x l IH]; intros k; cbn.
  - split; [intros [= <-]; constructor | inversion 1; done].
  - split.
    + destruct (f x) as [y|] eqn:Hf; cbn; [|done].
      destruct (mapM f l) as [k'|] eqn:Hm; cbn; [|done].
      intros [= <-]. constructor; [done|]. by apply IH.
    + inversion 1 as [|? y ? k' Hf Hk]; subst. rewrite Hf; cbn.
      apply IH in Hk. by rewrite Hk.
Qed.

(** ** Effects

    A fallible computation over a world [W]: the world is threaded through
    failures too, because a Rust function that returns early with [?] keeps
    every effect it already had. *)

Definition M (W E A : Type) : Type := W → result E A * W.

#[global] Instance M_ret {W E} : MRet (M W E) := λ A a w, (Ok a, w).
#[global] Instance M_fmap {W E} : FMap (M W E) :=
  λ A B f m w, let '(r, w') := m w in (f <$> r, w').
#[global] Instance M_bind {W E} : MBind (M W E) :=
  λ A B f m w, match m w with
               | (Ok a, w') => f a w'
               | (Err e, w') => (Err e, w')
               end.

(** Raise an error; lift a pure result; change the error type ([From] in a
    [?]); observe a computation's result without propagating it ([match]). *)
Definition throw {W E A} (e : E) : M W E A := λ w, (Err e, w).
Definition lift {W E A} (r : result E A) : M W E A := λ w, (r, w).
Definition errM {W E F A} (f : E → F) (m : M W E A) : M W F A :=
  λ w, let '(r, w') := m w in (map_err f r, w').
Definition tryM {W E F A} (m : M W E A) : M W F (result E A) :=
  λ w, let '(r, w') := m w in (Ok r, w').
Definition getM {W E} : M W E W := λ w, (Ok w, w).
Definition modM {W E} (f : W → W) : M W E unit := λ w, (Ok tt, f w).

(** A primitive effect, given as a function of the world. *)
Definition eff {W E A} (f : W → result E A * W) : M W E A := f.

(** Run a computation on a component of a larger state. *)
Definition zoom {S W E A} (get : S → W) (put : W → S → S) (m : M W E A) : M S E A :=
  λ s, let '(r, w') := m (get s) in (r, put w' s).

(** [anyhow::Error]: the chain of messages, outermost first. *)
Definition anyhow : Type := list string.
Definition context {A} (c : string) (r : result anyhow A) : result anyhow A := map_err (cons c) r.
Definition bail {A} (m : string) : result anyhow A := Err [m].
Definition contextM {W A} (c : string) (m : M W anyhow A) : M W anyhow A := errM (cons c) m.
Definition ensure (b : bool) (m : string) : result anyhow unit := if b then Ok tt else Err [m].

(** The runtime a task sees: the clock, sleeping (the other tasks run
    meanwhile) and the shutdown flag. *)
Class Runtime (W : Type) := {
  now_ms : W → N;
  sleep_ms : N → W → W;
  shutting_down : W → bool
}.

Section Effects.
Context {W E : Type}.

Lemma bind_ret {A B} (a : A) (k : A → M W E B) : (mret a ≫= k) = k a.
Proof. done. Qed.

Lemma run_bind {A B} (m : M W E A) (k : A → M W E B) w :
  (m ≫= k) w = match m w with
               | (Ok a, w') => k a w'
               | (Err e, w') => (Err e, w')
               end.
Proof. done. Qed.

Lemma bind_ok_inv {A B} (m : M W E A) (k : A → M W E B) w b w'' :
  (m ≫= k) w = (Ok b, w'') →
  ∃ a w', m w = (Ok a, w') ∧ k a w' = (Ok b, w'').
Proof. rewrite run_bind. destruct (m w) as [[a|e] w']; naive_solver. Qed.

Lemma bind_err_inv {A B} (m : M W E A) (k : A → M W E B) w e w'' :
  (m ≫= k) w = (Err e, w'') →
  m w = (Err e, w'') ∨ ∃ a w', m w = (Ok a, w') ∧ k a w' = (Err e, w'').
Proof. rewrite run_bind. destruct (m w) as [[a|e'] w']; naive_solver. Qed.

Lemma context_ok {A} c (m : M W anyhow A) w a w' :
  contextM c m w = (Ok a, w') → m w = (Ok a, w').
Proof. unfold contextM, errM. destruct (m w) as [[]]; cbn; congruence. Qed.
End Effects.

(** Decompose a successful monadic run into its steps. *)
Ltac inv_run :=
  repeat match goal with
  | H : (_ ≫= _) _ = (Ok _, _) |- _ =>
      apply bind_ok_inv in H; destruct H as (? & ? & ? & ?)
  | H : mret _ _ = (_, _) |- _ => cbv [mret M_ret] in H; simplify_eq
  | H : lift ?r _ = (Ok _, _) |- _ => cbv [lift] in H; simplify_eq
  | H : throw _ _ = (Ok _, _) |- _ => by cbv [throw] in H
  end.

(** Case analysis on the scrutinee of a [match] in the goal or a hypothesis,
    remembering the equation. *)
Ltac case_res :=
  match goal with
  | |- context [match ?x with _ => _ end] => destruct x eqn:?
  | H : context [match ?x with _ => _ end] |- _ => destruct x eqn:?
  end.

(** *** Hoare triples

    [triple P m Q R]: run from a world in [P], [m] ends in [Q] with its value
    or, failing, in [R]. *)
Definition triple {W E A} (P : W → Prop) (m : M W E A) (Q : A → W → Prop) (R : W → Prop) : Prop :=
  ∀ w, P w → match m w with (Ok a, w') => Q a w' | (Err _, w') => R w' end.

Section Triples.
Context {W E : Type}.
Implicit Types (P R : W → Prop).

Lemma triple_bind {A B} P (m : M W E A) Q (k : A → M W E B) Q' R :
  triple P m Q R → (∀ a, triple (Q a) (k a) Q' R) → triple P (m ≫= k) Q' R.
Proof.
  intros Hm Hk w Hw. rewrite run_bind. specialize (Hm w Hw). destruct (m w) as [[a|e] w'].
  - by apply Hk.
  - done.
Qed.
Lemma triple_ret {A} P (a : A) Q R : (∀ w, P w → Q a w) → triple P (mret a : M W E A) Q R.
Proof. intros HQ w Hw. by apply HQ. Qed.
Lemma triple_lift {A} P (r : result E A) Q R :
  (∀ w a, P w → r = Ok a → Q a w) → (∀ w, P w → R w) → triple P (lift r) Q R.
Proof. intros HQ HR w Hw. unfold lift. destruct r; [by eapply HQ|by eapply HR]. Qed.
Lemma triple_lift_ok {A} P (a : A) Q R :
  (∀ w, P w → Q a w) → triple P (lift (Ok a) : M W E A) Q R.
Proof. intros HQ w Hw. by apply HQ. Qed.
Lemma triple_err {F A} P (f : E → F) (m : M W E A) Q R : triple P m Q R → triple P (errM f m) Q R.
Proof. intros Hm w Hw. specialize (Hm w Hw). unfold errM. by destruct (m w) as [[]]. Qed.
Lemma triple_try {F A} P (m : M W E A) Q R R' :
  triple P m Q R' → triple P (tryM m : M W F _) (λ r w, match r with Ok a => Q a w | Err _ => R' w end) R.
Proof. intros Hm w Hw. specialize (Hm w Hw). unfold tryM. by destruct (m w) as [[]]. Qed.
Lemma triple_mod P f Q R : (∀ w, P w → Q tt (f w)) → triple P (modM f : M W E unit) Q R.
Proof. intros HQ w Hw. by apply HQ. Qed.
Lemma triple_get P Q R : (∀ w, P w → Q w w) → triple P (getM : M W E W) Q R.
Proof. intros HQ w Hw. by apply HQ. Qed.
Lemma triple_pure {A} P (φ : Prop) (m : M W E A) Q R :
  (φ → triple P m Q R) → triple (λ w, P w ∧ φ) m Q R.
Proof. intros Hm w [Hw Hφ]. by apply (Hm Hφ w). Qed.
Lemma triple_weaken {A} P P' (m : M W E A) Q Q' R R' :
  triple P' m Q' R' → (∀ w, P w → P' w) → (∀ a w, Q' a w → Q a w) → (∀ w, R' w → R w) →
  triple P m Q R.
Proof. intros Hm HP HQ HR w Hw. specialize (Hm w (HP w Hw)). destruct (m w) as [[]]; auto. Qed.
Lemma triple_pre {A} P P' (m : M W E A) Q R :
  (∀ w, P w → P' w) → triple P' m Q R → triple P m Q R.
Proof. intros HP Hm w Hw. exact (Hm w (HP w Hw)). Qed.
End Triples.

(** *** Computations that preserve a property *)

Section Keeps.
Context {W E : Type}.
Implicit Types (P : W → Prop).

Definition preserves {A} P (m : M W E A) : Prop := triple P m (λ _, P) P.

Lemma preserves_bind {A B} P (m : M W E A) (k : A → M W E B) :
  preserves P m → (∀ a, preserves P (k a)) → preserves P (m ≫= k).
Proof. apply triple_bind. Qed.
Lemma preserves_ret {A} P (a : A) : preserves P (mret a : M W E A).
Proof. by apply triple_ret. Qed.
Lemma preserves_lift {A} P (r : result E A) : preserves P (lift r).
Proof. intros w Hw. by destruct r. Qed.
Lemma preserves_throw {A} P (e : E) : preserves P (throw e : M W E A).
Proof. by intros w Hw. Qed.
Lemma preserves_fmap {A B} P (f : A → B) (m : M W E A) : preserves P m → preserves P (f <$> m).
Proof. intros Hm w Hw. specialize (Hm w Hw). cbv [fmap M_fmap]. by destruct (m w) as [[]]. Qed.
End Keeps.
Lemma preserves_errM {W E F A} (P : W → Prop) (f : E → F) (m : M W E A) : preserves P m → preserves P (errM f m).
Proof. intros Hm w Hw. specialize (Hm w Hw). unfold errM. by destruct (m w) as [[]]. Qed.
Lemma preserves_tryM {W E F A} (P : W → Prop) (m : M W E A) : preserves P m → preserves P (tryM (F := F) m).
Proof. intros Hm w Hw. specialize (Hm w Hw). unfold tryM. by destruct (m w) as [[]]. Qed.

(** Walk through a computation; [prim] closes its primitive steps. *)
Ltac walk_with prim :=
  repeat first
    [ prim | apply preserves_bind; [|intros ?] | apply preserves_ret | apply preserves_lift | apply preserves_throw
    | apply preserves_errM | apply preserves_tryM | apply preserves_fmap | case_match ].

Create HintDb podseq.

(** ** 64-bit unsigned integers

    A Rust [u64] (and [usize]: the node runs on 64-bit targets) is an [N] in
    range; each operator is written with the overflow behaviour the source
    selects. The release profile leaves overflow checks off, so the plain
    [+] and [*] wrap. *)

Definition U64_MAX : N := 18446744073709551615.
Definition is_u64 (n : N) : Prop := n ≤ U64_MAX.

Definition sat_add (a b : N) : N := N.min (a + b) U64_MAX.
Definition sat_mul (a b : N) : N := N.min (a * b) U64_MAX.
Definition sat_sub (a b : N) : N := a - b.
Definition wadd (a b : N) : N := (a + b) mod (U64_MAX + 1).
Definition checked_add (a b : N) : option N :=
  if a + b <=? U64_MAX then Some (a + b) else None.
Definition div_ceil (a b : N) : N :=
  if a mod b =? 0 then a / b else a / b + 1.

#[global] Instance is_u64_dec n : Decision (is_u64 n).
Proof. unfold is_u64. apply _. Defined.

(** Linear arithmetic over the saturating operators. *)
Ltac u64 := unfold is_u64, sat_add, sat_mul, sat_sub, checked_add, U64_MAX in *; lia.

Lemma sat_add_u64 a b : is_u64 (sat_add a b).
Proof. u64. Qed.
Lemma sat_mul_u64 a b : is_u64 (sat_mul a b).
Proof. apply N.le_min_r. Qed.
Lemma sat_sub_u64 a b : is_u64 a → is_u64 (sat_sub a b).
Proof. u64. Qed.
Lemma wadd_u64 a b : is_u64 (wadd a b).
Proof.
  unfold is_u64, wadd. assert (U64_MAX + 1 ≠ 0) as H by (unfold U64_MAX; lia).
  pose proof (N.mod_lt (a + b) _ H). lia.
Qed.
Lemma wadd_small a b : a + b ≤ U64_MAX → wadd a b = a + b.
Proof. intros H. unfold wadd. apply N.mod_small. lia. Qed.
Lemma sat_add_small a b : a + b ≤ U64_MAX → sat_add a b = a + b.
Proof. u64. Qed.
Lemma sat_add_mono_l a a' b : a ≤ a' → sat_add a b ≤ sat_add a' b.
Proof. u64. Qed.
Lemma sat_add_ge a b : is_u64 a → a ≤ sat_add a b.
Proof. u64. Qed.
Lemma sat_mul_small a b : a * b ≤ U64_MAX → sat_mul a b = a * b.
Proof. apply N.min_l. Qed.

Lemma div_ceil_spec a b : 0 < b → div_ceil a b * b < a + b ∧ a ≤ div_ceil a b * b.
Proof.
  intros Hb. unfold div_ceil.
  pose proof (N.div_mod' a b). assert (b ≠ 0) as Hnz by lia.
  pose proof (N.mod_lt a b Hnz).
  generalize dependent (a / b). generalize dependent (a mod b). intros r Hr q Hq.
  destruct (N.eqb_spec r 0); rewrite ?N.mul_add_distr_r; lia.
Qed.

#[export] Hint Resolve sat_add_u64 sat_mul_u64 sat_sub_u64 wadd_u64 : podseq.

(** ** Bytes, fixed-size arrays and endianness *)

#[global] Instance byte_eq_dec : EqDecision byte := Byte.byte_eq_dec.
#[global] Program Instance byte_countable : Countable byte :=
  inj_countable Byte.to_N Byte.of_N _.
Next Obligation. intros b. apply Byte.of_to_N. Qed.

(** The low byte of a number. *)
Definition low_byte (n : N) : byte := default x00 (Byte.of_N (n mod 256)).

Lemma low_byte_to_N n : Byte.to_N (low_byte n) = n mod 256.
Proof.
  unfold low_byte. assert (n mod 256 ≤ 255) as H by (pose proof (N.mod_lt n 256); lia).
  destruct (Byte.of_N (n mod 256)) as [b|] eqn:Hb; cbn.
  - by apply Byte.to_of_N.
  - apply Byte.of_N_None_iff in Hb. lia.
Qed.

Lemma low_byte_of_to b : low_byte (Byte.to_N b) = b.
Proof.
  unfold low_byte. rewrite N.mod_small; [by rewrite Byte.of_to_N|].
  pose proof (Byte.to_N_bounded b). lia.
Qed.

(** [u64::to_le_bytes]/[from_le_bytes] and the big-endian pair, for any
    number [k] of bytes. *)
Fixpoint to_le_bytes (k : nat) (n : N) : list byte :=
  match k with
  | O => []
  | S k => low_byte n :: to_le_bytes k (n / 256)
  end.
Fixpoint from_le_bytes (l : list byte) : N :=
  match l with
  | [] => 0
  | b :: l => Byte.to_N b + 256 * from_le_bytes l
  end.
Definition to_be_bytes (k : nat) (n : N) : list byte := reverse (to_le_bytes k n).
Definition from_be_bytes (l : list byte) : N := from_le_bytes (reverse l).

Lemma length_to_le_bytes k n : length (to_le_bytes k n) = k.
Proof. revert n; induction k as [|k IH]; intros n; cbn; [done|]. by rewrite IH. Qed.
Lemma length_to_be_bytes k n : length (to_be_bytes k n) = k.
Proof. unfold to_be_bytes. by rewrite length_reverse, length_to_le_bytes. Qed.

Lemma from_to_le_bytes k n : n < 256 ^ N.of_nat k → from_le_bytes (to_le_bytes k n) = n.
Proof.
  revert n; induction k as [|k IH]; intros n Hn; cbn -[N.mul N.pow N.div].
  - cbn in Hn. lia.
  - rewrite low_byte_to_N, IH.
    + pose proof (N.div_mod' n 256). lia.
    + apply N.Div0.div_lt_upper_bound.
      by rewrite <- N.pow_succ_r', <- Nat2N.inj_succ.
Qed.
Lemma from_to_be_bytes k n : n < 256 ^ N.of_nat k → from_be_bytes (to_be_bytes k n) = n.
Proof.
  intros. unfold from_be_bytes, to_be_bytes. rewrite reverse_involutive.
  by apply from_to_le_bytes.
Qed.
Lemma u64_le_roundtrip n : is_u64 n → from_le_bytes (to_le_bytes 8 n) = n.
Proof. intros. apply from_to_le_bytes. change (256 ^ N.of_nat 8) with (U64_MAX + 1). u64. Qed.
Lemma u64_be_roundtrip n : is_u64 n → from_be_bytes (to_be_bytes 8 n) = n.
Proof. intros. apply from_to_be_bytes. change (256 ^ N.of_nat 8) with (U64_MAX + 1). u64. Qed.
Lemma from_le_bytes_bound l : from_le_bytes l < 256 ^ N.of_nat (length l).
Proof.
  induction l as [|b l IH]; cbn -[N.mul N.pow]; [cbn; lia|].
  rewrite Nat2N.inj_succ, N.pow_succ_r'. pose proof (Byte.to_N_bounded b). lia.
Qed.
Lemma from_be_bytes_bound l : from_be_bytes l < 256 ^ N.of_nat (length l).
Proof. unfold from_be_bytes. rewrite <- length_reverse. apply from_le_bytes_bound. Qed.
Lemma to_le_bytes_inj k m n :
  m < 256 ^ N.of_nat k → n < 256 ^ N.of_nat k → to_le_bytes k m = to_le_bytes k n → m = n.
Proof.
  intros Hm Hn H. rewrite <- (from_to_le_bytes k m), <- (from_to_le_bytes k n) by done.
  by rewrite H.
Qed.

(** A Rust array [[u8; n]]: the bytes with their length fixed by the type. *)
Record array (n : nat) := mk_array {
  arr_bytes : list byte;
  arr_len : bool_decide (length arr_bytes = n)
}.
Arguments mk_array {n}.
Arguments arr_bytes {n}.
Arguments arr_len {n}.

Lemma array_eq {n} (a b : array n) : arr_bytes a = arr_bytes b → a = b.
Proof.
  destruct a as [l Hl], b as [l' Hl']; cbn. intros ->. f_equal. apply proof_irrel.
Qed.
Lemma length_arr_bytes {n} (a : array n) : length (arr_bytes a) = n.
Proof. destruct a as [l Hl]; cbn. by apply bool_decide_unpack in Hl. Qed.

#[global] Instance array_eq_dec {n} : EqDecision (array n).
Proof.
  intros a b. destruct (decide (arr_bytes a = arr_bytes b)) as [H|H].
  - left. by apply array_eq.
  - right. congruence.
Defined.

(** [TryFrom<Vec<u8>> for [u8; n]]: fails on any other length. *)
Definition try_into_array (n : nat) (l : list byte) : option (array n) :=
  match decide (length l = n) with
  | left H => Some (mk_array l (bool_decide_pack _ H))
  | right _ => None
  end.

Lemma try_into_array_Some n l a : try_into_array n l = Some a ↔ l = arr_bytes a.
Proof.
  unfold try_into_array. case_decide as H.
  - split; [by intros [= <-]|]. intros ->. f_equal. by apply array_eq.
  - split; [done|]. intros ->. by rewrite length_arr_bytes in H.
Qed.
Lemma try_into_array_bytes {n} (a : array n) : try_into_array n (arr_bytes a) = Some a.
Proof. by apply try_into_array_Some. Qed.
Lemma try_into_array_None n l : try_into_array n l = None ↔ length l ≠ n.
Proof. unfold try_into_array. case_decide; naive_solver. Qed.

#[global] Program Instance array_countable {n} : Countable (array n) :=
  inj_countable arr_bytes (try_into_array n) _.
Next Obligation. intros n a. apply try_into_array_bytes. Qed.

(** The array whose every byte is [b], and an array from a number's
    big-endian digits. *)
Program Definition array_fill (n : nat) (b : byte) : array n :=
  mk_array (replicate n b) _.
Next Obligation. intros. apply bool_decide_pack, length_replicate. Qed.
Program Definition array_of_N (n : nat) (v : N) : array n := mk_array (to_be_bytes n v) _.
Next Obligation. intros. apply bool_decide_pack, length_to_be_bytes. Qed.

#[export] Hint Resolve length_arr_bytes try_into_array_bytes u64_le_roundtrip
  u64_be_roundtrip : podseq.

(** ** Ordered maps and sorted vectors

    A Rust [BTreeMap<u64, A>] is a [gmap N A] read in ascending key order. *)

Definition key_le {A} (x y : N * A) : Prop := x.1 ≤ y.1.
#[global] Instance key_le_dec {A} (x y : N * A) : Decision (key_le x y).
Proof. unfold key_le. apply _. Defined.
#[global] Instance key_le_total {A} : Total (@key_le A).
Proof. intros x y. unfold key_le. lia. Qed.
#[global] Instance key_le_trans {A} : Transitive (@key_le A).
Proof. intros x y z. unfold key_le. lia. Qed.
#[global] Instance N_le_total : Total N.le.
Proof. intros x y. lia. Qed.

Definition btree_entries {A} (m : gmap N A) : list (N * A) :=
  merge_sort key_le (map_to_list m).

Lemma btree_entries_perm {A} (m : gmap N A) : btree_entries m ≡ₚ map_to_list m.
Proof. apply merge_sort_Permutation. Qed.
Lemma elem_of_btree_entries {A} (m : gmap N A) k v : (k, v) ∈ btree_entries m ↔ m !! k = Some v.
Proof. by rewrite btree_entries_perm, elem_of_map_to_list. Qed.
Lemma btree_entries_sorted {A} (m : gmap N A) : StronglySorted key_le (btree_entries m).
Proof. apply (StronglySorted_merge_sort key_le). Qed.
Lemma NoDup_btree_keys {A} (m : gmap N A) : NoDup (btree_entries m).*1.
Proof. rewrite btree_entries_perm. apply NoDup_fst_map_to_list. Qed.

(** [Vec::dedup]: drop an element equal to the one before it. *)
Fixpoint dedup (l : list N) : list N :=
  match l with
  | [] => []
  | x :: l' => match l' with
               | y :: _ => if x =? y then dedup l' else x :: dedup l'
               | [] => [x]
               end
  end.

(** Strictly ascending. *)
Abbreviation ascending := (StronglySorted N.lt).

Lemma elem_of_dedup x l : x ∈ dedup l ↔ x ∈ l.
Proof.
  induction l as [|a l IH]; [done|]. destruct l as [|b l]; [done|].
  change (dedup (a :: b :: l)) with (if a =? b then dedup (b :: l) else a :: dedup (b :: l)).
  destruct (N.eqb_spec a b) as [->|Hab].
  - rewrite IH, !elem_of_cons. tauto.
  - rewrite !elem_of_cons, IH, elem_of_cons. done.
Qed.

Lemma dedup_ascending l : StronglySorted N.le l → ascending (dedup l).
Proof.
  induction 1 as [|a l Hs IH Ha]; [constructor|]. destruct l as [|b l]; [by repeat constructor|].
  change (dedup (a :: b :: l)) with (if a =? b then dedup (b :: l) else a :: dedup (b :: l)).
  destruct (N.eqb_spec a b) as [->|Hab]; [done|]. constructor; [done|].
  apply Forall_forall. intros x Hx. rewrite elem_of_dedup in Hx.
  inversion_clear Hs as [|?? _ Hb]. rewrite Forall_forall in Ha, Hb.
  assert (a ≤ b) by (apply Ha; left).
  apply elem_of_cons in Hx as [->|Hx]; [lia|]. specialize (Hb _ Hx). lia.
Qed.

Lemma dedup_id l : ascending l → dedup l = l.
Proof.
  induction 1 as [|a l Hs IH Ha]; [done|]. destruct l as [|b l]; [done|].
  change (dedup (a :: b :: l)) with (if a =? b then dedup (b :: l) else a :: dedup (b :: l)).
  rewrite Forall_forall in Ha. assert (a < b) by (apply Ha; left).
  destruct (N.eqb_spec a b); [lia|]. by rewrite IH.
Qed.

Lemma ascending_le l : ascending l → StronglySorted N.le l.
Proof.
  induction 1 as [|a l Hs IH Ha]; constructor; [done|].
  eapply Forall_impl; [done|]. intros x. apply N.lt_le_incl.
Qed.

Lemma ascending_ext l k : ascending l → ascending k → (∀ x, x ∈ l ↔ x ∈ k) → l = k.
Proof.
  intros Hl. revert k. induction Hl as [|a l Hs IH Ha]; intros [|b k] Hk Hx.
  - done.
  - specialize (Hx b). exfalso. eapply not_elem_of_nil, Hx. left.
  - specialize (Hx a). exfalso. eapply not_elem_of_nil, Hx. left.
  - inversion_clear Hk as [|?? Hks Hb]. rewrite Forall_forall in Ha, Hb.
    assert (a = b) as <-.
    { pose proof (proj1 (Hx a) ltac:(left)) as Hab.
      pose proof (proj2 (Hx b) ltac:(left)) as Hba.
      apply elem_of_cons in Hab as [?|?]; [done|]. apply elem_of_cons in Hba as [?|?]; [done|].
      assert (a < b) by (by apply Ha). assert (b < a) by (by apply Hb). lia. }
    f_equal. apply IH; [done|]. intros x. split; intros Hin.
    + specialize (Ha x Hin). pose proof (proj1 (Hx x) ltac:(by right)) as H1.
      apply elem_of_cons in H1 as [->|?]; [lia|done].
    + specialize (Hb x Hin). pose proof (proj2 (Hx x) ltac:(by right)) as H1.
      apply elem_of_cons in H1 as [->|?]; [lia|done].
Qed.

(** [slice::binary_search] on an ascending slice: the index of the element, or
    the index where inserting keeps the order. *)
Fixpoint binary_search (l : list N) (h : N) : result nat nat :=
  match l with
  | [] => Err O
  | x :: l =>
      if x =? h then Ok O
      else if h <? x then Err O
      else match binary_search l h with Ok i => Ok (S i) | Err i => Err (S i) end
  end.
(** [Vec::insert] and [Vec::remove] *)
Definition vec_insert {A} (i : nat) (x : A) (l : list A) : list A := take i l ++ x :: drop i l.
Definition vec_remove {A} (i : nat) (l : list A) : list A := take i l ++ drop (S i) l.

Lemma binary_search_spec l h :
  ascending l →
  match binary_search l h with
  | Ok i => l !! i = Some h
  | Err i => (h ∉ l) ∧ ascending (vec_insert i h l)
  end.
Proof.
  induction 1 as [|a l Hs IH Ha]; cbn [binary_search].
  - split; [apply not_elem_of_nil|]. by repeat constructor.
  - pose proof Ha as Ha'. rewrite Forall_forall in Ha'.
    destruct (N.eqb_spec a h) as [->|Hne]; [done|]. destruct (N.ltb_spec h a) as [Hlt|Hge].
    + split.
      * intros [->|Hin]%elem_of_cons; [lia|]. specialize (Ha' _ Hin). lia.
      * unfold vec_insert; cbn. constructor; [by constructor|]. constructor; [done|].
        eapply Forall_impl; [done|]. intros x. cbn. lia.
    + destruct (binary_search l h) as [i|i]; [done|]. destruct IH as [Hn Hi]. split.
      * by intros [->|Hin]%elem_of_cons.
      * unfold vec_insert in *; cbn. constructor; [done|].
        apply Forall_app; split; [by apply Forall_take|].
        constructor; [lia|by apply Forall_drop].
Qed.

Lemma elem_of_vec_insert {A} i (h x : A) l : x ∈ vec_insert i h l ↔ x = h ∨ x ∈ l.
Proof.
  unfold vec_insert. rewrite elem_of_app, elem_of_cons.
  rewrite <- (take_drop i l) at 3. rewrite elem_of_app. naive_solver.
Qed.

Lemma vec_remove_ascending i l : ascending l → ascending (vec_remove i l).
Proof.
  revert i. induction l as [|a l IH]; intros i Hl; [by destruct i|].
  inversion_clear Hl as [|?? Hs Ha]. destruct i as [|i]; [done|].
  unfold vec_remove in *; cbn. constructor; [by apply IH|].
  apply Forall_app; split; [by apply Forall_take|by apply Forall_drop].
Qed.

Lemma elem_of_vec_remove i h x l :
  ascending l → l !! i = Some h → x ∈ vec_remove i l ↔ x ≠ h ∧ x ∈ l.
Proof.
  intros Hl Hi. pose proof (take_drop_middle l i h Hi) as Hm.
  rewrite <- Hm in Hl. rewrite <- Hm at 2. unfold vec_remove.
  rewrite !elem_of_app, elem_of_cons.
  apply StronglySorted_app in Hl as (Hc & _ & Hs).
  inversion_clear Hs as [|?? _ Hh]. rewrite Forall_forall in Hh.
  split; [|naive_solver].
  intros [Hx|Hx]; split; [|by left|intros ->; specialize (Hh _ Hx); lia|by right; right].
  intros ->. specialize (Hc h h Hx ltac:(left)). lia.
Qed.

