(* ===== verification/Text.v ===== *)
(** Text operations of Rust's standard library the node uses: [str::trim],
    [trim_start_matches], [split_once], radix parsing and the
    [{:x}] / [{}] formats.

    A Rust string is a [string] of its UTF-8 bytes.  The trimming functions
    treat the ASCII white space characters; the node's inputs (hex, JSON,
    object ids, HTTP headers) are ASCII. *)

From Stdlib Require Import Lia Ascii.
From S2P Require Import Prelude.
Local Open Scope string_scope.
Local Open Scope N_scope.

(** ** Trimming and prefixes *)

Definition is_space (c : Ascii.ascii) : bool :=
  let n := Ascii.N_of_ascii c in (n =? 32) || ((9 <=? n) && (n <=? 13)).

Fixpoint trim_start (s : string) : string :=
  match s with
  | "" => ""
  | String c s' => if is_space c then trim_start s' else s
  end.

(** Remove trailing white space: keep a character when something non-blank
    follows it or it is not blank itself. *)
Fixpoint trim_end (s : string) : string :=
  match s with
  | "" => ""
  | String c s' =>
      match trim_end s' with
      | "" => if is_space c then "" else String c ""
      | t => String c t
      end
  end.

Definition trim (s : string) : string := trim_end (trim_start s).
Definition is_blank (s : string) : bool := bool_decide (trim s = "").

Fixpoint strip_prefix (p s : string) : option string :=
  match p, s with
  | "", _ => Some s
  | String a p', String b s' => if decide (a = b) then strip_prefix p' s' else None
  | String _ _, "" => None
  end.
Definition starts_with (p s : string) : bool :=
  match strip_prefix p s with Some _ => true | None => false end.

(** [trim_start_matches(p)] removes every leading copy of [p]; the fuel is
    the length of the text, which each removal shortens. *)
Fixpoint trim_start_matches_go (fuel : nat) (p s : string) : string :=
  match fuel with
  | O => s
  | S fuel => match strip_prefix p s with
              | Some s' => trim_start_matches_go fuel p s'
              | None => s
              end
  end.
Definition trim_start_matches (p s : string) : string :=
  trim_start_matches_go (String.length s) p s.

(** [str::contains] *)
Fixpoint str_contains (p s : string) : bool :=
  starts_with p s || match s with "" => false | String _ s' => str_contains p s' end.

(** ** Splitting *)

(** [split_once(c)]: the text before and after the first [c]. *)
Fixpoint split_once (c : Ascii.ascii) (s : string) : option (string * string) :=
  match s with
  | "" => None
  | String a s' =>
      if decide (a = c) then Some ("", s')
      else '(l, r) ← split_once c s'; Some (String a l, r)
  end.

(** The text after the last occurrence of [p], and [rsplit(p).next()] for a
    non-empty [p]. *)
Fixpoint after_last (p s : string) : option string :=
  match s with
  | "" => None
  | String _ s' => match after_last p s' with Some r => Some r | None => strip_prefix p s end
  end.
Definition rsplit_next (p s : string) : string := default s (after_last p s).
Example rsplit_next_coin : rsplit_next "::" "0x2::sui::SUI" = "SUI" ∧ rsplit_next "::" "SUI" = "SUI".
Proof. done. Qed.

(** ** Letter case *)

Definition lower_char (c : Ascii.ascii) : Ascii.ascii :=
  let n := Ascii.N_of_ascii c in
  if (65 <=? n) && (n <=? 90) then Ascii.ascii_of_N (n + 32) else c.
Fixpoint to_lowercase (s : string) : string :=
  match s with
  | "" => ""
  | String c s' => String (lower_char c) (to_lowercase s')
  end.

(** ** Numbers *)

Definition digit_val (c : Ascii.ascii) : option N :=
  let n := Ascii.N_of_ascii c in
  if (48 <=? n) && (n <=? 57) then Some (n - 48)
  else if (97 <=? n) && (n <=? 122) then Some (n - 87)
  else if (65 <=? n) && (n <=? 90) then Some (n - 55)
  else None.
Definition digit_char (d : N) : Ascii.ascii :=
  Ascii.ascii_of_N (if d <? 10 then 48 + d else 87 + d).

Fixpoint parse_digits (r : N) (s : string) (acc : N) : option N :=
  match s with
  | "" => Some acc
  | String c s' =>
      d ← digit_val c;
      if d <? r then parse_digits r s' (acc * r + d) else None
  end.

(** [u64::from_str_radix]: an optional [+], at least one digit, and the
    value in range. *)
Definition from_str_radix (r : N) (s : string) : option N :=
  let body := match s with String "+"%char s' => s' | _ => s end in
  match body with
  | "" => None
  | _ => v ← parse_digits r body 0; if v <=? U64_MAX then Some v else None
  end.
Definition parse_u64 (s : string) : option N := from_str_radix 10 s.

Fixpoint fmt_digits (fuel : nat) (r n : N) (acc : string) : string :=
  match fuel with
  | O => acc
  | S fuel =>
      let acc' := String (digit_char (n mod r)) acc in
      if n / r =? 0 then acc' else fmt_digits fuel r (n / r) acc'
  end.
(** [format!("{n:x}")] and [format!("{n}")] of a [u64]: 16 hexadecimal or 20
    decimal digits always suffice. *)
Definition fmt_hex (n : N) : string := fmt_digits 16 16 n "".
Definition fmt_dec (n : N) : string := fmt_digits 20 10 n "".

(** ** UTF-8 *)

(** [str::as_bytes] *)
Fixpoint string_bytes (s : string) : list byte :=
  match s with
  | "" => []
  | String c s' => Ascii.byte_of_ascii c :: string_bytes s'
  end.

(** A continuation byte, and the well-formed sequences of Unicode Table 3-7,
    which [str::from_utf8] accepts. *)
Definition in_range (lo hi : N) (b : byte) : bool := (lo <=? Byte.to_N b) && (Byte.to_N b <=? hi).
Definition cont (b : byte) : bool := in_range 0x80 0xBF b.
Fixpoint is_utf8 (fuel : nat) (l : list byte) : bool :=
  match fuel with
  | O => match l with [] => true | _ => false end
  | S fuel =>
      match l with
      | [] => true
      | a :: l1 =>
          if in_range 0 0x7F a then is_utf8 fuel l1 else
          match l1 with
          | b :: l2 =>
              if in_range 0xC2 0xDF a then cont b && is_utf8 fuel l2 else
              match l2 with
              | c :: l3 =>
                  if in_range 0xE0 0xEF a then
                    (if Byte.to_N a =? 0xE0 then in_range 0xA0 0xBF b
                     else if Byte.to_N a =? 0xED then in_range 0x80 0x9F b else cont b)
                    && cont c && is_utf8 fuel l3
                  else
                    match l3 with
                    | d :: l4 =>
                        in_range 0xF0 0xF4 a
                        && (if Byte.to_N a =? 0xF0 then in_range 0x90 0xBF b
                            else if Byte.to_N a =? 0xF4 then in_range 0x80 0x8F b else cont b)
                        && cont c && cont d && is_utf8 fuel l4
                    | _ => false
                    end
              | _ => false
              end
          | _ => false
          end
      end
  end.

(** [String::from_utf8], which [std::fs::read_to_string] applies. *)
Fixpoint bytes_string (l : list byte) : string :=
  match l with
  | [] => ""
  | b :: l => String (Ascii.ascii_of_byte b) (bytes_string l)
  end.
Definition from_utf8 (l : list byte) : option string :=
  if is_utf8 (length l) l then Some (bytes_string l) else None.

Lemma bytes_string_bytes s : bytes_string (string_bytes s) = s.
Proof. induction s as [|c s IH]; cbn; [done|]. by rewrite Ascii.ascii_of_byte_of_ascii, IH. Qed.

Lemma from_utf8_ascii s :
  forallb (in_range 0 0x7F) (string_bytes s) = true → from_utf8 (string_bytes s) = Some s.
Proof.
  intros H. unfold from_utf8. rewrite bytes_string_bytes.
  enough (is_utf8 (length (string_bytes s)) (string_bytes s) = true) as -> by done.
  induction (string_bytes s) as [|b l IH]; [done|]. cbn [length is_utf8].
  cbn [forallb] in H. apply andb_true_iff in H as [-> H]. by apply IH.
Qed.

(** ** Lemmas *)

Lemma string_bytes_app a b : string_bytes (a +:+ b) = (string_bytes a ++ string_bytes b)%list.
Proof.
  induction a as [|c a IH]; [done|]. change (String c a +:+ b) with (String c (a +:+ b)).
  cbn [string_bytes]. by rewrite IH.
Qed.
Lemma string_app_assoc a b c : (a +:+ b) +:+ c = a +:+ (b +:+ c).
Proof.
  induction a as [|x a IH]; [done|].
  change (String x ((a +:+ b) +:+ c) = String x (a +:+ (b +:+ c))). by rewrite IH.
Qed.

Lemma strip_prefix_app p s : strip_prefix p (p +:+ s) = Some s.
Proof.
  induction p as [|c p IH]; [done|].
  change (String c p +:+ s) with (String c (p +:+ s)). cbn [strip_prefix].
  by rewrite decide_True.
Qed.

Lemma trim_start_matches_none p s :
  strip_prefix p s = None → trim_start_matches p s = s.
Proof.
  unfold trim_start_matches. destruct (String.length s); cbn; [done|]. by intros ->.
Qed.

Lemma digit_val_char d : d < 16 → digit_val (digit_char d) = Some d.
Proof.
  intros Hd. unfold digit_val, digit_char.
  assert (∀ m, m < 256 → Ascii.N_of_ascii (Ascii.ascii_of_N m) = m) as Hasc
    by (intros; by apply Ascii.N_ascii_embedding).
  destruct (N.ltb_spec d 10).
  - rewrite Hasc by lia.
    destruct (N.leb_spec 48 (48 + d)), (N.leb_spec (48 + d) 57); cbn [andb]; try lia.
    f_equal; lia.
  - rewrite Hasc by lia.
    destruct (N.leb_spec 48 (87 + d)), (N.leb_spec (87 + d) 57), (N.leb_spec 97 (87 + d)),
      (N.leb_spec (87 + d) 122); cbn [andb]; try lia; f_equal; lia.
Qed.

Lemma fmt_digits_parse fuel r n acc :
  1 < r ≤ 16 → n < r ^ N.of_nat fuel → fuel ≠ O →
  ∃ k, ∀ a, parse_digits r (fmt_digits fuel r n acc) a = parse_digits r acc (a * r ^ k + n).
Proof.
  intros Hr. revert n acc. induction fuel as [|fuel IH]; intros n acc Hn Hf; [done|].
  cbn [fmt_digits].
  assert (n mod r < r) as Hm by (apply N.mod_lt; lia).
  assert (∀ a s, parse_digits r (String (digit_char (n mod r)) s) a
                 = parse_digits r s (a * r + n mod r)) as Hstep.
  { intros a s. cbn [parse_digits]. rewrite digit_val_char by lia. cbn.
    by destruct (N.ltb_spec (n mod r) r); [|lia]. }
  pose proof (N.div_mod' n r) as Hdm.
  destruct (N.eqb_spec (n / r) 0) as [Hz|Hz].
  - exists 1. intros a. rewrite Hstep. f_equal. rewrite N.pow_1_r. rewrite Hz in Hdm. lia.
  - destruct (IH (n / r) (String (digit_char (n mod r)) acc)) as [k Hk].
    + apply N.Div0.div_lt_upper_bound. by rewrite <- N.pow_succ_r', <- Nat2N.inj_succ.
    + intros ->. rewrite N.pow_1_r in Hn. apply Hz. by apply N.div_small.
    + exists (N.succ k). intros a. rewrite Hk, Hstep. f_equal.
      rewrite N.pow_succ_r', N.mul_add_distr_r, <- (N.mul_assoc a).
      rewrite (N.mul_comm (r ^ k) r), (N.mul_comm (n / r) r). lia.
Qed.

Lemma fmt_digits_head fuel r n acc :
  fuel ≠ O → 1 < r ≤ 16 → ∃ d s, d < 16 ∧ fmt_digits fuel r n acc = String (digit_char d) s.
Proof.
  intros Hf Hr. revert n acc. induction fuel as [|fuel IH]; intros n acc; [done|].
  cbn [fmt_digits]. assert (n mod r < r) as Hm by (apply N.mod_lt; lia).
  destruct (_ =? 0) eqn:Hz; [eexists _, _; split; [|done]; lia|].
  destruct fuel as [|fuel]; [cbn; eexists _, _; split; [|done]; lia|].
  apply IH. done.
Qed.

Lemma from_str_radix_fmt fuel r n :
  1 < r ≤ 16 → n < r ^ N.of_nat fuel → fuel ≠ O → is_u64 n →
  from_str_radix r (fmt_digits fuel r n "") = Some n.
Proof.
  intros Hr Hn Hf Hu. unfold from_str_radix.
  destruct (fmt_digits_head fuel r n "" Hf Hr) as (d & s & Hd & Hs).
  destruct (fmt_digits_parse fuel r n "" Hr Hn Hf) as [k Hk].
  specialize (Hk 0). rewrite Hs in Hk |- *.
  change (parse_digits r "" (0 * r ^ k + n)) with (Some (0 * r ^ k + n)) in Hk.
  assert (digit_char d ≠ "+"%char) as Hplus.
  { intros Heq. apply (f_equal digit_val) in Heq. by rewrite digit_val_char in Heq. }
  replace (match String (digit_char d) s with
           | String "+"%char s' => s' | _ => String (digit_char d) s end)
    with (String (digit_char d) s).
  - rewrite Hk. cbn -[N.mul N.add N.pow U64_MAX].
    destruct (N.leb_spec (0 * r ^ k + n) U64_MAX); [f_equal; lia|].
    unfold is_u64 in Hu. lia.
  - destruct (digit_char d) as [[] [] [] [] [] [] [] []]; done.
Qed.

(** [{:x}] and [{}] formats parse back. *)
Lemma fmt_hex_roundtrip n : is_u64 n → from_str_radix 16 (fmt_hex n) = Some n.
Proof.
  intros H. apply from_str_radix_fmt; [done| |done|done].
  change (16 ^ N.of_nat 16) with (U64_MAX + 1). u64.
Qed.
Lemma fmt_dec_roundtrip n : is_u64 n → parse_u64 (fmt_dec n) = Some n.
Proof.
  intros H. apply from_str_radix_fmt; [done| |done|done].
  change (10 ^ N.of_nat 20) with 100000000000000000000. u64.
Qed.

Lemma fmt_hex_no_0x n : strip_prefix "0x" (fmt_hex n) = None.
Proof.
  destruct (fmt_digits_head 16 16 n "") as (d & s & Hd & Hs); [done|done|].
  unfold fmt_hex. rewrite Hs. cbn. case_decide as Hz; [|done].
  destruct s as [|c s]; [done|]. case_decide as Hx; [|done]. subst c. exfalso.
  destruct (fmt_digits_parse 16 16 (n mod 16 ^ 16) "") as [k Hk]; [done| |done|].
  { apply N.mod_lt. done. }
  (* every character of the output is a digit *)
  assert (∀ fuel n acc, (∀ c, c ∈ String.list_ascii_of_string acc → c ≠ "x"%char) →
    ∀ c, c ∈ String.list_ascii_of_string (fmt_digits fuel 16 n acc) → c ≠ "x"%char) as Hall.
  { clear. induction fuel as [|fuel IH]; intros n acc Hacc; cbn [fmt_digits]; [done|].
    assert (∀ c, c ∈ String.list_ascii_of_string (String (digit_char (n mod 16)) acc) →
                 c ≠ "x"%char) as Hacc'.
    { cbn. intros c [->|Hc]%elem_of_cons; [|by apply Hacc].
      assert (n mod 16 < 16) as Hm by (apply N.mod_lt; done).
      intros Heq. apply (f_equal digit_val) in Heq. rewrite digit_val_char in Heq by done.
      change (digit_val "x"%char) with (Some 33) in Heq. injection Heq as Heq. rewrite Heq in Hm.
      by compute in Hm. }
    destruct (_ =? 0); [done|]. by apply IH. }
  eapply (Hall 16%nat n "").
  - cbn. intros c Hc. by apply not_elem_of_nil in Hc.
  - rewrite Hs. cbn. right. left.
  - done.
Qed.

(** The node writes quantities as ["0x…"] and reads them by stripping the
    prefix, so a quantity reads back as the number it was. *)
Lemma hex_qty_roundtrip n :
  is_u64 n → from_str_radix 16 (trim_start_matches "0x" ("0x" +:+ fmt_hex n)) = Some n.
Proof.
  intros H. unfold trim_start_matches.
  change (String.length ("0x" +:+ fmt_hex n)) with (S (S (String.length (fmt_hex n)))).
  cbn [trim_start_matches_go]. rewrite (strip_prefix_app "0x").
  rewrite fmt_hex_no_0x. by apply fmt_hex_roundtrip.
Qed.

#[export] Hint Resolve fmt_hex_roundtrip fmt_dec_roundtrip hex_qty_roundtrip : podseq.

