(* ===== verification/Codec.v ===== *)
(** Third-party codecs and cryptography the node calls, as interfaces: BCS,
    JSON, base64, hex, ed25519 and the Sui SDK's addresses.

    Each class holds the operations; the class next to it holds the documented
    laws the theorems rely on.  [CountableCodec] gives concrete instances, used
    by the witnesses only. *)

From Stdlib Require Import Ascii.
From S2P Require Import Prelude Text.
Local Open Scope string_scope.
Local Open Scope list_scope.
Local Open Scope N_scope.

(** ** BCS *)

Class Bcs (A : Type) := {
  bcs_to_bytes : A → result string (list byte);
  bcs_from_bytes : list byte → result string A
}.

(** BCS is a canonical encoding: decoding inverts encoding, and a value has
    exactly one byte string. *)
Class BcsLaws (A : Type) `{Bcs A} := {
  bcs_decode_encode a bs : bcs_to_bytes a = Ok bs → bcs_from_bytes bs = Ok a;
  bcs_encode_decode a bs : bcs_from_bytes bs = Ok a → bcs_to_bytes a = Ok bs
}.

(** ** JSON *)

Class Json (A : Type) := {
  json_to_string_pretty : A → result string string;
  json_from_str : string → result string A
}.

(** serde_json prints a struct as a non-blank UTF-8 document that parses
    back. *)
Class JsonLaws (A : Type) `{Json A} := {
  json_roundtrip a s : json_to_string_pretty a = Ok s → json_from_str s = Ok a;
  json_not_blank a s : json_to_string_pretty a = Ok s → is_blank s = false;
  json_utf8 a s : json_to_string_pretty a = Ok s → from_utf8 (string_bytes s) = Some s
}.

(** ** Base64 and hex *)

Class Base64 := {
  b64_decode : string → result string (list byte);
  b64url_decode : string → result string (list byte);
  b64url_encode : list byte → string
}.
(** The unpadded URL-safe engine decodes what it encodes and is strict: it
    accepts one text per byte string. *)
Class Base64Laws `{Base64} := {
  b64url_roundtrip bs : b64url_decode (b64url_encode bs) = Ok bs;
  b64url_canonical s bs : b64url_decode s = Ok bs → b64url_encode bs = s
}.

(** The [hex] crate: lower-case digits without a prefix. *)
Class Hex := {
  hex_encode : list byte → string;
  hex_decode : string → result string (list byte)
}.
Definition hex_digit (c : Ascii.ascii) : Prop := ∃ d, d < 16 ∧ c = digit_char d.
Class HexLaws `{Hex} := {
  hex_roundtrip bs : hex_decode (hex_encode bs) = Ok bs;
  hex_digits bs : Forall hex_digit (String.list_ascii_of_string (hex_encode bs))
}.
Lemma hex_digit_plain c : hex_digit c → is_space c = false ∧ in_range 0 0x7F (Ascii.byte_of_ascii c) = true.
Proof.
  intros (d & Hd & ->).
  assert (Forall (λ d, is_space (digit_char d) = false ∧
    in_range 0 0x7F (Ascii.byte_of_ascii (digit_char d)) = true) (N.of_nat <$> seq 0 16)) as Hall.
  { by apply (bool_decide_unpack _). }
  rewrite Forall_forall in Hall. apply Hall, list_elem_of_fmap. exists (N.to_nat d).
  split; [lia|apply elem_of_seq; lia].
Qed.
(** Text without spaces survives trimming; digits decode as text. *)
Lemma trim_plain s : Forall (λ c, is_space c = false) (String.list_ascii_of_string s) → trim s = s.
Proof.
  intros Hs. unfold trim. assert (trim_start s = s) as ->.
  { destruct s as [|c s]; [done|]. inversion_clear Hs as [|?? Hc _]. cbn [trim_start]. by rewrite Hc. }
  induction s as [|c s IH]; [done|]. inversion_clear Hs as [|?? Hc Hs'].
  cbn [trim_end]. rewrite IH by done. destruct s; [by rewrite Hc|done].
Qed.
Lemma trim_digits s : Forall hex_digit (String.list_ascii_of_string s) → trim s = s.
Proof. intros Hs. apply trim_plain. eapply Forall_impl; [exact Hs|]. by intros c []%hex_digit_plain. Qed.
Lemma utf8_digits s :
  Forall hex_digit (String.list_ascii_of_string s) → from_utf8 (string_bytes s) = Some s.
Proof.
  intros Hs. apply from_utf8_ascii. induction s as [|c s IH]; [done|].
  inversion_clear Hs as [|?? [_ Hc]%hex_digit_plain Hs']. cbn [string_bytes forallb].
  by rewrite Hc, IH.
Qed.

(** ** Hashes *)

Class Hashes := {
  sha256 : list byte → array 32;
  keccak256 : list byte → array 32
}.

(** ** Ed25519 keys and signatures (sui-crypto) *)

(** [SimpleSignature]: only the ed25519 variant is told apart. *)
Inductive SimpleSignature :=
| SigEd25519 (signature : array 64)
| SigOther.

Class Ed25519 (PrivKey PubKey : Type) := {
  key_new : array 32 → PrivKey;
  from_suiprivkey : string → result string PrivKey;
  public_key : PrivKey → PubKey;
  derive_address : PubKey → array 32;
  try_sign : PrivKey → list byte → result string SimpleSignature;
  verify : PubKey → list byte → array 64 → result string unit
}.
(** Signing is correct: what [try_sign] returns verifies under the key's
    public half. *)
Class Ed25519Laws (PrivKey PubKey : Type) `{Ed25519 PrivKey PubKey} := {
  sign_verify k msg s : try_sign k msg = Ok (SigEd25519 s) → verify (public_key k) msg s = Ok tt
}.

(** ** Sui addresses *)

(** [sui_sdk_types::Address]: 32 bytes. *)
Definition Address := array 32.

(** A Move struct type: address, module, name and type parameters (as text). *)
Record StructTag := mk_StructTag {
  tag_address : Address; tag_module : string; tag_name : string; tag_params : list string
}.
#[global] Instance StructTag_eq_dec : EqDecision StructTag.
Proof. unfold Address. solve_decision. Defined.
(** [StructTag::sui()]: [0x2::sui::SUI] *)
Definition sui_tag : StructTag := mk_StructTag (array_of_N 32 2) "sui" "SUI" [].

Class SuiSdk := {
  (** [Address::from_str] and [Address::to_hex] *)
  address_from_str : string → result string Address;
  address_to_hex : Address → string;
  (** [derive_dynamic_child_id] of a key given by its Move type and its BCS
      bytes *)
  derive_dynamic_child_id : Address → string → list byte → Address;
  (** [StructTag::from_str] and its canonical text; [Identifier::new] *)
  struct_tag_from_str : string → result string StructTag;
  struct_tag_text : StructTag → string;
  identifier_new : string → result string string
}.
Class SuiSdkLaws `{SuiSdk} := {
  address_roundtrip a : address_from_str (address_to_hex a) = Ok a
}.

(** ** Concrete codecs for witnesses *)

Module CountableCodec.
Fixpoint bits_of (p : positive) : list byte :=
  match p with xH => [] | xO p => x00 :: bits_of p | xI p => x01 :: bits_of p end.
Fixpoint of_bits (l : list byte) : option positive :=
  match l with
  | [] => Some xH
  | x00 :: l => xO <$> of_bits l
  | x01 :: l => xI <$> of_bits l
  | _ => None
  end.
Lemma of_bits_of p : of_bits (bits_of p) = Some p.
Proof. induction p as [p IH|p IH|]; cbn; by rewrite ?IH. Qed.
Lemma bits_of_of l p : of_bits l = Some p → bits_of p = l.
Proof.
  revert p. induction l as [|b l IH]; intros p; [by intros [= <-]|].
  destruct b; try done; cbn; destruct (of_bits l) as [q|]; try done; cbn;
    intros [= <-]; cbn; f_equal; by apply IH.
Qed.

Section codec.
Context {A : Type} `{Countable A}.

#[export] Instance countable_bcs : Bcs A := {|
  bcs_to_bytes a := Ok (bits_of (encode a));
  bcs_from_bytes bs :=
    match of_bits bs ≫= decode with
    | Some a => if decide (bits_of (encode a) = bs) then Ok a else Err "not canonical"
    | None => Err "bcs"
    end
|}.
#[export] Instance countable_bcs_laws : BcsLaws A.
Proof.
  split; cbn.
  - intros a bs [= <-]. rewrite of_bits_of. cbn. by rewrite decode_encode, decide_True.
  - intros a bs. destruct (of_bits bs ≫= decode) as [a'|]; [|done].
    case_decide; [|done]. by intros [= <-]; subst.
Qed.

Fixpoint bits_text (p : positive) : string :=
  match p with
  | xH => "}"
  | xO p => String "0"%char (bits_text p)
  | xI p => String "1"%char (bits_text p)
  end.
Fixpoint text_bits (s : string) : option positive :=
  match s with
  | String "}"%char "" => Some xH
  | String "0"%char s => xO <$> text_bits s
  | String "1"%char s => xI <$> text_bits s
  | _ => None
  end.
#[export] Instance countable_json : Json A := {|
  json_to_string_pretty a := Ok (bits_text (encode a));
  json_from_str s := ok_or (text_bits s ≫= decode) "json"
|}.
Lemma text_bits_text p : text_bits (bits_text p) = Some p.
Proof. induction p as [p IH|p IH|]; cbn; by rewrite ?IH. Qed.
Lemma is_utf8_bits_text p : from_utf8 (string_bytes (bits_text p)) = Some (bits_text p).
Proof. apply from_utf8_ascii. induction p; cbn; by rewrite ?IHp. Qed.
#[export] Instance countable_json_laws : JsonLaws A.
Proof.
  split; cbn.
  - intros a s [= <-]. rewrite text_bits_text. cbn. by rewrite decode_encode.
  - intros a s [= <-]. apply bool_decide_eq_false. unfold trim.
    destruct (encode a); cbn;
      repeat match goal with
      | |- context [is_space ?c] => change (is_space c) with false
      end; cbn; by try destruct (trim_end _).
  - intros a s [= <-]. apply is_utf8_bits_text.
Qed.
End codec.
End CountableCodec.

(** Concrete hex, base64, crypto and address functions for witnesses: real
    hexadecimal, an identity "base64", and a signature that repeats the key
    and the start of the message. *)
Module Demo.
Fixpoint hex_enc (l : list byte) : string :=
  match l with
  | [] => ""
  | b :: l => String (digit_char (Byte.to_N b / 16))
                (String (digit_char (Byte.to_N b mod 16)) (hex_enc l))
  end.
Fixpoint hex_dec (s : string) : result string (list byte) :=
  match s with
  | "" => Ok []
  | String _ "" => Err "odd length"
  | String a (String b s) =>
      x ← ok_or (digit_val a) "invalid digit"; y ← ok_or (digit_val b) "invalid digit";
      r ← hex_dec s; Ok (low_byte (x * 16 + y) :: r)
  end.
Lemma hex_dec_enc l : hex_dec (hex_enc l) = Ok l.
Proof.
  induction l as [|b l IH]; [done|]. pose proof (Byte.to_N_bounded b).
  assert (Byte.to_N b / 16 < 16) by (apply N.Div0.div_lt_upper_bound; lia).
  assert (Byte.to_N b mod 16 < 16) by (apply N.mod_lt; lia).
  cbn [hex_dec hex_enc]. rewrite !digit_val_char by done. cbn [ok_or mbind result_bind].
  rewrite IH. cbn. do 2 f_equal. etrans; [|apply low_byte_of_to]. f_equal.
  pose proof (N.div_mod' (Byte.to_N b) 16). lia.
Qed.
Lemma hex_enc_digits l : Forall hex_digit (String.list_ascii_of_string (hex_enc l)).
Proof.
  induction l as [|b l IH]; [constructor|]. pose proof (Byte.to_N_bounded b).
  cbn [hex_enc String.list_ascii_of_string]. repeat constructor; [..|done].
  - exists (Byte.to_N b / 16). split; [apply N.Div0.div_lt_upper_bound; lia|done].
  - exists (Byte.to_N b mod 16). split; [by apply N.mod_lt|done].
Qed.

#[export] Instance hex : Hex := {| hex_encode := hex_enc; hex_decode := hex_dec |}.
#[export] Instance hex_laws : HexLaws.
Proof. split; [apply hex_dec_enc|apply hex_enc_digits]. Qed.

Lemma string_bytes_bytes l : string_bytes (bytes_string l) = l.
Proof.
  induction l as [|b l IH]; cbn; [done|]. by rewrite Ascii.byte_of_ascii_of_byte, IH.
Qed.
#[export] Instance base64 : Base64 := {|
  b64_decode s := Ok (string_bytes s);
  b64url_decode s := Ok (string_bytes s);
  b64url_encode bs := bytes_string bs
|}.
#[export] Instance base64_laws : Base64Laws.
Proof.
  split; cbn; [intros bs; by rewrite string_bytes_bytes|].
  intros s bs [= <-]. apply bytes_string_bytes.
Qed.

Definition pad (n : nat) (l : list byte) : array n :=
  match try_into_array n (take n (l ++ replicate n x00)) with
  | Some a => a | None => array_fill n x00
  end.
#[export] Instance hashes : Hashes := {| sha256 := pad 32; keccak256 := pad 32 |}.

#[export] Instance ed25519 : Ed25519 (array 32) (array 32) := {|
  key_new k := k;
  from_suiprivkey s := Err "no bech32";
  public_key k := k;
  derive_address k := k;
  try_sign k msg := Ok (SigEd25519 (pad 64 (arr_bytes k ++ msg)));
  verify k msg s := if decide (s = pad 64 (arr_bytes k ++ msg)) then Ok tt else Err "signature"
|}.
#[export] Instance ed25519_laws : Ed25519Laws (array 32) (array 32).
Proof. split. intros k msg s; cbn. intros [= <-]. by rewrite decide_True. Qed.

#[export] Instance sui : SuiSdk := {|
  address_from_str s :=
    bs ← hex_dec (default s (strip_prefix "0x" s)); ok_or (try_into_array 32 bs) "address length";
  address_to_hex a := "0x" +:+ hex_enc (arr_bytes a);
  derive_dynamic_child_id p t k := pad 32 (k ++ string_bytes t ++ arr_bytes p);
  struct_tag_from_str s :=
    if decide (s = "0x2::sui::SUI") then Ok sui_tag else Err "unknown tag";
  struct_tag_text t := tag_module t +:+ "::" +:+ tag_name t;
  identifier_new s := Ok s
|}.
#[export] Instance sui_laws : SuiSdkLaws.
Proof.
  split. intros a. cbn [address_from_str address_to_hex sui]. rewrite (strip_prefix_app "0x").
  change (default ?x (Some ?y)) with y. rewrite hex_dec_enc. cbn [mbind result_bind]. by rewrite try_into_array_bytes.
Qed.
End Demo.

