(* ===== verification/Disk.v ===== *)
(** The file system under the node's data directory.

    [std::fs] is the only way the stores touch the disk, so the disk is a map
    from paths to contents with a schedule of faults.  [std::fs::write]
    truncates and then writes, so a fault (or the machine stopping) in it
    leaves a prefix of the new contents; [std::fs::rename] is atomic.  A run
    that stops at a fault is how a crash looks to the code that runs next. *)

From Stdlib Require Import Ascii.
From S2P Require Import Prelude Text.
Local Open Scope string_scope.
Local Open Scope list_scope.
Local Open Scope N_scope.

(** A path's components below the file-system root. *)
Definition path := list string.
Definition parent (p : path) : path := take (length p - 1) p.

Inductive io_error :=
| NotFound
| InvalidData
| OtherIo.
#[global] Instance io_error_eq_dec : EqDecision io_error.
Proof. solve_decision. Defined.
Definition io_error_text (e : io_error) : string :=
  match e with
  | NotFound => "No such file or directory (os error 2)"
  | InvalidData => "stream did not contain valid UTF-8"
  | OtherIo => "input/output error"
  end.

(** What goes wrong with the next system call: nothing, a clean failure, or
    (for a write) a torn write of the first [n] bytes. *)
Inductive fault :=
| NoFault
| FailClean
| Torn (n : nat).

Record disk := mk_disk {
  files : gmap path (list byte);
  dirs : gset path;
  faults : list fault
}.

Definition next_fault (d : disk) : fault := match faults d with [] => NoFault | f :: _ => f end.
Definition pop_fault (d : disk) : disk := mk_disk (files d) (dirs d) (tail (faults d)).
Definition set_files (fs : gmap path (list byte)) (d : disk) : disk :=
  mk_disk fs (dirs d) (faults d).

Abbreviation Fs := (M disk io_error).

(** [Path::exists] *)
Definition fs_exists (p : path) (d : disk) : bool :=
  bool_decide (is_Some (files d !! p)) || bool_decide (p ∈ dirs d).

(** [std::fs::read] *)
Definition fs_read (p : path) : Fs (list byte) := λ d,
  match next_fault d with
  | NoFault => (ok_or (files d !! p) NotFound, pop_fault d)
  | _ => (Err OtherIo, pop_fault d)
  end.

(** [std::fs::read_to_string] *)
Definition fs_read_to_string (p : path) : Fs string :=
  bs ← fs_read p; lift (ok_or (from_utf8 bs) InvalidData).

(** [std::fs::write]: create or truncate, then write. *)
Definition fs_write (p : path) (bs : list byte) : Fs unit := λ d,
  if bool_decide (parent p ∈ dirs d) then
    match next_fault d with
    | NoFault => (Ok tt, pop_fault (set_files (<[p := bs]> (files d)) d))
    | FailClean => (Err OtherIo, pop_fault d)
    | Torn n => (Err OtherIo, pop_fault (set_files (<[p := take n bs]> (files d)) d))
    end
  else (Err NotFound, d).

(** [std::fs::rename] *)
Definition fs_rename (p q : path) : Fs unit := λ d,
  match next_fault d with
  | NoFault =>
      match files d !! p with
      | Some bs => (Ok tt, pop_fault (set_files (<[q := bs]> (delete p (files d))) d))
      | None => (Err NotFound, pop_fault d)
      end
  | _ => (Err OtherIo, pop_fault d)
  end.

(** [std::fs::create_dir_all]: the directory and its ancestors. *)
Definition fs_create_dir_all (p : path) : Fs unit := λ d,
  match next_fault d with
  | NoFault =>
      (Ok tt, pop_fault (mk_disk (files d)
         (dirs d ∪ list_to_set ((λ k, take k p) <$> seq 0 (S (length p)))) (faults d)))
  | _ => (Err OtherIo, pop_fault d)
  end.

(** [std::fs::read_dir]: the names of the files in a directory, in no
    particular order. *)
Definition fs_read_dir (p : path) : Fs (list string) := λ d,
  match next_fault d with
  | NoFault =>
      if bool_decide (p ∈ dirs d) then
        (Ok (omap (λ '(q, _), if bool_decide (parent q = p) then last q else None)
               (map_to_list (files d))), pop_fault d)
      else (Err NotFound, pop_fault d)
  | _ => (Err OtherIo, pop_fault d)
  end.

(** [std::fs::copy]: not atomic, the target is truncated and filled. *)
Definition fs_copy (p q : path) : Fs unit := λ d,
  match files d !! p with
  | None => (Err NotFound, d)
  | Some bs => fs_write q bs d
  end.

(** [std::fs::remove_file] *)
Definition fs_remove_file (p : path) : Fs unit := λ d,
  match next_fault d with
  | NoFault =>
      match files d !! p with
      | Some _ => (Ok tt, pop_fault (set_files (delete p (files d)) d))
      | None => (Err NotFound, pop_fault d)
      end
  | _ => (Err OtherIo, pop_fault d)
  end.

(** The last component with its extension replaced. *)
Fixpoint has_dot (f : string) : bool :=
  match f with
  | "" => false
  | String c f' => bool_decide (c = "."%char) || has_dot f'
  end.
(** The file stem: the text before the last dot.  (A leading dot only, as in
    [".bashrc"], starts a stem and not an extension.) *)
Fixpoint stem_go (first : bool) (f : string) : string :=
  match f with
  | "" => ""
  | String c f' =>
      if bool_decide (c = "."%char) && negb (has_dot f') && negb first then ""
      else String c (stem_go false f')
  end.
Definition with_extension (p : path) (ext : string) : path :=
  match last p with
  | Some f => parent p ++ [stem_go true f +:+ "." +:+ ext]
  | None => p
  end.

(** [path.with_extension("json.tmp")] of a [*.json] path. *)
Definition with_tmp (p : path) : path :=
  match last p with
  | Some f => parent p ++ [f +:+ ".tmp"]
  | None => p
  end.

(** Write a temporary file next to [p] and rename it over [p]. *)
Definition write_atomic (p : path) (text : string) : Fs unit :=
  fs_write (with_tmp p) (string_bytes text);; fs_rename (with_tmp p) p.

(** A larger world that holds the disk. *)
Class HasDisk (W : Type) := {
  get_disk : W → disk;
  put_disk : disk → W → W
}.
Class HasDiskLaws (W : Type) `{HasDisk W} := get_put_disk : ∀ d w, get_disk (put_disk d w) = d.
Definition on_disk {W E A} `{HasDisk W} (m : M disk E A) : M W E A := zoom get_disk put_disk m.
#[global] Instance disk_has_disk : HasDisk disk := {| get_disk d := d; put_disk d _ := d |}.
#[global] Instance disk_has_disk_laws : HasDiskLaws disk.
Proof. done. Qed.

(** ** Lemmas *)

Lemma snoc_ne {A} (l : list A) x : l ++ [x] ≠ [].
Proof. by destruct l. Qed.

Lemma with_tmp_ne p : p ≠ [] → with_tmp p ≠ p.
Proof.
  intros Hp. unfold with_tmp. destruct p as [|f q _] using rev_ind; [done|].
  rewrite last_snoc. unfold parent. rewrite length_app, Nat.add_sub.
  rewrite take_app_length. intros H. apply app_inv_head in H. injection H as H.
  apply (f_equal String.length) in H. revert H. clear.
  induction f as [|c f IH]; cbn; [done|]. intros [= H]. by apply IH.
Qed.

Lemma parent_with_tmp p : p ≠ [] → parent (with_tmp p) = parent p.
Proof.
  intros Hp. unfold with_tmp. destruct p as [|f q _] using rev_ind; [done|].
  rewrite last_snoc. unfold parent. rewrite !length_app; cbn. rewrite !Nat.add_sub.
  by rewrite !take_app_length.
Qed.

Lemma fs_read_ok p d bs d' :
  fs_read p d = (Ok bs, d') → files d !! p = Some bs ∧ files d' = files d ∧ dirs d' = dirs d.
Proof.
  unfold fs_read. destruct (next_fault d); [|done..]. intros [= H <-].
  by apply ok_or_ok in H.
Qed.

Lemma fs_read_frame p d r d' :
  fs_read p d = (r, d') → files d' = files d ∧ dirs d' = dirs d.
Proof. unfold fs_read. by destruct (next_fault d); intros [= <- <-]. Qed.

Lemma fs_read_to_string_frame p d r d' :
  fs_read_to_string p d = (r, d') → files d' = files d ∧ dirs d' = dirs d.
Proof.
  unfold fs_read_to_string. rewrite run_bind. destruct (fs_read p d) as [[bs|e] d1] eqn:H.
  - intros [= <- <-]. by eapply fs_read_frame.
  - intros [= <- <-]. by eapply fs_read_frame.
Qed.

Lemma fs_read_to_string_ok p d s d' :
  fs_read_to_string p d = (Ok s, d') →
  ∃ bs, files d !! p = Some bs ∧ from_utf8 bs = Some s.
Proof.
  intros H. apply bind_ok_inv in H as (bs & d1 & H1 & H2).
  apply fs_read_ok in H1 as (H1 & _). injection H2 as H2 _. apply ok_or_ok in H2. eauto.
Qed.

(** Without faults ahead there are none afterwards. *)
Definition sound_disk (d : disk) : Prop := faults d = [].
Lemma sound_pop d : sound_disk d → sound_disk (pop_fault d).
Proof. unfold sound_disk, pop_fault. cbn. by intros ->. Qed.
Lemma fs_read_sound p : preserves sound_disk (fs_read p).
Proof. intros d Hd. unfold fs_read. apply sound_pop in Hd. by repeat case_match; simplify_eq. Qed.
Lemma fs_read_to_string_sound p : preserves sound_disk (fs_read_to_string p).
Proof. apply preserves_bind; [apply fs_read_sound|]. intros bs. apply preserves_lift. Qed.
Lemma write_atomic_sound p text : preserves sound_disk (write_atomic p text).
Proof.
  apply preserves_bind; [|intros []]; intros d Hd; pose proof (sound_pop d Hd);
    unfold fs_write, fs_rename; by repeat case_match; simplify_eq.
Qed.

(** Whatever goes wrong in [write_atomic], only the target and its temporary
    file can change, and the target holds its old contents or all of the new;
    success means the new. *)
Lemma write_atomic_spec p text d r d' :
  p ≠ [] → write_atomic p text d = (r, d') →
  dirs d' = dirs d ∧
  (∀ q, q ≠ p → q ≠ with_tmp p → files d' !! q = files d !! q) ∧
  match r with
  | Ok _ => files d' !! p = Some (string_bytes text)
  | Err _ => files d' !! p = files d !! p
  end.
Proof.
  intros Hp. pose proof (with_tmp_ne p Hp) as Ht.
  unfold write_atomic. rewrite run_bind. unfold fs_write, fs_rename.
  destruct (bool_decide _).
  - destruct (next_fault d) as [| |n]; cbn.
    + rewrite lookup_insert_eq. destruct (faults d) as [|f0 l] eqn:Hf; cbn.
      * destruct (next_fault _); intros [= <- <-]; cbn; (split; [done|]);
          (split; [intros q H1 H2; by rewrite ?lookup_insert_ne, ?lookup_delete_ne,
             ?lookup_insert_ne by done|]); by rewrite ?lookup_insert_eq, ?lookup_insert_ne.
      * destruct (next_fault _); intros [= <- <-]; cbn; (split; [done|]);
          (split; [intros q H1 H2; by rewrite ?lookup_insert_ne, ?lookup_delete_ne,
             ?lookup_insert_ne by done|]); by rewrite ?lookup_insert_eq, ?lookup_insert_ne.
    + intros [= <- <-]. naive_solver.
    + intros [= <- <-]; cbn. split; [done|]. split; [|by rewrite lookup_insert_ne].
      intros q H1 H2. by rewrite lookup_insert_ne.
  - intros [= <- <-]. naive_solver.
Qed.

Lemma write_atomic_no_fault p text d :
  p ≠ [] → parent p ∈ dirs d → faults d = [] → (write_atomic p text d).1 = Ok tt.
Proof.
  intros Hp Hd Hf. unfold write_atomic. rewrite run_bind. unfold fs_write, fs_rename.
  rewrite parent_with_tmp, bool_decide_true by done. unfold next_fault. rewrite Hf. cbn.
  unfold next_fault; cbn. rewrite Hf. cbn. by rewrite lookup_insert_eq.
Qed.

#[export] Hint Resolve with_tmp_ne parent_with_tmp fs_read_frame fs_read_to_string_frame
  : podseq.

