(* ===== verification/Core.v ===== *)
(** [crates/core]: blocks and headers, the header's signing message, the serde
    form of signatures, the core error type, signer-key parsing and the
    ed25519 block signer. *)

From S2P Require Import Prelude Text Codec Disk.
Local Open Scope string_scope.
Local Open Scope list_scope.
Local Open Scope N_scope.

Definition Hash := array 32.
Definition Signature := array 64.

#[global] Instance Hash_eq_dec : EqDecision Hash := array_eq_dec.
#[global] Instance Signature_eq_dec : EqDecision Signature := array_eq_dec.

Record BlobId := mk_BlobId { blob_hash : Hash }.
#[global] Instance BlobId_eq_dec : EqDecision BlobId.
Proof. solve_decision. Defined.

Record Header := mk_Header {
  height : N;
  parent_hash : Hash;
  state_root : Hash;
  timestamp : N
}.
#[global] Instance Header_eq_dec : EqDecision Header.
Proof. solve_decision. Defined.

Record Block := mk_Block {
  header : Header;
  data : list byte;
  signature : option Signature
}.
#[global] Instance Block_eq_dec : EqDecision Block.
Proof. solve_decision. Defined.

(** The machine-width fields are in range. *)
Definition header_wf (h : Header) : Prop := is_u64 (height h) ∧ is_u64 (timestamp h).

(** ** Errors *)

Inductive Error :=
| InvalidBlock (msg : string)
| Execution (msg : string)
| DataAvailabilityE (msg : string)
| SettlementE (msg : string)
| Network (msg : string).
#[global] Instance Error_eq_dec : EqDecision Error.
Proof. solve_decision. Defined.

Definition display (e : Error) : string :=
  match e with
  | InvalidBlock msg => "invalid block: " +:+ msg
  | Execution msg => "execution failure: " +:+ msg
  | DataAvailabilityE msg => "data availability failure: " +:+ msg
  | SettlementE msg => "settlement failure: " +:+ msg
  | Network msg => "network failure: " +:+ msg
  end.

(** ** The traits of the data-availability and settlement layers

    A client of these layers (the sequencer's runner, the full node) is
    modelled against the interface. [commit_block] takes the tracked inclusion
    cursor, [None] for the trait's plain [commit]. *)

Class DataAvailability (W : Type) := {
  da_publish : list Block → M W Error BlobId;
  da_fetch : BlobId → M W Error (list Block)
}.
Class SettlementLayer (W : Type) := {
  commit_block : Block → BlobId → option N → M W Error unit
}.

(** ** Signing message *)

Definition signing_message (h : Header) : list byte :=
  to_le_bytes 8 (height h) ++ arr_bytes (parent_hash h) ++ arr_bytes (state_root h)
  ++ to_le_bytes 8 (timestamp h).

(** ** Serde of a block

    serde serializes the fields in order; [serde_signature] turns the
    signature into an optional byte vector. *)

Definition serde_block : Type := N * Hash * Hash * N * list byte * option (list byte).

Definition serialize_signature (s : option Signature) : option (list byte) := arr_bytes <$> s.
Definition deserialize_signature (o : option (list byte)) : result string (option Signature) :=
  match o with
  | None => Ok None
  | Some v => Some <$> ok_or (try_into_array 64 v) "expected 64-byte signature"
  end.

Definition serialize_block (b : Block) : serde_block :=
  let h := header b in
  (height h, parent_hash h, state_root h, timestamp h, data b, serialize_signature (signature b)).
Definition deserialize_block (w : serde_block) : result string Block :=
  let '(h, p, r, t, d, s) := w in
  sig ← deserialize_signature s;
  Ok (mk_Block (mk_Header h p r t) d sig).

(** [bcs::to_bytes(block)] and [bcs::from_bytes::<Block>]. *)
Definition block_to_bcs `{Bcs serde_block} (b : Block) : result string (list byte) :=
  bcs_to_bytes (serialize_block b).
Definition block_from_bcs `{Bcs serde_block} (bs : list byte) : result string Block :=
  w ← bcs_from_bytes bs; deserialize_block w.

(** ** Keys *)

Section Keys.
Context {PrivKey PubKey : Type} `{Ed25519 PrivKey PubKey} `{Base64}.

Definition parse_signer_key (s : string) : result string PrivKey :=
  let trimmed := trim s in
  if starts_with "suiprivkey" trimmed then from_suiprivkey (to_lowercase trimmed)
  else
    raw ← map_err (λ e, "not bech32 and not valid base64: " +:+ e) (b64_decode trimmed);
    if negb (Nat.eqb (length raw) 33) then
      Err ("base64 payload is " +:+ fmt_dec (N.of_nat (length raw))
           +:+ " bytes, expected 33 (flag + ed25519 key)")
    else
      match raw with
      | flag :: scalar =>
          if negb (Byte.eqb flag x00) then
            Err ("unsupported key scheme flag: " +:+ fmt_dec (Byte.to_N flag)
                 +:+ " (expected 0 for ed25519)")
          else
            match try_into_array 32 scalar with
            | Some key => Ok (key_new key)
            | None => Err "unreachable: the payload has 33 bytes"
            end
      | [] => Err "unreachable: the payload has 33 bytes"
      end.

Record Ed25519BlockSigner := mk_signer { signer_key : PrivKey }.

Definition from_suiprivkey_file (p : path) : M disk Error Ed25519BlockSigner :=
  text ← errM (λ e, Execution ("reading block key: " +:+ io_error_text e)) (fs_read_to_string p);
  key ← lift (map_err (λ e, Execution ("invalid block key: " +:+ e))
                (parse_signer_key (trim text)));
  mret (mk_signer key).

Definition pub_key (s : Ed25519BlockSigner) : PubKey := public_key (signer_key s).
Definition address (s : Ed25519BlockSigner) : array 32 := derive_address (pub_key s).

Definition sign_header (s : Ed25519BlockSigner) (h : Header) : result Error Signature :=
  sig ← map_err (λ e, Execution ("signing header: " +:+ e))
          (try_sign (signer_key s) (signing_message h));
  match sig with
  | SigEd25519 sg => Ok sg
  | SigOther => Err (Execution "unexpected signature scheme")
  end.
End Keys.
#[global] Arguments Ed25519BlockSigner PrivKey : clear implicits.

(** ** Lemmas *)

Lemma length_signing_message h : length (signing_message h) = 80%nat.
Proof.
  unfold signing_message.
  by rewrite !length_app, !length_to_le_bytes, !length_arr_bytes.
Qed.

Lemma signing_message_inj h h' :
  header_wf h → header_wf h' → signing_message h = signing_message h' → h = h'.
Proof.
  intros [Hh Ht] [Hh' Ht'] Heq. unfold signing_message in Heq.
  apply app_inj_1 in Heq as [H1 Heq]; [|by rewrite !length_to_le_bytes].
  apply app_inj_1 in Heq as [H2 Heq]; [|by rewrite !length_arr_bytes].
  apply app_inj_1 in Heq as [H3 H4]; [|by rewrite !length_arr_bytes].
  apply (f_equal from_le_bytes) in H1, H4.
  rewrite !u64_le_roundtrip in H1, H4 by done.
  apply array_eq in H2, H3. destruct h, h'; cbn in *; by subst.
Qed.

Lemma deserialize_serialize_block b : deserialize_block (serialize_block b) = Ok b.
Proof.
  destruct b as [[h p r t] d s]; unfold serialize_block; cbn [deserialize_block].
  destruct s as [s|]; cbn; [|done]. by rewrite try_into_array_bytes.
Qed.

Lemma block_bcs_roundtrip `{BcsLaws serde_block} b bs :
  block_to_bcs b = Ok bs → block_from_bcs bs = Ok b.
Proof.
  unfold block_to_bcs, block_from_bcs. intros Hb%bcs_decode_encode.
  rewrite Hb. apply deserialize_serialize_block.
Qed.

#[export] Hint Resolve length_signing_message deserialize_serialize_block : podseq.

(** ** Properties *)

(** The signing message of a header is 80 bytes and determines the header:
    two headers whose 64-bit fields are in range and whose signing messages
    agree are the same header, so a signature binds every header field. *)
Theorem signing_message_binding h h' :
  header_wf h → header_wf h' →
  length (signing_message h) = 80%nat ∧ (signing_message h = signing_message h' ↔ h = h').
Proof.
  intros Hh Hh'. split; [apply length_signing_message|].
  split; [by apply signing_message_inj|by intros ->].
Qed.

Definition header0 : Header := mk_Header 7 (array_fill 32 x01) (array_fill 32 x02) 1700000000.

Lemma signing_message_binding_witness :
  length (signing_message header0) = 80%nat ∧
  (signing_message header0 = signing_message header0 ↔ header0 = header0).
Proof. apply (signing_message_binding header0 header0); split; vm_compute; discriminate. Defined.

(** The signer of a key whose signatures verify: a successful [sign_header]
    returns a signature of the header's signing message. *)
Lemma sign_header_verifies {PrivKey PubKey} `{Ed25519Laws PrivKey PubKey} s h sg :
  sign_header s h = Ok sg → verify (pub_key s) (signing_message h) sg = Ok tt.
Proof.
  unfold sign_header. destruct (try_sign _ _) as [[sg'|]|] eqn:Hs; cbn; try done.
  intros [= <-]. by apply sign_verify.
Qed.

(** The signer key parser accepts base64 text of any 33-byte payload with
    the ed25519 flag, whatever white space surrounds it, rejects every other
    length or flag, and hands bech32 text on lowercased. *)
Theorem parse_signer_key_cases {PrivKey PubKey} `{Ed25519 PrivKey PubKey} `{Base64} s raw :
  starts_with "suiprivkey" (trim s) = false → b64_decode (trim s) = Ok raw →
  (∃ key, raw = x00 :: arr_bytes key ∧ parse_signer_key s = Ok (key_new (key : array 32))) ∨
  ((∀ key : array 32, raw ≠ x00 :: arr_bytes key) ∧ is_ok (parse_signer_key s) = false).
Proof.
  intros Hp Hb. unfold parse_signer_key. rewrite Hp, Hb. cbn -[fmt_dec].
  destruct (Nat.eqb_spec (length raw) 33) as [Hl|Hl]; cbn -[fmt_dec].
  - destruct raw as [|flag scalar]; [done|]. cbn in Hl.
    destruct (Byte.eqb flag x00) eqn:Hf; cbn -[fmt_dec].
    + apply Byte.byte_dec_bl in Hf as ->. left.
      destruct (try_into_array 32 scalar) as [key|] eqn:Hk.
      * apply try_into_array_Some in Hk as ->. eauto.
      * apply try_into_array_None in Hk. lia.
    + right. split; [|done]. intros key [= -> _]. by rewrite Byte.byte_dec_lb in Hf.
  - right. split; [|done]. intros key ->. apply Hl. cbn. by rewrite length_arr_bytes.
Qed.

Section KeysWitness.
Import Codec.Demo.
Lemma parse_signer_key_cases_witness :
  let raw := x00 :: replicate 32 x07 in
  (∃ key, raw = x00 :: arr_bytes key ∧
     parse_signer_key (bytes_string (x20 :: raw)) = Ok (key_new (key : array 32))) ∨
  ((∀ key : array 32, raw ≠ x00 :: arr_bytes key) ∧
     is_ok (parse_signer_key (bytes_string (x20 :: raw))) = false).
Proof.
  apply (parse_signer_key_cases (bytes_string (x20 :: x00 :: replicate 32 x07))); vm_compute;
    reflexivity.
Defined.
End KeysWitness.

