(* ===== verification/Store.v ===== *)
(** [crates/node/src/store]: the block, pending, chain-state and inbox stores.

    Each store is a path under the data directory; its operations run on the
    disk of [Disk].  The abstract view of a store is what the next process
    reads from the files ([restart] drops the faults of the run that wrote
    them); the theorems say how each operation changes that view, whatever
    fails on the way. *)

From S2P Require Import Prelude Text Codec Disk Core.
Local Open Scope string_scope.
Local Open Scope list_scope.
Local Open Scope N_scope.

(** ** Errors *)

Inductive StoreError :=
| Io (e : io_error)
| Serde (msg : string)
| BlockNotFound (height : N)
| Conflict (msg : string).
#[global] Instance StoreError_eq_dec : EqDecision StoreError.
Proof. solve_decision. Defined.

Definition store_error_text (e : StoreError) : string :=
  match e with
  | Io e => "io error: " +:+ io_error_text e
  | Serde m => "serde error: " +:+ m
  | BlockNotFound h => "block not found: height " +:+ fmt_dec h
  | Conflict m => "state conflict: " +:+ m
  end.

Abbreviation Store := (M disk StoreError).
Definition io {A} (m : Fs A) : Store A := errM Io m.
Definition serde {A} (r : result string A) : Store A := lift (map_err Serde r).

(** What a process that starts now finds: the same files, no pending faults. *)
Definition restart (d : disk) : disk := mk_disk (files d) (dirs d) [].
Definition view {A} (m : Store A) (d : disk) : result StoreError A := (m (restart d)).1.

(** [store::init] *)
Definition init (data_dir : path) : Store unit := io (fs_create_dir_all (data_dir ++ ["blocks"])).

(** ** Blocks *)

Module BlockStore.
Record t := mk { dir : path }.

(** The directory's creation may fail; the error is dropped ([.ok()]). *)
Definition new (data_dir : path) : M disk StoreError t :=
  let dir := data_dir ++ ["blocks"] in
  tryM (fs_create_dir_all dir);; mret (mk dir).

Definition block_path (s : t) (h : N) : path := dir s ++ [fmt_dec h].

Section with_bcs.
Context `{Bcs serde_block}.

Definition put (s : t) (b : Block) : Store unit :=
  bytes ← serde (block_to_bcs b);
  io (fs_write (block_path s (height (header b))) bytes).

Definition get (s : t) (h : N) : Store Block :=
  d ← getM;
  if negb (fs_exists (block_path s h) d) then throw (BlockNotFound h)
  else
    bytes ← io (fs_read (block_path s h));
    serde (block_from_bcs bytes).
End with_bcs.

Definition has (s : t) (h : N) (d : disk) : bool := fs_exists (block_path s h) d.

Definition max_list (l : list N) : option N :=
  match l with [] => None | x :: l => Some (foldr N.max x l) end.

Definition latest_height (s : t) (d : disk) : option N :=
  names ← to_option (fs_read_dir (dir s) d).1;
  max_list (omap parse_u64 names).
End BlockStore.

(** ** Pending heights *)

Module PendingStore.
Record PendingFile := mk_file { heights : list N }.
#[global] Instance file_eq_dec : EqDecision PendingFile.
Proof. solve_decision. Defined.
#[global] Program Instance file_countable : Countable PendingFile :=
  inj_countable' heights mk_file _.
Next Obligation. by intros []. Qed.

Record t := mk { file_path : path }.
Definition new (data_dir : path) : t := mk (data_dir ++ ["pending.json"]).

Section with_json.
Context `{Json PendingFile}.

Definition load_raw (s : t) : Store PendingFile :=
  d ← getM;
  if negb (fs_exists (file_path s) d) then mret (mk_file [])
  else
    text ← io (fs_read_to_string (file_path s));
    file ← (if is_blank text then mret (mk_file []) else serde (json_from_str text));
    mret (mk_file (dedup (merge_sort N.le (heights file)))).

Definition save_raw (s : t) (file : PendingFile) : Store unit :=
  text ← serde (json_to_string_pretty file);
  io (write_atomic (file_path s) text).

Definition mutate (s : t) (f : list N → list N) : Store unit :=
  raw ← load_raw s;
  save_raw s (mk_file (f (heights raw))).

Definition insert_height (h : N) (l : list N) : list N :=
  match binary_search l h with Err pos => vec_insert pos h l | Ok _ => l end.
Definition remove_height (h : N) (l : list N) : list N :=
  match binary_search l h with Ok pos => vec_remove pos l | Err _ => l end.

Definition mark (s : t) (h : N) : Store unit := mutate s (insert_height h).
Definition clear (s : t) (h : N) : Store unit := mutate s (remove_height h).
Definition pending (s : t) : Store (list N) := raw ← load_raw s; mret (heights raw).
Definition is_empty (s : t) : Store bool :=
  raw ← load_raw s; mret (bool_decide (heights raw = [])).
End with_json.
End PendingStore.

(** ** Chain state *)

Module StateStore.
Record ChainState := mk_ChainState {
  head : string;
  safe : string;
  finalized : string;
  cs_height : N;
  cs_timestamp : N
}.
#[global] Instance ChainState_eq_dec : EqDecision ChainState.
Proof. solve_decision. Defined.
#[global] Program Instance ChainState_countable : Countable ChainState :=
  inj_countable' (λ s, (head s, safe s, finalized s, cs_height s, cs_timestamp s))
    (λ '(a, b, c, h, t), mk_ChainState a b c h t) _.
Next Obligation. by intros []. Qed.

Record t := mk { file_path : path }.
Definition new (data_dir : path) : t := mk (data_dir ++ ["state.json"]).

Section with_json.
Context `{Json ChainState}.

Definition load (s : t) : Store (option ChainState) :=
  d ← getM;
  if negb (fs_exists (file_path s) d) then mret None
  else
    text ← io (fs_read_to_string (file_path s));
    Some <$> serde (json_from_str text).

Definition save (s : t) (state : ChainState) : Store unit :=
  text ← serde (json_to_string_pretty state);
  io (write_atomic (file_path s) text).
End with_json.
End StateStore.

(** ** Inbox markers *)

Module InboxStore.
Inductive NonceRecord :=
| Submitted (deadline_height deadline_ms first_seen_height : N) (tx_hash tx_bytes : string)
| Included (height : N) (tx_hash : string).
#[global] Instance NonceRecord_eq_dec : EqDecision NonceRecord.
Proof. solve_decision. Defined.
#[global] Program Instance NonceRecord_countable : Countable NonceRecord :=
  inj_countable'
    (λ r, match r with
          | Submitted a b c h t => inl (a, b, c, h, t)
          | Included n h => inr (n, h)
          end)
    (λ s, match s with
          | inl (a, b, c, h, t) => Submitted a b c h t
          | inr (n, h) => Included n h
          end) _.
Next Obligation. by intros []. Qed.

Definition is_submitted (r : NonceRecord) : bool :=
  match r with Submitted _ _ _ _ _ => true | _ => false end.
Definition is_included (r : NonceRecord) : bool :=
  match r with Included _ _ => true | _ => false end.

Record InboxFile := mk_file { nonces : gmap N NonceRecord }.
#[global] Instance file_eq_dec : EqDecision InboxFile.
Proof. solve_decision. Defined.
#[global] Program Instance file_countable : Countable InboxFile :=
  inj_countable' nonces mk_file _.
Next Obligation. by intros []. Qed.

Record t := mk { file_path : path }.
Definition new (data_dir : path) : t := mk (data_dir ++ ["inbox.json"]).

(** The map updates the two [mutate] closures make. *)
Definition insert_submitted (nonce : N) (r : NonceRecord) (m : gmap N NonceRecord) :
    result StoreError (gmap N NonceRecord) :=
  match m !! nonce with
  | Some _ => Err (Conflict ("inbox nonce " +:+ fmt_dec nonce +:+ " is already tracked"))
  | None => Ok (<[nonce := r]> m)
  end.

Definition set_included (nonce height : N) (m : gmap N NonceRecord) :
    result StoreError (gmap N NonceRecord) :=
  match m !! nonce with
  | None => Err (Conflict ("inbox nonce " +:+ fmt_dec nonce
                           +:+ " was never tracked as submitted"))
  | Some (Included existing _) =>
      if existing =? height then Ok m
      else Err (Conflict ("inbox nonce " +:+ fmt_dec nonce +:+ " already included at height "
                          +:+ fmt_dec existing +:+ ", refusing second inclusion at height "
                          +:+ fmt_dec height))
  | Some (Submitted _ _ _ tx_hash _) => Ok (<[nonce := Included height tx_hash]> m)
  end.

Section with_json.
Context `{Json InboxFile}.

Definition load_raw (s : t) : Store InboxFile :=
  d ← getM;
  if negb (fs_exists (file_path s) d) then mret (mk_file ∅)
  else
    text ← io (fs_read_to_string (file_path s));
    if is_blank text then mret (mk_file ∅)
    else serde (json_from_str text).

Definition save_raw (s : t) (file : InboxFile) : Store unit :=
  text ← serde (json_to_string_pretty file);
  io (write_atomic (file_path s) text).

Definition mutate (s : t)
    (f : gmap N NonceRecord → result StoreError (gmap N NonceRecord)) : Store unit :=
  file ← load_raw s;
  m ← lift (f (nonces file));
  save_raw s (mk_file m).

Definition record_submitted (s : t) (nonce deadline_height deadline_ms first_seen : N)
    (tx_hash tx_bytes : string) : Store unit :=
  mutate s (insert_submitted nonce
              (Submitted deadline_height deadline_ms first_seen tx_hash tx_bytes)).
Definition mark_included (s : t) (nonce height : N) : Store unit :=
  mutate s (set_included nonce height).

Definition snapshot (s : t) : Store (gmap N NonceRecord) := nonces <$> load_raw s.
Definition get (s : t) (nonce : N) : Store (option NonceRecord) :=
  (λ f, nonces f !! nonce) <$> load_raw s.
Definition submitted_of (m : gmap N NonceRecord) : list (N * NonceRecord) :=
  filter (λ e, is_submitted e.2) (btree_entries m).
Definition submitted (s : t) : Store (list (N * NonceRecord)) :=
  (λ f, submitted_of (nonces f)) <$> load_raw s.
Definition count_included (m : gmap N NonceRecord) : N :=
  N.of_nat (length (filter (λ e, is_included e.2) (btree_entries m))).
Definition included_count (s : t) : Store N := (λ f, count_included (nonces f)) <$> load_raw s.
End with_json.
End InboxStore.

(** ** Lemmas: running store operations *)

Lemma io_run {A} (m : Fs A) d : io m d = let '(r, d') := m d in (map_err Io r, d').
Proof. done. Qed.

Lemma restart_files d : files (restart d) = files d.
Proof. done. Qed.
Lemma fs_exists_files p d : is_Some (files d !! p) → fs_exists p d = true.
Proof. intros H. unfold fs_exists. by rewrite bool_decide_true. Qed.

(** What a fault-free reader sees of a text file. *)
Lemma read_text_restart p d s :
  files d !! p = Some (string_bytes s) → from_utf8 (string_bytes s) = Some s →
  fs_read_to_string p (restart d) = (Ok s, restart d).
Proof.
  intros Hf Hs. unfold fs_read_to_string. rewrite run_bind. unfold fs_read, restart; cbn.
  rewrite Hf; cbn. unfold lift, pop_fault; cbn. by rewrite Hs.
Qed.

(** The files that decide what a reader of [p] sees. *)
Definition same_file (p : path) (d d' : disk) : Prop :=
  files d' !! p = files d !! p ∧ dirs d' = dirs d.

Lemma fs_exists_same p d d' : same_file p d d' → fs_exists p d' = fs_exists p d.
Proof. intros [H1 H2]. unfold fs_exists. by rewrite H1, H2. Qed.

Lemma read_text_same p d d' :
  files d' !! p = files d !! p →
  (fs_read_to_string p (restart d')).1 = (fs_read_to_string p (restart d)).1.
Proof.
  intros H. unfold fs_read_to_string. rewrite !run_bind. unfold fs_read, restart; cbn.
  rewrite H. by destruct (files d !! p).
Qed.

(** Reading never changes the files. *)
Definition reads {A} (m : Store A) : Prop :=
  ∀ d r d', m d = (r, d') → files d' = files d ∧ dirs d' = dirs d.

Lemma reads_ret {A} (a : A) : reads (mret a).
Proof. intros d r d' [= <- <-]. done. Qed.
Lemma reads_lift {A} (r : result StoreError A) : reads (lift r).
Proof. intros d r' d' [= <- <-]. done. Qed.
Lemma reads_getM : reads getM.
Proof. intros d r' d' [= <- <-]. done. Qed.
Lemma reads_bind {A B} (m : Store A) (k : A → Store B) :
  reads m → (∀ a, reads (k a)) → reads (m ≫= k).
Proof.
  intros Hm Hk d r d''. rewrite run_bind. destruct (m d) as [[a|e] d'] eqn:Hd.
  - intros H. apply Hm in Hd as []. apply Hk in H as []. split; congruence.
  - intros [= <- <-]. by eapply Hm.
Qed.

Lemma reads_fs {A} (m : Fs A) :
  (∀ d r d', m d = (r, d') → files d' = files d ∧ dirs d' = dirs d) → reads (io m).
Proof.
  intros Hm d r d'. rewrite io_run. destruct (m d) as [r1 d1] eqn:H. intros [= <- <-]. by eapply Hm.
Qed.
Lemma reads_fmap {A B} (f : A → B) (m : Store A) : reads m → reads (f <$> m).
Proof.
  intros Hm d r d'. cbv [fmap M_fmap]. destruct (m d) as [r0 d0] eqn:Hd. intros [= _ <-].
  by eapply Hm.
Qed.
Lemma reads_text p : reads (io (fs_read_to_string p)).
Proof. apply reads_fs, fs_read_to_string_frame. Qed.
#[export] Hint Resolve reads_ret reads_lift reads_getM reads_bind reads_text : podseq.

(** A read that succeeds sees what a fault-free reader sees. *)
Lemma read_text_ok p d s d' :
  fs_read_to_string p d = (Ok s, d') → fs_read_to_string p (restart d) = (Ok s, restart d).
Proof.
  intros H. apply fs_read_to_string_ok in H as (bs & Hf & Hs).
  unfold fs_read_to_string. rewrite run_bind. unfold fs_read, restart; cbn.
  rewrite Hf; cbn. unfold lift, pop_fault; cbn. by rewrite Hs.
Qed.

(** At most the file at [q] and its temporary file change. *)
Definition only_file (q : path) (d d' : disk) : Prop :=
  (∀ p, p ≠ q → p ≠ with_tmp q → files d' !! p = files d !! p) ∧ dirs d' = dirs d.
#[export] Instance only_file_preorder q : PreOrder (only_file q).
Proof.
  split; [done|]. intros d1 d2 d3 [Hf Hd] [Hf' Hd']. split; [|congruence].
  intros p H1 H2. rewrite Hf', Hf; done.
Qed.
Lemma reads_only_file {A} q (m : Store A) d0 : reads m → preserves (only_file q d0) m.
Proof.
  intros Hm d Hd. destruct (m d) as [r d'] eqn:Hr. apply Hm in Hr as [Hf Hs].
  assert (only_file q d0 d') by (etrans; [exact Hd|split; [intros; by rewrite Hf|done]]).
  by destruct r.
Qed.
Lemma write_only_file q text d0 : q ≠ [] → preserves (only_file q d0) (io (write_atomic q text)).
Proof.
  intros Hq d Hd. rewrite io_run. destruct (write_atomic q text d) as [r d'] eqn:Hw.
  apply write_atomic_spec in Hw as (Hs & Hf & _); [|done].
  assert (only_file q d0 d') by (by etrans). by destruct r.
Qed.

(** A look at the disk: it changes no file, and meets no fault that was not
    ahead. *)
Definition looks {A} (m : Store A) : Prop := reads m ∧ preserves sound_disk m.
Lemma looks_bind {A B} (m : Store A) (k : A → Store B) :
  looks m → (∀ a, looks (k a)) → looks (m ≫= k).
Proof.
  intros [] Hk. split; [apply reads_bind|apply preserves_bind]; try done; intros a; apply Hk.
Qed.
Lemma looks_lift {A} (r : result StoreError A) : looks (lift r).
Proof. split; [apply reads_lift|apply preserves_lift]. Qed.
Lemma looks_ret {A} (a : A) : looks (mret a).
Proof. split; [apply reads_ret|apply preserves_ret]. Qed.
Lemma looks_throw {A} e : looks (throw e : Store A).
Proof. split; [by intros d r d' [= _ <-]|apply preserves_throw]. Qed.
Lemma looks_getM : looks getM.
Proof. split; [apply reads_getM|by intros d]. Qed.
Lemma looks_text p : looks (io (fs_read_to_string p)).
Proof. split; [apply reads_text|apply preserves_errM, fs_read_to_string_sound]. Qed.
Lemma looks_file p : looks (io (fs_read p)).
Proof. split; [apply reads_fs, fs_read_frame|apply preserves_errM, fs_read_sound]. Qed.
Lemma looks_fmap {A B} (f : A → B) (m : Store A) : looks m → looks (f <$> m).
Proof.
  intros [Hr Hs]. split; [by apply reads_fmap|by apply preserves_fmap].
Qed.
Ltac look := repeat first
  [ apply looks_text | apply looks_file | apply looks_getM | apply looks_ret | apply looks_lift | apply looks_throw
  | apply looks_bind; [|intros ?] | apply looks_fmap | case_match ].


(** ** Loading, updating and atomically saving one text file

    The state-bearing stores are each a file at [p] that is loaded (with a
    default when it does not exist), changed and saved whole.  [parse] reads the
    text, and [norm] is what it makes of a saved value. *)
Section AtomicFile.
Context {A : Type} (p : path) (default : A) (parse : string → result StoreError A).

Definition load_file : Store A :=
  d ← getM;
  if negb (fs_exists p d) then mret default
  else text ← io (fs_read_to_string p); lift (parse text).

Lemma load_file_reads : reads load_file.
Proof.
  unfold load_file. apply reads_bind; [auto with podseq|]. intros d.
  destruct (negb _); auto with podseq.
Qed.

Lemma load_file_view d a d1 : load_file d = (Ok a, d1) → view load_file d = Ok a.
Proof.
  unfold view, load_file. rewrite !run_bind. cbn -[fs_read_to_string].
  change (fs_exists p (restart d)) with (fs_exists p d).
  destruct (negb _); [by intros [= <- <-]|]. intros (t & d2 & Ht & Hk)%bind_ok_inv.
  rewrite io_run in Ht. destruct (fs_read_to_string p d) as [[t'|] d3] eqn:Hr;
    cbn in Ht; simplify_eq.
  apply read_text_ok in Hr. rewrite run_bind, io_run, Hr. unfold lift in *; cbn.
  by injection Hk.
Qed.

Lemma load_file_at d d' :
  files d' !! p = files d !! p → fs_exists p d' = fs_exists p d → view load_file d' = view load_file d.
Proof.
  intros Hf He. pose proof (read_text_same _ _ _ Hf) as Ht.
  unfold view, load_file. rewrite !run_bind. cbn -[fs_read_to_string].
  change (fs_exists p (restart ?d)) with (fs_exists p d).
  rewrite He. destruct (negb _); [done|].
  rewrite !run_bind, !io_run.
  destruct (fs_read_to_string _ (restart d')) as [r1 d1],
    (fs_read_to_string _ (restart d)) as [r2 d2]; cbn in Ht; subst.
  by destruct r2.
Qed.
Lemma load_file_same d d' : same_file p d d' → view load_file d' = view load_file d.
Proof. intros Hs. apply load_file_at; [apply Hs|by apply fs_exists_same]. Qed.

Context (text_of : A → result string string) (norm : A → A).
Context (load : Store A) (load_eq : ∀ d, load d = load_file d).
Context (p_ne : p ≠ []).
Context (parse_text : ∀ a t, text_of a = Ok t → parse t = Ok (norm a)).
Context (text_utf8 : ∀ a t, text_of a = Ok t → from_utf8 (string_bytes t) = Some t).

Lemma load_view_eq d : view load d = view load_file d.
Proof using load_eq. unfold view. by rewrite load_eq. Qed.
Lemma load_same d d' : same_file p d d' → view load d' = view load d.
Proof using load_eq. rewrite !load_view_eq. apply load_file_same. Qed.

Lemma load_saved a t d :
  text_of a = Ok t → files d !! p = Some (string_bytes t) → view load d = Ok (norm a).
Proof using load_eq parse_text text_utf8.
  intros Ht Hf. rewrite load_view_eq. pose proof (read_text_restart _ _ _ Hf (text_utf8 _ _ Ht)) as Hr.
  unfold view, load_file. rewrite !run_bind. cbn -[fs_read_to_string].
  rewrite fs_exists_files by (rewrite restart_files; eauto). cbn -[fs_read_to_string].
  rewrite run_bind, io_run, Hr. cbn. by apply parse_text.
Qed.

Definition save_file (a : A) : Store unit :=
  text ← serde (text_of a); io (write_atomic p text).

Lemma save_file_spec a d r d' :
  save_file a d = (r, d') →
  (∀ q, q ≠ p → q ≠ with_tmp p → files d' !! q = files d !! q) ∧ dirs d' = dirs d ∧
  match r with
  | Ok _ => view load d' = Ok (norm a)
  | Err _ => view load d' = view load d
  end.
Proof using p_ne load_eq parse_text text_utf8.
  unfold save_file, serde. rewrite run_bind. unfold lift.
  destruct (text_of a) as [t|e] eqn:Ht; cbn.
  - rewrite io_run. destruct (write_atomic p t d) as [r1 d1] eqn:Hw. intros [= <- <-].
    apply write_atomic_spec in Hw as (Hd & Hq & Hr); [|done].
    split; [done|]. split; [done|]. destruct r1; cbn.
    + by eapply load_saved.
    + apply load_same. done.
  - intros [= <- <-]. done.
Qed.

Lemma mutate_file_spec (f : A → result StoreError A) d r d' :
  (a ← load; a' ← lift (f a); save_file a') d = (r, d') →
  (∀ q, q ≠ p → q ≠ with_tmp p → files d' !! q = files d !! q) ∧ dirs d' = dirs d ∧
  match r with
  | Ok _ => ∃ a a', view load d = Ok a ∧ f a = Ok a' ∧ view load d' = Ok (norm a')
  | Err _ => view load d' = view load d
  end.
Proof using p_ne load_eq parse_text text_utf8.
  rewrite run_bind. destruct (load d) as [[a|e] d1] eqn:Hl; rewrite load_eq in Hl;
    pose proof (load_file_reads _ _ _ Hl) as [Hf1 Hd1].
  - assert (view load d1 = view load d) as Hv by (apply load_same; split; congruence).
    apply load_file_view in Hl. rewrite <- load_view_eq in Hl.
    rewrite run_bind. unfold lift. destruct (f a) as [a'|e] eqn:Hfa.
    + intros Hs. apply save_file_spec in Hs as (Hq & Hd & Hr).
      split; [intros; rewrite <- Hf1; auto|]. split; [congruence|].
      destruct r; [eauto|]. congruence.
    + intros [= <- <-]. split; [intros; congruence|]. done.
  - intros [= <- <-]. split; [intros; congruence|]. split; [done|].
    apply load_same. split; congruence.
Qed.
End AtomicFile.

(** ** The pending store *)

Module PendingFacts.
Import PendingStore.
Section facts.
Context `{JsonLaws PendingFile}.
Implicit Types (s : PendingStore.t) (d : disk).

Definition norm (f : PendingFile) : PendingFile :=
  mk_file (dedup (merge_sort N.le (heights f))).
Definition parse (text : string) : result StoreError PendingFile :=
  if is_blank text then Ok (mk_file []) else norm <$> map_err Serde (json_from_str text).

Lemma pending_load_raw_eq s d : load_raw s d = load_file (file_path s) (mk_file []) parse d.
Proof.
  unfold load_raw, load_file. rewrite !run_bind. cbn -[fs_read_to_string].
  destruct (negb _); [done|]. rewrite !run_bind. destruct (io _ d) as [[t|] d1]; [|done].
  unfold parse, serde, lift. rewrite run_bind. destruct (is_blank t); [done|].
  by destruct (json_from_str t).
Qed.

Lemma pending_parse_text f t : json_to_string_pretty f = Ok t → parse t = Ok (norm f).
Proof.
  intros Ht. unfold parse. by rewrite (json_not_blank _ _ Ht), (json_roundtrip _ _ Ht).
Qed.

Lemma ascending_norm f : ascending (heights (norm f)).
Proof. apply dedup_ascending, StronglySorted_merge_sort; apply _. Qed.
Lemma elem_of_norm f x : x ∈ heights (norm f) ↔ x ∈ heights f.
Proof. cbn. by rewrite elem_of_dedup, (merge_sort_Permutation N.le). Qed.

Lemma norm_ascending f : ascending (heights f) → norm f = f.
Proof.
  intros Ha. destruct f as [l]. unfold norm. f_equal. apply ascending_ext.
  - apply (ascending_norm (mk_file l)).
  - done.
  - apply (elem_of_norm (mk_file l)).
Qed.

Lemma load_raw_ascending s d f d1 : load_raw s d = (Ok f, d1) → ascending (heights f).
Proof.
  unfold load_raw. rewrite run_bind. cbn -[fs_read_to_string].
  destruct (negb _); [intros [= <- <-]; constructor|].
  intros (t & d2 & _ & Hk)%bind_ok_inv. apply bind_ok_inv in Hk as (f' & d3 & _ & Hk).
  injection Hk as <- _. apply (ascending_norm f').
Qed.

Lemma pending_view s d : view (pending s) d = heights <$> view (load_raw s) d.
Proof. unfold view, pending. rewrite run_bind. by destruct (load_raw s _) as [[]]. Qed.

Lemma insert_height_spec h l :
  ascending l → ascending (insert_height h l) ∧ ∀ x, x ∈ insert_height h l ↔ x = h ∨ x ∈ l.
Proof.
  intros Hl. unfold insert_height. pose proof (binary_search_spec l h Hl) as Hs.
  destruct (binary_search l h) as [i|i].
  - split; [done|]. intros x. apply list_elem_of_lookup_2 in Hs. naive_solver.
  - destruct Hs as [_ Hs]. split; [done|]. intros x. apply elem_of_vec_insert.
Qed.
Lemma remove_height_spec h l :
  ascending l → ascending (remove_height h l) ∧ ∀ x, x ∈ remove_height h l ↔ x ≠ h ∧ x ∈ l.
Proof.
  intros Hl. unfold remove_height. pose proof (binary_search_spec l h Hl) as Hs.
  destruct (binary_search l h) as [i|i].
  - split; [by apply vec_remove_ascending|]. intros x. by apply elem_of_vec_remove.
  - destruct Hs as [Hn _]. split; [done|]. intros x. naive_solver.
Qed.

Lemma pending_same s d d' :
  same_file (file_path s) d d' → view (pending s) d' = view (pending s) d.
Proof.
  intros Hs. rewrite !pending_view.
  by rewrite (load_same (file_path s) (mk_file []) parse (load_raw s) (pending_load_raw_eq s) _ _ Hs).
Qed.

Lemma pending_mutate_frame s (f : list N → list N) d r d' :
  file_path s ≠ [] → mutate s f d = (r, d') →
  (∀ q, q ≠ file_path s → q ≠ with_tmp (file_path s) → files d' !! q = files d !! q) ∧
  dirs d' = dirs d.
Proof.
  intros Hp Hm.
  destruct (mutate_file_spec (file_path s) (mk_file []) parse json_to_string_pretty norm
              (load_raw s) (pending_load_raw_eq s) Hp pending_parse_text json_utf8
              (λ a, Ok (mk_file (f (heights a)))) d r d' Hm) as (? & ? & _). done.
Qed.

(** A save of ascending heights. *)
Lemma pending_save_spec s f d r d' :
  file_path s ≠ [] → save_raw s f d = (r, d') → ascending (heights f) →
  match r with
  | Ok _ => view (pending s) d' = Ok (heights f)
  | Err _ => view (pending s) d' = view (pending s) d
  end.
Proof.
  intros Hp Hs Ha.
  destruct (save_file_spec (file_path s) (mk_file []) parse json_to_string_pretty norm
              (load_raw s) (pending_load_raw_eq s) Hp pending_parse_text json_utf8 f d r d' Hs) as (_ & _ & Hr).
  rewrite !pending_view. destruct r as [[]|]; rewrite Hr; [|done].
  by rewrite norm_ascending.
Qed.

(** [mutate] on the abstract view: an update that keeps the heights
    ascending is applied exactly when it succeeds. *)
Lemma pending_mutate_spec s (f : list N → list N) d r d' :
  file_path s ≠ [] → (∀ l, ascending l → ascending (f l)) →
  mutate s f d = (r, d') →
  match r with
  | Ok _ => ∃ l, view (pending s) d = Ok l ∧ ascending l ∧ view (pending s) d' = Ok (f l)
  | Err _ => view (pending s) d' = view (pending s) d
  end.
Proof.
  intros Hp Hf Hm.
  destruct (mutate_file_spec (file_path s) (mk_file []) parse json_to_string_pretty norm
              (load_raw s) (pending_load_raw_eq s) Hp pending_parse_text json_utf8
              (λ a, Ok (mk_file (f (heights a)))) d r d' Hm) as (_ & _ & Hr).
  rewrite !pending_view. destruct r as [[]|e]; [|by rewrite Hr].
  destruct Hr as (a & a' & Ha & [= <-] & ->). rewrite Ha.
  assert (ascending (heights a)) as Has.
  { unfold view in Ha. destruct (load_raw s (restart d)) as [r1 d1] eqn:Hl; cbn in Ha.
    subst. by eapply load_raw_ascending. }
  exists (heights a). split; [done|]. split; [done|]. cbn -[norm].
  by rewrite norm_ascending by (by apply Hf).
Qed.
End facts.
End PendingFacts.

(** C15: [PendingStore] implements a set of heights, whatever the disk does.
    After [mark] or [clear] with any faults injected on the way, a process
    that starts afterwards reads the old set when the call failed, and the set
    with the height added or removed when it succeeded; what it reads is
    strictly ascending. *)
Theorem pending_store_refines_set `{JsonLaws PendingStore.PendingFile} s h d r d' (is_mark : bool) :
  PendingStore.file_path s ≠ [] →
  (if is_mark then PendingStore.mark s h else PendingStore.clear s h) d = (r, d') →
  match r with
  | Err _ => view (PendingStore.pending s) d' = view (PendingStore.pending s) d
  | Ok _ => ∃ l l', view (PendingStore.pending s) d = Ok l ∧
                    view (PendingStore.pending s) d' = Ok l' ∧
                    ascending l' ∧
                    ∀ x, x ∈ l' ↔ if is_mark then x = h ∨ x ∈ l else x ≠ h ∧ x ∈ l
  end.
Proof.
  intros Hp Hm. pose proof PendingFacts.insert_height_spec as Hi.
  pose proof PendingFacts.remove_height_spec as Hr.
  destruct is_mark;
    (eapply PendingFacts.pending_mutate_spec in Hm; [|done|intros; by (apply Hi || apply Hr)]);
    (destruct r; [|done]); destruct Hm as (l & Hl & Ha & Hl'); exists l; eexists;
    (split; [done|]); (split; [done|]); (apply Hi || apply Hr); done.
Qed.

Definition pending_store0 : PendingStore.t := PendingStore.new ["data"].
Definition disk0 (fs : list fault) : disk :=
  mk_disk ∅ {[ [] ; ["data"] ; ["data"; "blocks"] ]} fs.

Section PendingWitness.
Import Codec.CountableCodec.
(** A torn write of the temporary file leaves the pending set alone. *)
Lemma pending_store_refines_set_witness :
  let d := disk0 [Torn 3] in
  let '(r, d') := PendingStore.mark pending_store0 5 d in
  match r with
  | Err _ => view (PendingStore.pending pending_store0) d'
             = view (PendingStore.pending pending_store0) d
  | Ok _ => ∃ l l', view (PendingStore.pending pending_store0) d = Ok l ∧
                    view (PendingStore.pending pending_store0) d' = Ok l' ∧ ascending l' ∧
                    ∀ x, x ∈ l' ↔ x = 5 ∨ x ∈ l
  end.
Proof.
  cbv zeta. destruct (PendingStore.mark _ _ _) as [r d'] eqn:Hm.
  exact (pending_store_refines_set pending_store0 5 _ r d' true ltac:(done) Hm).
Defined.
End PendingWitness.

(** *** Two tasks on one store

    Nothing locks the file between the load and the save of [mutate], and the
    producer marks while the finalizer clears.  One interleaving of the two: *)
Definition mark_beside_clear `{Json PendingStore.PendingFile} (s : PendingStore.t) (h h' : N) : Store unit :=
  a ← PendingStore.load_raw s;
  b ← PendingStore.load_raw s;
  PendingStore.save_raw s (PendingStore.mk_file (PendingStore.insert_height h (PendingStore.heights a)));;
  PendingStore.save_raw s (PendingStore.mk_file (PendingStore.remove_height h' (PendingStore.heights b))).

(** Concurrent updates of the pending store lose markers.  When the
    finalizer's [clear] loads the file between the load and the save of the
    producer's [mark] and saves it after, both calls succeed and the height
    just marked is not in the file: a crash now forgets the block.  One after
    the other, the same two calls keep it. *)
Theorem unlocked_updates_lose_a_marker `{JsonLaws PendingStore.PendingFile} s h h' l d :
  PendingStore.file_path s ≠ [] → view (PendingStore.pending s) d = Ok l → h ∉ l → h ≠ h' →
  (∀ d', mark_beside_clear s h h' d = (Ok tt, d') →
     ∃ l', view (PendingStore.pending s) d' = Ok l' ∧ h ∉ l') ∧
  (∀ d', (PendingStore.mark s h;; PendingStore.clear s h') d = (Ok tt, d') →
     ∃ l', view (PendingStore.pending s) d' = Ok l' ∧ h ∈ l').
Proof.
  intros Hp Hl Hn Hne. split; intros d' Hrun.
  - unfold mark_beside_clear in Hrun. apply bind_ok_inv in Hrun as (a & d1 & Ha & Hrun).
    apply bind_ok_inv in Hrun as (b & d2 & Hb & Hrun). apply bind_ok_inv in Hrun as ([] & d3 & _ & Hrun).
    assert (view (PendingStore.pending s) d1 = Ok l) as Hl1.
    { rewrite <- Hl. apply PendingFacts.pending_same. rewrite PendingFacts.pending_load_raw_eq in Ha.
      apply load_file_reads in Ha as [Hf Hd]. split; [by rewrite Hf|done]. }
    assert (PendingStore.heights b = l) as Hhb.
    { pose proof Hb as Hb'. rewrite PendingFacts.pending_load_raw_eq in Hb'. apply load_file_view in Hb'.
      rewrite PendingFacts.pending_view, (load_view_eq _ _ _ _ (PendingFacts.pending_load_raw_eq s)), Hb' in Hl1.
      by injection Hl1. }
    pose proof (PendingFacts.load_raw_ascending _ _ _ _ Hb) as Hasc.
    pose proof (PendingFacts.remove_height_spec h' _ Hasc) as [Hrasc Hr].
    apply (PendingFacts.pending_save_spec s _ d3 (Ok tt) d' Hp) in Hrun; [|done].
    eexists. split; [exact Hrun|]. rewrite Hr, Hhb. tauto.
  - apply bind_ok_inv in Hrun as ([] & d1 & Hm & Hc).
    apply PendingFacts.pending_mutate_spec in Hm as (l0 & Hl0 & Ha & Hl1);
      [|done|intros; by apply PendingFacts.insert_height_spec].
    apply PendingFacts.pending_mutate_spec in Hc as (l1 & Hl1' & Ha1 & Hl2);
      [|done|intros; by apply PendingFacts.remove_height_spec].
    eexists. split; [exact Hl2|]. rewrite Hl1 in Hl1'. injection Hl1' as <-.
    apply PendingFacts.remove_height_spec; [done|]. split; [done|].
    apply PendingFacts.insert_height_spec; [done|by left].
Qed.

Section UnlockedWitness.
Import Codec.CountableCodec.
Lemma unlocked_updates_lose_a_marker_witness :
  let d := (PendingStore.mark pending_store0 4 (disk0 [])).2 in
  (∀ d', mark_beside_clear pending_store0 5 4 d = (Ok tt, d') →
     ∃ l', view (PendingStore.pending pending_store0) d' = Ok l' ∧ 5 ∉ l') ∧
  (∀ d', (PendingStore.mark pending_store0 5;; PendingStore.clear pending_store0 4) d = (Ok tt, d') →
     ∃ l', view (PendingStore.pending pending_store0) d' = Ok l' ∧ 5 ∈ l').
Proof.
  cbv zeta. apply (unlocked_updates_lose_a_marker pending_store0 5 4 [4]);
    [done|by vm_compute|by intros ?%list_elem_of_singleton|done].
Defined.
(** Both kinds of run happen. *)
Example both_orders_succeed :
  let d := (PendingStore.mark pending_store0 4 (disk0 [])).2 in
  is_ok (mark_beside_clear pending_store0 5 4 d).1
  && is_ok ((PendingStore.mark pending_store0 5;; PendingStore.clear pending_store0 4) d).1 = true.
Proof. by vm_compute. Qed.
End UnlockedWitness.

(** ** The chain-state store *)

Module StateFacts.
Import StateStore.
Section facts.
Context `{JsonLaws ChainState}.
Definition parse (text : string) : result StoreError (option ChainState) :=
  Some <$> map_err Serde (json_from_str text).
Definition text_of (o : option ChainState) : result string string :=
  match o with Some c => json_to_string_pretty c | None => Err "no state" end.

Lemma load_eq s d : load s d = load_file (file_path s) None parse d.
Proof.
  unfold load, load_file. rewrite !run_bind. cbn -[fs_read_to_string].
  destruct (negb _); [done|]. rewrite !run_bind. by destruct (io _ d) as [[t|] d1].
Qed.
Lemma parse_text o t : text_of o = Ok t → parse t = Ok o.
Proof. destruct o; cbn; [|done]. intros Ht. unfold parse. by rewrite (json_roundtrip _ _ Ht). Qed.
Lemma text_utf8 o t : text_of o = Ok t → from_utf8 (string_bytes t) = Some t.
Proof. destruct o; cbn; [|done]. apply json_utf8. Qed.

Lemma state_at s d d' :
  files d' !! file_path s = files d !! file_path s → fs_exists (file_path s) d' = fs_exists (file_path s) d →
  view (load s) d' = view (load s) d.
Proof. intros Hf He. unfold view. rewrite !load_eq. by apply (load_file_at (file_path s) None parse). Qed.
Lemma load_looks s : looks (load s).
Proof. unfold load, serde. look. Qed.
(** Saving touches the state file and its temporary file only. *)
Lemma state_save_spec s state d r d' :
  file_path s ≠ [] → save s state d = (r, d') →
  (∀ q, q ≠ file_path s → q ≠ with_tmp (file_path s) → files d' !! q = files d !! q) ∧
  dirs d' = dirs d ∧
  match r with
  | Ok _ => view (load s) d' = Ok (Some state)
  | Err _ => view (load s) d' = view (load s) d
  end.
Proof.
  intros Hp Hs.
  exact (save_file_spec (file_path s) None parse text_of (λ o, o) (load s) (load_eq s) Hp
           parse_text text_utf8 (Some state) d r d' Hs).
Qed.
End facts.
End StateFacts.

(** Saving the chain state is atomic: whatever fails, the next process
    loads either the state that was saved before, when [save] failed, or
    exactly the new state, when it succeeded; no other file but the temporary
    one changes. *)
Theorem state_store_save_atomic `{JsonLaws StateStore.ChainState} s state d r d' :
  StateStore.file_path s ≠ [] → StateStore.save s state d = (r, d') →
  (∀ q, q ≠ StateStore.file_path s → q ≠ with_tmp (StateStore.file_path s) →
        files d' !! q = files d !! q) ∧
  view (StateStore.load s) d' =
    match r with Ok _ => Ok (Some state) | Err _ => view (StateStore.load s) d end.
Proof.
  intros Hp Hs. destruct (StateFacts.state_save_spec s state d r d' Hp Hs) as (Hq & _ & Hr).
  split; [done|]. by destruct r.
Qed.

Section StateWitness.
Import Codec.CountableCodec.
Lemma state_store_save_atomic_witness :
  let s := StateStore.new ["data"] in
  let st := StateStore.mk_ChainState "0x1" "0x1" "0x0" 4 1700 in
  view (StateStore.load s) (StateStore.save s st (disk0 [NoFault; FailClean])).2
  = view (StateStore.load s) (disk0 [NoFault; FailClean]) ∧
  view (StateStore.load s) (StateStore.save s st (disk0 [])).2 = Ok (Some st).
Proof.
  cbv zeta. set (s := StateStore.new ["data"]).
  set (st := StateStore.mk_ChainState "0x1" "0x1" "0x0" 4 1700). split.
  - destruct (StateStore.save s st (disk0 [NoFault; FailClean])) as [r d'] eqn:Hs.
    pose proof (state_store_save_atomic s st _ r d' ltac:(done) Hs) as [_ H].
    vm_compute in Hs. by injection Hs as <- _.
  - destruct (StateStore.save s st (disk0 [])) as [r d'] eqn:Hs.
    pose proof (state_store_save_atomic s st _ r d' ltac:(done) Hs) as [_ H].
    vm_compute in Hs. by injection Hs as <- _.
Defined.
End StateWitness.

(** ** The inbox store *)

Module InboxFacts.
Import InboxStore.

Lemma insert_submitted_ok n r m m' :
  insert_submitted n r m = Ok m' ↔ m !! n = None ∧ m' = <[n := r]> m.
Proof. unfold insert_submitted. destruct (m !! n); naive_solver. Qed.

Lemma set_included_ok n h m m' :
  set_included n h m = Ok m' ↔
  (∃ x, m !! n = Some (Included h x) ∧ m' = m) ∨
  (∃ a b c x t, m !! n = Some (Submitted a b c x t) ∧ m' = <[n := Included h x]> m).
Proof.
  unfold set_included. destruct (m !! n) as [[a b c x t|e x]|] eqn:Hn.
  - naive_solver.
  - destruct (N.eqb_spec e h); naive_solver.
  - naive_solver.
Qed.

(** The life of one nonce: untracked, then submitted, then included, with the
    transaction hash fixed at the first step. *)
Definition advances (o o' : option NonceRecord) : Prop :=
  match o, o' with
  | None, _ => True
  | Some _, None => False
  | Some (Submitted _ _ _ x _ as r), Some r' => r' = r ∨ ∃ h, r' = Included h x
  | Some (Included _ _ as r), Some r' => r' = r
  end.

Lemma advances_refl o : advances o o.
Proof. destruct o as [[]|]; cbn; auto. Qed.
Lemma advances_trans o1 o2 o3 : advances o1 o2 → advances o2 o3 → advances o1 o3.
Proof.
  destruct o1 as [[]|], o2 as [[]|], o3 as [[]|]; cbn; naive_solver.
Qed.
#[local] Hint Resolve advances_refl : core.

(** Reading and writing the inbox file. *)
Section frame.
Context `{Json InboxFile}.
Lemma reads_inbox s : reads (load_raw s).
Proof.
  unfold load_raw. apply reads_bind; [apply reads_getM|]. intros d.
  destruct (negb _); [apply reads_ret|]. apply reads_bind; [apply reads_text|]. intros text.
  destruct (is_blank text); [apply reads_ret|apply reads_lift].
Qed.
Lemma snapshot_looks s : looks (snapshot s).
Proof. unfold snapshot, load_raw, serde. look. Qed.
Lemma inbox_mutate_frame s f d0 :
  file_path s ≠ [] → preserves (only_file (file_path s) d0) (mutate s f).
Proof.
  intros Hs. unfold mutate, save_raw, serde.
  apply preserves_bind; [apply reads_only_file, reads_inbox|]. intros file.
  apply preserves_bind; [apply preserves_lift|]. intros m.
  apply preserves_bind; [apply preserves_lift|]. intros text. by apply write_only_file.
Qed.
End frame.

Section facts.
Context `{JsonLaws InboxFile}.
Definition parse (text : string) : result StoreError InboxFile :=
  if is_blank text then Ok (mk_file ∅) else map_err Serde (json_from_str text).

Lemma inbox_load_raw_eq s d : load_raw s d = load_file (file_path s) (mk_file ∅) parse d.
Proof.
  unfold load_raw, load_file. rewrite !run_bind. cbn -[fs_read_to_string].
  destruct (negb _); [done|]. rewrite !run_bind. destruct (io _ d) as [[t|] d1]; [|done].
  unfold parse. by destruct (is_blank t).
Qed.
Lemma inbox_parse_text f t : json_to_string_pretty f = Ok t → parse t = Ok f.
Proof.
  intros Ht. unfold parse. by rewrite (json_not_blank _ _ Ht), (json_roundtrip _ _ Ht).
Qed.

Lemma view_fmap {A B} (g : A → B) (m : Store A) d : view (g <$> m) d = g <$> view m d.
Proof. unfold view. cbv [fmap M_fmap]. by destruct (m (restart d)). Qed.

Lemma inbox_same s d d' : same_file (file_path s) d d' → view (snapshot s) d' = view (snapshot s) d.
Proof.
  intros Hs. unfold snapshot. rewrite !view_fmap. f_equal. unfold view. rewrite !inbox_load_raw_eq.
  by apply load_file_same.
Qed.

Lemma inbox_mutate_spec s f d r d' :
  file_path s ≠ [] → mutate s f d = (r, d') →
  match r with
  | Ok _ => ∃ m m', view (snapshot s) d = Ok m ∧ f m = Ok m' ∧ view (snapshot s) d' = Ok m'
  | Err _ => view (snapshot s) d' = view (snapshot s) d
  end.
Proof.
  intros Hp Hm.
  destruct (mutate_file_spec (file_path s) (mk_file ∅) parse json_to_string_pretty (λ a, a)
              (load_raw s) (inbox_load_raw_eq s) Hp inbox_parse_text json_utf8
              (λ a, mk_file <$> f (nonces a)) d r d') as (_ & _ & Hr).
  { rewrite <- Hm. unfold mutate. rewrite !run_bind.
    destruct (load_raw s d) as [[a|] d1]; [|done]. rewrite !run_bind. unfold lift.
    by destruct (f (nonces a)). }
  unfold snapshot. rewrite !view_fmap. destruct r as [[]|]; [|by rewrite Hr].
  destruct Hr as (a & a' & -> & Hf & ->). cbn in *.
  destruct (f (nonces a)) as [m'|] eqn:Hfa; cbn in Hf; [|done].
  injection Hf as <-. eauto.
Qed.

(** One store update, and a run of them in which every failure is
    ignored. *)
Inductive op :=
| OpRecord (nonce deadline_height deadline_ms first_seen : N) (tx_hash tx_bytes : string)
| OpInclude (nonce height : N).
Definition run_op (s : t) (o : op) : Store unit :=
  match o with
  | OpRecord n a b c x t => record_submitted s n a b c x t
  | OpInclude n h => mark_included s n h
  end.
Fixpoint run_ops (s : t) (os : list op) (d : disk) : disk :=
  match os with [] => d | o :: os => run_ops s os (run_op s o d).2 end.

Lemma run_op_view s o d r d' m :
  file_path s ≠ [] → run_op s o d = (r, d') → view (snapshot s) d = Ok m →
  ∃ m', view (snapshot s) d' = Ok m' ∧ ∀ n, advances (m !! n) (m' !! n).
Proof.
  intros Hp Hr Hv.
  destruct r as [[]|e].
  - destruct o as [n a b c x t|n h]; apply inbox_mutate_spec in Hr as (m0 & m' & Hv' & Hf & Hv'');
      try done; rewrite Hv in Hv'; injection Hv' as <-; exists m'; (split; [done|]); intros k.
    + apply insert_submitted_ok in Hf as [Hn ->]. destruct (decide (k = n)) as [->|].
      * by rewrite lookup_insert_eq, Hn.
      * by rewrite lookup_insert_ne.
    + apply set_included_ok in Hf as [(x & Hn & ->)|(a & b & c & x & t & Hn & ->)]; [done|].
      destruct (decide (k = n)) as [->|].
      * rewrite lookup_insert_eq, Hn. cbn. eauto.
      * by rewrite lookup_insert_ne.
  - exists m. split; [|done]. rewrite <- Hv.
    destruct o; by apply inbox_mutate_spec in Hr.
Qed.
End facts.
End InboxFacts.

(** C14: A tracked nonce only moves forward.  Across any run of store updates,
    with faults anywhere and failures ignored, an included nonce keeps its
    height and hash for ever, a submitted one stays as it is or becomes
    included under the same transaction hash, and no nonce is forgotten. *)
Theorem inbox_nonces_advance `{JsonLaws InboxStore.InboxFile} s os d m :
  InboxStore.file_path s ≠ [] → view (InboxStore.snapshot s) d = Ok m →
  ∃ m', view (InboxStore.snapshot s) (InboxFacts.run_ops s os d) = Ok m' ∧
        ∀ n, InboxFacts.advances (m !! n) (m' !! n).
Proof.
  intros Hp. revert d m. induction os as [|o os IH]; intros d m Hv; cbn.
  - exists m. split; [done|]. intros n. apply InboxFacts.advances_refl.
  - destruct (InboxFacts.run_op s o d) as [r d1] eqn:Hr.
    destruct (InboxFacts.run_op_view s o d r d1 m Hp Hr Hv) as (m1 & Hv1 & H1).
    destruct (IH d1 m1 Hv1) as (m' & Hv' & H'). exists m'. split; [done|].
    intros n. by eapply InboxFacts.advances_trans.
Qed.

Section InboxWitness.
Import Codec.CountableCodec.
Lemma inbox_nonces_advance_witness :
  let s := InboxStore.new ["data"] in
  let os := [InboxFacts.OpRecord 0 9 100 3 "h0" "t0"; InboxFacts.OpInclude 0 4;
             InboxFacts.OpInclude 0 5] in
  ∃ m', view (InboxStore.snapshot s) (InboxFacts.run_ops s os (disk0 [NoFault; Torn 2])) = Ok m' ∧
        ∀ n, InboxFacts.advances ((∅ : gmap N InboxStore.NonceRecord) !! n) (m' !! n).
Proof.
  cbv zeta.
  exact (inbox_nonces_advance (InboxStore.new ["data"]) _ (disk0 [NoFault; Torn 2]) ∅
           ltac:(done) eq_refl).
Defined.
End InboxWitness.

(** ** The block store *)

Module BlockFacts.
Import BlockStore.

Lemma block_path_inj s h h' :
  is_u64 h → is_u64 h' → block_path s h = block_path s h' → h = h'.
Proof.
  intros Hh Hh' Heq. apply app_inj_2 in Heq as [_ [= Hf]]; [|done].
  apply (f_equal parse_u64) in Hf. rewrite !fmt_dec_roundtrip in Hf by done. by injection Hf.
Qed.

Lemma parent_block_path s h : parent (block_path s h) = dir s.
Proof. unfold parent, block_path. rewrite length_app; cbn. by rewrite Nat.add_sub, take_app_length. Qed.

Lemma fs_write_spec p bs d r d' :
  fs_write p bs d = (r, d') →
  dirs d' = dirs d ∧ (∀ q, q ≠ p → files d' !! q = files d !! q) ∧
  (is_ok r = true → files d' !! p = Some bs).
Proof.
  unfold fs_write. destruct (bool_decide _); [|intros [= <- <-]; done].
  destruct (next_fault d); intros [= <- <-]; cbn;
    (split; [done|]); (split; [intros; by rewrite ?lookup_insert_ne|]); try done.
  by rewrite lookup_insert_eq.
Qed.

Section facts.
Context `{BcsLaws serde_block}.

Lemma view_get s h d :
  view (get s h) d =
  if fs_exists (block_path s h) d then
    match files d !! block_path s h with
    | Some bs => map_err Serde (block_from_bcs bs)
    | None => Err (Io NotFound)
    end
  else Err (BlockNotFound h).
Proof.
  unfold view, get. rewrite run_bind. cbn -[fs_read block_from_bcs].
  change (fs_exists (block_path s h) (restart d)) with (fs_exists (block_path s h) d).
  destruct (fs_exists _ _); cbn -[fs_read block_from_bcs]; [|done].
  rewrite run_bind, io_run. unfold fs_read, restart; cbn -[block_from_bcs].
  by destruct (files d !! block_path s h).
Qed.

Lemma put_spec s b d r d' :
  put s b d = (r, d') →
  dirs d' = dirs d ∧
  (∀ q, q ≠ block_path s (Core.height (header b)) → files d' !! q = files d !! q) ∧
  (is_ok r = true → ∃ bs, block_to_bcs b = Ok bs ∧
     files d' !! block_path s (Core.height (header b)) = Some bs).
Proof.
  unfold put, serde. rewrite run_bind. unfold lift.
  destruct (block_to_bcs b) as [bs|e] eqn:Hb; cbn -[fs_write].
  - rewrite io_run. destruct (fs_write _ bs d) as [r1 d1] eqn:Hw. intros [= <- <-].
    apply fs_write_spec in Hw as (Hd & Hq & Hr). split; [done|]. split; [done|].
    destruct r1; cbn in *; [eauto|done].
  - intros [= <- <-]. done.
Qed.

Lemma get_same s h d d' :
  same_file (block_path s h) d d' → view (get s h) d' = view (get s h) d.
Proof.
  intros Hs. rewrite !view_get, (fs_exists_same _ _ _ Hs). by destruct Hs as [-> _].
Qed.
Lemma put_get s b d d' :
  put s b d = (Ok tt, d') →
  view (get s (Core.height (header b))) d' = Ok b ∧ has s (Core.height (header b)) d' = true.
Proof.
  intros Hp. apply put_spec in Hp as (_ & _ & Hr). destruct (Hr eq_refl) as (bs & Hb & Hf).
  assert (has s (Core.height (header b)) d' = true) as He by (apply fs_exists_files; eauto).
  split; [|done]. unfold has in He. by rewrite view_get, He, Hf, (block_bcs_roundtrip _ _ Hb).
Qed.
End facts.

Lemma max_list_spec l :
  match max_list l with
  | Some m => m ∈ l ∧ ∀ x, x ∈ l → x ≤ m
  | None => l = []
  end.
Proof.
  destruct l as [|a l]; [done|]. cbn. induction l as [|b l IH]; cbn.
  - split; [left|]. intros x Hx%list_elem_of_singleton. lia.
  - destruct IH as [IH1 IH2]. split.
    + destruct (N.max_spec b (foldr N.max a l)) as [[_ ->]|[_ ->]]; [|right; left].
      apply elem_of_cons in IH1 as [->|?]; [left|]. by right; right.
    + intros x. rewrite !elem_of_cons. intros [->|[->|Hx]]; [|lia|].
      * specialize (IH2 a ltac:(left)). lia.
      * specialize (IH2 x ltac:(by right)). lia.
Qed.

Lemma elem_of_names s d name :
  name ∈ omap (λ '(q, _), if bool_decide (parent q = dir s) then last q else None)
           (map_to_list (files d)) ↔ is_Some (files d !! (dir s ++ [name])).
Proof.
  rewrite list_elem_of_omap. split.
  - intros ([q bs] & Hq%elem_of_map_to_list & Hn). case_bool_decide as Hp; [|done].
    destruct q as [|f q _] using rev_ind; [done|]. rewrite last_snoc in Hn. injection Hn as <-.
    unfold parent in Hp. rewrite length_app in Hp; cbn in Hp.
    rewrite Nat.add_sub, take_app_length in Hp. subst. eauto.
  - intros [bs Hbs]. exists (dir s ++ [name], bs). split; [by apply elem_of_map_to_list|].
    rewrite bool_decide_true; [by rewrite last_snoc|].
    unfold parent. rewrite length_app; cbn. by rewrite Nat.add_sub, take_app_length.
Qed.
End BlockFacts.

(** A stored block reads back.  After a successful [put] the next process
    reads exactly that block at its height, every other height reads as before
    whether or not the [put] succeeded, and the block counts towards
    [latest_height]. *)
Theorem block_store_put_get `{BcsLaws serde_block} s b d r d' :
  header_wf (header b) → BlockStore.put s b d = (r, d') →
  (r = Ok tt → view (BlockStore.get s (Core.height (header b))) d' = Ok b ∧
               BlockStore.has s (Core.height (header b)) d' = true) ∧
  (∀ h, is_u64 h → h ≠ Core.height (header b) →
        view (BlockStore.get s h) d' = view (BlockStore.get s h) d).
Proof.
  intros [Hwf _] Hp. split; [intros ->; by apply (BlockFacts.put_get s b d)|].
  apply BlockFacts.put_spec in Hp as (Hd & Hq & _). intros h Hh Hne. apply BlockFacts.get_same.
  split; [|done]. apply Hq. intros Heq. apply Hne. by eapply BlockFacts.block_path_inj.
Qed.

(** [latest_height] is the greatest height among the numeric file names in
    the blocks directory, and [None] exactly when there is none. *)
Theorem latest_height_spec s d :
  BlockStore.dir s ∈ dirs d →
  let stored h := ∃ name, parse_u64 name = Some h ∧ is_Some (files d !! (BlockStore.dir s ++ [name])) in
  match BlockStore.latest_height s (restart d) with
  | Some m => stored m ∧ ∀ h, stored h → h ≤ m
  | None => ∀ h, ¬ stored h
  end.
Proof.
  intros Hd stored. unfold BlockStore.latest_height, fs_read_dir. cbn -[BlockStore.max_list].
  rewrite bool_decide_true by done. cbn -[BlockStore.max_list].
  set (names := omap _ (map_to_list _)).
  assert (∀ h, h ∈ omap parse_u64 names ↔ stored h) as Hin.
  { intros h. rewrite list_elem_of_omap. unfold stored. split.
    - intros (name & Hn & Hp). exists name. split; [done|]. by apply BlockFacts.elem_of_names.
    - intros (name & Hp & Hn). exists name. split; [|done]. by apply BlockFacts.elem_of_names. }
  pose proof (BlockFacts.max_list_spec (omap parse_u64 names)) as Hm.
  destruct (BlockStore.max_list _) as [m|].
  - destruct Hm as [H1 H2]. split; [by apply Hin|]. intros h Hh. by apply H2, Hin.
  - intros h Hh. apply Hin in Hh. rewrite Hm in Hh. by apply not_elem_of_nil in Hh.
Qed.

Section BlockWitness.
Import Codec.CountableCodec.
Definition block0 (h : N) : Block :=
  mk_Block (mk_Header h (array_fill 32 x00) (array_fill 32 x03) h) [x01; x02; x03] None.

Lemma block_store_put_get_witness :
  let s := BlockStore.mk ["data"; "blocks"] in
  let d' := (BlockStore.put s (block0 7) (disk0 [])).2 in
  view (BlockStore.get s 7) d' = Ok (block0 7) ∧ BlockStore.has s 7 d' = true.
Proof.
  cbv zeta. set (s := BlockStore.mk ["data"; "blocks"]).
  destruct (BlockStore.put s (block0 7) (disk0 [])) as [r d'] eqn:Hp.
  pose proof (block_store_put_get s (block0 7) _ r d' ltac:(split; vm_compute; discriminate) Hp)
    as [H _].
  apply H. unfold BlockStore.put in Hp. vm_compute in Hp. by injection Hp as <- _.
Defined.

Lemma latest_height_spec_witness :
  let s := BlockStore.mk ["data"; "blocks"] in
  let d := (BlockStore.put s (block0 12) (BlockStore.put s (block0 7) (disk0 [])).2).2 in
  BlockStore.latest_height s (restart d) = Some 12 ∧
  let stored h := ∃ name, parse_u64 name = Some h ∧ is_Some (files d !! (BlockStore.dir s ++ [name])) in
  match BlockStore.latest_height s (restart d) with
  | Some m => stored m ∧ ∀ h, stored h → h ≤ m
  | None => ∀ h, ¬ stored h
  end.
Proof.
  split; [vm_compute; reflexivity|].
  apply (latest_height_spec (BlockStore.mk ["data"; "blocks"])). vm_compute. reflexivity.
Defined.
End BlockWitness.

