(* ===== verification/Wire.v ===== *)
(** [crates/sui/src/{wire,blob_id,lib}.rs]: the batch format of a Walrus blob,
    blob ids, the Walrus error type, and block signature verification. *)

From S2P Require Import Prelude Text Codec Disk Core.
Local Open Scope string_scope.
Local Open Scope list_scope.
Local Open Scope N_scope.

(** ** Walrus errors *)

Module Walrus.
Inductive Error :=
| Transport (msg : string)
| Serde (msg : string)
| Store (status : N) (body : string)
| Read (status : N) (body : string)
| InvalidBlobId (msg : string)
| MissingBlobId
| Url (msg : string)
| InvalidBatch (msg : string)
| Settlement (msg : string).
#[global] Instance Error_eq_dec : EqDecision Error.
Proof. solve_decision. Defined.

Definition display (e : Error) : string :=
  match e with
  | Transport m => "transport error: " +:+ m
  | Serde m => "serde error: " +:+ m
  | Store st body => "store failed (" +:+ fmt_dec st +:+ "): " +:+ body
  | Read st body => "read failed (" +:+ fmt_dec st +:+ "): " +:+ body
  | InvalidBlobId m => "invalid blob id: " +:+ m
  | MissingBlobId => "store response missing blob id"
  | Url m => "invalid url: " +:+ m
  | InvalidBatch m => "invalid blob batch: " +:+ m
  | Settlement m => "settlement error: " +:+ m
  end.

Definition is_transient (e : Error) : bool :=
  match e with
  | Transport _ => true
  | Read status _ | Store status _ =>
      (status =? 404) || (status =? 408) || (status =? 425) || (status =? 429)
      || ((500 <=? status) && (status <=? 599))
  | Serde _ | InvalidBlobId _ | InvalidBatch _ | MissingBlobId | Url _ | Settlement _ => false
  end.

(** [to_core] *)
Definition to_core (e : Error) : Core.Error := DataAvailabilityE (display e).
End Walrus.

(** ** Batches *)

Module Wire.
Record WireBlock := mk_WireBlock {
  height : N;
  parent_hash : array 32;
  state_root : array 32;
  timestamp : N;
  data : list byte;
  signature : option (list byte)
}.
#[global] Instance WireBlock_eq_dec : EqDecision WireBlock.
Proof. solve_decision. Defined.
#[global] Program Instance WireBlock_countable : Countable WireBlock :=
  inj_countable' (λ w, (height w, parent_hash w, state_root w, timestamp w, data w, signature w))
    (λ '(h, p, r, t, d, s), mk_WireBlock h p r t d s) _.
Next Obligation. by intros []. Qed.

(** [From<&Block> for WireBlock] *)
Definition from_block (b : Block) : WireBlock :=
  let h := header b in
  mk_WireBlock (Core.height h) (Core.parent_hash h) (Core.state_root h) (Core.timestamp h)
    (Core.data b) (arr_bytes <$> Core.signature b).

(** [From<WireBlock> for Block]: a signature of another length is dropped. *)
Definition to_block (w : WireBlock) : Block :=
  mk_Block (mk_Header (height w) (parent_hash w) (state_root w) (timestamp w)) (data w)
    (signature w ≫= try_into_array 64).

Definition decode_one (w : WireBlock) : result Walrus.Error Block :=
  match signature w with
  | Some sig =>
      if negb (Nat.eqb (length sig) 64) then
        Err (Walrus.InvalidBatch ("block " +:+ fmt_dec (height w) +:+ " signature length "
             +:+ fmt_dec (N.of_nat (length sig)) +:+ ", expected 64"))
      else Ok (to_block w)
  | None => Ok (to_block w)
  end.

Section with_bcs.
Context `{Bcs (list WireBlock)}.

Definition encode (blocks : list Block) : result Walrus.Error (list byte) :=
  map_err Walrus.Serde (bcs_to_bytes (from_block <$> blocks)).

Definition decode (bytes : list byte) : result Walrus.Error (list Block) :=
  wire ← map_err Walrus.Serde (bcs_from_bytes bytes);
  match wire with
  | [] => Err (Walrus.InvalidBatch "batch is empty")
  | _ => mapM decode_one wire
  end.
End with_bcs.

(** *** Lemmas *)

Lemma decode_from_block b : decode_one (from_block b) = Ok b.
Proof.
  destruct b as [[h p r t] d [s|]]; unfold decode_one, to_block; cbn; [|done].
  by rewrite length_arr_bytes, Nat.eqb_refl, try_into_array_bytes.
Qed.

Lemma mapM_decode_from bs : mapM decode_one (from_block <$> bs) = Ok bs.
Proof. apply mapM_result_ok, Forall2_fmap_l, Forall_Forall2_diag, Forall_true, decode_from_block. Qed.

(** A decoded block re-encodes to the wire block it came from: decoding drops
    nothing. *)
Lemma decode_one_inv w b : decode_one w = Ok b → from_block b = w.
Proof.
  destruct w as [h p r t d [s|]]; unfold decode_one, to_block, from_block; cbn.
  - destruct (Nat.eqb_spec (length s) 64) as [Hl|]; cbn; [|done]. intros [= <-]; cbn.
    destruct (try_into_array 64 s) as [a|] eqn:Ha.
    + apply try_into_array_Some in Ha as ->. done.
    + by apply try_into_array_None in Ha.
  - by intros [= <-].
Qed.

Lemma mapM_decode_inv ws bs : mapM decode_one ws = Ok bs → from_block <$> bs = ws.
Proof.
  intros H%mapM_result_ok. induction H as [|w b ws bs Hw H IH]; [done|].
  cbn. by rewrite IH, (decode_one_inv w b).
Qed.

Lemma decode_encode `{BcsLaws (list WireBlock)} blocks bytes :
  encode blocks = Ok bytes →
  decode bytes =
    if bool_decide (blocks = []) then Err (Walrus.InvalidBatch "batch is empty") else Ok blocks.
Proof.
  unfold encode, decode.
  destruct (bcs_to_bytes _) as [bs|] eqn:Hb; cbn; [|done]. intros [= <-].
  rewrite (bcs_decode_encode _ _ Hb). cbn. destruct blocks as [|b blocks]; [done|].
  rewrite bool_decide_false by done. apply (mapM_decode_from (b :: blocks)).
Qed.
End Wire.

(** A published batch is read back as it was: the bytes of any non-empty
    batch decode to exactly its blocks, signatures and payloads included, and
    the empty batch is refused. *)
Theorem wire_roundtrip `{BcsLaws (list Wire.WireBlock)} blocks bytes :
  Wire.encode blocks = Ok bytes →
  Wire.decode bytes =
    if bool_decide (blocks = []) then Err (Walrus.InvalidBatch "batch is empty") else Ok blocks.
Proof. apply Wire.decode_encode. Qed.

(** Decoding is strict: bytes that decode to a batch are the one encoding
    of that batch, so no block of a blob is altered, dropped or left unsigned by
    the decoder, and the batch is not empty. *)
Theorem wire_decode_strict `{BcsLaws (list Wire.WireBlock)} bytes blocks :
  Wire.decode bytes = Ok blocks → blocks ≠ [] ∧ Wire.encode blocks = Ok bytes.
Proof.
  unfold Wire.encode, Wire.decode.
  destruct (bcs_from_bytes bytes) as [ws|] eqn:Hb; cbn -[mapM]; [|done].
  destruct ws as [|w ws]; [done|]. intros Hm. split.
  - intros ->. apply mapM_result_ok in Hm. by inversion Hm.
  - rewrite (Wire.mapM_decode_inv _ _ Hm), (bcs_encode_decode _ _ Hb). done.
Qed.

Section WireWitness.
Import Codec.CountableCodec.
Definition wire_block0 : Block :=
  mk_Block header0 [x0a; x0b] (Some (array_fill 64 x05)).
Lemma wire_roundtrip_witness :
  match Wire.encode [wire_block0] with
  | Ok bytes => Wire.decode bytes = Ok [wire_block0]
  | Err _ => False
  end.
Proof.
  destruct (Wire.encode [wire_block0]) as [bytes|] eqn:He; [|done].
  exact (wire_roundtrip [wire_block0] bytes He).
Defined.
Lemma wire_decode_strict_witness :
  match Wire.encode [wire_block0] with
  | Ok bytes => Wire.decode bytes = Ok [wire_block0] ∧
                ([wire_block0] ≠ [] ∧ Wire.encode [wire_block0] = Ok bytes)
  | Err _ => False
  end.
Proof.
  destruct (Wire.encode [wire_block0]) as [bytes|] eqn:He; [|done].
  assert (Wire.decode bytes = Ok [wire_block0]) as Hd
    by exact (Wire.decode_encode [wire_block0] bytes He).
  pose proof (wire_decode_strict bytes [wire_block0] Hd) as Hs. rewrite He in Hs.
  exact (conj Hd Hs).
Defined.
End WireWitness.

(** ** Blob ids *)

Module BlobIds.
Section with_b64.
Context `{Base64}.

Definition decode (s : string) : result Walrus.Error BlobId :=
  bytes ← map_err (λ e, Walrus.InvalidBlobId ("base64url decode: " +:+ e)) (b64url_decode s);
  arr ← ok_or (try_into_array 32 bytes)
          (Walrus.InvalidBlobId ("expected 32 bytes, got " +:+ fmt_dec (N.of_nat (length bytes))));
  Ok (mk_BlobId arr).

Definition encode (id : BlobId) : string := b64url_encode (arr_bytes (blob_hash id)).

Lemma roundtrip `{!Base64Laws} id : decode (encode id) = Ok id.
Proof.
  unfold decode, encode. rewrite b64url_roundtrip. cbn.
  rewrite try_into_array_bytes. by destruct id.
Qed.
End with_b64.
End BlobIds.

(** ** Block signatures *)

Section Verification.
Context {PrivKey PubKey : Type} `{Ed25519 PrivKey PubKey}.

Definition verify_block_signature (block : Block) (pubkey : PubKey) : result Core.Error unit :=
  sig ← ok_or (signature block)
          (InvalidBlock ("block " +:+ fmt_dec (height (header block)) +:+ " is unsigned"));
  map_err (λ e, InvalidBlock ("invalid signature on block "
                              +:+ fmt_dec (height (header block)) +:+ ": " +:+ e))
    (verify pubkey (signing_message (header block)) sig).
End Verification.

(** Verification accepts the sequencer's own blocks and looks only at the
    header: a block carrying the signature its header was signed with verifies
    under the signer's key whatever its payload, an unsigned block never does,
    and replacing a verified block's payload leaves it verified. *)
Theorem verify_block_signature_spec {PrivKey PubKey} `{Ed25519Laws PrivKey PubKey}
    (s : Ed25519BlockSigner PrivKey) (b : Block) (pk : PubKey) (payload : list byte) :
  (∀ sg, sign_header s (header b) = Ok sg →
         verify_block_signature (mk_Block (header b) payload (Some sg)) (pub_key s) = Ok tt) ∧
  is_ok (verify_block_signature (mk_Block (header b) (data b) None) pk) = false ∧
  verify_block_signature (mk_Block (header b) payload (signature b)) pk
    = verify_block_signature b pk.
Proof.
  split; [|split; [done|by destruct b]].
  intros sg Hsg. pose proof (sign_header_verifies s _ sg Hsg) as Hv.
  unfold verify_block_signature. cbn in *. by rewrite Hv.
Qed.

Section VerifyWitness.
Import Codec.Demo.
Lemma verify_block_signature_spec_witness :
  let s := mk_signer (array_fill 32 x09) in
  let b := mk_Block header0 [x01] None in
  (∀ sg, sign_header s (header b) = Ok sg →
         verify_block_signature (mk_Block (header b) [x02] (Some sg)) (pub_key s) = Ok tt) ∧
  is_ok (verify_block_signature (mk_Block (header b) (data b) None) (array_fill 32 x09)) = false ∧
  verify_block_signature (mk_Block (header b) [x02] (signature b)) (array_fill 32 x09)
    = verify_block_signature b (array_fill 32 x09).
Proof.
  exact (verify_block_signature_spec (mk_signer (array_fill 32 x09)) (mk_Block header0 [x01] None)
           (array_fill 32 x09) [x02]).
Defined.
End VerifyWitness.

