(* ===== verification/Contract.v ===== *)
(** [move/sources/{inbox,rotation,settlement}.move]: the on-chain side the Rust
    client drives, as far as the client's guarantees depend on it: the
    force-inclusion inbox, the rotation state, and settlement.

    A Move call either aborts, with no effect, or returns the new object
    state; [u64] arithmetic aborts on overflow. *)

From S2P Require Import Prelude Codec.
Local Open Scope N_scope.

Inductive abort :=
| Abort (code : N)
| ArithmeticError
| DynamicFieldError.
#[global] Instance abort_eq_dec : EqDecision abort.
Proof. solve_decision. Defined.

Abbreviation call A := (result abort A).
Definition assert (b : bool) (code : N) : call unit := if b then Ok tt else Err (Abort code).
Definition mv_add (a b : N) : call N := ok_or (checked_add a b) ArithmeticError.

(** ** inbox.move *)

Module Inbox.
Definition INCLUSION_WINDOW_MS : N := 600000.
Definition MIN_WINDOW_MS : N := 60000.
Definition MAX_WINDOW_MS : N := 3600000.
Definition MIN_WIDEN_DELAY_MS : N := 600000.
Definition MAX_WIDEN_DELAY_MS : N := 604800000.
Definition E_EMPTY_TX : N := 0.
Definition E_CURSOR_REGRESSION : N := 1.
Definition E_CURSOR_TOO_HIGH : N := 2.
Definition E_TIMESTAMP_REGRESSION : N := 3.
Definition E_DEADLINE_EXCEEDED : N := 4.
Definition E_WINDOW_OUT_OF_BOUNDS : N := 5.
Definition E_DELAY_OUT_OF_BOUNDS : N := 6.
Definition E_NO_PENDING_WINDOW : N := 7.

Record PendingTx := mk_PendingTx { deadline_ms : N; tx_bytes : list byte }.
Record PendingWindow := mk_PendingWindow { new_window_ms : N; effective_at_ms : N }.
Record Inbox := mk_Inbox {
  next_nonce : N;
  included_count : N;
  last_settled_ts : N;
  pending : gmap N PendingTx;
  window : option N;
  pending_window : option PendingWindow
}.

Definition initialize : Inbox := mk_Inbox 0 0 0 ∅ None None.

Definition effective_window_ms (i : Inbox) (now : N) : N :=
  let stored := match window i with Some w => w | None => INCLUSION_WINDOW_MS end in
  match pending_window i with
  | Some p => if effective_at_ms p <=? now then new_window_ms p else stored
  | None => stored
  end.

Definition submit (i : Inbox) (now : N) (bytes : list byte) : call Inbox :=
  assert (negb (bool_decide (bytes = []))) E_EMPTY_TX;;
  let nonce := next_nonce i in
  deadline ← mv_add now (effective_window_ms i now);
  match pending i !! nonce with
  | Some _ => Err DynamicFieldError
  | None =>
      next ← mv_add nonce 1;
      Ok (mk_Inbox next (included_count i) (last_settled_ts i)
            (<[nonce := mk_PendingTx deadline bytes]> (pending i)) (window i) (pending_window i))
  end.

Definition stage_window_change (i : Inbox) (new_window delay now : N) : call Inbox :=
  assert ((MIN_WINDOW_MS <=? new_window) && (new_window <=? MAX_WINDOW_MS))
    E_WINDOW_OUT_OF_BOUNDS;;
  let current := effective_window_ms i now in
  if new_window <=? current then
    Ok (mk_Inbox (next_nonce i) (included_count i) (last_settled_ts i) (pending i)
          (Some new_window) None)
  else
    assert ((MIN_WIDEN_DELAY_MS <=? delay) && (delay <=? MAX_WIDEN_DELAY_MS))
      E_DELAY_OUT_OF_BOUNDS;;
    at_ms ← mv_add now delay;
    Ok (mk_Inbox (next_nonce i) (included_count i) (last_settled_ts i) (pending i)
          (window i) (Some (mk_PendingWindow new_window at_ms))).

Definition cancel_window_change (i : Inbox) : call Inbox :=
  match pending_window i with
  | None => Err (Abort E_NO_PENDING_WINDOW)
  | Some _ => Ok (mk_Inbox (next_nonce i) (included_count i) (last_settled_ts i) (pending i)
                    (window i) None)
  end.

(** The [while] loop of [enforce_settle]: remove [count] nonces from
    [nonce] on. *)
Fixpoint prune (count : nat) (nonce : N) (p : gmap N PendingTx) : call (gmap N PendingTx) :=
  match count with
  | O => Ok p
  | S count =>
      match p !! nonce with
      | None => Err DynamicFieldError
      | Some _ => prune count (nonce + 1) (delete nonce p)
      end
  end.

Definition enforce_settle (i : Inbox) (block_ts cursor : N) : call Inbox :=
  assert (included_count i <=? cursor) E_CURSOR_REGRESSION;;
  assert (cursor <=? next_nonce i) E_CURSOR_TOO_HIGH;;
  assert (last_settled_ts i <=? block_ts) E_TIMESTAMP_REGRESSION;;
  p ← prune (N.to_nat (cursor - included_count i)) (included_count i) (pending i);
  match p !! cursor with
  | Some oldest => assert (block_ts <=? deadline_ms oldest) E_DEADLINE_EXCEEDED
  | None => Ok tt
  end;;
  Ok (mk_Inbox (next_nonce i) cursor block_ts p (window i) (pending_window i)).

(** Nonces are dense: exactly [included_count .. next_nonce) are pending,
    each with a non-empty payload. *)
Record wf (i : Inbox) : Prop := mk_wf {
  wf_cursor : included_count i ≤ next_nonce i;
  wf_u64 : is_u64 (next_nonce i);
  wf_dense n : is_Some (pending i !! n) ↔ included_count i ≤ n < next_nonce i;
  wf_bytes n p : pending i !! n = Some p → tx_bytes p ≠ []
}.
End Inbox.

(** ** rotation.move *)

Module Rotation.
Definition E_NOT_AUTHORIZED : N := 0.
Definition E_NO_PENDING : N := 1.
Definition E_NOT_CLAIM_TARGET : N := 2.
Definition E_CLAIM_TOO_EARLY : N := 3.
Definition E_CLAIM_WINDOW_EXPIRED : N := 4.
Definition E_DELAY_OUT_OF_BOUNDS : N := 5.
Definition E_NO_PREVIOUS : N := 6.
Definition E_ALREADY_ENTOMBED : N := 7.
Definition MIN_DELAY_MS : N := 600000.
Definition MAX_DELAY_MS : N := 604800000.
Definition CLAIM_WINDOW_MS : N := 604800000.
Definition PREV_GRACE_MS : N := 600000.

Record PreviousAuthority := mk_prev { prev_addr : Address; until_ms : N }.
Record PendingRotation := mk_pending { to : Address; eligible_at_ms : N }.
Record state := mk_state {
  authority : Address;
  prev : option PreviousAuthority;
  pending : option PendingRotation
}.

(** [state] aborts on an object that was never entombed. *)
Definition borrow (o : option state) : call state := ok_or o DynamicFieldError.

Definition may_act (st : state) (now : N) (sender : Address) : bool :=
  bool_decide (sender = authority st)
  || match prev st with
     | Some p => bool_decide (prev_addr p = sender) && (now <=? until_ms p)
     | None => false
     end.
Definition assert_can_act (o : option state) (now : N) (sender : Address) : call unit :=
  st ← borrow o; assert (may_act st now sender) E_NOT_AUTHORIZED.

(** The steering capability check is the caller's; [request] is the body of
    [request_rotation_ops] after it. *)
Definition request (o : option state) (target : Address) (delay now : N) : call state :=
  assert ((MIN_DELAY_MS <=? delay) && (delay <=? MAX_DELAY_MS)) E_DELAY_OUT_OF_BOUNDS;;
  at_ms ← mv_add now delay;
  st ← borrow o;
  Ok (mk_state (authority st) (prev st) (Some (mk_pending target at_ms))).

Definition claim (o : option state) (now : N) (sender : Address) : call state :=
  st ← borrow o;
  p ← ok_or (pending st) (Abort E_NO_PENDING);
  assert (bool_decide (sender = to p)) E_NOT_CLAIM_TARGET;;
  assert (eligible_at_ms p <=? now) E_CLAIM_TOO_EARLY;;
  deadline ← mv_add (eligible_at_ms p) CLAIM_WINDOW_MS;
  assert (now <=? deadline) E_CLAIM_WINDOW_EXPIRED;;
  until ← mv_add now PREV_GRACE_MS;
  Ok (mk_state sender (Some (mk_prev (authority st) until)) None).

Definition retire_previous (o : option state) (sender : Address) : call state :=
  st ← borrow o;
  assert (bool_decide (sender = authority st)) E_NOT_AUTHORIZED;;
  match prev st with
  | None => Err (Abort E_NO_PREVIOUS)
  | Some _ => Ok (mk_state (authority st) None (pending st))
  end.

Definition entomb_ops (o : option state) (sender : Address) : call state :=
  match o with
  | Some _ => Err (Abort E_ALREADY_ENTOMBED)
  | None => Ok (mk_state sender None None)
  end.
End Rotation.

(** ** settlement.move *)

Module Settle.
Definition E_INVALID_HEIGHT : N := 0.
Definition E_CONFLICTING_BLOB : N := 1.
Definition E_STATE_ROOT_MALFORMED : N := 10.
Definition E_STATE_ROOT_HEIGHT : N := 11.
Definition E_STATE_ROOT_CONFLICT : N := 12.
Definition STATE_ROOT_LEN : nat := 32.

Record Registry := mk_Registry {
  latest_height : N;
  commitments : gmap N (list byte);
  state_roots : gmap N (list byte);
  rotation : option Rotation.state
}.
Definition initialize : Registry := mk_Registry 0 ∅ ∅ None.

Definition do_settle (r : Registry) (i : Inbox.Inbox) (blob : list byte)
    (height block_ts cursor : N) : call (Registry * Inbox.Inbox) :=
  if height =? latest_height r then
    stored ← ok_or (commitments r !! height) DynamicFieldError;
    assert (bool_decide (stored = blob)) E_CONFLICTING_BLOB;;
    Ok (r, i)
  else
    next ← mv_add (latest_height r) 1;
    assert (height =? next) E_INVALID_HEIGHT;;
    i' ← Inbox.enforce_settle i block_ts cursor;
    match commitments r !! height with
    | Some _ => Err DynamicFieldError
    | None =>
        Ok (mk_Registry height (<[height := blob]> (commitments r)) (state_roots r)
              (rotation r), i')
    end.

Definition settle_as (r : Registry) (i : Inbox.Inbox) (now : N) (sender : Address)
    (blob : list byte) (height block_ts cursor : N) : call (Registry * Inbox.Inbox) :=
  Rotation.assert_can_act (rotation r) now sender;;
  do_settle r i blob height block_ts cursor.

Definition commit_state_root (r : Registry) (now : N) (sender : Address) (height : N)
    (root : list byte) : call Registry :=
  Rotation.assert_can_act (rotation r) now sender;;
  assert (Nat.eqb (length root) STATE_ROOT_LEN) E_STATE_ROOT_MALFORMED;;
  assert (height =? latest_height r) E_STATE_ROOT_HEIGHT;;
  match state_roots r !! height with
  | Some stored => assert (bool_decide (stored = root)) E_STATE_ROOT_CONFLICT;; Ok r
  | None => Ok (mk_Registry (latest_height r) (commitments r)
                  (<[height := root]> (state_roots r)) (rotation r))
  end.

(** Every height from 1 to the tip has one commitment. *)
Definition wf (r : Registry) : Prop :=
  is_u64 (latest_height r) ∧
  ∀ h, is_Some (commitments r !! h) ↔ 1 ≤ h ≤ latest_height r.
End Settle.

(** ** Lemmas *)

Lemma assert_ok b c : assert b c = Ok tt ↔ b = true.
Proof. unfold assert. destruct b; naive_solver. Qed.
Lemma mv_add_ok a b c : mv_add a b = Ok c ↔ c = a + b ∧ is_u64 c.
Proof.
  unfold mv_add, checked_add, is_u64. destruct (N.leb_spec (a + b) U64_MAX); cbn; [naive_solver|].
  split; [done|]. intros [-> ?]. lia.
Qed.

(** Step through a successful Move call. *)
Ltac inv_call :=
  repeat match goal with
  | H : (_ ≫= _) = Ok _ |- _ => apply result_bind_ok in H; destruct H as (? & ? & ?)
  | H : assert _ _ = Ok ?u |- _ => destruct u; rewrite assert_ok in H
  | H : mv_add _ _ = Ok _ |- _ => apply mv_add_ok in H; destruct H as [-> ?]
  | H : ok_or _ _ = Ok _ |- _ => apply ok_or_ok in H
  | H : (if ?b then _ else _) = Ok _ |- _ => destruct b eqn:?; try discriminate H
  | H : match ?o with Some _ => _ | None => _ end = Ok _ |- _ =>
      destruct o eqn:?; try discriminate H
  | H : Ok _ = Ok _ |- _ => injection H as <-
  | H : Some _ = Some _ |- _ => injection H as <-
  | H : _ && _ = true |- _ => apply andb_true_iff in H; destruct H
  | H : (_ <=? _) = true |- _ => apply N.leb_le in H
  | H : (_ <=? _) = false |- _ => apply N.leb_gt in H
  | H : (_ =? _) = true |- _ => apply N.eqb_eq in H
  | H : (_ =? _) = false |- _ => apply N.eqb_neq in H
  | H : bool_decide _ = true |- _ => apply bool_decide_eq_true in H
  | H : negb _ = true |- _ => apply negb_true_iff in H
  | H : bool_decide _ = false |- _ => apply bool_decide_eq_false in H
  end.

Module InboxContract.
Import Inbox.

Lemma prune_ok count n p :
  (∀ k, n ≤ k < n + N.of_nat count → is_Some (p !! k)) →
  ∃ p', prune count n p = Ok p' ∧
    ∀ k, p' !! k = if bool_decide (n ≤ k < n + N.of_nat count) then None else p !! k.
Proof.
  revert n p. induction count as [|count IH]; intros n p Hp; cbn [prune].
  - exists p. split; [done|]. intros k. rewrite bool_decide_false; [done|lia].
  - destruct (Hp n) as [x Hx]; [lia|]. rewrite Hx.
    destruct (IH (n + 1) (delete n p)) as (p' & -> & Hp').
    + intros k Hk. rewrite lookup_delete_ne by lia. apply Hp. lia.
    + exists p'. split; [done|]. intros k. rewrite Hp'.
      destruct (decide (k = n)) as [->|Hne].
      * rewrite (bool_decide_true (n ≤ n < _)), lookup_delete_eq by lia. by case_bool_decide.
      * rewrite lookup_delete_ne by done. do 2 case_bool_decide; done || lia.
Qed.

Lemma initialize_wf : wf initialize.
Proof.
  split; cbn; [lia|by vm_compute| |done]. intros n. rewrite lookup_empty.
  split; [by intros []|lia].
Qed.

Lemma submit_wf i now bs i' : wf i → submit i now bs = Ok i' → wf i'.
Proof.
  intros [Hc Hu Hd Hb] H. unfold submit in H. inv_call. split; cbn.
  - lia.
  - done.
  - intros n. rewrite lookup_insert_is_Some. destruct (decide (next_nonce i = n)); [naive_solver lia|].
    rewrite Hd. naive_solver lia.
  - intros n p. rewrite lookup_insert_Some. intros [[<- <-]|[_ Hp]]; [done|by eapply Hb].
Qed.

Lemma stage_wf i w d now i' : wf i → stage_window_change i w d now = Ok i' → wf i'.
Proof. intros [] H. unfold stage_window_change in H. inv_call; by constructor. Qed.

(** What remains pending once the cursor has moved. *)
Definition remaining (i : Inbox) (cursor : N) : gmap N PendingTx :=
  filter (λ '(n, _), cursor ≤ n) (pending i).

Definition settles (i : Inbox) (block_ts cursor : N) : Prop :=
  included_count i ≤ cursor ≤ next_nonce i ∧ last_settled_ts i ≤ block_ts ∧
  ∀ p, pending i !! cursor = Some p → block_ts ≤ deadline_ms p.

Lemma enforce_settle_spec i block_ts cursor :
  wf i →
  match enforce_settle i block_ts cursor with
  | Ok i' => settles i block_ts cursor ∧ wf i' ∧
             i' = mk_Inbox (next_nonce i) cursor block_ts (remaining i cursor)
                    (window i) (pending_window i)
  | Err _ => ¬ settles i block_ts cursor
  end.
Proof.
  intros [Hc Hu Hd Hb]. unfold enforce_settle, assert, settles.
  destruct (N.leb_spec (included_count i) cursor) as [H1|H1]; cbn; [|lia].
  destruct (N.leb_spec cursor (next_nonce i)) as [H2|H2]; cbn; [|lia].
  destruct (N.leb_spec (last_settled_ts i) block_ts) as [H3|H3]; cbn; [|lia].
  destruct (prune_ok (N.to_nat (cursor - included_count i)) (included_count i) (pending i))
    as (p' & -> & Hp'); cbn.
  { intros k Hk. apply Hd. lia. }
  rewrite N2Nat.id in Hp'. replace (included_count i + (cursor - included_count i)) with cursor
    in Hp' by lia.
  assert (p' = remaining i cursor) as ->.
  { apply map_eq. intros k. rewrite Hp'. unfold remaining.
    destruct (pending i !! k) as [x|] eqn:Hk.
    - destruct (Hd k) as [Hd' _]. specialize (Hd' ltac:(eauto)).
      case_bool_decide.
      + symmetry. apply map_lookup_filter_None_2. right. intros y Hy. lia.
      + symmetry. apply map_lookup_filter_Some_2; [done|lia].
    - symmetry. rewrite map_lookup_filter_None_2; [by case_bool_decide|by left]. }
  assert (remaining i cursor !! cursor = pending i !! cursor) as Hcur.
  { rewrite Hp', bool_decide_false; [done|lia]. }
  rewrite Hcur.
  assert (wf (mk_Inbox (next_nonce i) cursor block_ts (remaining i cursor)
                    (window i) (pending_window i))) as Hwf.
  { split; cbn; [done|done| |].
    - intros n. rewrite Hp'. case_bool_decide as Hn.
      + split; [by intros []|lia].
      + rewrite Hd. lia.
    - intros n p. rewrite Hp'. case_bool_decide; [done|]. apply Hb. }
  destruct (pending i !! cursor) as [p|]; cbn.
  - destruct (N.leb_spec block_ts (deadline_ms p)) as [H4|H4]; cbn.
    + split; [|done]. split; [done|]. split; [done|]. by intros ? [= <-].
    + intros (_ & _ & H). specialize (H p eq_refl). lia.
  - split; [|done]. done.
Qed.
End InboxContract.

(** C16: The escape hatch's bookkeeping is exact.  On a well-formed inbox a
    settle goes through exactly when the cursor lies between the included
    count and the next nonce, the block time does not go back, and the oldest
    transaction left pending is not overdue; it then prunes exactly the nonces
    below the cursor and leaves the inbox well formed (pending nonces stay
    dense), and otherwise it aborts with no effect. *)
Theorem enforce_settle_exact i block_ts cursor :
  Inbox.wf i →
  match Inbox.enforce_settle i block_ts cursor with
  | Ok i' => InboxContract.settles i block_ts cursor ∧ Inbox.wf i' ∧
             Inbox.included_count i' = cursor ∧ Inbox.last_settled_ts i' = block_ts ∧
             ∀ n p, Inbox.pending i' !! n = Some p ↔ cursor ≤ n ∧ Inbox.pending i !! n = Some p
  | Err _ => ¬ InboxContract.settles i block_ts cursor
  end.
Proof.
  intros Hwf. pose proof (InboxContract.enforce_settle_spec i block_ts cursor Hwf) as H.
  destruct (Inbox.enforce_settle i block_ts cursor) as [i'|]; [|done].
  destruct H as (Hs & Hw & ->). split; [done|]. split; [done|]. do 2 (split; [done|]).
  intros n p. cbn. unfold InboxContract.remaining. rewrite map_lookup_filter_Some. tauto.
Qed.

Definition inbox0 : Inbox.Inbox :=
  match Inbox.submit Inbox.initialize 1000 [x01] with Ok i => i | Err _ => Inbox.initialize end.
Lemma inbox0_wf : Inbox.wf inbox0.
Proof.
  apply (InboxContract.submit_wf Inbox.initialize 1000 [x01]); [apply InboxContract.initialize_wf|].
  reflexivity.
Qed.

Lemma enforce_settle_exact_witness :
  match Inbox.enforce_settle inbox0 601000 0 with
  | Ok i' => InboxContract.settles inbox0 601000 0 ∧ Inbox.wf i' ∧
             Inbox.included_count i' = 0 ∧ Inbox.last_settled_ts i' = 601000 ∧
             ∀ n p, Inbox.pending i' !! n = Some p ↔ 0 ≤ n ∧ Inbox.pending inbox0 !! n = Some p
  | Err _ => ¬ InboxContract.settles inbox0 601000 0
  end.
Proof. exact (enforce_settle_exact inbox0 601000 0 inbox0_wf). Defined.

(** What an accepted settle does. *)
Lemma settle_as_spec r i now sender blob height block_ts cursor r' i' :
  Settle.wf r → Inbox.wf i →
  Settle.settle_as r i now sender blob height block_ts cursor = Ok (r', i') →
  Settle.wf r' ∧ Inbox.wf i' ∧ Settle.commitments r' !! height = Some blob ∧
  Settle.commitments r ⊆ Settle.commitments r' ∧
  Settle.state_roots r' = Settle.state_roots r ∧
  Inbox.included_count i ≤ Inbox.included_count i' ∧
  ((r' = r ∧ i' = i ∧ height = Settle.latest_height r) ∨
   (height = Settle.latest_height r + 1 ∧ Settle.latest_height r' = height ∧
    Inbox.included_count i' = cursor ∧ InboxContract.settles i block_ts cursor)).
Proof.
  intros [Hu Hr] Hi H. unfold Settle.settle_as, Settle.do_settle in H.
  apply result_bind_ok in H as (u & _ & H).
  destruct (N.eqb_spec height (Settle.latest_height r)) as [Hh|Hh].
  - inv_call. subst. do 6 (split; [done|]). by left.
  - apply result_bind_ok in H as (next & Hn & H). apply mv_add_ok in Hn as [-> Hnu].
    apply result_bind_ok in H as (u1 & Hh' & H). destruct u1.
    apply assert_ok, N.eqb_eq in Hh'. apply result_bind_ok in H as (j & He & H).
    destruct (Settle.commitments r !! height) as [b|] eqn:Hc; [done|]. injection H as <- <-.
    pose proof (InboxContract.enforce_settle_spec i block_ts cursor Hi) as Hs. rewrite He in Hs.
    destruct Hs as (Hs & Hw & ->). cbn.
    split; [split; cbn; [by subst|]|].
    + intros h. rewrite lookup_insert_is_Some. destruct (decide (height = h)); [naive_solver lia|].
      rewrite Hr. naive_solver lia.
    + split; [done|]. split; [by rewrite lookup_insert_eq|]. split; [by apply insert_subseteq|].
      split; [done|]. split; [apply Hs|]. by right.
Qed.

(** The tip never forks.  Settling from a well-formed registry and inbox
    keeps both well formed and never rewrites a commitment; a call at the tip
    with the tip's blob is a no-op, with any other blob it aborts, and every
    other accepted call extends the chain by exactly one height. *)
Theorem settlement_append_only r i now sender blob height block_ts cursor r' i' :
  Settle.wf r → Inbox.wf i →
  Settle.settle_as r i now sender blob height block_ts cursor = Ok (r', i') →
  Settle.wf r' ∧ Inbox.wf i' ∧ Settle.commitments r' !! height = Some blob ∧
  Settle.commitments r ⊆ Settle.commitments r' ∧
  ((r' = r ∧ i' = i ∧ height = Settle.latest_height r) ∨
   (height = Settle.latest_height r + 1 ∧ Settle.latest_height r' = height ∧
    Inbox.included_count i' = cursor ∧ InboxContract.settles i block_ts cursor)).
Proof.
  intros Hr Hi H. destruct (settle_as_spec _ _ _ _ _ _ _ _ _ _ Hr Hi H)
    as (H1 & H2 & H3 & H4 & _ & _ & H5). done.
Qed.

Definition registry0 : Settle.Registry :=
  Settle.mk_Registry 0 ∅ ∅ (Some (Rotation.mk_state (array_fill 32 x01) None None)).
Lemma registry0_wf : Settle.wf registry0.
Proof.
  split; [by vm_compute|]. intros h. cbn. rewrite lookup_empty. split; [by intros []|lia].
Qed.

Lemma settlement_append_only_witness :
  match Settle.settle_as registry0 inbox0 5 (array_fill 32 x01) [x0a] 1 2000 0 with
  | Ok (r', i') =>
      Settle.wf r' ∧ Inbox.wf i' ∧ Settle.commitments r' !! 1 = Some [x0a] ∧
      Settle.commitments registry0 ⊆ Settle.commitments r' ∧
      ((r' = registry0 ∧ i' = inbox0 ∧ 1 = Settle.latest_height registry0) ∨
       (1 = Settle.latest_height registry0 + 1 ∧ Settle.latest_height r' = 1 ∧
        Inbox.included_count i' = 0 ∧ InboxContract.settles inbox0 2000 0))
  | Err _ => False
  end.
Proof.
  destruct (Settle.settle_as registry0 inbox0 5 (array_fill 32 x01) [x0a] 1 2000 0)
    as [[r' i']|] eqn:H; [|by vm_compute in H].
  exact (settlement_append_only registry0 inbox0 5 _ [x0a] 1 2000 0 r' i' registry0_wf inbox0_wf H).
Defined.

(** Only the oldest pending transaction halts settlement.  After the window
    is narrowed a later submission can carry an earlier deadline than an older
    one, so deadlines are not monotone in the nonce and a settle succeeds
    although a pending transaction is overdue. *)
Theorem narrowing_hides_overdue_transactions :
  ∃ i0 i1 i2 i3,
    Inbox.submit Inbox.initialize 1000 [x01] = Ok i0 ∧
    Inbox.stage_window_change i0 60000 0 2000 = Ok i1 ∧
    Inbox.submit i1 3000 [x02] = Ok i2 ∧
    Inbox.enforce_settle i2 100000 0 = Ok i3 ∧
    ∃ n p, Inbox.pending i3 !! n = Some p ∧ Inbox.deadline_ms p < Inbox.last_settled_ts i3.
Proof.
  do 4 eexists. split; [reflexivity|]. split; [vm_compute; reflexivity|].
  split; [vm_compute; reflexivity|]. split; [vm_compute; reflexivity|].
  exists 1, (Inbox.mk_PendingTx 63000 [x02]). split; [reflexivity|]. vm_compute. done.
Qed.

(** Authority changes hands atomically and the old key's grace is bounded.
    A successful claim is by the pre-authorized target inside the claim window;
    from that call on the target may act, the old authority may act for
    [PREV_GRACE_MS] more and not after, and nobody else may. *)
Theorem claim_hands_over o now sender st' later who :
  Rotation.claim o now sender = Ok st' →
  ∃ st p, o = Some st ∧ Rotation.pending st = Some p ∧ sender = Rotation.to p ∧
    Rotation.eligible_at_ms p ≤ now ≤ Rotation.eligible_at_ms p + Rotation.CLAIM_WINDOW_MS ∧
    Rotation.may_act st' later who =
      bool_decide (who = sender ∨
                   (who = Rotation.authority st ∧ later ≤ now + Rotation.PREV_GRACE_MS)).
Proof.
  unfold Rotation.claim, Rotation.borrow. intros H. inv_call.
  eexists _, _. split; [done|]. split; [done|]. split; [done|]. split; [lia|].
  unfold Rotation.may_act; cbn. apply eq_true_iff_eq. rewrite orb_true_iff, andb_true_iff,
    !bool_decide_eq_true, N.leb_le. naive_solver.
Qed.

Lemma claim_hands_over_witness :
  let a := array_fill 32 x01 in let b := array_fill 32 x02 in
  let o := Some (Rotation.mk_state a None (Some (Rotation.mk_pending b 700000))) in
  match Rotation.claim o 800000 b with
  | Ok st' => ∃ st p, o = Some st ∧ Rotation.pending st = Some p ∧ b = Rotation.to p ∧
      Rotation.eligible_at_ms p ≤ 800000 ≤ Rotation.eligible_at_ms p + Rotation.CLAIM_WINDOW_MS ∧
      Rotation.may_act st' 1400001 a =
        bool_decide (a = b ∨ (a = Rotation.authority st ∧ 1400001 ≤ 800000 + Rotation.PREV_GRACE_MS))
  | Err _ => False
  end.
Proof.
  cbv zeta.
  destruct (Rotation.claim _ _ _) as [st'|] eqn:H; [|by vm_compute in H].
  exact (claim_hands_over _ 800000 _ st' 1400001 (array_fill 32 x01) H).
Defined.

