(* ===== verification/Custody.v ===== *)
(** Who steers: the [OpsCap] of [move/sources/rotation.move], the window and
    package-upgrade custody of [settlement.move], over a ledger where a
    capability is passed by its owner.

    An operation takes the capability object the transaction names; on Sui a
    transaction can only name objects its sender owns, and that is the guard of
    the ledger's steps.  The cap is a plain object with [store]: its owner may
    also share or freeze it, which hands it to everyone; those transfers are not
    steps here.  The framework's [UpgradeCap] is a parameter. *)

From S2P Require Import Prelude Codec Contract.
Local Open Scope string_scope.
Local Open Scope list_scope.
Local Open Scope N_scope.

(** ** The steering capability *)

Module Ops.
Definition E_OPS_REQUIRED : N := 8.
Definition E_OPS_MISMATCH : N := 9.
Definition E_OPS_MINTED : N := 10.

(** The bound object of an [OpsCap], and the dynamic fields of a guarded
    object: [StateKey], [TombKey] and [OpsMintedKey]. *)
Record OpsCap := mk_ops { for_id : Address }.
#[global] Instance OpsCap_eq_dec : EqDecision OpsCap.
Proof. solve_decision. Defined.
Record guarded := mk_guarded {
  uid : Address;
  state_field : option Rotation.state;
  tomb_field : bool;
  minted_field : bool
}.
Definition with_state (g : guarded) (s : Rotation.state) : guarded :=
  mk_guarded (uid g) (Some s) (tomb_field g) (minted_field g).

(** The tombstones of the published signatures. *)
Definition entomb (g : guarded) : call guarded := Err (Abort E_OPS_REQUIRED).
Definition request_rotation (g : guarded) : call guarded := Err (Abort E_OPS_REQUIRED).

(** The object, and the cap transferred to the sender. *)
Definition entomb_ops (g : guarded) (sender : Address) : call (guarded * OpsCap) :=
  match state_field g with
  | Some _ => Err (Abort Rotation.E_ALREADY_ENTOMBED)
  | None =>
      assert (negb (minted_field g)) E_OPS_MINTED;;
      if tomb_field g then Err DynamicFieldError
      else Ok (mk_guarded (uid g) (Some (Rotation.mk_state sender None None)) true true, mk_ops (uid g))
  end.

Definition assert_is_authority (g : guarded) (sender : Address) : call unit :=
  st ← Rotation.borrow (state_field g); assert (bool_decide (sender = Rotation.authority st)) Rotation.E_NOT_AUTHORIZED.
(** The cap goes to the recipient the caller names. *)
Definition mint_ops_cap (g : guarded) (sender : Address) : call (guarded * OpsCap) :=
  assert_is_authority g sender;;
  assert (negb (minted_field g)) E_OPS_MINTED;;
  Ok (mk_guarded (uid g) (state_field g) (tomb_field g) true, mk_ops (uid g)).

Definition assert_ops_cap (g : guarded) (ops : OpsCap) : call unit :=
  assert (bool_decide (for_id ops = uid g)) E_OPS_MISMATCH.
Definition request_rotation_ops (g : guarded) (target : Address) (delay now : N) (ops : OpsCap) : call guarded :=
  assert_ops_cap g ops;; with_state g <$> Rotation.request (state_field g) target delay now.
Definition cancel_rotation (g : guarded) (sender : Address) : call guarded :=
  assert_is_authority g sender;;
  st ← Rotation.borrow (state_field g);
  assert (bool_decide (is_Some (Rotation.pending st))) Rotation.E_NO_PENDING;;
  Ok (with_state g (Rotation.mk_state (Rotation.authority st) (Rotation.prev st) None)).
Definition claim_rotation (g : guarded) (now : N) (sender : Address) : call guarded :=
  with_state g <$> Rotation.claim (state_field g) now sender.
Definition retire_previous (g : guarded) (sender : Address) : call guarded :=
  with_state g <$> Rotation.retire_previous (state_field g) sender.

(** settlement.move: the retired settle, which never reads its arguments, and
    the window under the Registry's cap. *)
Definition E_ROTATED : N := 2.
Definition settle (r : Settle.Registry) (i : Inbox.Inbox) (blob : list byte) (height block_ts cursor : N)
    : call (Settle.Registry * Inbox.Inbox) := Err (Abort E_ROTATED).
Definition request_window_change (g : guarded) (i : Inbox.Inbox) (new_window delay now : N) (ops : OpsCap)
    : call Inbox.Inbox :=
  assert_ops_cap g ops;; Inbox.stage_window_change i new_window delay now.
Definition cancel_window_change (g : guarded) (i : Inbox.Inbox) (ops : OpsCap) : call Inbox.Inbox :=
  assert_ops_cap g ops;; Inbox.cancel_window_change i.
End Ops.

(** ** Package upgrades *)

Module Upgrade.
Import Ops.
Definition E_NO_UPGRADE_CAP : N := 7.
Definition E_UPGRADE_CAP_PRESENT : N := 8.
Definition E_TOO_PERMISSIVE : N := 9.

(** [sui::package]. *)
Class Package (Cap Ticket Receipt : Type) := {
  upgrade_package : Cap → Address;
  authorize_upgrade : Cap → N → list byte → call (Cap * Ticket);
  commit_upgrade : Cap → Receipt → call Cap;
  only_additive_upgrades : Cap → call Cap;
  only_dep_upgrades : Cap → call Cap;
  additive_policy : N;
  dep_only_policy : N
}.

Section upgrade.
Context {Cap Ticket Receipt : Type} `{Package Cap Ticket Receipt}.
(** The Registry with the field under [UpgradeKey]. *)
Record registry := mk_registry { object : guarded; slot : option Cap }.

Definition entomb_upgrade_cap (r : registry) (cap : Cap) (ops : OpsCap) : call registry :=
  assert_ops_cap (object r) ops;;
  Rotation.borrow (state_field (object r));;
  assert (bool_decide (slot r = None)) E_UPGRADE_CAP_PRESENT;;
  Ok (mk_registry (object r) (Some cap)).
Definition authorize_package_upgrade (r : registry) (ops : OpsCap) (policy : N) (digest : list byte)
    : call (registry * Ticket) :=
  assert_ops_cap (object r) ops;;
  cap ← ok_or (slot r) (Abort E_NO_UPGRADE_CAP);
  '(cap, ticket) ← authorize_upgrade cap policy digest;
  Ok (mk_registry (object r) (Some cap), ticket).
Definition commit_package_upgrade (r : registry) (ops : OpsCap) (receipt : Receipt) : call registry :=
  assert_ops_cap (object r) ops;;
  cap ← ok_or (slot r) (Abort E_NO_UPGRADE_CAP);
  cap ← commit_upgrade cap receipt;
  Ok (mk_registry (object r) (Some cap)).
Definition restrict_package_upgrades (r : registry) (ops : OpsCap) (policy : N) : call registry :=
  assert_ops_cap (object r) ops;;
  cap ← ok_or (slot r) (Abort E_NO_UPGRADE_CAP);
  cap ← (if policy =? additive_policy then only_additive_upgrades cap
         else if policy =? dep_only_policy then only_dep_upgrades cap
         else Err (Abort E_TOO_PERMISSIVE));
  Ok (mk_registry (object r) (Some cap)).
(** The package that became immutable. *)
Definition freeze_package (r : registry) (ops : OpsCap) : call (registry * Address) :=
  assert_ops_cap (object r) ops;;
  cap ← ok_or (slot r) (Abort E_NO_UPGRADE_CAP);
  Ok (mk_registry (object r) None, upgrade_package cap).
Definition upgrade_package_id (r : registry) : option Address := upgrade_package <$> slot r.
End upgrade.
#[global] Arguments registry : clear implicits.
End Upgrade.

(** ** The ledger *)

Module Ledger.
Import Ops.
(** Guarded objects by id, and the capability objects with their owners. *)
Record t := mk_ledger {
  objects : gmap Address guarded;
  caps : gmap N (Address * OpsCap);
  fresh : N;
  now : N
}.
Definition put (l : t) (o : Address) (g : guarded) : t := mk_ledger (<[o := g]> (objects l)) (caps l) (fresh l) (now l).
(** [mint_and_transfer]. *)
Definition create (l : t) (owner : Address) (c : OpsCap) : t :=
  mk_ledger (objects l) (<[fresh l := (owner, c)]> (caps l)) (fresh l + 1) (now l).

(** [retire_ops_cap]. *)
Definition destroy (l : t) (k : N) : t := mk_ledger (objects l) (delete k (caps l)) (fresh l) (now l).

(** A transaction of [sender] that did not abort. *)
Inductive step (sender : Address) : t → t → Prop :=
| Waits ms l : step sender l (mk_ledger (objects l) (caps l) (fresh l) (now l + ms))
| Entombs o g g' c l :
    objects l !! o = Some g → entomb_ops g sender = Ok (g', c) → step sender l (create (put l o g') sender c)
| Mints o g g' c recipient l :
    objects l !! o = Some g → mint_ops_cap g sender = Ok (g', c) → step sender l (create (put l o g') recipient c)
| Sends k c recipient l :
    caps l !! k = Some (sender, c) →
    step sender l (mk_ledger (objects l) (<[k := (recipient, c)]> (caps l)) (fresh l) (now l))
| Retires k c l :
    caps l !! k = Some (sender, c) → step sender l (destroy l k)
| Requests k c o g g' target delay l :
    caps l !! k = Some (sender, c) → objects l !! o = Some g →
    request_rotation_ops g target delay (now l) c = Ok g' → step sender l (put l o g')
| Cancels o g g' l : objects l !! o = Some g → cancel_rotation g sender = Ok g' → step sender l (put l o g')
| Claims o g g' l : objects l !! o = Some g → claim_rotation g (now l) sender = Ok g' → step sender l (put l o g')
| RetiresPrevious o g g' l :
    objects l !! o = Some g → retire_previous g sender = Ok g' → step sender l (put l o g').
Definition moves (l l' : t) : Prop := ∃ sender, step sender l l'.

(** Objects before any cap was minted, entombed already or not. *)
Definition unminted (l : t) : Prop :=
  caps l = ∅ ∧ ∀ o g, objects l !! o = Some g → uid g = o ∧ minted_field g = false.
Definition pending_at (l : t) (o : Address) : option Rotation.PendingRotation :=
  g ← objects l !! o; st ← state_field g; Rotation.pending st.
Definition authority_at (l : t) (o : Address) : option Address :=
  g ← objects l !! o; st ← state_field g; Some (Rotation.authority st).
End Ledger.

Module LedgerFacts.
Import Ops Ledger.
Implicit Types (l : Ledger.t) (o : Address).

Record inv l : Prop := mk_inv {
  i_uid o g : objects l !! o = Some g → uid g = o;
  i_fresh k x : caps l !! k = Some x → k < fresh l;
  i_minted k w c : caps l !! k = Some (w, c) → ∃ g, objects l !! for_id c = Some g ∧ minted_field g = true;
  i_one k k' w w' c : caps l !! k = Some (w, c) → caps l !! k' = Some (w', c) → k = k'
}.

Lemma inv_unminted l : unminted l → inv l.
Proof.
  intros [Hc Ho]. split; [by intros o g [? _]%Ho|..]; rewrite Hc; set_solver.
Qed.

(** An object that keeps its id and its mint marker. *)
Lemma inv_put l o g g' : inv l → objects l !! o = Some g → uid g' = uid g → minted_field g' = minted_field g → inv (put l o g').
Proof.
  intros [I1 I2 I3 I4] Ho Hu Hm. split; cbn; [|done| |done].
  - intros x y [[<- <-]|[_ Hy]]%lookup_insert_Some; [rewrite Hu|]; eauto.
  - intros k w c Hk. destruct (I3 k w c Hk) as (y & Hy & Hmy). destruct (decide (o = for_id c)) as [->|Hne].
    + exists g'. rewrite lookup_insert_eq. split; [done|]. congruence.
    + exists y. by rewrite lookup_insert_ne.
Qed.
(** The one mint of an object. *)
Lemma inv_create l o g g' w : inv l → objects l !! o = Some g → uid g' = uid g → minted_field g = false →
  minted_field g' = true → inv (create (put l o g') w (mk_ops (uid g))).
Proof.
  intros [I1 I2 I3 I4] Ho Hu Hm Hm'. pose proof (I1 _ _ Ho) as Hid.
  assert (∀ k v, caps l !! k = Some (v, mk_ops (uid g)) → False) as Hno.
  { intros k v Hk. destruct (I3 _ _ _ Hk) as (y & Hy & Hmy). cbn in Hy. rewrite Hid in Hy. congruence. }
  split; cbn.
  - intros x y [[<- <-]|[_ Hy]]%lookup_insert_Some; [congruence|eauto].
  - intros k x [[<- _]|[_ Hk]]%lookup_insert_Some; [lia|]. specialize (I2 _ _ Hk). lia.
  - intros k v c [[_ [= _ <-]]|[_ Hk]]%lookup_insert_Some; cbn.
    + exists g'. rewrite Hid, lookup_insert_eq. done.
    + destruct (I3 k v c Hk) as (y & Hy & Hmy). destruct (decide (o = for_id c)) as [->|Hne].
      * congruence.
      * exists y. by rewrite lookup_insert_ne.
  - intros k k' v v' c Hk Hk'. apply lookup_insert_Some in Hk as [[<- Hc]|[_ Hk]];
      apply lookup_insert_Some in Hk' as [[<- Hc']|[_ Hk']]; [done| | |by eapply I4];
      simplify_eq; by exfalso; eapply Hno.
Qed.

Lemma entomb_ops_ok g sender g' c :
  entomb_ops g sender = Ok (g', c) →
  state_field g = None ∧ minted_field g = false ∧ c = mk_ops (uid g) ∧
  g' = mk_guarded (uid g) (Some (Rotation.mk_state sender None None)) true true.
Proof.
  unfold entomb_ops, assert. destruct (state_field g), (minted_field g), (tomb_field g); try done. by intros [= <- <-].
Qed.
Lemma mint_ops_ok g sender g' c :
  mint_ops_cap g sender = Ok (g', c) →
  minted_field g = false ∧ c = mk_ops (uid g) ∧ g' = mk_guarded (uid g) (state_field g) (tomb_field g) true.
Proof.
  unfold mint_ops_cap, assert. intros (u & _ & Hk)%result_bind_ok.
  destruct (minted_field g); [done|]. by injection Hk as <- <-.
Qed.
Lemma with_state_ok (g : guarded) (m : call Rotation.state) g' :
  with_state g <$> m = Ok g' → ∃ st, m = Ok st ∧ g' = with_state g st.
Proof. destruct m; [intros [= <-]; eauto|done]. Qed.

Lemma ledger_step_inv sender l l' : step sender l l' → inv l → inv l'.
Proof.
  intros Hs Hi. destruct Hs as [ms l|o g g' c l Ho He|o g g' c w l Ho He|k c w l Hk|k c l Hk|k c o g g' target d l Hk Ho Hr
    |o g g' l Ho Hr|o g g' l Ho Hr|o g g' l Ho Hr].
  - by destruct Hi.
  - apply entomb_ops_ok in He as (_ & Hm & -> & ->). by eapply inv_create.
  - apply mint_ops_ok in He as (Hm & -> & ->). by eapply inv_create.
  - destruct Hi as [I1 I2 I3 I4]. split; cbn; [done| | |].
    + intros x y [[<- _]|[_ Hx]]%lookup_insert_Some; eauto.
    + intros x v c' [[<- [= _ <-]]|[_ Hx]]%lookup_insert_Some; eauto.
    + intros x x' v v' c' [[<- Hc]|[_ Hx]]%lookup_insert_Some [[<- Hc']|[_ Hx']]%lookup_insert_Some; simplify_eq; eauto.
  - destruct Hi as [I1 I2 I3 I4]. split; cbn; [done| | |].
    + intros x y [_ Hx]%lookup_delete_Some. eauto.
    + intros x v c' [_ Hx]%lookup_delete_Some. eauto.
    + intros x x' v v' c' [_ Hx]%lookup_delete_Some [_ Hx']%lookup_delete_Some. eauto.
  - unfold request_rotation_ops in Hr. apply result_bind_ok in Hr as (u & _ & Hr).
    apply with_state_ok in Hr as (st & _ & ->). by eapply inv_put.
  - unfold cancel_rotation in Hr. apply result_bind_ok in Hr as (u & _ & Hr). apply result_bind_ok in Hr as (st & _ & Hr).
    apply result_bind_ok in Hr as (u' & _ & [= <-]). by eapply inv_put.
  - apply with_state_ok in Hr as (st & _ & ->). by eapply inv_put.
  - apply with_state_ok in Hr as (st & _ & ->). by eapply inv_put.
Qed.
Lemma moves_inv l l' : rtc moves l l' → inv l → inv l'.
Proof. induction 1 as [|l1 l2 l3 [sender Hs] _ IH]; [done|]. intros Hi. by eapply IH, ledger_step_inv. Qed.

(** A minted object stays minted; a cap that is gone stays gone. *)
Lemma minted_stays sender l l' o :
  inv l → step sender l l' → (∃ g, objects l !! o = Some g ∧ minted_field g = true) →
  ∃ g, objects l' !! o = Some g ∧ minted_field g = true.
Proof.
  intros Hi Hs (y & Hy & Hm).
  assert (∀ x g g', objects l !! x = Some g → (minted_field g = true → minted_field g' = true) →
    ∃ z, <[x := g']> (objects l) !! o = Some z ∧ minted_field z = true) as Hput.
  { intros x g g' Hx Hmg. destruct (decide (x = o)) as [->|Hne].
    - exists g'. rewrite lookup_insert_eq. split; [done|]. apply Hmg. congruence.
    - exists y. by rewrite lookup_insert_ne. }
  destruct Hs as [ms l|x g g' c l Ho He|x g g' c w l Ho He|k c w l Hk|k c l Hk|k c x g g' target d l Hk Ho Hr
    |x g g' l Ho Hr|x g g' l Ho Hr|x g g' l Ho Hr]; try (by exists y); eapply (Hput x g g' Ho).
  - apply entomb_ops_ok in He as (_ & _ & _ & ->). done.
  - apply mint_ops_ok in He as (_ & _ & ->). done.
  - unfold request_rotation_ops in Hr. apply result_bind_ok in Hr as (u & _ & Hr). by apply with_state_ok in Hr as (st & _ & ->).
  - unfold cancel_rotation in Hr. apply result_bind_ok in Hr as (u & _ & Hr). apply result_bind_ok in Hr as (st & _ & Hr).
    by apply result_bind_ok in Hr as (u' & _ & [= <-]).
  - by apply with_state_ok in Hr as (st & _ & ->).
  - by apply with_state_ok in Hr as (st & _ & ->).
Qed.
Lemma no_cap_stays sender l l' o g :
  inv l → step sender l l' → objects l !! o = Some g → minted_field g = true →
  (∀ k w, caps l !! k ≠ Some (w, mk_ops o)) → ∀ k w, caps l' !! k ≠ Some (w, mk_ops o).
Proof.
  intros Hi Hs Hg Hm Hno k w Hk.
  destruct Hs as [ms l|x y y' c l Ho He|x y y' c v l Ho He|j c v l Hj|j c l Hj|j c x y y' target d l Hj Ho Hr
    |x y y' l Ho Hr|x y y' l Ho Hr|x y y' l Ho Hr]; cbn in Hk; try (by eapply Hno).
  - apply entomb_ops_ok in He as (_ & Hmy & -> & _). apply lookup_insert_Some in Hk as [[_ [= _ Hu]]|[_ Hk]]; [|by eapply Hno].
    rewrite (i_uid _ Hi _ _ Ho) in Hu. congruence.
  - apply mint_ops_ok in He as (Hmy & -> & _). apply lookup_insert_Some in Hk as [[_ [= _ Hu]]|[_ Hk]]; [|by eapply Hno].
    rewrite (i_uid _ Hi _ _ Ho) in Hu. congruence.
  - apply lookup_insert_Some in Hk as [[_ [= _ ->]]|[_ Hk]]; by eapply Hno.
  - apply lookup_delete_Some in Hk as [_ Hk]. by eapply Hno.
Qed.

(** What a transaction may do to the rotation of [o]. *)
Inductive effect sender l l' o : Prop :=
| kept : pending_at l' o = pending_at l o → authority_at l' o = authority_at l o → effect sender l l' o
| cleared : pending_at l' o = None → authority_at l' o = authority_at l o → effect sender l l' o
| passed p : pending_at l o = Some p → pending_at l' o = None → authority_at l' o = Some (Rotation.to p) → effect sender l l' o
| steered k : caps l !! k = Some (sender, mk_ops o) → authority_at l' o = authority_at l o → effect sender l l' o
| founded g : objects l !! o = Some g → minted_field g = false → pending_at l' o = None → effect sender l l' o.

Lemma at_put l o g o' : pending_at (put l o g) o' = (if decide (o = o') then st ← state_field g; Rotation.pending st else pending_at l o') ∧
  authority_at (put l o g) o' = (if decide (o = o') then st ← state_field g; Some (Rotation.authority st) else authority_at l o').
Proof.
  unfold pending_at, authority_at. cbn. destruct (decide (o = o')) as [->|Hne].
  - by rewrite lookup_insert_eq.
  - by rewrite lookup_insert_ne.
Qed.
(** Only the object of the transaction changes. *)
Lemma effect_put sender l o g o' : (o = o' → effect sender l (put l o g) o') → effect sender l (put l o g) o'.
Proof.
  intros Hsame. destruct (decide (o = o')) as [|Hne]; [auto|]. destruct (at_put l o g o') as [E1 E2].
  rewrite decide_False in E1 by done. rewrite decide_False in E2 by done. by apply kept.
Qed.

Lemma step_effect sender l l' o : inv l → step sender l l' → effect sender l l' o.
Proof.
  intros Hi Hs. destruct Hs as [ms l|x g g' c l Ho He|x g g' c w l Ho He|k c w l Hk|k c l Hk|k c x g g' target d l Hk Ho Hr
    |x g g' l Ho Hr|x g g' l Ho Hr|x g g' l Ho Hr]; try (by apply kept).
  - apply entomb_ops_ok in He as (_ & Hm & -> & ->).
    cut (effect sender l (put l x (mk_guarded (uid g) (Some (Rotation.mk_state sender None None)) true true)) o);
      [by intros []; econstructor|]. apply effect_put. intros ->.
    eapply founded; [done|done|]. destruct (at_put l o (mk_guarded (uid g) (Some (Rotation.mk_state sender None None)) true true) o) as [-> _].
    by rewrite decide_True.
  - apply mint_ops_ok in He as (Hm & -> & ->).
    cut (effect sender l (put l x (mk_guarded (uid g) (state_field g) (tomb_field g) true)) o);
      [by intros []; econstructor|]. apply effect_put. intros ->.
    destruct (at_put l o (mk_guarded (uid g) (state_field g) (tomb_field g) true) o) as [E1 E2].
    rewrite decide_True in E1 by done. rewrite decide_True in E2 by done. apply kept; [rewrite E1|rewrite E2]; unfold pending_at, authority_at; by rewrite Ho.
  - unfold request_rotation_ops, assert_ops_cap in Hr. apply result_bind_ok in Hr as (u & Hu & Hr). destruct u.
    apply assert_ok, bool_decide_eq_true in Hu. apply with_state_ok in Hr as (st & Hr & ->).
    apply effect_put. intros ->. destruct c as [id]. cbn in Hu. subst id. pose proof (i_uid _ Hi _ _ Ho) as Hid.
    eapply steered; [by rewrite <- Hid|]. destruct (at_put l o (with_state g st) o) as [_ ->]. rewrite decide_True by done.
    cbn. unfold authority_at. rewrite Ho. cbn. unfold Rotation.request, Rotation.borrow in Hr.
    apply result_bind_ok in Hr as (u1 & _ & Hr). apply result_bind_ok in Hr as (u2 & _ & Hr).
    apply result_bind_ok in Hr as (st0 & Hst0 & [= <-]). by apply ok_or_ok in Hst0 as ->.
  - unfold cancel_rotation in Hr. apply result_bind_ok in Hr as (u & _ & Hr). apply result_bind_ok in Hr as (st & Hst & Hr).
    apply result_bind_ok in Hr as (u' & _ & [= <-]). apply effect_put. intros ->.
    destruct (at_put l o (with_state g (Rotation.mk_state (Rotation.authority st) (Rotation.prev st) None)) o) as [E1 E2].
    rewrite decide_True in E1 by done. rewrite decide_True in E2 by done. apply cleared; [done|]. rewrite E2. cbn. unfold authority_at. rewrite Ho.
    unfold Rotation.borrow in Hst. apply ok_or_ok in Hst. cbn. by rewrite Hst.
  - apply with_state_ok in Hr as (st & Hr & ->). apply effect_put. intros ->.
    destruct (at_put l o (with_state g st) o) as [E1 E2]. rewrite decide_True in E1 by done. rewrite decide_True in E2 by done. cbn in E1, E2.
    unfold Rotation.claim, Rotation.borrow in Hr. apply result_bind_ok in Hr as (st0 & Hst0 & Hr).
    apply ok_or_ok in Hst0. apply result_bind_ok in Hr as (p & Hp & Hr). apply ok_or_ok in Hp.
    apply result_bind_ok in Hr as ([] & Hto & Hr). apply assert_ok, bool_decide_eq_true in Hto.
    do 4 (apply result_bind_ok in Hr as (? & _ & Hr)). injection Hr as <-. cbn in E1, E2.
    eapply passed; [|done|by rewrite E2, Hto]. unfold pending_at. rewrite Ho. cbn. by rewrite Hst0.
  - apply with_state_ok in Hr as (st & Hr & ->). apply effect_put. intros ->.
    destruct (at_put l o (with_state g st) o) as [E1 E2]. rewrite decide_True in E1 by done. rewrite decide_True in E2 by done. cbn in E1, E2.
    unfold Rotation.retire_previous, Rotation.borrow in Hr. apply result_bind_ok in Hr as (st0 & Hst0 & Hr).
    apply ok_or_ok in Hst0. apply result_bind_ok in Hr as (u & _ & Hr). destruct (Rotation.prev st0); [|done].
    injection Hr as <-. apply kept; [rewrite E1|rewrite E2]; unfold pending_at, authority_at; rewrite Ho; cbn; by rewrite Hst0.
Qed.
End LedgerFacts.

(** ** Properties *)

Section Properties.
Import Ops Ledger.

(** What is left of a rotation nobody can steer: its pending request runs out,
    is cancelled, or is claimed by its target. *)
Definition run_out l l' (o : Address) : Prop :=
  (authority_at l' o = authority_at l o ∧ (pending_at l' o = pending_at l o ∨ pending_at l' o = None)) ∨
  (pending_at l' o = None ∧ ∃ p, pending_at l o = Some p ∧ authority_at l' o = Some (Rotation.to p)).

(** C31: Steering is in the custody of one object.  However objects were
    entombed, caps minted, passed on and retired: an object never has two steering
    caps; a transaction that leaves a new pending rotation was sent by the owner of
    that cap, whoever the authority is; and once the cap is destroyed no rotation
    can be asked for, so the authority changes at most once more, to the target of
    the request then pending. *)
Theorem steering_custody (l0 l : Ledger.t) :
  unminted l0 → rtc moves l0 l →
  (∀ k k' w w' c, caps l !! k = Some (w, c) → caps l !! k' = Some (w', c) → k = k') ∧
  (∀ sender l' o p, step sender l l' → pending_at l' o = Some p → pending_at l o ≠ Some p →
     ∃ k, caps l !! k = Some (sender, mk_ops o)) ∧
  (∀ o g l', objects l !! o = Some g → minted_field g = true → (∀ k w, caps l !! k ≠ Some (w, mk_ops o)) →
     rtc moves l l' → run_out l l' o).
Proof.
  intros H0 Hl. pose proof (LedgerFacts.moves_inv _ _ Hl (LedgerFacts.inv_unminted _ H0)) as Hi. clear H0 Hl l0.
  split; [exact (LedgerFacts.i_one _ Hi)|]. split.
  - intros sender l' o p Hs Hp Hne. destruct (LedgerFacts.step_effect _ _ _ o Hi Hs); try congruence. eauto.
  - intros o g l' Hg Hm Hno Hl. cut (∀ l1, rtc moves l1 l' → LedgerFacts.inv l1 →
      (∃ g, objects l1 !! o = Some g ∧ minted_field g = true) → (∀ k w, caps l1 !! k ≠ Some (w, mk_ops o)) →
      run_out l l1 o → run_out l l' o).
    { intros Hall. apply (Hall l Hl Hi); [eauto|done|]. left. auto. }
    clear g Hg Hm Hno Hl Hi. induction 1 as [|l1 l2 l3 [sender Hs] _ IH]; [done|]. intros Hi (g & Hg & Hm) Hno Hrun.
    apply IH; [by eapply LedgerFacts.ledger_step_inv|by eapply LedgerFacts.minted_stays; eauto|by eapply LedgerFacts.no_cap_stays|].
    destruct (LedgerFacts.step_effect _ _ _ o Hi Hs) as [E1 E2|E1 E2|p E1 E2 E3|k Hk _|g' Hg' Hm' _].
    + unfold run_out in *. by rewrite E1, E2.
    + unfold run_out in *. rewrite E1, E2. destruct Hrun as [[Ha _]|[_ Hrun]]; auto.
    + unfold run_out in *. right. split; [done|]. destruct Hrun as [[_ [Hp|Hp]]|[Hp _]]; [|congruence..].
      exists p. split; [congruence|done].
    + by destruct (Hno _ _ Hk).
    + congruence.
Qed.

(** The upgrade slot opens again: freezing destroys whatever cap was entombed,
    of this package or a foreign one, and leaves a slot that takes the next
    cap. *)
Theorem freeze_reopens_the_slot {Cap Ticket Receipt} `{Upgrade.Package Cap Ticket Receipt}
    (r r' : Upgrade.registry Cap) ops package cap :
  Upgrade.freeze_package r ops = Ok (r', package) → is_Some (state_field (Upgrade.object r)) →
  Upgrade.upgrade_package_id r = Some package ∧ Upgrade.upgrade_package_id r' = None ∧
  Upgrade.entomb_upgrade_cap r' cap ops = Ok (Upgrade.mk_registry (Upgrade.object r) (Some cap)).
Proof.
  unfold Upgrade.freeze_package, Upgrade.upgrade_package_id, Upgrade.entomb_upgrade_cap.
  intros (u & Ha & Hr)%result_bind_ok [st Hst]. apply result_bind_ok in Hr as (c & Hc & [= <- <-]).
  apply ok_or_ok in Hc as ->. split; [done|]. split; [done|]. cbn. rewrite Ha. cbn. by rewrite Hst.
Qed.

(** Without the cap of the Registry nothing of its custody moves. *)
Theorem foreign_cap_steers_nothing {Cap Ticket Receipt} `{Upgrade.Package Cap Ticket Receipt}
    (r : Upgrade.registry Cap) (i : Inbox.Inbox) ops target delay now w cap policy digest receipt :
  for_id ops ≠ uid (Upgrade.object r) →
  request_rotation_ops (Upgrade.object r) target delay now ops = Err (Abort E_OPS_MISMATCH) ∧
  request_window_change (Upgrade.object r) i w delay now ops = Err (Abort E_OPS_MISMATCH) ∧
  cancel_window_change (Upgrade.object r) i ops = Err (Abort E_OPS_MISMATCH) ∧
  Upgrade.entomb_upgrade_cap r cap ops = Err (Abort E_OPS_MISMATCH) ∧
  Upgrade.authorize_package_upgrade r ops policy digest = Err (Abort E_OPS_MISMATCH) ∧
  Upgrade.commit_package_upgrade r ops receipt = Err (Abort E_OPS_MISMATCH) ∧
  Upgrade.restrict_package_upgrades r ops policy = Err (Abort E_OPS_MISMATCH) ∧
  Upgrade.freeze_package r ops = Err (Abort E_OPS_MISMATCH).
Proof.
  intros Hne. assert (assert_ops_cap (Upgrade.object r) ops = Err (Abort E_OPS_MISMATCH)) as Ha
    by (unfold assert_ops_cap, assert; by rewrite bool_decide_false).
  unfold request_rotation_ops, request_window_change, cancel_window_change, Upgrade.entomb_upgrade_cap,
    Upgrade.authorize_package_upgrade, Upgrade.commit_package_upgrade, Upgrade.restrict_package_upgrades,
    Upgrade.freeze_package. by rewrite Ha.
Qed.
End Properties.

Module CustodyDemo.
Import Ops Ledger.
Definition registry : Address := array_fill 32 x0a.
Definition hot : Address := array_fill 32 x01.
Definition cold : Address := array_fill 32 x02.
Definition next_key : Address := array_fill 32 x03.
Definition bare : guarded := mk_guarded registry None false false.
Definition deployed : Ledger.t := mk_ledger {[ registry := bare ]} ∅ 0 1000.
Definition pending : Rotation.state :=
  Rotation.mk_state hot None (Some (Rotation.mk_pending next_key 601000)).
(** The hot key entombs, moves the cap to cold custody; the cold key asks for a
    rotation and destroys the cap. *)
Definition retired : Ledger.t :=
  mk_ledger {[ registry := mk_guarded registry (Some pending) true true ]} ∅ 1 1000.

Lemma deployed_unminted : unminted deployed.
Proof. split; [done|]. intros o g Ho. cbn in Ho. apply lookup_singleton_Some in Ho as [<- <-]. done. Qed.
Lemma deployed_retired : rtc moves deployed retired.
Proof.
  set (entombed := mk_guarded registry (Some (Rotation.mk_state hot None None)) true true).
  eapply rtc_l.
  { exists hot. eapply (Entombs hot registry bare entombed (mk_ops registry)); [apply lookup_singleton_eq|done]. }
  eapply rtc_l.
  { exists hot. eapply (Sends hot 0 (mk_ops registry) cold). apply lookup_insert_eq. }
  eapply rtc_l.
  { exists cold. eapply (Requests cold 0 (mk_ops registry) registry entombed _ next_key 600000).
    - apply lookup_insert_eq.
    - apply lookup_insert_eq.
    - by vm_compute. }
  eapply rtc_l.
  { exists cold. eapply (Retires cold 0 (mk_ops registry)). apply lookup_insert_eq. }
  replace retired with (mk_ledger (<[registry := mk_guarded registry (Some pending) true true]> (<[registry := entombed]> {[registry := bare]}))
    (delete 0 (<[0 := (cold, mk_ops registry)]> (<[0 := (hot, mk_ops registry)]> ∅))) 1 1000); [apply rtc_refl|].
  unfold retired. f_equal.
Qed.

Lemma steering_custody_witness :
  (∀ sender l' o p, step sender retired l' → pending_at l' o = Some p → pending_at retired o ≠ Some p →
     ∃ k, caps retired !! k = Some (sender, mk_ops o)) ∧
  (∀ l', rtc moves retired l' → run_out retired l' registry).
Proof.
  pose proof (steering_custody deployed retired deployed_unminted deployed_retired) as (_ & Hsteer & Hend).
  split; [exact Hsteer|]. intros l' Hl'. eapply Hend; [apply lookup_singleton_eq|done| |exact Hl'].
  intros k w Hk. cbn in Hk. by apply lookup_empty_Some in Hk.
Defined.
End CustodyDemo.
