(* ===== verification/Sui.v ===== *)
(** [crates/sui/src/settlement.rs]: the Sui settlement client.

    The Sui RPC, the transaction builder and signing are the interface
    [SuiRpc]; a programmable transaction block is data, so what the client
    submits can be compared with what the contract of [Contract] expects. *)

From S2P Require Import Prelude Text Codec Disk Core Wire Contract.
Local Open Scope string_scope.
Local Open Scope list_scope.
Local Open Scope N_scope.

(** ** Programmable transaction blocks *)

(** A pure input with its Move type, and an argument: an object, a pure value,
    or the result of an earlier command of the block. *)
Inductive pure :=
| PU64 (n : N)
| PU8 (n : N)
| PBytes (l : list byte)
| PAddr (a : Address).
Inductive arg :=
| AObj (id : Address)
| APure (p : pure)
| ARes (command : nat).
Inductive command :=
| MoveCall (package : Address) (module function : string) (type_args : list string)
    (args : list arg)
| Publish (modules : list (list byte)) (deps : list Address)
| Upgrade (modules : list (list byte)) (deps : list Address) (package : Address) (ticket : arg).
Record ptb := mk_ptb { commands : list command; ptb_sender : Address }.

(** ** Responses *)

Inductive OwnerKind := OwnerAddress | OwnerShared | OwnerOther.
#[global] Instance OwnerKind_eq_dec : EqDecision OwnerKind.
Proof. solve_decision. Defined.
Record ChangedObject := mk_changed {
  object_id : option string;
  is_created : bool;
  is_package_write : bool;
  owner_kind : OwnerKind
}.
Record ExecResponse := mk_exec {
  exec_success : bool;
  exec_error : option string;
  changed_objects : list ChangedObject
}.
Record Balance := mk_balance { coin_type : option string; balance_amount : option N }.

Inductive SettlementError :=
| Io (e : io_error)
| Key (msg : string)
| Rpc (msg : string)
| Build (msg : string)
| Execution (msg : string)
| Parse (msg : string).
#[global] Instance SettlementError_eq_dec : EqDecision SettlementError.
Proof. solve_decision. Defined.

Definition settlement_error_text (e : SettlementError) : string :=
  match e with
  | Io e => "io error: " +:+ io_error_text e
  | Key m => "key error: " +:+ m
  | Rpc m => "rpc error: " +:+ m
  | Build m => "transaction build error: " +:+ m
  | Execution m => "transaction execution failed: " +:+ m
  | Parse m => "parse error: " +:+ m
  end.

(** ** The RPC *)

(** [rpc_get_object]: [None] when there is no such object, [Some None] when it
    has no contents. *)
Class SuiRpc (W PrivKey Tx TxSig : Type) := {
  rpc_connect : string → result string unit;
  rpc_get_object : string → Address → M W string (option (option (list byte)));
  rpc_build : string → ptb → M W string Tx;
  sign_transaction : PrivKey → Tx → result string TxSig;
  rpc_execute : string → Tx → TxSig → N → M W string ExecResponse;
  rpc_get_epoch : string → M W string unit;
  rpc_list_balances : string → string → W → list (result string Balance) * W
}.

(** Checkpoint waits, in milliseconds. *)
Definition DEPLOY_TX_WAIT : N := 120000.
Definition COMMIT_TX_WAIT : N := 30000.

Definition SUI_CLOCK_ID : Address := array_of_N 32 6.

Record DeployedContract := mk_deployed {
  package_id : string;
  settler_cap_id : string;
  registry_id : string;
  inbox_id : string;
  upgrade_cap_id : string;
  ops_cap_id : string
}.

(** ** Parsing raw object contents *)

(** The bytes [from .. to) of a slice, read as little-endian. *)
Definition slice {A} (from to : nat) (l : list A) : list A := take (to - from) (drop from l).

Definition parse_latest_height (contents : list byte) : result SettlementError N :=
  if Nat.ltb (length contents) 40 then
    Err (Execution ("registry BCS too short: " +:+ fmt_dec (N.of_nat (length contents)) +:+ " bytes"))
  else
    bs ← ok_or (try_into_array 8 (slice 32 40 contents)) (Execution "invalid latest_height");
    Ok (from_le_bytes (arr_bytes bs)).

Definition parse_inbox_cursor (contents : list byte) : result SettlementError N :=
  if Nat.ltb (length contents) 48 then
    Err (Execution ("inbox BCS too short: " +:+ fmt_dec (N.of_nat (length contents)) +:+ " bytes"))
  else
    bs ← ok_or (try_into_array 8 (slice 40 48 contents)) (Execution "invalid included_count");
    Ok (from_le_bytes (arr_bytes bs)).

(** BCS shapes: [Table] is its id and size; a dynamic field is its id, its
    name and its value. *)
Definition TableBcs : Type := Address * N.
Definition RegistryBcs : Type := Address * N * TableBcs.
Definition FieldBlobBcs : Type := Address * N * list byte.
Definition UpgradeCapMirror : Type := Address * Address * N * N.

Definition parse_blob_id (bytes : list byte) : result SettlementError BlobId :=
  match try_into_array 32 bytes with
  | Some arr => Ok (mk_BlobId arr)
  | None => Err (Parse ("expected 32-byte blob id, got " +:+ fmt_dec (N.of_nat (length bytes))))
  end.

Definition settle_block_ts (header_timestamp_secs : N) : N := sat_mul header_timestamp_secs 1000.

Section Parsers.
Context `{Bcs RegistryBcs} `{Bcs FieldBlobBcs}.

Definition parse_table_uid (bytes : list byte) : result SettlementError Address :=
  r ← map_err (λ e, Parse ("registry BCS: " +:+ e)) (bcs_from_bytes bytes : result _ RegistryBcs);
  let '(_, _, (id, _)) := r in Ok id.

Definition parse_field_blob_id (bytes : list byte) : result SettlementError BlobId :=
  f ← map_err (λ e, Parse ("field BCS: " +:+ e)) (bcs_from_bytes bytes : result _ FieldBlobBcs);
  let '(_, _, value) := f in parse_blob_id value.
End Parsers.

(** ** Move builds *)

Record MoveBuild := mk_build {
  modules : list (list byte);
  dependencies : list Address;
  digest : list byte
}.
Definition MoveBuildJson : Type := list string * list string * list byte.

Definition parse_address `{SuiSdk} (s label : string) : result SettlementError Address :=
  map_err (λ e, Parse (label +:+ " " +:+ s +:+ ": " +:+ e)) (address_from_str s).

Definition parse_move_build `{SuiSdk} `{Base64} `{Json MoveBuildJson} (json : string)
    : result SettlementError MoveBuild :=
  raw ← map_err (λ e, Parse ("move build json: " +:+ e))
          (json_from_str json : result _ MoveBuildJson);
  let '(raw_modules, raw_deps, raw_digest) := raw in
  modules ← mapM (λ m, map_err (λ e, Parse ("module base64: " +:+ e)) (b64_decode m)) raw_modules;
  dependencies ← mapM (λ d, parse_address d "dependency id") raw_deps;
  if negb (Nat.eqb (length raw_digest) 32) then
    Err (Parse ("upgrade digest must be 32 bytes, got " +:+ fmt_dec (N.of_nat (length raw_digest))))
  else Ok (mk_build modules dependencies raw_digest).

Definition find_created_object (changes : list ChangedObject) (kind : OwnerKind) : option string :=
  match List.find (λ c, is_created c && bool_decide (owner_kind c = kind)) changes with
  | Some c => object_id c
  | None => None
  end.
Definition find_package (changes : list ChangedObject) : option string :=
  match List.find is_package_write changes with Some c => object_id c | None => None end.

Definition is_sui_coin_type `{SuiSdk} (s : string) : bool :=
  match struct_tag_from_str s with Ok t => bool_decide (t = sui_tag) | Err _ => false end.

(** [state_root::state_root_command]: the root to anchor, when enabled. *)
Definition state_root_command (enabled : bool) (h : Header) : option (list byte) :=
  if enabled then Some (arr_bytes (state_root h)) else None.

(** ** Operations *)

Section Operations.
Context {W PrivKey PubKey Tx TxSig : Type} `{Ed25519 PrivKey PubKey} `{Base64} `{SuiSdk}
  `{SuiRpc W PrivKey Tx TxSig} `{HasDisk W}.
Context `{Bcs RegistryBcs} `{Bcs FieldBlobBcs} `{Bcs UpgradeCapMirror}.
Abbreviation Op := (M W SettlementError).

Definition load_signer (key_path : path) : Op (PrivKey * Address) :=
  text ← errM Io (on_disk (fs_read_to_string key_path));
  key ← lift (map_err Key (parse_signer_key (trim text)));
  mret (key, derive_address (public_key key)).

Definition parse_contract_ids (package cap registry inbox : string)
    : result SettlementError (Address * Address * Address * Address) :=
  p ← parse_address package "package id"; c ← parse_address cap "cap id";
  r ← parse_address registry "registry id"; i ← parse_address inbox "inbox id";
  Ok (p, c, r, i).

Definition connect (url : string) : Op unit := lift (map_err Rpc (rpc_connect url)).

Definition object_contents (url : string) (id : Address) (label : string) : Op (list byte) :=
  connect url;;
  object ← errM (λ e, Rpc ("get_object: " +:+ e)) (rpc_get_object url id);
  obj ← lift (ok_or object (Execution (label +:+ " object not found")));
  lift (ok_or obj (Execution (label +:+ " has no contents"))).

(** The dynamic-field object of a [Table<u64, V>] entry. *)
Definition table_field_id (table : Address) (key : N) : Address :=
  derive_dynamic_child_id table "u64" (to_le_bytes 8 key).

Definition field_contents (url : string) (table : Address) (key : N) : Op (option (list byte)) :=
  connect url;;
  object ← errM (λ e, Rpc ("get_object (field): " +:+ e))
             (rpc_get_object url (table_field_id table key));
  match object with
  | None => mret None
  | Some obj => Some <$> lift (ok_or obj (Execution "field contents missing raw BCS"))
  end.

(** [Function::new] with its module and function identifiers. *)
Definition move_call (package : Address) (m f : string) (targs : list string) (args : list arg)
    : result SettlementError command :=
  m' ← map_err Parse (identifier_new m); f' ← map_err Parse (identifier_new f);
  Ok (MoveCall package m' f' targs args).

Definition into_checked (inner : ExecResponse) (label : string)
    : result SettlementError ExecResponse :=
  if exec_success inner then Ok inner
  else Err (Execution (label +:+ " failed: " +:+ default "" (exec_error inner))).

Definition sign_and_execute (url : string) (key : PrivKey) (tx : Tx) (label : string) (wait : N)
    : Op ExecResponse :=
  sg ← lift (map_err (λ e, Key (label +:+ ": " +:+ e)) (sign_transaction key tx));
  response ← errM (λ e, Execution (label +:+ ": " +:+ e)) (rpc_execute url tx sg wait);
  lift (into_checked response label).

(** Build a block and execute it: the tail every ceremony shares. *)
Definition build_and_execute (url : string) (key : PrivKey) (sender : Address)
    (cmds : list command) (label build_label : string) : Op ExecResponse :=
  tx ← errM (λ e, Build (build_label +:+ ": " +:+ e)) (rpc_build url (mk_ptb cmds sender));
  sign_and_execute url key tx label DEPLOY_TX_WAIT.

(** *** The settlement signer *)

Record Settlement := mk_Settlement {
  s_key : PrivKey;
  s_sender : Address;
  s_package : Address;
  s_cap : Address;
  s_registry : Address;
  s_inbox : Address;
  s_rpc : string;
  s_commit_state_roots : bool
}.

Definition settlement_new (key_path : path) (package cap registry inbox url : string)
    : Op Settlement :=
  '(key, sender) ← load_signer key_path;
  connect url;;
  '(p, c, r, i) ← lift (parse_contract_ids package cap registry inbox);
  mret (mk_Settlement key sender p c r i url true).

Definition with_commit_state_roots (s : Settlement) (enabled : bool) : Settlement :=
  mk_Settlement (s_key s) (s_sender s) (s_package s) (s_cap s) (s_registry s) (s_inbox s)
    (s_rpc s) enabled.

Definition swap_key (s : Settlement) (key : PrivKey) : Settlement :=
  mk_Settlement key (derive_address (public_key key)) (s_package s) (s_cap s) (s_registry s)
    (s_inbox s) (s_rpc s) (s_commit_state_roots s).

Definition inbox_cursor (s : Settlement) : Op N :=
  object ← errM (λ e, Rpc ("get_object: " +:+ e)) (rpc_get_object (s_rpc s) (s_inbox s));
  obj ← lift (ok_or object (Execution "inbox object not found"));
  bytes ← lift (ok_or obj (Execution "inbox has no contents"));
  lift (map_err (λ e, Parse ("decoding inbox contents as BCS: " +:+ settlement_error_text e))
          (parse_inbox_cursor bytes)).

Definition append_commit_state_root (package registry : Address) (h : Header) (enabled : bool)
    : list command :=
  match state_root_command enabled h with
  | None => []
  | Some root =>
      [MoveCall package "settlement" "commit_state_root" []
         [AObj registry; AObj SUI_CLOCK_ID; APure (PU64 (height h)); APure (PBytes root)]]
  end.

(** The settle block's commands and sender. *)
Definition settle_ptb (s : Settlement) (h : Header) (blob : BlobId) (cursor : N)
    : result SettlementError ptb :=
  settle ← move_call (s_package s) "settlement" "settle_as" []
    [AObj (s_registry s); AObj (s_inbox s); AObj SUI_CLOCK_ID;
     APure (PBytes (arr_bytes (blob_hash blob))); APure (PU64 (height h));
     APure (PU64 (settle_block_ts (timestamp h))); APure (PU64 cursor)];
  Ok (mk_ptb (settle :: append_commit_state_root (s_package s) (s_registry s) h
                          (s_commit_state_roots s)) (s_sender s)).

Definition build_settle_tx (s : Settlement) (h : Header) (blob : BlobId) (cursor : N) : Op Tx :=
  p ← lift (settle_ptb s h blob cursor);
  errM Build (rpc_build (s_rpc s) p).

Definition commit_with_cursor (s : Settlement) (h : Header) (blob : BlobId) (tracked_cursor : N)
    : Op unit :=
  on_chain ← inbox_cursor s;
  let cursor := N.max tracked_cursor on_chain in
  tx ← build_settle_tx s h blob cursor;
  sign_and_execute (s_rpc s) (s_key s) tx "settle" COMMIT_TX_WAIT;;
  mret tt.

Definition commit (s : Settlement) (h : Header) (blob : BlobId) : Op unit :=
  cursor ← inbox_cursor s; commit_with_cursor s h blob cursor.

(** *** Deploy and custody ceremonies *)

Definition call_initialize (url : string) (key : PrivKey) (sender package : Address)
    (m label : string) : Op (list ChangedObject) :=
  c ← lift (move_call package m "initialize" [] []);
  r ← build_and_execute url key sender [c] label label;
  mret (changed_objects r).

Definition run_entomb_settler_cap (url : string) (key : PrivKey) (sender package settler_cap
    registry : Address) : Op string :=
  c ← lift (move_call package "settlement" "entomb_settler_cap_ops" []
              [AObj settler_cap; AObj registry]);
  r ← build_and_execute url key sender [c] "entomb settler cap" "entomb settler cap";
  lift (ok_or (find_created_object (changed_objects r) OwnerAddress)
          (Execution "OpsCap not found in entombment response")).

Definition run_entomb_upgrade_cap (url : string) (key : PrivKey) (sender package registry
    upgrade_cap ops_cap : Address) : Op unit :=
  c ← lift (move_call package "settlement" "entomb_upgrade_cap" []
              [AObj upgrade_cap; AObj registry; AObj ops_cap]);
  build_and_execute url key sender [c] "entomb upgrade cap" "entomb upgrade cap";;
  mret tt.

Definition deploy (key_path : path) (url : string) (mods : list (list byte))
    : Op DeployedContract :=
  '(key, sender) ← load_signer key_path;
  connect url;;
  one ← lift (map_err (λ e, Parse ("invalid MoveStdlib address: " +:+ e)) (address_from_str
    "0x0000000000000000000000000000000000000000000000000000000000000001"));
  two ← lift (map_err (λ e, Parse ("invalid Sui address: " +:+ e)) (address_from_str
    "0x0000000000000000000000000000000000000000000000000000000000000002"));
  transfer ← lift (move_call two "transfer" "public_transfer" ["0x2::package::UpgradeCap"]
                     [ARes 0; APure (PAddr sender)]);
  published ← build_and_execute url key sender [Publish mods [one; two]; transfer]
                "publish" "publish";
  package_id ← lift (ok_or (find_package (changed_objects published))
                       (Execution "package not found in publish response"));
  upgrade_cap_id ← lift (ok_or (find_created_object (changed_objects published) OwnerAddress)
                           (Execution "UpgradeCap not found in publish response"));
  package_addr ← lift (parse_address package_id "package id");
  changes ← call_initialize url key sender package_addr "settlement" "settlement init";
  registry_id ← lift (ok_or (find_created_object changes OwnerShared)
                        (Execution "Registry not found in init response"));
  settler_cap_id ← lift (ok_or (find_created_object changes OwnerAddress)
                           (Execution "SettlerCap not found in init response"));
  settler_cap ← lift (parse_address settler_cap_id "settler cap id");
  registry ← lift (parse_address registry_id "registry id");
  ops_cap_id ← run_entomb_settler_cap url key sender package_addr settler_cap registry;
  upgrade_cap ← lift (parse_address upgrade_cap_id "upgrade cap id");
  ops_cap ← lift (parse_address ops_cap_id "ops cap id");
  run_entomb_upgrade_cap url key sender package_addr registry upgrade_cap ops_cap;;
  inbox_changes ← call_initialize url key sender package_addr "inbox" "inbox init";
  inbox_id ← lift (ok_or (find_created_object inbox_changes OwnerShared)
                     (Execution "Inbox not found in inbox init response"));
  mret (mk_deployed package_id settler_cap_id registry_id inbox_id upgrade_cap_id ops_cap_id).

Definition read_upgrade_cap_package (url : string) (cap : Address) : Op Address :=
  object ← errM (λ e, Rpc ("get_object: " +:+ e)) (rpc_get_object url cap);
  obj ← lift (ok_or object (Execution "UpgradeCap object not found"));
  bytes ← lift (ok_or obj (Execution "UpgradeCap has no contents"));
  c ← lift (map_err (λ e, Parse ("decoding UpgradeCap as BCS: " +:+ e))
              (bcs_from_bytes bytes : result _ UpgradeCapMirror));
  let '(_, package, _, _) := c in mret package.

Definition entomb_upgrade_cap (key_path : path) (url package_id registry_id upgrade_cap_id
    ops_cap_id : string) : Op unit :=
  '(key, sender) ← load_signer key_path;
  connect url;;
  package ← lift (parse_address package_id "package id");
  registry ← lift (parse_address registry_id "registry id");
  upgrade_cap ← lift (parse_address upgrade_cap_id "upgrade cap id");
  ops_cap ← lift (parse_address ops_cap_id "ops cap id");
  cap_package ← read_upgrade_cap_package url upgrade_cap;
  if bool_decide (cap_package = package) then
    run_entomb_upgrade_cap url key sender package registry upgrade_cap ops_cap
  else throw (Execution ("UpgradeCap " +:+ upgrade_cap_id +:+ " authorizes package "
                         +:+ address_to_hex cap_package +:+ ", not " +:+ package_id)).

Definition parse_upgrade_ids (package_id registry_id ops_cap_id : string)
    : result SettlementError (Address * Address * Address) :=
  p ← parse_address package_id "package id"; r ← parse_address registry_id "registry id";
  o ← parse_address ops_cap_id "ops cap id"; Ok (p, r, o).

Definition upgrade_package (key_path : path) (url package_id registry_id ops_cap_id : string)
    (build : MoveBuild) (policy : N) : Op string :=
  '(key, sender) ← load_signer key_path;
  connect url;;
  '(package, registry, ops_cap) ← lift (parse_upgrade_ids package_id registry_id ops_cap_id);
  authorize ← lift (move_call package "settlement" "authorize_package_upgrade" []
    [AObj registry; AObj ops_cap; APure (PU8 policy); APure (PBytes (digest build))]);
  finish ← lift (move_call package "settlement" "commit_package_upgrade" []
    [AObj registry; AObj ops_cap; ARes 1]);
  r ← build_and_execute url key sender
        [authorize; Upgrade (modules build) (dependencies build) package (ARes 0); finish]
        "upgrade package" "upgrade package";
  lift (ok_or (find_package (changed_objects r))
          (Execution "upgraded package not found in response")).

Definition restrict_package_upgrades (key_path : path) (url package_id registry_id
    ops_cap_id : string) (policy : N) : Op unit :=
  '(key, sender) ← load_signer key_path;
  connect url;;
  '(package, registry, ops_cap) ← lift (parse_upgrade_ids package_id registry_id ops_cap_id);
  c ← lift (move_call package "settlement" "restrict_package_upgrades" []
              [AObj registry; AObj ops_cap; APure (PU8 policy)]);
  build_and_execute url key sender [c] "restrict upgrades" "restrict upgrades";;
  mret tt.

Definition freeze_package (key_path : path) (url package_id registry_id ops_cap_id : string)
    : Op unit :=
  '(key, sender) ← load_signer key_path;
  connect url;;
  '(package, registry, ops_cap) ← lift (parse_upgrade_ids package_id registry_id ops_cap_id);
  c ← lift (move_call package "settlement" "freeze_package" [] [AObj registry; AObj ops_cap]);
  build_and_execute url key sender [c] "freeze package" "freeze package";;
  mret tt.

(** *** Reads *)

Definition latest_height (url registry_id : string) : Op N :=
  registry ← lift (parse_address registry_id "registry id");
  contents ← object_contents url registry "registry";
  lift (parse_latest_height contents).

Definition table_uid (url registry_id : string) : Op Address :=
  registry ← lift (parse_address registry_id "registry id");
  bytes ← object_contents url registry "registry";
  lift (parse_table_uid bytes).

Definition commitment_at (url : string) (table : Address) (h : N) : Op (option BlobId) :=
  o ← field_contents url table h;
  match o with
  | None => mret None
  | Some bytes => Some <$> lift (parse_field_blob_id bytes)
  end.

(** The first balance whose coin is SUI; the stream ends the call early on an
    error. *)
Fixpoint first_sui (l : list (result string Balance)) : result SettlementError N :=
  match l with
  | [] => Ok 0
  | Err e :: _ => Err (Rpc ("list_balances: " +:+ e))
  | Ok b :: l =>
      if match coin_type b with Some c => is_sui_coin_type c | None => false end
      then Ok (default 0 (balance_amount b))
      else first_sui l
  end.
Definition sui_balance (url owner : string) : Op N :=
  connect url;;
  eff (λ w, let '(items, w') := rpc_list_balances url owner w in (first_sui items, w')).

Definition ping_rpc (url : string) : Op unit :=
  connect url;; errM (λ e, Rpc ("get_epoch: " +:+ e)) (rpc_get_epoch url).
End Operations.
#[global] Arguments Settlement PrivKey : clear implicits.

