(* ===== verification/Chain.v ===== *)
(** The settlement client against the contract.

    [sim] is a Sui chain holding one Registry and one Inbox, reached through an
    RPC that may fail before a transaction runs or lose the reply after it ran
    (the client-side timeout of [sign_and_execute]).  The theorems say what a
    commit does to that chain, whatever the RPC does. *)

From S2P Require Import Prelude Text Codec Disk Core Wire Contract Sui.
Local Open Scope string_scope.
Local Open Scope list_scope.
Local Open Scope N_scope.

(** What the RPC does with the next call. *)
Inductive rpc_fault := Served | Dropped | ReplyLost.

Record chain := mk_chain { registry : Settle.Registry; inbox : Inbox.Inbox }.
Record ids := mk_ids { id_package : Address; id_registry : Address; id_inbox : Address; id_table : Address }.
Record sim := mk_sim {
  sim_ids : ids;
  sim_chain : chain;
  sim_now : N;
  sim_faults : list rpc_fault
}.

(** The Move layout of the shared inbox: id, the three counters, and the
    pending table's id and size. *)
Definition inbox_contents (x : ids) (i : Inbox.Inbox) : list byte :=
  arr_bytes (id_inbox x) ++ to_le_bytes 8 (Inbox.next_nonce i)
  ++ to_le_bytes 8 (Inbox.included_count i) ++ to_le_bytes 8 (Inbox.last_settled_ts i)
  ++ arr_bytes (id_table x) ++ to_le_bytes 8 (N.of_nat (size (Inbox.pending i))).
(** The Registry: id, tip, and the commitments table's id and size. *)
Definition registry_contents (x : ids) (r : Settle.Registry) : list byte :=
  arr_bytes (id_registry x) ++ to_le_bytes 8 (Settle.latest_height r)
  ++ arr_bytes (id_table x) ++ to_le_bytes 8 (N.of_nat (size (Settle.commitments r))).

(** One command of a block on the contract; a command the model does not know
    aborts. *)
Definition run_command (x : ids) (now : N) (sender : Address) (st : chain) (c : command)
    : call chain :=
  match c with
  | MoveCall p "settlement" "settle_as" []
      [AObj r; AObj i; AObj _; APure (PBytes blob); APure (PU64 h); APure (PU64 ts);
       APure (PU64 cursor)] =>
      assert (bool_decide (p = id_package x ∧ r = id_registry x ∧ i = id_inbox x)) 100;;
      '(r', i') ← Settle.settle_as (registry st) (inbox st) now sender blob h ts cursor;
      Ok (mk_chain r' i')
  | MoveCall p "settlement" "commit_state_root" [] [AObj r; AObj _; APure (PU64 h); APure (PBytes root)] =>
      assert (bool_decide (p = id_package x ∧ r = id_registry x)) 100;;
      r' ← Settle.commit_state_root (registry st) now sender h root;
      Ok (mk_chain r' (inbox st))
  | _ => Err (Abort 101)
  end.
(** A block is atomic: an abort anywhere undoes all of it. *)
Fixpoint run_commands (x : ids) (now : N) (sender : Address) (cs : list command) (st : chain)
    : call chain :=
  match cs with
  | [] => Ok st
  | c :: cs => st' ← run_command x now sender st c; run_commands x now sender cs st'
  end.

Definition pop (s : sim) : sim := mk_sim (sim_ids s) (sim_chain s) (sim_now s) (tail (sim_faults s)).
Definition next_rpc_fault (s : sim) : rpc_fault :=
  match sim_faults s with [] => Served | f :: _ => f end.

Section Sim.
Context {PrivKey PubKey : Type} `{Ed25519 PrivKey PubKey}.

Definition sim_get_object (a : Address) (s : sim) : option (option (list byte)) :=
  if bool_decide (a = id_inbox (sim_ids s)) then
    Some (Some (inbox_contents (sim_ids s) (inbox (sim_chain s))))
  else if bool_decide (a = id_registry (sim_ids s)) then
    Some (Some (registry_contents (sim_ids s) (registry (sim_chain s))))
  else None.

(** Executing a signed block: the signer must be its sender. *)
Definition sim_execute (p : ptb) (k : PrivKey) (s : sim) : ExecResponse * sim :=
  if bool_decide (derive_address (public_key k) = ptb_sender p) then
    match run_commands (sim_ids s) (sim_now s) (ptb_sender p) (commands p) (sim_chain s) with
    | Ok st => (mk_exec true None [], mk_sim (sim_ids s) st (sim_now s) (sim_faults s))
    | Err _ => (mk_exec false (Some "MoveAbort") [], s)
    end
  else (mk_exec false (Some "invalid signature") [], s).

End Sim.

(** Run one step of an operation, keeping the chain's own execution folded. *)
Ltac run_op := unfold lift, errM; rewrite ?run_bind;
  cbn -[parse_inbox_cursor settle_ptb run_commands sim_execute].

Section SimFacts.
Context {PrivKey PubKey : Type} `{Ed25519 PrivKey PubKey}.

#[local] Instance sim_rpc : SuiRpc sim PrivKey ptb PrivKey := {|
  rpc_connect _ := Ok tt;
  rpc_get_object _ a := λ s,
    match next_rpc_fault s with
    | Served => (Ok (sim_get_object a s), pop s)
    | _ => (Err "unavailable", pop s)
    end;
  rpc_build _ p := λ s,
    match next_rpc_fault s with Served => (Ok p, pop s) | _ => (Err "unavailable", pop s) end;
  sign_transaction k p := Ok k;
  rpc_execute _ p k _ := λ s,
    match next_rpc_fault s with
    | Served => let '(r, s') := sim_execute p k s in (Ok r, pop s')
    | Dropped => (Err "unavailable", pop s)
    | ReplyLost => let '(_, s') := sim_execute p k s in (Err "deadline exceeded", pop s')
    end;
  rpc_get_epoch _ := mret tt;
  rpc_list_balances _ _ := λ s, ([], s)
|}.

Context `{SuiSdk} (identifiers : ∀ m, identifier_new m = Ok m).

Lemma parse_inbox_contents x i :
  is_u64 (Inbox.included_count i) → parse_inbox_cursor (inbox_contents x i) = Ok (Inbox.included_count i).
Proof.
  intros Hu. unfold parse_inbox_cursor, inbox_contents. 
  assert (length (arr_bytes (id_inbox x) ++ to_le_bytes 8 (Inbox.next_nonce i)
    ++ to_le_bytes 8 (Inbox.included_count i) ++ to_le_bytes 8 (Inbox.last_settled_ts i)
    ++ arr_bytes (id_table x) ++ to_le_bytes 8 (N.of_nat (size (Inbox.pending i)))) = 96%nat) as Hl
    by (by rewrite !length_app, !length_to_le_bytes, !length_arr_bytes).
  destruct (Nat.ltb_spec (length (arr_bytes (id_inbox x) ++ to_le_bytes 8 (Inbox.next_nonce i)
    ++ to_le_bytes 8 (Inbox.included_count i) ++ to_le_bytes 8 (Inbox.last_settled_ts i)
    ++ arr_bytes (id_table x) ++ to_le_bytes 8 (N.of_nat (size (Inbox.pending i))))) 48); [lia|].
  unfold slice. rewrite (app_assoc (arr_bytes _)).
  rewrite drop_app_length'; [|by rewrite length_app, length_to_le_bytes, length_arr_bytes].
  rewrite take_app_length'; [|by rewrite length_to_le_bytes].
  destruct (try_into_array 8 _) as [a|] eqn:Ha; cbn.
  - apply try_into_array_Some in Ha as <-. f_equal. by apply u64_le_roundtrip.
  - apply try_into_array_None in Ha. by rewrite length_to_le_bytes in Ha.
Qed.

Definition chain_wf (c : chain) : Prop := Settle.wf (registry c) ∧ Inbox.wf (inbox c).

(** The block's blob, and its state root when anchoring is on, are on
    chain. *)
Definition settled (enabled : bool) (h : Header) (blob : BlobId) (c : chain) : Prop :=
  Settle.commitments (registry c) !! height h = Some (arr_bytes (blob_hash blob)) ∧
  (enabled = true →
   Settle.state_roots (registry c) !! height h = Some (arr_bytes (state_root h))).

Lemma commit_state_root_spec r now sender h root r' :
  Settle.commit_state_root r now sender h root = Ok r' →
  Settle.commitments r' = Settle.commitments r ∧
  Settle.latest_height r' = Settle.latest_height r ∧
  Settle.rotation r' = Settle.rotation r ∧ h = Settle.latest_height r ∧
  Settle.state_roots r ⊆ Settle.state_roots r' ∧
  Settle.state_roots r' !! h = Some root ∧
  length root = Settle.STATE_ROOT_LEN.
Proof.
  unfold Settle.commit_state_root. intros Hc.
  apply result_bind_ok in Hc as (u & _ & Hc). apply result_bind_ok in Hc as (u1 & Hl & Hc).
  destruct u1. apply assert_ok, Nat.eqb_eq in Hl.
  apply result_bind_ok in Hc as (u2 & Hh & Hc). destruct u2.
  apply assert_ok, N.eqb_eq in Hh.
  destruct (Settle.state_roots r !! h) as [st|] eqn:Hs.
  - inv_call. subst. done.
  - injection Hc as <-; cbn. split; [done|]. split; [done|]. split; [done|]. split; [done|].
    split; [by apply insert_subseteq|]. by rewrite lookup_insert_eq.
Qed.

(** Running the settle block on the contract. *)
Lemma run_settle_block (s : Settlement PrivKey) x now h blob cursor p st :
  settle_ptb s h blob cursor = Ok p →
  (s_package s, s_registry s, s_inbox s) = (id_package x, id_registry x, id_inbox x) →
  ptb_sender p = s_sender s ∧
  run_commands x now (s_sender s) (commands p) st =
    '(r, i) ← Settle.settle_as (registry st) (inbox st) now (s_sender s)
                (arr_bytes (blob_hash blob)) (height h) (settle_block_ts (timestamp h)) cursor;
    r' ← (if s_commit_state_roots s
          then Settle.commit_state_root r now (s_sender s) (height h) (arr_bytes (state_root h))
          else Ok r);
    Ok (mk_chain r' i).
Proof using identifiers.
  unfold settle_ptb, move_call. rewrite !identifiers. cbn. intros [= <-] [= H1 H2 H3].
  rewrite H1, H2, H3. split; [done|].
  cbn -[Settle.settle_as Settle.commit_state_root settle_block_ts].
  unfold assert. rewrite bool_decide_true by done.
  cbn -[Settle.settle_as Settle.commit_state_root settle_block_ts].
  destruct (Settle.settle_as _ _ _ _ _ _ _ _) as [[r i]|]; [|done].
  cbn -[Settle.commit_state_root].
  unfold append_commit_state_root, state_root_command.
  destruct (s_commit_state_roots s); [|done]. cbn -[Settle.commit_state_root].
  unfold assert. rewrite bool_decide_true by done. cbn -[Settle.commit_state_root].
  by destruct (Settle.commit_state_root _ _ _ _ _).
Qed.

Lemma settle_block_effect (s : Settlement PrivKey) x now h blob cursor p st st' :
  settle_ptb s h blob cursor = Ok p →
  (s_package s, s_registry s, s_inbox s) = (id_package x, id_registry x, id_inbox x) →
  chain_wf st → run_commands x now (s_sender s) (commands p) st = Ok st' →
  chain_wf st' ∧ settled (s_commit_state_roots s) h blob st' ∧
  Settle.commitments (registry st) ⊆ Settle.commitments (registry st') ∧
  Settle.state_roots (registry st) ⊆ Settle.state_roots (registry st') ∧
  Inbox.included_count (inbox st) ≤ Inbox.included_count (inbox st').
Proof using identifiers.
  intros Hp Hx [Hr Hi] Hrun. destruct (run_settle_block s x now h blob cursor p st Hp Hx) as [_ He].
  rewrite He in Hrun. apply result_bind_ok in Hrun as ([r i] & Hs & Hrun).
  apply result_bind_ok in Hrun as (r' & Hc & [= <-]).
  destruct (settle_as_spec _ _ _ _ _ _ _ _ _ _ Hr Hi Hs)
    as (Hr' & Hi' & Hcom & Hsub & Hroots & Hinc & _).
  unfold chain_wf, settled; cbn. destruct (s_commit_state_roots s).
  - apply commit_state_root_spec in Hc as (E1 & E2 & _ & E4 & E5 & E6 & _).
    unfold Settle.wf in *. rewrite E1, E2. rewrite Hroots in E5. done.
  - injection Hc as <-. rewrite Hroots. done.
Qed.

Lemma rerun_settle_block (s : Settlement PrivKey) x now h blob cursor p st :
  settle_ptb s h blob cursor = Ok p →
  (s_package s, s_registry s, s_inbox s) = (id_package x, id_registry x, id_inbox x) →
  settled (s_commit_state_roots s) h blob st →
  height h = Settle.latest_height (registry st) →
  Rotation.assert_can_act (Settle.rotation (registry st)) now (s_sender s) = Ok tt →
  run_commands x now (s_sender s) (commands p) st = Ok st.
Proof using identifiers.
  intros Hp Hx [Hc Hroot] Hh Hact.
  destruct (run_settle_block s x now h blob cursor p st Hp Hx) as [_ ->].
  unfold Settle.settle_as. rewrite Hact. cbn -[Settle.do_settle Settle.commit_state_root].
  unfold Settle.do_settle. rewrite Hh, N.eqb_refl, <- Hh, Hc. cbn -[Settle.commit_state_root].
  unfold assert at 1. rewrite bool_decide_true by done. cbn -[Settle.commit_state_root].
  destruct (s_commit_state_roots s); [|by destruct st].
  unfold Settle.commit_state_root. rewrite Hact. cbn. rewrite length_arr_bytes. cbn.
  rewrite Hh, N.eqb_refl, <- Hh. cbn. rewrite (Hroot eq_refl). cbn.
  unfold assert. rewrite bool_decide_true by done. by destruct st.
Qed.


(** A commit ends in at most one execution of the settle block. *)
Lemma commit_cases (s : Settlement PrivKey) h blob tracked m r m' :
  is_u64 (Inbox.included_count (inbox (sim_chain m))) → s_inbox s = id_inbox (sim_ids m) →
  commit_with_cursor s h blob tracked m = (r, m') →
  sim_ids m' = sim_ids m ∧ sim_now m' = sim_now m ∧
  ((is_ok r = false ∧ sim_chain m' = sim_chain m) ∨
   ∃ cursor p st', settle_ptb s h blob cursor = Ok p ∧
     cursor = N.max tracked (Inbox.included_count (inbox (sim_chain m))) ∧
     run_commands (sim_ids m) (sim_now m) (ptb_sender p) (commands p) (sim_chain m) = Ok st' ∧
     sim_chain m' = st').
Proof.
  intros Hu Hid. unfold commit_with_cursor, inbox_cursor, build_settle_tx, sign_and_execute.
  run_op. destruct (next_rpc_fault m) eqn:F1; run_op; [|intros [= <- <-]; cbn; by auto..].
  unfold sim_get_object. rewrite bool_decide_true by done.
  run_op. run_op. rewrite parse_inbox_contents by done. run_op.
  destruct (settle_ptb _ _ _ _) as [p|e] eqn:Hp; run_op; [|intros [= <- <-]; cbn; by auto..].
  destruct (next_rpc_fault (pop m)) eqn:F2; run_op; [|intros [= <- <-]; cbn; by auto..].
  run_op. destruct (next_rpc_fault (pop (pop m))) eqn:F3; run_op.
  - unfold sim_execute. destruct (bool_decide _); cbn -[run_commands].
    + destruct (run_commands _ _ _ _ _) as [st|] eqn:Hrun; cbn; intros [= <- <-]; cbn.
      * do 2 (split; [done|]). right. eauto 10.
      * by auto.
    + intros [= <- <-]; cbn. by auto.
  - intros [= <- <-]; cbn. by auto.
  - unfold sim_execute. destruct (bool_decide _); cbn -[run_commands].
    + destruct (run_commands _ _ _ _ _) as [st|] eqn:Hrun; cbn; intros [= <- <-]; cbn.
      * do 2 (split; [done|]). right. eauto 10.
      * by auto.
    + intros [= <- <-]; cbn. by auto.
Qed.
End SimFacts.

#[global] Existing Instance sim_rpc.

(** The signer is set up for the chain: its object ids are the chain's and its
    sender is its key's address. *)
Definition attached {PrivKey PubKey} `{Ed25519 PrivKey PubKey} (s : Settlement PrivKey) (m : sim)
    : Prop :=
  (s_package s, s_registry s, s_inbox s)
    = (id_package (sim_ids m), id_registry (sim_ids m), id_inbox (sim_ids m)) ∧
  s_sender s = derive_address (public_key (s_key s)).

Lemma settle_ptb_sender {PrivKey} `{SuiSdk} (s : Settlement PrivKey) h blob cursor p :
  settle_ptb s h blob cursor = Ok p → ptb_sender p = s_sender s.
Proof.
  unfold settle_ptb. intros Hp. apply result_bind_ok in Hp as (c & _ & Hp). by injection Hp as <-.
Qed.

Lemma commit_spec {PrivKey PubKey} `{Ed25519 PrivKey PubKey} `{SuiSdk}
    (s : Settlement PrivKey) h blob tracked m r m' :
  (∀ i, identifier_new i = Ok i) → attached s m → chain_wf (sim_chain m) →
  commit_with_cursor s h blob tracked m = (r, m') →
  chain_wf (sim_chain m') ∧
  Settle.commitments (registry (sim_chain m)) ⊆ Settle.commitments (registry (sim_chain m')) ∧
  Settle.state_roots (registry (sim_chain m)) ⊆ Settle.state_roots (registry (sim_chain m')) ∧
  Inbox.included_count (inbox (sim_chain m)) ≤ Inbox.included_count (inbox (sim_chain m')) ∧
  (settled (s_commit_state_roots s) h blob (sim_chain m') ∨
   is_ok r = false ∧ sim_chain m' = sim_chain m).
Proof.
  intros Hid [Hatt Hkey] Hwf Hc. pose proof Hwf as [_ Hi].
  assert (is_u64 (Inbox.included_count (inbox (sim_chain m)))) as Hu.
  { destruct Hi as [H1 H2 _ _]. unfold is_u64 in *. lia. }
  injection Hatt as Hp Hr Hin.
  destruct (commit_cases s h blob tracked m r m' Hu Hin Hc)
    as (Hids & _ & [[He Hch]|(cursor & p & st' & Hptb & _ & Hrun & Hst)]).
  - rewrite Hch. split; [done|]. do 2 (split; [done|]). split; [lia|]. by right.
  - rewrite (settle_ptb_sender _ _ _ _ _ Hptb) in Hrun.
    destruct (settle_block_effect Hid s (sim_ids m) (sim_now m) h blob cursor p _ _ Hptb
                ltac:(congruence) Hwf Hrun) as (H1 & H2 & H3 & H4 & H5).
    rewrite Hst. tauto.
Qed.


(** Retrying a commit is safe.  Once the tip carries the block, committing
    it again with any tracked cursor succeeds as soon as the RPC serves, and
    never changes the chain, served or not: a retry after a lost reply or a
    crash is idempotent. *)
Theorem commit_retry_idempotent {PrivKey PubKey} `{Ed25519 PrivKey PubKey} `{SuiSdk}
    (s : Settlement PrivKey) h blob tracked m r m' :
  (∀ i, identifier_new i = Ok i) → attached s m → chain_wf (sim_chain m) →
  settled (s_commit_state_roots s) h blob (sim_chain m) →
  height h = Settle.latest_height (registry (sim_chain m)) →
  Rotation.assert_can_act (Settle.rotation (registry (sim_chain m))) (sim_now m) (s_sender s) = Ok tt →
  commit_with_cursor s h blob tracked m = (r, m') →
  sim_chain m' = sim_chain m ∧ (sim_faults m = [] → r = Ok tt).
Proof.
  intros Hid [Hatt Hkey] Hwf Hset Hh Hact Hc. pose proof Hwf as [_ Hi].
  assert (is_u64 (Inbox.included_count (inbox (sim_chain m)))) as Hu.
  { destruct Hi as [H1 H2 _ _]. unfold is_u64 in *. lia. }
  assert (s_inbox s = id_inbox (sim_ids m)) as Hin by congruence.
  split.
  - destruct (commit_cases s h blob tracked m r m' Hu Hin Hc)
      as (_ & _ & [[_ Hch]|(cursor & p & st' & Hptb & _ & Hrun & Hst)]); [done|].
    rewrite (settle_ptb_sender _ _ _ _ _ Hptb) in Hrun.
    rewrite (rerun_settle_block Hid s (sim_ids m) (sim_now m) h blob cursor p) in Hrun by done.
    congruence.
  - intros Hf. revert Hc.
    unfold commit_with_cursor, inbox_cursor, build_settle_tx, sign_and_execute.
    run_op. unfold next_rpc_fault. rewrite Hf. run_op. unfold sim_get_object.
    rewrite bool_decide_true by done. run_op. run_op. rewrite parse_inbox_contents by done. run_op.
    destruct (settle_ptb s h blob _) as [p|e] eqn:Hptb; run_op.
    2:{ unfold settle_ptb, move_call in Hptb. by rewrite !Hid in Hptb. }
    rewrite Hf. run_op. run_op. rewrite Hf. run_op. unfold sim_execute; cbn -[run_commands].
    pose proof (settle_ptb_sender _ _ _ _ _ Hptb) as Hsend.
    rewrite bool_decide_true by congruence. rewrite Hsend.
    rewrite (rerun_settle_block Hid s (sim_ids m) (sim_now m) h blob _ p) by done.
    cbn. by intros [= <- _].
Qed.

Section CommitWitness.
Import Codec.Demo.
Definition demo_settlement : Settlement (array 32) :=
  mk_Settlement (array_fill 32 x01) (array_fill 32 x01) (array_fill 32 x0a) (array_fill 32 x0b)
    (array_fill 32 x0c) (array_fill 32 x0d) "http://sui" true.
Definition demo_sim (fs : list rpc_fault) : sim :=
  mk_sim (mk_ids (array_fill 32 x0a) (array_fill 32 x0c) (array_fill 32 x0d) (array_fill 32 x0e))
    (mk_chain registry0 inbox0) 5 fs.
Definition demo_header : Header := mk_Header 1 (array_fill 32 x00) (array_fill 32 x07) 300.
Definition demo_blob : BlobId := mk_BlobId (array_fill 32 x42).

Lemma demo_ids (i : string) : identifier_new i = Ok i.
Proof. reflexivity. Qed.
Lemma demo_wf fs : chain_wf (sim_chain (demo_sim fs)).
Proof. split; [apply registry0_wf|apply inbox0_wf]. Qed.

(** A reply lost after the settle ran, and the retry. *)
Definition demo_commit (m : sim) : result SettlementError unit * sim :=
  commit_with_cursor demo_settlement demo_header demo_blob 0 m.
Definition demo_lost : sim := (demo_commit (demo_sim [Served; Served; ReplyLost])).2.

Lemma demo_lost_settled : settled true demo_header demo_blob (sim_chain demo_lost).
Proof. split; [|intros _]; vm_compute; reflexivity. Qed.

Lemma demo_attached fs : attached demo_settlement (demo_sim fs).
Proof. by split. Qed.
Lemma demo_lost_attached : attached demo_settlement demo_lost.
Proof. split; [vm_compute|]; reflexivity. Qed.

Lemma demo_lost_wf : chain_wf (sim_chain demo_lost).
Proof.
  destruct (demo_commit (demo_sim [Served; Served; ReplyLost])) as [r m'] eqn:Hc.
  replace demo_lost with m' by (unfold demo_lost; by rewrite Hc).
  exact (proj1 (commit_spec demo_settlement demo_header demo_blob 0 _ r m' demo_ids
           (demo_attached _) (demo_wf _) Hc)).
Qed.


Lemma commit_retry_idempotent_witness :
  sim_chain (demo_commit demo_lost).2 = sim_chain demo_lost ∧ (demo_commit demo_lost).1 = Ok tt.
Proof.
  destruct (demo_commit demo_lost) as [r m'] eqn:Hc.
  destruct (commit_retry_idempotent demo_settlement demo_header demo_blob 0 demo_lost r m'
              demo_ids demo_lost_attached demo_lost_wf demo_lost_settled
              eq_refl eq_refl Hc) as [H1 H2].
  exact (conj H1 (H2 eq_refl)).
Defined.
End CommitWitness.

