(* ===== verification/SuiInbox.v ===== *)
(** [crates/sui/src/{inbox,state_root,peers}.rs]: typed readers over Sui
    objects, reached through the transport trait, and the window-change
    transactions. *)

From S2P Require Import Prelude Text Codec Disk Core Wire Contract Sui.
Local Open Scope string_scope.
Local Open Scope list_scope.
Local Open Scope N_scope.

(** ** Errors and the transport *)

Inductive InboxError :=
| InboxRpc (msg : string)
| InboxNotFound (msg : string)
| InboxParse (msg : string).
#[global] Instance InboxError_eq_dec : EqDecision InboxError.
Proof. solve_decision. Defined.
Definition inbox_error_text (e : InboxError) : string :=
  match e with
  | InboxRpc m => "rpc error: " +:+ m
  | InboxNotFound m => "object not found: " +:+ m
  | InboxParse m => "parse error: " +:+ m
  end.

(** The read boundary the readers are written against. *)
Class InboxTransport (W : Type) := {
  tr_object_contents : Address → M W InboxError (list byte);
  tr_field_contents : Address → N → M W InboxError (option (list byte))
}.

(** The production transport reads through [Sui]'s helpers; the error text
    tells a missing object from a failed call. *)
Section SuiTransport.
Context {W PrivKey Tx TxSig : Type} `{SuiSdk} `{SuiRpc W PrivKey Tx TxSig} (url : string).

Definition classify_read_error (e : SettlementError) : InboxError :=
  match e with
  | Execution msg =>
      if str_contains "not found" msg || str_contains "no contents" msg then InboxNotFound msg
      else InboxRpc (settlement_error_text e)
  | _ => InboxRpc (settlement_error_text e)
  end.

Definition SuiInboxTransport : InboxTransport W := {|
  tr_object_contents id := errM classify_read_error (object_contents url id "inbox");
  tr_field_contents table key :=
    errM (λ e, InboxRpc (settlement_error_text e)) (field_contents url table key)
|}.
End SuiTransport.

(** ** Inbox status and pending transactions *)

Record InboxStatus := mk_InboxStatus {
  next_nonce : N;
  included_count : N;
  last_settled_ts : N;
  pending_table_uid : Address
}.
Record PendingTx := mk_PendingTx { deadline_ms : N; tx_bytes : list byte }.
#[global] Instance PendingTx_eq_dec : EqDecision PendingTx.
Proof. solve_decision. Defined.

Definition InboxBcs : Type := Address * N * N * N * TableBcs.
Definition FieldPendingBcs : Type := Address * N * (N * list byte).
Definition FieldU64Bcs : Type := Address * N.
Definition FieldWindowBcs : Type := Address * (N * N).

Definition parse_inbox_status `{Bcs InboxBcs} (contents : list byte)
    : result InboxError InboxStatus :=
  i ← map_err (λ e, InboxParse ("inbox BCS: " +:+ e)) (bcs_from_bytes contents : result _ InboxBcs);
  let '(_, next, included, ts, (table, _)) := i in
  Ok (mk_InboxStatus next included ts table).

Definition parse_pending_tx `{Bcs FieldPendingBcs} (field_bcs : list byte)
    : result InboxError PendingTx :=
  f ← map_err (λ e, InboxParse ("pending-tx field BCS: " +:+ e))
        (bcs_from_bytes field_bcs : result _ FieldPendingBcs);
  let '(_, _, (deadline, bytes)) := f in
  if bool_decide (bytes = []) then Err (InboxParse "pending transaction has empty tx_bytes")
  else Ok (mk_PendingTx deadline bytes).

(** ** The inclusion window *)

Definition DEFAULT_WINDOW_MS : N := 600000.
Definition MIN_WINDOW_MS : N := 60000.
Definition MAX_WINDOW_MS : N := 3600000.
Definition MIN_WIDEN_DELAY_MS : N := 600000.
Definition MAX_WIDEN_DELAY_MS : N := 604800000.
Definition WINDOW_KEY_BCS : list byte := [].

Record PendingWindow := mk_PendingWindow { new_window_ms : N; effective_at_ms : N }.
Record WindowView := mk_WindowView {
  override_ms : option N;
  view_pending : option PendingWindow;
  effective_ms : N
}.

(** The type tag [<package>::<module>::<name>] of a dynamic-field key. *)
Definition key_type_tag `{SuiSdk} (package : Address) (m name : string) : string :=
  address_to_hex package +:+ "::" +:+ m +:+ "::" +:+ name.
Definition window_field_id `{SuiSdk} (inbox package : Address) : Address :=
  derive_dynamic_child_id inbox (key_type_tag package "inbox" "WindowKey") WINDOW_KEY_BCS.
Definition pending_window_field_id `{SuiSdk} (inbox package : Address) : Address :=
  derive_dynamic_child_id inbox (key_type_tag package "inbox" "PendingWindowKey") WINDOW_KEY_BCS.

Definition parse_window_override `{Bcs FieldU64Bcs} (field_bcs : list byte) : result InboxError N :=
  f ← map_err (λ e, InboxParse ("window field BCS: " +:+ e))
        (bcs_from_bytes field_bcs : result _ FieldU64Bcs);
  let '(_, value) := f in Ok value.
Definition parse_pending_window `{Bcs FieldWindowBcs} (field_bcs : list byte)
    : result InboxError PendingWindow :=
  f ← map_err (λ e, InboxParse ("pending-window field BCS: " +:+ e))
        (bcs_from_bytes field_bcs : result _ FieldWindowBcs);
  let '(_, (w, at_ms)) := f in Ok (mk_PendingWindow w at_ms).

Definition effective_window_ms (override : option N) (pending : option PendingWindow) (now : N) : N :=
  match pending with
  | Some staged => if effective_at_ms staged <=? now then new_window_ms staged
                   else default DEFAULT_WINDOW_MS override
  | None => default DEFAULT_WINDOW_MS override
  end.

Definition validate_window_change (new_window delay : N) : result SettlementError unit :=
  if negb ((MIN_WINDOW_MS <=? new_window) && (new_window <=? MAX_WINDOW_MS)) then
    Err (Parse ("window " +:+ fmt_dec new_window +:+ " ms outside [" +:+ fmt_dec MIN_WINDOW_MS
                +:+ ", " +:+ fmt_dec MAX_WINDOW_MS +:+ "]"))
  else if negb (delay =? 0)
          && negb ((MIN_WIDEN_DELAY_MS <=? delay) && (delay <=? MAX_WIDEN_DELAY_MS)) then
    Err (Parse ("widening delay " +:+ fmt_dec delay +:+ " ms outside ["
                +:+ fmt_dec MIN_WIDEN_DELAY_MS +:+ ", " +:+ fmt_dec MAX_WIDEN_DELAY_MS
                +:+ "] (0 = narrowing)"))
  else Ok tt.

(** ** The reader *)

(** A dynamic field that may be absent: [NotFound] is [None], every other
    error propagates. *)
Definition optional_field {W A} (read : M W InboxError (list byte))
    (parse : list byte → result InboxError A) : M W InboxError (option A) := λ w,
  match read w with
  | (Ok bytes, w') => (Some <$> parse bytes, w')
  | (Err (InboxNotFound _), w') => (Ok None, w')
  | (Err e, w') => (Err e, w')
  end.

Section Reader.
Context {W : Type} `{InboxTransport W} `{SuiSdk}.
Context `{Bcs InboxBcs} `{Bcs FieldPendingBcs} `{Bcs FieldU64Bcs} `{Bcs FieldWindowBcs}.

Record InboxReader := mk_InboxReader { reader_inbox : Address }.

Definition status (r : InboxReader) : M W InboxError InboxStatus :=
  bytes ← tr_object_contents (reader_inbox r); lift (parse_inbox_status bytes).

Definition reader_next_nonce (r : InboxReader) : M W InboxError N :=
  next_nonce <$> status r.

Definition pending_at (r : InboxReader) (nonce : N) : M W InboxError (option PendingTx) :=
  s ← status r;
  o ← tr_field_contents (pending_table_uid s) nonce;
  match o with
  | None => mret None
  | Some bytes => Some <$> lift (parse_pending_tx bytes)
  end.

Definition window (r : InboxReader) (package : Address) (now : N) : M W InboxError WindowView :=
  override ← optional_field (tr_object_contents (window_field_id (reader_inbox r) package))
               parse_window_override;
  pending ← optional_field (tr_object_contents (pending_window_field_id (reader_inbox r) package))
              parse_pending_window;
  mret (mk_WindowView override pending (effective_window_ms override pending now)).
End Reader.

(** ** Window-change transactions *)

Section WindowTx.
Context {W PrivKey PubKey Tx TxSig : Type} `{Ed25519 PrivKey PubKey} `{SuiSdk}
  `{SuiRpc W PrivKey Tx TxSig}.

(** [rotation::submit_rotation_tx]: the [build] closure appends the
    commands. *)
Definition submit_rotation_tx (url : string) (key : PrivKey) (label : string)
    (cmds : list command) : M W SettlementError unit :=
  let sender := derive_address (public_key key) in
  connect url;;
  tx ← errM (λ e, Build (label +:+ ": " +:+ e)) (rpc_build url (mk_ptb cmds sender));
  connect url;;
  sign_and_execute url key tx label DEPLOY_TX_WAIT;;
  mret tt.

Record WindowTargets := mk_WindowTargets {
  wt_package : Address; wt_registry : Address; wt_inbox : Address; wt_ops_cap : Address
}.

Definition submit_window_change (url : string) (key : PrivKey) (t : WindowTargets)
    (new_window delay : N) : M W SettlementError unit :=
  lift (validate_window_change new_window delay);;
  submit_rotation_tx url key "window change"
    [MoveCall (wt_package t) "settlement" "request_window_change" []
       [AObj (wt_registry t); AObj (wt_inbox t); AObj SUI_CLOCK_ID; APure (PU64 new_window);
        APure (PU64 delay); AObj (wt_ops_cap t)]].

Definition submit_cancel_window_change (url : string) (key : PrivKey) (t : WindowTargets)
    : M W SettlementError unit :=
  submit_rotation_tx url key "window cancel"
    [MoveCall (wt_package t) "settlement" "cancel_window_change" []
       [AObj (wt_registry t); AObj (wt_inbox t); AObj (wt_ops_cap t)]].
End WindowTx.

(** ** Anchored state roots *)

Definition STATE_ROOT_LEN : nat := 32.

Definition validate_state_root (root : list byte) : result InboxError unit :=
  if Nat.eqb (length root) STATE_ROOT_LEN then Ok tt
  else Err (InboxParse ("state root must be 32 bytes, got " +:+ fmt_dec (N.of_nat (length root)))).

Definition state_root_field_id `{SuiSdk} (registry package : Address) (h : N) : Address :=
  derive_dynamic_child_id registry (key_type_tag package "settlement" "StateRootKey")
    (to_le_bytes 8 h).

Definition parse_state_root_field `{Bcs FieldBlobBcs} (field_bcs : list byte)
    : result InboxError (array 32) :=
  f ← map_err (λ e, InboxParse ("state-root field BCS: " +:+ e))
        (bcs_from_bytes field_bcs : result _ FieldBlobBcs);
  let '(_, _, value) := f in
  ok_or (try_into_array 32 value)
    (InboxParse ("state root must be 32 bytes, got " +:+ fmt_dec (N.of_nat (length value)))).

Definition state_root_at {W} `{InboxTransport W} `{SuiSdk} `{Bcs FieldBlobBcs}
    (registry package : Address) (h : N) : M W InboxError (option (array 32)) :=
  optional_field (tr_object_contents (state_root_field_id registry package h))
    parse_state_root_field.

(** ** The published committee *)

Definition PEER_KEY_BCS : list byte := [].
Definition peer_book_field_id `{SuiSdk} (parent package : Address) : Address :=
  derive_dynamic_child_id parent (key_type_tag package "settlement" "PeerKey") PEER_KEY_BCS.

Record PublishedPeer := mk_peer { peer_pubkey : array 32; peer_addr : string }.
Record PeerBookSnapshot := mk_book { book_version : N; book_peers : list PublishedPeer }.
Definition FieldBookBcs : Type := Address * (N * list (list byte * string)).

Definition parse_peer (e : list byte * string) : result SettlementError PublishedPeer :=
  key ← ok_or (try_into_array 32 e.1)
          (Parse ("peer identity must be 32 bytes, got " +:+ fmt_dec (N.of_nat (length e.1))));
  Ok (mk_peer key e.2).

Definition parse_peer_book `{Bcs FieldBookBcs} (field_bcs : list byte)
    : result SettlementError PeerBookSnapshot :=
  f ← map_err (λ e, Parse ("peer book BCS: " +:+ e)) (bcs_from_bytes field_bcs : result _ FieldBookBcs);
  let '(_, (version, entries)) := f in
  peers ← mapM parse_peer entries;
  Ok (mk_book version peers).

Definition peer_book_snapshot {W} `{InboxTransport W} `{SuiSdk} `{Bcs FieldBookBcs}
    (registry package : Address) : M W InboxError PeerBookSnapshot := λ w,
  match tr_object_contents (peer_book_field_id registry package) w with
  | (Err (InboxNotFound _), w') => (Ok (mk_book 0 []), w')
  | (Err e, w') => (Err e, w')
  | (Ok bytes, w') => (map_err (λ e, InboxParse (settlement_error_text e)) (parse_peer_book bytes), w')
  end.

Section PeerTx.
Context {W PrivKey PubKey Tx TxSig : Type} `{Ed25519 PrivKey PubKey} `{SuiSdk}
  `{SuiRpc W PrivKey Tx TxSig}.
Definition submit_publish_peer (url : string) (key : PrivKey) (package registry : Address)
    (pubkey : array 32) (addr : string) : M W SettlementError unit :=
  c ← lift (move_call package "settlement" "publish_peer" []
              [AObj registry; AObj SUI_CLOCK_ID; APure (PBytes (arr_bytes pubkey));
               APure (PBytes (string_bytes addr))]);
  submit_rotation_tx url key "publish peer" [c].
End PeerTx.

(** ** Properties *)

(** What the reader finds on an inbox object: the two dynamic fields. *)
Definition mirror (p : option Inbox.PendingWindow) : option PendingWindow :=
  (λ p, mk_PendingWindow (Inbox.new_window_ms p) (Inbox.effective_at_ms p)) <$> p.

(** The client's window is the contract's.  Read from the fields of any
    inbox, [effective_window_ms] is what [submit] charges at the same consensus
    time, so a deadline the client predicts is the deadline the contract
    stamps. *)
Theorem effective_window_mirrors_contract i now bytes i' :
  Inbox.submit i now bytes = Ok i' →
  ∃ p, Inbox.pending i' !! Inbox.next_nonce i = Some p ∧
       Inbox.deadline_ms p = now + effective_window_ms (Inbox.window i) (mirror (Inbox.pending_window i)) now.
Proof.
  intros H. unfold Inbox.submit in H. inv_call. eexists. cbn. rewrite lookup_insert_eq.
  split; [done|]. cbn. f_equal. unfold effective_window_ms, mirror, Inbox.effective_window_ms.
  destruct (Inbox.pending_window i); cbn; [case_match|]; by destruct (Inbox.window i).
Qed.

Lemma effective_window_mirrors_contract_witness :
  match Inbox.submit inbox0 7000 [x02] with
  | Ok i' => ∃ p, Inbox.pending i' !! 1 = Some p ∧
       Inbox.deadline_ms p = 7000 + effective_window_ms (Inbox.window inbox0)
                                      (mirror (Inbox.pending_window inbox0)) 7000
  | Err _ => False
  end.
Proof.
  destruct (Inbox.submit inbox0 7000 [x02]) as [i'|] eqn:H; [|by vm_compute in H].
  exact (effective_window_mirrors_contract inbox0 7000 [x02] i' H).
Defined.

(** Client-side validation is exact up to the case only the chain can tell.
    A window change the contract would refuse for its bounds is refused before
    submission, except a widening sent with the delay 0 that means a narrowing;
    and what the client accepts fails on chain only for that reason or for
    clock overflow. *)
Theorem validate_window_change_sound i now w d :
  match validate_window_change w d with
  | Err _ =>
      is_ok (Inbox.stage_window_change i w d now) = false ∨
      (w ≤ Inbox.effective_window_ms i now ∧ d ≠ 0 ∧ ¬ MIN_WIDEN_DELAY_MS ≤ d ≤ MAX_WIDEN_DELAY_MS)
  | Ok _ =>
      match Inbox.stage_window_change i w d now with
      | Ok _ => True
      | Err e => Inbox.effective_window_ms i now < w ∧
                 (e = ArithmeticError ∨ e = Abort Inbox.E_DELAY_OUT_OF_BOUNDS ∧ d = 0)
      end
  end.
Proof.
  unfold validate_window_change, Inbox.stage_window_change, assert.
  change Inbox.MIN_WINDOW_MS with MIN_WINDOW_MS. change Inbox.MAX_WINDOW_MS with MAX_WINDOW_MS.
  change Inbox.MIN_WIDEN_DELAY_MS with MIN_WIDEN_DELAY_MS.
  change Inbox.MAX_WIDEN_DELAY_MS with MAX_WIDEN_DELAY_MS.
  destruct ((MIN_WINDOW_MS <=? w) && (w <=? MAX_WINDOW_MS)); cbn -[N.leb N.eqb fmt_dec]; [|by left].
  destruct (N.leb_spec w (Inbox.effective_window_ms i now)) as [Hw|Hw];
    destruct (N.eqb_spec d 0) as [Hd|Hd]; cbn -[N.leb fmt_dec]; try done.
  - destruct (N.leb_spec MIN_WIDEN_DELAY_MS d), (N.leb_spec d MAX_WIDEN_DELAY_MS);
      cbn -[fmt_dec]; try done; right; repeat split; try done; lia.
  - subst d. change (MIN_WIDEN_DELAY_MS <=? 0) with false. cbn. split; [done|]. by right.
  - destruct ((MIN_WIDEN_DELAY_MS <=? d) && (d <=? MAX_WIDEN_DELAY_MS)); cbn -[fmt_dec]; [|by left].
    unfold mv_add. destruct (checked_add now d); cbn; [done|]. split; [done|]. by left.
Qed.

(** An unreadable field is never taken for an absent one.  The optional
    reads behind the window, the anchored state roots and the published
    committee answer [None] (or the empty book) exactly when the transport says
    the object does not exist; any other failure is an error. *)
Theorem absent_only_when_not_found {W} `{InboxTransport W} `{SuiSdk} `{Bcs FieldBlobBcs}
    `{Bcs FieldBookBcs} registry package h w :
  ((state_root_at registry package h w).1 = Ok None ↔
     ∃ m, (tr_object_contents (state_root_field_id registry package h) w).1 = Err (InboxNotFound m)) ∧
  (∀ e, (tr_object_contents (peer_book_field_id registry package) w).1 = Err e →
        is_ok (peer_book_snapshot registry package w).1 = true → ∃ m, e = InboxNotFound m).
Proof.
  split.
  - unfold state_root_at, optional_field. destruct (tr_object_contents _ w) as [[bs|[]] w']; cbn;
      [|naive_solver..]. split; [|by intros []]. by destruct (parse_state_root_field bs).
  - intros e. unfold peer_book_snapshot. destruct (tr_object_contents _ w) as [[bs|[]] w']; cbn;
      intros [= <-]; naive_solver.
Qed.

