(* ===== verification/Deadline.v ===== *)
(** [crates/sui/src/deadline.rs]: the sequencer-independent halt check, and its
    soundness on a chain that keeps moving while it is read. *)

From S2P Require Import Prelude Text Codec Disk Core Wire Contract Sui SuiInbox.
Local Open Scope string_scope.
Local Open Scope list_scope.
Local Open Scope N_scope.

Definition DEFAULT_MARGIN_MS : N := 1000.

Inductive DeadlineStatus :=
| Active
| Halted (nonce deadline_ms : N)
| Violated (nonce deadline_ms settled_ts_ms : N).
#[global] Instance DeadlineStatus_eq_dec : EqDecision DeadlineStatus.
Proof. solve_decision. Defined.

Definition is_halted (s : DeadlineStatus) : bool :=
  match s with Halted _ _ | Violated _ _ _ => true | Active => false end.

Inductive DeadlineError :=
| DInbox (e : InboxError)
| DInboxId (msg : string)
| InconsistentSnapshot (attempts : nat).

Definition classify (now margin : N) (inbox : InboxStatus) (oldest : option PendingTx)
    : DeadlineStatus :=
  match oldest with
  | None => Active
  | Some tx =>
      let nonce := included_count inbox in
      let grace := sat_add (deadline_ms tx) margin in
      if now <=? grace then Active
      else if last_settled_ts inbox <=? deadline_ms tx then Halted nonce (deadline_ms tx)
      else Violated nonce (deadline_ms tx) (last_settled_ts inbox)
  end.

Definition ClockBcs : Type := Address * N.
Definition parse_clock `{Bcs ClockBcs} (contents : list byte) : result InboxError N :=
  c ← map_err (λ e, InboxParse ("clock BCS: " +:+ e)) (bcs_from_bytes contents : result _ ClockBcs);
  let '(_, ts) := c in Ok ts.

Section Monitor.
Context {W : Type} `{InboxTransport W}.
Context `{Bcs InboxBcs} `{Bcs FieldPendingBcs} `{Bcs ClockBcs}.

Record DeadlineMonitor := mk_monitor { mon_inbox : Address; margin_ms : N }.
Definition CONFIRM_LIMIT : nat := 3.

Definition read_snapshot (m : DeadlineMonitor)
    : M W DeadlineError (InboxStatus * N * option PendingTx) :=
  inbox_bytes ← errM DInbox (tr_object_contents (mon_inbox m));
  inbox ← lift (map_err DInbox (parse_inbox_status inbox_bytes));
  clock_bytes ← errM DInbox (tr_object_contents SUI_CLOCK_ID);
  now ← lift (map_err DInbox (parse_clock clock_bytes));
  field ← errM DInbox (tr_field_contents (pending_table_uid inbox) (included_count inbox));
  oldest ← match field with
           | None => mret None
           | Some bytes => Some <$> lift (map_err DInbox (parse_pending_tx bytes))
           end;
  mret (inbox, now, oldest).

Definition confirm_unchanged (m : DeadlineMonitor) (read : InboxStatus) : M W DeadlineError bool :=
  bytes ← errM DInbox (tr_object_contents (mon_inbox m));
  confirm ← lift (map_err DInbox (parse_inbox_status bytes));
  mret ((included_count confirm =? included_count read)
        && (last_settled_ts confirm =? last_settled_ts read)).

Fixpoint status_attempts (attempts : nat) (m : DeadlineMonitor) : M W DeadlineError DeadlineStatus :=
  match attempts with
  | O => throw (InconsistentSnapshot CONFIRM_LIMIT)
  | S attempts =>
      '(inbox, now, oldest) ← read_snapshot m;
      let status := classify now (margin_ms m) inbox oldest in
      if negb (is_halted status) then mret status
      else
        ok ← confirm_unchanged m inbox;
        if (ok : bool) then mret status else status_attempts attempts m
  end.
Definition status (m : DeadlineMonitor) : M W DeadlineError DeadlineStatus :=
  status_attempts CONFIRM_LIMIT m.
End Monitor.

Definition monitor_from_config `{SuiSdk} (inbox_id : string) (margin : N)
    : result DeadlineError DeadlineMonitor :=
  inbox ← map_err (λ _ : string, DInboxId ("invalid sui.inbox_id: " +:+ inbox_id))
            (address_from_str inbox_id);
  Ok (mk_monitor inbox margin).

(** ** A chain that moves between reads *)

Module Env.
(** One on-chain event: a submission, an accepted settle, a window change, or
    time passing. *)
Inductive event :=
| Submit (bytes : list byte)
| SettleTo (block_ts cursor : N)
| Stage (new_window delay : N)
| Tick (ms : N).

Record t := mk {
  inbox_id : Address;
  table_id : Address;
  inbox : Inbox.Inbox;
  now : N;
  script : list (list event)
}.

Definition on_inbox (e : t) (c : call Inbox.Inbox) : t :=
  match c with Ok i => mk (inbox_id e) (table_id e) i (now e) (script e) | Err _ => e end.
(** An aborted call has no effect. *)
Definition apply (e : t) (ev : event) : t :=
  match ev with
  | Submit bytes => on_inbox e (Inbox.submit (inbox e) (now e) bytes)
  | SettleTo ts c => on_inbox e (Inbox.enforce_settle (inbox e) ts c)
  | Stage w d => on_inbox e (Inbox.stage_window_change (inbox e) w d (now e))
  | Tick ms => mk (inbox_id e) (table_id e) (inbox e) (now e + ms) (script e)
  end.
(** Before each read the next batch of events happens. *)
Definition advance (e : t) : t :=
  let e' := foldl apply e (default [] (head (script e))) in
  mk (inbox_id e') (table_id e') (inbox e') (now e') (tail (script e)).

#[global] Arguments advance : simpl never.

Section transport.
Context `{Bcs InboxBcs} `{Bcs FieldPendingBcs} `{Bcs ClockBcs}.
Definition inbox_bcs (e : t) : InboxBcs :=
  (inbox_id e, Inbox.next_nonce (inbox e), Inbox.included_count (inbox e),
   Inbox.last_settled_ts (inbox e), (table_id e, N.of_nat (size (Inbox.pending (inbox e))))).
Definition field_bcs (id : Address) (key : N) (p : Inbox.PendingTx) : FieldPendingBcs :=
  (id, key, (Inbox.deadline_ms p, Inbox.tx_bytes p)).

Definition read_object (id : Address) (e : t) : result InboxError (list byte) :=
  if bool_decide (id = inbox_id e) then map_err InboxRpc (bcs_to_bytes (inbox_bcs e))
  else if bool_decide (id = SUI_CLOCK_ID) then
    map_err InboxRpc (bcs_to_bytes ((SUI_CLOCK_ID, now e) : ClockBcs))
  else Err (InboxNotFound "no object").
Definition read_field (table : Address) (key : N) (e : t) : result InboxError (option (list byte)) :=
  if bool_decide (table = table_id e) then
    match Inbox.pending (inbox e) !! key with
    | None => Ok None
    | Some p => Some <$> map_err InboxRpc (bcs_to_bytes (field_bcs table key p))
    end
  else Ok None.
#[export] Instance transport : InboxTransport t := {|
  tr_object_contents id := λ e, let e' := advance e in (read_object id e', e');
  tr_field_contents table key := λ e, let e' := advance e in (read_field table key e', e')
|}.
End transport.
End Env.

Module EnvFacts.
Import Env.
Section facts.
Implicit Types (e : t).

(** What never goes back as the chain moves. *)
Record grows e e' : Prop := {
  g_ids : inbox_id e' = inbox_id e ∧ table_id e' = table_id e;
  g_wf : Inbox.wf (inbox e) → Inbox.wf (inbox e');
  g_now : now e ≤ now e';
  g_count : Inbox.wf (inbox e) → Inbox.included_count (inbox e) ≤ Inbox.included_count (inbox e');
  g_ts : Inbox.wf (inbox e) → Inbox.last_settled_ts (inbox e) ≤ Inbox.last_settled_ts (inbox e');
  (** a pending entry stays as it was until the cursor passes it *)
  g_pending n p : Inbox.wf (inbox e) → Inbox.pending (inbox e) !! n = Some p →
    Inbox.included_count (inbox e') ≤ n → Inbox.pending (inbox e') !! n = Some p
}.

Lemma grows_refl e : grows e e.
Proof. by split. Qed.
Lemma grows_trans e1 e2 e3 : grows e1 e2 → grows e2 e3 → grows e1 e3.
Proof.
  intros [[A1 A1'] A2 A3 A4 A5 A6] [[B1 B1'] B2 B3 B4 B5 B6].
  split; [split; congruence|auto|lia| | |].
  - intros Hw. etrans; [by apply A4|]. by apply B4, A2.
  - intros Hw. etrans; [by apply A5|]. by apply B5, A2.
  - intros n p Hw Hp Hn. apply B6; [by apply A2| |done]. apply A6; [done|done|].
    specialize (B4 (A2 Hw)). lia.
Qed.

Lemma apply_grows e ev : grows e (apply e ev).
Proof.
  destruct ev as [bs|ts c|w d|ms]; cbn.
  - destruct (Inbox.submit _ _ _) as [i|] eqn:H; [|apply grows_refl]. cbn.
    pose proof H as Hs. unfold Inbox.submit in H. inv_call. split; cbn; try done.
    + by intros Hw; eapply InboxContract.submit_wf.
    + intros n p Hw Hp _. rewrite lookup_insert_ne; [done|]. intros <-. congruence.
  - destruct (Inbox.enforce_settle _ _ _) as [i|] eqn:H; [|apply grows_refl]. cbn.
    assert (Inbox.wf (inbox e) → InboxContract.settles (inbox e) ts c ∧ Inbox.wf i ∧
      i = Inbox.mk_Inbox (Inbox.next_nonce (inbox e)) c ts (InboxContract.remaining (inbox e) c)
            (Inbox.window (inbox e)) (Inbox.pending_window (inbox e))) as Hs.
    { intros Hw. pose proof (InboxContract.enforce_settle_spec (inbox e) ts c Hw) as Hs.
      by rewrite H in Hs. }
    split; cbn; try done.
    + intros Hw. by apply Hs.
    + intros Hw. destruct (Hs Hw) as ((? & ? & ?) & ? & ->); cbn. lia.
    + intros Hw. destruct (Hs Hw) as ((? & ? & ?) & ? & ->); cbn. lia.
    + intros n p Hw Hp. destruct (Hs Hw) as ((? & ? & ?) & ? & ->); cbn. intros Hn.
      by apply map_lookup_filter_Some_2.
  - destruct (Inbox.stage_window_change _ _ _ _) as [i|] eqn:H; [|apply grows_refl]. cbn.
    pose proof H as Hs. unfold Inbox.stage_window_change in H.
    split; cbn; try done; [by intros Hw; eapply InboxContract.stage_wf|..];
      inv_call; cbn; done.
  - split; cbn; try done. lia.
Qed.

Lemma foldl_grows evs e : grows e (foldl apply e evs).
Proof.
  revert e. induction evs as [|ev evs IH]; intros e; cbn; [apply grows_refl|].
  eapply grows_trans; [apply apply_grows|apply IH].
Qed.
Lemma advance_grows e : grows e (advance e).
Proof.
  unfold advance. destruct (foldl_grows (default [] (head (script e))) e) as [].
  by split.
Qed.

Context `{BcsLaws InboxBcs} `{!Bcs FieldPendingBcs, !BcsLaws FieldPendingBcs}
  `{!Bcs ClockBcs, !BcsLaws ClockBcs}.

(** What one status read of the inbox object sees. *)
Definition snapshot_of (e : t) (s : InboxStatus) : Prop :=
  s = mk_InboxStatus (Inbox.next_nonce (inbox e)) (Inbox.included_count (inbox e))
        (Inbox.last_settled_ts (inbox e)) (table_id e).

Lemma parse_inbox_bcs e bs :
  bcs_to_bytes (inbox_bcs e) = Ok bs →
  ∃ s, parse_inbox_status bs = Ok s ∧ snapshot_of e s.
Proof.
  intros Hb. unfold parse_inbox_status. rewrite (bcs_decode_encode _ _ Hb). by eexists.
Qed.

Definition to_client (p : Inbox.PendingTx) : PendingTx :=
  mk_PendingTx (Inbox.deadline_ms p) (Inbox.tx_bytes p).

Lemma parse_pending_bcs id key p bs :
  Inbox.tx_bytes p ≠ [] → bcs_to_bytes (field_bcs id key p) = Ok bs →
  parse_pending_tx bs = Ok (to_client p).
Proof.
  intros Hne Hb. unfold parse_pending_tx. rewrite (bcs_decode_encode _ _ Hb). cbn.
  by rewrite bool_decide_false.
Qed.

Lemma read_snapshot_spec m e ib now' old e3 :
  mon_inbox m = inbox_id e → inbox_id e ≠ SUI_CLOCK_ID → Inbox.wf (inbox e) →
  read_snapshot m e = (Ok (ib, now', old), e3) →
  let e1 := advance e in let e2 := advance e1 in
  e3 = advance e2 ∧ snapshot_of e1 ib ∧ now' = now e2 ∧
  old = to_client <$> Inbox.pending (inbox e3) !! Inbox.included_count (inbox e1).
Proof.
  intros Hm Hclock Hwf Hr e1 e2. unfold read_snapshot in Hr.
  destruct (advance_grows e) as [[Hid1 Ht1] Hw1 _ _ _ _]. fold e1 in Hid1, Ht1, Hw1.
  destruct (advance_grows e1) as [[Hid2 Ht2] Hw2 _ _ _ _]. fold e2 in Hid2, Ht2, Hw2.
  destruct (advance_grows e2) as [[Hid3 Ht3] Hw3 _ _ _ _].
  apply bind_ok_inv in Hr as (bs & w1 & H1 & Hr). unfold errM in H1. cbn in H1. fold e1 in H1.
  injection H1 as H1 <-. unfold read_object in H1. rewrite bool_decide_true in H1 by congruence.
  destruct (bcs_to_bytes (inbox_bcs e1)) as [bs'|] eqn:Hb1; cbn in H1; [|done].
  injection H1 as ->. destruct (parse_inbox_bcs e1 bs Hb1) as (s1 & Hs1 & Hsn).
  apply bind_ok_inv in Hr as (s & w1' & H2 & Hr). unfold lift in H2. rewrite Hs1 in H2.
  cbn in H2. injection H2 as <- <-.
  apply bind_ok_inv in Hr as (cb & w2 & H3 & Hr). unfold errM in H3. cbn in H3. fold e2 in H3.
  injection H3 as H3 <-. unfold read_object in H3.
  rewrite bool_decide_false, bool_decide_true in H3 by congruence.
  destruct (bcs_to_bytes ((SUI_CLOCK_ID, now e2) : ClockBcs)) as [cb'|] eqn:Hb2;
    cbn in H3; [|done]. injection H3 as ->.
  apply bind_ok_inv in Hr as (n2 & w2' & H4 & Hr). unfold lift, parse_clock in H4.
  rewrite (bcs_decode_encode _ _ Hb2) in H4. cbn in H4. injection H4 as <- <-.
  apply bind_ok_inv in Hr as (f & w3 & H5 & Hr). unfold errM in H5. cbn in H5.
  injection H5 as H5 <-. unfold read_field in H5. rewrite Hsn in H5. cbn in H5.
  rewrite bool_decide_true in H5 by congruence.
  destruct (Inbox.pending (inbox (advance e2)) !! Inbox.included_count (inbox e1)) as [p|] eqn:Hp.
  - destruct (bcs_to_bytes (field_bcs _ _ p)) as [fb|] eqn:Hb3; cbn in H5; [|done].
    injection H5 as <-. apply bind_ok_inv in Hr as (o & w3' & H6 & Hr).
    unfold lift in H6. cbv [fmap M_fmap] in H6.
    rewrite (parse_pending_bcs _ _ _ _ (Inbox.wf_bytes _ (Hw3 (Hw2 (Hw1 Hwf))) _ _ Hp) Hb3) in H6.
    cbn in H6. injection H6 as <- <-. injection Hr as <- <- <- <-.
    rewrite Hp. done.
  - injection H5 as <-. apply bind_ok_inv in Hr as (o & w3' & H6 & Hr).
    injection H6 as <- <-. injection Hr as <- <- <- <-.
    rewrite Hp. done.
Qed.

Lemma confirm_spec m e ib b e' :
  mon_inbox m = inbox_id e →
  confirm_unchanged m ib e = (Ok b, e') →
  e' = advance e ∧
  b = (Inbox.included_count (inbox e') =? included_count ib)
      && (Inbox.last_settled_ts (inbox e') =? last_settled_ts ib).
Proof.
  intros Hm Hr. unfold confirm_unchanged in Hr.
  destruct (advance_grows e) as [[Hid1 _] _ _ _ _ _].
  apply bind_ok_inv in Hr as (bs & w1 & H1 & Hr). unfold errM in H1. cbn in H1.
  injection H1 as H1 <-. unfold read_object in H1. rewrite bool_decide_true in H1 by congruence.
  destruct (bcs_to_bytes (inbox_bcs (advance e))) as [bs'|] eqn:Hb1; cbn in H1; [|done].
  injection H1 as ->. destruct (parse_inbox_bcs (advance e) bs Hb1) as (s1 & Hs1 & ->).
  apply bind_ok_inv in Hr as (s & w1' & H2 & Hr). unfold lift in H2. rewrite Hs1 in H2.
  cbn in H2. injection H2 as <- <-. by injection Hr as <- <-.
Qed.

(** The verdict, read as a statement about the chain at the end of the
    check. *)
Definition verdict (margin : N) (st : DeadlineStatus) (e' : t) : Prop :=
  match st with
  | Active => True
  | Halted n d | Violated n d _ =>
      ∃ p, n = Inbox.included_count (inbox e') ∧ Inbox.pending (inbox e') !! n = Some p ∧
           d = Inbox.deadline_ms p ∧ sat_add d margin < now e' ∧
           (match st with Violated _ _ ts => ts = Inbox.last_settled_ts (inbox e') ∧ d < ts
            | _ => Inbox.last_settled_ts (inbox e') ≤ d end)
  end.

Lemma status_attempts_spec k m e st e' :
  mon_inbox m = inbox_id e → inbox_id e ≠ SUI_CLOCK_ID → Inbox.wf (inbox e) →
  status_attempts k m e = (Ok st, e') →
  grows e e' ∧ verdict (margin_ms m) st e'.
Proof.
  revert e. induction k as [|k IH]; intros e Hm Hc Hwf Hr; [done|].
  cbn [status_attempts] in Hr.
  apply bind_ok_inv in Hr as ([[ib now'] old] & e3 & Hs & Hr).
  destruct (read_snapshot_spec m e ib now' old e3 Hm Hc Hwf Hs) as (-> & Hib & -> & ->).
  clear Hs. set (e1 := advance e) in *. set (e2 := advance e1) in *. set (e3 := advance e2) in *.
  assert (grows e e1) as G1 by apply advance_grows.
  assert (grows e1 e2) as G2 by apply advance_grows.
  assert (grows e2 e3) as G3 by apply advance_grows.
  assert (grows e1 e3) as G13 by (by eapply grows_trans).
  assert (grows e e3) as G by (by eapply grows_trans).
  set (st0 := classify _ _ _ _) in Hr.
  destruct (is_halted st0) eqn:Hh; cbn [negb] in Hr.
  2:{ injection Hr as <- <-. split; [done|]. by destruct st0. }
  apply bind_ok_inv in Hr as (b & e4 & Hcf & Hr).
  destruct (confirm_spec m e3 ib b e4) as [-> ->]; [|done|].
  { destruct G as [[-> _] _ _ _ _ _]. done. }
  set (e4 := advance e3) in *. assert (grows e3 e4) as G4 by apply advance_grows.
  assert (grows e e4) as G' by (by eapply grows_trans).
  destruct (_ && _) eqn:Hb.
  - injection Hr as <- <-. split; [done|].
    apply andb_true_iff in Hb as [Hb1%N.eqb_eq Hb2%N.eqb_eq].
    unfold snapshot_of in Hib. subst ib. cbn in Hb1, Hb2.
    assert (Inbox.wf (inbox e1)) as Hw1 by (by apply G1).
    assert (Inbox.wf (inbox e3)) as Hw3 by (by apply G13).
    destruct (Inbox.pending (inbox e3) !! Inbox.included_count (inbox e1)) as [p|] eqn:Hp;
      cbn in st0; [|done].
    assert (Inbox.pending (inbox e4) !! Inbox.included_count (inbox e1) = Some p) as Hp4.
    { apply (g_pending _ _ G4); [done|done|lia]. }
    pose proof (g_now _ _ G3) as N3. pose proof (g_now _ _ G4) as N4.
    subst st0. unfold classify in *. cbn in *.
    destruct (N.leb_spec (now e2) (sat_add (Inbox.deadline_ms p) (margin_ms m))); [done|].
    destruct (N.leb_spec (Inbox.last_settled_ts (inbox e1)) (Inbox.deadline_ms p)); cbn;
      exists p; rewrite Hb1, Hb2; repeat split; done || lia.
  - destruct (IH e4) as [Gf Hv]; [| | |done|].
    + destruct G' as [[-> _] _ _ _ _ _]. done.
    + destruct G' as [[-> _] _ _ _ _ _]. done.
    + by apply G'.
    + split; [by eapply grows_trans|]. exact Hv.
Qed.
End facts.
End EnvFacts.

(** ** Properties *)

#[global] Existing Instance Env.transport.

Section Properties.
Context `{BcsLaws InboxBcs} `{!Bcs FieldPendingBcs, !BcsLaws FieldPendingBcs}
  `{!Bcs ClockBcs, !BcsLaws ClockBcs}.

(** C8: A halt verdict is sound on a chain that keeps moving.  Whatever
    submissions, settles, window changes and clock ticks happen between the
    reads of one [status] call, a [Halted] or [Violated] answer names the
    oldest pending transaction as it is when the call returns, its deadline
    is past by more than the margin, and the contract aborts every settle
    stamped after that deadline that does not include it. *)
Theorem halt_verdict_sound m e st e' :
  mon_inbox m = Env.inbox_id e → Env.inbox_id e ≠ SUI_CLOCK_ID → Inbox.wf (Env.inbox e) →
  status m e = (Ok st, e') → is_halted st = true →
  ∃ n d p, (st = Halted n d ∨ ∃ ts, st = Violated n d ts) ∧
    Inbox.pending (Env.inbox e') !! n = Some p ∧ Inbox.deadline_ms p = d ∧
    n = Inbox.included_count (Env.inbox e') ∧ sat_add d (margin_ms m) < Env.now e' ∧
    ∀ ts c i', Inbox.enforce_settle (Env.inbox e') ts c = Ok i' → d < ts → n < c.
Proof.
  intros Hm Hc Hwf Hr Hh.
  destruct (EnvFacts.status_attempts_spec CONFIRM_LIMIT m e st e' Hm Hc Hwf Hr) as [G Hv].
  assert (Inbox.wf (Env.inbox e')) as Hw' by (by apply G).
  assert (∀ n p ts c i', Inbox.pending (Env.inbox e') !! n = Some p →
    n = Inbox.included_count (Env.inbox e') →
    Inbox.enforce_settle (Env.inbox e') ts c = Ok i' → Inbox.deadline_ms p < ts → n < c) as Hgate.
  { intros n p ts c i' Hp -> He Hts.
    pose proof (InboxContract.enforce_settle_spec (Env.inbox e') ts c Hw') as Hs. rewrite He in Hs.
    destruct Hs as (((Hlo & _) & _ & Hdl) & _).
    destruct (N.eq_dec c (Inbox.included_count (Env.inbox e'))) as [->|]; [|lia].
    specialize (Hdl p Hp). lia. }
  destruct st as [|n d|n d ts]; [done|..]; destruct Hv as (p & Hn & Hp & -> & Hlt & _);
    exists n, (Inbox.deadline_ms p), p; (split; [by eauto|]); repeat (split; [done|]);
    intros ts' c i' He Hts; by eapply Hgate.
Qed.

(** The check is complete on a quiet chain: when nothing changes between
    the reads and the encodings succeed, an overdue oldest transaction is
    always reported, and a drained or punctual inbox never is. *)
Theorem quiet_chain_verdict m e st e' :
  mon_inbox m = Env.inbox_id e → Env.inbox_id e ≠ SUI_CLOCK_ID → Inbox.wf (Env.inbox e) →
  Env.script e = [] → status m e = (Ok st, e') →
  (is_halted st = true ↔
   ∃ p, Inbox.pending (Env.inbox e) !! Inbox.included_count (Env.inbox e) = Some p ∧
        sat_add (Inbox.deadline_ms p) (margin_ms m) < Env.now e).
Proof.
  intros Hm Hc Hwf Hs Hr. assert (Env.advance e = e) as Ha.
  { unfold Env.advance. rewrite Hs. destruct e; cbn in *. by subst. }
  unfold status, CONFIRM_LIMIT in Hr. cbn [status_attempts] in Hr.
  apply bind_ok_inv in Hr as ([[ib now'] old] & e3 & Hsn & Hr).
  destruct (EnvFacts.read_snapshot_spec m e ib now' old e3 Hm Hc Hwf Hsn) as (-> & Hib & -> & ->).
  rewrite !Ha in *. unfold EnvFacts.snapshot_of in Hib. subst ib.
  set (st0 := classify _ _ _ _) in Hr.
  assert (is_halted st0 = true ↔
    ∃ p, Inbox.pending (Env.inbox e) !! Inbox.included_count (Env.inbox e) = Some p ∧
         sat_add (Inbox.deadline_ms p) (margin_ms m) < Env.now e) as Hst.
  { subst st0. unfold classify; cbn. destruct (Inbox.pending _ !! _) as [p|]; cbn.
    - destruct (N.leb_spec (Env.now e) (sat_add (Inbox.deadline_ms p) (margin_ms m))).
      + split; [done|]. intros (p' & [= <-] & ?). lia.
      + split; [by eauto|]. by destruct (_ <=? _).
    - split; [done|]. by intros (p' & ? & _). }
  destruct (is_halted st0) eqn:Hh; cbn [negb] in Hr;
    [|injection Hr as <- <-; by rewrite Hh].
  apply bind_ok_inv in Hr as (b & e4 & Hcf & Hr).
  destruct (EnvFacts.confirm_spec m e _ b e4 Hm Hcf) as [-> ->]. cbn in Hr.
  rewrite !Ha, !N.eqb_refl in Hr. cbn in Hr. injection Hr as <- <-. by rewrite Hh.
Qed.
End Properties.

Section DeadlineWitness.
Import Codec.CountableCodec.
Definition env0 (now : N) (script : list (list Env.event)) : Env.t :=
  Env.mk (array_fill 32 x0d) (array_fill 32 x0e) inbox0 now script.
Definition monitor0 : DeadlineMonitor := mk_monitor (array_fill 32 x0d) DEFAULT_MARGIN_MS.

(** A submission between the reads does not disturb the verdict. *)
Lemma halt_verdict_sound_witness :
  let e := env0 700000 [[]; [Env.Submit [x02]]; [Env.Tick 5]; []] in
  let '(r, e') := status monitor0 e in
  match r with
  | Ok st => is_halted st = true ∧
    ∃ n d p, (st = Halted n d ∨ ∃ ts, st = Violated n d ts) ∧
      Inbox.pending (Env.inbox e') !! n = Some p ∧ Inbox.deadline_ms p = d ∧
      n = Inbox.included_count (Env.inbox e') ∧ sat_add d DEFAULT_MARGIN_MS < Env.now e' ∧
      ∀ ts c i', Inbox.enforce_settle (Env.inbox e') ts c = Ok i' → d < ts → n < c
  | Err _ => False
  end.
Proof.
  cbv zeta. set (e := env0 _ _).
  assert (is_ok (status monitor0 e).1 = true ∧
          match (status monitor0 e).1 with Ok st => is_halted st | Err _ => false end = true)
    as [Hok Hh] by (vm_compute; done).
  destruct (status monitor0 e) as [[st|] e'] eqn:Hr; [|done]. cbn in Hh. split; [exact Hh|].
  refine (halt_verdict_sound monitor0 e st e' eq_refl _ inbox0_wf Hr Hh).
  intros Heq. apply (f_equal arr_bytes) in Heq. vm_compute in Heq. discriminate Heq.
Defined.

Lemma quiet_chain_verdict_witness :
  let e := env0 700000 [] in
  let '(r, e') := status monitor0 e in
  match r with
  | Ok st => is_halted st = true ↔
      ∃ p, Inbox.pending (Env.inbox e) !! Inbox.included_count (Env.inbox e) = Some p ∧
           sat_add (Inbox.deadline_ms p) DEFAULT_MARGIN_MS < Env.now e
  | Err _ => False
  end.
Proof.
  cbv zeta. set (e := env0 _ _).
  assert (is_ok (status monitor0 e).1 = true) as Hok by (vm_compute; done).
  destruct (status monitor0 e) as [[st|] e'] eqn:Hr; [|done].
  refine (quiet_chain_verdict monitor0 e st e' eq_refl _ inbox0_wf eq_refl Hr).
  intros Heq. apply (f_equal arr_bytes) in Heq. vm_compute in Heq. discriminate Heq.
Defined.
End DeadlineWitness.

