(* ===== verification/SuiRotation.v ===== *)
(** [crates/sui/src/rotation.rs]: deriving the node's role from chain state,
    planning and executing one rotation step, and the rotation transactions. *)

From S2P Require Import Prelude Text Codec Disk Core Wire Contract Sui SuiInbox Deadline.
Local Open Scope string_scope.
Local Open Scope list_scope.
Local Open Scope N_scope.

Definition MIN_DELAY_MS : N := 600000.
Definition MAX_DELAY_MS : N := 604800000.
Definition DEFAULT_DELAY_MS : N := 86400000.
Definition CLAIM_WINDOW_MS : N := 604800000.
Definition PREV_GRACE_MS : N := 600000.
Definition STATE_KEY_BCS : list byte := [].

(** ** Rotation state *)

Record PreviousAuthority := mk_PreviousAuthority { addr : Address; until_ms : N }.
Record PendingRotation := mk_PendingRotation { to : Address; eligible_at_ms : N }.
Record RotationState := mk_RotationState {
  authority : Address;
  prev : option PreviousAuthority;
  pending : option PendingRotation
}.

Definition RotationStateBcs : Type := Address * option (Address * N) * option (Address * N).
Definition FieldRotationBcs : Type := Address * RotationStateBcs.

Definition rotation_state_field_id `{SuiSdk} (parent package : Address) : Address :=
  derive_dynamic_child_id parent (key_type_tag package "rotation" "StateKey") STATE_KEY_BCS.

Definition parse_rotation_state `{Bcs FieldRotationBcs} (field_bcs : list byte)
    : result SettlementError RotationState :=
  f ← map_err (λ e, Parse ("rotation state BCS: " +:+ e))
        (bcs_from_bytes field_bcs : result _ FieldRotationBcs);
  let '(_, (a, p, q)) := f in
  Ok (mk_RotationState a ((λ '(x, t), mk_PreviousAuthority x t) <$> p)
        ((λ '(x, t), mk_PendingRotation x t) <$> q)).

(** ** Roles and plans *)

Inductive Role :=
| RActive
| WaitingClaim (eligible_at_ms : N)
| ClaimReady
| Adopt (prev_until_ms : N)
| StagedIsAuthority
| RMisconfigured.
#[global] Instance Role_eq_dec : EqDecision Role.
Proof. solve_decision. Defined.

Definition derive_role (state : RotationState) (now : N) (active staged : Address) : Role :=
  if decide (authority state = staged) then
    match prev state with
    | Some p => if bool_decide (addr p = active) && (now <=? until_ms p) then Adopt (until_ms p)
                else StagedIsAuthority
    | None => StagedIsAuthority
    end
  else if decide (authority state = active) then
    match pending state with
    | Some p =>
        if decide (to p = staged) then
          if now <? eligible_at_ms p then WaitingClaim (eligible_at_ms p)
          else if now <=? sat_add (eligible_at_ms p) CLAIM_WINDOW_MS then ClaimReady
          else RActive
        else RActive
    | None => RActive
    end
  else RMisconfigured.

Inductive Plan := PIdle | PClaim | PAdopt | PRetire | PMisconfigured.
#[global] Instance Plan_eq_dec : EqDecision Plan.
Proof. solve_decision. Defined.

Definition plan (settlement vault : RotationState) (now : N) (active staged : Address) : Plan :=
  match derive_role settlement now active staged, derive_role vault now active staged with
  | RMisconfigured, _ | _, RMisconfigured => PMisconfigured
  | ClaimReady, ClaimReady => PClaim
  | Adopt _, Adopt _ => PAdopt
  | StagedIsAuthority, StagedIsAuthority =>
      match prev settlement, prev vault with None, None => PIdle | _, _ => PRetire end
  | RActive, RActive | WaitingClaim _, WaitingClaim _ => PIdle
  | _, _ => PMisconfigured
  end.

(** ** The adopted key and the adoption guard *)

Definition AdoptedKey (PrivKey : Type) : Type := option PrivKey.
Definition adopted_set {PrivKey} (k : PrivKey) (_ : AdoptedKey PrivKey) : AdoptedKey PrivKey := Some k.
Definition adopted_get {PrivKey} (h : AdoptedKey PrivKey) : option PrivKey := h.

(** [adopted_at] is an instant in milliseconds of the process clock. *)
Record AdoptionGuard := mk_guard { adopted_at : option N; retire_quiet : N }.
Definition guard_new (quiet : N) : AdoptionGuard := mk_guard None quiet.
Definition mark_adopted (now : N) (g : AdoptionGuard) : AdoptionGuard :=
  mk_guard (Some now) (retire_quiet g).
Definition adopted (g : AdoptionGuard) : bool := bool_decide (is_Some (adopted_at g)).
Definition retire_ready (now : N) (g : AdoptionGuard) : bool :=
  match adopted_at g with Some at_ => retire_quiet g <=? now - at_ | None => false end.

(** ** Executing a plan *)

Inductive Action := AIdle | AClaimed | AAdopted | ARetired | ARefused.
#[global] Instance Action_eq_dec : EqDecision Action.
Proof. solve_decision. Defined.

Class RotationExecutor (W PrivKey : Type) := {
  ex_claim : PrivKey → M W SettlementError unit;
  ex_adopt : PrivKey → M W SettlementError unit;
  ex_retire : PrivKey → M W SettlementError unit
}.

Section Apply.
Context {W PrivKey : Type} `{RotationExecutor W PrivKey}.
(** The executor's world and the guard. *)
Abbreviation Step := (M (W * AdoptionGuard) SettlementError).
Definition on_world {A} (m : M W SettlementError A) : Step A := zoom fst (λ w s, (w, s.2)) m.

Definition adopt_step (now : N) (staged : option PrivKey) : Step Action :=
  match staged with
  | None => mret ARefused
  | Some key =>
      on_world (ex_adopt key);;
      modM (λ s, (s.1, mark_adopted now s.2));;
      mret AAdopted
  end.

Definition retire_step (staged : option PrivKey) : Step Action :=
  match staged with
  | None => mret ARefused
  | Some key => on_world (ex_retire key);; mret ARetired
  end.

Definition apply (now : N) (p : Plan) (staged : option PrivKey) : Step Action :=
  match p with
  | PIdle => mret AIdle
  | PMisconfigured => mret ARefused
  | PClaim =>
      match staged with
      | None => mret ARefused
      | Some key => on_world (ex_claim key);; mret AClaimed
      end
  | PAdopt =>
      s ← getM;
      if adopted s.2 then
        if retire_ready now s.2 then retire_step staged else mret AIdle
      else adopt_step now staged
  | PRetire =>
      s ← getM;
      if adopted s.2 then retire_step staged else adopt_step now staged
  end.
End Apply.

(** ** The watcher *)

Section Watcher.
Context {W : Type} `{InboxTransport W} `{SuiSdk} `{Bcs FieldRotationBcs} `{Bcs ClockBcs}.

Record RotationWatcher := mk_watcher {
  w_package : Address;
  w_registry : Address;
  w_vault : Address;
  w_active : Address;
  w_staged : option Address
}.
Record RotationStatus := mk_rotation_status {
  st_settlement : RotationState; st_vault : RotationState; st_now_ms : N
}.

Definition rotation_status (w : RotationWatcher) : M W InboxError RotationStatus :=
  settlement_bytes ← tr_object_contents (rotation_state_field_id (w_registry w) (w_package w));
  vault_bytes ← tr_object_contents (rotation_state_field_id (w_vault w) (w_package w));
  clock_bytes ← tr_object_contents SUI_CLOCK_ID;
  settlement ← lift (map_err (λ e, InboxParse (settlement_error_text e))
                       (parse_rotation_state settlement_bytes));
  vault ← lift (map_err (λ e, InboxParse (settlement_error_text e))
                  (parse_rotation_state vault_bytes));
  now ← lift (parse_clock clock_bytes);
  mret (mk_rotation_status settlement vault now).

Definition roles (w : RotationWatcher) (s : RotationStatus) : Role * Role :=
  match w_staged w with
  | None => (RMisconfigured, RMisconfigured)
  | Some staged =>
      (derive_role (st_settlement s) (st_now_ms s) (w_active w) staged,
       derive_role (st_vault s) (st_now_ms s) (w_active w) staged)
  end.

Definition watcher_plan (w : RotationWatcher) : M W InboxError Plan :=
  match w_staged w with
  | None => mret PIdle
  | Some staged =>
      s ← rotation_status w;
      mret (plan (st_settlement s) (st_vault s) (st_now_ms s) (w_active w) staged)
  end.

Definition entombment_needed (w : RotationWatcher) (parent : Address) : M W InboxError bool :=
  λ s, match tr_object_contents (rotation_state_field_id parent (w_package w)) s with
       | (Err (InboxNotFound _), s') => (Ok true, s')
       | (Err e, s') => (Err e, s')
       | (Ok _, s') => (Ok false, s')
       end.
End Watcher.

(** ** Transactions *)

Record RotationTargets := mk_targets { t_package : Address; t_registry : Address; t_vault : Address }.
Record OpsCaps := mk_ops_caps { oc_settler_cap : Address; oc_bridge_cap : Address }.

Definition validate_request_delay (delay : N) : result SettlementError unit :=
  if (MIN_DELAY_MS <=? delay) && (delay <=? MAX_DELAY_MS) then Ok tt
  else Err (Parse ("rotation delay " +:+ fmt_dec delay +:+ " ms outside [" +:+ fmt_dec MIN_DELAY_MS
                   +:+ ", " +:+ fmt_dec MAX_DELAY_MS +:+ "]")).

Section RotationTx.
Context {W PrivKey PubKey Tx TxSig : Type} `{Ed25519 PrivKey PubKey} `{SuiSdk}
  `{SuiRpc W PrivKey Tx TxSig}.
Abbreviation Op := (M W SettlementError).

Definition claim_commands (t : RotationTargets) : list command :=
  [MoveCall (t_package t) "settlement" "claim_rotation" [] [AObj (t_registry t); AObj SUI_CLOCK_ID];
   MoveCall (t_package t) "bridge" "claim_rotation" [] [AObj (t_vault t); AObj SUI_CLOCK_ID]].
Definition submit_claim (url : string) (key : PrivKey) (t : RotationTargets) : Op unit :=
  submit_rotation_tx url key "rotation claim" (claim_commands t).

Definition submit_retire_previous (url : string) (key : PrivKey) (t : RotationTargets) : Op unit :=
  submit_rotation_tx url key "rotation retire"
    [MoveCall (t_package t) "settlement" "retire_previous" [] [AObj (t_registry t)];
     MoveCall (t_package t) "bridge" "retire_previous" [] [AObj (t_vault t)]].

Definition submit_request (url : string) (key : PrivKey) (t : RotationTargets) (ops : OpsCaps)
    (target : Address) (delay : N) : Op unit :=
  lift (validate_request_delay delay);;
  submit_rotation_tx url key "rotation request"
    [MoveCall (t_package t) "settlement" "request_rotation_ops" []
       [AObj (t_registry t); AObj SUI_CLOCK_ID; APure (PAddr target); APure (PU64 delay);
        AObj (oc_settler_cap ops)];
     MoveCall (t_package t) "bridge" "request_rotation_ops" []
       [AObj (t_vault t); AObj SUI_CLOCK_ID; APure (PAddr target); APure (PU64 delay);
        AObj (oc_bridge_cap ops)]].

Definition submit_entomb_settler (url : string) (key : PrivKey) (package registry cap : Address)
    : Op unit :=
  submit_rotation_tx url key "entomb settler cap"
    [MoveCall package "settlement" "entomb_settler_cap_ops" [] [AObj cap; AObj registry]].

Definition submit_entomb_bridge (url : string) (key : PrivKey) (package vault cap : Address)
    : Op unit :=
  submit_rotation_tx url key "entomb bridge cap"
    [MoveCall package "bridge" "entomb_bridge_cap_ops" [] [AObj cap; AObj vault]].
End RotationTx.

(** ** Properties *)

(** The client's view of a contract state. *)
Definition of_chain (st : Rotation.state) : RotationState :=
  mk_RotationState (Rotation.authority st)
    ((λ p, mk_PreviousAuthority (Rotation.prev_addr p) (Rotation.until_ms p)) <$> Rotation.prev st)
    ((λ p, mk_PendingRotation (Rotation.to p) (Rotation.eligible_at_ms p)) <$> Rotation.pending st).

(** No window of the state runs past the clock's range. *)
Definition in_range (st : Rotation.state) : Prop :=
  ∀ p, Rotation.pending st = Some p → is_u64 (Rotation.eligible_at_ms p + Rotation.CLAIM_WINDOW_MS).

(** C40: A role says what the contract will do.  At the same clock reading, the
    staged key's claim succeeds when the role is [ClaimReady] and aborts as too
    early when it is [WaitingClaim]; in every role but [Misconfigured] the
    contract lets the key the role settles with act (both keys while adopting),
    and in [Misconfigured] neither key is the authority. *)
Theorem role_matches_contract st now active staged :
  in_range st → is_u64 (now + Rotation.PREV_GRACE_MS) →
  let act k := Rotation.may_act st now k in
  match derive_role (of_chain st) now active staged with
  | ClaimReady => is_ok (Rotation.claim (Some st) now staged) = true ∧ act active = true
  | WaitingClaim _ =>
      Rotation.claim (Some st) now staged = Err (Abort Rotation.E_CLAIM_TOO_EARLY) ∧ act active = true
  | RActive => is_ok (Rotation.claim (Some st) now staged) = false ∧ act active = true
  | Adopt until => act staged = true ∧ act active = true ∧ now ≤ until
  | StagedIsAuthority => act staged = true ∧ (active ≠ staged → act active = false)
  | RMisconfigured => Rotation.authority st ≠ active ∧ Rotation.authority st ≠ staged
  end.
Proof.
  intros Hr Hn act. unfold derive_role, of_chain; cbn.
  assert (∀ k, Rotation.authority st = k → act k = true) as Hauth.
  { intros k <-. unfold act, Rotation.may_act. by rewrite bool_decide_true. }
  destruct (decide (Rotation.authority st = staged)) as [Hs|Hs].
  - unfold act, Rotation.may_act. rewrite Hs. rewrite (bool_decide_true (staged = staged)) by done.
    destruct (Rotation.prev st) as [p|]; cbn.
    + destruct (bool_decide (Rotation.prev_addr p = active) && (now <=? Rotation.until_ms p)) eqn:Hp.
      * apply andb_true_iff in Hp as [_ Hp]. apply N.leb_le in Hp.
        split; [done|]. split; [by rewrite orb_true_r|done].
      * split; [done|]. intros Hne. by rewrite bool_decide_false.
    + split; [done|]. intros Hne. by rewrite bool_decide_false.
  - destruct (decide (Rotation.authority st = active)) as [Ha|Ha]; [|done].
    pose proof (Hauth _ Ha) as Hact. unfold Rotation.claim; cbn -[assert mv_add].
    destruct (Rotation.pending st) as [p|] eqn:Hp; cbn -[assert mv_add]; [|done].
    specialize (Hr p Hp). destruct (decide (Rotation.to p = staged)) as [Hto|Hto].
    + unfold assert at 1. rewrite bool_decide_true by done. cbn -[assert mv_add].
      destruct (N.ltb_spec now (Rotation.eligible_at_ms p)) as [Hlt|Hge].
      * unfold assert at 1. by rewrite (proj2 (N.leb_gt _ _) Hlt).
      * unfold assert at 1. rewrite (proj2 (N.leb_le _ _) Hge). cbn -[assert mv_add].
        unfold CLAIM_WINDOW_MS. rewrite sat_add_small by done.
        assert (mv_add (Rotation.eligible_at_ms p) Rotation.CLAIM_WINDOW_MS
                = Ok (Rotation.eligible_at_ms p + Rotation.CLAIM_WINDOW_MS)) as ->
          by (by apply mv_add_ok).
        cbn -[assert mv_add]. change 604800000 with Rotation.CLAIM_WINDOW_MS.
        unfold assert. destruct (N.leb_spec now (Rotation.eligible_at_ms p + Rotation.CLAIM_WINDOW_MS));
          cbn -[mv_add]; [|done].
        assert (mv_add now Rotation.PREV_GRACE_MS = Ok (now + Rotation.PREV_GRACE_MS)) as ->
          by (by apply mv_add_ok). done.
    + unfold assert at 1. rewrite bool_decide_false by congruence. done.
Qed.

Lemma role_matches_contract_witness :
  let a := array_fill 32 x01 in let b := array_fill 32 x02 in
  let st := Rotation.mk_state a None (Some (Rotation.mk_pending b 700000)) in
  derive_role (of_chain st) 800000 a b = ClaimReady ∧
  is_ok (Rotation.claim (Some st) 800000 b) = true ∧ Rotation.may_act st 800000 a = true.
Proof.
  cbv zeta. split; [vm_compute; reflexivity|].
  refine (role_matches_contract
    (Rotation.mk_state (array_fill 32 x01) None (Some (Rotation.mk_pending (array_fill 32 x02) 700000)))
    800000 (array_fill 32 x01) (array_fill 32 x02) _ _).
  - intros p [= <-]. vm_compute. discriminate.
  - vm_compute. discriminate.
Defined.

