(* ===== verification/Config.v ===== *)
(** [crates/node/src/config.rs]: the node's configuration, its serde defaults,
    and how it is saved. *)

From S2P Require Import Prelude Text Codec Disk Core Wire Sui.
Local Open Scope string_scope.
Local Open Scope list_scope.
Local Open Scope N_scope.

(** ** Records *)

Record RethConfig := mk_reth { engine_url : string; rpc_url : string; jwt_path : path }.
Record WalrusConfig := mk_walrus {
  publisher_url : string;
  aggregator_url : string;
  epochs : N;
  batch_size_bytes : N;
  batch_flush_ms : N;
  publisher_auth_token : option string
}.
Record SuiConfig := mk_sui {
  sui_rpc_url : string;
  move_dir : path;
  settlement_package_id : option string;
  sc_settler_cap_id : option string;
  sc_registry_id : option string;
  sc_inbox_id : option string;
  rotation_key_path : option path;
  commit_state_roots : bool
}.
Record SignerConfig := mk_signer_config { key_path : option path; sequencer_pubkey : option string }.
Record P2pConfig := mk_p2p {
  p2p_key_path : option string;
  listen_addr : string;
  dialable_addr : option string;
  bootstrap_peers : list string;
  no_p2p : bool;
  registry_admission : bool;
  advertise : bool
}.
Record BridgeConfig := mk_bridge {
  bridge_enabled : bool;
  bridge_cap_id : option string;
  vault_id : option string;
  l2_relayer_key_path : option path;
  poll_interval_ms : N
}.
Record MetricsConfig := mk_metrics { metrics_enabled : bool; metrics_listen_addr : string }.
Record SequencerConfig := mk_sequencer {
  block_time_ms : N; fee_recipient : string; genesis_hash : option string
}.
Record Config := mk_config {
  reth : RethConfig;
  walrus : WalrusConfig;
  sui : SuiConfig;
  signer : SignerConfig;
  sequencer : SequencerConfig;
  bridge : BridgeConfig;
  p2p : P2pConfig;
  metrics : MetricsConfig;
  data_dir : path;
  mode : string
}.

(** ** Defaults *)

Definition default_data_dir : path := ["."; "data"].
Definition default_mode : string := "sequencer".
Definition default_rpc_url : string := "http://localhost:8545".
Definition default_engine_url : string := "http://localhost:8551".
Definition TESTNET_AGGREGATOR : string := "https://aggregator.walrus-testnet.walrus.space".
Definition TESTNET_PUBLISHER : string := "https://publisher.walrus-testnet.walrus.space".
Definition MAX_EPOCHS : N := 53.
Definition default_batch_size_bytes : N := 64 * 1024.
Definition default_batch_flush_ms : N := 120000.
Definition walrus_default : WalrusConfig :=
  mk_walrus TESTNET_PUBLISHER TESTNET_AGGREGATOR MAX_EPOCHS default_batch_size_bytes
    default_batch_flush_ms None.
Definition default_sui_rpc : string := "https://fullnode.testnet.sui.io:443".
Definition default_move_dir : path := ["."; "move"].
Definition sui_default : SuiConfig :=
  mk_sui default_sui_rpc default_move_dir None None None None None true.
Definition default_signer_key_path : option path := Some ["sequencer.key"].
Definition signer_default : SignerConfig := mk_signer_config default_signer_key_path None.
Definition default_bridge_poll_ms : N := 2000.
Definition default_relayer_key_path : option path := Some ["relayer.key"].
Definition bridge_default : BridgeConfig :=
  mk_bridge false None None default_relayer_key_path default_bridge_poll_ms.
Definition default_p2p_key_path : option string := Some "p2p.key".
Definition default_p2p_listen : string := "0.0.0.0:9000".
Definition p2p_default : P2pConfig :=
  mk_p2p default_p2p_key_path default_p2p_listen None [] false false true.
Definition default_metrics_listen : string := "0.0.0.0:9090".
Definition metrics_default : MetricsConfig := mk_metrics false default_metrics_listen.
Definition default_block_time_ms : N := 2000.
Definition default_fee_recipient : string := "0x0000000000000000000000000000000000000000".
Definition sequencer_default : SequencerConfig :=
  mk_sequencer default_block_time_ms default_fee_recipient None.

(** [Config::testnet] *)
Definition testnet : Config :=
  mk_config (mk_reth default_engine_url default_rpc_url ["jwt.hex"]) walrus_default sui_default
    signer_default sequencer_default bridge_default p2p_default metrics_default
    default_data_dir default_mode.

(** ** Reading TOML

    What a TOML document holds: every field that carries [#[serde(default)]]
    (or is an [Option]) may be absent.  [resolve] applies the attributes; a
    missing section is its [Default]. *)

Record RawReth := mk_raw_reth {
  raw_engine_url : option string; raw_rpc_url : option string; raw_jwt_path : option path }.
Record RawWalrus := mk_raw_walrus {
  raw_publisher_url : option string; raw_aggregator_url : option string; raw_epochs : option N;
  raw_batch_size_bytes : option N; raw_batch_flush_ms : option N; raw_token : option string }.
Record RawSui := mk_raw_sui {
  raw_sui_rpc_url : option string; raw_move_dir : option path; raw_package : option string;
  raw_settler_cap : option string; raw_registry : option string; raw_inbox : option string;
  raw_rotation_key : option path; raw_commit_state_roots : option bool }.
Record RawSigner := mk_raw_signer { raw_key_path : option path; raw_pubkey : option string }.
Record RawP2p := mk_raw_p2p {
  raw_p2p_key : option string; raw_listen : option string; raw_dialable : option string;
  raw_bootstrap : option (list string); raw_no_p2p : option bool;
  raw_registry_admission : option bool; raw_advertise : option bool }.
Record RawBridge := mk_raw_bridge {
  raw_bridge_enabled : option bool; raw_cap_id : option string; raw_vault_id : option string;
  raw_relayer_key : option path; raw_poll : option N }.
Record RawMetrics := mk_raw_metrics { raw_metrics_enabled : option bool; raw_metrics_listen : option string }.
Record RawSequencer := mk_raw_sequencer {
  raw_block_time : option N; raw_fee_recipient : option string; raw_genesis : option string }.
Record RawConfig := mk_raw {
  raw_reth : option RawReth; raw_walrus : option RawWalrus; raw_sui : option RawSui;
  raw_signer : option RawSigner; raw_sequencer : option RawSequencer; raw_bridge : option RawBridge;
  raw_p2p : option RawP2p; raw_metrics : option RawMetrics; raw_data_dir : option path;
  raw_mode : option string }.

(** A field whose default is itself an [Option]. *)
Definition or_default {A} (o d : option A) : option A := match o with Some a => Some a | None => d end.

Definition resolve_reth (r : RawReth) : result anyhow RethConfig :=
  jwt ← ok_or (raw_jwt_path r) ["missing field `jwt_path`"];
  Ok (mk_reth (default default_engine_url (raw_engine_url r)) (default default_rpc_url (raw_rpc_url r)) jwt).
Definition resolve_walrus (w : RawWalrus) : WalrusConfig :=
  mk_walrus (default TESTNET_PUBLISHER (raw_publisher_url w))
    (default TESTNET_AGGREGATOR (raw_aggregator_url w)) (default MAX_EPOCHS (raw_epochs w))
    (default default_batch_size_bytes (raw_batch_size_bytes w))
    (default default_batch_flush_ms (raw_batch_flush_ms w)) (raw_token w).
Definition resolve_sui (s : RawSui) : SuiConfig :=
  mk_sui (default default_sui_rpc (raw_sui_rpc_url s)) (default default_move_dir (raw_move_dir s))
    (raw_package s) (raw_settler_cap s) (raw_registry s) (raw_inbox s) (raw_rotation_key s)
    (default true (raw_commit_state_roots s)).
Definition resolve_signer (s : RawSigner) : SignerConfig :=
  mk_signer_config (or_default (raw_key_path s) default_signer_key_path) (raw_pubkey s).
Definition resolve_p2p (p : RawP2p) : result anyhow P2pConfig :=
  Ok (mk_p2p (or_default (raw_p2p_key p) default_p2p_key_path)
        (default default_p2p_listen (raw_listen p)) (raw_dialable p)
        (default [] (raw_bootstrap p)) (default false (raw_no_p2p p))
        (default false (raw_registry_admission p)) (default true (raw_advertise p))).
Definition resolve_bridge (b : RawBridge) : BridgeConfig :=
  mk_bridge (default false (raw_bridge_enabled b)) (raw_cap_id b) (raw_vault_id b)
    (or_default (raw_relayer_key b) default_relayer_key_path)
    (default default_bridge_poll_ms (raw_poll b)).
Definition resolve_metrics (m : RawMetrics) : MetricsConfig :=
  mk_metrics (default false (raw_metrics_enabled m))
    (default default_metrics_listen (raw_metrics_listen m)).
Definition resolve_sequencer (s : RawSequencer) : SequencerConfig :=
  mk_sequencer (default default_block_time_ms (raw_block_time s))
    (default default_fee_recipient (raw_fee_recipient s)) (raw_genesis s).

Definition resolve (c : RawConfig) : result anyhow Config :=
  raw ← ok_or (raw_reth c) ["missing field `reth`"];
  reth ← resolve_reth raw;
  p2p ← match raw_p2p c with Some p => resolve_p2p p | None => Ok p2p_default end;
  Ok (mk_config reth
        (match raw_walrus c with Some w => resolve_walrus w | None => walrus_default end)
        (match raw_sui c with Some s => resolve_sui s | None => sui_default end)
        (match raw_signer c with Some s => resolve_signer s | None => signer_default end)
        (match raw_sequencer c with Some s => resolve_sequencer s | None => sequencer_default end)
        (match raw_bridge c with Some b => resolve_bridge b | None => bridge_default end)
        p2p
        (match raw_metrics c with Some m => resolve_metrics m | None => metrics_default end)
        (default default_data_dir (raw_data_dir c)) (default default_mode (raw_mode c))).

(** What [to_string_pretty] writes: every field, with [None] left out. *)
Definition raw_of (c : Config) : RawConfig :=
  mk_raw
    (Some (mk_raw_reth (Some (engine_url (reth c))) (Some (rpc_url (reth c))) (Some (jwt_path (reth c)))))
    (Some (let w := walrus c in mk_raw_walrus (Some (publisher_url w)) (Some (aggregator_url w))
       (Some (epochs w)) (Some (batch_size_bytes w)) (Some (batch_flush_ms w)) (publisher_auth_token w)))
    (Some (let s := sui c in mk_raw_sui (Some (sui_rpc_url s)) (Some (move_dir s))
       (settlement_package_id s) (sc_settler_cap_id s) (sc_registry_id s) (sc_inbox_id s)
       (rotation_key_path s) (Some (commit_state_roots s))))
    (Some (mk_raw_signer (key_path (signer c)) (sequencer_pubkey (signer c))))
    (Some (let s := sequencer c in
       mk_raw_sequencer (Some (block_time_ms s)) (Some (fee_recipient s)) (genesis_hash s)))
    (Some (let b := bridge c in mk_raw_bridge (Some (bridge_enabled b)) (bridge_cap_id b)
       (vault_id b) (l2_relayer_key_path b) (Some (poll_interval_ms b))))
    (Some (let p := p2p c in mk_raw_p2p (p2p_key_path p) (Some (listen_addr p)) (dialable_addr p)
       (Some (bootstrap_peers p)) (Some (no_p2p p)) (Some (registry_admission p)) (Some (advertise p))))
    (Some (mk_raw_metrics (Some (metrics_enabled (metrics c))) (Some (metrics_listen_addr (metrics c)))))
    (Some (data_dir c)) (Some (mode c)).

(** The toml crate. *)
Class Toml := {
  toml_from_str : string → result string RawConfig;
  toml_to_string_pretty : RawConfig → result string string
}.
Definition join_path (p : path) : string := String.concat "/" p.

Section Files.
Context `{Toml}.

Definition from_str (text : string) : result anyhow Config :=
  context "parsing config TOML" (raw ← map_err (λ e, [e]) (toml_from_str text); resolve raw).
Definition load (p : path) : M disk anyhow Config :=
  text ← errM (λ e, ["reading config from " +:+ join_path p; io_error_text e]) (fs_read_to_string p);
  lift (from_str text).
Definition to_toml (c : Config) : result anyhow string :=
  map_err (λ e, ["serializing config"; e]) (toml_to_string_pretty (raw_of c)).

(** A failed rename falls back to copying the temporary file into place; the
    clean-up's own error is dropped. *)
Definition write (c : Config) (p : path) (rename : path → path → Fs unit) : M disk anyhow unit :=
  let tmp := with_extension p "toml.tmp" in
  text ← lift (to_toml c);
  errM (λ e, ["writing config to " +:+ join_path tmp; io_error_text e])
    (fs_write tmp (string_bytes text));;
  renamed ← tryM (rename tmp p);
  match renamed with
  | Ok _ => mret tt
  | Err e =>
      errM (λ e', ["copying config into place at " +:+ join_path p +:+ " (rename failed: "
                   +:+ io_error_text e +:+ ")"; io_error_text e']) (fs_copy tmp p);;
      tryM (fs_remove_file tmp);;
      mret tt
  end.
Definition save (c : Config) (p : path) : M disk anyhow unit := write c p fs_rename.
End Files.

(** ** Properties *)

(** What a reload makes of a saved config: an unset optional path whose serde
    default is a path comes back as that default. *)
Definition reloaded (c : Config) : Config :=
  mk_config (reth c) (walrus c) (sui c)
    (mk_signer_config (or_default (key_path (signer c)) default_signer_key_path)
       (sequencer_pubkey (signer c)))
    (sequencer c)
    (mk_bridge (bridge_enabled (bridge c)) (bridge_cap_id (bridge c)) (vault_id (bridge c))
       (or_default (l2_relayer_key_path (bridge c)) default_relayer_key_path)
       (poll_interval_ms (bridge c)))
    (mk_p2p (or_default (p2p_key_path (p2p c)) default_p2p_key_path) (listen_addr (p2p c))
       (dialable_addr (p2p c)) (bootstrap_peers (p2p c)) (no_p2p (p2p c))
       (registry_admission (p2p c)) (advertise (p2p c)))
    (metrics c) (data_dir c) (mode c).

Lemma resolve_raw_of c : resolve (raw_of c) = Ok (reloaded c).
Proof. by destruct c as [[] [] [] [] [] [] [] [] ? ?]. Qed.

(** Where the TOML codec reads its own output back, a saved configuration
    reloads as itself, except that an unset signer
    key, relayer key or p2p key path comes back as its default: clearing one of
    those three fields does not survive a save. *)
Theorem config_roundtrip `{Toml} c text :
  to_toml c = Ok text → toml_from_str text = Ok (raw_of c) →
  from_str text = Ok (reloaded c) ∧
  (reloaded c = c ↔ is_Some (key_path (signer c)) ∧ is_Some (l2_relayer_key_path (bridge c)) ∧
                    is_Some (p2p_key_path (p2p c))).
Proof.
  unfold to_toml, from_str. destruct (toml_to_string_pretty (raw_of c)) as [s|] eqn:Hs; [|done].
  intros [= ->] ->. cbn [map_err mbind result_bind].
  change (context "parsing config TOML" (resolve (raw_of c)) = Ok (reloaded c) ∧
    (reloaded c = c ↔ is_Some (key_path (signer c)) ∧ is_Some (l2_relayer_key_path (bridge c)) ∧
                    is_Some (p2p_key_path (p2p c)))).
  rewrite resolve_raw_of. split; [done|].
  destruct c as [? ? ? [[|] ?] ? [? ? ? [|] ?] [[|] ? ? ? ? ? ?] ? ? ?]; cbn; unfold reloaded; cbn;
    (split; [intros Heq|intros (H1 & H2 & H3)]);
    try done; repeat split; eauto; try (by destruct H1); try (by destruct H2); try (by destruct H3).
  all: by injection Heq.
Qed.

(** An absent section takes its documented defaults: the smallest document
    the parser accepts, a [reth] section with a JWT path, resolves to the
    testnet configuration, and without a JWT path nothing is accepted. *)
Theorem minimal_config_is_testnet :
  let only_reth r := mk_raw r None None None None None None None None None in
  resolve (only_reth (Some (mk_raw_reth None None (Some ["jwt.hex"])))) = Ok testnet ∧
  (∀ c, is_ok (resolve c) = true ↔ ∃ r, raw_reth c = Some r ∧ is_Some (raw_jwt_path r)).
Proof.
  split; [reflexivity|]. intros c. unfold resolve.
  destruct (raw_reth c) as [[e u [j|]]|]; cbn.
  - destruct (raw_p2p c); cbn; split; eauto.
  - split; [done|]. by intros (r & [= <-] & []).
  - split; [done|]. by intros (r & ? & _).
Qed.

(** Saving replaces the file whole or not at all while [rename] works, and
    reports success only when the file holds the new text; only the copy
    fallback after a failed rename can leave a torn file. *)
Theorem config_save_atomic `{Toml} c p d r d' text :
  p ≠ [] → with_extension p "toml.tmp" ≠ p → to_toml c = Ok text →
  save c p d = (r, d') →
  match r with
  | Ok _ => files d' !! p = Some (string_bytes text)
  | Err _ => files d' !! p = files d !! p ∨
             (∃ n, files d' !! p = Some (take n (string_bytes text)) ∧
                   tail (faults d) ≠ [] ∧ next_fault (pop_fault d) ≠ NoFault)
  end.
Proof.
  intros Hp Ht Htext. unfold save, write. rewrite Htext. set (tmp := with_extension p "toml.tmp") in *.
  rewrite run_bind. unfold lift, errM, tryM. rewrite !run_bind.
  destruct (fs_write tmp (string_bytes text) d) as [[[]|e] d1] eqn:Hw; cbn -[fs_rename fs_copy fs_remove_file].
  2:{ intros [= <- <-]. left. unfold fs_write in Hw. destruct (bool_decide _); [|by injection Hw as _ <-].
      destruct (next_fault d); [done|by injection Hw as _ <-|]. injection Hw as _ <-. cbn.
      by rewrite lookup_insert_ne. }
  assert (next_fault d = NoFault ∧ files d1 = <[tmp := string_bytes text]> (files d) ∧ d1 = pop_fault (set_files (files d1) d)) as (Hnf & Hf1 & Hd1).
  { unfold fs_write in Hw. destruct (bool_decide _); [|done].
    destruct (next_fault d) eqn:?; [|done..]. injection Hw as <-. split_and!; reflexivity. }
  rewrite run_bind. destruct (fs_rename tmp p d1) as [[[]|e] d2] eqn:Hr; cbn -[fs_copy fs_remove_file].
  - intros [= <- <-]. unfold fs_rename in Hr. rewrite Hf1, lookup_insert_eq in Hr.
    destruct (next_fault d1); [|done..]. injection Hr as <-. cbn. by rewrite lookup_insert_eq.
  - assert (files d2 = files d1 ∧ next_fault d1 ≠ NoFault) as [Hf2 Hnf1].
    { unfold fs_rename in Hr. rewrite Hf1, lookup_insert_eq in Hr.
      destruct (next_fault d1); [done|by injection Hr as _ <-..]. }
    rewrite run_bind.
    destruct (fs_copy tmp p d2) as [[[]|e'] d3] eqn:Hc; cbn -[fs_remove_file].
    + rewrite run_bind. destruct (fs_remove_file tmp d3) as [r4 d4] eqn:Hrm. cbn. intros [= <- <-].
      assert (files d4 !! p = files d3 !! p) as ->.
      { unfold fs_remove_file in Hrm. destruct (next_fault d3); [|by injection Hrm as _ <-..].
        destruct (files d3 !! tmp); injection Hrm as _ <-; cbn; [|done]. by rewrite lookup_delete_ne. }
      unfold fs_copy in Hc. rewrite Hf2, Hf1, lookup_insert_eq in Hc. unfold fs_write in Hc.
      destruct (bool_decide _); [|done]. destruct (next_fault d2); [|done..].
      injection Hc as <-. cbn. by rewrite lookup_insert_eq.
    + intros [= <- <-]. unfold fs_copy in Hc. rewrite Hf2, Hf1, lookup_insert_eq in Hc.
      unfold fs_write in Hc.
      assert (files d2 !! p = files d !! p) as Hsame by (by rewrite Hf2, Hf1, lookup_insert_ne).
      assert (next_fault (pop_fault d) ≠ NoFault) as Hnf2.
      { rewrite Hd1 in Hnf1. exact Hnf1. }
      destruct (bool_decide _); [|injection Hc as _ <-; by left].
      destruct (next_fault d2) as [| |n]; [done|injection Hc as _ <-; by left|].
      injection Hc as _ <-. cbn. right. exists n. rewrite lookup_insert_eq. split; [done|].
      split; [|done]. intros Hnil. apply Hnf2. unfold next_fault, pop_fault; cbn. by rewrite Hnil.
Qed.

Section ConfigWitness.
(** A one-document TOML codec. *)
Definition demo_toml : Toml := {|
  toml_from_str s := if decide (s = "testnet") then Ok (raw_of testnet) else Err "toml";
  toml_to_string_pretty r := Ok "testnet"
|}.
#[local] Existing Instance demo_toml.

(** The fallback can destroy the configuration.  When the rename fails and
    the machine stops during the copy, the file that held a complete
    configuration is left truncated. *)
Theorem config_save_can_tear :
  let p := ["node.toml"] in
  let d := mk_disk {[ p := string_bytes "old" ]} {[ [] ]} [NoFault; FailClean; Torn 4] in
  let d' := (save testnet p d).2 in
  files d !! p = Some (string_bytes "old") ∧ files d' !! p = Some (string_bytes "test").
Proof. vm_compute. done. Qed.

Lemma config_roundtrip_witness :
  from_str "testnet" = Ok (reloaded testnet) ∧
  (reloaded testnet = testnet ↔ is_Some (key_path (signer testnet)) ∧
     is_Some (l2_relayer_key_path (bridge testnet)) ∧ is_Some (p2p_key_path (p2p testnet))).
Proof. exact (config_roundtrip testnet "testnet" eq_refl eq_refl). Defined.

Lemma config_save_atomic_witness :
  let p := ["node.toml"] in
  let d := mk_disk {[ p := string_bytes "old" ]} {[ [] ]} [FailClean] in
  let '(r, d') := save testnet p d in
  match r with
  | Ok _ => files d' !! p = Some (string_bytes "testnet")
  | Err _ => files d' !! p = files d !! p ∨
             (∃ n, files d' !! p = Some (take n (string_bytes "testnet")) ∧
                   tail (faults d) ≠ [] ∧ next_fault (pop_fault d) ≠ NoFault)
  end.
Proof.
  cbv zeta. destruct (save testnet _ _) as [r d'] eqn:Hs.
  refine (config_save_atomic testnet ["node.toml"] _ r d' "testnet" _ _ eq_refl Hs);
    vm_compute; discriminate.
Defined.
End ConfigWitness.

