(* ===== verification/NodeRotation.v ===== *)
(** [crates/node/src/rotation.rs]: the entombment migration, the signer swap,
    and the rotation watcher's loop, with the protocol's safety on the chain. *)

From S2P Require Import Prelude Text Codec Disk Core Wire Contract Sui SuiInbox Deadline.
From S2P Require Import SuiRotation Config.
Local Open Scope string_scope.
Local Open Scope list_scope.
Local Open Scope N_scope.

Definition POLL_INTERVAL : N := 30000.
Definition RETIRE_QUIET : N := POLL_INTERVAL.

(** ** Entombment migration *)

Record EntombCaps := mk_caps { cap_settler : option Address; cap_bridge : option Address }.
Inductive EntombStep := Present | Entombed | Unconfigured.
#[global] Instance EntombStep_eq_dec : EqDecision EntombStep.
Proof. solve_decision. Defined.
Record MigrationReport := mk_report { rep_settler : EntombStep; rep_bridge : EntombStep }.

Definition healed (r : MigrationReport) : bool :=
  bool_decide (rep_settler r = Entombed) || bool_decide (rep_bridge r = Entombed).
Definition blocked (r : MigrationReport) : bool :=
  bool_decide (rep_settler r = Unconfigured) || bool_decide (rep_bridge r = Unconfigured).

Class EntombExecutor (W : Type) := {
  ex_entomb_settler : Address → M W SettlementError unit;
  ex_entomb_bridge : Address → M W SettlementError unit
}.

Section Migration.
Context {W : Type} `{InboxTransport W} `{SuiSdk} `{EntombExecutor W}.

Definition entomb_one (w : RotationWatcher) (parent : Address) (cap : option Address)
    (submit : Address → M W SettlementError unit) (label : string) : M W InboxError EntombStep :=
  needed ← entombment_needed w parent;
  if (needed : bool) then
    match cap with
    | Some cap =>
        errM (λ e, InboxRpc (label +:+ " ptb: " +:+ settlement_error_text e)) (submit cap);;
        mret Entombed
    | None => mret Unconfigured
    end
  else mret Present.

Definition ensure_entombed (w : RotationWatcher) (t : RotationTargets) (caps : EntombCaps)
    : M W InboxError MigrationReport :=
  settler ← entomb_one w (t_registry t) (cap_settler caps) ex_entomb_settler "entomb settler cap";
  bridge ← entomb_one w (t_vault t) (cap_bridge caps) ex_entomb_bridge "entomb bridge cap";
  mret (mk_report settler bridge).
End Migration.

Definition parse_optional_id `{SuiSdk} (raw : option string) (field : string) : option Address :=
  id ← raw; to_option (parse_address id field).

Definition resolve_contract_ids (c : Config) : option (string * string * string) :=
  match settlement_package_id (sui c), sc_registry_id (sui c), vault_id (bridge c) with
  | Some p, Some r, Some v => Some (p, r, v)
  | _, _, _ => None
  end.

(** ** Swapping the signers *)

Section Swap.
Context {PrivKey PubKey : Type} `{Ed25519 PrivKey PubKey} `{Base64}.

(** The shared signers: settlement, the address snapshot, the relayer's
    bridge client once it exists, and the adopted-key holder. *)
Record SwapSinks := mk_sinks {
  sk_settlement : Settlement PrivKey;
  sk_sender_snapshot : Address;
  sk_sui_bridge : option PrivKey;
  sk_adopted_key : AdoptedKey PrivKey
}.

Definition swap_signers (key : PrivKey) (s : SwapSinks) : SwapSinks :=
  mk_sinks (swap_key (sk_settlement s) key) (derive_address (public_key key))
    ((λ _, key) <$> sk_sui_bridge s) (adopted_set key (sk_adopted_key s)).

Definition load_staged_key (p : path) : M disk anyhow PrivKey :=
  raw ← errM (λ e, ["reading staged rotation key " +:+ join_path p; io_error_text e])
          (fs_read_to_string p);
  lift (map_err (λ e, ["parsing staged rotation key: " +:+ e]) (parse_signer_key (trim raw))).

Definition resolve_staged_key (c : Config) : M disk anyhow (option PrivKey) :=
  match rotation_key_path (sui c) with
  | None => mret None
  | Some p => Some <$> load_staged_key p
  end.

Definition parse_targets `{SuiSdk} (package_id registry_id vault_id : string)
    (settlement : Settlement PrivKey) : result SettlementError (Address * Address * Address * Address) :=
  package ← parse_address package_id "package id";
  registry ← parse_address registry_id "registry id";
  vault ← parse_address vault_id "vault id";
  Ok (package, registry, vault, s_sender settlement).
End Swap.
#[global] Arguments SwapSinks PrivKey : clear implicits.

(** A swap leaves no signer behind: after it the settlement client, the
    address snapshot, the running relayer and every signer built later from the
    holder all use the new key and its address, and swapping again to the same
    key changes nothing. *)
Theorem swap_signers_complete {PrivKey PubKey} `{Ed25519 PrivKey PubKey} key (s : SwapSinks PrivKey) :
  let s' := swap_signers key s in
  s_key (sk_settlement s') = key ∧
  s_sender (sk_settlement s') = derive_address (public_key key) ∧
  sk_sender_snapshot s' = s_sender (sk_settlement s') ∧
  sk_sui_bridge s' = (λ _, key) <$> sk_sui_bridge s ∧
  adopted_get (sk_adopted_key s') = Some key ∧
  (s_package (sk_settlement s'), s_registry (sk_settlement s'), s_inbox (sk_settlement s'),
   s_commit_state_roots (sk_settlement s'))
    = (s_package (sk_settlement s), s_registry (sk_settlement s), s_inbox (sk_settlement s),
       s_commit_state_roots (sk_settlement s)) ∧
  swap_signers key s' = s'.
Proof.
  destruct s as [st sn br ad]; cbn. do 6 (split; [done|]).
  unfold swap_signers; cbn. by destruct br.
Qed.

(** ** One watcher poll on the chain *)

Module RotationSystem.
(** Both guarded objects, the clock, the node's in-memory signer and its
    adoption guard.  [now] serves for the clock and the process clock: both
    advance together. *)
Record t := mk {
  settlement : Rotation.state;
  vault : Rotation.state;
  now : N;
  signer : Address
}.

(** What happens to the next transaction: it runs, it fails before running,
    or it runs and its reply is lost. *)
Inductive outcome := Runs | Fails | RunsSilently.

(** A block over both objects is atomic. *)
Definition on_both (f : Rotation.state → call Rotation.state) (o : outcome) : M t SettlementError unit := λ w,
  match o with
  | Fails => (Err (Rpc "unavailable"), w)
  | _ =>
      match f (settlement w), f (vault w) with
      | Ok s, Ok v =>
          (match o with Runs => Ok tt | _ => Err (Execution "deadline exceeded") end,
           mk s v (now w) (signer w))
      | _, _ => (Err (Execution "abort"), w)
      end
  end.

(** The production executor: keys are named by their addresses here. *)
Definition executor (o : outcome) : RotationExecutor t Address := {|
  ex_claim k := λ w, on_both (λ st, Rotation.claim (Some st) (now w) k) o w;
  ex_adopt k := modM (λ w, mk (settlement w) (vault w) (now w) k);
  ex_retire k := λ w, on_both (λ st, Rotation.retire_previous (Some st) k) o w
|}.

(** One poll of the watcher loop: read, plan, apply; a failure is logged and
    retried at the next poll. *)
Definition poll (active staged : Address) (o : outcome) (w : t * AdoptionGuard) : t * AdoptionGuard :=
  let p := plan (of_chain (settlement w.1)) (of_chain (vault w.1)) (now w.1) active staged in
  (@apply t Address (executor o) (now w.1) p (Some staged) w).2.

(** The signer after a restart is the configured key again, and the guard is
    fresh. *)
Definition restart (active : Address) (w : t * AdoptionGuard) : t * AdoptionGuard :=
  (mk (settlement w.1) (vault w.1) (now w.1) active, guard_new RETIRE_QUIET).
(** What can happen to the system: time passes, the steering wallet requests
    a rotation to the staged key (both objects, one block), the node polls, the node
    restarts before the rotation is complete. *)
Inductive step (active staged : Address) : t * AdoptionGuard → t * AdoptionGuard → Prop :=
| step_tick dt s v n k g :
    step active staged (mk s v n k, g) (mk s v (n + dt) k, g)
| step_request delay s v n k g s' v' :
    Rotation.request (Some s) staged delay n = Ok s' →
    Rotation.request (Some v) staged delay n = Ok v' →
    step active staged (mk s v n k, g) (mk s' v' n k, g)
| step_poll o w : step active staged w (poll active staged o w)
| step_restart w :
    Rotation.authority (settlement w.1) = active ∨ is_Some (Rotation.prev (settlement w.1)) →
    step active staged w (restart active w).

Definition start (active : Address) (n : N) : t * AdoptionGuard :=
  (mk (Rotation.mk_state active None None) (Rotation.mk_state active None None) n active,
   guard_new RETIRE_QUIET).
End RotationSystem.

Definition tick (dt : N) (w : RotationSystem.t * AdoptionGuard) : RotationSystem.t * AdoptionGuard :=
  (RotationSystem.mk (RotationSystem.settlement w.1) (RotationSystem.vault w.1)
     (RotationSystem.now w.1 + dt) (RotationSystem.signer w.1), w.2).

Module RotationFacts.
Import RotationSystem.
Section facts.
Context (active staged : Address) (Hne : active ≠ staged).
Implicit Types (w : t * AdoptionGuard).

(** Both objects agree.  Before the claim the node signs with the authority;
    after it the previous record names the old key until the node, already
    on the staged key, removes it. *)
Record inv w : Prop := mk_inv {
  i_agree : vault w.1 = settlement w.1;
  i_quiet : retire_quiet w.2 = RETIRE_QUIET;
  i_guard : ∀ a, adopted_at w.2 = Some a → a ≤ now w.1;
  i_pending : ∀ p, Rotation.pending (settlement w.1) = Some p → Rotation.to p = staged;
  i_phase :
    (Rotation.authority (settlement w.1) = active ∧ Rotation.prev (settlement w.1) = None ∧
     signer w.1 = active ∧ adopted_at w.2 = None) ∨
    (Rotation.authority (settlement w.1) = staged ∧
     (signer w.1 = staged ∧ is_Some (adopted_at w.2) ∧
      (∀ p, Rotation.prev (settlement w.1) = Some p → Rotation.prev_addr p = active) ∨
      signer w.1 = active ∧ adopted_at w.2 = None ∧
      ∃ u, Rotation.prev (settlement w.1) = Some (Rotation.mk_prev active u)))
}.

Lemma inv_start n : inv (start active n).
Proof. split; cbn; try done. by left. Qed.

Lemma request_spec s d n s' :
  Rotation.request (Some s) staged d n = Ok s' →
  Rotation.authority s' = Rotation.authority s ∧ Rotation.prev s' = Rotation.prev s ∧
  ∃ e, Rotation.pending s' = Some (Rotation.mk_pending staged e) ∧ e = n + d.
Proof. unfold Rotation.request, Rotation.borrow. intros H. inv_call. cbn. by eauto 6. Qed.

Lemma claim_spec s n k s' :
  Rotation.claim (Some s) n k = Ok s' →
  s' = Rotation.mk_state k (Some (Rotation.mk_prev (Rotation.authority s) (n + Rotation.PREV_GRACE_MS))) None.
Proof. unfold Rotation.claim, Rotation.borrow. intros H. by inv_call. Qed.

Lemma retire_spec s k s' :
  Rotation.retire_previous (Some s) k = Ok s' →
  s' = Rotation.mk_state (Rotation.authority s) None (Rotation.pending s).
Proof. unfold Rotation.retire_previous, Rotation.borrow. intros H. by inv_call. Qed.

Lemma retire_ok s p :
  Rotation.authority s = staged → Rotation.prev s = Some p →
  Rotation.retire_previous (Some s) staged
    = Ok (Rotation.mk_state (Rotation.authority s) None (Rotation.pending s)).
Proof.
  intros Ha Hp. unfold Rotation.retire_previous, Rotation.borrow; cbn -[assert].
  unfold assert. rewrite bool_decide_true by done. cbn. by rewrite Hp.
Qed.

(** The plan in each phase. *)
Lemma plan_before s n :
  Rotation.authority s = active →
  plan (of_chain s) (of_chain s) n active staged = PIdle ∨
  plan (of_chain s) (of_chain s) n active staged = PClaim.
Proof using Hne.
  intros Ha. unfold plan, derive_role, of_chain; cbn. rewrite Ha.
  rewrite decide_False, decide_True by done.
  destruct (Rotation.pending s) as [p|]; cbn; [|by left]. case_decide; [|by left].
  destruct (n <? _); [by left|]. destruct (n <=? _); [by right|by left].
Qed.

Lemma plan_after s n :
  Rotation.authority s = staged →
  (Rotation.prev s = None ∧ plan (of_chain s) (of_chain s) n active staged = PIdle) ∨
  (is_Some (Rotation.prev s) ∧
   (plan (of_chain s) (of_chain s) n active staged = PAdopt ∨
    plan (of_chain s) (of_chain s) n active staged = PRetire)).
Proof.
  intros Ha. unfold plan, derive_role, of_chain; cbn. rewrite Ha, decide_True by done.
  destruct (Rotation.prev s) as [p|]; cbn; [|by left]. right. split; [done|].
  destruct (_ && _); [by left|by right].
Qed.

(** A transaction over two objects in the same state. *)
Definition both_result (o : outcome) (c : call Rotation.state) s n k : t :=
  match o, c with
  | Fails, _ | _, Err _ => mk s s n k
  | _, Ok s' => mk s' s' n k
  end.
Lemma on_both_run f o s n k :
  (on_both f o (mk s s n k)).2 = both_result o (f s) s n k ∧
  (is_ok (on_both f o (mk s s n k)).1 = true → o = Runs ∧ is_ok (f s) = true).
Proof. unfold on_both; cbn. destruct o, (f s); cbn; done. Qed.

Lemma retire_step_run o s n k g :
  (@retire_step t Address (executor o) (Some staged) (mk s s n k, g)).2
    = (both_result o (Rotation.retire_previous (Some s) staged) s n k, g).
Proof.
  unfold retire_step. rewrite run_bind. unfold on_world, zoom. cbn [fst snd ex_retire executor].
  destruct (on_both_run (λ st, Rotation.retire_previous (Some st) staged) o s n k) as [H _].
  destruct (on_both _ o _) as [[]]; cbn in H; by subst.
Qed.

Lemma claim_step_run o m s n k g :
  (@apply t Address (executor o) m PClaim (Some staged) (mk s s n k, g)).2
    = (both_result o (Rotation.claim (Some s) n staged) s n k, g).
Proof.
  unfold apply. rewrite run_bind. unfold on_world, zoom. cbn [fst snd ex_claim executor now].
  destruct (on_both_run (λ st, Rotation.claim (Some st) n staged) o s n k) as [H _].
  destruct (on_both _ o _) as [[]]; cbn in H; by subst.
Qed.

(** What a retire attempt leaves. *)
Lemma retire_step_inv o s n k g :
  inv (mk s s n k, g) → Rotation.authority s = staged → k = staged →
  inv (@retire_step t Address (executor o) (Some staged) (mk s s n k, g)).2.
Proof.
  intros Hi Ha Hk. rewrite retire_step_run. unfold both_result.
  destruct o; [|exact Hi|];
    (destruct (Rotation.retire_previous (Some s) staged) as [s'|] eqn:Hr; [|exact Hi]);
    apply retire_spec in Hr as ->;
    (split; cbn; [done|by apply Hi|by apply Hi|by apply Hi|]); right; (split; [done|]); left;
    (split; [done|]); (split; [|done]);
    destruct (i_phase _ Hi) as [(I5 & _)|(_ & [(I6 & I7 & _)|(I6 & _)])]; cbn in *;
    congruence || done.
Qed.

Lemma adopt_step_inv o m s n k g u :
  m ≤ n → inv (mk s s n k, g) → Rotation.prev s = Some (Rotation.mk_prev active u) →
  Rotation.authority s = staged →
  (@adopt_step t Address (executor o) m (Some staged) (mk s s n k, g)).2
    = (mk s s n staged, mark_adopted m g) ∧ inv (mk s s n staged, mark_adopted m g).
Proof.
  intros Hm Hi Hp Ha. split; [done|]. destruct Hi as [_ I2 I3 I4 _]; cbn in *.
  split; cbn; try done.
  - by intros a [= <-].
  - right. split; [done|]. left. split; [done|]. split; [eauto|]. intros p Hp'. by simplify_eq.
Qed.

(** A plan made for the phase of [s]. *)
Definition fits (p : Plan) (s : Rotation.state) : Prop :=
  (Rotation.authority s = active → p = PIdle ∨ p = PClaim ∨ p = PMisconfigured) ∧
  (Rotation.authority s = staged →
     (Rotation.prev s = None ∧ p = PIdle) ∨ (is_Some (Rotation.prev s) ∧ (p = PAdopt ∨ p = PRetire))).
Lemma plan_fits s n : fits (plan (of_chain s) (of_chain s) n active staged) s.
Proof using Hne.
  split; intros Ha; [|by apply plan_after]. destruct (plan_before s n Ha) as [->| ->]; auto.
Qed.

Lemma apply_inv o m p s n k g :
  m ≤ n → fits p s → inv (mk s s n k, g) →
  inv (@apply t Address (executor o) m p (Some staged) (mk s s n k, g)).2.
Proof using Hne.
  intros Hm [Hbefore Hafter] Hi.
  destruct (i_phase _ Hi) as [(Ha & Hp & Hk & Hg)|(Ha & Hph)]; cbn in *.
  - destruct (Hbefore Ha) as [-> |[->| ->]]; [exact Hi| |exact Hi]. rewrite claim_step_run.
    unfold both_result. destruct o; [|exact Hi|];
      (destruct (Rotation.claim (Some s) n staged) as [s'|] eqn:Hc; [|exact Hi]);
      apply claim_spec in Hc as ->; destruct Hi as [_ I2 I3 I4 _]; cbn in *;
      (split; cbn; try done); right; (split; [done|]); right; (split; [done|]); (split; [done|]); rewrite Ha; by eexists.
  - destruct (Hafter Ha) as [[_ ->]|[[x Hp] Hpl]]; [done|].
    destruct Hph as [(Hk & [a Hg] & Hprev)|(Hk & Hg & u & Hu)].
    + destruct Hpl as [-> | ->]; unfold apply; rewrite run_bind; cbn -[retire_step];
        unfold adopted; rewrite bool_decide_true by (by rewrite Hg).
      * destruct (retire_ready m g); [|done]. by apply retire_step_inv.
      * by apply retire_step_inv.
    + destruct (adopt_step_inv o m s n k g u Hm Hi Hu Ha) as [He Hi'].
      destruct Hpl as [-> | ->]; unfold apply; rewrite run_bind; cbn -[adopt_step];
        unfold adopted; (rewrite bool_decide_false by (rewrite Hg; by intros []));
        rewrite He; done.
Qed.

Lemma poll_inv o w : inv w → inv (poll active staged o w).
Proof using Hne.
  destruct w as [[s v n k] g]. intros Hi. pose proof (i_agree _ Hi) as Hv; cbn in Hv. subst v.
  apply apply_inv; [done|apply plan_fits|done].
Qed.

(** Once the staged key is the authority, a poll whose transaction runs leaves
    it adopted ... *)
Lemma poll_adopts w :
  inv w → Rotation.authority (settlement w.1) = staged →
  let w' := poll active staged Runs w in
  Rotation.authority (settlement w'.1) = staged ∧ is_Some (adopted_at w'.2).
Proof using Hne.
  destruct w as [[s v n k] g]. intros Hi Ha. pose proof (i_agree _ Hi) as Hv; cbn in Hv, Ha. subst v.
  unfold poll; cbn [settlement vault now fst snd].
  destruct (i_phase _ Hi) as [(Ha' & _)|(_ & Hph)]; cbn in *; [congruence|].
  destruct Hph as [(Hk & Hg & Hprev)|(Hk & Hg & u & Hu)].
  - destruct (plan_after s n Ha) as [[_ ->]|[[p Hp] [-> | ->]]]; [done| |];
      unfold apply; rewrite run_bind; cbn -[retire_step];
      unfold adopted; rewrite bool_decide_true by done.
    + destruct (retire_ready n g); [|done].
      rewrite retire_step_run, (retire_ok s p) by done. done.
    + rewrite retire_step_run, (retire_ok s p) by done. done.
  - destruct (adopt_step_inv Runs n s n k g u ltac:(done) Hi Hu Ha) as [He _].
    destruct (plan_after s n Ha) as [[Hn _]|[_ [-> | ->]]]; [congruence| |];
      unfold apply; rewrite run_bind; cbn -[adopt_step];
      unfold adopted; (rewrite bool_decide_false by (rewrite Hg; by intros []));
      rewrite He; cbn; eauto.
Qed.

(** ... and, once the guard is quiet, retires the previous authority. *)
Lemma poll_retires w :
  inv w → Rotation.authority (settlement w.1) = staged → is_Some (adopted_at w.2) →
  retire_ready (now w.1) w.2 = true →
  let w' := poll active staged Runs w in
  Rotation.authority (settlement w'.1) = staged ∧ signer w'.1 = staged ∧
  Rotation.prev (settlement w'.1) = None.
Proof using Hne.
  destruct w as [[s v n k] g]. intros Hi Ha Hg Hready.
  pose proof (i_agree _ Hi) as Hv; cbn in Hv, Ha, Hg, Hready. subst v.
  unfold poll; cbn [settlement vault now fst snd].
  destruct (i_phase _ Hi) as [(Ha' & _)|(_ & [(Hk & _ & _)|(_ & Hg' & _)])]; cbn in *;
    [congruence| |rewrite Hg' in Hg; by destruct Hg].
  destruct (plan_after s n Ha) as [[Hp ->]|[[p Hp] [-> | ->]]]; [done| |];
    unfold apply; rewrite run_bind; cbn -[retire_step];
    unfold adopted; rewrite bool_decide_true by done; try rewrite Hready;
    rewrite retire_step_run, (retire_ok s p) by done; done.
Qed.

Lemma step_inv w w' : step active staged w w' → inv w → inv w'.
Proof using Hne.
  intros [dt s v n k g|d s v n k g s' v' Hs Hv|o w0|w0 Hre]; [| |apply poll_inv|].
  - intros [I1 I2 I3 I4 I5]; cbn in *. split; cbn; try done. intros a Ha. specialize (I3 a Ha). lia.
  - intros [I1 I2 I3 I4 I5]; cbn in *. subst v.
    pose proof (request_spec _ _ _ _ Hs) as (E1 & E2 & e & E3 & _).
    rewrite Hs in Hv. injection Hv as <-. split; cbn; try done.
    + intros p Hp. rewrite E3 in Hp. by injection Hp as <-.
    + by rewrite E1, E2.
  - intros [I1 I2 I3 I4 I5]; cbn in *. split; cbn; try done.
    destruct I5 as [(E1 & E2 & _)|(E1 & [(_ & _ & Hp)|(_ & _ & u & Hu)])].
    + by left.
    + right. split; [done|]. right. split; [done|]. split; [done|].
      destruct Hre as [|[[a u] Hu]]; [congruence|]. exists u. rewrite Hu.
      by rewrite <- (Hp _ Hu).
    + right. split; [done|]. right. eauto.
Qed.

Lemma reachable_inv w n : rtc (step active staged) (start active n) w → inv w.
Proof using Hne.
  intros H. remember (start active n) as w0 eqn:E. assert (inv w0) as Hi by (subst; apply inv_start).
  clear E. induction H as [|? ? ? Hs _ IH]; [done|]. apply IH. by eapply step_inv.
Qed.

(** The signer may act, or its grace ran out unnoticed. *)
Lemma inv_in_charge w :
  inv w →
  let st := settlement w.1 in
  vault w.1 = st ∧
  (Rotation.authority st = active ∨ Rotation.authority st = staged) ∧
  (Rotation.may_act st (now w.1) (signer w.1) = true ∨
   signer w.1 = active ∧ ∃ u, Rotation.prev st = Some (Rotation.mk_prev active u) ∧ u < now w.1) ∧
  (Rotation.prev st = None → signer w.1 = Rotation.authority st).
Proof.
  intros Hi st. pose proof (i_phase _ Hi) as Hph. fold st in Hph.
  split; [apply Hi|]. unfold Rotation.may_act.
  destruct Hph as [(Ha & Hp & Hk & _)|(Ha & [(Hk & _ & Hp)|(Hk & _ & u & Hu)])].
  - split; [by left|]. split; [left; by rewrite bool_decide_true by congruence|]. congruence.
  - split; [by right|]. split; [left; by rewrite bool_decide_true by congruence|]. congruence.
  - split; [by right|]. split; [|congruence]. rewrite Hu; cbn.
    destruct (N.leb_spec (now w.1) u).
    + left. rewrite Hk, (bool_decide_true (active = active)) by done. by rewrite orb_true_r.
    + right. split; [done|]. by eexists.
Qed.

(** Two polls a quiet interval apart finish a claimed rotation. *)
Lemma polls_converge w :
  inv w → Rotation.authority (settlement w.1) = staged →
  let w' := poll active staged Runs (tick RETIRE_QUIET (poll active staged Runs w)) in
  signer w'.1 = staged ∧ settlement w'.1 = vault w'.1 ∧
  Rotation.authority (settlement w'.1) = staged ∧ Rotation.prev (settlement w'.1) = None.
Proof using Hne.
  intros Hi Ha. pose proof (poll_inv Runs w Hi) as Hi1. destruct (poll_adopts w Hi Ha) as [Ha1 [a Hg1]].
  set (w1 := poll active staged Runs w) in *.
  assert (inv (tick RETIRE_QUIET w1)) as Hi2.
  { destruct Hi1 as [I1 I2 I3 I4 I5]. split; cbn; try done. intros b Hb. specialize (I3 b Hb). lia. }
  destruct (poll_retires (tick RETIRE_QUIET w1) Hi2 Ha1) as (E1 & E2 & E3).
  - by eexists.
  - unfold retire_ready; cbn. rewrite Hg1. apply N.leb_le.
    rewrite (i_quiet _ Hi1). pose proof (i_guard _ Hi1 a Hg1). lia.
  - intros w'. split; [done|]. split; [|done]. symmetry. apply i_agree. by apply poll_inv.
Qed.
End facts.
End RotationFacts.

(** A rotation never cuts off the running node.  In every state the system
    reaches, through any requests, delays, failed and silently executed
    transactions and restarts before completion, both objects have the same authority, one of the two keys;
    the node's signer may act on them, or it is the old key whose grace window
    ran out while the node did not poll; and the previous authority is only
    ever gone when the signer is the authority. *)
Theorem rotation_never_strands active staged n w :
  active ≠ staged → rtc (RotationSystem.step active staged) (RotationSystem.start active n) w →
  let st := RotationSystem.settlement w.1 in
  RotationSystem.vault w.1 = st ∧
  (Rotation.authority st = active ∨ Rotation.authority st = staged) ∧
  (Rotation.may_act st (RotationSystem.now w.1) (RotationSystem.signer w.1) = true ∨
   RotationSystem.signer w.1 = active ∧
   ∃ u, Rotation.prev st = Some (Rotation.mk_prev active u) ∧ u < RotationSystem.now w.1) ∧
  (Rotation.prev st = None → RotationSystem.signer w.1 = Rotation.authority st).
Proof.
  intros Hne Hr. exact (RotationFacts.inv_in_charge active staged w (RotationFacts.reachable_inv active staged Hne w n Hr)).
Qed.

(** A claimed rotation finishes.  From any reachable state whose authority
    is the staged key, whatever happened to the node before, two polls whose
    transactions run, a quiet interval apart, end with the signer on the staged
    key and the previous authority retired on both objects. *)
Theorem rotation_converges active staged n w :
  active ≠ staged → rtc (RotationSystem.step active staged) (RotationSystem.start active n) w →
  Rotation.authority (RotationSystem.settlement w.1) = staged →
  let w' := RotationSystem.poll active staged RotationSystem.Runs
              (tick RETIRE_QUIET (RotationSystem.poll active staged RotationSystem.Runs w)) in
  RotationSystem.signer w'.1 = staged ∧
  RotationSystem.settlement w'.1 = RotationSystem.vault w'.1 ∧
  Rotation.authority (RotationSystem.settlement w'.1) = staged ∧
  Rotation.prev (RotationSystem.settlement w'.1) = None.
Proof.
  intros Hne Hr. exact (RotationFacts.polls_converge active staged Hne w (RotationFacts.reachable_inv active staged Hne w n Hr)).
Qed.

(** A restart after the retire strands the signer.  There is a reachable
    completed rotation such that a process restarted on the unchanged
    configuration signs with the old key again, may not act, and stays that way
    through any number of polls, because the plan of a completed rotation is to
    do nothing. *)
Theorem restart_after_retire_strands :
  let active := array_fill 32 x01 in let staged := array_fill 32 x02 in
  ∃ w, rtc (RotationSystem.step active staged) (RotationSystem.start active 0) w ∧
    RotationSystem.signer w.1 = staged ∧
    ∀ os, let w' := foldl (λ w o, RotationSystem.poll active staged o w)
                      (RotationSystem.restart active w) os in
      RotationSystem.signer w'.1 = active ∧
      Rotation.may_act (RotationSystem.settlement w'.1) (RotationSystem.now w'.1)
        (RotationSystem.signer w'.1) = false.
Proof.
  intros active staged.
  set (s1 := Rotation.mk_state active None (Some (Rotation.mk_pending staged 600000))).
  set (s2 := Rotation.mk_state staged (Some (Rotation.mk_prev active 1200000)) None).
  set (s3 := Rotation.mk_state staged None None).
  set (g0 := guard_new RETIRE_QUIET). set (g1 := mk_guard (Some 600000) RETIRE_QUIET).
  exists (RotationSystem.mk s3 s3 630000 staged, g1). split; [|split; [done|]].
  - eapply rtc_l; [by apply (RotationSystem.step_request active staged 600000 _ _ _ _ _ s1 s1)|].
    eapply rtc_l; [apply (RotationSystem.step_tick active staged 600000)|].
    eapply rtc_l; [apply (RotationSystem.step_poll active staged RotationSystem.Runs)|].
    replace (RotationSystem.poll _ _ _ _) with (RotationSystem.mk s2 s2 600000 active, g0)
      by (vm_compute; reflexivity).
    eapply rtc_l; [apply (RotationSystem.step_poll active staged RotationSystem.Runs)|].
    replace (RotationSystem.poll _ _ _ _) with (RotationSystem.mk s2 s2 600000 staged, g1)
      by (vm_compute; reflexivity).
    eapply rtc_l; [apply (RotationSystem.step_tick active staged 30000)|].
    eapply rtc_l; [apply (RotationSystem.step_poll active staged RotationSystem.Runs)|].
    replace (RotationSystem.poll _ _ _ _) with (RotationSystem.mk s3 s3 630000 staged, g1)
      by (vm_compute; reflexivity).
    apply rtc_refl.
  - intros os. set (w0 := RotationSystem.restart _ _).
    assert (∀ o, RotationSystem.poll active staged o w0 = w0) as Hidle
      by (intros []; vm_compute; reflexivity).
    assert (foldl (λ w o, RotationSystem.poll active staged o w) w0 os = w0) as ->.
    { induction os as [|o os IH]; cbn; [done|]. by rewrite Hidle. }
    split; [done|]. vm_compute. reflexivity.
Qed.

(** A claimed rotation whose claim's reply was lost. *)
Definition demo_active : Address := array_fill 32 x01.
Definition demo_staged : Address := array_fill 32 x02.
Lemma demo_keys : demo_active ≠ demo_staged.
Proof. intros H. apply (f_equal arr_bytes) in H. vm_compute in H. discriminate H. Qed.
Definition demo_claimed : RotationSystem.t * AdoptionGuard :=
  let s := Rotation.mk_state demo_staged (Some (Rotation.mk_prev demo_active 1200000)) None in
  (RotationSystem.mk s s 600000 demo_active, guard_new RETIRE_QUIET).
Lemma demo_claimed_reachable :
  rtc (RotationSystem.step demo_active demo_staged) (RotationSystem.start demo_active 0) demo_claimed.
Proof.
  set (s1 := Rotation.mk_state demo_active None (Some (Rotation.mk_pending demo_staged 600000))).
  eapply rtc_l; [by apply (RotationSystem.step_request demo_active demo_staged 600000 _ _ _ _ _ s1 s1)|].
  eapply rtc_l; [apply (RotationSystem.step_tick demo_active demo_staged 600000)|].
  eapply rtc_l; [apply (RotationSystem.step_poll demo_active demo_staged RotationSystem.RunsSilently)|].
  replace (RotationSystem.poll _ _ _ _) with demo_claimed by (vm_compute; reflexivity).
  apply rtc_refl.
Qed.

Lemma rotation_never_strands_witness :
  let st := RotationSystem.settlement demo_claimed.1 in
  RotationSystem.vault demo_claimed.1 = st ∧
  (Rotation.authority st = demo_active ∨ Rotation.authority st = demo_staged) ∧
  (Rotation.may_act st (RotationSystem.now demo_claimed.1) (RotationSystem.signer demo_claimed.1) = true ∨
   RotationSystem.signer demo_claimed.1 = demo_active ∧
   ∃ u, Rotation.prev st = Some (Rotation.mk_prev demo_active u) ∧ u < RotationSystem.now demo_claimed.1) ∧
  (Rotation.prev st = None → RotationSystem.signer demo_claimed.1 = Rotation.authority st).
Proof.
  exact (rotation_never_strands demo_active demo_staged 0 demo_claimed demo_keys
           demo_claimed_reachable).
Defined.

Lemma rotation_converges_witness :
  let w' := RotationSystem.poll demo_active demo_staged RotationSystem.Runs
              (tick RETIRE_QUIET (RotationSystem.poll demo_active demo_staged RotationSystem.Runs
                                    demo_claimed)) in
  RotationSystem.signer w'.1 = demo_staged ∧
  RotationSystem.settlement w'.1 = RotationSystem.vault w'.1 ∧
  Rotation.authority (RotationSystem.settlement w'.1) = demo_staged ∧
  Rotation.prev (RotationSystem.settlement w'.1) = None.
Proof.
  exact (rotation_converges demo_active demo_staged 0 demo_claimed demo_keys
           demo_claimed_reachable eq_refl).
Defined.

(** The migration never entombs on a guess.  A ceremony is submitted for an
    object only after the chain said its rotation state does not exist; when
    the state is there, nothing is submitted, when it is missing and no cap is
    configured the step reports it, and a failed read is an error. *)
Theorem entomb_only_when_missing {W} `{InboxTransport W} `{SuiSdk} w parent cap submit label s :
  let id := rotation_state_field_id parent (w_package w) in
  match tr_object_contents id s with
  | (Ok _, s') => entomb_one w parent cap submit label s = (Ok Present, s')
  | (Err (InboxNotFound _), s') =>
      match cap with
      | None => entomb_one w parent cap submit label s = (Ok Unconfigured, s')
      | Some c => match submit c s' with
                  | (Ok _, s'') => entomb_one w parent cap submit label s = (Ok Entombed, s'')
                  | (Err _, s'') => is_ok (entomb_one w parent cap submit label s).1 = false ∧
                                    (entomb_one w parent cap submit label s).2 = s''
                  end
      end
  | (Err e, s') => entomb_one w parent cap submit label s = (Err e, s')
  end.
Proof.
  intros id. subst id. unfold entomb_one. rewrite run_bind. unfold entombment_needed.
  destruct (tr_object_contents _ s) as [[bs|[m|m|m]] s']; cbn; try done.
  destruct cap as [c|]; [|done]. rewrite run_bind. unfold errM.
  by destruct (submit c s') as [[]].
Qed.

