(* ===== verification/Watcher.v ===== *)
(** The task of the rotation watcher: the loop that [spawn] of
    [crates/node/src/rotation.rs] starts, over the planner of SuiRotation.v and
    the migration of NodeRotation.v, on a chain that moves between its reads. *)

From S2P Require Import Prelude Text Codec Disk Core Wire Contract Sui SuiInbox Deadline.
From S2P Require Import SuiRotation Config NodeRotation.
Local Open Scope string_scope.
Local Open Scope list_scope.
Local Open Scope N_scope.

(** ** The loop *)

Section Watch.
Context {W Key : Type} `{InboxTransport W} `{EntombExecutor W} `{RotationExecutor W Key} `{Runtime W} `{SuiSdk}
  `{Bcs FieldRotationBcs} `{Bcs ClockBcs}.
(** What [spawn] gave the task; without a staged key it only migrates. *)
Context (watcher : RotationWatcher) (targets : RotationTargets) (caps : EntombCaps) (staged_key : option Key).
Abbreviation Turn := (M (W * AdoptionGuard) SettlementError).

Definition beside_guard {E A} (m : M W E A) : M (W * AdoptionGuard) E A := zoom fst (λ w s, (w, s.2)) m.

(** A failed migration is logged. *)
Definition migrate : Turn unit := tryM (beside_guard (ensure_entombed watcher targets caps));; mret tt.

(** One turn after its tick; a failed step is logged and tried again at the
    next. *)
Definition watch_turn : Turn unit :=
  match staged_key with
  | None => migrate
  | Some key =>
      planned ← tryM (beside_guard (watcher_plan watcher));
      match planned with
      | Ok p => s ← getM; tryM (apply (now_ms s.1) p (Some key));; mret tt
      | Err _ => migrate
      end
  end.

(** The loop; [next] is the time of the next tick of the interval, which
    catches up on missed ones.  [None] when the fuel runs out. *)
Fixpoint watch (fuel : nat) (next : N) (s : W * AdoptionGuard) : option (W * AdoptionGuard) :=
  match fuel with
  | O => None
  | S fuel =>
      if shutting_down s.1 then Some s
      else
        let w := if now_ms s.1 <? next then sleep_ms (next - now_ms s.1) s.1 else s.1 in
        watch fuel (next + POLL_INTERVAL) (watch_turn (w, s.2)).2
  end.
Definition watch_task (fuel : nat) (w : W) : option (W * AdoptionGuard) :=
  watch fuel (now_ms w) (w, guard_new RETIRE_QUIET).
End Watch.

(** ** A chain that moves between the reads *)

Module WatchedChain.
Import RotationSystem.

(** The steering wallet asks for a rotation, or time passes. *)
Inductive event := Elapse (ms : N) | Request (delay : N).
(** Before each request of the node a batch of events happens; the request
    then runs, fails, or runs with its reply lost. *)
Record t := mk_watched { sys : RotationSystem.t; script : list (list event * outcome); stop_at : option N }.

Section chain.
Context `{SuiSdk} `{Bcs FieldRotationBcs} `{Bcs ClockBcs}.
Context (package registry vault_id active staged : Address).

(** Both objects change in one transaction, or neither. *)
Definition happen (s : RotationSystem.t) (e : event) : RotationSystem.t :=
  match e with
  | Elapse ms => mk (settlement s) (vault s) (now s + ms) (signer s)
  | Request delay =>
      match Rotation.request (Some (settlement s)) staged delay (now s),
            Rotation.request (Some (vault s)) staged delay (now s) with
      | Ok x, Ok y => mk x y (now s) (signer s)
      | _, _ => s
      end
  end.
Definition advance (x : t) : t :=
  mk_watched (foldl happen (sys x) (default [] (fst <$> head (script x)))) (tail (script x)) (stop_at x).
Definition fate (x : t) : outcome := default Runs (snd <$> head (script x)).

(** The field that holds a rotation state, and the clock. *)
Definition state_bytes (parent : Address) (st : Rotation.state) : result InboxError (list byte) :=
  map_err InboxRpc (bcs_to_bytes
    ((parent, (Rotation.authority st,
               (λ p, (Rotation.prev_addr p, Rotation.until_ms p)) <$> Rotation.prev st,
               (λ p, (Rotation.to p, Rotation.eligible_at_ms p)) <$> Rotation.pending st)) : FieldRotationBcs)).
Definition read_object (id : Address) (s : RotationSystem.t) : result InboxError (list byte) :=
  if bool_decide (id = rotation_state_field_id registry package) then state_bytes registry (settlement s)
  else if bool_decide (id = rotation_state_field_id vault_id package) then state_bytes vault_id (vault s)
  else if bool_decide (id = SUI_CLOCK_ID) then map_err InboxRpc (bcs_to_bytes ((SUI_CLOCK_ID, now s) : ClockBcs))
  else Err (InboxNotFound "no object").
#[export] Instance reads : InboxTransport t := {|
  tr_object_contents id x :=
    (match fate x with Runs => read_object id (sys (advance x)) | _ => Err (InboxRpc "unavailable") end, advance x);
  tr_field_contents table key x := (Err (InboxRpc "unavailable"), advance x)
|}.

(** The executor of [RotationSystem], on the chain of the moment. *)
Definition at_once {A} (m : outcome → M RotationSystem.t SettlementError A) : M t SettlementError A := λ x,
  let '(r, s) := m (fate x) (sys (advance x)) in (r, mk_watched s (script (advance x)) (stop_at x)).
#[export] Instance acts : RotationExecutor t Address := {|
  ex_claim k := at_once (λ o, @ex_claim _ _ (executor o) k);
  ex_adopt k := λ x, let '(r, s) := @ex_adopt _ _ (executor Runs) k (sys x) in (r, mk_watched s (script x) (stop_at x));
  ex_retire k := at_once (λ o, @ex_retire _ _ (executor o) k)
|}.
(** Both states are there, so an entombment would abort. *)
#[export] Instance entombs : EntombExecutor t := {|
  ex_entomb_settler _ x := (Err (Execution "abort"), advance x);
  ex_entomb_bridge _ x := (Err (Execution "abort"), advance x)
|}.
#[export] Instance clock : Runtime t := {|
  now_ms x := now (sys x);
  sleep_ms ms x := mk_watched (happen (sys x) (Elapse ms)) (script x) (stop_at x);
  shutting_down x := match stop_at x with Some n => n <=? now (sys x) | None => false end
|}.

Definition watcher_of : RotationWatcher := mk_watcher package registry vault_id active (Some staged).
Definition targets_of : RotationTargets := mk_targets package registry vault_id.

(** One turn of the task on this chain. *)
Definition turn (caps : EntombCaps) (w : t * AdoptionGuard) : t * AdoptionGuard :=
  (watch_turn watcher_of targets_of caps (Some staged) w).2.

(** A life of the node: turns, restarts before the rotation is complete, and
    what happens around them. *)
Inductive life : t * AdoptionGuard → t * AdoptionGuard → Prop :=
| life_turn caps w : life w (turn caps w)
| life_event e x g : life (x, g) (mk_watched (happen (sys x) e) (script x) (stop_at x), g)
| life_restart x g script' stop' :
    Rotation.authority (settlement (sys x)) = active ∨ is_Some (Rotation.prev (settlement (sys x))) →
    life (x, g)
      (mk_watched (mk (settlement (sys x)) (vault (sys x)) (now (sys x)) active) script' stop', guard_new RETIRE_QUIET).
End chain.
End WatchedChain.

(** ** What a turn does to the rotation *)

Module WatchFacts.
Import RotationSystem WatchedChain RotationFacts.
Section facts.
Context `{SuiSdk} `{BcsLaws FieldRotationBcs} `{BcsLaws ClockBcs}.
Context (package registry vault_id active staged : Address) (Hne : active ≠ staged).
Context (ids : NoDup [rotation_state_field_id registry package; rotation_state_field_id vault_id package; SUI_CLOCK_ID]).
Abbreviation inv := (inv active staged).
Abbreviation advance := (advance staged).
#[local] Instance here_reads : InboxTransport WatchedChain.t := reads package registry vault_id staged.
#[local] Instance here_acts : RotationExecutor WatchedChain.t Address := acts staged.
#[local] Instance here_entombs : EntombExecutor WatchedChain.t := entombs staged.
#[local] Instance here_clock : Runtime WatchedChain.t := clock staged.

(** Steps of the outside: the phase of the rotation stays. *)
Record moved (g : AdoptionGuard) (s s' : RotationSystem.t) : Prop := mk_moved {
  m_inv : inv (s, g) → inv (s', g);
  m_authority : Rotation.authority (settlement s') = Rotation.authority (settlement s);
  m_prev : Rotation.prev (settlement s') = Rotation.prev (settlement s);
  m_now : now s ≤ now s'
}.
#[export] Instance moved_preorder g : PreOrder (moved g).
Proof.
  split; [done|]. intros s1 s2 s3 [A1 A2 A3 A4] [B1 B2 B3 B4]. split; [auto|congruence|congruence|lia].
Qed.

Lemma happen_moved g s e : moved g s (happen staged s e).
Proof using Hne.
  destruct e as [ms|delay]; cbn.
  - split; cbn; try done; [|lia]. destruct s as [x y n k]. apply (step_inv active staged Hne). apply step_tick.
  - destruct (Rotation.request (Some (settlement s)) _ _ _) as [x|] eqn:Hs; [|done].
    destruct (Rotation.request (Some (vault s)) _ _ _) as [y|] eqn:Hv; [|done].
    destruct (request_spec _ _ _ _ _ Hs) as (Ha & Hp & _). split; cbn; try done.
    destruct s as [s0 v0 n k]. apply (step_inv active staged Hne). by apply (step_request _ _ delay).
Qed.
Lemma advance_moved g x : moved g (sys x) (sys (advance x)).
Proof using Hne.
  unfold WatchedChain.advance. cbn. generalize (sys x), (default [] (fst <$> head (script x))). intros s es.
  revert s. induction es as [|e es IH]; intros s; [done|]. cbn. etrans; [apply happen_moved|apply IH].
Qed.

(** Computations that only let the outside move. *)
Definition waits {E A} (m : M WatchedChain.t E A) : Prop := ∀ g s0, preserves (λ x, moved g s0 (sys x)) m.
Lemma waits_advance {E A} (m : M WatchedChain.t E A) : (∀ x, (m x).2 = advance x) → waits m.
Proof using Hne.
  intros Hm g s0 x Hx. specialize (Hm x). assert (moved g s0 (sys (m x).2)) as Hx'.
  { rewrite Hm. etrans; [exact Hx|apply advance_moved]. }
  by destruct (m x) as [[] x'].
Qed.
Lemma waits_bind {E A B} (m : M WatchedChain.t E A) (k : A → M WatchedChain.t E B) :
  waits m → (∀ a, waits (k a)) → waits (m ≫= k).
Proof. intros Hm Hk g s0. apply preserves_bind; [apply Hm|intros a; apply Hk]. Qed.
Lemma waits_run {E A} (m : M WatchedChain.t E A) g x r x' : waits m → m x = (r, x') → moved g (sys x) (sys x').
Proof. intros Hm Hr. specialize (Hm g (sys x) x ltac:(done)). rewrite Hr in Hm. by destruct r. Qed.

Lemma waits_object id : waits (tr_object_contents id).
Proof using Hne. by apply waits_advance. Qed.
Lemma waits_migration w t caps :
  waits (ensure_entombed w t caps).
Proof using Hne.
  assert (∀ parent cap (submit : Address → M WatchedChain.t SettlementError unit) label, (∀ a, waits (submit a)) →
    waits (entomb_one w parent cap submit label)) as Hone.
  { intros parent cap submit label Hs. unfold entomb_one. apply waits_bind.
    - apply waits_advance. intros x. unfold entombment_needed.
      destruct (tr_object_contents _ x) as [[b|[]] x'] eqn:Hx; by injection Hx as _ <-.
    - intros []; [|by intros g s0; apply preserves_ret]. destruct cap as [a|]; [|by intros g s0; apply preserves_ret].
      apply waits_bind; [|by intros _ g s0; apply preserves_ret]. intros g s0. apply preserves_errM, Hs. }
  unfold ensure_entombed. apply waits_bind; [apply Hone; intros a; by apply waits_advance|intros x].
  apply waits_bind; [apply Hone; intros a; by apply waits_advance|intros y g s0; apply preserves_ret].
Qed.

(** *** The plan of reads at different times *)

(** A read that answers shows the state of the moment. *)
Lemma read_spec id x bytes x' :
  tr_object_contents id x = (Ok bytes, x') → x' = advance x ∧ fate x = Runs ∧
  read_object package registry vault_id id (sys x') = Ok bytes.
Proof. cbn. destruct (fate x); [|done|done]. intros [= Hr <-]. done. Qed.
Lemma state_parsed parent st bytes st' :
  state_bytes parent st = Ok bytes → parse_rotation_state bytes = Ok st' → st' = of_chain st.
Proof using H1.
  unfold state_bytes, parse_rotation_state. destruct (bcs_to_bytes _) as [bs|] eqn:Hb; [|done]. intros [= <-].
  apply bcs_decode_encode in Hb. rewrite Hb. cbn. intros [= <-]. unfold of_chain.
  by destruct (Rotation.prev st) as [[]|], (Rotation.pending st) as [[]|].
Qed.

(** Two states of one phase. *)
Lemma torn_plan s v n :
  Rotation.authority v = Rotation.authority s → Rotation.prev v = Rotation.prev s →
  fits active staged (plan (of_chain s) (of_chain v) n active staged) s.
Proof using Hne.
  intros Ha Hp. split; intros Hphase.
  - unfold plan, derive_role, of_chain. cbn. rewrite Ha, Hphase, !(decide_False (P := active = staged)), !decide_True by done.
    destruct (Rotation.pending s) as [p|], (Rotation.pending v) as [q|]; cbn; repeat (case_decide || case_match); try solve [discriminate|auto].
  - assert (derive_role (of_chain v) n active staged = derive_role (of_chain s) n active staged) as Hrole.
    { unfold derive_role, of_chain. cbn. by rewrite Ha, Hp, Hphase, !decide_True. }
    pose proof (plan_after active staged s n Hphase) as Hplan. unfold plan in *.
    assert (SuiRotation.prev (of_chain v) = SuiRotation.prev (of_chain s)) as Hpv by (cbn; by rewrite Hp).
    by rewrite Hrole, Hpv.
Qed.

Lemma planned_fits g x p x' :
  inv (sys x, g) → watcher_plan (watcher_of package registry vault_id active staged) x = (Ok p, x') →
  moved g (sys x) (sys x') ∧ fits active staged p (settlement (sys x')).
Proof using H1 Hne ids.
  intros Hi Hp. unfold watcher_plan in Hp. cbn [watcher_of w_staged] in Hp.
  apply bind_ok_inv in Hp as (st & x1 & Hst & [= <- <-]). unfold rotation_status in Hst.
  apply bind_ok_inv in Hst as (b1 & x2 & H1' & Hst). apply bind_ok_inv in Hst as (b2 & x3 & H2' & Hst).
  apply bind_ok_inv in Hst as (b3 & x4 & H3' & Hst). apply bind_ok_inv in Hst as (s1 & x5 & Hs1 & Hst).
  apply bind_ok_inv in Hst as (s2 & x6 & Hs2 & Hst). apply bind_ok_inv in Hst as (n & x7 & Hn & [= <- <-]).
  injection Hs1 as Hs1 <-. injection Hs2 as Hs2 <-. injection Hn as _ <-.
  pose proof (waits_run _ g _ _ _ (waits_object _) H1') as M1.
  pose proof (waits_run _ g _ _ _ (waits_object _) H2') as M2.
  pose proof (waits_run _ g _ _ _ (waits_object _) H3') as M3.
  apply read_spec in H1' as (-> & _ & R1). apply read_spec in H2' as (-> & _ & R2).
  apply NoDup_cons in ids as [Hnin _]. assert (rotation_state_field_id vault_id package ≠ rotation_state_field_id registry package) as Hids.
  { intros He. apply Hnin. rewrite He. left. }
  unfold read_object in R1, R2. rewrite bool_decide_true in R1 by done.
  rewrite bool_decide_false, bool_decide_true in R2 by done.
  assert (map_err (λ e, InboxParse (settlement_error_text e)) (parse_rotation_state b1) = Ok s1) as P1 by exact Hs1.
  assert (map_err (λ e, InboxParse (settlement_error_text e)) (parse_rotation_state b2) = Ok s2) as P2 by exact Hs2.
  destruct (parse_rotation_state b1) as [y1|] eqn:Y1; [|done]. destruct (parse_rotation_state b2) as [y2|] eqn:Y2; [|done].
  injection P1 as ->. injection P2 as ->.
  apply (state_parsed _ _ _ _ R1) in Y1 as ->. apply (state_parsed _ _ _ _ R2) in Y2 as ->.
  assert (moved g (sys x) (sys (advance (advance x)))) as M12 by (etrans; [exact M1|exact M2]).
  split; [etrans; [exact M12|exact M3]|]. cbn [st_settlement st_vault st_now_ms].
  assert (vault (sys (advance (advance x))) = settlement (sys (advance (advance x)))) as -> by apply (m_inv _ _ _ M12 Hi).
  destruct M2 as [_ A2 B2 _], M3 as [_ A3 B3 _].
  pose proof (torn_plan (settlement (sys (advance x))) (settlement (sys (advance (advance x)))) n A2 B2) as [F1 F2].
  split; intros Ha; rewrite A3, ?A2 in Ha; rewrite ?B3, ?B2; auto.
Qed.

(** *** A turn *)

Definition system (w : WatchedChain.t * AdoptionGuard) : RotationSystem.t * AdoptionGuard := (sys w.1, w.2).

(** Executing a plan is executing it on the chain of the moment. *)
Lemma at_once_run (m : outcome → M RotationSystem.t SettlementError unit) (a : Action) x g :
  system ((on_world (at_once staged m);; mret a) (x, g)).2
    = ((on_world (m (fate x));; mret a) (sys (advance x), g)).2.
Proof.
  rewrite !run_bind. unfold on_world, zoom, at_once. cbn [fst snd].
  by destruct (m (fate x) (sys (advance x))) as [[]].
Qed.
Lemma apply_moment m p x g :
  ∃ s o, moved g (sys x) s ∧
    system (apply m p (Some staged) (x, g)).2 = (@apply _ _ (executor o) m p (Some staged) (s, g)).2.
Proof using Hne.
  assert (∃ s o, moved g (sys x) s ∧
    system (retire_step (Some staged) (x, g)).2 = (@retire_step _ _ (executor o) (Some staged) (s, g)).2) as Hretire.
  { exists (sys (advance x)), (fate x). split; [apply advance_moved|]. apply at_once_run. }
  assert (∃ s o, moved g (sys x) s ∧
    system (adopt_step m (Some staged) (x, g)).2 = (@adopt_step _ _ (executor o) m (Some staged) (s, g)).2) as Hadopt.
  { by exists (sys x), Runs. }
  destruct p; cbn [apply].
  - by exists (sys x), Runs.
  - exists (sys (advance x)), (fate x). split; [apply advance_moved|]. apply at_once_run.
  - setoid_rewrite run_bind. cbn [getM]. cbn -[retire_step adopt_step retire_ready adopted].
    destruct (adopted g); [|done]. destruct (retire_ready m g); [done|by exists (sys x), Runs].
  - setoid_rewrite run_bind. cbn -[retire_step adopt_step retire_ready adopted]. by destruct (adopted g).
  - by exists (sys x), Runs.
Qed.

Lemma moved_inv g s s' : moved g s s' → inv (s, g) → inv (s', g).
Proof. by intros []. Qed.
Lemma migrate_inv caps w r w' :
  migrate (watcher_of package registry vault_id active staged) (targets_of package registry vault_id) caps w = (r, w') →
  inv (system w) → inv (system w').
Proof using Hne.
  destruct w as [x g]. unfold migrate, tryM, beside_guard, zoom. rewrite run_bind. cbn [fst snd].
  destruct (ensure_entombed _ _ _ x) as [o x'] eqn:Hm. intros [= _ <-]. apply moved_inv.
  by eapply waits_run; [apply waits_migration|].
Qed.

Lemma turn_inv caps w :
  inv (system w) → inv (system (turn package registry vault_id active staged caps w)).
Proof using H1 Hne ids.
  destruct w as [x g]. intros Hi. unfold turn, watch_turn. rewrite run_bind.
  unfold tryM at 1, beside_guard, zoom at 1. cbn [fst snd].
  destruct (watcher_plan (watcher_of package registry vault_id active staged) x) as [[p|e] x1] eqn:Hp.
  - apply (planned_fits g) in Hp as [Hm Hf]; [|done]. rewrite run_bind. cbn [getM]. cbv beta iota delta [getM].
    rewrite run_bind. unfold tryM at 1. cbn [fst snd].
    destruct (apply_moment (now (sys x1)) p x1 g) as (s & o & Hms & Ha). cbn [now_ms here_clock clock] in Ha |- *.
    destruct (apply _ p _ (x1, g)) as [r w2]. cbn [snd] in Ha |- *.
    change (inv (system w2)). rewrite Ha. pose proof (moved_inv _ _ _ Hms (moved_inv _ _ _ Hm Hi)) as His.
    destruct Hms as [_ Hauth Hprev Hnow]. destruct s as [s v n k].
    pose proof (i_agree _ _ _ His) as Hv. cbn in Hv, Hauth, Hprev, Hnow. subst v.
    apply apply_inv; [done|done| |done]. unfold fits in *. by rewrite Hauth, Hprev.
  - destruct (migrate (watcher_of package registry vault_id active staged) (targets_of package registry vault_id) caps (x1, g)) as [r w2] eqn:Hm. cbn. eapply migrate_inv; [exact Hm|].
    assert (moved g (sys x) (sys x1)) as Hx; [|by apply (moved_inv _ _ _ Hx)].
    eapply waits_run; [|exact Hp]. unfold watcher_plan, watcher_of. cbn [w_staged]. unfold rotation_status.
    repeat first [apply waits_bind; [|intros ?] | apply waits_object
                 | by intros ??; first [apply preserves_lift|apply preserves_ret]].
Qed.

Lemma life_inv w w' : rtc (life package registry vault_id active staged) w w' → inv (system w) → inv (system w').
Proof using H1 Hne ids.
  induction 1 as [|w1 w2 w3 Hs _ IH]; [done|]. intros Hi. apply IH.
  destruct Hs as [caps w|e x g|x g script' stop' Hre]; [by apply turn_inv|by apply (moved_inv _ _ _ (happen_moved g _ e))|].
  cbn. eapply (step_inv active staged Hne); [|exact Hi]. exact (RotationSystem.step_restart active staged (sys x, g) Hre).
Qed.

Lemma watch_steps caps fuel next w w' :
  watch (watcher_of package registry vault_id active staged) (targets_of package registry vault_id) caps (Some staged)
    fuel next w = Some w' →
  rtc (life package registry vault_id active staged) w w'.
Proof.
  revert next w. induction fuel as [|fuel IH]; intros next [x g]; cbn [watch]; [done|].
  destruct (shutting_down (x, g).1); [by intros [= <-]|]. intros Hr%IH.
  cbn [fst snd] in Hr. destruct (now_ms x <? next).
  - eapply rtc_l; [apply (life_event _ _ _ _ _ (Elapse (next - now_ms x)) x g)|].
    eapply rtc_l; [apply (life_turn _ _ _ _ _ caps)|exact Hr].
  - eapply rtc_l; [apply (life_turn _ _ _ _ _ caps)|exact Hr].
Qed.

(** *** A turn while nothing else happens *)

Context (encoded : ∀ f : FieldRotationBcs, is_ok (bcs_to_bytes f) = true)
  (clock_encoded : ∀ c : ClockBcs, is_ok (bcs_to_bytes c) = true).

Lemma state_readable parent st : ∃ bytes, state_bytes parent st = Ok bytes ∧ parse_rotation_state bytes = Ok (of_chain st).
Proof using H1 encoded.
  unfold state_bytes, parse_rotation_state.
  match goal with |- context [map_err InboxRpc ?b] =>
    assert (is_ok b = true) as He by exact (encoded _); destruct b as [bs|] eqn:Hb; [|discriminate He] end.
  exists bs. split; [done|]. apply bcs_decode_encode in Hb. rewrite Hb. cbn. unfold of_chain.
  by destruct (Rotation.prev st) as [[]|], (Rotation.pending st) as [[]|].
Qed.
Lemma quiet_read id x bytes :
  script x = [] → read_object package registry vault_id id (sys x) = Ok bytes →
  tr_object_contents id x = (Ok bytes, x).
Proof. destruct x as [s sc st]. cbn. intros -> Hr. unfold fate, WatchedChain.advance. cbn. by rewrite Hr. Qed.
Lemma quiet_plan x :
  script x = [] →
  watcher_plan (watcher_of package registry vault_id active staged) x
    = (Ok (plan (of_chain (settlement (sys x))) (of_chain (vault (sys x))) (now (sys x)) active staged), x).
Proof using H1 H3 ids encoded clock_encoded.
  intros Hs. destruct (state_readable registry (settlement (sys x))) as (b1 & E1 & P1).
  destruct (state_readable vault_id (vault (sys x))) as (b2 & E2 & P2).
  assert (is_ok (bcs_to_bytes ((SUI_CLOCK_ID, now (sys x)) : ClockBcs)) = true) as He by apply clock_encoded.
  destruct (bcs_to_bytes ((SUI_CLOCK_ID, now (sys x)) : ClockBcs)) as [b3|] eqn:E3; [|discriminate He].
  apply NoDup_cons in ids as [Hn1 Hrest]. apply NoDup_cons in Hrest as [Hn2 _].
  unfold watcher_plan, rotation_status. cbn [watcher_of w_staged w_registry w_vault w_package w_active].
  rewrite !run_bind, (quiet_read _ x b1 Hs); cycle 1.
  { unfold read_object. by rewrite bool_decide_true. }
  rewrite !run_bind, (quiet_read _ x b2 Hs); cycle 1.
  { unfold read_object. rewrite bool_decide_false, bool_decide_true; [done..|]. intros He'. apply Hn1. rewrite <- He'. left. }
  rewrite !run_bind, (quiet_read _ x b3 Hs); cycle 1.
  { unfold read_object. rewrite (bool_decide_false (SUI_CLOCK_ID = rotation_state_field_id registry package)).
    2:{ intros He'. apply Hn1. rewrite <- He'. right. left. }
    rewrite (bool_decide_false (SUI_CLOCK_ID = rotation_state_field_id vault_id package)).
    2:{ intros He'. apply Hn2. rewrite <- He'. left. }
    by rewrite bool_decide_true, E3. }
  unfold lift. rewrite !run_bind, P1. cbn [map_err]. rewrite !run_bind, P2. cbn [map_err]. rewrite !run_bind.
  apply bcs_decode_encode in E3. unfold parse_clock. by rewrite E3.
Qed.

Lemma quiet_turn_applies caps x g :
  script x = [] →
  turn package registry vault_id active staged caps (x, g)
    = (apply (now (sys x)) (plan (of_chain (settlement (sys x))) (of_chain (vault (sys x))) (now (sys x)) active staged)
         (Some staged) (x, g)).2.
Proof using H1 H3 ids encoded clock_encoded.
  intros Hs. unfold turn, watch_turn. rewrite run_bind. unfold tryM at 1, beside_guard, zoom at 1. cbn [fst snd].
  pose proof (quiet_plan x Hs) as Hq. unfold here_reads in Hq. rewrite Hq. cbv iota beta. rewrite run_bind.
  cbv beta iota delta [getM]. rewrite run_bind. unfold tryM at 1. cbn [fst snd].
  change (now_ms x) with (now (sys x)). by destruct (apply _ _ _ (x, g)).
Qed.

(** On a quiet chain the turn is the poll of the protocol. *)
Lemma quiet_turn caps x g :
  script x = [] →
  let w := turn package registry vault_id active staged caps (x, g) in
  system w = poll active staged Runs (sys x, g) ∧ script w.1 = [] ∧ stop_at w.1 = stop_at x.
Proof using H1 H3 ids encoded clock_encoded.
  intros Hs w. subst w. rewrite quiet_turn_applies by done. unfold poll. cbn [fst snd].
  generalize (plan (of_chain (settlement (sys x))) (of_chain (vault (sys x))) (now (sys x)) active staged).
  intros p. remember (now (sys x)) as m eqn:Em. clear Em.
  assert (∀ (tx : outcome → M RotationSystem.t SettlementError unit) (a : Action),
    let w := ((on_world (at_once staged tx);; mret a) (x, g)).2 in
    system w = ((on_world (tx Runs);; mret a) (sys x, g)).2 ∧ script w.1 = [] ∧ stop_at w.1 = stop_at x) as Htx.
  { intros tx a. destruct x as [s sc st]. cbn in Hs. subst sc. rewrite !run_bind. unfold on_world, zoom, at_once.
    unfold fate, WatchedChain.advance. cbn. by destruct (tx Runs s) as [[] s']. }
  assert (let w := (adopt_step m (Some staged) (x, g)).2 in
    system w = (@adopt_step _ _ (executor Runs) m (Some staged) (sys x, g)).2 ∧ script w.1 = [] ∧ stop_at w.1 = stop_at x)
    as Hadopt by (destruct x; cbn in Hs; by subst).
  pose proof (Htx (λ o, @ex_retire _ _ (executor o) staged) ARetired) as Hretire.
  destruct p; cbn [apply]; [done|apply (Htx (λ o, @ex_claim _ _ (executor o) staged))| | |done]; setoid_rewrite run_bind;
    cbn -[retire_step adopt_step retire_ready adopted]; destruct (adopted g); try exact Hadopt; [|exact Hretire].
  destruct (retire_ready m g); [exact Hretire|done].
Qed.
End facts.
End WatchFacts.

(** ** Properties *)

Section Properties.
Import RotationSystem WatchedChain.
Context `{SuiSdk} `{BcsLaws FieldRotationBcs} `{BcsLaws ClockBcs}.

(** Where a node starts. *)
Definition started (active : Address) (n : N) (script : list (list event * outcome)) (stop : option N)
    : WatchedChain.t * AdoptionGuard :=
  (mk_watched (RotationSystem.start active n).1 script stop, guard_new RETIRE_QUIET).

(** The fields a watcher reads are different objects. *)
Definition apart_fields (package registry vault_id : Address) : Prop :=
  NoDup [rotation_state_field_id registry package; rotation_state_field_id vault_id package; SUI_CLOCK_ID].


(** C28: A claimed rotation finishes.  From any state of such a life whose
    authority is the staged key, whatever happened to the node before, two turns
    on a quiet chain, a quiet interval apart, end with the signer on the staged
    key and the previous authority retired on both objects. *)
Theorem quiet_watch_converges package registry vault_id active staged n script stop w caps :
  active ≠ staged → apart_fields package registry vault_id →
  (∀ f : FieldRotationBcs, is_ok (bcs_to_bytes f) = true) → (∀ c : ClockBcs, is_ok (bcs_to_bytes c) = true) →
  rtc (life package registry vault_id active staged) (started active n script stop) w →
  Rotation.authority (settlement (sys w.1)) = staged → WatchedChain.script w.1 = [] →
  let w1 := turn package registry vault_id active staged caps w in
  let w2 := turn package registry vault_id active staged caps
              (mk_watched (happen staged (sys w1.1) (Elapse RETIRE_QUIET)) [] (stop_at w1.1), w1.2) in
  let s := sys w2.1 in
  signer s = staged ∧ settlement s = vault s ∧
  Rotation.authority (settlement s) = staged ∧ Rotation.prev (settlement s) = None.
Proof.
  intros Hne Hids Hf Hc Hl Ha Hs w1 w2 s. destruct w as [x g].
  assert (RotationFacts.inv active staged (sys x, g)) as Hi.
  { change (sys x, g) with (WatchFacts.system (x, g)).
    eapply WatchFacts.life_inv; [done|exact Hids|exact Hl|]. apply RotationFacts.inv_start. }
  destruct (WatchFacts.quiet_turn package registry vault_id active staged Hids Hf Hc caps x g Hs) as (E1 & _ & _).
  destruct (WatchFacts.quiet_turn package registry vault_id active staged Hids Hf Hc caps
    (mk_watched (happen staged (sys w1.1) (Elapse RETIRE_QUIET)) [] (stop_at w1.1)) w1.2 eq_refl) as (E2 & _ & _).
  pose proof (RotationFacts.polls_converge active staged Hne (sys x, g) Hi Ha) as Hend. cbv zeta in Hend.
  change (turn package registry vault_id active staged caps (x, g)) with w1 in E1. rewrite <- E1 in Hend.
  change (s) with (WatchFacts.system w2).1. unfold w2. rewrite E2. exact Hend.
Qed.
End Properties.

(** ** A rotation asked for between two reads *)

Module WatchDemo.
Import RotationSystem WatchedChain Codec.Demo Codec.CountableCodec.
Definition package : Address := array_fill 32 x0a.
Definition registry : Address := array_fill 32 x0b.
Definition vault_id : Address := array_fill 32 x0c.
Abbreviation demo_turn := (turn package registry vault_id demo_active demo_staged (mk_caps None None)).

(** Fields are told apart by their parents. *)
#[export] Instance by_parent : SuiSdk := {|
  address_from_str := @address_from_str sui;
  address_to_hex := @address_to_hex sui;
  derive_dynamic_child_id p _ _ := p;
  struct_tag_from_str := @struct_tag_from_str sui;
  struct_tag_text := @struct_tag_text sui;
  identifier_new := @identifier_new sui
|}.

(** The request lands between the reads of the first turn; the claim of the
    second loses its reply. *)
Definition demo_script : list (list event * outcome) :=
  [([], Runs); ([Request 600000], Runs); ([], Runs);
   ([], Runs); ([], Runs); ([], Runs); ([], RunsSilently)].
Definition torn := demo_turn (started demo_active 0 demo_script None).
Definition later : WatchedChain.t * AdoptionGuard :=
  (mk_watched (happen demo_staged (sys torn.1) (Elapse 600000)) (script torn.1) (stop_at torn.1), torn.2).
Definition claimed := demo_turn later.

Lemma demo_fields : apart_fields package registry vault_id.
Proof. apply (bool_decide_unpack _). by vm_compute. Qed.
Lemma demo_life :
  rtc (life package registry vault_id demo_active demo_staged) (started demo_active 0 demo_script None) claimed.
Proof.
  eapply rtc_l; [apply (life_turn _ _ _ _ _ (mk_caps None None))|]. change (turn _ _ _ _ _ _ _) with torn.
  rewrite (surjective_pairing torn).
  eapply rtc_l; [apply (life_event _ _ _ _ _ (Elapse 600000))|].
  apply rtc_once. apply (life_turn _ _ _ _ _ (mk_caps None None)).
Qed.
(** The torn plan was refused; the claim went through. *)
Lemma demo_states :
  Rotation.authority (settlement (sys torn.1)) = demo_active ∧
  Rotation.authority (settlement (sys claimed.1)) = demo_staged ∧ script claimed.1 = [].
Proof. split_and!; by vm_compute. Qed.


Lemma quiet_watch_converges_witness :
  signer (sys (demo_turn (mk_watched (happen demo_staged (sys (demo_turn claimed).1) (Elapse RETIRE_QUIET)) []
                            (stop_at (demo_turn claimed).1), (demo_turn claimed).2)).1) = demo_staged.
Proof.
  exact (proj1 (quiet_watch_converges package registry vault_id demo_active demo_staged 0 demo_script None claimed
    (mk_caps None None) demo_keys demo_fields (λ _, eq_refl) (λ _, eq_refl) demo_life (proj1 (proj2 demo_states))
    (proj2 (proj2 demo_states)))).
Defined.
End WatchDemo.
