(* ===== verification/Client.v ===== *)
(** [crates/sui/src/lib.rs]: the Walrus data-availability client, the
    settlement client wrapped around it, and the availability traits of
    [crates/core/src/lib.rs] they implement.

    The HTTP transport is the class [Http]; [WalrusSim] instantiates it with a
    content-addressed blob store whose requests can fail. *)

From S2P Require Import Prelude Text Codec Disk Core Wire Sui.
Local Open Scope string_scope.
Local Open Scope list_scope.
Local Open Scope N_scope.

(** ** HTTP *)

(** A response's status and its body; reading a body can fail. *)
Record Response := mk_response { status : N; body : result string (list byte) }.
Definition is_success (s : N) : bool := (200 <=? s) && (s <=? 299).

(** [http_put url bearer_token body] and [http_get url]; [http_text] decodes a
    body as text, replacing invalid UTF-8. *)
Class Http (W : Type) := {
  http_put : string → option string → list byte → M W string Response;
  http_get : string → M W string Response;
  http_text : list byte → string
}.

(** ** Configuration and store responses *)

Record Config := mk_config {
  publisher_url : string;
  aggregator_url : string;
  epochs : N;
  sui_rpc_url : string;
  publisher_auth_token : option string
}.

Definition MAX_EPOCHS : N := 53.
Definition TESTNET_AGGREGATOR : string := "https://aggregator.walrus-testnet.walrus.space".
Definition TESTNET_PUBLISHER : string := "https://publisher.walrus-testnet.walrus.space".
Definition config_default : Config :=
  mk_config TESTNET_PUBLISHER TESTNET_AGGREGATOR MAX_EPOCHS
    "https://fullnode.testnet.sui.io:443" None.

(** The blob ids of [newlyCreated] and [alreadyCertified]. *)
Record StoreResponse := mk_store_response {
  newly_created : option string;
  already_certified : option string
}.
#[global] Instance StoreResponse_eq_dec : EqDecision StoreResponse.
Proof. solve_decision. Defined.
#[global] Program Instance StoreResponse_countable : Countable StoreResponse :=
  inj_countable' (λ r, (newly_created r, already_certified r)) (λ p, mk_store_response p.1 p.2) _.
Next Obligation. by intros []. Qed.

Definition response_blob_id (r : StoreResponse) : option string :=
  match newly_created r with Some id => Some id | None => already_certified r end.

(** ** The client *)

Section Client.
Context {W PrivKey PubKey Tx TxSig : Type} `{Ed25519 PrivKey PubKey} `{Base64} `{SuiSdk}
  `{SuiRpc W PrivKey Tx TxSig} `{Http W}.
Context `{Json StoreResponse} `{Bcs (list Wire.WireBlock)}.
Abbreviation Op := (M W Walrus.Error).

(** The signer and its address snapshot live behind shared handles in the
    program; here they are the client's fields. *)
Record Client := mk_client {
  config : Config;
  settlement : option (Settlement PrivKey);
  sender_snapshot : option Address
}.

Definition client_new (c : Config) : Client := mk_client c None None.
Definition with_settlement (s : Settlement PrivKey) (c : Client) : Client :=
  mk_client (config c) (Some s) (Some (s_sender s)).
Definition has_settlement (c : Client) : bool :=
  match settlement c with Some _ => true | None => false end.
Definition settlement_sender (c : Client) : option Address := sender_snapshot c.

Definition client_sui_balance (c : Client) : Op (option N) :=
  match settlement_sender c with
  | None => mret None
  | Some owner =>
      Some <$> errM (λ e, Walrus.Settlement (settlement_error_text e))
                 (Sui.sui_balance (sui_rpc_url (config c)) (address_to_hex owner))
  end.

Definition store_url (c : Config) : string :=
  publisher_url c +:+ "/v1/blobs?epochs=" +:+ fmt_dec (epochs c) +:+ "&permanent=true".
Definition blob_url (c : Config) (id : BlobId) : string :=
  aggregator_url c +:+ "/v1/blobs/" +:+ BlobIds.encode id.

(** [response.text().await.unwrap_or_default()] *)
Definition error_body (r : Response) : string :=
  match body r with Ok bs => http_text bs | Err _ => "" end.

(** [response.json()] *)
Definition parse_response (r : Response) : result Walrus.Error StoreResponse :=
  bs ← map_err Walrus.Transport (body r);
  text ← ok_or (from_utf8 bs) (Walrus.Transport "error decoding response body");
  map_err Walrus.Transport (json_from_str text).

Definition store_blob (c : Client) (bytes : list byte) : Op BlobId :=
  response ← errM Walrus.Transport
               (http_put (store_url (config c)) (publisher_auth_token (config c)) bytes);
  if negb (is_success (status response)) then
    throw (Walrus.Store (status response) (error_body response))
  else
    parsed ← lift (parse_response response);
    id ← lift (ok_or (response_blob_id parsed) Walrus.MissingBlobId);
    lift (BlobIds.decode id).

Definition fetch_blob (c : Client) (id : BlobId) : Op (list byte) :=
  response ← errM Walrus.Transport (http_get (blob_url (config c) id));
  if negb (is_success (status response)) then
    throw (Walrus.Read (status response) (error_body response))
  else lift (map_err Walrus.Transport (body response)).

(** *** [DataAvailability] and [Settlement] *)

Definition publish (c : Client) (blocks : list Block) : M W Core.Error BlobId :=
  bytes ← lift (map_err Walrus.to_core (Wire.Wire.encode blocks));
  errM Walrus.to_core (store_blob c bytes).

Definition fetch (c : Client) (id : BlobId) : M W Core.Error (list Block) :=
  bytes ← errM Walrus.to_core (fetch_blob c id);
  lift (map_err Walrus.to_core (Wire.Wire.decode bytes)).

Definition settlement_guard (c : Client) : result Core.Error (Settlement PrivKey) :=
  ok_or (settlement c) (SettlementE "settlement not configured").

Definition commit (c : Client) (block : Block) (blob : BlobId) : M W Core.Error unit :=
  s ← lift (settlement_guard c);
  errM (λ e, SettlementE (settlement_error_text e)) (Sui.commit s (header block) blob).

Definition commit_with_cursor (c : Client) (block : Block) (blob : BlobId) (tracked_cursor : N)
    : M W Core.Error unit :=
  s ← lift (settlement_guard c);
  errM (λ e, SettlementE (settlement_error_text e))
    (Sui.commit_with_cursor s (header block) blob tracked_cursor).
End Client.
#[global] Arguments Client PrivKey : clear implicits.

(** The client as an availability and settlement layer. *)
Definition client_da {W PrivKey : Type} `{Base64} `{Http W} `{Json StoreResponse}
    `{Bcs (list Wire.WireBlock)} (c : Client PrivKey) : DataAvailability W :=
  {| da_publish := publish c; da_fetch := fetch c |}.
Definition client_settlement {W PrivKey PubKey Tx TxSig : Type} `{Ed25519 PrivKey PubKey}
    `{SuiSdk} `{SuiRpc W PrivKey Tx TxSig} (c : Client PrivKey) : SettlementLayer W :=
  {| commit_block b blob cursor :=
       match cursor with
       | Some n => commit_with_cursor c b blob n
       | None => commit c b blob
       end |}.

(** ** What Walrus promises

    [holds w id bytes]: the aggregator's blob [id] is [bytes].  A store that
    answers with a blob id has stored the bytes under it; a successful read of
    a held blob returns its bytes; no request ever changes a held blob. *)
Class WalrusLaws (W : Type) `{Http W} `{Json StoreResponse} := {
  holds : W → string → list byte → Prop;
  put_holds url token bs w r w' p id :
    http_put url token bs w = (Ok r, w') → is_success (status r) = true →
    parse_response r = Ok p → response_blob_id p = Some id → holds w' id bs;
  get_holds agg id bs bs' w r w' :
    http_get (agg +:+ "/v1/blobs/" +:+ id) w = (Ok r, w') → is_success (status r) = true →
    holds w id bs → body r = Ok bs' → bs' = bs;
  put_permanent url token bs w r w' id bs' :
    http_put url token bs w = (r, w') → holds w id bs' → holds w' id bs';
  get_permanent url w r w' id bs' : http_get url w = (r, w') → holds w id bs' → holds w' id bs'
}.

(** Requests the world may serve between a publish and a fetch. *)
Inductive request {W} `{Http W} : W → W → Prop :=
| request_put url token bs w r w' : http_put url token bs w = (r, w') → request w w'
| request_get url w r w' : http_get url w = (r, w') → request w w'.

Section Walrus.
Context {W PrivKey : Type} `{!Base64} `{!Http W} `{!Json StoreResponse} `{!WalrusLaws W}.

Lemma requests_keep w w' id bs : rtc request w w' → holds w id bs → holds w' id bs.
Proof.
  induction 1 as [|w w1 w2 [] _ IH]; [done|intros Hh; apply IH..].
  - by eapply put_permanent.
  - by eapply get_permanent.
Qed.

Lemma store_blob_holds `{!Base64Laws} (c : Client PrivKey) bs w id w' :
  store_blob c bs w = (Ok id, w') → holds w' (BlobIds.encode id) bs.
Proof.
  unfold store_blob, errM. rewrite run_bind.
  destruct (http_put _ _ _ w) as [[r|e] w1] eqn:Hp; cbn [map_err]; [|done].
  destruct (is_success _) eqn:Hs; cbn [negb]; [|done].
  unfold lift. rewrite run_bind. destruct (parse_response r) as [p|] eqn:Hr; [|done].
  rewrite run_bind. destruct (response_blob_id p) as [text|] eqn:Hid; cbn [ok_or]; [|done].
  intros [= Hd <-]. assert (BlobIds.encode id = text) as ->.
  { unfold BlobIds.decode in Hd. destruct (b64url_decode text) as [raw|] eqn:Ht; [|done].
    cbn in Hd. destruct (try_into_array 32 raw) as [a|] eqn:Ha; [|done].
    apply try_into_array_Some in Ha as ->. injection Hd as <-. by apply b64url_canonical. }
  by eapply put_holds.
Qed.

Lemma fetch_blob_held (c : Client PrivKey) id bs w r w' :
  holds w (BlobIds.encode id) bs → fetch_blob c id w = (r, w') →
  r = Ok bs ∨ (∃ m, r = Err (Walrus.Transport m)) ∨ ∃ st m, r = Err (Walrus.Read st m).
Proof.
  intros Hh. unfold fetch_blob, errM. rewrite run_bind.
  destruct (http_get _ w) as [[x|e] w1] eqn:Hg; cbn [map_err]; [|intros [= <- _]; by eauto].
  destruct (is_success _) eqn:Hs; cbn [negb]; [|intros [= <- _]; by eauto].
  unfold lift. destruct (body x) as [bs'|m] eqn:Hb; intros [= <- _]; [|by eauto].
  left. cbn. f_equal. by eapply get_holds.
Qed.
End Walrus.

(** C36: What the sequencer publishes is what a full node fetches.  After a
    successful publish of a non-empty batch, whatever requests Walrus serves
    in between, a fetch of the returned id yields exactly the batch or fails
    with a transport or read error: never other blocks, never a decoding
    error. *)
Theorem published_batch_is_fetched {W PrivKey} `{Base64Laws} `{WalrusLaws W}
    `{BcsLaws (list Wire.WireBlock)} (c c' : Client PrivKey) blocks id w w1 w2 r w3 :
  blocks ≠ [] → publish c blocks w = (Ok id, w1) → rtc request w1 w2 →
  fetch c' id w2 = (r, w3) →
  r = Ok blocks ∨
  ∃ e, r = Err (Walrus.to_core e) ∧
       ((∃ m, e = Walrus.Transport m) ∨ ∃ st m, e = Walrus.Read st m).
Proof.
  intros Hne. unfold publish, fetch, lift, errM. rewrite !run_bind.
  destruct (Wire.Wire.encode blocks) as [bs|] eqn:Henc; cbn [map_err]; [|done].
  destruct (store_blob c bs w) as [[i|] w'] eqn:Hst; cbn [map_err]; [|done].
  intros [= -> ->] Hreq. apply store_blob_holds in Hst. eapply requests_keep in Hst; [|done].
  destruct (fetch_blob c' id w2) as [x w''] eqn:Hf.
  destruct (fetch_blob_held c' id bs w2 x w'' Hst Hf) as [->|[[m ->]|(st & m & ->)]];
    cbn [map_err].
  - intros [= <- _]. left. rewrite (Wire.Wire.decode_encode _ _ Henc).
    by rewrite bool_decide_false.
  - intros [= <- _]. right. by eauto.
  - intros [= <- _]. right. by eauto 6.
Qed.

(** *** A concrete store *)

Module WalrusSim.
(** Blobs by id; [down]: requests that will fail. *)
Record t := mk { blobs : gmap string (list byte); down : list bool }.

Definition available (w : t) : bool := match down w with b :: _ => negb b | [] => true end.
Definition next (w : t) : t := mk (blobs w) (tail (down w)).

Section sim.
Context `{Base64} `{Hashes} `{Json StoreResponse}.

Definition blob_text (bs : list byte) : string := b64url_encode (arr_bytes (sha256 bs)).
Definition answer (r : StoreResponse) : Response :=
  match json_to_string_pretty r with
  | Ok text => mk_response 200 (Ok (string_bytes text))
  | Err e => mk_response 500 (Err e)
  end.

(** The id is a URL's last 32 characters (the length [blob_text] has with the
    codec of the witness below). *)
Definition last_chars (s : string) : string :=
  bytes_string (drop (length (string_bytes s) - 32) (string_bytes s)).

Definition put (bs : list byte) (w : t) : result string Response * t :=
  if available w then
    let id := blob_text bs in
    if negb (Nat.eqb (length (string_bytes id)) 32) then (Err "bad id", next w)
    else match blobs w !! id with
    | None => (Ok (answer (mk_store_response (Some id) None)), mk (<[id:=bs]> (blobs w)) (tail (down w)))
    | Some old =>
        if bool_decide (old = bs) then (Ok (answer (mk_store_response None (Some id))), next w)
        else (Err "collision", next w)
    end
  else (Err "unavailable", next w).
Definition get (url : string) (w : t) : result string Response * t :=
  if available w then
    match blobs w !! last_chars url with
    | Some bs => (Ok (mk_response 200 (Ok bs)), next w)
    | None => (Ok (mk_response 404 (Ok [])), next w)
    end
  else (Err "unavailable", next w).

#[export] Instance http : Http t := {|
  http_put _ _ bs := put bs;
  http_get url := get url;
  http_text bs := bytes_string bs
|}.

Lemma last_chars_app s id : length (string_bytes id) = 32%nat → last_chars (s +:+ id) = id.
Proof.
  intros Hl. unfold last_chars. rewrite string_bytes_app.
  rewrite length_app, Hl, Nat.add_sub, drop_app_length. apply bytes_string_bytes.
Qed.

Definition keeps (w : t) (id : string) (bs : list byte) : Prop :=
  blobs w !! id = Some bs ∧ length (string_bytes id) = 32%nat.

#[export] Program Instance laws `{!JsonLaws StoreResponse} : WalrusLaws t := {| holds := keeps |}.
Next Obligation.
  intros JL url token bs w r w' p id. cbn. unfold put, answer.
  destruct (available w); [|done]. destruct (Nat.eqb_spec (length (string_bytes (blob_text bs))) 32) as [Hl|]; [|done].
  cbn [negb].
  assert (∀ x text, json_to_string_pretty x = Ok text →
          parse_response (mk_response 200 (Ok (string_bytes text))) = Ok p → x = p) as Hparse.
  { intros x text Hx. unfold parse_response. cbn. rewrite (json_utf8 _ _ Hx). cbn.
    rewrite (json_roundtrip _ _ Hx). by intros [= ->]. }
  unfold keeps. destruct (blobs w !! blob_text bs) as [old|] eqn:Hw.
  - destruct (decide (old = bs)) as [->|]; [rewrite bool_decide_true by done|by rewrite bool_decide_false].
    destruct (json_to_string_pretty _) eqn:Hj; intros [= <- <-]; [|done].
    intros _ Hp%(Hparse _ _ Hj). subst p. intros [= <-]. done.
  - destruct (json_to_string_pretty _) eqn:Hj; intros [= <- <-]; [|done].
    intros _ Hp%(Hparse _ _ Hj). subst p. intros [= <-]. cbn. by rewrite lookup_insert_eq.
Qed.
Next Obligation.
  intros JL agg id bs bs' w r w'. cbn. unfold get, keeps. destruct (available w); [|done].
  intros Hg Hs [Hb Hl] Hbody. rewrite <- string_app_assoc, last_chars_app, Hb in Hg by done.
  injection Hg as <- _. cbn in Hbody. congruence.
Qed.
Next Obligation.
  intros JL url token bs w r w' id bs'. cbn. unfold put, keeps. intros Hp [Hb Hl]. split; [|done]. revert Hp.
  destruct (available w); [|by intros [= _ <-]]. destruct (negb _); [by intros [= _ <-]|].
  destruct (blobs w !! blob_text bs) eqn:Hw; [destruct (bool_decide _); by intros [= _ <-]|].
  intros [= _ <-]. cbn. rewrite lookup_insert_ne; [done|]. congruence.
Qed.
Next Obligation.
  intros JL url w r w' id bs'. cbn. unfold get, keeps. intros Hg ?.
  destruct (available w); [destruct (blobs w !! _)|]; by injection Hg as _ <-.
Qed.
End sim.
End WalrusSim.

Section ClientWitness.
Import Codec.Demo Codec.CountableCodec WalrusSim.
Definition demo_client : Client (array 32) := client_new config_default.
Definition demo_batch : list Block := [mk_Block header0 [x01; x02] None].
(** The upload is answered, the first read fails, the second succeeds. *)
Definition walrus0 : WalrusSim.t := WalrusSim.mk ∅ [false; true].
Lemma published_batch_is_fetched_witness :
  ∃ id w1 w2 r w3,
    publish demo_client demo_batch walrus0 = (Ok id, w1) ∧
    (fetch demo_client id w1).2 = w2 ∧ fetch demo_client id w2 = (r, w3) ∧
    (r = Ok demo_batch ∨
     ∃ e, r = Err (Walrus.to_core e) ∧
          ((∃ m, e = Walrus.Transport m) ∨ ∃ st m, e = Walrus.Read st m)).
Proof.
  destruct (publish demo_client demo_batch walrus0) as [[id|e] w1] eqn:Hp;
    [|vm_compute in Hp; discriminate].
  destruct (fetch demo_client id (fetch demo_client id w1).2) as [r w3] eqn:Hf.
  exists id, w1, (fetch demo_client id w1).2, r, w3. do 3 (split; [done|]).
  refine (published_batch_is_fetched demo_client demo_client demo_batch id walrus0 w1 _ r w3
            ltac:(done) Hp _ Hf).
  eapply rtc_once, (request_get (blob_url config_default id) w1 (http_get (blob_url config_default id) w1).1).
  unfold fetch, fetch_blob, errM. rewrite !run_bind.
  change (config demo_client) with config_default.
  destruct (http_get _ w1) as [[x|] w'] eqn:Hg; cbn [map_err]; [|done].
  cbn [fst]. destruct (is_success _); cbn [negb]; unfold lift, throw; cbn;
    [destruct (body x); cbn|]; done.
Defined.
End ClientWitness.
