(* ===== verification/JsonValue.v ===== *)
(** [serde_json::Value] and the accessors the node's JSON-RPC clients and the
    MCP server use on it. *)

From S2P Require Import Prelude Text.
Local Open Scope string_scope.
Local Open Scope list_scope.
Local Open Scope N_scope.

(** Objects keep their members in order; the first of a repeated key counts
    (serde_json keeps one member per key). *)
Inductive Value :=
| VNull
| VBool (b : bool)
| VInt (z : Z)
| VFloat (text : string)
| VStr (s : string)
| VArr (l : list Value)
| VObj (l : list (string * Value)).

Fixpoint assoc {A} (k : string) (l : list (string * A)) : option A :=
  match l with
  | [] => None
  | (k', v) :: l => if decide (k = k') then Some v else assoc k l
  end.

(** [value.get(key)] *)
Definition get (k : string) (v : Value) : option Value :=
  match v with VObj l => assoc k l | _ => None end.
(** [value.get(i)] *)
Definition get_idx (i : nat) (v : Value) : option Value :=
  match v with VArr l => l !! i | _ => None end.
(** [value[key]]: [Null] when absent. *)
Definition index (k : string) (v : Value) : Value := default VNull (get k v).

Definition as_str (v : Value) : option string := match v with VStr s => Some s | _ => None end.
Definition as_arr (v : Value) : option (list Value) := match v with VArr l => Some l | _ => None end.
Definition as_i64 (v : Value) : option Z :=
  match v with
  | VInt z => if decide (-9223372036854775808 ≤ z ≤ 9223372036854775807)%Z then Some z else None
  | _ => None
  end.
Definition as_u64 (v : Value) : option N :=
  match v with
  | VInt z => if decide (0 ≤ z ≤ 18446744073709551615)%Z then Some (Z.to_N z) else None
  | _ => None
  end.
Definition as_bool (v : Value) : option bool := match v with VBool b => Some b | _ => None end.
Definition is_null (v : Value) : bool := match v with VNull => true | _ => false end.

(** [Deserialize] and [Serialize] through [from_value] and [to_value]. *)
Class FromValue (A : Type) := from_value : Value → result string A.
Class ToValue (A : Type) := to_value : A → result string Value.

#[global] Instance from_value_value : FromValue Value := λ v, Ok v.
#[global] Instance from_value_string : FromValue string := λ v,
  match v with VStr s => Ok s | _ => Err "invalid type: expected a string" end.
#[global] Instance from_value_option {A} `{FromValue A} : FromValue (option A) := λ v,
  match v with VNull => Ok None | _ => Some <$> from_value v end.
#[global] Instance to_value_string : ToValue string := λ s, Ok (VStr s).
#[global] Instance to_value_bool : ToValue bool := λ b, Ok (VBool b).
#[global] Instance to_value_option {A} `{ToValue A} : ToValue (option A) := λ o,
  match o with None => Ok VNull | Some a => to_value a end.

Definition int (n : N) : Value := VInt (Z.of_N n).

Lemma as_u64_int n : is_u64 n → as_u64 (int n) = Some n.
Proof.
  unfold as_u64, int, is_u64, U64_MAX. intros. rewrite decide_True by lia. by rewrite N2Z.id.
Qed.
