(* ===== verification/Engine.v ===== *)
(** [crates/engine/src/{client,lib}.rs]: the JSON-RPC client of the execution
    layer's Engine API, and the facade that builds, accepts and finalizes
    blocks. *)

From S2P Require Import Prelude Text Codec Disk Core JsonValue.
Local Open Scope string_scope.
Local Open Scope list_scope.
Local Open Scope N_scope.

(** ** Errors *)

Inductive EngineError :=
| ERpc (code : Z) (message : string)
| EDecode (msg : string)
| ETransport (msg : string)
| EJwt (msg : string)
| EAuthSecret (msg : string)
| EUrl (msg : string).
#[global] Instance EngineError_eq_dec : EqDecision EngineError.
Proof. solve_decision. Defined.

Definition fmt_int (z : Z) : string :=
  if (z <? 0)%Z then "-" +:+ fmt_dec (Z.to_N (- z)) else fmt_dec (Z.to_N z).

Definition engine_error_text (e : EngineError) : string :=
  match e with
  | ERpc code m => "engine api error (" +:+ fmt_int code +:+ "): " +:+ m
  | EDecode m => "decode error: " +:+ m
  | ETransport m => "transport error: " +:+ m
  | EJwt m => "jwt error: " +:+ m
  | EAuthSecret m => "auth secret error: " +:+ m
  | EUrl m => "invalid url: " +:+ m
  end.

(** ** Engine API types (alloy) *)

Definition B256 := array 32.
Definition ZERO : B256 := array_fill 32 x00.

Record ForkchoiceState := mk_fc {
  head_block_hash : B256; safe_block_hash : B256; finalized_block_hash : B256
}.
#[global] Instance ForkchoiceState_eq_dec : EqDecision ForkchoiceState.
Proof. unfold B256. solve_decision. Defined.

Inductive PayloadStatusEnum := Valid | Invalid (error : string) | Syncing | Accepted.
#[global] Instance PayloadStatusEnum_eq_dec : EqDecision PayloadStatusEnum.
Proof. solve_decision. Defined.

(** [ExecutionPayloadV3], its remaining fields kept as they are. *)
Record ExecutionPayload := mk_payload {
  p_parent_hash : B256;
  p_state_root : B256;
  p_block_hash : B256;
  p_block_number : N;
  p_timestamp : N;
  p_transactions : list (list byte);
  p_rest : list byte
}.
#[global] Instance ExecutionPayload_eq_dec : EqDecision ExecutionPayload.
Proof. unfold B256. solve_decision. Defined.

(** [PayloadAttributes]: the parent beacon root is constant. *)
Record PayloadAttributes := mk_attributes {
  a_timestamp : N;
  a_prev_randao : B256;
  a_fee_recipient : string;
  a_parent_beacon_root : B256
}.

Definition PayloadId := array 8.
Record ForkchoiceUpdated := mk_updated {
  fcu_status : PayloadStatusEnum; fcu_payload_id : option PayloadId
}.

(** [B256::from_str]: hex with or without ["0x"], 32 bytes. *)
Definition b256_from_str `{Hex} (s : string) : result string B256 :=
  bs ← hex_decode (default s (strip_prefix "0x" s));
  ok_or (try_into_array 32 bs) "invalid string length".

(** ** The HTTP transport, the clock and the JWT

    [post] is one authenticated POST of a JSON body answered by a JSON value;
    [token] signs the request's JWT. *)
Class EngineHttp (W : Type) := {
  token : M W EngineError unit;
  post : Value → M W EngineError Value;
  sleep : N → W → W;
  clock : W → N
}.

Section Client.
Context {W : Type} `{EngineHttp W} `{Hex}.
Context `{ToValue ForkchoiceState} `{ToValue PayloadAttributes} `{ToValue ExecutionPayload}
  `{ToValue PayloadId} `{FromValue ForkchoiceUpdated} `{FromValue ExecutionPayload}
  `{FromValue PayloadStatusEnum}.

(** The world and the client's [next_id]. *)
Abbreviation Call := (M (W * N) EngineError).
Definition on_world {A} (m : M W EngineError A) : Call A := zoom fst (λ w s, (w, s.2)) m.

Definition to_json {A} `{ToValue A} (a : A) : Call Value := lift (map_err EDecode (to_value a)).

Definition response_error (response : Value) : option EngineError :=
  (λ error, ERpc (default (-1)%Z (get "code" error ≫= as_i64))
              (default "unknown error" (get "message" error ≫= as_str))) <$> get "error" response.

Definition call {R} `{FromValue R} (method : string) (params : list Value) : Call R :=
  '(_, id) ← getM;
  modM (λ s, (s.1, wadd s.2 1));;
  on_world token;;
  response ← on_world (post (VObj [("jsonrpc", VStr "2.0"); ("id", int id);
                                   ("method", VStr method); ("params", VArr params)]));
  match response_error response with
  | Some e => throw e
  | None =>
      result ← lift (ok_or (get "result" response) (ERpc (-1) "response missing result field"));
      lift (map_err EDecode (from_value result))
  end.

Definition fork_choice_updated_v3 (state : ForkchoiceState) (attributes : option PayloadAttributes)
    : Call ForkchoiceUpdated :=
  s ← to_json state; a ← to_json attributes;
  call "engine_forkchoiceUpdatedV3" [s; a].

Definition get_payload_v4 (id : PayloadId) : Call ExecutionPayload :=
  i ← to_json id; call "engine_getPayloadV4" [i].

Definition new_payload_v4 (payload : ExecutionPayload) (root : string) : Call PayloadStatusEnum :=
  p ← to_json payload; r ← to_json root;
  call "engine_newPayloadV4" [p; VArr []; r; VArr []].

Definition block_number : Call N :=
  hex ← call "eth_blockNumber" [];
  lift (ok_or (from_str_radix 16 (trim_start_matches "0x" hex)) (ERpc (-3) "invalid block number: parse error")).

Definition block_by_number (number : N) : Call (option B256) :=
  num ← to_json ("0x" +:+ fmt_hex number); full ← to_json false;
  block ← call (R := option Value) "eth_getBlockByNumber" [num; full];
  match block with
  | Some obj =>
      hash ← lift (map_err (λ e, ERpc (-3) ("invalid block hash: " +:+ e))
                     (from_value (default VNull (get "hash" obj))));
      Some <$> lift (map_err (λ e, ERpc (-3) ("invalid block hash format: " +:+ e))
                       (b256_from_str hash))
  | None => mret None
  end.

(** ** The facade *)

Record BuiltPayload := mk_built {
  payload_id : PayloadId;
  payload : ExecutionPayload;
  block_hash : B256;
  built_height : N;
  built_timestamp : N
}.

Definition PARENT_BEACON_BLOCK_ROOT : string := "0x" +:+ hex_encode (arr_bytes ZERO).

Definition current_head_inner : Call (B256 * N) :=
  h ← block_number;
  o ← block_by_number h;
  hash ← lift (ok_or o (ERpc (-1) ("block " +:+ fmt_dec h +:+ " not found; is the EL initialized?")));
  mret (hash, h).

Definition is_transient (e : EngineError) : bool :=
  match e with
  | ETransport _ => true
  | ERpc code m => (code =? -1)%Z && starts_with "block " m
  | _ => false
  end.

Definition MAX_BACKOFF : N := 5000.
Definition next_backoff (b : N) : N := N.min (b * 2) MAX_BACKOFF.

Definition pause (ms : N) : Call unit := modM (λ s, (sleep ms s.1, s.2)).

(** [fuel] bounds the polls; [None] when it runs out. *)
Fixpoint head_loop (fuel : nat) (deadline backoff : N) (s : W * N)
    : option (result EngineError (B256 * N) * (W * N)) :=
  match fuel with
  | O => None
  | S fuel =>
      match current_head_inner s with
      | (Ok r, s') => Some (Ok r, s')
      | (Err e, s') =>
          if is_transient e && (clock s'.1 <? deadline) then
            head_loop fuel deadline (next_backoff backoff) (sleep backoff s'.1, s'.2)
          else Some (Err e, s')
      end
  end.
Definition current_head_with_height (fuel : nat) (s : W * N)
    : option (result EngineError (B256 * N) * (W * N)) :=
  head_loop fuel (clock s.1 + 60000) 500 s.

Definition MAX_RETRIES : nat := 10.

(** [{other:?}] *)
Definition status_debug (st : PayloadStatusEnum) : string :=
  match st with
  | Valid => "Valid" | Syncing => "Syncing" | Accepted => "Accepted"
  | Invalid e => "Invalid { validation_error: " +:+ e +:+ " }"
  end.

Fixpoint forkchoice_tries (retries : nat) (backoff : N) (state : ForkchoiceState)
    (attributes : option PayloadAttributes) : Call ForkchoiceUpdated :=
  match retries with
  | O => throw (ERpc (-32001) "Reth still syncing after max retries")
  | S retries =>
      result ← fork_choice_updated_v3 state attributes;
      match fcu_status result with
      | Syncing => pause backoff;; forkchoice_tries retries (next_backoff backoff) state attributes
      | Valid => mret result
      | other => throw (ERpc (-32001) ("forkchoiceUpdated returned " +:+ status_debug other))
      end
  end.
Definition wait_for_forkchoice (state : ForkchoiceState) (attributes : option PayloadAttributes)
    : Call ForkchoiceUpdated :=
  forkchoice_tries MAX_RETRIES 500 state attributes.

Definition build (state : ForkchoiceState) (attributes : PayloadAttributes) : Call BuiltPayload :=
  updated ← wait_for_forkchoice state (Some attributes);
  id ← lift (ok_or (fcu_payload_id updated)
               (ERpc (-32000) "forkchoiceUpdated returned no payload id"));
  p ← get_payload_v4 id;
  mret (mk_built id p (p_block_hash p) (p_block_number p) (p_timestamp p)).

Definition accept (p : ExecutionPayload) (new_head safe finalized : B256) : Call unit :=
  status ← new_payload_v4 p PARENT_BEACON_BLOCK_ROOT;
  if negb (bool_decide (status = Valid)) then
    throw (ERpc (-32002) ("newPayload rejected payload: " +:+ status_debug status))
  else
    wait_for_forkchoice (mk_fc new_head safe finalized) None;; mret tt.

Definition finalize (head safe finalized : B256) : Call unit :=
  wait_for_forkchoice (mk_fc head safe finalized) None;; mret tt.
End Client.

(** [serde_json::to_vec] of a payload, and [payload_into_block]. *)
Definition payload_into_block `{Json ExecutionPayload} (built : BuiltPayload) : result Core.Error Block :=
  data ← map_err (λ e, Execution ("encode payload: " +:+ e)) (json_to_string_pretty (payload built));
  Ok (mk_Block (mk_Header (built_height built) (p_parent_hash (payload built))
                  (p_state_root (payload built)) (built_timestamp built))
        (string_bytes data) None).

(** ** Bounds *)

(** Time never runs backwards, and a sleep lasts at least as long as asked. *)
Class ClockLaws (W : Type) `{EngineHttp W} := {
  clock_sleep n w : clock w + n ≤ clock (sleep n w);
  clock_post v w : clock w ≤ clock (post v w).2;
  clock_token w : clock w ≤ clock (token w).2
}.

Create HintDb elapses discriminated.

Section Elapses.
Context {W : Type} `{ClockLaws W} `{Hex}.

(** A call that does not turn the clock back. *)
Definition elapses {A} (m : M (W * N) EngineError A) : Prop :=
  ∀ s, clock s.1 ≤ clock (m s).2.1.

Lemma elapses_ret {A} (a : A) : elapses (mret a).
Proof. intros s. cbn. lia. Qed.
Lemma elapses_lift {A} (r : result EngineError A) : elapses (lift r).
Proof. intros s. cbn. lia. Qed.
Lemma elapses_throw {A} e : elapses (A:=A) (throw e).
Proof. intros s. cbn. lia. Qed.
Lemma elapses_bind {A B} (m : M (W * N) EngineError A) (k : A → M (W * N) EngineError B) :
  elapses m → (∀ a, elapses (k a)) → elapses (m ≫= k).
Proof.
  intros Hm Hk s. rewrite run_bind. specialize (Hm s).
  destruct (m s) as [[a|e] s']; cbn in *; [|done]. specialize (Hk a s'). lia.
Qed.
Lemma elapses_fmap {A B} (f : A → B) (m : M (W * N) EngineError A) : elapses m → elapses (f <$> m).
Proof. intros Hm s. specialize (Hm s). cbv [fmap M_fmap]. by destruct (m s). Qed.
Lemma elapses_getM : elapses getM.
Proof. intros s. cbn. lia. Qed.
Lemma elapses_id (f : W * N → W * N) : (∀ s, (f s).1 = s.1) → elapses (modM f).
Proof. intros Hf s. cbn. rewrite Hf. lia. Qed.
Lemma elapses_token : elapses (on_world token).
Proof.
  intros s. unfold on_world, zoom. pose proof (clock_token s.1). by destruct (token s.1).
Qed.
Lemma elapses_post v : elapses (on_world (post v)).
Proof.
  intros s. unfold on_world, zoom. pose proof (clock_post v s.1). by destruct (post v s.1).
Qed.
End Elapses.
#[export] Hint Resolve elapses_ret elapses_fmap elapses_lift elapses_throw elapses_getM elapses_token
  elapses_post : elapses.
#[export] Hint Extern 1 (elapses (_ ≫= _)) => apply elapses_bind; [|intros] : elapses.
#[export] Hint Extern 1 (elapses (match ?x with _ => _ end)) => destruct x : elapses.
#[export] Hint Extern 1 (elapses (modM _)) => apply elapses_id; done : elapses.

Section HeadPoll.
Context {W : Type} `{ClockLaws W} `{Hex}.

Lemma elapses_call {R} `{FromValue R} m ps : elapses (call (R:=R) m ps).
Proof. unfold call. auto 20 with elapses. Qed.
#[local] Hint Resolve elapses_call : elapses.

Lemma elapses_head : elapses current_head_inner.
Proof.
  unfold current_head_inner, block_number, block_by_number, to_json.
  auto 30 with elapses.
Qed.

(** Enough fuel: each round that goes on sleeps at least half a second, so a
    minute holds at most 121 rounds. *)
Lemma head_loop_terminates fuel deadline backoff s :
  500 ≤ backoff → deadline - clock s.1 + 500 ≤ 500 * N.of_nat fuel →
  is_Some (head_loop fuel deadline backoff s).
Proof.
  revert backoff s. induction fuel as [|fuel IH]; intros backoff s Hb Hd; [lia|].
  cbn [head_loop]. pose proof (elapses_head s) as He.
  destruct (current_head_inner s) as [[r|e] s']; [done|]. cbn in He.
  destruct (is_transient e && _) eqn:Ht; [|done].
  apply andb_true_iff in Ht as [_ Ht]. apply N.ltb_lt in Ht.
  apply IH; [unfold next_backoff, MAX_BACKOFF; lia|].
  cbn. pose proof (clock_sleep backoff s'.1). lia.
Qed.
End HeadPoll.

(** The head's result does not depend on the fuel once it is enough, and an
    error is a permanent one or comes after the deadline. *)
Section HeadResult.
Context {W : Type} `{ClockLaws W} `{Hex}.

Lemma head_loop_result fuel deadline backoff s r s' :
  head_loop fuel deadline backoff s = Some (r, s') →
  match r with
  | Ok _ => True
  | Err e => is_transient e = false ∨ deadline ≤ clock s'.1
  end.
Proof.
  revert backoff s. induction fuel as [|fuel IH]; intros backoff s; cbn [head_loop]; [done|].
  destruct (current_head_inner s) as [[x|e] s1]; [by intros [= <- <-]|].
  destruct (is_transient e) eqn:Ht; cbn [andb]; [|intros [= <- <-]; by left].
  destruct (clock s1.1 <? deadline) eqn:Hc; [apply IH|].
  apply N.ltb_ge in Hc. intros [= <- <-]. by right.
Qed.
End HeadResult.

(** Start-up polling ends.  While the execution layer's clock never runs
    back, asking for the head returns within 121 polls whatever the transport
    answers, and it gives up only on an error that retrying cannot cure or
    after a full minute: a sequencer started next to a slow node neither hangs
    nor dies early. *)
Theorem head_poll_terminates {W} `{ClockLaws W} `{Hex} (s : W * N) :
  ∃ r s', current_head_with_height 121 s = Some (r, s') ∧
          match r with
          | Ok _ => True
          | Err e => is_transient e = false ∨ clock s.1 + 60000 ≤ clock s'.1
          end.
Proof.
  destruct (head_loop_terminates 121 (clock s.1 + 60000) 500 s) as [[r s'] Hr]; [lia..|].
  exists r, s'. split; [done|]. by apply head_loop_result in Hr.
Qed.

(** ** Forkchoice retries *)

(** A transport that counts the requests sent and the milliseconds slept. *)
Record counted (W : Type) := mk_counted { base : W; sent : N; slept : N }.
Arguments mk_counted {W}. Arguments base {W}. Arguments sent {W}. Arguments slept {W}.

#[export] Instance counted_http {W} `{EngineHttp W} : EngineHttp (counted W) := {|
  token := λ w, let '(r, b) := token (base w) in (r, mk_counted b (sent w) (slept w));
  post v := λ w, let '(r, b) := post v (base w) in (r, mk_counted b (sent w + 1) (slept w));
  sleep n w := mk_counted (sleep n (base w)) (sent w) (slept w + n);
  clock w := clock (base w)
|}.

(** The waits of [n] retries from a backoff of [b]. *)
Fixpoint backoffs (n : nat) (b : N) : N :=
  match n with O => 0 | S n => b + backoffs n (next_backoff b) end.

Section Forkchoice.
Context {W : Type} `{EngineHttp W}.
Context `{ToValue ForkchoiceState} `{ToValue PayloadAttributes} `{FromValue ForkchoiceUpdated}.

Lemma call_counted {R} `{FromValue R} m ps (s : counted W * N) r s' :
  call (R:=R) m ps s = (r, s') →
  sent s'.1 ≤ sent s.1 + 1 ∧ slept s'.1 = slept s.1 ∧ (is_ok r = true → sent s'.1 = sent s.1 + 1).
Proof.
  destruct s as [w id]. unfold call. rewrite run_bind. cbn -[token post].
  rewrite run_bind. cbn -[token post]. rewrite run_bind. unfold on_world at 1, zoom. cbn.
  destruct (token (base w)) as [[[]|e] b]; [|intros [= <- <-]; cbn; repeat split; (done || lia)].
  rewrite run_bind. unfold on_world, zoom. cbn.
  destruct (post _ b) as [[v|e] b']; [|intros [= <- <-]; cbn; repeat split; (done || lia)].
  destruct (response_error v); [intros [= <- <-]; cbn; repeat split; (done || lia)|].
  unfold lift. rewrite run_bind. cbn. destruct (ok_or _ _); cbn;
    [|intros [= <- <-]; cbn; repeat split; (done || lia)].
  intros [= <- <-]. cbn. repeat split; lia.
Qed.

Lemma forkchoice_tries_counted n b st a (s : counted W * N) r s' :
  forkchoice_tries n b st a s = (r, s') →
  sent s'.1 ≤ sent s.1 + N.of_nat n ∧ slept s'.1 ≤ slept s.1 + backoffs n b ∧
  match r with
  | Ok u => fcu_status u = Valid ∧ sent s.1 < sent s'.1
  | Err _ => True
  end.
Proof.
  revert b s. induction n as [|n IH]; intros b s; cbn [forkchoice_tries backoffs].
  { intros [= <- <-]. cbn. lia. }
  rewrite run_bind. destruct (fork_choice_updated_v3 st a s) as [[u|e] s1] eqn:Hf.
  - assert (sent s1.1 = sent s.1 + 1 ∧ slept s1.1 = slept s.1) as [Hs1 Hl1].
    { unfold fork_choice_updated_v3, to_json, lift in Hf. rewrite !run_bind in Hf.
      destruct (map_err _ (to_value st)); [|done]. rewrite run_bind in Hf.
      destruct (map_err _ (to_value a)); [|done].
      apply call_counted in Hf as (_ & ? & Hok). by rewrite (Hok eq_refl). }
    destruct (fcu_status u) eqn:Hu;
      try (intros [= <- <-]; cbn; repeat split; (done || lia)).
    rewrite run_bind. cbn -[N.mul]. intros Hr. apply IH in Hr. cbn in Hr.
    destruct r; intuition lia.
  - intros [= <- <-].
    unfold fork_choice_updated_v3, to_json, lift in Hf. rewrite !run_bind in Hf.
    destruct (map_err _ (to_value st)); [|injection Hf as <- <-; lia]. rewrite run_bind in Hf.
    destruct (map_err _ (to_value a)); [|injection Hf as <- <-; lia].
    apply call_counted in Hf as (? & ? & _). lia.
Qed.
End Forkchoice.

(** Waiting for a forkchoice update is bounded.  Whatever the execution
    layer answers, at most ten requests are sent and at most 37.5 seconds are
    slept, and success means that an update came back [VALID]. *)
Theorem forkchoice_wait_bounded {W} `{EngineHttp W} `{ToValue ForkchoiceState}
    `{ToValue PayloadAttributes} `{FromValue ForkchoiceUpdated}
    state attributes (s : counted W * N) r s' :
  wait_for_forkchoice state attributes s = (r, s') →
  sent s'.1 ≤ sent s.1 + 10 ∧ slept s'.1 ≤ slept s.1 + 37500 ∧
  match r with
  | Ok u => fcu_status u = Valid ∧ sent s.1 < sent s'.1
  | Err _ => True
  end.
Proof. intros Hw. by apply forkchoice_tries_counted in Hw. Qed.

(** C37: A rejected payload never becomes the head.  [accept] sends
    [forkchoiceUpdated] only for a payload the execution layer answered
    [VALID]; any other answer is error -32002 and nothing more is sent, and
    success means both the payload and the update were [VALID]. *)
Theorem accept_only_valid {W} `{EngineHttp W} `{Hex} `{ToValue ForkchoiceState}
    `{ToValue PayloadAttributes} `{ToValue ExecutionPayload} `{FromValue ForkchoiceUpdated}
    `{FromValue PayloadStatusEnum} p head safe finalized (s : counted W * N) r s' :
  accept p head safe finalized s = (r, s') →
  match new_payload_v4 p PARENT_BEACON_BLOCK_ROOT s with
  | (Err e, s1) => r = Err e ∧ s' = s1
  | (Ok Valid, s1) =>
      sent s'.1 ≤ sent s1.1 + 10 ∧
      (r = Ok tt → ∃ u, wait_for_forkchoice (mk_fc head safe finalized) None s1 = (Ok u, s') ∧
                        fcu_status u = Valid)
  | (Ok st, s1) =>
      r = Err (ERpc (-32002) ("newPayload rejected payload: " +:+ status_debug st)) ∧ s' = s1
  end.
Proof.
  unfold accept. rewrite run_bind.
  destruct (new_payload_v4 _ _ s) as [[st|e] s1]; [|by intros [= <- <-]].
  destruct st; cbn [negb bool_decide]; try by intros [= <- <-].
  rewrite bool_decide_true by done. cbn [negb]. rewrite run_bind.
  destruct (wait_for_forkchoice _ _ s1) as [[u|e] s2] eqn:Hw;
    pose proof (forkchoice_tries_counted _ _ _ _ _ _ _ Hw) as (Hs & _ & Hu);
    intros [= <- <-]; split; try done.
  intros _. exists u. by destruct Hu.
Qed.

(** ** The engine as an interface *)

(** What the runner and the full node use of [podseq_engine::Engine]. *)
Class EngineApi (W : Type) := {
  engine_build : ForkchoiceState → PayloadAttributes → M W EngineError BuiltPayload;
  engine_accept : ExecutionPayload → B256 → B256 → B256 → M W EngineError unit;
  engine_finalize : B256 → B256 → B256 → M W EngineError unit;
  engine_head : M W EngineError (B256 * N);
  engine_block_number : M W EngineError N;
  engine_block_by_number : N → M W EngineError (option B256)
}.

(** [head_poll_terminates] makes the last case of [engine_head] unreachable. *)
Definition engine_api {W} `{EngineHttp W} `{Hex} `{ToValue ForkchoiceState}
    `{ToValue PayloadAttributes} `{ToValue ExecutionPayload} `{ToValue PayloadId}
    `{FromValue ForkchoiceUpdated} `{FromValue ExecutionPayload} `{FromValue PayloadStatusEnum}
    : EngineApi (W * N) := {|
  engine_build := build;
  engine_accept := accept;
  engine_finalize := finalize;
  engine_head s :=
    match current_head_with_height 121 s with
    | Some r => r
    | None => (Err (ETransport "unreachable: polling ends"), s)
    end;
  engine_block_number := block_number;
  engine_block_by_number := block_by_number
|}.

(** A built payload carries its block's hash and number. *)
Class EngineLaws (W : Type) `{EngineApi W} :=
  engine_build_fields fc a w built w' :
    engine_build fc a w = (Ok built, w') →
    block_hash built = p_block_hash (payload built) ∧
    built_height built = p_block_number (payload built).

#[global] Instance engine_api_laws {W} `{EngineHttp W} `{Hex} `{ToValue ForkchoiceState}
    `{ToValue PayloadAttributes} `{ToValue ExecutionPayload} `{ToValue PayloadId}
    `{FromValue ForkchoiceUpdated} `{FromValue ExecutionPayload} `{FromValue PayloadStatusEnum} :
  @EngineLaws (W * N) engine_api.
Proof.
  intros fc a w built w'. cbn [engine_build engine_api]. unfold build.
  intros (u & w1 & _ & Hr)%bind_ok_inv. apply bind_ok_inv in Hr as (id & w2 & _ & Hr).
  apply bind_ok_inv in Hr as (p & w3 & _ & Hr). by injection Hr as <- _.
Qed.

(** ** A scripted execution layer *)

Module Scripted.
(** The time, and the answers to come ([None]: the connection fails). *)
Record t := mk { now : N; answers : list (option Value) }.
#[export] Instance http : EngineHttp t := {|
  token := mret tt;
  post _ := λ w,
    match answers w with
    | Some v :: l => (Ok v, mk (now w) l)
    | None :: l => (Err (ETransport "connection refused"), mk (now w) l)
    | [] => (Err (ETransport "connection refused"), w)
    end;
  sleep n w := mk (now w + n) (answers w);
  clock := now
|}.
#[export] Instance clock_laws : ClockLaws t.
Proof. split; cbn; [lia| |lia]. intros _ [n [|[v|] l]]; cbn; lia. Qed.

Definition status_of (s : string) : result string PayloadStatusEnum :=
  if decide (s = "VALID") then Ok Valid else if decide (s = "SYNCING") then Ok Syncing
  else if decide (s = "ACCEPTED") then Ok Accepted else Ok (Invalid s).
#[export] Instance from_status : FromValue PayloadStatusEnum := λ v,
  s ← ok_or (get "status" v ≫= as_str) "missing field status"; status_of s.
#[export] Instance from_updated : FromValue ForkchoiceUpdated := λ v,
  s ← ok_or (get "payloadStatus" v) "missing field payloadStatus";
  st ← from_value s; Ok (mk_updated st None).
#[export] Instance to_fc : ToValue ForkchoiceState := λ _, Ok VNull.
#[export] Instance to_attributes : ToValue PayloadAttributes := λ _, Ok VNull.
#[export] Instance to_payload : ToValue ExecutionPayload := λ _, Ok VNull.

Definition status (s : string) : Value := VObj [("status", VStr s)].
Definition answer (v : Value) : option Value := Some (VObj [("result", v)]).
Definition updated (s : string) : option Value := answer (VObj [("payloadStatus", status s)]).
End Scripted.

Section EngineWitness.
Import Scripted Codec.Demo.
(** Connection refused for good: the poll gives up after a minute. *)
Lemma head_poll_terminates_witness :
  ∃ r s', current_head_with_height 121 (Scripted.mk 5 [], 1) = Some (r, s') ∧
          match r with
          | Ok _ => True
          | Err e => is_transient e = false ∨ 5 + 60000 ≤ clock s'.1
          end.
Proof. exact (head_poll_terminates (Scripted.mk 5 [], 1)). Defined.

(** Two [SYNCING] answers, then [VALID]. *)
Definition syncing_el : counted Scripted.t * N :=
  (mk_counted (Scripted.mk 0 [updated "SYNCING"; updated "SYNCING"; updated "VALID"]) 0 0, 1).
Lemma forkchoice_wait_bounded_witness :
  let '(r, s') := wait_for_forkchoice (mk_fc ZERO ZERO ZERO) None syncing_el in
  is_ok r = true ∧ slept s'.1 = 1500 ∧
  sent s'.1 ≤ 0 + 10 ∧ slept s'.1 ≤ 0 + 37500 ∧
  match r with Ok u => fcu_status u = Valid ∧ 0 < sent s'.1 | Err _ => True end.
Proof.
  destruct (wait_for_forkchoice _ _ _) as [r s'] eqn:Hw.
  split; [by vm_compute in Hw; injection Hw as <- _|].
  split; [by vm_compute in Hw; injection Hw as _ <-|].
  exact (forkchoice_wait_bounded _ _ _ _ _ Hw).
Defined.

Definition payload0 (h : N) : ExecutionPayload := mk_payload ZERO ZERO ZERO h (h * 2) [] [].
(** The payload is refused although the head update would be accepted. *)
Definition refusing_el : counted Scripted.t * N :=
  (mk_counted (Scripted.mk 0 [answer (status "bad state root"); updated "VALID"]) 0 0, 1).
Lemma accept_only_valid_witness :
  let '(r, s') := accept (payload0 1) ZERO ZERO ZERO refusing_el in
  is_ok r = false ∧ sent s'.1 = 1 ∧
  match new_payload_v4 (payload0 1) PARENT_BEACON_BLOCK_ROOT refusing_el with
  | (Err e, s1) => r = Err e ∧ s' = s1
  | (Ok Valid, s1) =>
      sent s'.1 ≤ sent s1.1 + 10 ∧
      (r = Ok tt → ∃ u, wait_for_forkchoice (mk_fc ZERO ZERO ZERO) None s1 = (Ok u, s') ∧
                        fcu_status u = Valid)
  | (Ok st, s1) =>
      r = Err (ERpc (-32002) ("newPayload rejected payload: " +:+ status_debug st)) ∧ s' = s1
  end.
Proof.
  destruct (accept _ _ _ _ _) as [r s'] eqn:Ha.
  split; [by vm_compute in Ha; injection Ha as <- _|].
  split; [by vm_compute in Ha; injection Ha as _ <-|].
  exact (accept_only_valid _ _ _ _ _ _ _ Ha).
Defined.
End EngineWitness.
