(* ===== verification/L2Rpc.v ===== *)
(** The L2 JSON-RPC calls of [crates/node/src/bridge.rs] (shared by the bridge
    relayer and the force-inclusion poller) and the ABI decoding they use.

    The HTTP transport is the class [JsonHttp]; requests and answers are JSON
    values. *)

From S2P Require Import Prelude Text Codec JsonValue.
Local Open Scope string_scope.
Local Open Scope list_scope.
Local Open Scope N_scope.

(** [json_post url body]: the request can fail to be sent; the answer can fail
    to be JSON. *)
Class JsonHttp (W : Type) := {
  json_post : string → Value → M W string (result string Value)
}.

(** ** EVM addresses *)

Definition EvmAddress := array 20.
#[global] Instance EvmAddress_eq_dec : EqDecision EvmAddress := array_eq_dec.
#[global] Program Instance array_countable n : Countable (array n) :=
  inj_countable (λ a, Byte.to_N <$> arr_bytes a)
    (λ l, try_into_array n (low_byte <$> l)) _.
Next Obligation.
  intros n a. cbn. rewrite <- list_fmap_compose.
  assert ((low_byte ∘ Byte.to_N) <$> arr_bytes a = arr_bytes a) as ->.
  { rewrite <- (list_fmap_id (arr_bytes a)) at 2. apply list_fmap_ext. intros i b _. cbn.
    apply low_byte_of_to. }
  apply try_into_array_bytes.
Qed.
#[global] Instance EvmAddress_countable : Countable EvmAddress := array_countable 20.

(** EIP-55 text, the [{:#x}] text and [Address::from_str] are alloy's. *)
Class EvmSdk := {
  to_checksum : EvmAddress → string;
  fmt_evm : EvmAddress → string;
  evm_from_str : string → result string EvmAddress
}.
Class EvmSdkLaws `{EvmSdk} := { evm_roundtrip a : evm_from_str (fmt_evm a) = Ok a }.

(** ** Hex fields *)

Section Abi.
Context `{Hex} `{Hashes}.

(** [hex::decode(s.trim_start_matches("0x"))] *)
Definition decode_hex (s label : string) : result anyhow (list byte) :=
  context label (map_err (λ e, [e]) (hex_decode (trim_start_matches "0x" s))).

(** A 32-byte word; the bytes after the 24th as a big-endian integer. *)
Definition word_u64 (word : list byte) : N := from_be_bytes (drop 24 word).

Definition hex_to_fixed32 (s : string) : result anyhow (list byte) :=
  bytes ← decode_hex s "topic not hex";
  ensure (Nat.eqb (length bytes) 32) "topic not 32 bytes";;
  Ok bytes.

Definition log_data_u64 (data : string) : result anyhow N :=
  bytes ← decode_hex data "amount not hex";
  ensure (Nat.leb 32 (length bytes)) "log data shorter than 32 bytes";;
  Ok (word_u64 (take 32 bytes)).

Definition low20 (word : list byte) : result anyhow EvmAddress :=
  ok_or (try_into_array 20 (drop 12 word)) ["unreachable: a word has 32 bytes"].
Definition decode_word_address (word : list byte) : result anyhow EvmAddress := low20 word.

Definition decode_abi_address (bytes : list byte) : result anyhow EvmAddress :=
  ensure (Nat.leb 32 (length bytes)) "eth_call address return too short";;
  low20 (take 32 bytes).

Definition parse_log_address (s : string) : result anyhow EvmAddress :=
  bytes ← decode_hex s "log address not hex";
  ok_or (try_into_array 20 bytes) ["log address not 20 bytes"].

(** The offset and the length are read as [u64]s and checked against the
    buffer; additions past [u64::MAX] are refused ([checked_add]). *)
Definition decode_first_abi_string (data : string) : result anyhow string :=
  bytes ← decode_hex data "log data not hex";
  ensure (Nat.leb 32 (length bytes)) "log data shorter than one word";;
  let n := N.of_nat (length bytes) in
  let off := word_u64 (take 32 bytes) in
  ensure (match checked_add off 32 with Some e => e <=? n | None => false end)
    "string offset overruns";;
  let len := word_u64 (take 32 (drop (N.to_nat off) bytes)) in
  ensure (match checked_add off 32 with
          | Some s => match checked_add s len with Some e => e <=? n | None => false end
          | None => false
          end) "string length overruns";;
  ok_or (from_utf8 (take (N.to_nat len) (drop (N.to_nat (off + 32)) bytes))) ["string not utf-8"].

Definition selector (sig : string) : list byte :=
  take 4 (arr_bytes (keccak256 (string_bytes sig))).

(** ** Logs and receipts

    serde reads the fields of an object; an absent [default] field is empty. *)

Record RpcLog := mk_log { log_address : string; topics : list string; log_data : string }.

Definition field_or {A} `{FromValue A} (d : A) (k : string) (v : Value) : result string A :=
  match get k v with None => Ok d | Some x => from_value x end.
Definition field {A} `{FromValue A} (k : string) (v : Value) : result string A :=
  match get k v with None => Err ("missing field " +:+ k) | Some x => from_value x end.
(** An absent [Option] field is [None]. *)
Definition opt_field {A} `{FromValue A} (k : string) (v : Value) : result string (option A) :=
  field_or None k v.

#[global] Instance from_value_list {A} `{FromValue A} : FromValue (list A) := λ v,
  match v with VArr l => mapM from_value l | _ => Err "invalid type: expected a sequence" end.
#[global] Instance from_value_log : FromValue RpcLog := λ v,
  a ← field_or "" "address" v; t ← field_or [] "topics" v; d ← field_or "" "data" v;
  Ok (mk_log a t d).

Record Receipt := mk_receipt { receipt_status : string; receipt_logs : list RpcLog }.
#[global] Instance from_value_receipt : FromValue Receipt := λ v,
  s ← field "status" v; l ← field_or [] "logs" v; Ok (mk_receipt s l).

Record RpcError := mk_rpc_error { error_code : Z; error_message : string }.
#[global] Instance from_value_rpc_error : FromValue RpcError := λ v,
  c ← ok_or (get "code" v ≫= as_i64) "missing field code"; m ← field "message" v;
  Ok (mk_rpc_error c m).

Record RpcEnvelope (T : Type) := mk_envelope { env_result : option T; env_error : option RpcError }.
#[global] Arguments mk_envelope {T}. #[global] Arguments env_result {T}.
#[global] Arguments env_error {T}.
#[global] Instance from_value_envelope {T} `{FromValue T} : FromValue (RpcEnvelope T) := λ v,
  match v with
  | VObj _ => r ← opt_field "result" v; e ← opt_field "error" v; Ok (mk_envelope r e)
  | _ => Err "invalid type: expected struct RpcEnvelope"
  end.
End Abi.

(** ** Calls *)

Section Calls.
Context {W : Type} `{JsonHttp W} `{Runtime W} `{Hex} `{Hashes} `{EvmSdk}.
Abbreviation Op := (M W anyhow).

Definition fmt_z (z : Z) : string :=
  if (z <? 0)%Z then "-" +:+ fmt_dec (Z.to_N (- z)) else fmt_dec (Z.to_N z).

Definition request (method : string) (params : list Value) : Value :=
  VObj [("jsonrpc", VStr "2.0"); ("id", VInt 1); ("method", VStr method); ("params", VArr params)].

Definition rpc_call {T} `{FromValue T} (l2_rpc : string) (req : Value) : Op T :=
  body ← contextM "L2 RPC send" (errM (λ e, [e]) (json_post l2_rpc req));
  env ← lift (context "L2 RPC decode"
                (v ← map_err (λ e, [e]) body; map_err (λ e, [e]) (from_value (A := RpcEnvelope T) v)));
  match env_error env with
  | Some e => throw ["L2 rpc error " +:+ fmt_z (error_code e) +:+ ": " +:+ error_message e]
  | None => lift (ok_or (env_result env) ["L2 rpc returned no result"])
  end.

(** A malformed quantity reads as zero ([unwrap_or(0)]). *)
Definition parse_hex_qty (s : string) : result anyhow N :=
  Ok (default 0 (from_str_radix 16 (trim_start_matches "0x" s))).

Definition qty_call (l2_rpc method : string) (params : list Value) : Op N :=
  s ← rpc_call l2_rpc (request method params); lift (parse_hex_qty s).

Definition eth_block_number (l2_rpc : string) : Op N := qty_call l2_rpc "eth_blockNumber" [].
Definition eth_chain_id (l2_rpc : string) : Op N := qty_call l2_rpc "eth_chainId" [].
Definition eth_get_transaction_count (l2_rpc : string) (a : EvmAddress) : Op N :=
  qty_call l2_rpc "eth_getTransactionCount" [VStr (to_checksum a); VStr "pending"].
Definition eth_gas_price (l2_rpc : string) : Op N :=
  v ← qty_call l2_rpc "eth_gasPrice" []; mret (N.max v 1000000000).

Definition eth_send_raw_transaction (l2_rpc : string) (raw : list byte) : Op string :=
  rpc_call l2_rpc (request "eth_sendRawTransaction" [VStr ("0x" +:+ hex_encode raw)]).

Definition eth_get_logs (l2_rpc : string) (addresses : list EvmAddress) (topic0 : list byte)
    (from_block to_block : N) : Op (list RpcLog) :=
  lift (ensure (negb (bool_decide (addresses = []))) "eth_getLogs needs at least one address");;
  contextM "eth_getLogs" (rpc_call l2_rpc (request "eth_getLogs"
    [VObj [("address", VArr ((λ a, VStr (to_checksum a)) <$> addresses));
           ("fromBlock", VStr ("0x" +:+ fmt_hex from_block));
           ("toBlock", VStr ("0x" +:+ fmt_hex to_block));
           ("topics", VArr [VStr ("0x" +:+ hex_encode topic0)])]])).

Definition eth_call_request (token : EvmAddress) (data : string) : Value :=
  request "eth_call" [VObj [("to", VStr (to_checksum token)); ("data", VStr data)]; VStr "latest"].
Definition eth_call (l2_rpc : string) (token : EvmAddress) (sel : list byte) : Op (list byte) :=
  hex_str ← rpc_call l2_rpc (eth_call_request token ("0x" +:+ hex_encode sel));
  lift (decode_hex hex_str "eth_call not hex").
Definition eth_call_u64 (l2_rpc : string) (token : EvmAddress) (sel : list byte) : Op N :=
  bytes ← eth_call l2_rpc token sel;
  lift (ensure (Nat.leb 32 (length bytes)) "eth_call u64 return too short");;
  mret (word_u64 (take 32 bytes)).
Definition eth_call_bool (l2_rpc : string) (token : EvmAddress) (sel : list byte) : Op bool :=
  bytes ← eth_call l2_rpc token sel;
  mret (match last bytes with Some b => negb (Byte.eqb b x00) | None => false end).
Definition eth_call_address (l2_rpc : string) (token : EvmAddress) (sel : list byte) : Op EvmAddress :=
  bytes ← eth_call l2_rpc token sel; lift (decode_abi_address bytes).

Definition eth_get_code (l2_rpc : string) (a : EvmAddress) : Op (list byte) :=
  hex_str ← rpc_call l2_rpc (request "eth_getCode" [VStr (to_checksum a); VStr "latest"]);
  mret (match hex_decode (trim_start_matches "0x" hex_str) with Ok bs => bs | Err _ => [] end).

Definition eth_mint_cursor (l2_rpc : string) (token : EvmAddress) : Op (bool * N) :=
  last_minted ← tryM (E := anyhow) (eth_call_u64 l2_rpc token (selector "lastMintedDepositNonce()"));
  any ← eth_call_bool l2_rpc token (selector "mintedAny()");
  mret (any, match last_minted with Ok n => n | Err _ => 0 end).

Definition receipt_request (tx_hash : string) : Value :=
  request "eth_getTransactionReceipt" [VStr tx_hash].

(** [fuel] bounds the polls; [None] when it runs out. *)
Fixpoint receipt_loop (fuel : nat) (l2_rpc tx_hash : string) (deadline poll : N) (w : W)
    : option (result anyhow Receipt * W) :=
  match fuel with
  | O => None
  | S fuel =>
      match rpc_call (T := option Receipt) l2_rpc (receipt_request tx_hash) w with
      | (Err e, w') => Some (Err e, w')
      | (Ok (Some r), w') => Some (Ok r, w')
      | (Ok None, w') =>
          if deadline <=? now_ms w' then
            Some (Err ["timed out waiting for receipt of tx " +:+ tx_hash], w')
          else receipt_loop fuel l2_rpc tx_hash deadline poll (sleep_ms (N.min poll 2000) w')
      end
  end.
Definition wait_for_receipt_fuel (fuel : nat) (l2_rpc tx_hash : string) (poll : N) (w : W)
    : option (result anyhow Receipt * W) :=
  receipt_loop fuel l2_rpc tx_hash (now_ms w + 60000) poll w.
(** One round is all it ever takes ([receipt_wait_never_polls]). *)
Definition wait_for_receipt (l2_rpc tx_hash : string) (poll : N) : Op Receipt := λ w,
  match wait_for_receipt_fuel 1 l2_rpc tx_hash poll w with
  | Some r => r
  | None => (Err ["unreachable: the first answer decides"], w)
  end.

(** [eq_ignore_ascii_case("1")] *)
Definition ensure_receipt_success (r : Receipt) : result anyhow unit :=
  ensure (String.eqb (trim_start_matches "0x" (receipt_status r)) "1") "tx reverted on L2".
Definition wait_for_receipt_success (l2_rpc tx_hash : string) (poll : N) : Op unit :=
  r ← wait_for_receipt l2_rpc tx_hash poll; lift (ensure_receipt_success r).

(** [eth_get_transaction_receipt_height] of [node/src/inbox.rs]: [None] when
    the transaction is not mined. *)
Definition eth_get_transaction_receipt_height (l2_rpc : string) (hash : array 32)
    : Op (option N) :=
  body ← errM (λ e, [e]) (json_post l2_rpc (receipt_request ("0x" +:+ hex_encode (arr_bytes hash))));
  response ← lift (map_err (λ e, [e]) body);
  result ← lift (ok_or (get "result" response) ["receipt response missing result"]);
  if is_null result then mret None
  else
    number ← lift (ok_or (get "blockNumber" result ≫= as_str) ["receipt missing blockNumber"]);
    Some <$> lift (ok_or (from_str_radix 16 (trim_start_matches "0x" number))
                     ["receipt blockNumber is not hex"]).
End Calls.

(** An optional member that may itself be null never reads as a null inside. *)
Lemma opt_field_nested {T} `{FromValue T} k v : opt_field (A := option T) k v ≠ Ok (Some None).
Proof.
  unfold opt_field, field_or. destruct (get k v) as [x|]; [|done].
  destruct x; cbv [from_value from_value_option]; [done|..];
    match goal with H : FromValue T |- context [H ?x] => by destruct (H x) end.
Qed.

(** The relayer never polls for a receipt.  A receipt is asked for once: a
    transaction that is still pending ([result] is [null]) is reported as an
    error at once, without sleeping, so the sixty-second wait is dead code. *)
Theorem receipt_wait_never_polls {W} `{JsonHttp W} `{Runtime W} fuel (l2_rpc tx_hash : string) (poll : N) (w : W) :
  wait_for_receipt_fuel (S fuel) l2_rpc tx_hash poll w = Some (wait_for_receipt l2_rpc tx_hash poll w) ∧
  ∀ w' members,
    json_post l2_rpc (receipt_request tx_hash) w = (Ok (Ok (VObj members)), w') →
    assoc "result" members = Some VNull → assoc "error" members = None →
    wait_for_receipt l2_rpc tx_hash poll w = (Err ["L2 rpc returned no result"], w').
Proof.
  assert (∀ r w', rpc_call (T := option Receipt) l2_rpc (receipt_request tx_hash) w = (Ok r, w') →
          is_Some r) as Hsome.
  { intros r w'. unfold rpc_call, contextM, errM, lift. rewrite !run_bind.
    destruct (json_post _ _ w) as [[[v|]|] w1]; cbn; [|done..]. rewrite run_bind.
    destruct (from_value (A := RpcEnvelope (option Receipt)) v) as [env|] eqn:Hv; cbn; [|done].
    destruct (env_error env); [done|]. intros Hr. cbn in Hr.
    destruct (env_result env) as [o|] eqn:Ho; cbn in Hr; [|done]. injection Hr as -> _.
    revert Hv Ho. unfold from_value at 1, from_value_envelope. destruct v; try done.
    destruct (opt_field "result" _) as [x|] eqn:Hx; cbn; [|done].
    destruct (opt_field "error" _); cbn; [|done]. intros [= <-]. cbn. intros ->.
    destruct r; [done|]. by destruct (opt_field_nested _ _ Hx). }
  assert (∀ n, wait_for_receipt_fuel (S n) l2_rpc tx_hash poll w
               = wait_for_receipt_fuel 1 l2_rpc tx_hash poll w) as Hfuel.
  { intros n. unfold wait_for_receipt_fuel. cbn [receipt_loop].
    destruct (rpc_call _ _ w) as [[[r|]|e] w1] eqn:Hc; [done| |done].
    by destruct (Hsome _ _ eq_refl). }
  split.
  - rewrite Hfuel. unfold wait_for_receipt, wait_for_receipt_fuel. cbn [receipt_loop].
    destruct (rpc_call _ _ w) as [[[r|]|e] w1] eqn:Hc; [done| |done]. by destruct (Hsome _ _ eq_refl).
  - intros w' members Hp Hr He. unfold wait_for_receipt, wait_for_receipt_fuel. cbn [receipt_loop].
    unfold rpc_call, contextM, errM, lift. rewrite !run_bind, Hp. cbn.
    unfold opt_field, field_or, get. rewrite Hr, He. done.
Qed.
