(* ===== verification/P2p.v ===== *)
(** [crates/p2p/src/{message,node,key,config}.rs]: the block digest, block
    announcements, admission sets and the identity key file.

    The authenticated network and the broadcast engine are commonware's; what a
    task hands them is the interface [Broadcaster]. *)

From S2P Require Import Prelude Text Codec Disk Core.
Local Open Scope string_scope.
Local Open Scope list_scope.
Local Open Scope N_scope.

(** ** Messages *)

(** [BlockMessage::digest]: the data's hash, then the header's signing
    message. *)
Definition digest `{Hashes} (b : Block) : array 32 :=
  sha256 (arr_bytes (sha256 (data b)) ++ signing_message (header b)).

Record BlockAnnounce := mk_announce { ann_height : N; ann_digest : array 32 }.
#[global] Instance BlockAnnounce_eq_dec : EqDecision BlockAnnounce.
Proof. solve_decision. Defined.

Definition announce_encode (a : BlockAnnounce) : list byte :=
  to_le_bytes 8 (ann_height a) ++ arr_bytes (ann_digest a).
Definition announce_decode (buf : list byte) : option BlockAnnounce :=
  if negb (Nat.eqb (length buf) 40) then None
  else d ← try_into_array 32 (drop 8 buf); Some (mk_announce (from_le_bytes (take 8 buf)) d).

(** [BlockBroadcaster::{broadcast,announce}] and
    [BlockReceiver::{poll_next,receive}]. *)
Class Broadcaster (W : Type) := {
  bc_broadcast : Block → W → W;
  bc_announce : BlockAnnounce → W → W
}.
Class BlockReceiver (W : Type) := {
  poll_buffer : W → option (list byte) * W;
  receive : array 32 → W → option Block * W
}.

Definition poll_next {W} `{BlockReceiver W} (w : W) : option BlockAnnounce * W :=
  let '(buf, w') := poll_buffer w in (buf ≫= announce_decode, w').

(** ** Admission sets *)

(** Byte arrays are ordered lexicographically, as big-endian numbers. *)
Definition identity_key (a : array 32) : N := from_be_bytes (arr_bytes a).
Definition identity_le (a b : array 32) : Prop := identity_key a ≤ identity_key b.
#[global] Instance identity_le_dec a b : Decision (identity_le a b) := N.le_dec _ _.
#[global] Instance identity_le_total : Total identity_le.
Proof. intros a b. unfold identity_le. lia. Qed.
#[global] Instance identity_le_trans : Transitive identity_le.
Proof. intros a b c. unfold identity_le. lia. Qed.

(** [Vec::dedup] on identities. *)
Fixpoint dedup_identities (l : list (array 32)) : list (array 32) :=
  match l with
  | [] => []
  | x :: l' => match l' with
               | y :: _ => if bool_decide (x = y) then dedup_identities l'
                           else x :: dedup_identities l'
               | [] => [x]
               end
  end.

Definition admission_set (peers : list (array 32)) (max_peers : nat) : list (array 32) :=
  take max_peers (dedup_identities (merge_sort identity_le peers)).

Record P2pConfig := mk_p2p_config {
  key_path : option path;
  listen_addr : string;
  dialable_addr : option string;
  application_namespace : list byte;
  bootstrap_peers : list (string * string);
  registry_admission : bool;
  max_message_size : N;
  broadcast_cache_size : N;
  broadcast_mailbox_size : N;
  mailbox_size : N;
  max_peers_per_set : nat
}.
Definition p2p_config_default : P2pConfig :=
  mk_p2p_config (Some ["."; "p2p.key"]) "0.0.0.0:9000" None (string_bytes "podseq-v1") [] false
    (2 * 1024 * 1024) 128 1024 1024 128.

(** [load_pubkey]: [PublicKey::read_cfg] of 32 bytes, commonware's. *)
Class PeerKeys (PeerKey Identity : Type) := {
  load_pubkey : array 32 → result anyhow PeerKey;
  load_from_seed : list byte → result anyhow Identity;
  identity_pubkey : Identity → array 32;
  random_identity : Identity;
  key_seed : Identity → list byte
}.

Section Admission.
Context {PeerKey Identity : Type} `{PeerKeys PeerKey Identity} `{Hex}.

(** The tracker's sets, newest registration first, and the applied epoch. *)
Record AdmissionHandle := mk_admission {
  tracked : list (N * list PeerKey);
  max_peers : nat;
  epoch : N
}.

Definition admit_peers (e : N) (peers : list (array 32)) (h : AdmissionHandle) : AdmissionHandle :=
  match mapM load_pubkey (admission_set peers (max_peers h)) with
  | Err _ => h
  | Ok keys => mk_admission ((e, keys) :: tracked h) (max_peers h) e
  end.
Definition applied_epoch (h : AdmissionHandle) : N := epoch h.

Definition initial_tracked_set (c : P2pConfig) (own : array 32) (bootstrappers : list (array 32))
    : result anyhow (option (list PeerKey)) :=
  if registry_admission c then Ok None
  else Some <$> mapM load_pubkey (admission_set (own :: bootstrappers) (max_peers_per_set c)).

(** *** The identity key file *)

Definition read_key (p : path) : M disk anyhow Identity :=
  text ← contextM "reading p2p key" (errM (λ e, [io_error_text e]) (fs_read_to_string p));
  let hex := trim text in
  if negb (Nat.eqb (String.length hex) 64) then
    throw ["p2p key file must contain exactly 64 hex chars, got "
           +:+ fmt_dec (N.of_nat (String.length hex))]
  else
    seed ← lift (context "decoding p2p key hex" (map_err (λ e, [e]) (hex_decode hex)));
    lift (load_from_seed seed).

Definition load_or_generate_key (p : path) : M disk anyhow Identity :=
  d ← getM;
  if fs_exists p d then read_key p
  else
    (if bool_decide (parent p = []) then mret tt
     else contextM "creating parent dir for p2p key"
            (errM (λ e, [io_error_text e]) (fs_create_dir_all (parent p))));;
    contextM "writing p2p key"
      (errM (λ e, [io_error_text e]) (fs_write p (string_bytes (hex_encode (key_seed random_identity)))));;
    mret random_identity.

Definition read_pubkey_hex (p : path) : M disk anyhow string :=
  key ← read_key p; mret (hex_encode (arr_bytes (identity_pubkey key))).
End Admission.

(** ** Properties *)

Lemma announce_roundtrip a : is_u64 (ann_height a) → announce_decode (announce_encode a) = Some a.
Proof.
  intros Hh. unfold announce_decode, announce_encode.
  rewrite length_app, length_to_le_bytes, length_arr_bytes. cbn [Nat.add Nat.eqb negb].
  rewrite drop_app_length', take_app_length', u64_le_roundtrip, try_into_array_bytes
    by (done || by rewrite length_to_le_bytes). by destruct a.
Qed.

Lemma from_le_bytes_inj l l' : length l = length l' → from_le_bytes l = from_le_bytes l' → l = l'.
Proof.
  revert l'. induction l as [|b l IH]; intros [|b' l'] Hl Heq; try done.
  cbn in Hl, Heq. pose proof (Byte.to_N_bounded b). pose proof (Byte.to_N_bounded b').
  assert (Byte.to_N b = Byte.to_N b') as Hb by lia.
  f_equal; [|apply IH; lia].
  apply (f_equal Byte.of_N) in Hb. rewrite !Byte.of_to_N in Hb. congruence.
Qed.
Lemma identity_key_inj a b : identity_key a = identity_key b → a = b.
Proof.
  unfold identity_key, from_be_bytes. intros Heq. apply array_eq, (inj reverse), from_le_bytes_inj; [|done].
  by rewrite !length_reverse, !length_arr_bytes.
Qed.

Lemma dedup_identities_keys l : identity_key <$> dedup_identities l = dedup (identity_key <$> l).
Proof.
  induction l as [|a l IH]; [done|]. destruct l as [|b l]; [done|].
  change (dedup_identities (a :: b :: l)) with
    (if bool_decide (a = b) then dedup_identities (b :: l) else a :: dedup_identities (b :: l)).
  change (dedup (identity_key <$> a :: b :: l)) with
    (if identity_key a =? identity_key b then dedup (identity_key <$> b :: l)
     else identity_key a :: dedup (identity_key <$> b :: l)).
  rewrite <- IH. destruct (N.eqb_spec (identity_key a) (identity_key b)) as [Hk|Hk].
  - by rewrite bool_decide_true by by apply identity_key_inj.
  - rewrite bool_decide_false by congruence. done.
Qed.

Lemma admitted_keys_ascending peers :
  ascending (identity_key <$> dedup_identities (merge_sort identity_le peers)).
Proof.
  rewrite dedup_identities_keys. apply dedup_ascending.
  pose proof (StronglySorted_merge_sort identity_le peers) as Hs.
  induction Hs as [|a l Hs IH Ha]; [constructor|]. cbn. constructor; [done|].
  apply Forall_fmap. done.
Qed.

Lemma elem_of_admitted k peers :
  k ∈ identity_key <$> dedup_identities (merge_sort identity_le peers) ↔ k ∈ identity_key <$> peers.
Proof. rewrite dedup_identities_keys, elem_of_dedup. by rewrite merge_sort_Permutation. Qed.

Lemma length_dedup_identities l : (length (dedup_identities l) ≤ length l)%nat.
Proof.
  induction l as [|a l IH]; [done|]. destruct l as [|b l]; [done|].
  change (dedup_identities (a :: b :: l)) with
    (if bool_decide (a = b) then dedup_identities (b :: l) else a :: dedup_identities (b :: l)).
  case_bool_decide; cbn [length] in *; lia.
Qed.
(** Within the bound, the set is the identities named. *)
Lemma elem_of_admission_set peers bound x :
  (length peers ≤ bound)%nat → x ∈ admission_set peers bound ↔ x ∈ peers.
Proof.
  intros Hb. unfold admission_set. rewrite take_ge.
  2:{ pose proof (length_dedup_identities (merge_sort identity_le peers)) as Hlen.
      rewrite merge_sort_Permutation in Hlen at 2. lia. }
  pose proof (elem_of_admitted (identity_key x) peers) as Hk. rewrite !list_elem_of_fmap in Hk.
  split; intros Hx.
  - destruct (proj1 Hk) as (y & Hy%identity_key_inj & ?); [by exists x|congruence].
  - destruct (proj2 Hk) as (y & Hy%identity_key_inj & ?); [by exists x|congruence].
Qed.

(** Every node derives the same admission set.  Two lists naming the same
    identities, in any order and with any repetitions, normalize to the same
    list, strictly ascending, without repetitions, never longer than the
    bound, and holding every named identity when the bound allows. *)
Theorem admission_set_canonical peers peers' bound :
  (∀ x, x ∈ peers ↔ x ∈ peers') →
  admission_set peers bound = admission_set peers' bound ∧
  ascending (identity_key <$> admission_set peers bound) ∧
  (length (admission_set peers bound) ≤ bound)%nat ∧
  ((length peers ≤ bound)%nat → ∀ x, x ∈ admission_set peers bound ↔ x ∈ peers).
Proof.
  intros Hset. split; [|split; [|split]]; [unfold admission_set..|].
  - f_equal. apply (list_fmap_eq_inj identity_key identity_key_inj), ascending_ext;
      [apply admitted_keys_ascending..|].
    intros k. rewrite !elem_of_admitted, !list_elem_of_fmap. naive_solver.
  - rewrite fmap_take. pose proof (admitted_keys_ascending peers) as Ha.
    rewrite <- (take_drop bound (identity_key <$> _)) in Ha. by apply StronglySorted_app_1_l in Ha.
  - rewrite length_take. lia.
  - intros Hb x. by apply elem_of_admission_set.
Qed.

Lemma admission_set_canonical_witness :
  let a := array_fill 32 x01 in let b := array_fill 32 x02 in
  admission_set [b; a; b] 8 = admission_set [a; b] 8 ∧
  ascending (identity_key <$> admission_set [b; a; b] 8) ∧
  (length (admission_set [b; a; b] 8) ≤ 8)%nat ∧
  ((length [b; a; b] ≤ 8)%nat → ∀ x, x ∈ admission_set [b; a; b] 8 ↔ x ∈ [b; a; b]).
Proof.
  cbv zeta. apply (admission_set_canonical [array_fill 32 x02; array_fill 32 x01; array_fill 32 x02]
    [array_fill 32 x01; array_fill 32 x02] 8).
  intros x. rewrite !elem_of_cons. tauto.
Defined.
