(* ===== verification/Gossip.v ===== *)
(** Blocks on the p2p network: [BlockMessage] of [crates/p2p/src/message.rs] and
    [BlockBroadcaster] and [BlockReceiver] of [crates/p2p/src/node.rs].

    The network and the broadcast engine, which caches blocks by their digest,
    are commonware's: the class [Mailbox]. *)

From S2P Require Import Prelude Text Codec Disk Core P2p.
Local Open Scope string_scope.
Local Open Scope list_scope.
Local Open Scope N_scope.

(** ** The wire format *)

(** [serde_json::to_vec] and [from_slice] of a block. *)
Class BlockJson := {
  block_to_vec : serde_block → list byte;
  block_from_slice : list byte → result string serde_block
}.
Class BlockJsonLaws `{BlockJson} := {
  block_json_roundtrip b : block_from_slice (block_to_vec b) = Ok b
}.

(** commonware_codec: the codec of [Vec<u8>], whose reader takes a range of
    lengths. *)
Inductive CodecError := Wrapped (what error : string) | OtherCodec (error : string).
Class VecCodec := {
  vec_write : list byte → list byte;
  vec_encode_size : list byte → N;
  vec_read_range : (N → bool) → list byte → result CodecError (list byte * list byte)
}.
Class VecCodecLaws `{VecCodec} := {
  vec_size_written l : vec_encode_size l = N.of_nat (length (vec_write l));
  vec_read_written range l rest : range (N.of_nat (length l)) = true →
    vec_read_range range (vec_write l ++ rest) = Ok (l, rest)
}.

Section Message.
Context `{BlockJson} `{VecCodec}.

(** [BlockMessage::bytes]; [Write], [EncodeSize] and [Read]. *)
Definition message_bytes (b : Block) : list byte := block_to_vec (serialize_block b).
Definition message_write (b : Block) (buf : list byte) : list byte := buf ++ vec_write (message_bytes b).
Definition message_encode_size (b : Block) : N := vec_encode_size (message_bytes b).
Definition message_read_cfg (buf : list byte) (range : N → bool) : result CodecError (Block * list byte) :=
  '(data, rest) ← vec_read_range range buf;
  b ← map_err (Wrapped "block json") (w ← block_from_slice data; deserialize_block w);
  Ok (b, rest).
End Message.

(** A message reads back, whatever follows it, and takes the announced room;
    the engine's range ([..]) takes every length. *)
Theorem message_roundtrip `{BlockJsonLaws} `{VecCodecLaws} b buf rest range :
  range (N.of_nat (length (message_bytes b))) = true →
  message_read_cfg (drop (length buf) (message_write b buf) ++ rest) range = Ok (b, rest) ∧
  N.of_nat (length (message_write b buf)) = N.of_nat (length buf) + message_encode_size b.
Proof.
  intros Hr. unfold message_read_cfg, message_write, message_encode_size. split.
  - rewrite drop_app_length, vec_read_written by done. cbn [mbind result_bind]. unfold message_bytes.
    rewrite block_json_roundtrip. cbn [mbind result_bind]. by rewrite deserialize_serialize_block.
  - rewrite length_app, vec_size_written. lia.
Qed.

(** ** What a digest names *)

(** Two inputs that sha256 does not tell apart. *)
Definition sha_collision `{Hashes} : Prop := ∃ x y : list byte, x ≠ y ∧ sha256 x = sha256 y.

(** A digest names a header and its data, up to a collision; it says nothing
    about the signature. *)
Theorem digest_binds_block `{Hashes} b b' :
  header_wf (header b) → header_wf (header b') →
  (digest b = digest b' → (header b = header b' ∧ data b = data b') ∨ sha_collision) ∧
  (header b = header b' → data b = data b' → digest b = digest b').
Proof.
  intros Hb Hb'. unfold digest. split; [|by intros -> ->]. intros Hd.
  destruct (decide (arr_bytes (sha256 (data b)) ++ signing_message (header b) =
                    arr_bytes (sha256 (data b')) ++ signing_message (header b'))) as [He|He].
  2:{ right. eexists _, _. by split. }
  apply app_inj_1 in He as [Hs Hm]; [|by rewrite !length_arr_bytes].
  apply array_eq in Hs. apply signing_message_inj in Hm; [|done..].
  destruct (decide (data b = data b')) as [|Hne]; [by left|]. right. by exists (data b), (data b').
Qed.

(** ** The broadcast engine and the announce channel *)

(** [Mailbox::broadcast] and [subscribe] of the buffered engine, and the
    channel's sender and receiver (with its 100 ms timeout). *)
Class Mailbox (W : Type) := {
  mailbox_broadcast : array 32 → Block → W → bool * W;
  mailbox_subscribe : array 32 → W → option Block * W;
  channel_send : list byte → W → W;
  channel_recv : W → option (list byte) * W
}.
(** The engine caches a message under its digest. *)
Class MailboxLaws (W : Type) `{Mailbox W} `{Hashes} := {
  subscribed_digest d w b w' : mailbox_subscribe d w = (Some b, w') → digest b = d
}.

Section Node.
Context {W : Type} `{Mailbox W} `{Hashes}.

(** [BlockBroadcaster::broadcast]: whether the mailbox took it. *)
Definition broadcast (b : Block) (w : W) : bool * W := mailbox_broadcast (digest b) b w.
(** [BlockBroadcaster::announce]; a failing send is dropped. *)
Definition announce (h : N) (d : array 32) (w : W) : W := channel_send (announce_encode (mk_announce h d)) w.
#[export] Instance mailbox_broadcaster : Broadcaster W := {|
  bc_broadcast b w := (broadcast b w).2;
  bc_announce a := announce (ann_height a) (ann_digest a)
|}.
(** [BlockReceiver]: what a wait ends with. *)
#[export] Instance mailbox_receiver : BlockReceiver W := {|
  poll_buffer := channel_recv;
  receive := mailbox_subscribe
|}.
End Node.

(** ** Following an announcement *)

Section Follow.
Context {W : Type} `{MailboxLaws W}.

(** An announcement of a block arrives whole, and a block received under its
    digest has the announced header and data, unless sha256 collides.  The
    signature can be another one: the full node checks it. *)
Theorem announced_block_received (b b' : Block) h w w1 w2 :
  is_u64 h → header_wf (header b) → header_wf (header b') →
  channel_recv w = (Some (announce_encode (mk_announce h (digest b))), w1) →
  receive (digest b) w1 = (Some b', w2) →
  poll_next w = (Some (mk_announce h (digest b)), w1) ∧
  ((header b' = header b ∧ data b' = data b) ∨ sha_collision).
Proof.
  intros Hh Hb Hb' Hc Hr. split.
  - unfold poll_next. cbn [poll_buffer mailbox_receiver]. rewrite Hc. cbn [mbind option_bind]. by rewrite announce_roundtrip.
  - apply subscribed_digest in Hr. by apply digest_binds_block.
Qed.
End Follow.

(** ** Examples *)

Module GossipDemo.
Import Codec.Demo Codec.CountableCodec.
(** A network of one cache and one channel. *)
Record net := mk_net { cache : list Block; wire : list (list byte) }.
#[export] Instance one_cache : Mailbox net := {|
  mailbox_broadcast _ b n := (true, mk_net (b :: cache n) (wire n));
  mailbox_subscribe d n := (snd <$> list_find (λ b, digest b = d) (cache n), n);
  channel_send m n := mk_net (cache n) (wire n ++ [m]);
  channel_recv n := (head (wire n), mk_net (cache n) (tail (wire n)))
|}.
#[export] Instance one_cache_laws : MailboxLaws net.
Proof.
  split. intros d n b n'. cbn. destruct (list_find _ _) as [[i x]|] eqn:Hf; [|done].
  intros [= <- _]. by apply list_find_Some in Hf as (_ & ? & _).
Qed.
#[export] Instance block_json : BlockJson := {|
  block_to_vec b := bits_of (encode b);
  block_from_slice l := ok_or (of_bits l ≫= decode) "json"
|}.
#[export] Instance block_json_laws : BlockJsonLaws.
Proof. split. intros b. cbn. rewrite of_bits_of. cbn. by rewrite decode_encode. Qed.
(** Each byte behind a one, then a zero. *)
Fixpoint vec_of (l : list byte) : list byte := match l with [] => [x00] | b :: l => x01 :: b :: vec_of l end.
Fixpoint of_vec (l : list byte) : option (list byte * list byte) :=
  match l with
  | x00 :: rest => Some ([], rest)
  | x01 :: b :: l => '(k, rest) ← of_vec l; Some (b :: k, rest)
  | _ => None
  end.
#[export] Instance vec_codec : VecCodec := {|
  vec_write := vec_of;
  vec_encode_size l := N.of_nat (length (vec_of l));
  vec_read_range range l :=
    match of_vec l with
    | Some (k, rest) => if range (N.of_nat (length k)) then Ok (k, rest) else Err (OtherCodec "length")
    | None => Err (OtherCodec "truncated")
    end
|}.
#[export] Instance vec_codec_laws : VecCodecLaws.
Proof.
  split; [done|]. intros range l rest Hr. cbn.
  assert (of_vec (vec_of l ++ rest) = Some (l, rest)) as ->; [|by rewrite Hr].
  clear Hr. induction l as [|b l IH]; [done|]. cbn. by rewrite IH.
Qed.
Definition block1 : Block := mk_Block header0 [x0a; x0b] None.
Definition resigned : Block := mk_Block header0 [x0a; x0b] (Some (array_fill 64 x01)).
(** A network that cached the block under another signature. *)
Definition net1 : net := announce 7 (digest block1) (broadcast resigned (mk_net [] [])).2.

Lemma message_roundtrip_witness :
  message_read_cfg (drop (length [x01]) (message_write block1 [x01]) ++ [x02]) (λ _, true) = Ok (block1, [x02]) ∧
  N.of_nat (length (message_write block1 [x01])) = N.of_nat (length [x01]) + message_encode_size block1.
Proof. by apply (message_roundtrip block1 [x01] [x02] (λ _, true)). Defined.
Lemma digest_binds_block_witness :
  (digest block1 = digest resigned → (header0 = header0 ∧ data block1 = data resigned) ∨ sha_collision) ∧
  (header0 = header0 → data block1 = data resigned → digest block1 = digest resigned).
Proof. by apply (digest_binds_block block1 resigned). Defined.
Lemma announced_block_received_witness :
  poll_next net1 = (Some (mk_announce 7 (digest block1)), mk_net [resigned] []) ∧
  ((header resigned = header block1 ∧ data resigned = data block1) ∨ sha_collision).
Proof.
  by apply (announced_block_received (W := net) block1 resigned 7 net1 (mk_net [resigned] []) (mk_net [resigned] [])).
Defined.
End GossipDemo.
