(* ===== verification/Tracker.v ===== *)
(** [crates/node/src/inbox.rs]: the sequencer's force-inclusion tracker, its
    poller, the settlement gate, and the settle call that goes through them
    (with [retry_with_backoff] of [runner.rs]). *)

From S2P Require Import Prelude Text Codec Disk Core Store Wire Contract Sui SuiInbox Deadline.
From S2P Require Import JsonValue L2Rpc Config.
Local Open Scope string_scope.
Local Open Scope list_scope.
Local Open Scope N_scope.

Definition INCLUSION_WINDOW_MS : N := DEFAULT_WINDOW_MS.

Definition deadline_blocks_for (window_ms block_time_ms : N) : N :=
  div_ceil window_ms (N.max block_time_ms 1).

Inductive TrackerError :=
| TTransport (e : InboxError)
| TStore (e : StoreError)
| TCorrupt (msg : string).

Definition tracker_error_text (e : TrackerError) : string :=
  match e with
  | TTransport e => "inbox transport: " +:+ inbox_error_text e
  | TStore e => "inbox store: " +:+ store_error_text e
  | TCorrupt m => "corrupt inbox record: " +:+ m
  end.

Inductive HaltCheck :=
| Clear
| Halt (nonce deadline_height next_height : N).
#[global] Instance HaltCheck_eq_dec : EqDecision HaltCheck.
Proof. solve_decision. Defined.

Record TrackedSubmission := mk_tracked {
  ts_nonce : N;
  ts_tx_bytes : list byte;
  ts_tx_hash : array 32;
  ts_deadline_ms : N;
  ts_deadline_height : N;
  ts_first_seen_height : N
}.

(** The tracker; its [deadline_blocks] is an atomic shared by every task, so
    it lives in the world. *)
Record InboxTracker := mk_tracker {
  tr_inbox : Address;
  tr_store : InboxStore.t;
  tr_block_time_ms : N;
  tr_window_package : option Address
}.
Class HasBudget (W : Type) := { deadline_blocks : W → N; set_deadline_blocks : N → W → W }.

(** [a..b] *)
Definition range (a b : N) : list N := (λ i, a + N.of_nat i) <$> seq 0 (N.to_nat (b - a)).

(** ** Stored hex *)

Section StoredHex.
Context `{Hex}.

Definition decode_tx_bytes (hex_bytes : string) : result TrackerError (list byte) :=
  map_err (λ e, TCorrupt ("invalid hex tx payload: " +:+ e))
    (hex_decode (trim_start_matches "0x" hex_bytes)).
Definition parse_tx_hash (hex_hash : string) : result TrackerError (array 32) :=
  bytes ← decode_tx_bytes hex_hash;
  ok_or (try_into_array 32 bytes)
    (TCorrupt ("tx hash must be 32 bytes, got " +:+ fmt_dec (N.of_nat (length bytes))
               +:+ ": " +:+ hex_hash)).

(** [format!("{tx_hash:#x}")] *)
Definition fmt_hash (h : array 32) : string := "0x" +:+ hex_encode (arr_bytes h).
End StoredHex.

Definition record_hash (r : InboxStore.NonceRecord) : string :=
  match r with InboxStore.Submitted _ _ _ h _ | InboxStore.Included _ h => h end.

(** ** The tracker's operations *)

Section Tracker.
Context {W : Type} `{InboxTransport W} `{HasDisk W} `{HasBudget W} `{SuiSdk} `{Hex} `{Hashes}.
Context `{Json InboxStore.InboxFile} `{Bcs InboxBcs} `{Bcs FieldPendingBcs} `{Bcs FieldU64Bcs}
  `{Bcs FieldWindowBcs} `{Bcs ClockBcs}.
Abbreviation Op := (M W TrackerError).

Definition transport {A} (m : M W InboxError A) : Op A := errM TTransport m.
Definition stored {A} (m : M disk StoreError A) : Op A := errM TStore (on_disk m).

(** Any failed read keeps the previous budget. *)
Definition refresh_window (t : InboxTracker) : Op unit :=
  match tr_window_package t with
  | None => mret tt
  | Some package =>
      clock ← tryM (bytes ← tr_object_contents SUI_CLOCK_ID; lift (parse_clock bytes));
      match clock with
      | Err _ => mret tt
      | Ok now =>
          view ← tryM (SuiInbox.window (mk_InboxReader (tr_inbox t)) package now);
          match view with
          | Err _ => mret tt
          | Ok v => modM (set_deadline_blocks
                            (deadline_blocks_for (effective_ms v) (tr_block_time_ms t)))
          end
      end
  end.

(** One nonce of [sync]'s loop: [None] when there is nothing to report. *)
Definition sync_one (t : InboxTracker) (tracked : gmap N InboxStore.NonceRecord) (table : Address)
    (at_height deadline_height nonce : N) : Op (option TrackedSubmission) :=
  match tracked !! nonce with
  | Some _ => mret None
  | None =>
      entry ← transport (tr_field_contents table nonce);
      match entry with
      | None => mret None
      | Some bytes =>
          pending ← lift (map_err TTransport (parse_pending_tx bytes));
          let tx := SuiInbox.tx_bytes pending in
          let tx_hash := keccak256 tx in
          stored (InboxStore.record_submitted (tr_store t) nonce deadline_height
                    (SuiInbox.deadline_ms pending) at_height (fmt_hash tx_hash) (hex_encode tx));;
          mret (Some (mk_tracked nonce tx tx_hash (SuiInbox.deadline_ms pending) deadline_height
                        at_height))
      end
  end.

Fixpoint sync_loop (t : InboxTracker) (tracked : gmap N InboxStore.NonceRecord) (table : Address)
    (at_height deadline_height : N) (nonces : list N) : Op (list TrackedSubmission) :=
  match nonces with
  | [] => mret []
  | n :: ns =>
      o ← sync_one t tracked table at_height deadline_height n;
      rest ← sync_loop t tracked table at_height deadline_height ns;
      mret (match o with Some s => s :: rest | None => rest end)
  end.

Definition sync (t : InboxTracker) (at_height : N) : Op (list TrackedSubmission) :=
  contents ← transport (tr_object_contents (tr_inbox t));
  status ← lift (map_err TTransport (parse_inbox_status contents));
  refresh_window t;;
  tracked ← stored (InboxStore.snapshot (tr_store t));
  w ← getM;
  sync_loop t tracked (pending_table_uid status) at_height (sat_add at_height (deadline_blocks w))
    (range (SuiInbox.included_count status) (SuiInbox.next_nonce status)).

(** One record of [observe_transactions]'s loop. *)
Definition observe_one (t : InboxTracker) (height : N) (block_hashes : list (array 32))
    (e : N * InboxStore.NonceRecord) : Op (option N) :=
  h ← lift (parse_tx_hash (record_hash e.2));
  if bool_decide (h ∈ block_hashes) then
    stored (InboxStore.mark_included (tr_store t) e.1 height);;
    mret (if InboxStore.is_submitted e.2 then Some e.1 else None)
  else mret None.

Fixpoint observe_loop (t : InboxTracker) (height : N) (block_hashes : list (array 32))
    (es : list (N * InboxStore.NonceRecord)) : Op (list N) :=
  match es with
  | [] => mret []
  | e :: es =>
      o ← observe_one t height block_hashes e;
      rest ← observe_loop t height block_hashes es;
      mret (match o with Some n => n :: rest | None => rest end)
  end.

Definition observe_transactions (t : InboxTracker) (height : N) (raw_txs : list (list byte))
    : Op (list N) :=
  snapshot ← stored (InboxStore.snapshot (tr_store t));
  observe_loop t height (keccak256 <$> raw_txs) (btree_entries snapshot).

Definition observe_inclusion (t : InboxTracker) (nonce height : N) : Op unit :=
  record ← stored (InboxStore.get (tr_store t) nonce);
  match record with
  | Some (InboxStore.Included existing _) =>
      if existing =? height then mret tt
      else throw (TStore (Conflict ("inbox nonce " +:+ fmt_dec nonce
             +:+ " already included at height " +:+ fmt_dec existing
             +:+ ", refusing second inclusion at height " +:+ fmt_dec height)))
  | Some (InboxStore.Submitted _ _ _ _ _) =>
      stored (InboxStore.mark_included (tr_store t) nonce height)
  | None => throw (TCorrupt ("cannot mark untracked inbox nonce " +:+ fmt_dec nonce +:+ " included"))
  end.

Definition to_tracked (e : N * InboxStore.NonceRecord) : result TrackerError TrackedSubmission :=
  match e.2 with
  | InboxStore.Submitted deadline_height deadline_ms first_seen tx_hash tx =>
      h ← parse_tx_hash tx_hash; bytes ← decode_tx_bytes tx;
      Ok (mk_tracked e.1 bytes h deadline_ms deadline_height first_seen)
  | InboxStore.Included _ _ =>
      Err (TCorrupt ("submitted() returned an included record for nonce " +:+ fmt_dec e.1))
  end.
Definition pending_submissions (t : InboxTracker) : Op (list TrackedSubmission) :=
  es ← stored (InboxStore.submitted (tr_store t)); lift (mapM to_tracked es).

Definition settle_cursor (t : InboxTracker) : Op N := stored (InboxStore.included_count (tr_store t)).

(** The first submitted nonce decides. *)
Fixpoint first_halt (next_height : N) (es : list (N * InboxStore.NonceRecord)) : HaltCheck :=
  match es with
  | [] => Clear
  | (nonce, InboxStore.Submitted deadline_height _ _ _ _) :: _ =>
      if deadline_height <? next_height then Halt nonce deadline_height next_height else Clear
  | (_, InboxStore.Included _ _) :: es => first_halt next_height es
  end.
Definition halt_check (t : InboxTracker) (next_height : N) : Op HaltCheck :=
  snapshot ← stored (InboxStore.snapshot (tr_store t));
  mret (first_halt next_height (btree_entries snapshot)).
End Tracker.

(** ** Integration with the runner *)

Record InboxIntegration := mk_integration { tracker : InboxTracker; l2_rpc_url : string }.

(** [build_tracker] and [from_config]: [None] without a configured inbox. The
    budget seed goes to the world. *)
Definition build_tracker `{SuiSdk} (sui : SuiConfig) (inbox_id : string) (data_dir : path)
    (block_time_ms : N) : result TrackerError (InboxTracker * N) :=
  inbox ← map_err (λ e, TCorrupt ("parsing sui.inbox_id " +:+ inbox_id +:+ ": " +:+ e))
            (address_from_str inbox_id);
  package ← match settlement_package_id sui with
            | None => Ok None
            | Some id => Some <$> map_err (λ e, TCorrupt ("parsing sui.settlement_package_id: " +:+ e))
                                    (address_from_str id)
            end;
  Ok (mk_tracker inbox (InboxStore.new data_dir) block_time_ms package,
      deadline_blocks_for INCLUSION_WINDOW_MS block_time_ms).

Definition from_config `{SuiSdk} (sui : SuiConfig) (reth_rpc_url : string) (data_dir : path)
    (block_time_ms : N) : result TrackerError (option (InboxIntegration * N)) :=
  match sc_inbox_id sui with
  | None => Ok None
  | Some id => '(t, seed) ← build_tracker sui id data_dir block_time_ms;
               Ok (Some (mk_integration t reth_rpc_url, seed))
  end.

Section Integration.
Context {W : Type} `{InboxTransport W} `{HasDisk W} `{HasBudget W} `{JsonHttp W} `{Runtime W}
  `{SettlementLayer W} `{SuiSdk} `{Hex} `{Hashes} `{EvmSdk}.
Context `{Json InboxStore.InboxFile} `{Bcs InboxBcs} `{Bcs FieldPendingBcs} `{Bcs FieldU64Bcs}
  `{Bcs FieldWindowBcs} `{Bcs ClockBcs}.

Definition as_anyhow {A} (m : M W TrackerError A) : M W anyhow A :=
  errM (λ e, [tracker_error_text e]) m.

(** The crash-replay guard: a mined transaction syncs its marker and is never
    sent again. *)
Definition poll_one (i : InboxIntegration) (s : TrackedSubmission) : M W anyhow unit :=
  mined ← eth_get_transaction_receipt_height (l2_rpc_url i) (ts_tx_hash s);
  match mined with
  | Some height => as_anyhow (observe_inclusion (tracker i) (ts_nonce s) height)
  | None => eth_send_raw_transaction (l2_rpc_url i) (ts_tx_bytes s);; mret tt
  end.

Fixpoint poll_all (i : InboxIntegration) (l : list TrackedSubmission) : M W anyhow unit :=
  match l with [] => mret tt | s :: l => poll_one i s;; poll_all i l end.

(** [block_height]: the metrics gauge, negative values read as zero. *)
Definition poll_pass (i : InboxIntegration) (block_height : Z) : M W anyhow unit :=
  as_anyhow (sync (tracker i) (Z.to_N (Z.max block_height 0)));;
  pending ← as_anyhow (pending_submissions (tracker i));
  poll_all i pending.

(** [wait_inclusion_gate]: [None] when the fuel runs out. *)
Fixpoint wait_inclusion_gate (fuel : nat) (inbox : option InboxIntegration) (height backoff : N)
    (w : W) : option (bool * W) :=
  match inbox with
  | None => Some (true, w)
  | Some i =>
      match fuel with
      | O => None
      | S fuel =>
          if shutting_down w then Some (false, w)
          else match halt_check (tracker i) height w with
               | (Ok Clear, w') => Some (true, w')
               | (Ok (Halt _ _ _), w') => wait_inclusion_gate fuel inbox height backoff (sleep_ms backoff w')
               | (Err _, w') => Some (true, w')
               end
      end
  end.

Definition commit_with_inbox (inbox : option InboxIntegration) (block : Block) (blob : BlobId)
    : M W Core.Error unit :=
  match inbox with
  | None => commit_block block blob None
  | Some i =>
      cursor ← tryM (settle_cursor (tracker i));
      match cursor with
      | Ok n => commit_block block blob (Some n)
      | Err _ => commit_block block blob None
      end
  end.

(** [retry_with_backoff]: [true] on success, [false] on shutdown, [None] when
    the fuel runs out. *)
Fixpoint retry_with_backoff {E A} (fuel : nat) (backoff max_backoff : N) (op : M W E A) (w : W)
    : option (bool * W) :=
  match fuel with
  | O => None
  | S fuel =>
      if shutting_down w then Some (false, w)
      else match op w with
           | (Ok _, w') => Some (true, w')
           | (Err _, w') =>
               retry_with_backoff fuel (N.min (backoff * 2) max_backoff) max_backoff op
                 (sleep_ms backoff w')
           end
  end.

Definition settle_with_gate (fuel : nat) (inbox : option InboxIntegration) (block : Block)
    (blob : BlobId) (w : W) : option (bool * W) :=
  match wait_inclusion_gate fuel inbox (height (header block)) 500 w with
  | None => None
  | Some (true, w') => retry_with_backoff fuel 500 10000 (commit_with_inbox inbox block blob) w'
  | Some (false, w') => Some (false, w')
  end.

(** A failed write is logged and dropped. *)
Definition observe_block_inclusions {E} (inbox : option InboxIntegration) (raw_txs : list (list byte))
    (height : N) : M W E unit :=
  match inbox with
  | None => mret tt
  | Some i => tryM (observe_transactions (tracker i) height raw_txs);; mret tt
  end.
End Integration.

(** ** The gate *)

Section Gate.
Implicit Types m : gmap N InboxStore.NonceRecord.

(** The block deadline of a nonce still waiting for inclusion. *)
Definition waiting m (n d : N) : Prop := ∃ a b h x, m !! n = Some (InboxStore.Submitted d a b h x).

Lemma first_halt_spec next es :
  StronglySorted key_le es →
  match first_halt next es with
  | Clear =>
      (∀ n d a b h x, (n, InboxStore.Submitted d a b h x) ∉ es) ∨
      ∃ n d a b h x, (n, InboxStore.Submitted d a b h x) ∈ es ∧ next ≤ d ∧
        ∀ n' d' a' b' h' x', (n', InboxStore.Submitted d' a' b' h' x') ∈ es → n ≤ n'
  | Halt n d k =>
      k = next ∧ d < next ∧ ∃ a b h x, (n, InboxStore.Submitted d a b h x) ∈ es ∧
        ∀ n' d' a' b' h' x', (n', InboxStore.Submitted d' a' b' h' x') ∈ es → n ≤ n'
  end.
Proof.
  induction 1 as [|[n r] es Hs IH Hle]; cbn; [left; set_solver|].
  rewrite Forall_forall in Hle.
  destruct r as [d a b h x|k h].
  - assert (∀ n' d' a' b' h' x',
      (n', InboxStore.Submitted d' a' b' h' x') ∈ (n, InboxStore.Submitted d a b h x) :: es → n ≤ n').
    { intros n' d' a' b' h' x' [[= <- _ _ _ _ _]|Hin]%elem_of_cons; [done|].
      apply (Hle _ Hin). }
    destruct (N.ltb_spec d next).
    + split; [done|]. split; [done|]. exists a, b, h, x. split; [left|done].
    + right. exists n, d, a, b, h, x. split; [left|done].
  - destruct (first_halt next es).
    + destruct IH as [IH|(n' & d & a & b & h' & x & Hin & Hd & Hmin)].
      * left. intros n' d a b h' x [?|?]%elem_of_cons; [done|]. by eapply IH.
      * right. exists n', d, a, b, h', x. split; [by right|]. split; [done|].
        intros ?????? [?|?]%elem_of_cons; [done|]. by eapply Hmin.
    + destruct IH as (-> & Hd & a & b & h' & x & Hin & Hmin). split; [done|]. split; [done|].
      exists a, b, h', x. split; [by right|].
      intros ?????? [?|?]%elem_of_cons; [done|]. by eapply Hmin.
Qed.
End Gate.

(** C25: The gate is exact while deadlines grow with nonces.  If no waiting
    nonce has an earlier block deadline than a smaller waiting nonce, the
    verdict for the next block halts exactly when some waiting nonce is
    overdue, and the nonce it names is the oldest waiting one. *)
Theorem halt_check_exact (m : gmap N InboxStore.NonceRecord) next :
  (∀ n n' d d', waiting m n d → waiting m n' d' → n ≤ n' → d ≤ d') →
  match first_halt next (btree_entries m) with
  | Clear => ∀ n d, waiting m n d → next ≤ d
  | Halt n d k => k = next ∧ waiting m n d ∧ d < next ∧ ∀ n' d', waiting m n' d' → n ≤ n'
  end.
Proof.
  intros Hmono. pose proof (first_halt_spec next _ (btree_entries_sorted m)) as Hs.
  unfold waiting in *.
  destruct (first_halt next _).
  - destruct Hs as [Hs|(n & d & a & b & h & x & Hin & Hd & Hmin)].
    + intros n d (a & b & h & x & Hn). apply elem_of_btree_entries in Hn. by destruct (Hs _ _ _ _ _ _ Hn).
    + rewrite elem_of_btree_entries in Hin. intros n' d' (a' & b' & h' & x' & Hn').
      assert (n ≤ n') as Hle by (rewrite <- elem_of_btree_entries in Hn'; by eapply Hmin).
      specialize (Hmono n n' d d'). cut (d ≤ d'); [lia|]. apply Hmono; eauto 10.
  - destruct Hs as (-> & Hd & a & b & h & x & Hin & Hmin). rewrite elem_of_btree_entries in Hin.
    split; [done|]. split; [eauto 10|]. split; [done|].
    intros n' d' (a' & b' & h' & x' & Hn'). rewrite <- elem_of_btree_entries in Hn'. by eapply Hmin.
Qed.

Definition two_waiting (d0 d1 : N) : gmap N InboxStore.NonceRecord :=
  {[ 0 := InboxStore.Submitted d0 0 0 "h0" ""; 1 := InboxStore.Submitted d1 0 0 "h1" "" ]}.

Lemma halt_check_exact_witness :
  first_halt 12 (btree_entries (two_waiting 11 20)) = Halt 0 11 12 ∧
  match first_halt 12 (btree_entries (two_waiting 11 20)) with
  | Clear => ∀ n d, waiting (two_waiting 11 20) n d → 12 ≤ d
  | Halt n d k => k = 12 ∧ waiting (two_waiting 11 20) n d ∧ d < 12 ∧
                  ∀ n' d', waiting (two_waiting 11 20) n' d' → n ≤ n'
  end.
Proof.
  split; [by vm_compute|].
  refine (halt_check_exact (two_waiting 11 20) 12 _).
  assert (∀ n d, waiting (two_waiting 11 20) n d → (n = 0 ∧ d = 11) ∨ (n = 1 ∧ d = 20)) as Hw.
  { intros n d (a & b & h & x & Hn). unfold two_waiting in Hn.
    apply lookup_insert_Some in Hn as [[<- [= -> _ _ _ _]]|[_ Hn]]; [by left|].
    apply lookup_singleton_Some in Hn as [<- [= -> _ _ _ _]]. by right. }
  intros n n' d d' [[-> ->]|[-> ->]]%Hw [[-> ->]|[-> ->]]%Hw; lia.
Defined.

(** ** The cursor *)

(** C26: The inclusion cursor is a count, and the contract takes it for a
    prefix.  [settle_cursor] is the number of included markers; when the
    contract accepts a settle with it, every nonce below it is dropped from the
    pending set as covered, those still waiting for inclusion too, and the
    transaction at the cursor is held against the sequencer whether or not it
    was included: past its deadline every settle with this cursor aborts. *)
Theorem settle_cursor_counts_gaps {W} `{HasDisk W} `{Json InboxStore.InboxFile} (t : InboxTracker)
    (w w' : W) markers (i i' : Inbox.Inbox) ts :
  stored (InboxStore.snapshot (tr_store t)) w = (Ok markers, w') → Inbox.wf i →
  let cursor := InboxStore.count_included markers in
  Inbox.enforce_settle i ts cursor = Ok i' →
  settle_cursor t w = (Ok cursor, w') ∧
  (∀ n r, markers !! n = Some r → InboxStore.is_submitted r = true → n < cursor →
     Inbox.pending i' !! n = None) ∧
  ∀ p late, Inbox.pending i' !! cursor = Some p → Inbox.deadline_ms p < late →
    is_ok (Inbox.enforce_settle i' late cursor) = false.
Proof.
  intros Hm Hwf cursor Hs. pose proof (InboxContract.enforce_settle_spec i ts cursor Hwf) as Hspec.
  rewrite Hs in Hspec. destruct Hspec as (Hset & Hwf' & Hi'). split_and!.
  - revert Hm. unfold settle_cursor, stored, errM, on_disk, zoom, InboxStore.snapshot, InboxStore.included_count.
    cbv [fmap M_fmap]. destruct (InboxStore.load_raw (tr_store t) (get_disk w)) as [[f|e] d]; cbn; [|done].
    by intros [= <- <-].
  - intros n r _ _ Hn. destruct (Inbox.pending i' !! n) as [p|] eqn:Hp; [|done].
    destruct Hwf' as [_ _ Hd _]. destruct (proj1 (Hd n)) as [Hle _]; [by eexists|].
    rewrite Hi' in Hle. cbn in Hle. lia.
  - intros p late Hp Hlate. pose proof (InboxContract.enforce_settle_spec i' late cursor Hwf') as Hl.
    destruct (Inbox.enforce_settle i' late cursor) as [i2|]; [|done]. destruct Hl as (Hl & _).
    destruct Hl as (_ & _ & Hl). specialize (Hl p Hp). lia.
Qed.

(** ** Persist before use *)

Module TrackerWorld.
(** Any transport [X], next to the disk and the shared budget. *)
Record t (X : Type) := mk { net : X; dsk : disk; budget : N }.
#[global] Arguments mk {X}. #[global] Arguments net {X}. #[global] Arguments dsk {X}.
#[global] Arguments budget {X}.

Section world.
Context {X : Type} `{InboxTransport X}.
Definition on_net {A} (m : M X InboxError A) : M (t X) InboxError A :=
  zoom net (λ x w, mk x (dsk w) (budget w)) m.
#[global] Instance tw_transport : InboxTransport (t X) := {|
  tr_object_contents id := on_net (tr_object_contents id);
  tr_field_contents table key := on_net (tr_field_contents table key)
|}.
End world.
#[global] Instance tw_disk {X} : HasDisk (t X) := {|
  get_disk := dsk; put_disk d w := mk (net w) d (budget w)
|}.
#[global] Instance tw_budget {X} : HasBudget (t X) := {|
  Tracker.deadline_blocks := budget; set_deadline_blocks n w := mk (net w) (dsk w) n
|}.
End TrackerWorld.

Create HintDb keeps discriminated.

Section SyncFacts.
Import TrackerWorld.
Context {X : Type} `{InboxTransport X} `{SuiSdk} `{Hex} `{Hashes} `{JsonLaws InboxStore.InboxFile}.
Context `{Bcs InboxBcs} `{Bcs FieldPendingBcs} `{Bcs FieldU64Bcs} `{Bcs FieldWindowBcs} `{Bcs ClockBcs}.
Context (t : InboxTracker) (Hpath : InboxStore.file_path (tr_store t) ≠ []).

(** What a restarted tracker reads. *)
Definition tracked_view (w : TrackerWorld.t X) : result StoreError (gmap N InboxStore.NonceRecord) :=
  view (InboxStore.snapshot (tr_store t)) (dsk w).

Definition submitted_record (s : TrackedSubmission) : InboxStore.NonceRecord :=
  InboxStore.Submitted (ts_deadline_height s) (ts_deadline_ms s) (ts_first_seen_height s)
    (fmt_hash (ts_tx_hash s)) (hex_encode (ts_tx_bytes s)).

(** Computations that leave the markers as they are. *)
Definition keeps {E A} (m : M (TrackerWorld.t X) E A) : Prop :=
  ∀ w, tracked_view (m w).2 = tracked_view w.

Lemma keeps_run {E A} (m : M (TrackerWorld.t X) E A) w r w' :
  keeps m → m w = (r, w') → tracked_view w' = tracked_view w.
Proof. intros Hk Hm. specialize (Hk w). by rewrite Hm in Hk. Qed.
Lemma keeps_lift {E A} (r : result E A) : keeps (lift r).
Proof. done. Qed.
Lemma keeps_ret {E A} (a : A) : keeps (E := E) (mret a).
Proof. done. Qed.
Lemma keeps_bind {E A B} (m : M (TrackerWorld.t X) E A) (k : A → M (TrackerWorld.t X) E B) :
  keeps m → (∀ a, keeps (k a)) → keeps (m ≫= k).
Proof.
  intros Hm Hk w. rewrite run_bind. specialize (Hm w). destruct (m w) as [[a|e] w']; [|done].
  by rewrite Hk.
Qed.
Lemma keeps_errM {E F A} (f : E → F) (m : M (TrackerWorld.t X) E A) : keeps m → keeps (errM f m).
Proof. intros Hm w. specialize (Hm w). unfold errM. by destruct (m w). Qed.
Lemma keeps_tryM {E F A} (m : M (TrackerWorld.t X) E A) : keeps m → keeps (E := F) (tryM m).
Proof. intros Hm w. specialize (Hm w). unfold tryM. by destruct (m w). Qed.
Lemma keeps_net {A} (m : M X InboxError A) : keeps (on_net m).
Proof. intros w. unfold on_net, zoom, tracked_view. by destruct (m (net w)). Qed.
Lemma keeps_object id : keeps (transport (tr_object_contents id)).
Proof. apply keeps_errM, keeps_net. Qed.
Lemma keeps_field table n : keeps (transport (tr_field_contents table n)).
Proof. apply keeps_errM, keeps_net. Qed.
Lemma keeps_budget {E} n : keeps (E := E) (modM (set_deadline_blocks n)).
Proof. done. Qed.
Lemma keeps_optional {A} (m : M (TrackerWorld.t X) InboxError (list byte)) (p : list byte → result InboxError A) :
  keeps m → keeps (optional_field m p).
Proof. intros Hm w. specialize (Hm w). unfold optional_field. by destruct (m w) as [[|[]] ?]. Qed.
Lemma keeps_stored {A} (m : M disk StoreError A) : reads m → keeps (stored m).
Proof.
  intros Hr w. unfold stored, errM, on_disk, zoom, tracked_view.
  destruct (m (get_disk w)) as [r d] eqn:Hm. apply Hr in Hm as [Hf Hd].
  cbn in *. unfold view, restart. by rewrite Hf, Hd.
Qed.
Lemma keeps_snapshot : keeps (stored (InboxStore.snapshot (tr_store t))).
Proof.
  apply keeps_stored. intros d r d'. unfold InboxStore.snapshot. cbv [fmap M_fmap].
  destruct (InboxStore.load_raw _ d) as [r0 d0] eqn:Hl. intros [= _ <-].
  rewrite InboxFacts.inbox_load_raw_eq in Hl. by apply load_file_reads in Hl.
Qed.
#[local] Hint Resolve keeps_lift keeps_ret keeps_errM keeps_tryM keeps_net keeps_budget
  keeps_optional keeps_snapshot : keeps.
#[local] Hint Extern 1 (keeps (_ ≫= _)) => apply keeps_bind; [|intros] : keeps.
#[local] Hint Extern 1 (keeps (match ?x with _ => _ end)) => destruct x : keeps.

Lemma refresh_keeps : keeps (refresh_window t).
Proof.
  unfold refresh_window, SuiInbox.window, tr_object_contents, tw_transport. auto 20 with keeps.
Qed.

Lemma stored_mutation f w r w' :
  stored (InboxStore.mutate (tr_store t) f) w = (r, w') →
  match r with
  | Ok _ => ∃ m m', tracked_view w = Ok m ∧ f m = Ok m' ∧ tracked_view w' = Ok m'
  | Err _ => tracked_view w' = tracked_view w
  end.
Proof.
  unfold stored, errM, on_disk, zoom, tracked_view.
  destruct (InboxStore.mutate _ f _) as [r0 d] eqn:Hm. intros [= <- <-]. cbn.
  apply InboxFacts.inbox_mutate_spec in Hm; [|done]. by destruct r0.
Qed.

Lemma sync_one_spec tracked table h dh n w r w' m :
  sync_one t tracked table h dh n w = (r, w') → tracked_view w = Ok m →
  match r with
  | Ok (Some s) =>
      ts_nonce s = n ∧ ts_tx_hash s = keccak256 (ts_tx_bytes s) ∧ m !! n = None ∧
      tracked_view w' = Ok (<[n := submitted_record s]> m)
  | _ => tracked_view w' = Ok m
  end.
Proof.
  unfold sync_one. intros Hs Hv. revert Hs. destruct (tracked !! n); [by intros [= <- <-]|].
  rewrite run_bind. destruct (transport _ w) as [[entry|e] w1] eqn:Ht.
  2:{ intros [= <- <-]. rewrite <- Hv. by eapply (keeps_run _ _ _ _ (keeps_field _ _)). }
  assert (tracked_view w1 = Ok m) as Hv1 by (rewrite <- Hv; by eapply (keeps_run _ _ _ _ (keeps_field _ _))).
  destruct entry as [bytes|]; [|by intros [= <- <-]].
  unfold lift. rewrite run_bind. destruct (map_err _ (parse_pending_tx bytes)) as [p|]; [|by intros [= <- <-]].
  rewrite run_bind. destruct (stored _ w1) as [[[]|e] w2] eqn:Hst; intros [= <- <-];
    apply stored_mutation in Hst; [|congruence].
  destruct Hst as (m0 & m' & Hv0 & Hf & Hv'). rewrite Hv1 in Hv0. injection Hv0 as <-.
  apply InboxFacts.insert_submitted_ok in Hf as [Hn ->]. done.
Qed.

(** The submissions of a list as markers. *)
Definition adds (fresh : list TrackedSubmission) (m m' : gmap N InboxStore.NonceRecord) : Prop :=
  m ⊆ m' ∧
  (∀ s, s ∈ fresh → ts_tx_hash s = keccak256 (ts_tx_bytes s) ∧ m !! ts_nonce s = None ∧
                    m' !! ts_nonce s = Some (submitted_record s)) ∧
  ∀ n r, m' !! n = Some r → m !! n = None → ∃ s, s ∈ fresh ∧ ts_nonce s = n ∧ r = submitted_record s.

Lemma sync_loop_spec tracked table h dh ns w r w' m :
  sync_loop t tracked table h dh ns w = (r, w') → tracked_view w = Ok m →
  ∃ m', tracked_view w' = Ok m' ∧ match r with Ok fresh => adds fresh m m' | Err _ => m ⊆ m' end.
Proof.
  revert w r w' m. induction ns as [|n ns IH]; intros w r w' m; cbn [sync_loop].
  { intros [= <- <-] Hv. exists m. split; [done|]. split; [done|]. split; [set_solver|].
    intros n x ??. congruence. }
  rewrite run_bind. destruct (sync_one _ _ _ _ _ _ w) as [[o|e] w1] eqn:Ho; intros Hr Hv.
  2:{ injection Hr as <- <-. exists m. split; [by apply (sync_one_spec _ _ _ _ _ _ _ _ _ Ho Hv)|done]. }
  pose proof (sync_one_spec _ _ _ _ _ _ _ _ _ Ho Hv) as Hone.
  rewrite run_bind in Hr.
  destruct o as [s|].
  - destruct Hone as (<- & Hh & Hn & Hv1). set (m1 := <[_ := _]> m) in *.
    assert (m ⊆ m1) as Hsub by (by apply insert_subseteq).
    destruct (sync_loop _ _ _ _ _ ns w1) as [[rest|e] w2] eqn:Hl;
      destruct (IH _ _ _ _ Hl Hv1) as (m' & Hv' & Hm'); injection Hr as <- <-; exists m'; split; try done.
    2:{ by etrans. }
    destruct Hm' as (Hs1 & Hin & Hnew). split; [by etrans|]. split.
    + intros s' [->|Hs']%elem_of_cons.
      * split; [done|]. split; [done|]. eapply lookup_weaken; [|done]. apply lookup_insert_eq.
      * destruct (Hin s' Hs') as (? & Hm1 & ?). split; [done|]. split; [|done].
        apply lookup_insert_None in Hm1. tauto.
    + intros k x Hk Hmk. destruct (decide (k = ts_nonce s)) as [->|Hne].
      * exists s. split; [left|]. split; [done|].
        assert (m' !! ts_nonce s = Some (submitted_record s)) as Hk'.
        { eapply lookup_weaken; [|done]. apply lookup_insert_eq. }
        congruence.
      * destruct (Hnew k x Hk) as (s' & ? & ? & ?).
        { unfold m1. by rewrite lookup_insert_ne. }
        exists s'. split; [by right|done].
  - destruct (sync_loop _ _ _ _ _ ns w1) as [[rest|e] w2] eqn:Hl;
      destruct (IH _ _ _ _ Hl Hone) as (m' & Hv' & Hm'); injection Hr as <- <-; by exists m'.
Qed.

Lemma sync_spec h w r w' m :
  sync t h w = (r, w') → tracked_view w = Ok m →
  ∃ m', tracked_view w' = Ok m' ∧ match r with Ok fresh => adds fresh m m' | Err _ => m ⊆ m' end.
Proof.
  intros Hs Hv. unfold sync in Hs.
  assert (∀ {A} (f : M (TrackerWorld.t X) TrackerError A) k v,
            keeps f → (f ≫= k) v = (r, w') → tracked_view v = Ok m →
            (∃ a v', tracked_view v' = Ok m ∧ k a v' = (r, w')) ∨ ((∃ e, r = Err e) ∧ tracked_view w' = Ok m))
    as Hstep.
  { intros A f k v Hk Hr Hm. rewrite run_bind in Hr. destruct (f v) as [[a|e] v'] eqn:E;
      apply (keeps_run _ _ _ _ Hk) in E; [left; exists a, v'; split; [congruence|done]|].
    right. injection Hr as <- <-. split; [by exists e|congruence]. }
  destruct (Hstep _ _ _ _ (keeps_object _) Hs Hv) as [(c & v1 & Hv1 & Hr1)|[[e ->] ?]];
    [|by exists m].
  destruct (Hstep _ _ _ _ ltac:(apply keeps_lift) Hr1 Hv1) as [(s & v2 & Hv2 & Hr2)|[[e ->] ?]]; [|by exists m].
  destruct (Hstep _ _ _ _ refresh_keeps Hr2 Hv2) as [([] & v3 & Hv3 & Hr3)|[[e ->] ?]]; [|by exists m].
  destruct (Hstep _ _ _ _ keeps_snapshot Hr3 Hv3) as [(k & v4 & Hv4 & Hr4)|[[e ->] ?]]; [|by exists m].
  destruct (Hstep _ getM _ _ ltac:(done) Hr4 Hv4) as [(u & v5 & Hv5 & Hr5)|[[e ->] ?]]; [|by exists m].
  by eapply sync_loop_spec.
Qed.
(** What [observe_transactions] makes of one marker. *)
Definition observed (h : N) (hashes : list (array 32)) (r : InboxStore.NonceRecord)
    : result TrackerError InboxStore.NonceRecord :=
  x ← parse_tx_hash (record_hash r);
  Ok (if bool_decide (x ∈ hashes) then InboxStore.Included h (record_hash r) else r).

Lemma observe_one_spec h hashes n x w o w' m :
  observe_one t h hashes (n, x) w = (Ok o, w') → tracked_view w = Ok m → m !! n = Some x →
  ∃ y, observed h hashes x = Ok y ∧ tracked_view w' = Ok (<[n := y]> m) ∧
       o = if InboxStore.is_submitted x && InboxStore.is_included y then Some n else None.
Proof.
  unfold observe_one, observed, lift. cbn [fst snd]. rewrite run_bind. intros Ho Hv Hn.
  destruct (parse_tx_hash (record_hash x)) as [d|]; cbn in Ho |- *; [|done].
  destruct (bool_decide _).
  - rewrite run_bind in Ho. destruct (stored _ w) as [[[]|e] w1] eqn:Hst; [|done].
    injection Ho as <- <-. apply stored_mutation in Hst as (m0 & m' & Hv0 & Hf & Hv').
    rewrite Hv in Hv0. injection Hv0 as <-.
    eexists. split; [done|]. rewrite Hv'. split; [|by destruct (InboxStore.is_submitted x)].
    f_equal. apply InboxFacts.set_included_ok in Hf as [(y & Hy & ->)|(?&?&?&y&?& Hy & ->)];
      rewrite Hn in Hy; injection Hy as ->; cbn; [|done]. by rewrite insert_id.
  - injection Ho as <- <-. exists x. split; [done|]. rewrite insert_id by done. split; [done|].
    by destruct x.
Qed.

Lemma observe_loop_spec h hashes es w marked w' m :
  observe_loop t h hashes es w = (Ok marked, w') → tracked_view w = Ok m →
  NoDup es.*1 → (∀ n x, (n, x) ∈ es → m !! n = Some x) →
  ∃ m', tracked_view w' = Ok m' ∧ (∀ n, n ∉ es.*1 → m' !! n = m !! n) ∧
        (∀ n, n ∈ marked → n ∈ es.*1) ∧
        ∀ n x, (n, x) ∈ es → ∃ y, observed h hashes x = Ok y ∧ m' !! n = Some y ∧
                 (n ∈ marked ↔ InboxStore.is_submitted x = true ∧ InboxStore.is_included y = true).
Proof.
  revert w marked w' m. induction es as [|[n x] es IH]; intros w marked w' m; cbn [observe_loop].
  { intros [= <- <-] Hv _ _. exists m. set_solver. }
  rewrite run_bind. intros Hr Hv [Hnin Hnd]%NoDup_cons Hes.
  destruct (observe_one _ _ _ _ w) as [[o|e] w1] eqn:Ho; [|done].
  destruct (observe_one_spec _ _ _ _ _ _ _ _ Ho Hv (Hes n x (list_elem_of_here _ _))) as (y & Hy & Hv1 & ->).
  rewrite run_bind in Hr. destruct (observe_loop _ _ _ es w1) as [[rest|e] w2] eqn:Hl; [|done].
  injection Hr as <- <-.
  destruct (IH _ _ _ _ Hl Hv1 Hnd) as (m' & Hv' & Hout & Hmk & Hin).
  { intros k z Hk. rewrite lookup_insert_ne; [by apply Hes; right|].
    intros <-. apply Hnin, list_elem_of_fmap. by exists (n, z). }
  assert (n ∉ rest) as Hnr by (intros ?%Hmk; done).
  exists m'. split; [done|]. split; [|split].
  - intros k Hk. cbn in Hk. rewrite Hout by set_solver. apply lookup_insert_ne. set_solver.
  - intros k Hk. cbn. destruct (_ && _); [|right; by apply Hmk].
    apply elem_of_cons in Hk as [->|Hk]; [left|right; by apply Hmk].
  - intros k z [[= -> ->]|Hk]%elem_of_cons.
    + exists y. split; [done|]. split; [rewrite Hout by done; apply lookup_insert_eq|].
      rewrite <- andb_true_iff. destruct (_ && _); [split; [done|left]|].
      split; [by intros ?%Hnr|done].
    + destruct (Hin k z Hk) as (y' & Hy' & Hm' & Hiff). exists y'. split; [done|]. split; [done|].
      rewrite <- Hiff. destruct (_ && _); [|done]. rewrite elem_of_cons.
      split; [|by right]. intros [->|]; [|done]. destruct Hnin. apply list_elem_of_fmap. by exists (n, z).
Qed.

Lemma snapshot_read w m0 w1 m :
  stored (InboxStore.snapshot (tr_store t)) w = (Ok m0, w1) → tracked_view w = Ok m →
  m0 = m ∧ tracked_view w1 = Ok m.
Proof.
  intros Hs Hv. split; [|rewrite <- Hv; by eapply keeps_run; [apply keeps_snapshot|]].
  revert Hs Hv. unfold stored, errM, on_disk, zoom, tracked_view, InboxStore.snapshot.
  rewrite InboxFacts.view_fmap. cbv [fmap M_fmap result_fmap].
  destruct (InboxStore.load_raw _ (get_disk w)) as [[f|e] d] eqn:Hl; [|done]. intros [= <- _].
  rewrite InboxFacts.inbox_load_raw_eq in Hl. apply load_file_view in Hl.
  unfold view. rewrite InboxFacts.inbox_load_raw_eq. unfold view in Hl. cbn in Hl. rewrite Hl.
  by intros [= ->].
Qed.

Lemma observe_spec h txs w marked w' m :
  observe_transactions t h txs w = (Ok marked, w') → tracked_view w = Ok m →
  ∃ m', tracked_view w' = Ok m' ∧ dom m' = dom m ∧
    ∀ n x, m !! n = Some x →
      ∃ y, observed h (keccak256 <$> txs) x = Ok y ∧ m' !! n = Some y ∧
           (n ∈ marked ↔ InboxStore.is_submitted x = true ∧ InboxStore.is_included y = true).
Proof.
  unfold observe_transactions. rewrite run_bind. intros Ho Hv.
  destruct (stored _ w) as [[m0|e] w1] eqn:Hs; [|done].
  destruct (snapshot_read _ _ _ _ Hs Hv) as [-> Hv1].
  destruct (observe_loop_spec _ _ _ _ _ _ _ Ho Hv1 (NoDup_btree_keys m)) as (m' & Hv' & Hout & _ & Hin).
  { intros n x. apply elem_of_btree_entries. }
  assert (∀ n, n ∈ (btree_entries m).*1 ↔ is_Some (m !! n)) as Hkeys.
  { intros n. rewrite list_elem_of_fmap. split.
    - intros ([k x] & -> & Hk). exists x. by apply elem_of_btree_entries.
    - intros [x Hx]. exists (n, x). split; [done|]. by apply elem_of_btree_entries. }
  exists m'. split; [done|]. split.
  - apply set_eq. intros n. rewrite !elem_of_dom. destruct (m !! n) as [x|] eqn:Hn.
    + destruct (Hin n x) as (y & _ & Hy & _); [by apply elem_of_btree_entries|]. rewrite Hy. split; by eauto.
    + rewrite Hout; [by rewrite Hn|]. rewrite Hkeys, Hn. by intros [].
  - intros n x Hx. apply Hin. by apply elem_of_btree_entries.
Qed.
End SyncFacts.

(** A forced transaction is on disk before anyone acts on it.  Every
    submission [sync] reports is, when it returns, the durable marker of a
    nonce that had none, under the Keccak hash of its bytes; [sync] adds no
    other marker, and whether it succeeds or fails, whatever the transport and
    the disk do, it forgets and rewrites none. *)
Theorem sync_persists_before_reporting {X} `{InboxTransport X} `{SuiSdk} `{Hex} `{Hashes}
    `{JsonLaws InboxStore.InboxFile} `{Bcs InboxBcs} `{Bcs FieldPendingBcs} `{Bcs FieldU64Bcs}
    `{Bcs FieldWindowBcs} `{Bcs ClockBcs} (t : InboxTracker) h (w : TrackerWorld.t X) r w' m :
  InboxStore.file_path (tr_store t) ≠ [] →
  sync t h w = (r, w') → tracked_view t w = Ok m →
  ∃ m', tracked_view t w' = Ok m' ∧ m ⊆ m' ∧
    match r with
    | Ok fresh =>
        (∀ s, s ∈ fresh → ts_tx_hash s = keccak256 (ts_tx_bytes s) ∧ m !! ts_nonce s = None ∧
                          m' !! ts_nonce s = Some (submitted_record s)) ∧
        ∀ n x, m' !! n = Some x → m !! n = None → ∃ s, s ∈ fresh ∧ ts_nonce s = n
    | Err _ => True
    end.
Proof.
  intros Hp Hs Hv. destruct (sync_spec t Hp h w r w' m Hs Hv) as (m' & Hv' & Hm').
  exists m'. split; [done|]. destruct r as [fresh|]; [|done]. destruct Hm' as (Hsub & Hin & Hnew).
  split; [done|]. split; [done|]. intros n x Hx Hn. destruct (Hnew n x Hx Hn) as (s & ? & ? & _).
  by exists s.
Qed.

(** Inclusion marks are exact.  When a block is observed successfully, a
    tracked nonce is marked included at its height if and only if the block
    holds its transaction, every other marker stays as it was, no nonce is
    added or lost, and the reported nonces are the newly included ones; a
    transaction already included at another height makes the observation fail
    instead. *)
Theorem observe_marks_exactly {X} `{InboxTransport X} `{Hex} `{Hashes}
    `{JsonLaws InboxStore.InboxFile} (t : InboxTracker) h txs (w : TrackerWorld.t X) marked w' m :
  InboxStore.file_path (tr_store t) ≠ [] →
  observe_transactions t h txs w = (Ok marked, w') → tracked_view t w = Ok m →
  ∃ m', tracked_view t w' = Ok m' ∧ dom m' = dom m ∧
    ∀ n x, m !! n = Some x →
      ∃ d, parse_tx_hash (record_hash x) = Ok d ∧
           (if bool_decide (d ∈ keccak256 <$> txs)
            then m' !! n = Some (InboxStore.Included h (record_hash x))
            else m' !! n = Some x) ∧
           (n ∈ marked ↔ InboxStore.is_submitted x = true ∧ d ∈ keccak256 <$> txs).
Proof.
  intros Hp Ho Hv. destruct (observe_spec t Hp h txs w marked w' m Ho Hv) as (m' & Hv' & Hd & Hm').
  exists m'. split; [done|]. split; [done|]. intros n x Hn.
  destruct (Hm' n x Hn) as (y & Hy & Hm & Hiff). unfold observed in Hy.
  destruct (parse_tx_hash (record_hash x)) as [d|]; [|done]. exists d. split; [done|].
  cbn in Hy. injection Hy as <-. revert Hm Hiff. case_bool_decide as Hin; intros Hm Hiff.
  - split; [done|]. rewrite Hiff. cbn. tauto.
  - split; [done|]. rewrite Hiff. destruct x; cbn; naive_solver.
Qed.

Section TrackerWitness.
Import Codec.Demo Codec.CountableCodec TrackerWorld.
Definition demo_tracker : InboxTracker :=
  mk_tracker (array_fill 32 x0d) (InboxStore.new ["data"]) 2000 None.
(** An inbox with one pending transaction. *)
Definition demo_inbox : Inbox.Inbox :=
  Inbox.mk_Inbox 1 0 0 {[ 0 := Inbox.mk_PendingTx 600000 [x01; x02] ]} None None.
Definition tracker_world : TrackerWorld.t Env.t :=
  TrackerWorld.mk (Env.mk (array_fill 32 x0d) (array_fill 32 x0e) demo_inbox 5 [])
    (disk0 []) 300.

Lemma sync_persists_before_reporting_witness :
  let '(r, w') := sync demo_tracker 10 tracker_world in
  ∃ m', tracked_view demo_tracker w' = Ok m' ∧ ∅ ⊆ m' ∧
    match r with
    | Ok fresh =>
        (∀ s, s ∈ fresh → ts_tx_hash s = keccak256 (ts_tx_bytes s) ∧
                          (∅ : gmap N InboxStore.NonceRecord) !! ts_nonce s = None ∧
                          m' !! ts_nonce s = Some (submitted_record s)) ∧
        ∀ n x, m' !! n = Some x → (∅ : gmap N InboxStore.NonceRecord) !! n = None →
               ∃ s, s ∈ fresh ∧ ts_nonce s = n
    | Err _ => True
    end.
Proof.
  destruct (sync demo_tracker 10 tracker_world) as [r w'] eqn:Hs.
  exact (sync_persists_before_reporting demo_tracker 10 tracker_world r w' ∅ ltac:(by vm_compute) Hs eq_refl).
Defined.

(** Nonce 0 still waits, nonce 1 is included. *)
Definition gapped : TrackerWorld.t Env.t :=
  ((stored (InboxStore.record_submitted (tr_store demo_tracker) 0 90 1000 10 "0x00" "01");;
    stored (InboxStore.record_submitted (tr_store demo_tracker) 1 90 1001 10 "0x01" "02");;
    stored (InboxStore.mark_included (tr_store demo_tracker) 1 11)) tracker_world).2.
Definition two_pending : Inbox.Inbox :=
  Inbox.mk_Inbox 2 0 0 {[ 0 := Inbox.mk_PendingTx 1000 [x01]; 1 := Inbox.mk_PendingTx 1001 [x02] ]} None None.
Lemma two_pending_wf : Inbox.wf two_pending.
Proof.
  split; cbn; [lia|u64| |].
  - intros n. rewrite lookup_insert_is_Some, lookup_singleton_is_Some. lia.
  - intros n p Hp. apply lookup_insert_Some in Hp as [[<- <-]|[_ Hp]]; [done|].
    by apply lookup_singleton_Some in Hp as [<- <-].
Qed.
Lemma settle_cursor_counts_gaps_witness :
  ∃ markers w' i',
    stored (InboxStore.snapshot (tr_store demo_tracker)) gapped = (Ok markers, w') ∧
    is_Some (markers !! 0) ∧ InboxStore.count_included markers = 1 ∧
    Inbox.enforce_settle two_pending 900 1 = Ok i' ∧
    settle_cursor demo_tracker gapped = (Ok 1, w') ∧
    ∀ r, markers !! 0 = Some r → InboxStore.is_submitted r = true → Inbox.pending i' !! 0 = None.
Proof.
  destruct (stored (InboxStore.snapshot (tr_store demo_tracker)) gapped) as [[markers|e] w'] eqn:Hm;
    [|vm_compute in Hm; discriminate].
  assert (InboxStore.count_included markers = 1 ∧ is_Some (markers !! 0)) as [Hc H0].
  { vm_compute in Hm. injection Hm as <- _. split; [by vm_compute|]. eexists. by vm_compute. }
  destruct (Inbox.enforce_settle two_pending 900 1) as [i'|e] eqn:Hs; [|vm_compute in Hs; discriminate].
  exists markers, w', i'.
  pose proof (settle_cursor_counts_gaps demo_tracker gapped w' markers two_pending i' 900 Hm two_pending_wf) as Ht.
  cbv zeta in Ht. rewrite Hc in Ht. destruct (Ht Hs) as (Hcur & Hgone & _).
  exact (conj eq_refl (conj H0 (conj Hc (conj eq_refl (conj Hcur (λ r Hr Hsub, Hgone 0 r Hr Hsub eq_refl)))))).
Defined.

Lemma observe_marks_exactly_witness :
  let w1 := (sync demo_tracker 10 tracker_world).2 in
  ∃ m marked w', tracked_view demo_tracker w1 = Ok m ∧
    observe_transactions demo_tracker 11 [[x01; x02]] w1 = (Ok marked, w') ∧
    ∃ m', tracked_view demo_tracker w' = Ok m' ∧ dom m' = dom m ∧
    ∀ n x, m !! n = Some x →
      ∃ d, parse_tx_hash (record_hash x) = Ok d ∧
           (if bool_decide (d ∈ keccak256 <$> [[x01; x02]])
            then m' !! n = Some (InboxStore.Included 11 (record_hash x))
            else m' !! n = Some x) ∧
           (n ∈ marked ↔ InboxStore.is_submitted x = true ∧ d ∈ keccak256 <$> [[x01; x02]]).
Proof.
  destruct (sync demo_tracker 10 tracker_world) as [r w1] eqn:Hs. cbn [snd].
  destruct (tracked_view demo_tracker w1) as [m|e] eqn:Hv;
    [|vm_compute in Hs; injection Hs as _ <-; vm_compute in Hv; discriminate].
  destruct (observe_transactions demo_tracker 11 [[x01; x02]] w1) as [[marked|e] w'] eqn:Ho.
  - exists m, marked, w'. do 2 (split; [done|]).
    exact (observe_marks_exactly demo_tracker 11 [[x01; x02]] w1 marked w' m ltac:(by vm_compute) Ho Hv).
  - vm_compute in Hs. injection Hs as _ <-. vm_compute in Ho. discriminate.
Defined.
End TrackerWitness.
