(* ===== verification/Inclusion.v ===== *)
(** What the poller of [crates/node/src/inbox.rs] does with an inbox entry that
    the layer 2 refuses.

    [inbox::submit] takes any bytes.  The poller hands them to the execution
    node in nonce order and gives a pass up at the first refusal. *)

From S2P Require Import Prelude Text Codec Disk Core Store Wire Contract Sui SuiInbox Deadline.
From S2P Require Import JsonValue L2Rpc Config Tracker.
Local Open Scope string_scope.
Local Open Scope list_scope.
Local Open Scope N_scope.

(** ** The poller task *)

Section Poller.
Context {W : Type} `{InboxTransport W} `{HasDisk W} `{HasBudget W} `{JsonHttp W} `{Runtime W} `{SuiSdk} `{Hex}
  `{Hashes}.
Context `{Json InboxStore.InboxFile} `{Bcs InboxBcs} `{Bcs FieldPendingBcs} `{Bcs FieldU64Bcs}
  `{Bcs FieldWindowBcs} `{Bcs ClockBcs}.

(** [run_poller]; [gauge] is the block height the metrics show, and the result
    is [None] when the fuel runs out before the shutdown. *)
Fixpoint run_poller (fuel : nat) (i : InboxIntegration) (gauge : W → Z) (interval : N) (w : W) : option W :=
  match fuel with
  | O => None
  | S fuel =>
      if shutting_down w then Some w
      else let '(_, w') := poll_pass i (gauge w) w in run_poller fuel i gauge interval (sleep_ms interval w')
  end.

Definition spawn_poller (fuel : nat) (i : option InboxIntegration) (gauge : W → Z) (interval : N) (w : W) : option W :=
  match i with Some i => run_poller fuel i gauge interval w | None => Some w end.
End Poller.

(** ** The first entry in line *)

Section First.
Implicit Types m : gmap N InboxStore.NonceRecord.

(** Nonce [k] waits with record [r], and every nonce below it is included. *)
Definition first_in_line (k : N) (r : InboxStore.NonceRecord) m : Prop :=
  m !! k = Some r ∧ ∀ n, n < k → ∃ h x, m !! n = Some (InboxStore.Included h x).

Lemma sorted_head {A} (l : list (N * A)) k x :
  StronglySorted key_le l → NoDup l.*1 → (k, x) ∈ l → (∀ e, e ∈ l → k ≤ e.1) → ∃ rest, l = (k, x) :: rest.
Proof.
  intros Hs Hd Hin Hmin. destruct l as [|[a y] l]; [by apply not_elem_of_nil in Hin|].
  apply elem_of_cons in Hin as [[= <- <-]|Hin]; [by exists l|].
  apply StronglySorted_inv in Hs as [_ Hle]. rewrite Forall_forall in Hle. specialize (Hle _ Hin).
  specialize (Hmin (a, y) (list_elem_of_here _ _)). unfold key_le in Hle. cbn in *.
  assert (a = k) as -> by lia. apply NoDup_cons in Hd as [Hd _]. destruct Hd.
  apply list_elem_of_fmap. by exists (k, x).
Qed.

Lemma filter_sorted {A} (R : relation A) (P : A → Prop) `{!∀ x, Decision (P x)} l :
  StronglySorted R l → StronglySorted R (filter P l).
Proof.
  induction 1 as [|x l Hs IH Hx]; [constructor|]. rewrite filter_cons. destruct (decide _); [|done].
  constructor; [done|]. apply Forall_forall. intros y [_ Hy]%list_elem_of_filter.
  rewrite Forall_forall in Hx. by apply Hx.
Qed.

(** It comes first in what is submitted again. *)
Lemma first_submitted k r m :
  first_in_line k r m → InboxStore.is_submitted r = true → ∃ rest, InboxStore.submitted_of m = (k, r) :: rest.
Proof.
  intros [Hk Hbelow] Hr. unfold InboxStore.submitted_of. apply sorted_head.
  - apply filter_sorted, btree_entries_sorted.
  - refine (sublist_NoDup _ _ (NoDup_btree_keys m) _). apply fmap_sublist, sublist_filter.
  - apply list_elem_of_filter. split; [by cbn; rewrite Hr|]. by apply elem_of_btree_entries.
  - intros [n x] [Hx Hn]%list_elem_of_filter. apply elem_of_btree_entries in Hn. cbn in *.
    destruct (N.le_gt_cases k n) as [|Hlt]; [done|].
    destruct (Hbelow n Hlt) as (h & y & Hy). rewrite Hn in Hy. injection Hy as ->. by destruct Hx.
Qed.

(** The gate names it. *)
Lemma first_halts k d ms seen h x m next :
  first_in_line k (InboxStore.Submitted d ms seen h x) m → d < next →
  first_halt next (btree_entries m) = Halt k d next.
Proof.
  intros [Hk Hbelow] Hd. pose proof (first_halt_spec next _ (btree_entries_sorted m)) as Hs.
  assert (∀ n d' a b h' x', (n, InboxStore.Submitted d' a b h' x') ∈ btree_entries m → k ≤ n) as Hmin.
  { intros n d' a b h' x' Hn%elem_of_btree_entries. destruct (N.le_gt_cases k n) as [|Hlt]; [done|].
    destruct (Hbelow n Hlt) as (? & ? & Hy). congruence. }
  assert ((k, InboxStore.Submitted d ms seen h x) ∈ btree_entries m) as Hin by by apply elem_of_btree_entries.
  assert (∀ n, n ≤ k → k ≤ n → n = k) as Heq by lia.
  destruct (first_halt next _) as [|n d' next'].
  - destruct Hs as [Hs|(n & d' & a & b & h' & x' & Hn & Hle & Hfirst)]; [by apply Hs in Hin|].
    assert (n = k) as -> by (apply Heq; [by eapply Hfirst|by eapply Hmin]).
    apply elem_of_btree_entries in Hn. rewrite Hk in Hn. injection Hn as -> _ _ _ _. lia.
  - destruct Hs as (-> & _ & a & b & h' & x' & Hn & Hfirst).
    assert (n = k) as -> by (apply Heq; [by eapply Hfirst|by eapply Hmin]).
    apply elem_of_btree_entries in Hn. rewrite Hk in Hn. by injection Hn as -> _ _ _ _.
Qed.

(** Store updates that leave it there. *)
Lemma first_insert k r n x m m' :
  first_in_line k r m → InboxStore.insert_submitted n x m = Ok m' → first_in_line k r m'.
Proof.
  intros [Hk Hbelow] [Hn ->]%InboxFacts.insert_submitted_ok. split.
  - rewrite lookup_insert_ne; [done|]. congruence.
  - intros j Hj. destruct (Hbelow j Hj) as (h & y & Hy). exists h, y. rewrite lookup_insert_ne; congruence.
Qed.
Lemma first_include k r n h m m' :
  first_in_line k r m → n ≠ k → InboxStore.set_included n h m = Ok m' → first_in_line k r m'.
Proof.
  intros [Hk Hbelow] Hne [(x & _ & ->)|(a & b & c & x & t & Hn & ->)]%InboxFacts.set_included_ok; [done|].
  split; [by rewrite lookup_insert_ne|]. intros j Hj. destruct (Hbelow j Hj) as (h' & y & Hy).
  exists h', y. rewrite lookup_insert_ne; congruence.
Qed.
End First.

(** ** A refused entry *)

Section Refused.
Import TrackerWorld.
Context {X : Type} `{InboxTransport X} `{JsonHttp X} `{SuiSdk} `{Hex} `{Hashes} `{JsonLaws InboxStore.InboxFile}.
Context `{Bcs InboxBcs} `{Bcs FieldPendingBcs} `{Bcs FieldU64Bcs} `{Bcs FieldWindowBcs} `{Bcs ClockBcs}.
Abbreviation World := (TrackerWorld.t X).

(** The layer 2 is part of the net. *)
#[export] Instance tw_http : JsonHttp World := {|
  json_post url body := zoom net (λ x w, mk x (dsk w) (budget w)) (json_post url body)
|}.
Context `{Runtime World}.

Context (i : InboxIntegration) (Hpath : InboxStore.file_path (tr_store (tracker i)) ≠ []).
Abbreviation t := (tracker i).

(** The submission at nonce [k] and its record. *)
Context (k : N) (sub : TrackedSubmission) (r : InboxStore.NonceRecord).
Context (Hsub : to_tracked (k, r) = Ok sub).

(** States of the net whose layer 2 has no receipt for the transaction and
    refuses its bytes; no request changes that. *)
Context (refusing : X → Prop).
Context (asked : ∀ url body x, refusing x → refusing (json_post url body x).2)
  (read_object : ∀ id x, refusing x → refusing (tr_object_contents id x).2)
  (read_field : ∀ table n x, refusing x → refusing (tr_field_contents table n x).2).
Context (no_receipt : ∀ w h w', refusing (net w) →
    eth_get_transaction_receipt_height (l2_rpc_url i) (ts_tx_hash sub) w ≠ (Ok (Some h), w'))
  (refused : ∀ w o w', refusing (net w) →
    eth_send_raw_transaction (l2_rpc_url i) (ts_tx_bytes sub) w ≠ (Ok o, w')).

Lemma r_submitted : InboxStore.is_submitted r = true.
Proof. unfold to_tracked in Hsub. by destruct r. Qed.
Lemma r_hash : parse_tx_hash (record_hash r) = Ok (ts_tx_hash sub).
Proof.
  unfold to_tracked in Hsub. destruct r as [a b c x y|]; [|done]. cbn in *.
  destruct (parse_tx_hash x) as [h|]; [|done]. cbn in Hsub. by destruct (decode_tx_bytes y); [injection Hsub as <-|].
Qed.

(** The entry waits first in line, and the layer 2 refuses it. *)
Definition stuck (w : World) : Prop :=
  refusing (net w) ∧ ∃ m, tracked_view t w = Ok m ∧ first_in_line k r m.

(** What happens while it waits: passes of the poller, blocks without the
    transaction, and whatever leaves the inbox file as it is and does not make
    the layer 2 accept the bytes. *)
Inductive while_waiting : World → World → Prop :=
| Polled h res w w' : poll_pass i h w = (res, w') → while_waiting w w'
| Built {Er} h txs (res : result Er unit) w w' :
    ts_tx_hash sub ∉ keccak256 <$> txs → observe_block_inclusions (Some i) txs h w = (res, w') → while_waiting w w'
| Elsewhere w w' :
    same_file (InboxStore.file_path (tr_store t)) (dsk w) (dsk w') → (refusing (net w) → refusing (net w')) →
    while_waiting w w'.

(** *** Every such step leaves it waiting *)

Lemma stuck_keeps {E A} (m : M World E A) :
  keeps t m → (∀ w, refusing (net w) → refusing (net (m w).2)) → preserves stuck m.
Proof.
  intros Hk Hn w [Hr (x & Hx & Hf)]. specialize (Hk w). specialize (Hn w Hr).
  assert (stuck (m w).2) as Hs by (split; [done|]; exists x; by rewrite Hk).
  by destruct (m w) as [[] w'].
Qed.
Lemma stuck_net {A} (m : M X InboxError A) :
  (∀ x, refusing x → refusing (m x).2) → preserves stuck (on_net m).
Proof.
  intros Hm. apply stuck_keeps; [apply keeps_net|]. intros w Hw. specialize (Hm _ Hw).
  unfold on_net, zoom. by destruct (m (net w)).
Qed.
Lemma stuck_budget {E} n : preserves stuck (modM (E := E) (set_deadline_blocks n)).
Proof. by apply stuck_keeps. Qed.
Lemma stuck_optional {A} (m : M World InboxError (list byte)) (p : list byte → result InboxError A) :
  preserves stuck m → preserves stuck (optional_field m p).
Proof. intros Hm w Hw. specialize (Hm w Hw). unfold optional_field. destruct (m w) as [[a|[]] w1]; try destruct (p a); done. Qed.
Lemma stuck_reads {A} (m : M disk StoreError A) : reads m → preserves stuck (stored m).
Proof.
  intros Hm. apply stuck_keeps; [by apply keeps_stored|]. intros w Hw. unfold stored, errM, on_disk, zoom.
  by destruct (m (get_disk w)).
Qed.
Lemma stuck_post url body : preserves stuck (json_post (W := World) url body).
Proof.
  apply stuck_keeps; intros w; unfold tracked_view; cbn; unfold zoom;
    specialize (asked url body (net w)); destruct (json_post url body (net w)); [done|]. by intros ?%asked.
Qed.
Lemma stuck_mutate f :
  (∀ m m', first_in_line k r m → f m = Ok m' → first_in_line k r m') →
  preserves stuck (stored (InboxStore.mutate (tr_store t) f)).
Proof.
  intros Hf w [Hr (m & Hm & Hfirst)]. destruct (stored _ w) as [res w'] eqn:Hs.
  assert (net w' = net w) as Hn.
  { revert Hs. unfold stored, errM, on_disk, zoom. destruct (InboxStore.mutate _ _ _). by intros [= _ <-]. }
  assert (stuck w') as Hw'; [|by destruct res]. split; [by rewrite Hn|].
  apply (stored_mutation t Hpath) in Hs. destruct res as [[]|].
  - destruct Hs as (m0 & m' & Hm0 & Hfm & Hm'). rewrite Hm in Hm0. injection Hm0 as <-. exists m'. eauto.
  - exists m. by rewrite Hs.
Qed.
Lemma stuck_snapshot : preserves stuck (stored (InboxStore.snapshot (tr_store t))).
Proof.
  apply stuck_keeps; [apply (keeps_snapshot t)|]. intros w Hw. unfold stored, errM, on_disk, zoom.
  by destruct (InboxStore.snapshot _ _).
Qed.
Lemma stuck_getM {E} : preserves stuck (getM (E := E)).
Proof. by apply stuck_keeps. Qed.

Ltac stuck_walk := walk_with ltac:(idtac; first
  [ apply stuck_getM | apply stuck_budget | apply stuck_post | apply stuck_optional | apply stuck_snapshot
  | apply stuck_net; auto
  | apply stuck_mutate; intros ? ?; first [apply first_insert|apply first_include] ]).

Lemma stuck_sync h : preserves stuck (sync t h).
Proof.
  unfold sync, refresh_window, SuiInbox.window, transport, tr_object_contents, tr_field_contents, tw_transport.
  do 4 (apply preserves_bind; [stuck_walk|intros ?]). apply preserves_bind; [stuck_walk|intros ?].
  generalize (range (SuiInbox.included_count a0) (SuiInbox.next_nonce a0)). intros ns.
  induction ns as [|n ns IH]; cbn [sync_loop]; [apply preserves_ret|].
  apply preserves_bind; [|intros o; apply preserves_bind; [exact IH|intros; apply preserves_ret]].
  unfold sync_one, transport, tr_field_contents, tw_transport, InboxStore.record_submitted. stuck_walk.
Qed.

Lemma stuck_pending : preserves stuck (pending_submissions t).
Proof.
  unfold pending_submissions. apply preserves_bind; [|intros l; apply preserves_lift].
  apply stuck_reads. apply reads_fmap, InboxFacts.reads_inbox.
Qed.

(** What is submitted again starts with it. *)
Lemma pending_first w l w' : stuck w → pending_submissions t w = (Ok l, w') → ∃ rest, l = sub :: rest.
Proof.
  intros (_ & m & Hm & Hfirst) Hp. unfold pending_submissions in Hp.
  apply bind_ok_inv in Hp as (es & w1 & Hes & Hl). injection Hl as Hl _.
  assert (es = InboxStore.submitted_of m) as ->.
  { revert Hes Hm. unfold stored, errM, on_disk, zoom, InboxStore.submitted, tracked_view, InboxStore.snapshot, get_disk, tw_disk.
    rewrite InboxFacts.view_fmap. cbv [fmap M_fmap result_fmap].
    destruct (InboxStore.load_raw _ (dsk w)) as [[f|e] d] eqn:Hload; [|done]. intros [= <- _].
    rewrite InboxFacts.inbox_load_raw_eq in Hload. apply load_file_view in Hload.
    unfold view in *. rewrite InboxFacts.inbox_load_raw_eq. cbn in *. rewrite Hload. by intros [= ->]. }
  destruct (first_submitted _ _ _ Hfirst r_submitted) as [rest Hrest]. rewrite Hrest in Hl.
  cbn [mapM] in Hl. rewrite Hsub in Hl. cbn [mbind result_bind] in Hl.
  destruct (mapM to_tracked rest) as [more|]; [|done]. injection Hl as <-. by exists more.
Qed.

Lemma poll_one_stuck w res w' : stuck w → poll_one i sub w = (res, w') → stuck w' ∧ ∃ e, res = Err e.
Proof.
  intros Hw Hp. unfold poll_one in Hp. rewrite run_bind in Hp.
  assert (preserves stuck (eth_get_transaction_receipt_height (W := World) (l2_rpc_url i) (ts_tx_hash sub)) ∧
          preserves stuck (eth_send_raw_transaction (W := World) (l2_rpc_url i) (ts_tx_bytes sub))) as [Hg Hs].
  { unfold eth_get_transaction_receipt_height, eth_send_raw_transaction, rpc_call, contextM. split; stuck_walk. }
  specialize (Hg w Hw). destruct (eth_get_transaction_receipt_height _ _ w) as [[[h|]|e] w1] eqn:Hr.
  - by destruct (no_receipt w h w1 (proj1 Hw)).
  - cbn in Hg. rewrite run_bind in Hp. specialize (Hs w1 Hg).
    destruct (eth_send_raw_transaction _ _ w1) as [[o|e] w2] eqn:Hsend; [by destruct (refused w1 o w2 (proj1 Hg))|].
    injection Hp as <- <-. eauto.
  - injection Hp as <- <-. eauto.
Qed.

(** A pass is the attempt at the waiting entry, and fails. *)
Lemma poll_pass_stuck h w res w' :
  stuck w → poll_pass i h w = (res, w') →
  stuck w' ∧ (∃ e, res = Err e) ∧
  (as_anyhow (sync t (Z.to_N (Z.max h 0)));; as_anyhow (pending_submissions t);; poll_one i sub) w = (res, w').
Proof.
  intros Hw. unfold poll_pass, as_anyhow. rewrite !(run_bind (errM _ (sync _ _))).
  pose proof (preserves_errM _ (λ e, [tracker_error_text e]) _ (stuck_sync (Z.to_N (Z.max h 0))) w Hw) as Hs.
  destruct (errM _ (sync _ _) w) as [[fresh|e] w1]; [|intros [= <- <-]; eauto]. cbn in Hs.
  rewrite !(run_bind (errM _ (pending_submissions _))).
  pose proof (preserves_errM _ (λ e, [tracker_error_text e]) _ stuck_pending w1 Hs) as Hp.
  destruct (errM _ (pending_submissions _) w1) as [[l|e] w2] eqn:Hl; [|intros [= <- <-]; eauto]. cbn in Hp.
  unfold errM in Hl. destruct (pending_submissions _ w1) as [[l0|e] w3] eqn:Hl0; [|done].
  injection Hl as <- <-. destruct (pending_first _ _ _ Hs Hl0) as [rest ->]. cbn [poll_all].
  rewrite run_bind. destruct (poll_one i sub w3) as [o w4] eqn:Hone.
  destruct (poll_one_stuck _ _ _ Hp Hone) as (Hw4 & e & ->). intros [= <- <-]. eauto.
Qed.

(** Records read before a block is observed. *)
Lemma observe_loop_stuck h hashes es :
  ts_tx_hash sub ∉ hashes → (∀ x, (k, x) ∈ es → x = r) → preserves stuck (observe_loop t h hashes es).
Proof.
  intros Hh. induction es as [|[n x] es IH]; intros Hes; cbn [observe_loop]; [apply preserves_ret|].
  apply preserves_bind; [|intros o; apply preserves_bind; [|intros; apply preserves_ret]].
  2:{ apply IH. intros y Hy. apply Hes. by right. }
  unfold observe_one. cbn [fst snd]. destruct (decide (n = k)) as [->|Hne].
  - assert (x = r) as -> by (apply Hes; left). rewrite r_hash. intros w Hw. unfold lift. rewrite run_bind.
    by rewrite bool_decide_false.
  - apply preserves_bind; [apply preserves_lift|intros d]. case_bool_decide; [|apply preserves_ret].
    apply preserves_bind; [|intros; apply preserves_ret]. unfold InboxStore.mark_included.
    apply stuck_mutate. intros m m' Hm. by apply first_include.
Qed.
Lemma observe_stuck h txs w : ts_tx_hash sub ∉ keccak256 <$> txs → stuck w → stuck (observe_transactions t h txs w).2.
Proof.
  intros Hh Hw. unfold observe_transactions. rewrite run_bind.
  pose proof (stuck_snapshot w Hw) as Hs. destruct (stored _ w) as [[m0|e] w1] eqn:Hsnap; [|done].
  destruct Hw as (Hr & m & Hm & Hfirst). destruct (snapshot_read t _ _ _ _ Hsnap Hm) as [-> _].
  pose proof (observe_loop_stuck h (keccak256 <$> txs) (btree_entries m) Hh) as Hloop.
  assert (∀ x, (k, x) ∈ btree_entries m → x = r) as Hx.
  { intros x Hx%elem_of_btree_entries. destruct Hfirst as [Hk _]. congruence. }
  specialize (Hloop Hx w1 Hs). by destruct (observe_loop _ _ _ _ w1) as [[] w2].
Qed.

Lemma while_waiting_stuck w w' : while_waiting w w' → stuck w → stuck w'.
Proof.
  intros [h res w0 w1 Hp|Er h txs res w0 w1 Hh Ho|w0 w1 Hf Hr] Hw.
  - by apply (poll_pass_stuck h w0 res w1 Hw) in Hp as [? _].
  - unfold observe_block_inclusions, tryM in Ho. rewrite run_bind in Ho.
    pose proof (observe_stuck h txs w0 Hh Hw) as Hs.
    destruct (observe_transactions _ _ _ w0) as [o w2]. by injection Ho as _ <-.
  - destruct Hw as (Hw & m & Hm & Hfirst). split; [by apply Hr|]. exists m. split; [|done].
    rewrite <- Hm. unfold tracked_view. by apply InboxFacts.inbox_same.
Qed.

Lemma waiting_stuck w w' : rtc while_waiting w w' → stuck w → stuck w'.
Proof. induction 1 as [|u u' u'' Hstep _ IH]; [done|]. intros Hu. apply IH. by eapply while_waiting_stuck. Qed.

Lemma run_poller_steps fuel gauge interval w w' :
  (∀ n v, rtc while_waiting v (sleep_ms n v)) →
  run_poller fuel i gauge interval w = Some w' → rtc while_waiting w w'.
Proof.
  intros Hsleep. revert w. induction fuel as [|fuel IH]; intros w; cbn [run_poller]; [done|].
  destruct (shutting_down w); [by intros [= <-]|]. destruct (poll_pass _ _ w) as [res w1] eqn:Hp.
  intros Hrun. eapply rtc_l; [by eapply Polled|]. etrans; [apply Hsleep|by apply IH].
Qed.

Lemma halt_check_stuck next w :
  stuck w → sound_disk (dsk w) → ts_deadline_height sub < next →
  ∃ w', halt_check t next w = (Ok (Halt k (ts_deadline_height sub) next), w') ∧ stuck w' ∧ sound_disk (dsk w').
Proof.
  intros Hw Hd Hlt. unfold halt_check. rewrite run_bind. pose proof (stuck_snapshot w Hw) as Hs.
  destruct Hw as (_ & m & Hm & Hfirst).
  assert (stored (InboxStore.snapshot (tr_store t)) w = (Ok m, w)) as Hsnap.
  { revert Hm. unfold tracked_view, view, stored, errM, on_disk, zoom, restart. destruct w as [x [fs ds flt] b].
    unfold sound_disk in Hd. cbn in *. subst flt.
    destruct (InboxStore.snapshot _ _) as [res d] eqn:Hrun. cbn. intros ->.
    assert (looks (InboxStore.snapshot (tr_store t))) as Hl by apply InboxFacts.snapshot_looks.
    destruct Hl as [Hreads Hsound]. pose proof (Hreads _ _ _ Hrun) as [Hfs Hds].
    specialize (Hsound (mk_disk fs ds []) eq_refl). rewrite Hrun in Hsound. destruct d as [fs' ds' flt'].
    unfold sound_disk in Hsound. cbn in *. by subst. }
  rewrite Hsnap in Hs |- *. exists w. split; [|done]. cbn.
  unfold to_tracked in Hsub. destruct r as [d ms seen h x|]; [|done]. cbn in Hsub.
  destruct (parse_tx_hash h) as [y|]; [|done]. cbn in Hsub. destruct (decode_tx_bytes x) as [tx|]; [|done].
  injection Hsub as <-. cbn in *. by rewrite (first_halts _ _ _ _ _ _ _ next Hfirst Hlt).
Qed.

Lemma gate_stuck fuel next backoff w v :
  (∀ n u, rtc while_waiting u (sleep_ms n u) ∧ (sound_disk (dsk u) → sound_disk (dsk (sleep_ms n u)))) →
  stuck w → sound_disk (dsk w) → ts_deadline_height sub < next →
  wait_inclusion_gate fuel (Some i) next backoff w ≠ Some (true, v).
Proof.
  intros Hsleep. revert w. induction fuel as [|fuel IH]; intros w Hw Hd Hlt; cbn [wait_inclusion_gate]; [done|].
  destruct (shutting_down w); [done|].
  destruct (halt_check_stuck next w Hw Hd Hlt) as (w1 & -> & Hw1 & Hd1).
  destruct (Hsleep backoff w1) as [Hrtc Hsound]. apply IH; [by eapply waiting_stuck|by apply Hsound|done].
Qed.

(** C18: An inbox entry that the layer 2 refuses stops settlement for good.
    While the entry waits first in line, the poller, blocks without it, and
    anything else that leaves the inbox file alone, in any order, leave it
    there: every pass of the poller fails at it and asks the layer 2 about no
    later nonce, and with a readable disk the gate never lets a block above its
    deadline height settle, however long it waits. *)
Theorem refused_entry_halts_settlement w w' :
  (∀ n u, rtc while_waiting u (sleep_ms n u) ∧ (sound_disk (dsk u) → sound_disk (dsk (sleep_ms n u)))) →
  stuck w → rtc while_waiting w w' →
  stuck w' ∧
  (∀ h res w'', poll_pass i h w' = (res, w'') →
     (∃ e, res = Err e) ∧
     (as_anyhow (sync t (Z.to_N (Z.max h 0)));; as_anyhow (pending_submissions t);; poll_one i sub) w' = (res, w'')) ∧
  (∀ fuel gauge interval w'', run_poller fuel i gauge interval w' = Some w'' → stuck w'') ∧
  (sound_disk (dsk w') → ∀ fuel next backoff v, ts_deadline_height sub < next →
     wait_inclusion_gate fuel (Some i) next backoff w' ≠ Some (true, v)).
Proof.
  intros Hsleep Hw Hrtc. assert (stuck w') as Hw' by by eapply waiting_stuck. split; [done|]. split_and!.
  - intros h res w'' Hp. by apply (poll_pass_stuck h w' res w'' Hw') in Hp as (_ & ? & ?).
  - intros fuel gauge interval w'' Hrun. eapply waiting_stuck; [|exact Hw'].
    eapply run_poller_steps; [|exact Hrun]. apply Hsleep.
  - intros Hd fuel next backoff v Hlt. by apply gate_stuck.
Qed.
End Refused.

(** ** Anyone can stop it *)

(** Two bytes that are no transaction, submitted to the inbox. *)
Module InclusionDemo.
Import Codec.Demo Codec.CountableCodec TrackerWorld.

(** A layer 2 that has mined nothing and refuses every transaction. *)
#[export] Instance refusing_l2 : JsonHttp Env.t := {|
  json_post _ body :=
    mret (Ok (if bool_decide (get "method" body ≫= as_str = Some "eth_getTransactionReceipt")
              then VObj [("jsonrpc", VStr "2.0"); ("id", VInt 1); ("result", VNull)]
              else VObj [("jsonrpc", VStr "2.0"); ("id", VInt 1);
                         ("error", VObj [("code", VInt (-32000)); ("message", VStr "failed to decode signed transaction")])]))
|}.
#[export] Instance still : Runtime (TrackerWorld.t Env.t) := {|
  now_ms _ := 0; sleep_ms _ w := w; shutting_down _ := false
|}.

Definition integration : InboxIntegration := mk_integration demo_tracker "http://localhost:8545".
Definition noise : TrackedSubmission := mk_tracked 0 [x01; x02] (keccak256 [x01; x02]) 600000 310 10.
Definition tracked : TrackerWorld.t Env.t := (sync demo_tracker 10 tracker_world).2.
Definition polled : TrackerWorld.t Env.t := (poll_pass integration 20 tracked).2.

Lemma noise_record : to_tracked (0, submitted_record noise) = Ok noise.
Proof. by vm_compute. Qed.
Lemma noise_tracked : tracked_view demo_tracker tracked = Ok {[ 0 := submitted_record noise ]}.
Proof. by vm_compute. Qed.
Lemma noise_sound : sound_disk (dsk polled).
Proof. by vm_compute. Qed.

Lemma noise_unmined (w w' : TrackerWorld.t Env.t) h :
  eth_get_transaction_receipt_height "http://localhost:8545" (ts_tx_hash noise) w ≠ (Ok (Some h), w').
Proof. intros Hx. vm_compute in Hx. discriminate Hx. Qed.
Lemma noise_refused (w w' : TrackerWorld.t Env.t) o :
  eth_send_raw_transaction "http://localhost:8545" (ts_tx_bytes noise) w ≠ (Ok o, w').
Proof. intros Hx. vm_compute in Hx. discriminate Hx. Qed.
Definition always : Env.t → Prop := λ _, True.
Lemma noise_stuck : stuck integration 0 (submitted_record noise) always tracked.
Proof.
  split; [exact I|]. exists {[ 0 := submitted_record noise ]}. split; [exact noise_tracked|]. split; [done|]. lia.
Qed.
Lemma noise_polled : rtc (while_waiting integration noise always) tracked polled.
Proof. apply rtc_once. eapply (Polled integration noise always 20). unfold polled. apply surjective_pairing. Qed.
Lemma noise_file : InboxStore.file_path (tr_store (Tracker.tracker integration)) ≠ [].
Proof. by vm_compute. Qed.
Lemma noise_later : ts_deadline_height noise < 311.
Proof. by vm_compute. Qed.
Lemma still_waiting n w :
  rtc (while_waiting integration noise always) w (sleep_ms n w) ∧ (sound_disk (dsk w) → sound_disk (dsk (sleep_ms n w))).
Proof. split; [apply rtc_refl|exact id]. Qed.

Lemma refused_entry_halts_settlement_witness :
  stuck integration 0 (submitted_record noise) always polled ∧
  ∀ fuel v, wait_inclusion_gate fuel (Some integration) 311 500 polled ≠ Some (true, v).
Proof.
  pose proof (refused_entry_halts_settlement integration noise_file 0 noise (submitted_record noise) noise_record
    always (λ _ _ _ _, I) (λ _ _ _, I) (λ _ _ _ _, I) (λ w h w' _, noise_unmined w w' h)
    (λ w o w' _, noise_refused w w' o) tracked polled still_waiting noise_stuck noise_polled) as (Hstuck & _ & _ & Hgate).
  exact (conj Hstuck (λ fuel v, Hgate noise_sound fuel 311 500 v noise_later)).
Defined.
End InclusionDemo.
