(* ===== verification/Runner.v ===== *)
(** [crates/node/src/runner.rs]: block production, the finalizer (batching,
    publishing, settling, finalizing) and crash recovery.

    The runner is written against the engine, availability, settlement, disk
    and runtime interfaces; the chain pointers shared under a mutex, the
    finalizer's channel and the broadcast network are interfaces of their own.
    Loops that retry until success or shutdown take fuel and are [None] when it
    runs out. *)

From S2P Require Import Prelude Text Codec Disk Core Store Wire Contract Sui SuiInbox.
From S2P Require Import JsonValue Engine L2Rpc Config Tracker P2p.
Local Open Scope string_scope.
Local Open Scope list_scope.
Local Open Scope N_scope.

(** ** State *)

Record PendingBlock := mk_pending {
  pb_block : Block; pb_hash : B256; pb_height : N
}.

Record ChainState := mk_chain_state {
  cs_head : B256; cs_safe : B256; cs_finalized : B256; cs_timestamp : N
}.

(** The pointers behind the mutex, the channel, and the height gauge the
    force-inclusion poller reads. *)
Class ChainMem (W : Type) := { get_chain : W → ChainState; put_chain : ChainState → W → W }.
Inductive received := Got (p : PendingBlock) | Closed | Empty.
Class Channel (W : Type) := {
  tx_send : PendingBlock → W → bool * W;
  rx_recv : W → received * W
}.
Class Gauges (W : Type) := { set_block_height : N → W → W }.

(** The stores of one data directory. *)
Record Stores := mk_stores {
  block_store : BlockStore.t; state_store : StateStore.t; pending_store : PendingStore.t
}.
Definition stores_at (data_dir : path) : Stores :=
  mk_stores (BlockStore.mk (data_dir ++ ["blocks"])) (StateStore.new data_dir)
    (PendingStore.new data_dir).

(** *** The flush timer *)

Record FlushTimer := mk_timer { flush_after : option N; timer_at : option N }.
Definition timer_new (after : option N) : FlushTimer := mk_timer after None.
Definition arm (now : N) (t : FlushTimer) : FlushTimer :=
  match timer_at t with
  | None => mk_timer (flush_after t) ((λ a, now + a) <$> flush_after t)
  | Some _ => t
  end.
Definition disarm (t : FlushTimer) : FlushTimer := mk_timer (flush_after t) None.
Definition deadline (t : FlushTimer) : option N := timer_at t.

Definition da_flush_after (da_flush_ms : N) : option N :=
  if da_flush_ms =? 0 then None else Some da_flush_ms.

Definition derive_prev_randao (height : N) : B256 :=
  match try_into_array 32 (replicate 24 x00 ++ to_be_bytes 8 height) with
  | Some a => a | None => ZERO
  end.

Section Runner.
Context {W PrivKey PubKey : Type} `{EngineApi W} `{DataAvailability W} `{SettlementLayer W}
  `{HasDisk W} `{Runtime W} `{ChainMem W} `{Channel W} `{Gauges W} `{Broadcaster W}
  `{InboxTransport W} `{HasBudget W} `{JsonHttp W}.
Context `{Ed25519 PrivKey PubKey} `{SuiSdk} `{Hex} `{Hashes} `{EvmSdk}.
Context `{Bcs serde_block} `{Json PendingStore.PendingFile} `{Json StateStore.ChainState}
  `{Json InboxStore.InboxFile} `{Json ExecutionPayload}.
Abbreviation Op := (M W anyhow).

Definition on_store {A} (m : M disk StoreError A) : Op A :=
  errM (λ e, [store_error_text e]) (on_disk m).
Definition on_engine {A} (m : M W EngineError A) : Op A := errM (λ e, [engine_error_text e]) m.
Definition core {A} (r : result Core.Error A) : Op A := lift (map_err (λ e, [display e]) r).
Definition now_unix (w : W) : N := now_ms w / 1000.
Definition latest_stored (s : Stores) (w : W) : option N :=
  BlockStore.latest_height (block_store s) (get_disk w).

(** ** Start *)

(** [B256::from_str(..).unwrap_or(d)] *)
Definition b256_or (d : B256) (s : string) : B256 :=
  match b256_from_str s with Ok h => h | Err _ => d end.

(** The chain pointers [run] starts from: stored, configured or discovered. *)
Definition initial_state (s : Stores) (genesis_hash : option B256) : Op ChainState :=
  stored ← contextM "loading stored state" (on_store (StateStore.load (state_store s)));
  w ← getM;
  match stored with
  | Some st =>
      let h := b256_or ZERO (StateStore.head st) in
      mret (mk_chain_state h (b256_or h (StateStore.safe st)) (b256_or h (StateStore.finalized st))
              (StateStore.cs_timestamp st))
  | None =>
      match genesis_hash with
      | Some hash => mret (mk_chain_state hash hash hash (now_unix w))
      | None =>
          '(hash, _) ← contextM "discovering chain head from Reth" (on_engine engine_head);
          w ← getM;
          mret (mk_chain_state hash hash hash (now_unix w))
      end
  end.

(** [format!("{:#x}", h)] *)
Definition fmt_b256 (h : B256) : string := "0x" +:+ hex_encode (arr_bytes h).

Definition persist_state (s : Stores) (height : N) : Op unit :=
  w ← getM;
  let st := get_chain w in
  contextM "saving chain state"
    (on_store (StateStore.save (state_store s)
       (StateStore.mk_ChainState (fmt_b256 (cs_head st)) (fmt_b256 (cs_safe st))
          (fmt_b256 (cs_finalized st)) height (cs_timestamp st)))).

(** ** Production *)

(** The payload asked for: on the current head, a second after it at least. *)
Definition next_timestamp (w : W) : N := wadd (N.max (cs_timestamp (get_chain w)) (now_unix w)) 1.
Definition build_next (s : Stores) (fee_recipient : string) (w : W) : M W EngineError BuiltPayload :=
  let st := get_chain w in
  let next_height := wadd (default 0 (latest_stored s w)) 1 in
  engine_build (mk_fc (cs_head st) (cs_safe st) (cs_finalized st))
    (mk_attributes (next_timestamp w) (derive_prev_randao next_height) fee_recipient ZERO).

Definition produce_block (s : Stores) (fee_recipient : string) (signer : Ed25519BlockSigner PrivKey)
    (broadcaster : bool) (inbox : option InboxIntegration) : Op unit :=
  w ← getM;
  let st := get_chain w in
  let timestamp := next_timestamp w in
  built ← on_engine (build_next s fee_recipient w);
  let hash := block_hash built in
  let h := built_height built in
  contextM "accepting payload"
    (on_engine (engine_accept (payload built) hash (cs_safe st) (cs_finalized st)));;
  modM (λ w, let st' := get_chain w in
             put_chain (mk_chain_state hash (cs_safe st') (cs_finalized st') timestamp) w);;
  modM (set_block_height h);;
  block ← contextM "converting payload to block" (core (payload_into_block built));
  sig ← core (sign_header signer (header block));
  let block := mk_Block (header block) (data block) (Some sig) in
  contextM "persisting block" (on_store (BlockStore.put (block_store s) block));;
  observe_block_inclusions inbox (p_transactions (payload built)) h;;
  contextM ("marking height " +:+ fmt_dec h +:+ " pending")
    (on_store (PendingStore.mark (pending_store s) h));;
  w ← getM;
  persist_state s (default h (latest_stored s w));;
  (if broadcaster then
     modM (bc_broadcast block);; modM (bc_announce (mk_announce h (digest block)))
   else mret tt);;
  (* a closed channel drops the block: it is recovered on restart *)
  eff (λ w, let '(_, w') := tx_send (mk_pending block hash h) w in (Ok tt, w')).

(** ** Finalization *)

Definition advance_finalized (height : N) (hash : B256) : Op unit :=
  w ← getM;
  contextM ("advancing finalized to height " +:+ fmt_dec height)
    (on_engine (engine_finalize (cs_head (get_chain w)) hash hash));;
  modM (λ w, let st := get_chain w in
             put_chain (mk_chain_state (cs_head st) hash hash (cs_timestamp st)) w).

(** Failures are logged and skipped. *)
Fixpoint finalize_buffered_locally (batch : list PendingBlock) (w : W) : W :=
  match batch with
  | [] => w
  | p :: batch => finalize_buffered_locally batch (advance_finalized (pb_height p) (pb_hash p) w).2
  end.

(** [Some None] is shutdown. *)
Fixpoint publish_loop (fuel : nat) (backoff : N) (blocks : list Block) (w : W)
    : option (option BlobId * W) :=
  match fuel with
  | O => None
  | S fuel =>
      if shutting_down w then Some (None, w)
      else match da_publish blocks w with
           | (Ok id, w') => Some (Some id, w')
           | (Err _, w') => publish_loop fuel (N.min (backoff * 2) 10000) blocks (sleep_ms backoff w')
           end
  end.

(** Marker and state writes after a finalized block; failures are logged. *)
Definition record_finalized (s : Stores) (height : N) : Op unit :=
  tryM (E := anyhow) (on_store (PendingStore.clear (pending_store s) height));;
  w ← getM;
  tryM (E := anyhow) (persist_state s (default height (latest_stored s w)));;
  mret tt.

(** The [while !batch.is_empty()] loop, with [batch_bytes]. *)
Fixpoint settle_loop (fuel : nat) (s : Stores) (inbox : option InboxIntegration) (blob : BlobId)
    (bytes : N) (batch : list PendingBlock) (w : W) : option ((list PendingBlock * N) * W) :=
  match batch with
  | [] => Some (([], 0), w)
  | p :: rest =>
      match settle_with_gate fuel inbox (pb_block p) blob w with
      | None => None
      | Some (false, w') => Some (([], 0), finalize_buffered_locally (p :: rest) w')
      | Some (true, w') =>
          match advance_finalized (pb_height p) (pb_hash p) w' with
          | (Err _, w'') => Some ((p :: rest, bytes), w'')
          | (Ok _, w'') =>
              settle_loop fuel s inbox blob bytes rest (record_finalized s (pb_height p) w'').2
          end
      end
  end.

Definition flush_batch (fuel : nat) (s : Stores) (inbox : option InboxIntegration)
    (batch : list PendingBlock) (bytes : N) (w : W) : option ((list PendingBlock * N) * W) :=
  match batch with
  | [] => Some (([], bytes), w)
  | _ =>
      match publish_loop fuel 500 (pb_block <$> batch) w with
      | None => None
      | Some (None, w') => Some ((batch, bytes), w')
      | Some (Some blob, w') => settle_loop fuel s inbox blob bytes batch w'
      end
  end.

(** *** The finalizer's loop *)

Record finalizer := mk_finalizer {
  f_batch : list PendingBlock; f_bytes : N; f_timer : FlushTimer
}.

Definition after_flush (t : FlushTimer) (r : list PendingBlock * N) : finalizer :=
  mk_finalizer r.1 r.2 (match r.1 with [] => disarm t | _ => t end).

Definition timer_due (t : FlushTimer) (w : W) : bool :=
  match deadline t with Some d => d <=? now_ms w | None => false end.

(** One turn of the biased [select!]: shutdown with a non-empty batch, then a
    due timer, then the channel.  The flag tells whether the loop ends; an
    [Empty] channel leaves the turn to time. *)
Definition finalizer_turn (fuel : nat) (s : Stores) (inbox : option InboxIntegration)
    (batch_size_bytes : N) (f : finalizer) (w : W) : option (bool * finalizer * W) :=
  if negb (bool_decide (length (f_batch f) = O)) && shutting_down w then
    Some (true, mk_finalizer [] (f_bytes f) (f_timer f), finalize_buffered_locally (f_batch f) w)
  else if timer_due (f_timer f) w then
    match flush_batch fuel s inbox (f_batch f) (f_bytes f) w with
    | None => None
    | Some (r, w') => Some (false, after_flush (f_timer f) r, w')
    end
  else
    match rx_recv w with
    | (Empty, w') => Some (false, f, sleep_ms 1 w')
    | (Got p, w') =>
        let t := match f_batch f with [] => arm (now_ms w') (f_timer f) | _ => f_timer f end in
        let bytes := sat_add (f_bytes f) (N.of_nat (length (data (pb_block p)))) in
        let batch := f_batch f ++ [p] in
        if batch_size_bytes <=? bytes then
          match flush_batch fuel s inbox batch bytes w' with
          | None => None
          | Some (r, w'') => Some (false, after_flush t r, w'')
          end
        else Some (false, mk_finalizer batch bytes t, w')
    | (Closed, w') =>
        match flush_batch fuel s inbox (f_batch f) (f_bytes f) w' with
        | None => None
        | Some (r, w'') => Some (true, mk_finalizer [] r.2 (disarm (f_timer f)),
                                 finalize_buffered_locally r.1 w'')
        end
    end.

(** ** Recovery *)

(** [serde_json::from_slice::<ExecutionPayloadV3>] *)
Definition decode_block_hash (bytes : list byte) : result anyhow B256 :=
  p ← context "decoding execution payload for block hash"
        (text ← ok_or (from_utf8 bytes) ["invalid utf-8"]; map_err (λ e, [e]) (json_from_str text));
  Ok (p_block_hash p).

Definition drop_marker (s : Stores) (height : N) (w : W) : W :=
  (on_store (PendingStore.clear (pending_store s) height) w).2.

Fixpoint requeue (s : Stores) (heights : list N) (w : W) : W :=
  match heights with
  | [] => w
  | h :: hs =>
      requeue s hs
        match on_store (BlockStore.get (block_store s) h) w with
        | (Ok block, w') =>
            match decode_block_hash (data block) with
            | Ok hash => (tx_send (mk_pending block hash h) w').2
            | Err _ => drop_marker s h w'
            end
        | (Err _, w') => drop_marker s h w'
        end
  end.

Definition recover_pending (s : Stores) (w : W) : W :=
  match on_store (PendingStore.pending (pending_store s)) w with
  | (Err _, w') => w'
  | (Ok heights, w') => requeue s heights w'
  end.
End Runner.

(** ** A world for the runner *)

Module RunnerWorld.
(** What the outside has confirmed, in order. *)
Inductive event :=
| Published (id : BlobId) (blocks : list Block)
| Committed (block : Block) (id : BlobId)
| Finalized (hash : B256)
| Sent (block : Block)
| Announced (a : BlockAnnounce).

(** Any engine, availability and settlement layer, next to the disk, the chain
    pointers, the channel, the clock and the time of the shutdown signal. *)
Record t (E D S : Type) := mk {
  el : E; da : D; sl : S;
  dsk : disk; mem : ChainState; queue : list PendingBlock;
  clock : N; stop_at : option N;
  log : list event
}.
#[global] Arguments mk {E D S}. #[global] Arguments el {E D S}. #[global] Arguments da {E D S}.
#[global] Arguments sl {E D S}. #[global] Arguments dsk {E D S}. #[global] Arguments mem {E D S}.
#[global] Arguments queue {E D S}. #[global] Arguments clock {E D S}.
#[global] Arguments stop_at {E D S}. #[global] Arguments log {E D S}.

Section world.
Context {E D S : Type}.
Abbreviation world := (t E D S).

Definition put_el (e : E) (w : world) : world :=
  mk e (da w) (sl w) (dsk w) (mem w) (queue w) (clock w) (stop_at w) (log w).
Definition put_da (d : D) (w : world) : world :=
  mk (el w) d (sl w) (dsk w) (mem w) (queue w) (clock w) (stop_at w) (log w).
Definition put_sl (x : S) (w : world) : world :=
  mk (el w) (da w) x (dsk w) (mem w) (queue w) (clock w) (stop_at w) (log w).
Definition put_dsk (d : disk) (w : world) : world :=
  mk (el w) (da w) (sl w) d (mem w) (queue w) (clock w) (stop_at w) (log w).
Definition put_mem (c : ChainState) (w : world) : world :=
  mk (el w) (da w) (sl w) (dsk w) c (queue w) (clock w) (stop_at w) (log w).
Definition put_queue (q : list PendingBlock) (w : world) : world :=
  mk (el w) (da w) (sl w) (dsk w) (mem w) q (clock w) (stop_at w) (log w).
Definition put_clock (n : N) (w : world) : world :=
  mk (el w) (da w) (sl w) (dsk w) (mem w) (queue w) n (stop_at w) (log w).
Definition note (e : event) (w : world) : world :=
  mk (el w) (da w) (sl w) (dsk w) (mem w) (queue w) (clock w) (stop_at w) (log w ++ [e]).

(** Run on a component; a success is noted. *)
Definition on {X Er A} (get : world → X) (put : X → world → world) (m : M X Er A)
    (ev : A → option event) : M world Er A := λ w,
  let '(r, x) := m (get w) in
  let w' := put x w in
  (r, match r with
      | Ok a => match ev a with Some e => note e w' | None => w' end
      | Err _ => w'
      end).

(** The loop of [run] sets the flag, leaves, and drops the channel's sender. *)
Definition stopping (w : world) : bool :=
  match stop_at w with Some n => n <=? clock w | None => false end.

#[global] Instance rw_engine `{EngineApi E} : EngineApi world := {|
  engine_build fc a := on el put_el (engine_build fc a) (λ _, None);
  engine_accept p h s f := on el put_el (engine_accept p h s f) (λ _, None);
  engine_finalize h s f := on el put_el (engine_finalize h s f) (λ _, Some (Finalized f));
  engine_head := on el put_el engine_head (λ _, None);
  engine_block_number := on el put_el engine_block_number (λ _, None);
  engine_block_by_number n := on el put_el (engine_block_by_number n) (λ _, None)
|}.
#[global] Instance rw_da `{DataAvailability D} : DataAvailability world := {|
  da_publish bs := on da put_da (da_publish bs) (λ id, Some (Published id bs));
  da_fetch id := on da put_da (da_fetch id) (λ _, None)
|}.
#[global] Instance rw_sl `{SettlementLayer S} : SettlementLayer world := {|
  commit_block b id c := on sl put_sl (commit_block b id c) (λ _, Some (Committed b id))
|}.
#[global] Instance rw_disk : HasDisk world := {| get_disk := dsk; put_disk := put_dsk |}.
#[global] Instance rw_mem : ChainMem world := {| get_chain := mem; put_chain := put_mem |}.
#[global] Instance rw_runtime : Runtime world := {|
  now_ms := clock;
  sleep_ms n w := put_clock (clock w + n) w;
  shutting_down := stopping
|}.
#[global] Instance rw_broadcast : Broadcaster world := {|
  bc_broadcast b := note (Sent b);
  bc_announce a := note (Announced a)
|}.
#[global] Instance rw_gauges : Gauges world := {| set_block_height _ w := w |}.
#[global] Instance rw_channel : Channel world := {|
  tx_send p w := (true, put_queue (queue w ++ [p]) w);
  rx_recv w := match queue w with
               | [] => (if stopping w then Closed else Empty, w)
               | p :: q => (Got p, put_queue q w)
               end
|}.
(** Reth answers the poller, Sui serves the inbox; the budget is the
    tracker's. *)
#[global] Instance rw_http `{JsonHttp E} : JsonHttp world := {|
  json_post url v := on el put_el (json_post url v) (λ _, None)
|}.
#[global] Instance rw_inbox `{InboxTransport S} : InboxTransport world := {|
  tr_object_contents id := on sl put_sl (tr_object_contents id) (λ _, None);
  tr_field_contents table n := on sl put_sl (tr_field_contents table n) (λ _, None)
|}.
#[global] Instance rw_budget `{HasBudget S} : HasBudget world := {|
  deadline_blocks w := deadline_blocks (sl w);
  set_deadline_blocks n w := put_sl (set_deadline_blocks n (sl w)) w
|}.
End world.
End RunnerWorld.

(** ** The tracker beside the other stores *)

Section Apart.
Import RunnerWorld.
Context {E D SL : Type} `{Hex} `{Hashes} `{Json InboxStore.InboxFile}.
Abbreviation world := (RunnerWorld.t E D SL).
Context (dir : path).
Abbreviation q := (InboxStore.file_path (InboxStore.new dir)).

(** Only the inbox file and the outside's own state may differ. *)
Definition apart (w w' : world) : Prop :=
  only_file q (dsk w) (dsk w') ∧ mem w' = mem w ∧ queue w' = queue w ∧ log w' = log w ∧
  clock w' = clock w ∧ stop_at w' = stop_at w.
#[export] Instance apart_preorder : PreOrder apart.
Proof.
  split; [by intros w; split_and!|]. intros w1 w2 w3 (Ha & ? & ? & ? & ? & ?) (Hb & ? & ? & ? & ? & ?).
  split_and!; [by etrans|congruence..].
Qed.

Lemma apart_store {F A} (m : M disk StoreError A) (f : StoreError → F) (w0 : world) :
  (∀ d0, preserves (only_file q d0) m) → preserves (apart w0) (errM f (on_disk m)).
Proof.
  intros Hm. apply preserves_errM. intros w (Hd & Hr). unfold on_disk, zoom. cbn.
  specialize (Hm (dsk w0) (dsk w) Hd). destruct (m (dsk w)) as [[a|e] d]; by split.
Qed.
Context (t : InboxTracker) (same_dir : tr_store t = InboxStore.new dir).
Lemma apart_reads {A} (m : M disk StoreError A) (w0 : world) :
  reads m → preserves (apart w0) (stored m).
Proof. intros Hm. apply apart_store. intros d0. by apply reads_only_file. Qed.
Lemma apart_snapshot (w0 : world) : preserves (apart w0) (stored (InboxStore.snapshot (tr_store t))).
Proof. apply apart_store. intros d0. apply preserves_fmap, reads_only_file, InboxFacts.reads_inbox. Qed.
Lemma apart_mutate f (w0 : world) : preserves (apart w0) (stored (InboxStore.mutate (tr_store t) f)).
Proof.
  apply apart_store. intros d0. rewrite same_dir. apply InboxFacts.inbox_mutate_frame. apply snoc_ne.
Qed.

Lemma apart_observe h txs (w0 : world) : preserves (apart w0) (observe_transactions t h txs).
Proof.
  unfold observe_transactions. apply preserves_bind; [apply apart_snapshot|]. intros m.
  induction (btree_entries m) as [|e es IH]; cbn; [apply preserves_ret|].
  apply preserves_bind; [|intros o; apply preserves_bind; [done|intros; apply preserves_ret]].
  unfold observe_one. walk_with ltac:(idtac; apply apart_mutate).
Qed.
End Apart.

(** The poller's store is in the same directory. *)
Definition inbox_in (dir : path) (inbox : option InboxIntegration) : Prop :=
  match inbox with Some i => tr_store (tracker i) = InboxStore.new dir | None => True end.

(** [observe_block_inclusions] succeeds, and touches the inbox file only. *)
Lemma observe_inclusions_apart {E D SL} `{Hex} `{Hashes} `{Json InboxStore.InboxFile}
    dir inbox txs h (w : RunnerWorld.t E D SL) :
  inbox_in dir inbox →
  ∃ w', observe_block_inclusions (E := anyhow) inbox txs h w = (Ok tt, w') ∧ apart dir w w'.
Proof.
  intros Hi. destruct inbox as [i|]; [|by exists w].
  assert (apart dir w w) as Hw by done.
  pose proof (apart_observe dir (tracker i) Hi h txs w w Hw) as Ha.
  unfold observe_block_inclusions. rewrite run_bind. unfold tryM.
  destruct (observe_transactions _ _ _ w) as [r w'] eqn:Hr. exists w'. split; [done|]. by destruct r.
Qed.

(** ** Markers are cleared only for settled blocks *)

Lemma with_tmp_snoc d f : with_tmp (d ++ [f]) = d ++ [f +:+ ".tmp"].
Proof.
  unfold with_tmp, parent. rewrite last_snoc, length_app. cbn [length].
  by rewrite Nat.add_sub, take_app_length.
Qed.

Section Settled.
Import RunnerWorld.
Context {E D SL : Type} `{EngineApi E} `{DataAvailability D} `{SettlementLayer SL} `{Hex}.
Context `{JsonLaws PendingStore.PendingFile} `{JsonLaws StateStore.ChainState}
  `{Json InboxStore.InboxFile}.
Abbreviation world := (RunnerWorld.t E D SL).
Context (dir : path).
Abbreviation s := (stores_at dir).

(** The pending heights a restarted sequencer reads. *)
Definition markers_on (d : disk) : result StoreError (list N) :=
  view (PendingStore.pending (pending_store s)) d.
Abbreviation markers w := (markers_on (dsk w)).

(** A block that reached availability, settlement and the engine. *)
Definition settled_in (l : list event) (p : PendingBlock) : Prop :=
  ∃ id blocks, Published id blocks ∈ l ∧ pb_block p ∈ blocks ∧
               Committed (pb_block p) id ∈ l ∧ Finalized (pb_hash p) ∈ l.
Lemma settled_in_mono l l' p : l ⊆ l' → settled_in l p → settled_in l' p.
Proof. intros Hl (id & bs & ? & ? & ? & ?). exists id, bs. auto. Qed.

(** The files of the block store. *)
Definition blocks_kept (d d' : disk) : Prop :=
  ∀ h, same_file (BlockStore.block_path (block_store s) h) d d'.
#[export] Instance blocks_kept_preorder : PreOrder blocks_kept.
Proof.
  split; [by intros d h|]. intros d1 d2 d3 H12 H23 h. destruct (H12 h), (H23 h). split; congruence.
Qed.
Lemma untouched_kept d d' : files d' = files d → dirs d' = dirs d → blocks_kept d d'.
Proof. intros Hf Hd h. split; [by rewrite Hf|done]. Qed.

(** The three stores of one directory are different files. *)
Lemma stores_disjoint h q :
  q = PendingStore.file_path (pending_store s) ∨ q = StateStore.file_path (state_store s) ∨
  q = InboxStore.file_path (InboxStore.new dir) →
  BlockStore.block_path (block_store s) h ≠ q ∧ BlockStore.block_path (block_store s) h ≠ with_tmp q.
Proof.
  intros [->|[->| ->]]; cbn; rewrite with_tmp_snoc; split; unfold BlockStore.block_path; cbn;
    rewrite <- app_assoc; intros Heq%app_inv_head; discriminate.
Qed.

(** A save of another store. *)
Lemma saved_kept q d d' :
  q = PendingStore.file_path (pending_store s) ∨ q = StateStore.file_path (state_store s) ∨
  q = InboxStore.file_path (InboxStore.new dir) →
  only_file q d d' → blocks_kept d d'.
Proof. intros Hq [Hf Hd] h. split; [|done]. apply Hf; by apply stores_disjoint. Qed.

(** Time passes, what was confirmed stays confirmed, and neither the channel
    nor a block file changes. *)
Definition onward (w w' : world) : Prop :=
  log w ⊆ log w' ∧ clock w <= clock w' ∧ stop_at w' = stop_at w ∧ queue w' = queue w ∧
  blocks_kept (dsk w) (dsk w').
#[export] Instance onward_preorder : PreOrder onward.
Proof.
  split; [by intros w; split_and!|]. intros w1 w2 w3 (Hl & ? & Hs & Hq & Hb) (Hl' & ? & Hs' & Hq' & Hb').
  split_and!; [|lia|congruence|congruence|by etrans]. intros e He. by apply Hl', Hl.
Qed.
Lemma stopping_onward (w w' : world) :
  onward w w' → shutting_down w = true → shutting_down w' = true.
Proof.
  intros (_ & Hc & Hs & _). cbn. unfold stopping. rewrite Hs.
  destruct (stop_at w); [|done]. rewrite !N.leb_le. lia.
Qed.

(** A step that touches no marker. *)
Definition quiet (w w' : world) : Prop := markers w' = markers w ∧ onward w w'.
#[export] Instance quiet_preorder : PreOrder quiet.
Proof.
  split; [by intros w; split|]. intros w1 w2 w3 [Hm Ho] [Hm' Ho']. split; [by rewrite Hm'|].
  by etrans.
Qed.

Lemma note_log e (w : world) : log w ⊆ log (note e w) ∧ e ∈ log (note e w).
Proof. split; [intros e' ?|]; apply elem_of_app; [by left|right; by apply list_elem_of_singleton]. Qed.

Lemma quiet_same (w w' : world) :
  dsk w' = dsk w → log w' = log w → clock w <= clock w' → stop_at w' = stop_at w →
  queue w' = queue w → quiet w w'.
Proof. intros Hd Hl Hc Hs Hq. unfold quiet, onward. rewrite Hd, Hl. by split_and!. Qed.
Lemma note_quiet e (w : world) : quiet w (note e w).
Proof. split; [done|]. split_and!; [apply note_log|done..]. Qed.
Lemma sleep_quiet n (w : world) : quiet w (sleep_ms n w).
Proof. apply quiet_same; cbn; [done..|lia|done|done]. Qed.

Lemma on_quiet {X Er A} (get : world → X) put (m : M X Er A) ev w r w' :
  (∀ x, quiet w (put x w)) → on get put m ev w = (r, w') →
  quiet w w' ∧ (∀ a e, r = Ok a → ev a = Some e → e ∈ log w').
Proof.
  intros Hput. unfold on. destruct (m (get w)) as [r0 x]. specialize (Hput x).
  intros [= <- <-]. destruct r0 as [a|]; [|by split].
  destruct (ev a) as [e|] eqn:He.
  - split; [etrans; [exact Hput|apply note_quiet]|].
    intros ? ? [= <-]; rewrite He; intros [= <-]; apply note_log.
  - split; [done|]. intros ? ? [= <-]. by rewrite He.
Qed.

Lemma reads_quiet {A} (m : M disk StoreError A) (w : world) r w' :
  reads m → stored m w = (r, w') → quiet w w'.
Proof.
  intros Hr. unfold stored, errM, on_disk, zoom. cbn. destruct (m (dsk w)) as [r0 d] eqn:Hm.
  intros [= _ <-]. apply Hr in Hm as [Hf Hd]. split; [|split_and!; try done; by apply untouched_kept].
  unfold markers_on, view, restart. cbn. by rewrite Hf, Hd.
Qed.

Lemma gate_quiet fuel inbox h b w o w' :
  wait_inclusion_gate fuel inbox h b w = Some (o, w') →
  quiet w w' ∧ (o = false → shutting_down w' = true).
Proof.
  revert w. induction fuel as [|fuel IH]; intros w; cbn [wait_inclusion_gate];
    (destruct inbox as [i|]; [|by intros [= <- <-]]); [done|].
  destruct (shutting_down w) eqn:Hs; [by intros [= <- <-]|].
  destruct (halt_check _ _ w) as [r w1] eqn:Hh.
  assert (quiet w w1) as Hq.
  { unfold halt_check in Hh. rewrite run_bind in Hh.
    destruct (stored _ w) as [[m|e] w2] eqn:Hst; injection Hh as _ <-;
      (eapply reads_quiet; [|done]); apply reads_fmap, InboxFacts.reads_inbox. }
  destruct r as [[]|]; [by intros [= <- <-]| |by intros [= <- <-]].
  intros [Hq' ?]%IH. split; [|done]. etrans; [exact Hq|]. etrans; [apply sleep_quiet|exact Hq'].
Qed.

Lemma commit_quiet inbox b id w r w' :
  commit_with_inbox inbox b id w = (r, w') → quiet w w' ∧ (r = Ok tt → Committed b id ∈ log w').
Proof.
  assert (∀ c v, commit_block b id c v = (r, w') → quiet v w' ∧ (r = Ok tt → Committed b id ∈ log w')) as Hc.
  { intros c v Hv. apply on_quiet in Hv as [Hq Hl]; [|done]. split; [done|].
    intros ->. by eapply Hl. }
  unfold commit_with_inbox. destruct inbox as [i|]; [|apply Hc].
  rewrite run_bind. unfold tryM. destruct (settle_cursor _ w) as [n w1] eqn:Hn.
  assert (quiet w w1) as Hq.
  { eapply reads_quiet; [|done]. apply reads_fmap, InboxFacts.reads_inbox. }
  destruct n; intros [Hq' ?]%Hc; (split; [by etrans|done]).
Qed.

Lemma retry_quiet inbox b id fuel x y w o w' :
  retry_with_backoff fuel x y (commit_with_inbox inbox b id) w = Some (o, w') →
  quiet w w' ∧ (if o then Committed b id ∈ log w' else shutting_down w' = true).
Proof.
  revert x w. induction fuel as [|fuel IH]; intros x w; cbn [retry_with_backoff]; [done|].
  destruct (shutting_down w) eqn:Hs; [by intros [= <- <-]|].
  destruct (commit_with_inbox _ _ _ w) as [[[]|e] w1] eqn:Hc; apply commit_quiet in Hc as [Hq Hl].
  - intros [= <- <-]. auto.
  - intros [Hq' ?]%IH. split; [|done]. etrans; [exact Hq|].
    etrans; [apply sleep_quiet|exact Hq'].
Qed.

Lemma settle_quiet fuel inbox b id w o w' :
  settle_with_gate fuel inbox b id w = Some (o, w') →
  quiet w w' ∧ (if o then Committed b id ∈ log w' else shutting_down w' = true).
Proof.
  unfold settle_with_gate. destruct (wait_inclusion_gate _ _ _ _ w) as [[[] w1]|] eqn:Hg; [| |done];
    apply gate_quiet in Hg as [Hq Hs].
  - intros [? ?]%retry_quiet. split; [by etrans|done].
  - intros [= <- <-]. auto.
Qed.

Lemma advance_quiet h hash w r w' :
  advance_finalized h hash w = (r, w') → quiet w w' ∧ (r = Ok tt → Finalized hash ∈ log w').
Proof.
  assert (∀ fh, engine_finalize fh hash hash w =
                on el put_el (engine_finalize fh hash hash) (λ _, Some (Finalized hash)) w) as Hon
    by done.
  unfold advance_finalized. rewrite run_bind. cbv beta iota delta [getM]. rewrite run_bind.
  unfold contextM, on_engine, errM. rewrite Hon.
  destruct (on _ _ _ _ w) as [[[]|e] w1] eqn:Hf;
    (apply on_quiet in Hf as [Hq Hl]; [|by intros]); intros [= <- <-].
  - split; [etrans; [exact Hq|by split]|]. intros _. by eapply (Hl tt).
  - by split.
Qed.

Lemma buffered_quiet batch w : quiet w (finalize_buffered_locally batch w).
Proof.
  revert w. induction batch as [|p batch IH]; intros w; cbn; [done|].
  destruct (advance_finalized _ _ w) as [r w1] eqn:Ha. apply advance_quiet in Ha as [Hq _].
  etrans; [done|]. apply IH.
Qed.

Lemma publish_quiet fuel b blocks w o w' :
  publish_loop fuel b blocks w = Some (o, w') →
  quiet w w' ∧ match o with
               | Some id => Published id blocks ∈ log w'
               | None => shutting_down w' = true
               end.
Proof.
  revert b w. induction fuel as [|fuel IH]; intros b w; cbn [publish_loop]; [done|].
  destruct (shutting_down w) eqn:Hs; [by intros [= <- <-]|].
  destruct (da_publish blocks w) as [[id|e] w1] eqn:Hp; apply on_quiet in Hp as [Hq Hl]; try done.
  - intros [= <- <-]. split; [done|]. by eapply Hl.
  - intros [Hq' ?]%IH. split; [|done]. etrans; [exact Hq|].
    etrans; [apply sleep_quiet|exact Hq'].
Qed.

(** Saving the chain state leaves the markers alone. *)
Lemma persist_quiet h (w : world) r w' : persist_state s h w = (r, w') → quiet w w'.
Proof.
  unfold persist_state, contextM, on_store, errM, on_disk, zoom. rewrite run_bind.
  cbn [get_disk rw_disk getM]. destruct (StateStore.save _ _ _) as [r1 d1] eqn:Hs. intros [= _ <-].
  apply StateFacts.state_save_spec in Hs as (Hf & Hd & _); [|apply snoc_ne].
  split; [|split_and!; try done; by apply (saved_kept (StateStore.file_path (state_store s)));
           [right; left|]]. apply PendingFacts.pending_same. split; [|done].
  apply Hf; cbn; [|rewrite with_tmp_snoc]; by intros ?%app_inv_head.
Qed.

(** A block that was finalized loses its marker, or keeps it when the write
    fails. *)
Definition clears (w w' : world) (done : list PendingBlock) : Prop :=
  onward w w' ∧
  ∀ l, markers w = Ok l → ∃ l', markers w' = Ok l' ∧
    ∀ h, (h ∈ l' → h ∈ l) ∧ (h ∈ l → h ∉ l' → h ∈ pb_height <$> done).

Lemma quiet_clears w w' : quiet w w' → clears w w' [].
Proof. intros [Hm Ho]. split; [done|]. intros l Hl. exists l. rewrite Hm. naive_solver. Qed.
Lemma clears_trans w1 w2 w3 d1 d2 :
  clears w1 w2 d1 → clears w2 w3 d2 → clears w1 w3 (d1 ++ d2).
Proof.
  intros [Ho H12] [Ho' H23]. split; [by etrans|]. intros l Hl.
  apply H12 in Hl as (l' & Hl' & Hh). apply H23 in Hl' as (l'' & -> & Hh').
  exists l''. split; [done|]. intros h. specialize (Hh h) as []. specialize (Hh' h) as [].
  split; [auto|]. intros. rewrite fmap_app, elem_of_app.
  destruct (decide (h ∈ l')); [right; auto|left; auto].
Qed.
Lemma quiet_clears_trans w1 w2 w3 d : quiet w1 w2 → clears w2 w3 d → clears w1 w3 d.
Proof. intros Hq. exact (clears_trans _ _ _ [] d (quiet_clears _ _ Hq)). Qed.

Lemma record_clears p (w : world) : clears w (record_finalized s (pb_height p) w).2 [p].
Proof.
  unfold record_finalized. rewrite run_bind. unfold tryM, on_store at 1, errM at 1, on_disk, zoom.
  cbn [get_disk rw_disk]. destruct (PendingStore.clear _ _ _) as [r d] eqn:Hc.
  rewrite run_bind. cbv beta iota delta [getM]. rewrite run_bind.
  destruct (persist_state _ _ _) as [r1 w1] eqn:Hp. apply persist_quiet in Hp.
  cbn [mret M_ret snd]. replace [p] with ([p] ++ []) by done.
  eapply clears_trans; [|apply quiet_clears, Hp]. split.
  { split_and!; try done. apply (saved_kept (PendingStore.file_path (pending_store s))); [by left|].
    eapply PendingFacts.pending_mutate_frame; [|exact Hc]. apply snoc_ne. }
  intros l Hl. apply PendingFacts.pending_mutate_spec in Hc as Hr;
    [|apply snoc_ne|intros; by apply PendingFacts.remove_height_spec].
  destruct r as [[]|e].
  - destruct Hr as (l0 & Hl0 & Ha & Hl'). unfold markers_on in Hl.
    rewrite Hl0 in Hl. injection Hl as ->. eexists. split; [exact Hl'|].
    intros h. destruct (PendingFacts.remove_height_spec (pb_height p) l Ha) as [_ Hiff].
    rewrite Hiff. cbn. rewrite list_elem_of_singleton. split; [naive_solver|].
    intros. destruct (decide (h = pb_height p)); naive_solver.
  - exists l. split; [exact (eq_trans Hr Hl)|]. naive_solver.
Qed.

(** The settlement loop works off a prefix of the batch. *)
Lemma settle_loop_clears fuel inbox id bytes batch w batch' bytes' w' :
  settle_loop fuel s inbox id bytes batch w = Some ((batch', bytes'), w') →
  ∃ done rest, batch = done ++ rest ∧ clears w w' done ∧
    Forall (λ p, Committed (pb_block p) id ∈ log w' ∧ Finalized (pb_hash p) ∈ log w') done ∧
    (batch' = rest ∨ batch' = [] ∧ shutting_down w' = true).
Proof.
  revert w. induction batch as [|p batch IH]; intros w; cbn [settle_loop].
  { intros [= <- <- <-]. exists [], []. split_and!; try done; [|by left].
    by apply quiet_clears. }
  destruct (settle_with_gate _ _ _ _ _) as [[[] w1]|] eqn:Hs; [| |done];
    apply settle_quiet in Hs as [Hq Hc].
  - destruct (advance_finalized _ _ w1) as [[[]|e] w2] eqn:Ha;
      apply advance_quiet in Ha as [Hq2 Hf].
    + intros (dn & rest & -> & Hcl & Hall & Hb)%IH. exists (p :: dn), rest.
      assert (clears w2 w' (p :: dn)) as Hcl'.
      { apply (clears_trans _ _ _ [p] dn (record_clears p w2) Hcl). }
      split_and!; try done.
      * eapply quiet_clears_trans; [|exact Hcl']. by etrans.
      * constructor; [|done]. split; apply Hcl'; [by apply Hq2|by apply Hf].
    + intros [= <- <- <-]. exists [], (p :: batch). split_and!; try done; [|by left].
      apply quiet_clears. by etrans.
  - intros [= <- <- <-]. exists [], (p :: batch). pose proof (buffered_quiet (p :: batch) w1) as Hb.
    split_and!; try done.
    + apply quiet_clears. by etrans.
    + right. split; [done|]. eapply stopping_onward; [apply Hb|done].
Qed.
(** A flush works off a prefix of the batch, and reports the rest. *)
Lemma flush_clears fuel inbox batch bytes w batch' bytes' w' :
  flush_batch fuel s inbox batch bytes w = Some ((batch', bytes'), w') →
  ∃ done rest, batch = done ++ rest ∧ clears w w' done ∧ Forall (settled_in (log w')) done ∧
    (batch' = rest ∨ batch' = [] ∧ shutting_down w' = true).
Proof.
  intros Hf. unfold flush_batch in Hf. destruct batch as [|p batch].
  { injection Hf as <- <- <-. exists [], []. split_and!; try done; [by apply quiet_clears|by left]. }
  destruct (publish_loop _ _ _ w) as [[[id|] w1]|] eqn:Hp; [| |done];
    apply publish_quiet in Hp as [Hq Hpub].
  - apply settle_loop_clears in Hf as (dn & rest & Hb & Hcl & Hall & Hb').
    exists dn, rest. split_and!; try done; [by eapply quiet_clears_trans|].
    rewrite Forall_forall in Hall |- *. intros q Hqd. destruct (Hall q Hqd).
    exists id, (pb_block <$> p :: batch). split_and!; try done.
    + by apply Hcl.
    + rewrite Hb. apply list_elem_of_fmap. exists q. split; [done|]. apply elem_of_app. by left.
  - injection Hf as <- <- <-. exists [], (p :: batch). split_and!; try done; [by apply quiet_clears|].
    by left.
Qed.
End Settled.

(** C7: A flush clears markers only for blocks that are settled: whatever
    the engine, the availability and settlement layers and the disk do, the
    markers a restarted sequencer reads afterwards are among those before, and
    each one that is gone belongs to a block of the batch that was published
    as part of that batch, committed under the identifier it got and finalized
    by the engine.  The batch it leaves is what remains after a prefix of such
    blocks, or empty when the sequencer is shutting down. *)
Theorem flush_clears_only_settled {E D SL : Type} `{EngineApi E} `{DataAvailability D}
    `{SettlementLayer SL} `{Hex} `{JsonLaws PendingStore.PendingFile}
    `{JsonLaws StateStore.ChainState} `{Json InboxStore.InboxFile}
    dir fuel inbox batch bytes (w w' : RunnerWorld.t E D SL) batch' bytes' l :
  flush_batch fuel (stores_at dir) inbox batch bytes w = Some ((batch', bytes'), w') →
  markers_on dir (RunnerWorld.dsk w) = Ok l →
  ∃ done rest l', batch = done ++ rest ∧ Forall (settled_in (RunnerWorld.log w')) done ∧
    (batch' = rest ∨ batch' = [] ∧ shutting_down w' = true) ∧
    markers_on dir (RunnerWorld.dsk w') = Ok l' ∧
    ∀ h, (h ∈ l' → h ∈ l) ∧ (h ∈ l → h ∉ l' → h ∈ pb_height <$> done).
Proof.
  intros (dn & rest & Hb & [_ Hm] & Hall & Hr)%flush_clears Hl.
  destruct (Hm l Hl) as (l' & Hl' & Hh). by exists dn, rest, l'.
Qed.


(** ** A produced block is durable before anyone hears of it *)

Section Produced.
Import RunnerWorld.
Context {E D SL PrivKey PubKey : Type} `{EngineApi E} `{DataAvailability D} `{SettlementLayer SL}.
Context `{Ed25519Laws PrivKey PubKey} `{SuiSdk} `{Hex} `{Hashes}.
Context `{BcsLaws serde_block} `{JsonLaws PendingStore.PendingFile} `{JsonLaws StateStore.ChainState}
  `{Json InboxStore.InboxFile} `{Json ExecutionPayload}.
Abbreviation world := (RunnerWorld.t E D SL).
Context (dir : path) (inbox : option InboxIntegration) (same_dir : inbox_in dir inbox).
Abbreviation s := (stores_at dir).

(** Nothing is announced and nothing is queued. *)
Definition mute {A} (m : M world anyhow A) : Prop :=
  ∀ w, log (m w).2 = log w ∧ queue (m w).2 = queue w.
(** Nothing is announced or queued by a run that fails. *)
Definition mute_failure {A} (m : M world anyhow A) : Prop :=
  ∀ w e w', m w = (Err e, w') → log w' = log w ∧ queue w' = queue w.

Lemma mute_failure_bind {A B} (m : M world anyhow A) (k : A → M world anyhow B) :
  mute m → (∀ a, mute_failure (k a)) → mute_failure (m ≫= k).
Proof.
  intros Hm Hk w e w'. rewrite run_bind. specialize (Hm w). destruct (m w) as [[a|e'] w1]; cbn in Hm.
  - intros (-> & ->)%Hk. done.
  - by intros [= _ <-].
Qed.
Lemma mute_context {A} c (m : M world anyhow A) : mute m → mute (contextM c m).
Proof. intros Hm w. specialize (Hm w). unfold contextM, errM. by destruct (m w). Qed.
Lemma mute_store {A} (m : M disk StoreError A) : mute (on_store m).
Proof. intros w. unfold on_store, errM, on_disk, zoom. cbn. by destruct (m (dsk w)). Qed.
Lemma mute_build fee v : mute (on_engine (build_next s fee v)).
Proof. intros w. unfold on_engine, errM. cbn. unfold on. by destruct (engine_build _ _ _) as [[]]. Qed.
Lemma mute_accept p h x y : mute (on_engine (engine_accept p h x y)).
Proof. intros w. unfold on_engine, errM. cbn. unfold on. by destruct (engine_accept _ _ _ _ _) as [[]]. Qed.
Lemma mute_core {A} (r : result Core.Error A) : mute (core r).
Proof. done. Qed.
Lemma mute_mem f : mute (modM (λ w, put_chain (f w) w)).
Proof. done. Qed.
Lemma mute_gauge n : mute (modM (set_block_height n)).
Proof. done. Qed.
Lemma mute_persist h : mute (persist_state s h).
Proof.
  intros w. unfold persist_state. rewrite run_bind. apply (mute_context "saving chain state"), mute_store.
Qed.
Lemma mute_get : mute getM.
Proof. done. Qed.
Lemma mute_observe txs h : mute (observe_block_inclusions inbox txs h).
Proof.
  intros w. destruct (observe_inclusions_apart dir inbox txs h w same_dir) as (w' & -> & _ & ? & ? & ? & _).
  by split.
Qed.
Create HintDb mute.
#[local] Hint Resolve mute_context mute_store mute_build mute_accept mute_core mute_mem mute_gauge
  mute_persist mute_get mute_observe : mute.

Lemma produce_fails_mute fee (signer : Ed25519BlockSigner PrivKey) broadcaster :
  mute_failure (produce_block s fee signer broadcaster inbox).
Proof.
  unfold produce_block. repeat (apply mute_failure_bind; [solve [auto with mute]|intros]).
  intros w e w'. rewrite run_bind. by destruct broadcaster.
Qed.

(** One successful step. *)
Lemma store_ok {A} (m : M disk StoreError A) (w : world) a w' :
  on_store m w = (Ok a, w') → ∃ d, m (dsk w) = (Ok a, d) ∧ w' = put_dsk d w.
Proof.
  unfold on_store, errM, on_disk, zoom. cbn. destruct (m (dsk w)) as [[x|] d]; [|done].
  intros [= <- <-]. eauto.
Qed.
Lemma build_ok fee v (w : world) built w' :
  on_engine (build_next s fee v) w = (Ok built, w') →
  ∃ x, build_next s fee v w = (Ok built, w') ∧ w' = put_el x w.
Proof.
  unfold on_engine, errM, build_next. cbn. unfold on. destruct (engine_build _ _ (el w)) as [[b|] x]; [|done].
  intros [= <- <-]. eauto.
Qed.
Lemma accept_ok p h x y (w : world) u w' :
  on_engine (engine_accept p h x y) w = (Ok u, w') → ∃ e, w' = put_el e w.
Proof.
  unfold on_engine, errM. cbn. unfold on. destruct (engine_accept p h x y (el w)) as [[[]|] e]; [|done].
  intros [= <- <-]. eauto.
Qed.
Lemma core_ok {A} (r : result Core.Error A) (w : world) a w' :
  core r w = (Ok a, w') → r = Ok a ∧ w' = w.
Proof. unfold core, lift. destruct r; [|done]. by intros [= <- <-]. Qed.

Lemma persist_ok h (w : world) w' :
  persist_state s h w = (Ok tt, w') →
  ∃ st d, StateStore.save (state_store s) st (dsk w) = (Ok tt, d) ∧ w' = put_dsk d w ∧
          StateStore.head st = fmt_b256 (cs_head (mem w)).
Proof.
  unfold persist_state. intros Hp. apply bind_ok_inv in Hp as (w0 & w1 & Hg & Hp).
  injection Hg as <- <-. apply context_ok, store_ok in Hp as (d & Hs & ->). by eexists _, d.
Qed.
Lemma payload_header built b : payload_into_block built = Ok b → height (header b) = built_height built.
Proof. unfold payload_into_block. intros Hb. apply result_bind_ok in Hb as (x & _ & [= <-]). done. Qed.

(** Persisting a block, the inclusions in it, its marker and the chain state,
    in that order. *)
Lemma persisted_spec block st d0 d1 d1' d2 d3 :
  BlockStore.put (block_store s) block d0 = (Ok tt, d1) →
  only_file (InboxStore.file_path (InboxStore.new dir)) d1 d1' →
  PendingStore.mark (pending_store s) (height (header block)) d1' = (Ok tt, d2) →
  StateStore.save (state_store s) st d2 = (Ok tt, d3) →
  view (BlockStore.get (block_store s) (height (header block))) d3 = Ok block ∧
  view (StateStore.load (state_store s)) d3 = Ok (Some st) ∧
  ∃ l, markers_on dir d3 = Ok l ∧ height (header block) ∈ l.
Proof.
  intros Hput Hin Hmark Hsave. apply BlockFacts.put_get in Hput as [Hget _].
  apply (saved_kept dir) in Hin as Hkept; [|auto].
  rewrite <- (BlockFacts.get_same _ _ _ _ (Hkept _)) in Hget.
  assert (PendingStore.file_path (pending_store s) ≠ []) as Hp by apply snoc_ne.
  assert (StateStore.file_path (state_store s) ≠ []) as Hs by apply snoc_ne.
  pose proof (PendingFacts.pending_mutate_frame _ _ _ _ _ Hp Hmark) as [Hf2 Hd2].
  apply PendingFacts.pending_mutate_spec in Hmark as (l & _ & Ha & Hl);
    [|done|intros; by apply PendingFacts.insert_height_spec].
  apply StateFacts.state_save_spec in Hsave as (Hf3 & Hd3 & Hst); [|done].
  split_and!; [|done|].
  - rewrite <- Hget. apply BlockFacts.get_same. split; [|congruence].
    rewrite Hf3, Hf2; [done|apply (stores_disjoint dir); auto..].
  - exists (PendingStore.insert_height (height (header block)) l). split.
    + unfold markers_on. rewrite <- Hl. apply PendingFacts.pending_same. split; [|congruence].
      apply Hf3; cbn; [|rewrite with_tmp_snoc]; by intros ?%app_inv_head.
    + apply PendingFacts.insert_height_spec; [done|by left].
Qed.

Lemma send_ok (broadcaster : bool) block hash h (w w' : world) :
  ((if broadcaster
    then modM (E := anyhow) (bc_broadcast block);; modM (bc_announce (mk_announce h (digest block)))
    else mret tt);;
   eff (λ w : world, let '(_, w') := tx_send (mk_pending block hash h) w in (Ok tt, w'))
   : M world anyhow unit) w
    = (Ok tt, w') →
  dsk w' = dsk w ∧ mem w' = mem w ∧ queue w' = queue w ++ [mk_pending block hash h] ∧
  log w' = log w ++ (if broadcaster then [Sent block; Announced (mk_announce h (digest block))] else []).
Proof.
  destruct broadcaster; intros [= <-]; cbn; split_and!; try done; by rewrite <- ?app_assoc, ?app_nil_r.
Qed.

(** What a successful run did, step by step. *)
Lemma produce_steps fee (signer : Ed25519BlockSigner PrivKey) broadcaster (w w' : world) :
  produce_block s fee signer broadcaster inbox w = (Ok tt, w') →
  ∃ built b sg st d1 d1' d2 d3 w1,
    build_next s fee w w = (Ok built, w1) ∧
    let block := mk_Block (header b) (data b) (Some sg) in
    let h := height (header block) in
    payload_into_block built = Ok b ∧ sign_header signer (header b) = Ok sg ∧
    BlockStore.put (block_store s) block (dsk w) = (Ok tt, d1) ∧
    only_file (InboxStore.file_path (InboxStore.new dir)) d1 d1' ∧
    PendingStore.mark (pending_store s) h d1' = (Ok tt, d2) ∧
    StateStore.save (state_store s) st d2 = (Ok tt, d3) ∧
    StateStore.head st = fmt_b256 (block_hash built) ∧
    dsk w' = d3 ∧ cs_head (mem w') = block_hash built ∧
    queue w' = queue w ++ [mk_pending block (block_hash built) h] ∧
    log w' = log w ++ (if broadcaster then [Sent block; Announced (mk_announce h (digest block))] else []).
Proof.
  unfold produce_block. intros Hrun.
  apply bind_ok_inv in Hrun as (w0 & w1 & [= <- <-] & Hrun).
  apply bind_ok_inv in Hrun as (built & w1 & Hb & Hrun). apply build_ok in Hb as (x & Hb & ->).
  apply bind_ok_inv in Hrun as ([] & w1 & (x' & ->)%context_ok%accept_ok & Hrun).
  apply bind_ok_inv in Hrun as ([] & w1 & [= <-] & Hrun).
  apply bind_ok_inv in Hrun as ([] & w1 & [= <-] & Hrun).
  apply bind_ok_inv in Hrun as (b & w1 & [Hblk ->]%context_ok%core_ok & Hrun).
  apply bind_ok_inv in Hrun as (sg & w1 & [Hsg ->]%core_ok & Hrun).
  apply bind_ok_inv in Hrun as ([] & w1 & (d1 & Hput & ->)%context_ok%store_ok & Hrun).
  apply bind_ok_inv in Hrun as ([] & w1 & Hobs & Hrun).
  match type of Hobs with observe_block_inclusions _ ?txs ?h ?v = _ =>
    destruct (observe_inclusions_apart dir inbox txs h v same_dir) as (w2 & Hobs' & Hin & Hm2 & Hq2 & Hl2 & _)
  end. rewrite Hobs' in Hobs. injection Hobs as <-. cbn in Hm2, Hq2, Hl2, Hin.
  apply bind_ok_inv in Hrun as ([] & w1 & (d2 & Hmark & ->)%context_ok%store_ok & Hrun).
  apply bind_ok_inv in Hrun as (w0 & w1 & [= <- <-] & Hrun).
  apply bind_ok_inv in Hrun as ([] & w1 & (st & d3 & Hsave & -> & Hhead)%persist_ok & Hrun).
  rewrite <- (payload_header _ _ Hblk) in Hmark, Hrun.
  apply send_ok in Hrun as (Hd & Hm & Hq & Hl). cbn in Hm, Hq, Hl, Hhead.
  rewrite Hm2 in Hm, Hhead. rewrite Hq2 in Hq. rewrite Hl2 in Hl.
  exists built, b, sg, st, d1, (dsk w2), d2, d3, (put_el x w). split; [exact Hb|].
  exact (conj Hblk (conj Hsg (conj Hput (conj Hin (conj Hmark (conj Hsave (conj Hhead (conj Hd (conj
    (f_equal cs_head Hm) (conj Hq Hl)))))))))).
Qed.
End Produced.

(** C12: A produced block is durable before anyone hears of it.  When
    [produce_block] succeeds, a restarted sequencer reads the signed block at
    its height, finds the height marked as unsettled and the state file naming
    the block as the head; the signature is the signer's over the block's
    header; the head in memory has moved to it and it is queued for the
    finalizer once; and only then, if broadcasting, has it been sent and
    announced under its digest.  A run that fails has announced and queued
    nothing. *)
Theorem produced_block_is_durable {E D SL PrivKey PubKey : Type} `{EngineApi E}
    `{DataAvailability D} `{SettlementLayer SL} `{Ed25519Laws PrivKey PubKey} `{SuiSdk} `{Hex}
    `{Hashes} `{BcsLaws serde_block} `{JsonLaws PendingStore.PendingFile}
    `{JsonLaws StateStore.ChainState} `{Json InboxStore.InboxFile} `{Json ExecutionPayload}
    dir fee (signer : Ed25519BlockSigner PrivKey) broadcaster inbox (w w' : RunnerWorld.t E D SL) r :
  inbox_in dir inbox →
  produce_block (stores_at dir) fee signer broadcaster inbox w = (r, w') →
  match r with
  | Err _ => RunnerWorld.log w' = RunnerWorld.log w ∧ RunnerWorld.queue w' = RunnerWorld.queue w
  | Ok _ =>
      ∃ built unsigned sg st,
        payload_into_block built = Ok unsigned ∧
        let block := mk_Block (header unsigned) (data unsigned) (Some sg) in
        let h := height (header block) in
        verify (pub_key signer) (signing_message (header block)) sg = Ok tt ∧
        view (BlockStore.get (block_store (stores_at dir)) h) (RunnerWorld.dsk w') = Ok block ∧
        (∃ l, markers_on dir (RunnerWorld.dsk w') = Ok l ∧ h ∈ l) ∧
        view (StateStore.load (state_store (stores_at dir))) (RunnerWorld.dsk w') = Ok (Some st) ∧
        StateStore.head st = fmt_b256 (block_hash built) ∧
        cs_head (RunnerWorld.mem w') = block_hash built ∧
        RunnerWorld.queue w' = RunnerWorld.queue w ++ [mk_pending block (block_hash built) h] ∧
        RunnerWorld.log w' = RunnerWorld.log w ++
          (if broadcaster
           then [RunnerWorld.Sent block; RunnerWorld.Announced (mk_announce h (digest block))]
           else [])
  end.
Proof.
  intros Hi Hrun. destruct r as [[]|e]; [|by eapply produce_fails_mute].
  apply produce_steps in Hrun
    as (built & b & sg & st & d1 & d1' & d2 & d3 & w1 & _ & Hb & Hsg & Hput & Hin & Hmark & Hsave & Hhead & <- &
        Hm & Hq & Hl); [|done].
  destruct (persisted_spec dir _ _ _ _ _ _ _ Hput Hin Hmark Hsave) as (Hget & Hst & Hmk).
  exists built, b, sg, st. split; [done|]. cbv zeta.
  split_and!; try assumption. by apply sign_header_verifies.
Qed.


(** *** Concrete outsides *)

Module RunnerDemo.
(** An engine that finalizes unless the next entry of its script is [true]. *)
#[export] Instance engine : EngineApi (list bool) := {|
  engine_build _ _ := throw (EDecode "no payload");
  engine_accept _ _ _ _ := mret tt;
  engine_finalize _ _ _ := λ l,
    match l with
    | true :: l => (Err (ETransport "connection refused"), l)
    | _ => (Ok tt, tail l)
    end;
  engine_head := throw (EDecode "no head");
  engine_block_number := throw (EDecode "no head");
  engine_block_by_number _ := mret None
|}.
(** A settlement layer that takes every block. *)
#[export] Instance ledger : SettlementLayer unit := {| commit_block _ _ _ := mret tt |}.

Definition block (h ts : N) : Block :=
  mk_Block (mk_Header h (array_fill 32 x00) (array_fill 32 x07) ts) [] None.
Definition pending_block (h ts : N) : PendingBlock :=
  mk_pending (block h ts) (array_of_N 32 h) h.
Definition blob (n : N) : BlobId := mk_BlobId (array_of_N 32 n).
(** An availability layer that takes two batches, under different
    identifiers. *)
Definition batch_a : list PendingBlock := [pending_block 1 100; pending_block 2 200].
Definition batch_b : list PendingBlock := [pending_block 2 200; pending_block 3 300].
Definition address (bs : list Block) : result Core.Error BlobId :=
  if decide (bs = pb_block <$> batch_a) then Ok (blob 9)
  else if decide (bs = pb_block <$> batch_b) then Ok (blob 10)
  else Err (DataAvailabilityE "full").
#[export] Instance store : DataAvailability unit := {|
  da_publish bs := λ d, (address bs, d);
  da_fetch _ := throw (DataAvailabilityE "not found")
|}.
Definition chain0 : ChainState := mk_chain_state ZERO ZERO ZERO 0.
End RunnerDemo.

Section SettledWitness.
Import Codec.Demo Codec.CountableCodec RunnerDemo RunnerWorld.
Abbreviation p1 := (pending_block 1 100).
Abbreviation p2 := (pending_block 2 200).
(** Both blocks marked; the engine finalizes the first and refuses the
    second. *)
Definition marked_disk : disk :=
  (PendingStore.mark pending_store0 2 (PendingStore.mark pending_store0 1 (disk0 [])).2).2.
Definition refusing_world : RunnerWorld.t (list bool) unit unit :=
  RunnerWorld.mk [false; true] tt tt marked_disk chain0 [] 0 None [].

Lemma flush_result :
  fst <$> flush_batch 2 (stores_at ["data"]) None [p1; p2] 0 refusing_world = Some ([p2], 0).
Proof. by vm_compute. Qed.
Lemma flush_clears_only_settled_witness :
  ∃ w' dn rest l',
    flush_batch 2 (stores_at ["data"]) None [p1; p2] 0 refusing_world = Some (([p2], 0), w') ∧
    [p1; p2] = dn ++ rest ∧ Forall (settled_in (RunnerWorld.log w')) dn ∧
    ([p2] = rest ∨ [p2] = [] ∧ shutting_down w' = true) ∧
    markers_on ["data"] (RunnerWorld.dsk w') = Ok l' ∧
    ∀ h, (h ∈ l' → h ∈ [1; 2]) ∧ (h ∈ [1; 2] → h ∉ l' → h ∈ pb_height <$> dn).
Proof.
  destruct (flush_batch 2 (stores_at ["data"]) None [p1; p2] 0 refusing_world) as [[[b n] w']|] eqn:Hf.
  - pose proof (f_equal (fmap fst) Hf) as Hr. rewrite flush_result in Hr. cbn in Hr.
    injection Hr as <- <-.
    destruct (flush_clears_only_settled ["data"] 2 None [p1; p2] 0 refusing_world w' [p2] 0 [1; 2] Hf)
      as (dn & rest & l' & Hr); [by vm_compute|].
    exists w', dn, rest, l'. exact (conj eq_refl Hr).
  - pose proof (f_equal (fmap fst) Hf) as Hr. rewrite flush_result in Hr. discriminate.
Defined.
End SettledWitness.

Section ProducedWitness.
Import Codec.Demo Codec.CountableCodec RunnerDemo RunnerWorld.
(** An engine that builds an empty block at height 7. *)
#[local] Instance builder : EngineApi bool := {|
  engine_build fc a := mret (mk_built (array_fill 8 x00) (payload0 7) (array_of_N 32 7) 7 (a_timestamp a));
  engine_accept _ _ _ _ := mret tt;
  engine_finalize _ _ _ := mret tt;
  engine_head := throw (EDecode "no head");
  engine_block_number := throw (EDecode "no head");
  engine_block_by_number _ := mret None
|}.
#[local] Instance payload_json : Json ExecutionPayload := {|
  json_to_string_pretty p := Ok (fmt_dec (p_block_number p));
  json_from_str _ := Err "unused"
|}.
Definition demo_signer : Ed25519BlockSigner (array 32) := mk_signer (array_fill 32 x05).
Definition producing_world : RunnerWorld.t bool unit unit :=
  RunnerWorld.mk true tt tt (disk0 []) chain0 [] 0 None [].
Definition production :=
  produce_block (stores_at ["data"]) "0xfee" demo_signer true None producing_world.
Lemma production_ok : is_ok production.1 = true.
Proof. by vm_compute. Qed.

Lemma produced_block_is_durable_witness :
  let w' := production.2 in
  ∃ built unsigned sg st,
    payload_into_block built = Ok unsigned ∧
    let block := mk_Block (header unsigned) (data unsigned) (Some sg) in
    let h := height (header block) in
    verify (pub_key demo_signer) (signing_message (header block)) sg = Ok tt ∧
    view (BlockStore.get (block_store (stores_at ["data"])) h) (RunnerWorld.dsk w') = Ok block ∧
    (∃ l, markers_on ["data"] (RunnerWorld.dsk w') = Ok l ∧ h ∈ l) ∧
    view (StateStore.load (state_store (stores_at ["data"]))) (RunnerWorld.dsk w') = Ok (Some st) ∧
    StateStore.head st = fmt_b256 (block_hash built) ∧
    cs_head (RunnerWorld.mem w') = block_hash built ∧
    RunnerWorld.queue w' = [] ++ [mk_pending block (block_hash built) h] ∧
    RunnerWorld.log w' = [] ++ [RunnerWorld.Sent block; RunnerWorld.Announced (mk_announce h (digest block))].
Proof.
  pose proof (produced_block_is_durable ["data"] "0xfee" demo_signer true None producing_world
                production.2 production.1 I (surjective_pairing _)) as Hp.
  pose proof production_ok as Hok. destruct production.1 as [[]|]; [exact Hp|discriminate].
Defined.
End ProducedWitness.
