(* ===== verification/Lifecycle.v ===== *)
(** [Runner::run] of crates/node/src/runner.rs: the life of a sequencer
    process, from start to crash and restart.

    The production loop, the finalizer and the force-inclusion poller are tasks
    over one world; a process is the sequence of their operations, chosen by
    any schedule, with the outside changing in between.  A crash may fall
    between two operations, at a failing disk write inside one, or at the
    points of a flush where something was confirmed outside.  The next process
    starts from the disk alone. *)

From S2P Require Import Prelude Text Codec Disk Core Store Wire Contract Sui SuiInbox Deadline.
From S2P Require Import JsonValue Engine L2Rpc Config Tracker P2p Runner.
Local Open Scope string_scope.
Local Open Scope list_scope.
Local Open Scope N_scope.

(** ** The process *)

(** [lf_finalizer] is [None] while no process runs; [made] are the blocks the
    sequencer has taken on, by producing or by recovering them. *)
Record process (W : Type) := mk_process {
  lf_finalizer : option finalizer; made : list PendingBlock; world : W
}.
Arguments mk_process {W}. Arguments lf_finalizer {W}. Arguments made {W}. Arguments world {W}.

Section Start.
Context {W : Type} `{EngineApi W} `{HasDisk W} `{Runtime W} `{ChainMem W} `{Channel W}.
Context `{Hex} `{Bcs serde_block} `{Json PendingStore.PendingFile} `{Json StateStore.ChainState}
  `{Json ExecutionPayload}.

(** [run], up to its loop. *)
Definition run_start (s : Stores) (genesis_hash : option B256) : M W anyhow unit :=
  state ← initial_state s genesis_hash;
  modM (put_chain state);;
  modM (recover_pending s).
End Start.

Section Lifecycle.
Import RunnerWorld.
Context {E D SL PrivKey PubKey : Type} `{EngineApi E} `{DataAvailability D} `{SettlementLayer SL}
  `{InboxTransport SL} `{HasBudget SL} `{JsonHttp E}.
Context `{Ed25519 PrivKey PubKey} `{SuiSdk} `{Hex} `{Hashes}.
Context `{Bcs serde_block} `{Json PendingStore.PendingFile} `{Json StateStore.ChainState}
  `{Json InboxStore.InboxFile} `{Json ExecutionPayload}.
Context `{Bcs InboxBcs} `{Bcs FieldPendingBcs} `{Bcs FieldU64Bcs} `{Bcs FieldWindowBcs} `{Bcs ClockBcs}.
Abbreviation World := (RunnerWorld.t E D SL).

(** What [Runner::new] was given. *)
Context (dir : path) (genesis_hash : option B256) (fee : string) (signer : Ed25519BlockSigner PrivKey)
  (broadcaster : bool) (inbox : option InboxIntegration) (batch_size : N) (flush_after : option N).
Abbreviation s := (stores_at dir).

(** The outside moves on; the process's own state and files stay. *)
Definition outside (w w' : World) : Prop :=
  files (dsk w') = files (dsk w) ∧ dirs (dsk w') = dirs (dsk w) ∧ mem w' = mem w ∧
  queue w' = queue w ∧ log w' = log w ∧ stop_at w' = stop_at w ∧ clock w ≤ clock w'.

(** The worlds inside a flush of [batch] where something was confirmed: the
    batch is published; some of its blocks are settled; one more is committed
    on Sui; and it is finalized on the engine. *)
Inductive flush_point (batch : list PendingBlock) (w : World) : World → Prop :=
| at_published fuel blob w1 :
    publish_loop fuel 500 (pb_block <$> batch) w = Some (Some blob, w1) → flush_point batch w w1
| at_settled fuel blob k r w1 w2 :
    publish_loop fuel 500 (pb_block <$> batch) w = Some (Some blob, w1) →
    settle_loop fuel s inbox blob 0 (take k batch) w1 = Some (r, w2) → flush_point batch w w2
| at_committed fuel blob k p r w1 w2 w3 :
    publish_loop fuel 500 (pb_block <$> batch) w = Some (Some blob, w1) →
    settle_loop fuel s inbox blob 0 (take k batch) w1 = Some (r, w2) → batch !! k = Some p →
    settle_with_gate fuel inbox (pb_block p) blob w2 = Some (true, w3) → flush_point batch w w3
| at_finalized fuel blob k p r r' w1 w2 w3 w4 :
    publish_loop fuel 500 (pb_block <$> batch) w = Some (Some blob, w1) →
    settle_loop fuel s inbox blob 0 (take k batch) w1 = Some (r, w2) → batch !! k = Some p →
    settle_with_gate fuel inbox (pb_block p) blob w2 = Some (true, w3) →
    advance_finalized (pb_height p) (pb_hash p) w3 = (r', w4) → flush_point batch w w4.

(** A new process has an empty channel and no shutdown signal. *)
Definition new_process (w : World) : World :=
  mk (el w) (da w) (sl w) (dsk w) (mem w) [] (clock w) None (log w).

(** The conditions a schedule puts on a production and on a start. *)
Context (may_build may_start : World → Prop).

Inductive step : process World → process World → Prop :=
| Start m w w' :
    may_start w →
    run_start s genesis_hash (new_process w) = (Ok tt, w') →
    step (mk_process None m w) (mk_process (Some (mk_finalizer [] 0 (timer_new flush_after))) (m ++ queue w') w')
| StartFails m w e w' :
    run_start s genesis_hash (new_process w) = (Err e, w') → step (mk_process None m w) (mk_process None m w')
| Tick f m w r w' :
    shutting_down w = false → may_build w →
    produce_block s fee signer broadcaster inbox w = (r, w') →
    step (mk_process (Some f) m w) (mk_process (Some f) (m ++ drop (length (queue w)) (queue w')) w')
| Finalize fuel f f' m w (ends : bool) w' :
    finalizer_turn fuel s inbox batch_size f w = Some (ends, f', w') →
    step (mk_process (Some f) m w) (mk_process (if ends then None else Some f') m w')
| Poll i height f m w r w' :
    inbox = Some i → poll_pass i height w = (r, w') →
    step (mk_process (Some f) m w) (mk_process (Some f) m w')
| Signal f m w :
    step (mk_process (Some f) m w)
      (mk_process (Some f) m
         (mk (el w) (da w) (sl w) (dsk w) (mem w) (queue w) (clock w) (Some (clock w)) (log w)))
| Outside o m w w' : outside w w' → step (mk_process o m w) (mk_process o m w')
| Crash f m w : step (mk_process (Some f) m w) (mk_process None m w)
| CrashInFlush n f m w w' :
    flush_point (f_batch f ++ take n (queue w)) w w' →
    step (mk_process (Some f) m w) (mk_process None m w').
End Lifecycle.

(** ** What each operation leaves *)

Section Facts.
Import RunnerWorld.
Context {E D SL PrivKey PubKey : Type} `{EngineLaws E} `{DataAvailability D} `{SettlementLayer SL}
  `{InboxTransport SL} `{HasBudget SL} `{JsonHttp E}.
Context `{Ed25519Laws PrivKey PubKey} `{SuiSdk} `{Hex} `{Hashes}.
Context `{BcsLaws serde_block} `{JsonLaws PendingStore.PendingFile} `{JsonLaws StateStore.ChainState}
  `{Json InboxStore.InboxFile} `{JsonLaws ExecutionPayload}.
Context `{Bcs InboxBcs} `{Bcs FieldPendingBcs} `{Bcs FieldU64Bcs} `{Bcs FieldWindowBcs} `{Bcs ClockBcs}.
Abbreviation World := (RunnerWorld.t E D SL).
Context (dir : path).
Abbreviation s := (stores_at dir).

(** The inbox file is none of the others. *)
Lemma apart_quiet (w w' : World) : apart dir w w' → quiet dir w w'.
Proof.
  intros ([Hf Hd] & _ & Hq & Hl & Hc & Hs). split.
  - apply PendingFacts.pending_same. split; [|done].
    apply Hf; cbn; rewrite ?with_tmp_snoc; by intros ?%app_inv_head.
  - split_and!; [by rewrite Hl|lia|done..|]. eapply saved_kept; [by right; right|]. by split.
Qed.

Lemma outside_quiet (w w' : World) : outside w w' → quiet dir w w'.
Proof.
  intros (Hf & Hd & _ & Hq & Hl & Hs & Hc). split.
  - apply PendingFacts.pending_same. split; [by rewrite Hf|done].
  - split_and!; [by rewrite Hl|done..|]. by apply untouched_kept.
Qed.

(** Everything [w'] keeps of [w] while block [h] is being made: the other
    block files, the markers, and what was confirmed. *)
Definition grows (h : N) (w w' : World) : Prop :=
  (∀ h', BlockStore.block_path (block_store s) h' ≠ BlockStore.block_path (block_store s) h →
         same_file (BlockStore.block_path (block_store s) h') (dsk w) (dsk w')) ∧
  (∀ l, markers_on dir (dsk w) = Ok l → ∃ l', markers_on dir (dsk w') = Ok l' ∧ l ⊆ l') ∧
  log w ⊆ log w' ∧ clock w ≤ clock w' ∧ stop_at w' = stop_at w.
#[local] Instance grows_preorder h : PreOrder (grows h).
Proof.
  split.
  - intros w. split_and!; try done. intros l Hl. by exists l.
  - intros w1 w2 w3 (Hf & Hm & Hl & Hc & Hs) (Hf' & Hm' & Hl' & Hc' & Hs'). split_and!; [|..|lia|congruence].
    + intros h' Hne. destruct (Hf h' Hne), (Hf' h' Hne). split; congruence.
    + intros l (l' & Hl2 & Hsub)%Hm. apply Hm' in Hl2 as (l'' & ? & ?). exists l''. split; [done|by etrans].
    + by etrans.
Qed.

Lemma quiet_grows h (w w' : World) : quiet dir w w' → grows h w w'.
Proof.
  intros (Hm & Hl & Hc & Hs & _ & Hb). split_and!; try done.
  intros l Hl'. exists l. by rewrite Hm.
Qed.

Lemma grows_walk {A} h (w0 : World) (m : M World anyhow A) :
  (∀ w r w', m w = (r, w') → grows h w w') → preserves (grows h w0) m.
Proof.
  intros Hm w Hw. destruct (m w) as [r w'] eqn:Hr. apply Hm in Hr.
  assert (grows h w0 w') by (by etrans). by destruct r.
Qed.

Lemma put_grows b (w : World) r w' :
  on_store (BlockStore.put (block_store s) b) w = (r, w') → grows (height (header b)) w w'.
Proof.
  unfold on_store, errM, on_disk, zoom. cbn. destruct (BlockStore.put _ _ _) as [r0 d] eqn:Hp.
  intros [= _ <-]. apply BlockFacts.put_spec in Hp as (Hd & Hf & _). split_and!; try done; cbn.
  - intros h' Hne. split; [by apply Hf|done].
  - intros l Hl. exists l. split; [|done]. rewrite <- Hl. apply PendingFacts.pending_same.
    split; [|done]. apply Hf, not_eq_sym. by apply (stores_disjoint dir); left.
Qed.

Lemma mark_grows h0 h (w : World) r w' :
  on_store (PendingStore.mark (pending_store s) h) w = (r, w') → grows h0 w w'.
Proof.
  unfold on_store, errM, on_disk, zoom. cbn. destruct (PendingStore.mark _ _ _) as [r0 d] eqn:Hp.
  intros [= _ <-]. pose proof (PendingFacts.pending_mutate_frame (pending_store s) _ _ _ _ (snoc_ne _ _) Hp) as Hf.
  split_and!; try done; cbn.
  - intros h' _. eapply saved_kept; [by left|exact Hf].
  - intros l Hl. apply PendingFacts.pending_mutate_spec in Hp;
      [|apply snoc_ne|intros; by apply PendingFacts.insert_height_spec].
    unfold markers_on in *. destruct r0 as [[]|].
    + destruct Hp as (l0 & Hl0 & Ha & Hl'). assert (Ok l0 = Ok l) as [= ->] by exact (eq_trans (eq_sym Hl0) Hl).
      eexists. split; [exact Hl'|]. intros x Hx. apply PendingFacts.insert_height_spec; [done|]. by right.
    + exists l. split; [exact (eq_trans Hp Hl)|done].
Qed.

(** *** Production *)

Context (inbox : option InboxIntegration) (same_dir : inbox_in dir inbox).

Lemma grows_same h (w w' : World) :
  dsk w' = dsk w → log w ⊆ log w' → clock w' = clock w → stop_at w' = stop_at w → grows h w w'.
Proof.
  intros Hd Hl Hc Hs. split_and!; [intros; by rewrite Hd|..|done|lia|done].
  intros l Hl'. exists l. by rewrite Hd.
Qed.
Lemma grows_context {A} h c (w0 : World) (m : M World anyhow A) :
  preserves (grows h w0) m → preserves (grows h w0) (contextM c m).
Proof. apply preserves_errM. Qed.
Lemma grows_mod h (w0 : World) f :
  (∀ w : World, dsk (f w) = dsk w ∧ log w ⊆ log (f w) ∧ clock (f w) = clock w ∧ stop_at (f w) = stop_at w) →
  preserves (grows h w0) (modM f : M World anyhow unit).
Proof. intros Hf. apply grows_walk. intros w r w' [= _ <-]. destruct (Hf w) as (?&?&?&?). by apply grows_same. Qed.

Lemma grows_accept h (w0 : World) p x y z :
  preserves (grows h w0) (on_engine (engine_accept p x y z) : M World anyhow unit).
Proof.
  apply preserves_errM. intros w Hw. cbn. unfold on.
  destruct (engine_accept _ _ _ _ (el w)) as [[[]|] e]; etrans; [exact Hw|by apply grows_same|exact Hw|by apply grows_same].
Qed.
Lemma grows_converted {A} h (w0 : World) c built (k : Block → M World anyhow A) :
  (∀ b, payload_into_block built = Ok b → preserves (grows h w0) (k b)) →
  preserves (grows h w0) (contextM c (core (payload_into_block built)) ≫= k).
Proof.
  intros Hk w Hw. rewrite run_bind. unfold contextM, core, errM, lift.
  destruct (payload_into_block built); cbn; [by apply Hk|done].
Qed.
Lemma grows_observe h0 (w0 : World) txs h :
  preserves (grows h0 w0) (observe_block_inclusions inbox txs h : M World anyhow unit).
Proof.
  apply grows_walk. intros w r w' Hr. destruct (observe_inclusions_apart dir inbox txs h w same_dir) as (w1 & Ho & Ha).
  rewrite Ho in Hr. injection Hr as _ <-. by apply quiet_grows, apart_quiet.
Qed.

(** A run changes nothing, or only what belongs to the block it built. *)
Lemma produce_frame fee (signer : Ed25519BlockSigner PrivKey) broadcaster (w : World) r w' :
  produce_block s fee signer broadcaster inbox w = (r, w') →
  quiet dir w w' ∨
  ∃ built x, build_next s fee w w = (Ok built, x) ∧ grows (built_height built) w w'.
Proof.
  unfold produce_block. rewrite run_bind. cbv beta iota delta [getM].
  assert (∃ e, (build_next s fee w w).2 = put_el e w) as [e He].
  { unfold build_next. cbn. unfold on. destruct (engine_build _ _ _) as [[] e]; by exists e. }
  rewrite run_bind. unfold on_engine at 1, errM at 1.
  destruct (build_next s fee w w) as [[built|er] x] eqn:Hb; cbn in He; subst x; cbn [map_err].
  2:{ intros [= _ <-]. left. by apply quiet_same. }
  intros Hrun. right. exists built, (put_el e w). split; [done|].
  match type of Hrun with ?k _ = _ => assert (preserves (grows (built_height built) w) k) as Hp end.
  { apply preserves_bind; [apply grows_context, grows_accept|intros _].
    apply preserves_bind; [by apply grows_mod|intros _].
    apply preserves_bind; [by apply grows_mod|intros _].
    apply grows_converted. intros b Hpay. apply payload_header in Hpay as <-.
    apply preserves_bind; [apply preserves_lift|intros sg]. cbv zeta.
    apply preserves_bind; [apply grows_context, grows_walk; intros *; apply put_grows|intros _].
    apply preserves_bind; [apply grows_observe|intros _].
    apply preserves_bind; [apply grows_context, grows_walk; intros *; apply mark_grows|intros _].
    apply preserves_bind; [apply grows_walk; by intros v ? ? [= _ <-]|intros v].
    apply preserves_bind; [apply grows_walk; intros * Hs; by eapply quiet_grows, persist_quiet|intros _].
    apply preserves_bind; [|intros _; apply grows_walk; intros v' ? ? [= _ <-]; by apply grows_same].
    destruct broadcaster; [|apply preserves_ret].
    apply preserves_bind; [|intros _]; apply grows_mod; intros v'; split_and!; try done; apply note_log. }
  specialize (Hp (put_el e w) ltac:(by apply grows_same)). rewrite Hrun in Hp. by destruct r.
Qed.

(** *** The finalizer *)

(** The batch a turn works on, and the world once it has left the channel. *)
Definition drawn (f : finalizer) (w : World) (batch : list PendingBlock) (w0 : World) : Prop :=
  (w0 = w ∧ batch = f_batch f) ∨
  (∃ p q, queue w = p :: q ∧ w0 = put_queue q w ∧ batch = f_batch f ++ [p]).

(** A turn settles a prefix of its batch and keeps the rest, unless the
    sequencer is stopping; it ends only then. *)
Lemma turn_spec fuel bs f (w : World) ends f' w' :
  finalizer_turn fuel s inbox bs f w = Some (ends, f', w') →
  ∃ batch w0 dn rest,
    drawn f w batch w0 ∧ batch = dn ++ rest ∧ clears dir w0 w' dn ∧ Forall (settled_in (log w')) dn ∧
    (f_batch f' = rest ∨ f_batch f' = [] ∧ shutting_down w' = true) ∧
    (ends = true → shutting_down w' = true).
Proof.
  assert (∀ v, drawn f v (f_batch f) v) as Hd by (by left). unfold finalizer_turn.
  destruct (negb _ && shutting_down w) eqn:Hs.
  { intros [= <- <- <-]. apply andb_true_iff in Hs as [_ Hs]. pose proof (buffered_quiet dir (f_batch f) w) as Hq.
    assert (shutting_down (finalize_buffered_locally (f_batch f) w) = true).
    { eapply stopping_onward; [apply Hq|done]. }
    exists (f_batch f), w, [], (f_batch f). split_and!; try done; [by apply quiet_clears|by right]. }
  destruct (timer_due _ w).
  { destruct (flush_batch _ _ _ _ _ w) as [[[b n] w1]|] eqn:Hf; [|done]. intros [= <- <- <-].
    apply flush_clears in Hf as (dn & rest & Hb & Hc & Ha & Hr).
    by exists (f_batch f), w, dn, rest. }
  cbn [rx_recv rw_channel]. destruct (queue w) as [|p q] eqn:Hq.
  - destruct (stopping w) eqn:Hst.
    + destruct (flush_batch _ _ _ _ _ w) as [[[b n] w1]|] eqn:Hf; [|done]. intros [= <- <- <-].
      apply flush_clears in Hf as (dn & rest & Hb & Hc & Ha & Hr).
      pose proof (buffered_quiet dir b w1) as Hq1.
      assert (shutting_down (finalize_buffered_locally b w1) = true).
      { eapply stopping_onward; [apply Hq1|]. eapply stopping_onward; [apply Hc|done]. }
      exists (f_batch f), w, dn, rest. split_and!; try done; [| |by right].
      * rewrite <- (app_nil_r dn). eapply clears_trans; [exact Hc|by apply quiet_clears].
      * eapply Forall_impl; [exact Ha|]. intros x. apply settled_in_mono, Hq1.
    + intros [= <- <- <-]. exists (f_batch f), w, [], (f_batch f).
      split_and!; try done; [apply quiet_clears, sleep_quiet|by left].
  - assert (drawn f w (f_batch f ++ [p]) (put_queue q w)) as Hdr by (right; by exists p, q).
    destruct (bs <=? _).
    + destruct (flush_batch _ _ _ _ _ _) as [[[b n] w1]|] eqn:Hf; [|done]. intros [= <- <- <-].
      apply flush_clears in Hf as (dn & rest & Hb & Hc & Ha & Hr).
      by exists (f_batch f ++ [p]), (put_queue q w), dn, rest.
    + intros [= <- <- <-]. exists (f_batch f ++ [p]), (put_queue q w), [], (f_batch f ++ [p]).
      split_and!; try done; [by apply quiet_clears|by left].
Qed.

(** *** Recovery *)

(** What a start makes of a pending height. *)
Definition recovered (d : disk) (h : N) : option PendingBlock :=
  match view (BlockStore.get (block_store s) h) d with
  | Ok b => match decode_block_hash (data b) with Ok hash => Some (mk_pending b hash h) | Err _ => None end
  | Err _ => None
  end.
Lemma recovered_kept d d' h : blocks_kept dir d d' → recovered d' h = recovered d h.
Proof. intros Hb. unfold recovered. by rewrite (BlockFacts.get_same _ _ _ _ (Hb h)). Qed.

Lemma view_sound {A} (m : M disk StoreError A) (w : World) :
  sound_disk (dsk w) → (on_store m w).1 = map_err (λ e, [store_error_text e]) (view m (dsk w)).
Proof.
  unfold on_store, errM, on_disk, zoom, view, restart, sound_disk. cbn.
  destruct (dsk w) as [fs ds flt]. cbn. intros ->. by destruct (m _).
Qed.

Lemma looks_quiet {A} (m : M disk StoreError A) (w : World) r w' :
  looks m → on_store m w = (r, w') →
  quiet dir w w' ∧ log w' = log w ∧ dsk w' = (m (dsk w)).2 ∧ (sound_disk (dsk w) → sound_disk (dsk w')).
Proof.
  intros [Hr Hs]. unfold on_store, errM, on_disk, zoom. cbn.
  destruct (m (dsk w)) as [r0 d] eqn:Hm. intros [= _ <-]. cbn. apply Hr in Hm as Hd. split_and!; try done.
  - apply (reads_quiet dir m w (map_err TStore r0)); [done|]. unfold stored, errM, on_disk, zoom. cbn. by rewrite Hm.
  - intros Hw. specialize (Hs _ Hw). rewrite Hm in Hs. by destruct r0.
Qed.
Lemma get_looks h : looks (BlockStore.get (block_store s) h).
Proof. unfold BlockStore.get, serde. look. Qed.
Lemma pending_looks : looks (PendingStore.pending (pending_store s)).
Proof. unfold PendingStore.pending, PendingStore.load_raw, serde. look. Qed.

(** Clearing the marker of [h]. *)
Lemma drop_spec h (w : World) l :
  sound_disk (dsk w) → markers_on dir (dsk w) = Ok l →
  let w' := drop_marker s h w in
  sound_disk (dsk w') ∧ onward dir w w' ∧
  ∃ l', markers_on dir (dsk w') = Ok l' ∧ ∀ x, x ∈ l → x = h ∨ x ∈ l'.
Proof.
  intros Hs Hl. unfold drop_marker, on_store, errM, on_disk, zoom. cbn.
  destruct (PendingStore.clear _ _ _) as [r d] eqn:Hc. cbn.
  pose proof (PendingFacts.pending_mutate_frame (pending_store s) _ _ _ _ (snoc_ne _ _) Hc) as Hf.
  split; [|split].
  - assert (preserves sound_disk (PendingStore.clear (pending_store s) h)) as Hp.
    { unfold PendingStore.clear, PendingStore.mutate, PendingStore.save_raw, serde.
      apply preserves_bind; [|intros raw; apply preserves_bind; [apply preserves_lift|intros text]].
      - enough (looks (PendingStore.load_raw (pending_store s))) as [] by done.
        unfold PendingStore.load_raw, serde. look.
      - apply preserves_errM, write_atomic_sound. }
    specialize (Hp _ Hs). cbn in Hp, Hc. rewrite Hc in Hp. by destruct r.
  - split_and!; try done. eapply saved_kept; [by left|exact Hf].
  - apply PendingFacts.pending_mutate_spec in Hc;
      [|apply snoc_ne|intros; by apply PendingFacts.remove_height_spec].
    destruct r as [[]|].
    + destruct Hc as (l0 & Hl0 & Ha & Hl'). assert (Ok l0 = Ok l) as [= ->] by exact (eq_trans (eq_sym Hl0) Hl).
      eexists. split; [exact Hl'|]. intros x Hx. destruct (decide (x = h)) as [->|]; [by left|right].
      by apply PendingFacts.remove_height_spec.
    + exists l. split; [exact (eq_trans Hc Hl)|]. by right.
Qed.

(** On a sound disk every recoverable height is queued, in order, and keeps
    its marker. *)
Lemma requeue_spec hs (w : World) l :
  sound_disk (dsk w) → markers_on dir (dsk w) = Ok l →
  let w' := requeue s hs w in
  queue w' = queue w ++ omap (recovered (dsk w)) hs ∧ blocks_kept dir (dsk w) (dsk w') ∧
  log w ⊆ log w' ∧ stop_at w' = stop_at w ∧
  ∃ l', markers_on dir (dsk w') = Ok l' ∧ ∀ x, x ∈ l → x ∈ l' ∨ recovered (dsk w) x = None.
Proof.
  revert w l. induction hs as [|h hs IH]; intros w l Hs Hl; cbn [requeue omap list_omap].
  { rewrite app_nil_r. split_and!; try done. exists l. auto. }
  pose proof (view_sound (BlockStore.get (block_store s) h) w Hs) as Hv.
  destruct (on_store _ w) as [r w1] eqn:Hg. apply looks_quiet in Hg as (Hq & _ & _ & Hs1); [|apply get_looks].
  destruct Hq as [Hm (Hlog & _ & Hst & Hque & Hb)]. specialize (Hs1 Hs). rewrite <- Hm in Hl.
  assert (∀ x, recovered (dsk w1) x = recovered (dsk w) x) as Hrec by (intros; by apply recovered_kept).
  assert (recovered (dsk w) h =
    match r with Ok b => match decode_block_hash (data b) with Ok hash => Some (mk_pending b hash h) | Err _ => None end
               | Err _ => None end) as Hrh.
  { unfold recovered. cbn in Hv. subst r. by destruct (view _ _). }
  assert (recovered (dsk w) h = None →
          let w' := requeue s hs (drop_marker s h w1) in
          queue w' = queue w ++ omap (recovered (dsk w)) (h :: hs) ∧ blocks_kept dir (dsk w) (dsk w') ∧
          log w ⊆ log w' ∧ stop_at w' = stop_at w ∧
          ∃ l', markers_on dir (dsk w') = Ok l' ∧ ∀ x, x ∈ l → x ∈ l' ∨ recovered (dsk w) x = None) as Hdrop.
  { intros Hnone. destruct (drop_spec h w1 l Hs1 Hl) as (Hs2 & (Hlog2 & _ & Hst2 & Hque2 & Hb2) & l2 & Hl2 & Hx).
    destruct (IH _ _ Hs2 Hl2) as (Hque' & Hb' & Hlog' & Hst' & l' & Hl' & Hx').
    assert (∀ x, recovered (dsk (drop_marker s h w1)) x = recovered (dsk w) x) as Hrec2.
    { intros x. by rewrite <- Hrec; apply recovered_kept. }
    split_and!.
    - rewrite Hque', Hque2, Hque. cbn. rewrite Hnone. f_equal. apply list_omap_ext, Forall2_same_length_lookup.
      split; [done|]. intros i x y ??; simplify_eq. apply Hrec2.
    - by etrans; [exact Hb|etrans].
    - by etrans; [exact Hlog|etrans].
    - congruence.
    - exists l'. split; [done|]. intros x [->|[?|Hn]%Hx']%Hx; [by right|by left|right]. by rewrite <- Hrec2. }
  cbn [omap list_omap] in *. rewrite Hrh in *. destruct r as [b|e]; [|by apply Hdrop].
  destruct (decode_block_hash _) as [hash|]; [|by apply Hdrop]. clear Hdrop.
  destruct (IH (put_queue (queue w1 ++ [mk_pending b hash h]) w1) l Hs1 Hl)
    as (Hque' & Hb' & Hlog' & Hst' & l' & Hl' & Hx'). cbn in *. split_and!.
  - rewrite Hque', Hque. rewrite <- app_assoc. f_equal. cbn. f_equal.
    apply list_omap_ext, Forall2_same_length_lookup. split; [done|]. intros i x y ??; simplify_eq. apply Hrec.
  - by etrans; [exact Hb|].
  - by etrans; [exact Hlog|].
  - congruence.
  - exists l'. split; [done|]. intros x [?|Hn]%Hx'; [by left|right]. by rewrite <- Hrec.
Qed.

Lemma initial_quiet genesis (w : World) r w' :
  initial_state s genesis w = (r, w') → quiet dir w w' ∧ (sound_disk (dsk w) → sound_disk (dsk w')).
Proof.
  unfold initial_state. rewrite run_bind. unfold contextM at 1, errM at 1.
  destruct (on_store _ w) as [r1 w1] eqn:Hl. apply looks_quiet in Hl as (Hq & _ & _ & Hs); [|apply StateFacts.load_looks].
  destruct r1 as [o|e]; cbn [map_err]; [|by intros [= _ <-]].
  rewrite run_bind. cbv beta iota delta [getM]. destruct o; [by intros [= _ <-]|].
  destruct genesis; [by intros [= _ <-]|]. rewrite run_bind. unfold contextM, on_engine, errM. cbn. unfold on.
  assert (∀ e, quiet dir w (put_el e w1)) as Hput by (intros e; etrans; [exact Hq|by apply quiet_same]).
  destruct (engine_head (el w1)) as [[[h n]|e] x]; intros [= _ <-]; (split; [apply Hput|exact Hs]).
Qed.

(** A start that finds a sound disk queues what it can recover. *)
Lemma start_spec genesis (w : World) w' l :
  sound_disk (dsk w) → markers_on dir (dsk w) = Ok l →
  run_start s genesis w = (Ok tt, w') →
  queue w' = queue w ++ omap (recovered (dsk w)) l ∧ blocks_kept dir (dsk w) (dsk w') ∧
  log w ⊆ log w' ∧ stop_at w' = stop_at w ∧
  ∃ l', markers_on dir (dsk w') = Ok l' ∧ ∀ x, x ∈ l → x ∈ l' ∨ recovered (dsk w) x = None.
Proof.
  intros Hs Hl Hrun. unfold run_start in Hrun. apply bind_ok_inv in Hrun as (st & w1 & Hi & Hrun).
  apply initial_quiet in Hi as [[Hm (Hlog & _ & Hst & Hq & Hb)] Hs1]. specialize (Hs1 Hs).
  rewrite <- Hm in Hl. rewrite run_bind in Hrun. cbn [modM] in Hrun. injection Hrun as <-.
  unfold recover_pending. set (w2 := put_mem st w1).
  pose proof (view_sound (PendingStore.pending (pending_store s)) w2 Hs1) as Hv.
  destruct (on_store _ w2) as [r w3] eqn:Hp. cbn [fst] in Hv.
  apply looks_quiet in Hp as ([Hm3 (Hlog3 & _ & Hst3 & Hq3 & Hb3)] & _ & _ & Hs3); [|apply pending_looks].
  assert (view (PendingStore.pending (pending_store s)) (dsk w2) = Ok l) as Hl2 by exact Hl.
  rewrite Hl2 in Hv. subst r. specialize (Hs3 Hs1). cbn in Hm3.
  assert (markers_on dir (dsk w3) = Ok l) as Hl3 by (by rewrite Hm3).
  destruct (requeue_spec l w3 l Hs3 Hl3) as (Hq4 & Hb4 & Hlog4 & Hst4 & l' & Hl' & Hx).
  assert (blocks_kept dir (dsk w) (dsk w3)) as Hb13 by (etrans; [exact Hb|exact Hb3]).
  assert (∀ x, recovered (dsk w3) x = recovered (dsk w) x) as Hrec by (intros; by apply recovered_kept).
  split_and!.
  - cbn [map_err]. rewrite Hq4, Hq3. cbn. rewrite Hq. f_equal. apply list_omap_ext, Forall2_same_length_lookup.
    split; [done|]. intros i x y ??; simplify_eq. apply Hrec.
  - by etrans; [exact Hb13|].
  - etrans; [exact Hlog|]. by etrans; [exact Hlog3|].
  - cbn in Hst3. cbn [map_err]. congruence.
  - exists l'. split; [done|]. intros x [?|Hn]%Hx; [by left|right]. by rewrite <- Hrec.
Qed.

(** ** No produced block is lost *)

(** What the sequencer answers for. *)
Definition held (d : disk) (p : PendingBlock) : Prop :=
  view (BlockStore.get (block_store s) (pb_height p)) d = Ok (pb_block p) ∧
  decode_block_hash (data (pb_block p)) = Ok (pb_hash p).

Record kept (σ : process World) : Prop := mk_kept {
  kept_held : ∀ p, p ∈ made σ → held (dsk (world σ)) p;
  kept_marked : ∃ l, markers_on dir (dsk (world σ)) = Ok l ∧
    ∀ p, p ∈ made σ → settled_in (log (world σ)) p ∨ pb_height p ∈ l;
  kept_ours : ∀ f p, lf_finalizer σ = Some f → p ∈ f_batch f ++ queue (world σ) → p ∈ made σ;
  kept_queued : ∀ f p, lf_finalizer σ = Some f → shutting_down (world σ) = false → p ∈ made σ →
    settled_in (log (world σ)) p ∨ p ∈ f_batch f ++ queue (world σ)
}.

(** One block per height. *)
Lemma held_unique d p q : held d p → held d q → pb_height p = pb_height q → p = q.
Proof.
  intros [Hp Hdp] [Hq Hdq] Hh. rewrite Hh, Hq in Hp. injection Hp as Hb.
  rewrite Hb in Hdq. rewrite Hdp in Hdq. injection Hdq as Hhash.
  destruct p, q. cbn in *. congruence.
Qed.
Lemma held_kept d d' p : blocks_kept dir d d' → held d p → held d' p.
Proof. intros Hb [Hg Hd]. split; [|done]. by rewrite (BlockFacts.get_same _ _ _ _ (Hb _)). Qed.

(** The engine builds at a height that is not stored yet. *)
Definition builds_fresh fee (w : World) : Prop :=
  ∀ built x, build_next s fee w w = (Ok built, x) →
    BlockStore.has (block_store s) (built_height built) (dsk w) = false.

Definition safe (w : World) (m : list PendingBlock) : Prop :=
  (∀ p, p ∈ m → held (dsk w) p) ∧
  ∃ l, markers_on dir (dsk w) = Ok l ∧ ∀ p, p ∈ m → settled_in (log w) p ∨ pb_height p ∈ l.

(** Clearing the markers of settled blocks keeps the others safe. *)
Lemma safe_clears (w w' : World) m dn :
  safe w m → clears dir w w' dn → Forall (settled_in (log w')) dn → (∀ p, p ∈ dn → p ∈ m) → safe w' m.
Proof.
  intros (Hh & l & Hl & Hm) [(Hlog & _ & _ & _ & Hb) Hcl] Hset Hsub. split.
  { intros p Hp. eapply held_kept; [exact Hb|auto]. }
  destruct (Hcl l Hl) as (l' & Hl' & Hx). exists l'. split; [done|]. intros p Hp.
  destruct (Hm p Hp) as [Hs|Hin]; [left; by eapply settled_in_mono|].
  destruct (decide (pb_height p ∈ l')) as [?|Hn]; [by right|left].
  pose proof (proj2 (Hx _) Hin Hn) as (q & Hhq & Hq)%list_elem_of_fmap.
  rewrite (held_unique (dsk w) p q); [|auto|auto|done]. rewrite Forall_forall in Hset. auto.
Qed.
Lemma safe_quiet (w w' : World) m : safe w m → quiet dir w w' → safe w' m.
Proof. intros Hs Hq. eapply safe_clears; [done|by apply quiet_clears|constructor|]. by intros p ?%not_elem_of_nil. Qed.

Lemma kept_safe o m (w : World) : kept (mk_process o m w) → safe w m.
Proof. intros [Hh Hm _ _]. by split. Qed.
Lemma stopped_kept m (w : World) : safe w m → kept (mk_process None m w).
Proof. intros [Hh Hm]. by split. Qed.

Lemma still_running (w w' : World) : onward dir w w' → shutting_down w' = false → shutting_down w = false.
Proof.
  intros Ho Hs. destruct (shutting_down w) eqn:Hw; [|done].
  by rewrite (stopping_onward _ _ _ Ho Hw) in Hs.
Qed.

Lemma kept_quiet o m (w w' : World) :
  kept (mk_process o m w) → quiet dir w w' → kept (mk_process o m w').
Proof.
  intros Hk Hq. destruct (safe_quiet _ _ _ (kept_safe _ _ _ Hk) Hq) as [Hh Hm].
  destruct Hk as [_ _ Ho Hd], Hq as [_ Hon]. pose proof Hon as (Hlog & _ & _ & Hqu & _).
  split; [done|done|..]; cbn in *; rewrite Hqu; [done|]. intros f p Hf Hr Hp.
  destruct (Hd f p Hf (still_running _ _ Hon Hr) Hp); [left; by eapply settled_in_mono|by right].
Qed.

Lemma kept_turn f f' m (w w' : World) fuel bs (ends : bool) :
  kept (mk_process (Some f) m w) → finalizer_turn fuel s inbox bs f w = Some (ends, f', w') →
  kept (mk_process (if ends then None else Some f') m w').
Proof.
  intros Hk (batch & w0 & dn & rest & Hd & Hb & Hc & Hset & Hr & He)%turn_spec.
  pose proof (kept_safe _ _ _ Hk) as Hsafe. destruct Hk as [_ _ Ho Hq]. cbn in *.
  assert (safe w0 m ∧ log w0 = log w ∧ shutting_down w0 = shutting_down w ∧
          batch ++ queue w0 = f_batch f ++ queue w) as (Hs0 & Hl0 & Hst0 & Hbq).
  { destruct Hd as [[-> ->]|(p & q & Hqw & -> & ->)]; [done|]. cbn.
    rewrite Hqw, <- app_assoc. done. }
  assert (∀ p, p ∈ dn → p ∈ m) as Hsub.
  { intros p Hp. apply (Ho f p eq_refl). rewrite <- Hbq, Hb, !elem_of_app. auto. }
  destruct (safe_clears _ _ _ _ Hs0 Hc Hset Hsub) as [Hh Hm]. destruct Hc as [Hon _].
  pose proof Hon as (Hlog & _ & _ & Hqu & _).
  destruct ends; [by apply stopped_kept|]. split; [done|done|..]; cbn; intros ? p [= <-].
  - rewrite Hqu, elem_of_app. intros Hp. apply (Ho f p eq_refl). rewrite <- Hbq, Hb, !elem_of_app.
    destruct Hr as [Hr|[Hr _]]; rewrite Hr in Hp; [naive_solver|].
    destruct Hp as [Hp|Hp]; [by apply not_elem_of_nil in Hp|auto].
  - intros Hrun Hp. destruct Hr as [->|[_ Hr]]; [|by rewrite Hr in Hrun].
    pose proof (still_running _ _ Hon Hrun) as Hrw. rewrite Hst0 in Hrw.
    destruct (Hq f p eq_refl Hrw Hp) as [?|Hin].
    + left. eapply settled_in_mono; [exact Hlog|]. by rewrite Hl0.
    + rewrite <- Hbq, Hb, !elem_of_app in Hin. rewrite elem_of_app, Hqu.
      destruct Hin as [[Hin|?]|?]; [left|by right; left|by right; right].
      rewrite Forall_forall in Hset. auto.
Qed.

(** A crash inside a flush comes after a settled prefix of it. *)
Lemma flush_point_clears batch (w w' : World) :
  flush_point dir inbox batch w w' →
  ∃ dn, clears dir w w' dn ∧ Forall (settled_in (log w')) dn ∧ ∀ p, p ∈ dn → p ∈ batch.
Proof.
  assert (∀ blob k r fuel w1 w2, publish_loop fuel 500 (pb_block <$> batch) w = Some (Some blob, w1) →
    settle_loop fuel s inbox blob 0 (take k batch) w1 = Some (r, w2) →
    ∃ dn, clears dir w w2 dn ∧ Forall (settled_in (log w2)) dn ∧ ∀ p, p ∈ dn → p ∈ batch) as Hsettled.
  { intros blob k [b n] fuel w1 w2 Hp Hs. apply (publish_quiet dir) in Hp as [Hq Hpub].
    apply settle_loop_clears in Hs as (dn & rest & Hb & Hc & Hall & _).
    assert (∀ p, p ∈ dn → p ∈ batch) as Hsub.
    { intros p Hp. rewrite <- (take_drop k batch), Hb, !elem_of_app. auto. }
    exists dn. split; [by eapply quiet_clears_trans|]. split; [|done].
    rewrite Forall_forall in Hall |- *. intros p Hp. destruct (Hall p Hp).
    exists blob, (pb_block <$> batch). split_and!; try done; [by apply Hc|].
    apply list_elem_of_fmap. eauto. }
  assert (∀ w2 w3, (∃ dn, clears dir w w2 dn ∧ Forall (settled_in (log w2)) dn ∧ ∀ p, p ∈ dn → p ∈ batch) →
    quiet dir w2 w3 →
    ∃ dn, clears dir w w3 dn ∧ Forall (settled_in (log w3)) dn ∧ ∀ p, p ∈ dn → p ∈ batch) as Hthen.
  { intros w2 w3 (dn & Hc & Hall & Hsub) Hq. exists dn. split; [|split; [|done]].
    - rewrite <- (app_nil_r dn). eapply clears_trans; [exact Hc|by apply quiet_clears].
    - eapply Forall_impl; [exact Hall|]. intros p. apply settled_in_mono, Hq. }
  destruct 1 as [??? Hp|?????? Hp Hs|???????? Hp Hs _ Hg|?????????? Hp Hs _ Hg Ha].
  - apply (publish_quiet dir) in Hp as [Hq _]. exists []. split_and!; [by apply quiet_clears|done|].
    by intros p ?%not_elem_of_nil.
  - by eapply Hsettled.
  - apply (settle_quiet dir) in Hg as [Hq _]. eauto.
  - apply (settle_quiet dir) in Hg as [Hq _]. apply (advance_quiet dir) in Ha as [Hq' _]. eauto.
Qed.

Lemma recovered_held d h p : recovered d h = Some p ↔ held d p ∧ pb_height p = h.
Proof.
  unfold recovered, held. destruct p as [b hash n]. cbn [pb_height pb_block pb_hash]. split.
  - destruct (view _ _) as [b'|] eqn:Hg; [|done]. destruct (decode_block_hash _) eqn:Hd; [|done].
    by intros [= -> -> ->].
  - intros [[Hg Hd] <-]. by rewrite Hg, Hd.
Qed.

Lemma kept_start genesis flush_after m (w w' : World) :
  kept (mk_process None m w) → sound_disk (dsk w) →
  run_start s genesis (new_process w) = (Ok tt, w') →
  kept (mk_process (Some (mk_finalizer [] 0 (timer_new flush_after))) (m ++ queue w') w').
Proof.
  intros Hk Hs Hrun. destruct (kept_safe _ _ _ Hk) as (Hh & l & Hl & Hm).
  apply (start_spec _ _ _ l) in Hrun as (Hq & Hb & Hlog & _ & l' & Hl' & Hx); [|done..]. cbn in *.
  assert (∀ p, p ∈ queue w' → held (dsk w) p ∧ pb_height p ∈ l) as Hqh.
  { intros p. rewrite Hq. intros (h & Hhl & Hr)%list_elem_of_omap. apply recovered_held in Hr as [? ->]. done. }
  assert (∀ p, held (dsk w) p → pb_height p ∈ l → p ∈ queue w' ∧ pb_height p ∈ l') as Hback.
  { intros p Hp Hin. assert (recovered (dsk w) (pb_height p) = Some p) as Hr by by apply recovered_held.
    split; [rewrite Hq; apply list_elem_of_omap; eauto|]. destruct (Hx _ Hin); [done|congruence]. }
  split; cbn.
  - intros p [?|Hp]%elem_of_app; (eapply held_kept; [exact Hb|]); [auto|by apply Hqh].
  - exists l'. split; [done|]. intros p [Hp|Hp]%elem_of_app.
    + destruct (Hm p Hp); [left; by eapply settled_in_mono|right; apply Hback; auto].
    + right. apply Hback; by apply Hqh.
  - intros f p [= <-] Hp. apply elem_of_app. by right.
  - intros f p [= <-] _ [Hp|Hp]%elem_of_app; [|by right].
    destruct (Hm p Hp); [left; by eapply settled_in_mono|right; apply Hback; auto].
Qed.

(** *** A tick *)

Lemma held_stored d p : held d p → BlockStore.has (block_store s) (pb_height p) d = true.
Proof.
  intros [Hg _]. rewrite BlockFacts.view_get in Hg. unfold BlockStore.has. by destruct (fs_exists _ _).
Qed.

(** Growing beside the stored blocks keeps them. *)
Lemma grows_safe h m (w w' : World) :
  safe w m → grows h w w' → BlockStore.has (block_store s) h (dsk w) = false → safe w' m.
Proof.
  intros (Hh & l & Hl & Hm) (Hf & Hmk & Hlog & _) Hfresh. split.
  - intros p Hp. destruct (Hh p Hp) as [Hg Hd]. split; [|done]. rewrite <- Hg. apply BlockFacts.get_same, Hf.
    intros Heq. pose proof (held_stored _ _ (Hh p Hp)) as Hst. unfold BlockStore.has in *. congruence.
  - apply Hmk in Hl as (l' & Hl' & Hsub). exists l'. split; [done|]. intros p Hp.
    destruct (Hm p Hp); [left; by eapply settled_in_mono|right; by apply Hsub].
Qed.

(** The block that was sent is the one on disk, under the hash that recovery
    would read. *)
Lemma produced_held fee (signer : Ed25519BlockSigner PrivKey) broadcaster (w w' : World) :
  produce_block s fee signer broadcaster inbox w = (Ok tt, w') →
  ∃ p, queue w' = queue w ++ [p] ∧ held (dsk w') p ∧
       ∃ l, markers_on dir (dsk w') = Ok l ∧ pb_height p ∈ l.
Proof.
  intros Hrun. apply produce_steps in Hrun
    as (built & b & sg & st & d1 & d1' & d2 & d3 & w1 & Hbuild & Hb & _ & Hput & Hin & Hmark & Hsave & _ & <- & _ & Hq & _);
    [|done].
  destruct (persisted_spec dir _ _ _ _ _ _ _ Hput Hin Hmark Hsave) as (Hget & _ & Hmk).
  eexists. split; [exact Hq|]. split; [|exact Hmk]. split; [exact Hget|]. cbn [pb_block pb_hash data].
  unfold payload_into_block in Hb. apply result_bind_ok in Hb as (text & Ht & [= <-]). cbn [data].
  destruct (json_to_string_pretty (payload built)) as [t|] eqn:Hj; [|done]. injection Ht as ->.
  unfold decode_block_hash. rewrite (json_utf8 _ _ Hj). cbn. rewrite (json_roundtrip _ _ Hj). cbn.
  unfold build_next in Hbuild. cbn in Hbuild. unfold on in Hbuild.
  destruct (engine_build _ _ (el w)) as [[bp|] x] eqn:He; [|done]. injection Hbuild as -> _.
  apply engine_build_fields in He as [-> _]. done.
Qed.

Lemma kept_tick fee (signer : Ed25519BlockSigner PrivKey) broadcaster f m (w w' : World) r :
  kept (mk_process (Some f) m w) → shutting_down w = false → builds_fresh fee w →
  produce_block s fee signer broadcaster inbox w = (r, w') →
  kept (mk_process (Some f) (m ++ drop (length (queue w)) (queue w')) w').
Proof.
  intros Hk Hrun Hfresh Hp.
  assert (safe w' m ∧ log w ⊆ log w') as [[Hh (l & Hl & Hm)] Hlog].
  { apply produce_frame in Hp as [Hq|(built & x & Hb & Hg)].
    - split; [eapply safe_quiet; [by eapply kept_safe|done]|apply Hq].
    - split; [|apply Hg]. eapply grows_safe; [by eapply kept_safe|done|by eapply Hfresh]. }
  assert (∃ new, queue w' = queue w ++ new ∧
            ∀ p, p ∈ new → held (dsk w') p ∧ pb_height p ∈ l) as (new & Hq & Hnew).
  { destruct r as [[]|e].
    - apply produced_held in Hp as (p & Hq & Hhp & l' & Hl' & Hin). exists [p]. split; [done|].
      intros q ->%list_elem_of_singleton. rewrite Hl in Hl'. by injection Hl' as <-.
    - apply produce_fails_mute in Hp as [_ Hq]; [|done]. exists []. rewrite app_nil_r.
      split; [done|]. by intros p ?%not_elem_of_nil. }
  rewrite Hq, drop_app_length. destruct Hk as [_ _ Ho Hd]. cbn in *. split; cbn.
  - intros p [?|?]%elem_of_app; [auto|by apply Hnew].
  - exists l. split; [done|]. intros p [?|?]%elem_of_app; [auto|right; by apply Hnew].
  - intros ? p [= <-]. rewrite Hq, !elem_of_app. intros [?|[?|?]]; [left|left|by right]; apply (Ho f p eq_refl);
      rewrite elem_of_app; auto.
  - intros ? p [= <-] _. rewrite Hq, !elem_of_app. intros [Hin|?]; [|auto].
    destruct (Hd f p eq_refl Hrun Hin) as [?|Hin']; [left; by eapply settled_in_mono|].
    apply elem_of_app in Hin'. naive_solver.
Qed.

(** *** The poller *)

Lemma apart_outer {X Er A} (get : World → X) put (m : M X Er A) (w0 : World) :
  (∀ x w, apart dir w (put x w)) → preserves (apart dir w0) (on get put m (λ _, None)).
Proof.
  intros Hp w Hw. unfold on. destruct (m (get w)) as [[a|] x]; exact (transitivity Hw (Hp x w)).
Qed.
Lemma apart_el (x : E) (w : World) : apart dir w (put_el x w).
Proof. by split_and!. Qed.
Lemma apart_sl (x : SL) (w : World) : apart dir w (put_sl x w).
Proof. by split_and!. Qed.
Lemma apart_budget {Er} n (w0 : World) : preserves (apart dir w0) (modM (E := Er) (set_deadline_blocks n)).
Proof. intros w Hw. exact (transitivity Hw (apart_sl (set_deadline_blocks n (sl w)) w)). Qed.
Lemma apart_optional {A} (m : M World InboxError (list byte)) (p : list byte → result InboxError A) (w0 : World) :
  preserves (apart dir w0) m → preserves (apart dir w0) (optional_field m p).
Proof. intros Hm w Hw. specialize (Hm w Hw). unfold optional_field. destruct (m w) as [[a|[]] w1]; try destruct (p a); done. Qed.
Lemma apart_getM {Er} (w0 : World) : preserves (apart dir w0) (getM (E := Er)).
Proof. by intros w Hw. Qed.

Ltac apart_walk := walk_with ltac:(idtac; first
  [ apply apart_getM | apply apart_budget | apply apart_outer; intros; first [apply apart_el|apply apart_sl]
  | apply apart_optional | apply apart_mutate; [assumption] | apply apart_snapshot
  | apply apart_reads; [look] ]).

Context (i : InboxIntegration) (Hi : tr_store (tracker i) = InboxStore.new dir).

Lemma sync_loop_apart tracked table h d ns (w0 : World) :
  preserves (apart dir w0) (sync_loop (tracker i) tracked table h d ns).
Proof.
  induction ns as [|n ns IH]; cbn [sync_loop]; [apply preserves_ret|].
  apply preserves_bind; [|intros o; apply preserves_bind; [exact IH|intros; apply preserves_ret]].
  unfold sync_one, transport. apart_walk.
Qed.
Lemma sync_apart h (w0 : World) : preserves (apart dir w0) (sync (tracker i) h).
Proof.
  unfold sync, refresh_window, SuiInbox.window, transport.
  do 4 (apply preserves_bind; [apart_walk|intros ?]). apply preserves_bind; [apart_walk|intros ?].
  apply sync_loop_apart.
Qed.
Lemma poll_one_apart sub (w0 : World) : preserves (apart dir w0) (poll_one i sub).
Proof.
  unfold poll_one, eth_get_transaction_receipt_height, eth_send_raw_transaction, rpc_call,
    observe_inclusion, as_anyhow, contextM. apart_walk.
Qed.
Lemma poll_apart h (w : World) r w' : poll_pass i h w = (r, w') → apart dir w w'.
Proof.
  intros Hp. enough (preserves (apart dir w) (poll_pass i h)) as Hk.
  { specialize (Hk w ltac:(done)). rewrite Hp in Hk. by destruct r. }
  unfold poll_pass, as_anyhow. apply preserves_bind; [apply preserves_errM, sync_apart|intros _].
  apply preserves_bind; [unfold pending_submissions; apart_walk|intros l].
  induction l as [|x l IH]; cbn [poll_all]; [apply preserves_ret|].
  apply preserves_bind; [apply poll_one_apart|by intros _].
Qed.
End Facts.

(** *** Every step keeps every block *)

Section Steps.
Import RunnerWorld.
Context {E D SL PrivKey PubKey : Type} `{EngineLaws E} `{DataAvailability D} `{SettlementLayer SL}
  `{InboxTransport SL} `{HasBudget SL} `{JsonHttp E}.
Context `{Ed25519Laws PrivKey PubKey} `{SuiSdk} `{Hex} `{Hashes}.
Context `{BcsLaws serde_block} `{JsonLaws PendingStore.PendingFile} `{JsonLaws StateStore.ChainState}
  `{Json InboxStore.InboxFile} `{JsonLaws ExecutionPayload}.
Context `{Bcs InboxBcs} `{Bcs FieldPendingBcs} `{Bcs FieldU64Bcs} `{Bcs FieldWindowBcs} `{Bcs ClockBcs}.
Abbreviation World := (RunnerWorld.t E D SL).
Context (dir : path) (genesis : option B256) (fee : string) (signer : Ed25519BlockSigner PrivKey)
  (broadcaster : bool) (inbox : option InboxIntegration) (batch_size : N) (flush_after : option N).
Context (same_dir : inbox_in dir inbox).

(** A process whose engine extends the chain and whose starts find a disk
    that answers. *)
Definition careful_step : process World → process World → Prop :=
  step dir genesis fee signer broadcaster inbox batch_size flush_after
    (builds_fresh dir fee) (λ w, sound_disk (dsk w)).

Lemma step_keeps (σ σ' : process World) : kept dir σ → careful_step σ σ' → kept dir σ'.
Proof.
  intros Hk Hs. destruct Hs as [m w w' Hsd Hrun|m w e w' Hrun|f m w r w' Hr Hfresh Hp
    |fuel f f' m w ends w' Hturn|i h f m w r w' Hi Hp|f m w|o m w w' Ho|f m w|n f m w w' Hfp].
  - by eapply kept_start.
  - apply bind_err_inv in Hrun as [Hi|(st & w1 & _ & Hrun)]; [|done].
    apply initial_quiet in Hi as [Hq _].
    apply stopped_kept. apply (safe_quiet dir (new_process w)); [exact (kept_safe _ _ _ _ Hk)|exact Hq].
  - by eapply kept_tick.
  - by eapply kept_turn.
  - subst inbox. eapply kept_quiet; [done|]. apply apart_quiet. by eapply poll_apart.
  - destruct Hk as [Hh Hm Ho Hq]. split; [done|done|done|]. cbn. unfold stopping. cbn. by rewrite N.leb_refl.
  - eapply kept_quiet; [done|by apply outside_quiet].
  - apply stopped_kept. by eapply kept_safe.
  - apply flush_point_clears in Hfp as (dn & Hc & Hset & Hsub). apply stopped_kept.
    eapply safe_clears; [by eapply kept_safe|done..|]. intros p Hp.
    destruct Hk as [_ _ Ho _]. apply (Ho f p eq_refl). apply Hsub, elem_of_app in Hp as [?|Hp]; apply elem_of_app;
      [by left|right]. cbn. rewrite <- (take_drop n (queue w)). apply elem_of_app. by left.
Qed.
Lemma run_keeps (σ σ' : process World) : rtc careful_step σ σ' → kept dir σ → kept dir σ'.
Proof. induction 1; [done|]. eauto using step_keeps. Qed.
End Steps.

(** C1: No produced block is lost.  Take any life of a sequencer from a data
    directory whose pending file can be read: starts, ticks of the production
    loop, turns of the finalizer, passes of the poller, shutdown signals, and
    crashes between them, at any disk write or inside a flush, in any order,
    whatever the engine, Walrus and Sui answer and whatever writes fail.  Then
    every block that was ever handed to the finalizer is published, committed
    and finalized, or its signed block and its pending marker are on disk; and
    while a process runs and is not stopping, it is in the channel or in the
    finalizer's batch.  The engine is taken to build above the stored blocks,
    and a start to find a disk without faults. *)
Theorem no_produced_block_is_lost {E D SL PrivKey PubKey : Type} `{EngineLaws E} `{DataAvailability D}
    `{SettlementLayer SL} `{InboxTransport SL} `{HasBudget SL} `{JsonHttp E}
    `{Ed25519Laws PrivKey PubKey} `{SuiSdk} `{Hex} `{Hashes} `{BcsLaws serde_block}
    `{JsonLaws PendingStore.PendingFile} `{JsonLaws StateStore.ChainState} `{Json InboxStore.InboxFile}
    `{JsonLaws ExecutionPayload} `{Bcs InboxBcs} `{Bcs FieldPendingBcs} `{Bcs FieldU64Bcs}
    `{Bcs FieldWindowBcs} `{Bcs ClockBcs}
    dir genesis fee (signer : Ed25519BlockSigner PrivKey) broadcaster inbox batch_size flush_after
    (w0 : RunnerWorld.t E D SL) (σ : process (RunnerWorld.t E D SL)) :
  inbox_in dir inbox →
  is_ok (markers_on dir (RunnerWorld.dsk w0)) = true →
  rtc (careful_step dir genesis fee signer broadcaster inbox batch_size flush_after)
    (mk_process None [] w0) σ →
  ∀ p, p ∈ made σ →
    settled_in (RunnerWorld.log (world σ)) p ∨
    (view (BlockStore.get (block_store (stores_at dir)) (pb_height p)) (RunnerWorld.dsk (world σ)) = Ok (pb_block p) ∧
     (∃ l, markers_on dir (RunnerWorld.dsk (world σ)) = Ok l ∧ pb_height p ∈ l) ∧
     ∀ f, lf_finalizer σ = Some f → shutting_down (world σ) = false →
       p ∈ f_batch f ++ RunnerWorld.queue (world σ)).
Proof.
  intros Hi Hl Hrun p Hp. apply run_keeps in Hrun as [Hh (l & Hl' & Hm) _ Hq]; [|done|].
  - destruct (Hm p Hp) as [?|Hin]; [by left|]. destruct (lf_finalizer σ) as [f|] eqn:Hf.
    + destruct (shutting_down (world σ)) eqn:Hs.
      * right. split; [by apply Hh|]. split; [by exists l|done].
      * destruct (Hq f p eq_refl eq_refl Hp) as [?|Hb]; [by left|right].
        split; [by apply Hh|]. split; [by exists l|]. by intros ? [= <-].
    + right. split; [by apply Hh|]. split; [by exists l|done].
  - apply stopped_kept. split; [by intros q ?%not_elem_of_nil|].
    destruct (markers_on _ _) as [l0|]; [|done]. exists l0. split; [done|]. by intros q ?%not_elem_of_nil.
Qed.

(** ** Concrete lives *)

Module LifeDemo.
Import Codec.Demo Codec.CountableCodec RunnerDemo RunnerWorld.
(** A block's hash spells its timestamp and height; the engine builds one above
    the head. *)
Definition life_payload (n : N) : ExecutionPayload :=
  mk_payload ZERO ZERO (array_of_N 32 n) (n mod 1000) (n / 1000) [] [].
Definition hash_number (h : B256) : N := from_be_bytes (arr_bytes h).
#[export] Instance above : EngineApi unit := {|
  engine_build fc a :=
    let p := life_payload (a_timestamp a * 1000 + (hash_number (head_block_hash fc) mod 1000 + 1)) in
    mret (mk_built (array_fill 8 x00) p (p_block_hash p) (p_block_number p) (p_timestamp p));
  engine_accept _ _ _ _ := mret tt;
  engine_finalize _ _ _ := mret tt;
  engine_head := throw (EDecode "no head");
  engine_block_number := throw (EDecode "no head");
  engine_block_by_number _ := mret None
|}.
#[export] Instance above_laws : EngineLaws unit.
Proof. intros fc a [] built []. by intros [= <-]. Qed.
#[export] Instance no_reth : JsonHttp unit := {| json_post _ _ := throw "unreachable" |}.
#[export] Instance no_sui : InboxTransport unit := {|
  tr_object_contents _ := throw (InboxParse "unreachable");
  tr_field_contents _ _ := throw (InboxParse "unreachable")
|}.
#[export] Instance no_budget : HasBudget unit := {| deadline_blocks _ := 0; set_deadline_blocks _ w := w |}.

(** Payloads of this engine as decimal text. *)
Definition payload_text (n : N) : string := fmt_dec n.
#[export] Instance life_json : Json ExecutionPayload := {|
  json_to_string_pretty p :=
    let n := hash_number (p_block_hash p) in
    let t := payload_text n in
    if bool_decide (p = life_payload n) && (n <=? U64_MAX) && negb (is_blank t)
       && bool_decide (from_utf8 (string_bytes t) = Some t)
    then Ok t else Err "not a demo payload";
  json_from_str t := match parse_u64 t with Some n => Ok (life_payload n) | None => Err "not a number" end
|}.
#[export] Instance life_json_laws : JsonLaws ExecutionPayload.
Proof.
  assert (∀ p t, json_to_string_pretty p = Ok t →
    ∃ n, p = life_payload n ∧ t = payload_text n ∧ is_u64 n ∧ is_blank t = false ∧
         from_utf8 (string_bytes t) = Some t) as Hj.
  { intros p t. cbv beta iota delta [json_to_string_pretty life_json]. generalize (hash_number (p_block_hash p)).
    intros n. cbv zeta. destruct (_ && _) eqn:Hb; [|done]. intros Ht. injection Ht as <-.
    apply andb_true_iff in Hb as [Hb Hu]. apply andb_true_iff in Hb as [Hb Hk].
    apply andb_true_iff in Hb as [Hp Hn]. exists n. apply bool_decide_eq_true in Hp, Hu.
    apply N.leb_le in Hn. apply negb_true_iff in Hk. done. }
  split; intros p t (n & -> & -> & Hn & ? & ?)%Hj; [|done..].
  unfold json_from_str, life_json, payload_text. by rewrite fmt_dec_roundtrip.
Qed.

Abbreviation World := (RunnerWorld.t unit unit unit).
Abbreviation dir0 := ["data"].
Definition first_world : World := RunnerWorld.mk tt tt tt (disk0 []) chain0 [] 0 None [].
Definition life_signer : Ed25519BlockSigner (array 32) := mk_signer (array_fill 32 x05).
Definition life_step (may_build may_start : World → Prop) : process World → process World → Prop :=
  step dir0 (Some ZERO) "0xfee" life_signer true None 1000000 None may_build may_start.

Abbreviation starting w :=
  (run_start (stores_at dir0) (Some ZERO) (new_process w)).
Abbreviation ticking w := (produce_block (stores_at dir0) "0xfee" life_signer true None w).
Definition with_faults (fs : list fault) (w : World) : World :=
  put_dsk (mk_disk (files (dsk w)) (dirs (dsk w)) fs) w.
Definition idle : finalizer := mk_finalizer [] 0 (timer_new None).

Lemma starts ok may m w v : (may w : Prop) → (starting w).1 = Ok tt → v = (starting w).2 →
  life_step ok may (mk_process None m w) (mk_process (Some idle) (m ++ queue v) v).
Proof.
  intros Hm Hs ->. apply Start; [exact Hm|]. revert Hs. generalize (starting w). by intros [r v] <-.
Qed.
Lemma ticks (ok may : World → Prop) m w v : ok w → shutting_down w = false → v = (ticking w).2 →
  life_step ok may (mk_process (Some idle) m w)
    (mk_process (Some idle) (m ++ drop (length (queue w)) (queue v)) v).
Proof.
  intros Hm Hs ->. apply (Tick _ _ _ _ _ _ _ _ _ _ _ _ _ (ticking w).1); [exact Hs|exact Hm|].
  generalize (ticking w). by intros [].
Qed.
Lemma faulty ok may o m w fs : life_step ok may (mk_process o m w) (mk_process o m (with_faults fs w)).
Proof. apply Outside. by split_and!. Qed.
Lemma elapses ok may o m w n : life_step ok may (mk_process o m w) (mk_process o m (put_clock (clock w + n) w)).
Proof. apply Outside. split_and!; cbn; [done..|lia]. Qed.

Definition extends (w : World) : bool :=
  match (build_next (stores_at dir0) "0xfee" w w).1 with
  | Ok built => negb (BlockStore.has (block_store (stores_at dir0)) (built_height built) (dsk w))
  | Err _ => true
  end.
Lemma extends_fresh w : extends w = true → builds_fresh dir0 "0xfee" w.
Proof. unfold extends. intros He built x Hb. rewrite Hb in He. by apply negb_true_iff in He. Qed.

(** A first start and a tick; a crash and a second start; and the same second
    start with a fault at the read of the block. *)
Definition born : World := (starting first_world).2.
Definition busy : World := (ticking born).2.
Definition reborn : World := (starting busy).2.
Definition read_fault : list fault := [NoFault; NoFault; FailClean].
Definition unlucky : World := with_faults read_fault busy.
Definition bereft : World := (starting unlucky).2.
(** The first tick with a fault at the save of the chain state; a crash; five
    seconds later a second start, and another tick. *)
Definition state_fault : list fault := [NoFault; NoFault; NoFault; FailClean].
Definition torn : World := (ticking (with_faults state_fault born)).2.
Definition later : World := put_clock (clock torn + 5000) torn.
Definition revived : World := (starting later).2.
Definition forked : World := (ticking revived).2.

Lemma born_eq : born = (starting first_world).2. Proof. unfold born. reflexivity. Qed.
Lemma busy_eq : busy = (ticking born).2. Proof. unfold busy. reflexivity. Qed.
Lemma reborn_eq : reborn = (starting busy).2. Proof. unfold reborn. reflexivity. Qed.
Lemma bereft_eq : bereft = (starting unlucky).2. Proof. unfold bereft. reflexivity. Qed.
Lemma torn_eq : torn = (ticking (with_faults state_fault born)).2. Proof. unfold torn. reflexivity. Qed.
Lemma revived_eq : revived = (starting later).2. Proof. unfold revived. reflexivity. Qed.
Lemma forked_eq : forked = (ticking revived).2. Proof. unfold forked. reflexivity. Qed.

Lemma busy_one : length (queue busy) = 1%nat. Proof. by vm_compute. Qed.
Lemma fresh_tail {A} (a b : list A) : length a = O → ([] ++ a) ++ drop (length a) b = b.
Proof. by destruct a. Qed.
Lemma first_life ok may :
  (ok born : Prop) → (may first_world : Prop) →
  rtc (life_step ok may) (mk_process None [] first_world) (mk_process None (queue busy) busy).
Proof.
  intros Ho Hm. assert ((starting first_world).1 = Ok tt) as Hs by by vm_compute.
  assert (shutting_down born = false) as Hr by by vm_compute.
  assert ((([] ++ queue born) ++ drop (length (queue born)) (queue busy)) = queue busy) as <-.
  { apply fresh_tail. by vm_compute. }
  eapply rtc_l; [exact (starts ok may [] first_world born Hm Hs born_eq)|].
  eapply rtc_l; [exact (ticks ok may _ born busy Ho Hr busy_eq)|]. eapply rtc_l; [apply Crash|apply rtc_refl].
Qed.
End LifeDemo.

Section LifeWitness.
Import Codec.Demo Codec.CountableCodec RunnerDemo RunnerWorld LifeDemo.

(** The tick's block. *)
Definition life_block : PendingBlock := default (pending_block 0 0) (head (queue busy)).
Definition life_end : process World := mk_process (Some idle) (queue busy ++ queue reborn) reborn.
Lemma life_block_made : life_block ∈ made life_end.
Proof.
  unfold life_block, life_end. cbn [made]. pose proof busy_one as Hone.
  destruct (queue busy) as [|p l]; [discriminate Hone|left].
Qed.
Lemma life_run :
  rtc (careful_step dir0 (Some ZERO) "0xfee" life_signer true None 1000000 None)
    (mk_process None [] first_world) life_end.
Proof.
  assert (builds_fresh dir0 "0xfee" born) as Hb by (apply extends_fresh; by vm_compute).
  etrans; [exact (first_life (builds_fresh dir0 "0xfee") (λ w, sound_disk (dsk w)) Hb eq_refl)|].
  assert ((starting busy).1 = Ok tt) as Hs by by vm_compute.
  assert (sound_disk (dsk busy)) as Hd by by vm_compute.
  eapply rtc_l; [exact (starts (builds_fresh dir0 "0xfee") (λ w, sound_disk (dsk w)) _ busy reborn Hd Hs reborn_eq)|].
  apply rtc_refl.
Qed.

Lemma no_produced_block_is_lost_witness :
  settled_in (log (world life_end)) life_block ∨
  (view (BlockStore.get (block_store (stores_at dir0)) (pb_height life_block)) (dsk (world life_end))
     = Ok (pb_block life_block) ∧
   (∃ l, markers_on dir0 (dsk (world life_end)) = Ok l ∧ pb_height life_block ∈ l) ∧
   ∀ f, lf_finalizer life_end = Some f → shutting_down (world life_end) = false →
     life_block ∈ f_batch f ++ queue (world life_end)).
Proof.
  assert (is_ok (markers_on dir0 (dsk first_world)) = true) as Hok by by vm_compute.
  exact (no_produced_block_is_lost dir0 (Some ZERO) "0xfee" life_signer true None 1000000 None first_world
           life_end I Hok life_run life_block life_block_made).
Defined.

(** *** Two ways to lose a block *)

Definition bereft_end : process World := mk_process (Some idle) (queue busy ++ queue bereft) bereft.
Lemma bereft_run :
  rtc (life_step (builds_fresh dir0 "0xfee") (λ _, True)) (mk_process None [] first_world) bereft_end.
Proof.
  assert (builds_fresh dir0 "0xfee" born) as Hb by (apply extends_fresh; by vm_compute).
  assert ((starting unlucky).1 = Ok tt) as Hs by by vm_compute.
  etrans; [exact (first_life (builds_fresh dir0 "0xfee") (λ _, True) Hb I)|].
  eapply rtc_l; [exact (faulty _ _ _ _ _ read_fault)|].
  eapply rtc_l; [exact (starts _ (λ _, True) _ unlucky bereft I Hs bereft_eq)|]. apply rtc_refl.
Qed.

Definition is_committed (e : event) : bool := match e with Committed _ _ => true | _ => false end.
Lemma uncommitted_unsettled l p : existsb is_committed l = false → ~ settled_in l p.
Proof.
  intros Hl (id & bs & _ & _ & Hc & _). apply not_true_iff_false in Hl. apply Hl, existsb_exists.
  eexists. split; [by apply list_elem_of_In|done].
Qed.

Lemma bereft_running : shutting_down (world bereft_end) = false.
Proof. by vm_compute. Qed.
Lemma bereft_made : life_block ∈ made bereft_end.
Proof.
  unfold bereft_end. cbn [made]. unfold life_block. pose proof busy_one as Hone.
  destruct (queue busy); [discriminate Hone|left].
Qed.
Lemma bereft_unsettled : ~ settled_in (log (world bereft_end)) life_block.
Proof. apply uncommitted_unsettled. by vm_compute. Qed.
Lemma bereft_stored :
  is_ok (view (BlockStore.get (block_store (stores_at dir0)) (pb_height life_block)) (dsk (world bereft_end))) = true.
Proof. by vm_compute. Qed.
Lemma bereft_unmarked : markers_on dir0 (dsk (world bereft_end)) = Ok [].
Proof. by vm_compute. Qed.
Lemma bereft_idle : f_batch idle ++ queue (world bereft_end) = [].
Proof. by vm_compute. Qed.


Definition forked_end : process World :=
  mk_process (Some idle) (queue revived ++ drop (length (queue revived)) (queue forked)) forked.
Definition fork_block (i : nat) : PendingBlock := default (pending_block 0 0) (queue forked !! i).
Lemma pair_of {A} (d : A) l : length l = 2%nat → l = [default d (l !! 0%nat); default d (l !! 1%nat)].
Proof. destruct l as [|a [|b [|]]]; try discriminate. done. Qed.
Lemma fork_queue : queue (world forked_end) = [fork_block 0; fork_block 1].
Proof. unfold forked_end, fork_block. cbn [world]. apply pair_of. by vm_compute. Qed.
Lemma fork_heights : pb_height (fork_block 0) = pb_height (fork_block 1).
Proof. by vm_compute. Qed.
Lemma fork_hashes : bool_decide (pb_hash (fork_block 0) = pb_hash (fork_block 1)) = false.
Proof. by vm_compute. Qed.
Lemma fork_stored :
  bool_decide (view (BlockStore.get (block_store (stores_at dir0)) (pb_height (fork_block 0))) (dsk (world forked_end))
               = Ok (pb_block (fork_block 1))) = true.
Proof. by vm_compute. Qed.
Lemma torn_empty : length (queue torn) = O.
Proof. by vm_compute. Qed.
Lemma fork_run :
  rtc (life_step (λ _, True) (λ _, True)) (mk_process None [] first_world) forked_end.
Proof.
  assert ((starting first_world).1 = Ok tt) as Hs1 by by vm_compute.
  assert ((starting later).1 = Ok tt) as Hs2 by by vm_compute.
  assert (shutting_down (with_faults state_fault born) = false) as Hr1 by by vm_compute.
  assert (shutting_down revived = false) as Hr2 by by vm_compute.
  set (ok := λ _ : World, True).
  assert ((([] ++ queue born) ++ drop (length (queue (with_faults state_fault born))) (queue torn)) = []) as Hm.
  { apply nil_length_inv. by vm_compute. }
  eapply rtc_l; [exact (starts ok ok [] first_world born I Hs1 born_eq)|].
  eapply rtc_l; [exact (faulty ok ok _ _ born state_fault)|].
  eapply rtc_l; [exact (ticks ok ok _ (with_faults state_fault born) torn I Hr1 torn_eq)|]. rewrite Hm.
  eapply rtc_l; [apply Crash|].
  eapply rtc_l; [exact (elapses ok ok None [] torn 5000)|].
  eapply rtc_l; [exact (starts ok ok [] later revived I Hs2 revived_eq)|].
  eapply rtc_l; [exact (ticks ok ok _ revived forked I Hr2 forked_eq)|]. apply rtc_refl.
Qed.

End LifeWitness.
