(* ===== verification/Sequencer.v ===== *)
(** The sequencer end to end: the finalizer of [Runner] settling through the
    client of [Client] on the chain of [Chain].

    The engine and the availability layer stay abstract; what the theorems ask
    of them is named.  Settlement is the real client against the contract, so
    the batches, retries and commits meet the contract's own checks. *)

From S2P Require Import Prelude Text Codec Disk Core Store Wire Contract Sui Chain Client.
From S2P Require Import SuiInbox JsonValue Engine L2Rpc Config Tracker P2p Runner.
Local Open Scope string_scope.
Local Open Scope list_scope.
Local Open Scope N_scope.

(** ** One commit, seen from the chain's tip *)

Section Tip.
Context {PrivKey PubKey : Type} `{Ed25519 PrivKey PubKey} `{SuiSdk}.
Context (identifiers : ∀ i, identifier_new i = Ok i).

(** The chain's tip carries [blob] for the block. *)
Definition at_tip (h : Header) (blob : BlobId) (c : chain) : Prop :=
  Settle.latest_height (registry c) = height h ∧
  Settle.commitments (registry c) !! height h = Some (arr_bytes (blob_hash blob)).

Definition ready (s : Settlement PrivKey) (m : sim) : Prop := attached s m ∧ chain_wf (sim_chain m).

Lemma ready_u64 s m : ready s m → is_u64 (Inbox.included_count (inbox (sim_chain m))).
Proof. intros [_ [_ [? ? _ _]]]. unfold is_u64 in *. lia. Qed.
Lemma ready_inbox s m : ready s m → s_inbox s = id_inbox (sim_ids m).
Proof. intros [[Hx _] _]. congruence. Qed.

Lemma inbox_cursor_pop (s : Settlement PrivKey) m : (inbox_cursor s m).2 = pop m.
Proof.
  unfold inbox_cursor. run_op. destruct (next_rpc_fault m); run_op; [|done..].
  unfold sim_get_object. destruct (bool_decide _); run_op; [|destruct (bool_decide _); run_op];
    run_op; try done; by destruct (parse_inbox_cursor _).
Qed.
Lemma inbox_cursor_served (s : Settlement PrivKey) m :
  ready s m → sim_faults m = [] →
  inbox_cursor s m = (Ok (Inbox.included_count (inbox (sim_chain m))), pop m).
Proof.
  intros Hr Hf. unfold inbox_cursor, next_rpc_fault. run_op. unfold next_rpc_fault. rewrite Hf.
  run_op. unfold sim_get_object. rewrite (ready_inbox s m Hr), bool_decide_true by done.
  run_op. run_op. by rewrite parse_inbox_contents by (by eapply ready_u64).
Qed.

Lemma commit_tip (s : Settlement PrivKey) h blob cursor m r m' :
  ready s m → Sui.commit_with_cursor s h blob cursor m = (r, m') →
  ready s m' ∧ (r = Ok tt → at_tip h blob (sim_chain m')).
Proof using identifiers.
  intros Hr Hc. pose proof Hr as [Hatt Hwf]. pose proof Hatt as [Hx Hk].
  destruct (commit_cases s h blob cursor m r m' (ready_u64 _ _ Hr) (ready_inbox _ _ Hr) Hc)
    as (Hids & _ & [[He Hch]|(cur & p & st & Hp & _ & Hrun & Hst)]).
  - split; [split; [by unfold attached; rewrite Hids|by rewrite Hch]|intros ->; discriminate].
  - rewrite (settle_ptb_sender _ _ _ _ _ Hp) in Hrun.
    destruct (run_settle_block identifiers s (sim_ids m) (sim_now m) h blob cur p (sim_chain m) Hp Hx)
      as [_ He].
    destruct (settle_block_effect identifiers s (sim_ids m) (sim_now m) h blob cur p _ _ Hp Hx Hwf Hrun)
      as (Hwf' & [Hcom _] & _).
    rewrite He in Hrun. apply result_bind_ok in Hrun as ([rg i] & Hs & Hrun).
    apply result_bind_ok in Hrun as (rg' & Hroot & [= <-]).
    split; [split; [by unfold attached; rewrite Hids|by rewrite Hst]|].
    intros _. rewrite Hst. split; [|exact Hcom].
    destruct Hwf as [Hw1 Hw2].
    destruct (settle_as_spec _ _ _ _ _ _ _ _ _ _ Hw1 Hw2 Hs) as (_ & _ & _ & _ & _ & _ & Htip).
    assert (Settle.latest_height rg = height h) as Hl.
    { destruct Htip as [(-> & _ & ->)|(_ & ? & _)]; done. }
    cbn. destruct (s_commit_state_roots s); [|by injection Hroot as <-].
    apply commit_state_root_spec in Hroot as (_ & -> & _). done.
Qed.

(** At the tip, another blob is refused and nothing changes. *)
Lemma commit_conflict (s : Settlement PrivKey) h blob other cursor m r m' :
  ready s m → at_tip h other (sim_chain m) → blob_hash blob ≠ blob_hash other →
  Sui.commit_with_cursor s h blob cursor m = (r, m') →
  is_ok r = false ∧ ready s m' ∧ at_tip h other (sim_chain m').
Proof using identifiers.
  intros Hr [Hl Hc0] Hne Hc. pose proof Hr as [[Hx Hk] Hwf].
  destruct (commit_tip _ _ _ _ _ _ _ Hr Hc) as [Hr' _].
  destruct (commit_cases s h blob cursor m r m' (ready_u64 _ _ Hr) (ready_inbox _ _ Hr) Hc)
    as (Hids & _ & [[He Hch]|(cur & p & st & Hp & _ & Hrun & Hst)]).
  - split; [done|]. split; [done|]. unfold at_tip. by rewrite Hch.
  - exfalso. rewrite (settle_ptb_sender _ _ _ _ _ Hp) in Hrun.
    destruct (run_settle_block identifiers s (sim_ids m) (sim_now m) h blob cur p (sim_chain m) Hp Hx)
      as [_ He].
    rewrite He in Hrun. apply result_bind_ok in Hrun as ([rg i] & Hs & _).
    unfold Settle.settle_as in Hs. apply result_bind_ok in Hs as (u & _ & Hs).
    unfold Settle.do_settle in Hs. rewrite Hl, N.eqb_refl, Hc0 in Hs. cbn in Hs.
    rewrite bool_decide_false in Hs; [done|]. intros E%array_eq. congruence.
Qed.

(** *** A chain that takes the next block *)

(** The chain is at height [n], serves, and accepts this signer. *)
Record open_at (s : Settlement PrivKey) (n : N) (m : sim) : Prop := mk_open {
  op_ready : ready s m;
  op_served : sim_faults m = [];
  op_actor : Rotation.assert_can_act (Settle.rotation (registry (sim_chain m))) (sim_now m)
               (s_sender s) = Ok tt;
  op_tip : Settle.latest_height (registry (sim_chain m)) = n;
  op_roots : ∀ h, n < h → Settle.state_roots (registry (sim_chain m)) !! h = None
}.

(** What a block's timestamp must respect: the last settled one, and the
    deadline of the oldest transaction still pending. *)
Definition in_time (i : Inbox.Inbox) (h : Header) : Prop :=
  InboxContract.settles i (settle_block_ts (timestamp h)) (Inbox.included_count i).

(** The registry and inbox after the block at [n + 1]. *)
Definition settled_registry (s : Settlement PrivKey) (h : Header) (blob : BlobId)
    (r : Settle.Registry) : Settle.Registry :=
  Settle.mk_Registry (height h)
    (<[height h := arr_bytes (blob_hash blob)]> (Settle.commitments r))
    (if s_commit_state_roots s
     then <[height h := arr_bytes (state_root h)]> (Settle.state_roots r)
     else Settle.state_roots r)
    (Settle.rotation r).
Definition settled_inbox (h : Header) (i : Inbox.Inbox) : Inbox.Inbox :=
  Inbox.mk_Inbox (Inbox.next_nonce i) (Inbox.included_count i) (settle_block_ts (timestamp h))
    (InboxContract.remaining i (Inbox.included_count i)) (Inbox.window i) (Inbox.pending_window i).

Lemma run_fresh (s : Settlement PrivKey) n m h blob p :
  open_at s n m → height h = n + 1 → is_u64 (n + 1) → in_time (inbox (sim_chain m)) h →
  settle_ptb s h blob (Inbox.included_count (inbox (sim_chain m))) = Ok p →
  run_commands (sim_ids m) (sim_now m) (s_sender s) (commands p) (sim_chain m) =
    Ok (mk_chain (settled_registry s h blob (registry (sim_chain m)))
          (settled_inbox h (inbox (sim_chain m)))).
Proof using identifiers.
  intros [[[Hx Hk] [Hwr Hwi]] _ Hact Htip Hroots] Hh Hu Hin Hp.
  destruct (run_settle_block identifiers s (sim_ids m) (sim_now m) h blob _ p (sim_chain m) Hp Hx)
    as [_ ->].
  pose proof (InboxContract.enforce_settle_spec _ (settle_block_ts (timestamp h))
                (Inbox.included_count (inbox (sim_chain m))) Hwi) as He.
  destruct (Inbox.enforce_settle _ _ _) as [i'|] eqn:Hi; [|by destruct He].
  destruct He as (_ & _ & ->).
  unfold Settle.settle_as. rewrite Hact. cbn -[Settle.do_settle Settle.commit_state_root].
  unfold Settle.do_settle. rewrite Htip, Hh.
  destruct (N.eqb_spec (n + 1) n); [lia|].
  assert (mv_add n 1 = Ok (n + 1)) as -> by (by apply mv_add_ok).
  cbn -[Settle.commit_state_root]. unfold assert at 1. rewrite N.eqb_refl.
  cbn -[Settle.commit_state_root]. rewrite Hi. cbn -[Settle.commit_state_root].
  destruct (Settle.commitments _ !! _) eqn:Hc.
  { destruct Hwr as [_ Hwr]. specialize (Hwr (n + 1)). rewrite Hc in Hwr.
    destruct Hwr as [Hwr _]. specialize (Hwr ltac:(eauto)). lia. }
  cbn -[Settle.commit_state_root]. unfold settled_registry, settled_inbox. rewrite <- Hh in *.
  destruct (s_commit_state_roots s); [|done].
  unfold Settle.commit_state_root. cbn -[Rotation.assert_can_act]. rewrite Hact. cbn.
  rewrite length_arr_bytes. cbn. rewrite N.eqb_refl. cbn. by rewrite Hroots by lia.
Qed.

(** A fault-free commit of the next block succeeds and leaves the chain open
    at its height. *)
Lemma commit_open (s : Settlement PrivKey) n m h blob :
  open_at s n m → height h = n + 1 → is_u64 (n + 1) → in_time (inbox (sim_chain m)) h →
  ∃ m', Sui.commit s h blob m = (Ok tt, m') ∧ open_at s (n + 1) m' ∧
    registry (sim_chain m') = settled_registry s h blob (registry (sim_chain m)) ∧
    inbox (sim_chain m') = settled_inbox h (inbox (sim_chain m)) ∧ sim_ids m' = sim_ids m.
Proof using identifiers.
  intros Ho Hh Hu Hin. pose proof Ho as [Hr Hf Hact Htip Hroots].
  unfold Sui.commit. rewrite run_bind, inbox_cursor_served by done.
  assert (open_at s n (pop m)) as Hpop.
  { destruct Hr. split; try done. by cbn; rewrite Hf. }
  pose proof (op_ready _ _ _ Hpop) as Hr1. pose proof (op_served _ _ _ Hpop) as Hf1.
  unfold Sui.commit_with_cursor. rewrite run_bind, inbox_cursor_served by done.
  change (sim_chain (pop m)) with (sim_chain m). rewrite N.max_id.
  unfold build_settle_tx, sign_and_execute. run_op.
  destruct (settle_ptb s h blob _) as [p|e] eqn:Hp; run_op.
  2:{ unfold settle_ptb, move_call in Hp. by rewrite !identifiers in Hp. }
  unfold next_rpc_fault. cbn [sim_faults pop]. rewrite Hf. cbn [tail]. run_op. run_op.
  unfold next_rpc_fault. cbn [sim_faults pop]. rewrite Hf. cbn [tail]. run_op.
  unfold sim_execute. cbn [sim_ids sim_now sim_chain pop].
  rewrite (settle_ptb_sender _ _ _ _ _ Hp). destruct Hr as [[Hx Hk] Hwf].
  rewrite bool_decide_true by done.
  pose proof (run_fresh s n m h blob p Ho Hh Hu Hin Hp) as Hrun. rewrite Hrun. cbn.
  eexists. split; [done|]. split; [|done]. split; cbn.
  - split; [done|].
    by apply (settle_block_effect identifiers s (sim_ids m) (sim_now m) h blob _ p _ _ Hp Hx Hwf Hrun).
  - by rewrite Hf.
  - done.
  - done.
  - intros k Hk'. destruct (s_commit_state_roots s); [|apply Hroots; lia].
    rewrite lookup_insert_ne by lia. apply Hroots. lia.
Qed.

End Tip.

(** ** Flushing a batch to the chain *)

Section Flush.
Import RunnerWorld.
Context {E D PrivKey PubKey : Type} `{EngineApi E} `{DataAvailability D}.
Context `{Ed25519 PrivKey PubKey} `{SuiSdk} `{Hex} `{Json PendingStore.PendingFile}
  `{Json StateStore.ChainState} `{Json InboxStore.InboxFile}.
Context (identifiers : ∀ i, identifier_new i = Ok i).
Context (c : Client PrivKey) (s : Settlement PrivKey) (configured : Client.settlement c = Some s).

#[local] Instance chain_settlement : SettlementLayer sim := client_settlement c.
Abbreviation world := (RunnerWorld.t E D sim).

(** Steps beside the settlement layer. *)
Definition beside (w w' : world) : Prop := sl w' = sl w ∧ stop_at w' = stop_at w.
#[local] Instance beside_preorder : PreOrder beside.
Proof. split; [done|]. intros w1 w2 w3 [] []. split; congruence. Qed.

Lemma on_beside {X Er A} (get : world → X) put (m : M X Er A) ev w r w' :
  (∀ x, beside w (put x w)) → on get put m ev w = (r, w') → beside w w'.
Proof.
  intros Hput. unfold on. destruct (m (get w)) as [[a|] x]; intros [= _ <-]; [|apply Hput].
  destruct (ev a); apply (Hput x).
Qed.
Lemma stored_beside {A} (m : M disk StoreError A) (w : world) r w' :
  on_store m w = (r, w') → beside w w'.
Proof. unfold on_store, errM, on_disk, zoom. cbn. destruct (m _). by intros [= _ <-]. Qed.
Lemma advance_beside h hash (w : world) r w' : advance_finalized h hash w = (r, w') → beside w w'.
Proof.
  assert (∀ fh, engine_finalize fh hash hash w =
                on el put_el (engine_finalize fh hash hash) (λ _, Some (Finalized hash)) w) as Hon
    by done.
  unfold advance_finalized. rewrite run_bind. cbv beta iota delta [getM]. rewrite run_bind.
  unfold contextM, on_engine, errM. rewrite Hon.
  destruct (on _ _ _ _ w) as [[[]|e] w1] eqn:Hf; apply on_beside in Hf; try done;
    by intros [= _ <-].
Qed.
Lemma record_beside st h (w : world) : beside w (record_finalized st h w).2.
Proof.
  unfold record_finalized. rewrite run_bind. unfold tryM.
  destruct (on_store _ w) as [r1 w1] eqn:Hb1. apply stored_beside in Hb1.
  rewrite run_bind. cbv beta iota delta [getM]. rewrite run_bind. unfold persist_state, contextM, errM.
  rewrite run_bind. cbv beta iota delta [getM].
  destruct (on_store _ w1) as [r2 w2] eqn:Hb2. apply stored_beside in Hb2. cbn. by etrans.
Qed.
(** [id] is an identifier the availability layer gives to [blocks]. *)
Definition addressed (blocks : list Block) (id : BlobId) : Prop :=
  ∃ d d' : D, da_publish blocks d = (Ok id, d').

Lemma publish_beside fuel b blocks (w : world) o w' :
  publish_loop fuel b blocks w = Some (o, w') →
  beside w w' ∧ (stop_at w = None → ∃ id, o = Some id ∧ addressed blocks id).
Proof.
  revert b w. induction fuel as [|fuel IH]; intros b w; cbn [publish_loop]; [done|].
  destruct (shutting_down w) eqn:Hs.
  { intros [= <- <-]. split; [done|]. intros Hn. revert Hs. cbn. unfold stopping. by rewrite Hn. }
  destruct (da_publish blocks w) as [[id|e] w1] eqn:Hp; apply on_beside in Hp as Hb; try done.
  - intros [= <- <-]. split; [done|]. intros _. exists id. split; [done|].
    revert Hp. cbn. unfold on. destruct (da_publish blocks (da w)) as [[i|] x] eqn:Hd; [|done].
    intros [= <- _]. by exists (da w), x.
  - intros [Hb' Ho]%IH. split; [by repeat (etrans; [eassumption|])|].
    intros Hn. apply Ho. cbn. destruct Hb as [_ ->]. done.
Qed.

(** *** Commits *)

Lemma commit_runs b id (w : world) r w' :
  commit_with_inbox None b id w = (r, w') →
  sl w' = (Sui.commit s (header b) id (sl w)).2 ∧ stop_at w' = stop_at w ∧
  is_ok r = is_ok (Sui.commit s (header b) id (sl w)).1.
Proof using configured.
  cbn. unfold on. cbn. unfold Client.commit, settlement_guard. rewrite configured.
  unfold lift, errM. rewrite run_bind. cbn -[Sui.commit].
  destruct (Sui.commit s (header b) id (sl w)) as [[[]|e] m]; by intros [= <- <-].
Qed.

Lemma commit_steps P Q b id (w : world) r w' :
  (∀ m r m' cursor, P m → Sui.commit_with_cursor s (header b) id cursor m = (r, m') →
     P m' ∧ (is_ok r = true → Q m')) →
  (∀ m, P m → P (pop m)) → P (sl w) → commit_with_inbox None b id w = (r, w') →
  P (sl w') ∧ stop_at w' = stop_at w ∧ (is_ok r = true → Q (sl w')).
Proof using configured.
  intros Hstep Hpop Hw (-> & -> & ->)%commit_runs. unfold Sui.commit.
  pose proof (inbox_cursor_pop s (sl w)) as Hc. rewrite run_bind.
  destruct (inbox_cursor s (sl w)) as [[n|e] m]; cbn in Hc; subst m;
    [|by split_and!; [apply Hpop|done|discriminate]].
  destruct (Sui.commit_with_cursor s (header b) id n (pop (sl w))) as [r1 m1] eqn:Hr.
  apply Hstep in Hr as [? ?]; auto.
Qed.

Lemma ready_pop m : ready s m → ready s (pop m).
Proof. done. Qed.

Lemma running (w : world) : stop_at w = None → shutting_down w = false.
Proof. intros Hn. cbn. unfold stopping. by rewrite Hn. Qed.

Lemma retry_reaches_tip b id fuel x y (w : world) o w' :
  ready s (sl w) → stop_at w = None →
  retry_with_backoff fuel x y (commit_with_inbox None b id) w = Some (o, w') →
  o = true ∧ ready s (sl w') ∧ stop_at w' = None ∧ at_tip (header b) id (sim_chain (sl w')).
Proof using identifiers configured.
  revert x w. induction fuel as [|fuel IH]; intros x w Hr Hs; cbn [retry_with_backoff]; [done|].
  rewrite (running w Hs). destruct (commit_with_inbox None b id w) as [r w1] eqn:Hc.
  apply (commit_steps (ready s) (λ m, at_tip (header b) id (sim_chain m))) in Hc
    as (Hr1 & Hs1 & Ht); [| |done..].
  - destruct r as [[]|e]; [intros [= <- <-]; split_and!; auto; congruence|].
    intros Hw. apply IH in Hw; [done|done|]. cbn. congruence.
  - intros m r0 m' cursor Hm Hcm. destruct (commit_tip identifiers _ _ _ _ _ _ _ Hm Hcm) as [? Ht].
    split; [done|]. destruct r0 as [[]|]; [auto|discriminate].
Qed.

(** The contract refuses a second identifier for the block at its tip. *)
Lemma retry_conflict b id other fuel x y (w : world) :
  ready s (sl w) → stop_at w = None → at_tip (header b) other (sim_chain (sl w)) →
  blob_hash id ≠ blob_hash other →
  retry_with_backoff fuel x y (commit_with_inbox None b id) w = None.
Proof using identifiers configured.
  intros Hr Hs Ht Hne. revert x w Hr Hs Ht.
  induction fuel as [|fuel IH]; intros x w Hr Hs Ht; cbn [retry_with_backoff]; [done|].
  rewrite (running w Hs). destruct (commit_with_inbox None b id w) as [r w1] eqn:Hc.
  apply (commit_steps (λ m, ready s m ∧ at_tip (header b) other (sim_chain m)) (λ _, False)) in Hc
    as ([Hr1 Ht1] & Hs1 & Hf); [| |by intros m []|done].
  - destruct r as [[]|e]; [by destruct Hf|]. apply IH; cbn; [done|congruence|done].
  - intros m r0 m' cursor [Hm Htm] Hcm.
    destruct (commit_conflict identifiers _ _ _ _ _ _ _ _ Hm Htm Hne Hcm) as (He & ? & ?).
    split; [done|]. by rewrite He.
Qed.

(** A loop that stops with a non-empty batch stopped at the block whose
    finalization failed, right after its commit. *)
Lemma settle_loop_stops fuel st id bytes batch (w : world) p rest bytes' w' :
  ready s (sl w) → stop_at w = None →
  settle_loop fuel st None id bytes batch w = Some ((p :: rest, bytes'), w') →
  ready s (sl w') ∧ stop_at w' = None ∧
  at_tip (header (pb_block p)) id (sim_chain (sl w')) ∧ (∃ done, batch = done ++ p :: rest).
Proof using identifiers configured.
  revert w. induction batch as [|q batch IH]; intros w Hr Hs; cbn [settle_loop]; [done|].
  unfold settle_with_gate. replace (wait_inclusion_gate fuel None _ 500 w) with (Some (true, w))
    by (by destruct fuel).
  destruct (retry_with_backoff _ _ _ _ w) as [[o w1]|] eqn:Hw; [|done].
  apply retry_reaches_tip in Hw as (-> & Hr1 & Hs1 & Ht); [|done..].
  destruct (advance_finalized _ _ w1) as [[u|e] w2] eqn:Ha; apply advance_beside in Ha as [Hl2 Hs2].
  - destruct (record_beside st (pb_height q) w2) as [Hl3 Hs3].
    intros Hl. apply IH in Hl as (? & ? & ? & dn & ->); [|congruence..].
    split_and!; try done. by exists (q :: dn).
  - intros [= <- <- <- <-]. rewrite Hl2, Hs2. split_and!; try done. by exists [].
Qed.

Lemma settle_loop_conflict fuel st id other bytes p rest (w : world) :
  ready s (sl w) → stop_at w = None → at_tip (header (pb_block p)) other (sim_chain (sl w)) →
  blob_hash id ≠ blob_hash other → settle_loop fuel st None id bytes (p :: rest) w = None.
Proof using identifiers configured.
  intros Hr Hs Ht Hne. cbn [settle_loop]. unfold settle_with_gate.
  replace (wait_inclusion_gate fuel None _ 500 w) with (Some (true, w)) by (by destruct fuel).
  by rewrite (retry_conflict (pb_block p) id other).
Qed.

(** *** A healthy flush *)

Lemma remaining_cursor i :
  InboxContract.remaining i (Inbox.included_count i) !! Inbox.included_count i
  = Inbox.pending i !! Inbox.included_count i.
Proof.
  unfold InboxContract.remaining. destruct (Inbox.pending i !! Inbox.included_count i) as [x|] eqn:Hx.
  - by apply map_lookup_filter_Some_2.
  - apply map_lookup_filter_None. by left.
Qed.
Lemma next_free st n m h : open_at st n m → h = n + 1 →
  Settle.commitments (registry (sim_chain m)) !! h = None.
Proof.
  intros [[_ [[_ Hwr] _]] _ _ Htip _] ->. apply eq_None_not_Some. rewrite Hwr. lia.
Qed.

(** Blocks the chain takes one after the other from height [n]. *)
Fixpoint in_order (n last : N) (oldest : option Inbox.PendingTx) (batch : list PendingBlock) : Prop :=
  match batch with
  | [] => True
  | p :: batch =>
      let h := header (pb_block p) in
      height h = n + 1 ∧ is_u64 (n + 1) ∧ last <= settle_block_ts (timestamp h) ∧
      (∀ tx, oldest = Some tx → settle_block_ts (timestamp h) <= Inbox.deadline_ms tx) ∧
      in_order (n + 1) (settle_block_ts (timestamp h)) oldest batch
  end.
Definition oldest_pending (m : sim) : option Inbox.PendingTx :=
  Inbox.pending (inbox (sim_chain m)) !! Inbox.included_count (inbox (sim_chain m)).

Context (finalizes : ∀ h f hs (e : E), is_ok (engine_finalize h f hs e).1 = true).

Lemma advance_succeeds h hash (w : world) : is_ok (advance_finalized h hash w).1 = true.
Proof using finalizes.
  assert (∀ fh, engine_finalize fh hash hash w =
                on el put_el (engine_finalize fh hash hash) (λ _, Some (Finalized hash)) w) as Hon
    by done.
  unfold advance_finalized. rewrite run_bind. cbv beta iota delta [getM]. rewrite run_bind.
  unfold contextM, on_engine, errM. rewrite Hon. unfold on.
  pose proof (finalizes (cs_head (get_chain w)) hash hash (el w)) as Hf.
  by destruct (engine_finalize _ hash hash (el w)) as [[]].
Qed.

Lemma settle_loop_settles fuel st id bytes batch (w : world) n :
  (0 < fuel)%nat → open_at s n (sl w) → stop_at w = None →
  in_order n (Inbox.last_settled_ts (inbox (sim_chain (sl w)))) (oldest_pending (sl w)) batch →
  ∃ w', settle_loop fuel st None id bytes batch w = Some (([], 0), w') ∧
    open_at s (n + N.of_nat (length batch)) (sl w') ∧
    Settle.commitments (registry (sim_chain (sl w))) ⊆ Settle.commitments (registry (sim_chain (sl w'))) ∧
    Forall (λ p, Settle.commitments (registry (sim_chain (sl w'))) !! height (header (pb_block p))
                 = Some (arr_bytes (blob_hash id))) batch ∧
    sim_ids (sl w') = sim_ids (sl w).
Proof using identifiers configured finalizes.
  intros Hfuel. revert n w. induction batch as [|p batch IH]; intros n w Ho Hs Hin; cbn [settle_loop].
  { exists w. cbn. rewrite N.add_0_r. split_and!; done. }
  destruct Hin as (Hh & Hu & Hlast & Hold & Hin).
  unfold settle_with_gate. replace (wait_inclusion_gate fuel None _ 500 w) with (Some (true, w))
    by (by destruct fuel).
  destruct fuel as [|fuel]; [lia|]. cbn [retry_with_backoff]. rewrite (running w Hs).
  destruct (commit_open identifiers s n (sl w) (header (pb_block p)) id Ho Hh Hu) as (m & Hc & Hom & Hreg & Hinb & Hids).
  { destruct Ho as [[_ [_ Hwi]] _ _ _ _]. destruct Hwi. split_and!; try done; try lia. }
  destruct (commit_with_inbox None (pb_block p) id w) as [r w1] eqn:Hw.
  apply commit_runs in Hw as (Hl1 & Hs1 & Hok). rewrite Hc in Hl1, Hok. cbn in Hl1, Hok.
  destruct r as [u|]; [|done].
  pose proof (advance_succeeds (pb_height p) (pb_hash p) w1) as Hadv.
  destruct (advance_finalized _ _ w1) as [[u2|e] w2] eqn:Ha; [|done].
  apply advance_beside in Ha as [Hl2 Hs2].
  destruct (record_beside st (pb_height p) w2) as [Hl3 Hs3].
  assert (sl (record_finalized st (pb_height p) w2).2 = m) as Hm by congruence.
  destruct (IH (n + 1) (record_finalized st (pb_height p) w2).2) as (w' & Hw' & Ho' & Hsub & Hall & Hids').
  - by rewrite Hm.
  - congruence.
  - rewrite Hm. unfold oldest_pending. rewrite Hinb. cbn.
    by rewrite remaining_cursor.
  - exists w'. split; [done|]. split_and!; [| | |congruence].
    + replace (n + N.of_nat (length (p :: batch))) with (n + 1 + N.of_nat (length batch))
        by (cbn [length]; lia). done.
    + etrans; [|exact Hsub]. rewrite Hm, Hreg. apply insert_subseteq. by eapply next_free.
    + constructor; [|done]. eapply lookup_weaken; [|exact Hsub].
      rewrite Hm, Hreg. cbn. by rewrite lookup_insert_eq.
Qed.
End Flush.

(** Flushing with the client as the settlement layer. *)
Definition flush_to_chain {E D PrivKey PubKey : Type} `{EngineApi E} `{DataAvailability D}
    `{Ed25519 PrivKey PubKey} `{SuiSdk} `{Hex} `{Json PendingStore.PendingFile}
    `{Json StateStore.ChainState} `{Json InboxStore.InboxFile} (c : Client PrivKey) (fuel : nat)
    (st : Stores) (batch : list PendingBlock) (bytes : N) (w : RunnerWorld.t E D sim)
    : option ((list PendingBlock * N) * RunnerWorld.t E D sim) :=
  let settlement_layer : SettlementLayer sim := client_settlement c in
  flush_batch fuel st None batch bytes w.

Lemma flush_settles {E D PrivKey PubKey : Type} `{EngineApi E} `{DataAvailability D}
    `{Ed25519 PrivKey PubKey} `{SuiSdk} `{Hex} `{Json PendingStore.PendingFile}
    `{Json StateStore.ChainState} `{Json InboxStore.InboxFile}
    (c : Client PrivKey) (s : Settlement PrivKey) st fuel batch bytes (w : RunnerWorld.t E D sim) n :
  (∀ i, identifier_new i = Ok i) → Client.settlement c = Some s →
  (∀ h f hs (e : E), is_ok (engine_finalize h f hs e).1 = true) →
  (∀ bs (d : D), is_ok (da_publish bs d).1 = true) →
  (0 < fuel)%nat → open_at s n (RunnerWorld.sl w) → RunnerWorld.stop_at w = None → batch ≠ [] →
  in_order n (Inbox.last_settled_ts (inbox (sim_chain (RunnerWorld.sl w))))
    (oldest_pending (RunnerWorld.sl w)) batch →
  ∃ id w', flush_to_chain c fuel st batch bytes w
             = Some (([], 0), w') ∧
    addressed (D := D) (pb_block <$> batch) id ∧
    open_at s (n + N.of_nat (length batch)) (RunnerWorld.sl w') ∧
    Settle.commitments (registry (sim_chain (RunnerWorld.sl w)))
      ⊆ Settle.commitments (registry (sim_chain (RunnerWorld.sl w'))) ∧
    Forall (λ p, Settle.commitments (registry (sim_chain (RunnerWorld.sl w'))) !!
                   height (header (pb_block p)) = Some (arr_bytes (blob_hash id))) batch ∧
    sim_ids (RunnerWorld.sl w') = sim_ids (RunnerWorld.sl w).
Proof.
  intros Hid Hc Hfin Hda Hfuel Ho Hs Hne Hin. unfold flush_to_chain, flush_batch.
  destruct batch as [|p batch]; [done|]. destruct fuel as [|fuel]; [lia|].
  cbn [publish_loop]. rewrite (running w Hs).
  destruct (da_publish (pb_block <$> p :: batch) w) as [r w1] eqn:Hp.
  apply on_beside in Hp as Hb; [|done]. destruct Hb as [Hl Hs1].
  revert Hp. cbn [da_publish RunnerWorld.rw_da]. unfold RunnerWorld.on.
  specialize (Hda (pb_block <$> p :: batch) (RunnerWorld.da w)).
  destruct (da_publish (pb_block <$> p :: batch) (RunnerWorld.da w)) as [[id|] d] eqn:Hd; [|done].
  intros [= <- <-].
  set (w1 := RunnerWorld.note _ _) in *.
  destruct (settle_loop_settles Hid c s Hc Hfin (S fuel) st id bytes (p :: batch) w1 n)
    as (w' & Hw' & Ho' & Hsub & Hall & Hids); [lia|done..|].
  exists id, w'. split; [exact Hw'|]. split_and!; try done. by exists (RunnerWorld.da w), d.
Qed.



Section FlushWitness.
Import Codec.Demo RunnerDemo RunnerWorld.
Import Codec.CountableCodec.
Definition demo_sequencer : Client (array 32) :=
  with_settlement demo_settlement (client_new config_default).
Lemma demo_ready fs : ready demo_settlement (demo_sim fs).
Proof. split; [apply demo_attached|apply demo_wf]. Qed.
Lemma demo_open : open_at demo_settlement 0 (demo_sim []).
Proof. split; [apply demo_ready|done..]. Qed.

(** An engine that always finalizes, and a layer that stores every batch. *)
#[local] Instance always_finalizes : EngineApi unit := {|
  engine_build _ _ := throw (EDecode "no payload");
  engine_accept _ _ _ _ := mret tt;
  engine_finalize _ _ _ := mret tt;
  engine_head := throw (EDecode "no head");
  engine_block_number := throw (EDecode "no head");
  engine_block_by_number _ := mret None
|}.
#[local] Instance always_stores : DataAvailability bool := {|
  da_publish _ := mret (blob 9);
  da_fetch _ := throw (DataAvailabilityE "not found")
|}.
Definition healthy_world : RunnerWorld.t unit bool sim :=
  RunnerWorld.mk tt true (demo_sim []) (disk0 []) chain0 [] 0 None [].


(** The engine refuses the second block of the first batch; the retry publishes
    it with a third one. *)
Definition wedging_world : RunnerWorld.t (list bool) unit sim :=
  RunnerWorld.mk [false; true] tt (demo_sim []) (disk0 []) chain0 [] 0 None [].
Definition wedged_flush :=
  flush_to_chain demo_sequencer 1 (stores_at ["data"]) batch_a 0 wedging_world.
Lemma wedged_result : fst <$> wedged_flush = Some ([pending_block 2 200], 0).
Proof. by vm_compute. Qed.

Lemma demo_addresses bs bs' id id' :
  addressed (D := unit) bs id → addressed (D := unit) bs' id' → blob_hash id = blob_hash id' →
  bs = bs'.
Proof.
  intros (d & d' & [= Ha _]) (e & e' & [= Hb _]). revert Ha Hb. unfold address.
  repeat case_decide; subst; try done; intros [= <-] [= <-] Heq;
    apply (f_equal arr_bytes) in Heq; vm_compute in Heq; discriminate.
Qed.

End FlushWitness.
