(* ===== verification/FullNode.v ===== *)
(** [crates/node/src/full_node.rs]: the verifying node, which rebuilds the chain
    from settlement and availability and follows the sequencer's broadcasts.

    The node's own fields are threaded next to the world, through failures too:
    an operation that fails half way keeps the fields it already moved. *)

From S2P Require Import Prelude Text Codec Disk Core Store Wire Contract Sui SuiInbox.
From S2P Require Import Deadline Config JsonValue Engine P2p L2Rpc Tracker Runner.
Local Open Scope string_scope.
Local Open Scope list_scope.
Local Open Scope N_scope.

(** ** Interfaces *)

(** The two Engine API calls the node makes directly, and the reads. *)
Class ExecutionRpc (W : Type) := {
  rpc_new_payload : ExecutionPayload → string → M W EngineError PayloadStatusEnum;
  rpc_forkchoice : ForkchoiceState → M W EngineError ForkchoiceUpdated;
  rpc_current_head : M W EngineError B256;
  rpc_block_number : M W EngineError N;
  rpc_block_by_number : N → M W EngineError (option B256)
}.
Definition execution_rpc {W} `{EngineHttp W} `{Hex} `{ToValue ForkchoiceState}
    `{ToValue PayloadAttributes} `{ToValue ExecutionPayload} `{ToValue PayloadId}
    `{FromValue ForkchoiceUpdated} `{FromValue ExecutionPayload} `{FromValue PayloadStatusEnum}
    : ExecutionRpc (W * N) := {|
  rpc_new_payload := new_payload_v4;
  rpc_forkchoice fc := fork_choice_updated_v3 fc None;
  rpc_current_head := fst <$> @engine_head _ engine_api;
  rpc_block_number := block_number;
  rpc_block_by_number := block_by_number
|}.

(** Reading the settlement registry. *)
Class SettlementReads (W : Type) := {
  read_latest : string → string → M W SettlementError N;
  read_table : string → string → M W SettlementError Address;
  read_commitment : string → Address → N → M W SettlementError (option BlobId)
}.
Definition sui_reads {W PrivKey PubKey Tx TxSig : Type} `{Ed25519 PrivKey PubKey} `{SuiSdk}
    `{SuiRpc W PrivKey Tx TxSig} `{Bcs RegistryBcs} `{Bcs FieldBlobBcs} : SettlementReads W := {|
  read_latest := latest_height;
  read_table := table_uid;
  read_commitment := commitment_at
|}.

(** [Ed25519PublicKey::from_str] and [Ed25519VerifyingKey::new]. *)
Class PubKeyText (PubKey : Type) := {
  pubkey_from_str : string → result string (array 32);
  verifying_key : array 32 → result string PubKey
}.

(** ** State *)

Section Node.
Context {PubKey : Type}.
Record FullNode := mk_node {
  registry_id : string;
  rpc_url : string;
  poll_interval : N;
  synced_height : N;
  head : B256;
  head_height : N;
  safe : B256;
  finalized : B256;
  persisted_forkchoice : option (B256 * B256 * B256);
  state_store : StateStore.t;
  has_receiver : bool;
  node_pubkey : option PubKey;
  cached_table : option Address;
  node_deadline : option DeadlineMonitor;
  halt_gate : option DeadlineStatus
}.

Definition set_head (h : B256) (n : N) (f : FullNode) : FullNode :=
  mk_node (registry_id f) (rpc_url f) (poll_interval f) (synced_height f) h n (safe f) (finalized f)
    (persisted_forkchoice f) (state_store f) (has_receiver f) (node_pubkey f) (cached_table f)
    (node_deadline f) (halt_gate f).
Definition set_finalized (h : B256) (n : N) (f : FullNode) : FullNode :=
  mk_node (registry_id f) (rpc_url f) (poll_interval f) n (head f) (head_height f) h h
    (persisted_forkchoice f) (state_store f) (has_receiver f) (node_pubkey f) (cached_table f)
    (node_deadline f) (halt_gate f).
Definition set_table (a : Address) (f : FullNode) : FullNode :=
  mk_node (registry_id f) (rpc_url f) (poll_interval f) (synced_height f) (head f) (head_height f)
    (safe f) (finalized f) (persisted_forkchoice f) (state_store f) (has_receiver f) (node_pubkey f)
    (Some a) (node_deadline f) (halt_gate f).
Definition set_gate (g : option DeadlineStatus) (f : FullNode) : FullNode :=
  mk_node (registry_id f) (rpc_url f) (poll_interval f) (synced_height f) (head f) (head_height f)
    (safe f) (finalized f) (persisted_forkchoice f) (state_store f) (has_receiver f) (node_pubkey f)
    (cached_table f) (node_deadline f) g.
(** The fork-choice pointers [run] starts from. *)
Definition set_start (synced : N) (h : B256) (n : N) (sf fin : B256) (f : FullNode) : FullNode :=
  mk_node (registry_id f) (rpc_url f) (poll_interval f) synced h n sf fin None (state_store f)
    (has_receiver f) (node_pubkey f) (cached_table f) (node_deadline f) (halt_gate f).
End Node.
#[global] Arguments FullNode PubKey : clear implicits.

(** *** The halt gate *)

(** [HaltGate::update]: what it remembers, and whether to skip the tick. *)
Definition gate_update (last : option DeadlineStatus) (read : result DeadlineError DeadlineStatus)
    : option DeadlineStatus * bool :=
  match read with
  | Ok status => if is_halted status then (Some status, true) else (None, false)
  | Err _ => (last, false)
  end.

Definition build_deadline_monitor `{SuiSdk} (c : Config) : option DeadlineMonitor :=
  let id := trim (default "" (sc_inbox_id (sui c))) in
  if bool_decide (id = "") then None else to_option (monitor_from_config id DEFAULT_MARGIN_MS).

(** [parse_forkchoice] *)
Definition parse_hash `{Hex} (s : string) : option B256 :=
  let s := trim s in
  if bool_decide (s = "") then None else to_option (b256_from_str s).
Definition parse_forkchoice `{Hex} (st : StateStore.ChainState) : option (B256 * B256 * B256) :=
  h ← parse_hash (StateStore.head st);
  s ← parse_hash (StateStore.safe st);
  f ← parse_hash (StateStore.finalized st);
  Some (h, s, f).

(** ** The node *)

Section Ops.
Context {W PubKey PrivKey : Type} `{ExecutionRpc W} `{SettlementReads W} `{DataAvailability W}
  `{HasDisk W} `{BlockReceiver W} `{InboxTransport W}.
Context `{Ed25519 PrivKey PubKey} `{PubKeyText PubKey} `{SuiSdk} `{Hex}.
Context `{Json StateStore.ChainState} `{Json ExecutionPayload}.
Context `{Bcs InboxBcs} `{Bcs FieldPendingBcs} `{Bcs ClockBcs}.
Abbreviation Node := (FullNode PubKey).
(** The node's fields and the world. *)
Abbreviation Op := (M (Node * W) anyhow).

Definition self : Op Node := fst <$> getM.
Definition set (f : Node → Node) : Op unit := modM (λ s, (f s.1, s.2)).
Definition io {E A} (f : E → anyhow) (m : M W E A) : Op A :=
  errM f (zoom snd (λ w s, (s.1, w)) m).
Definition engine_err (e : EngineError) : anyhow := [engine_error_text e].
Definition settlement_err (e : SettlementError) : anyhow := [settlement_error_text e].
Definition core_err (e : Core.Error) : anyhow := [display e].

Definition filled (s : option string) : option string :=
  s ≫= λ s, if is_blank s then None else Some s.

(** [FullNode::new] *)
Definition full_node_new (c : Config) (receiver : bool) : M W anyhow Node :=
  contextM ("initializing storage under " +:+ join_path (data_dir c))
    (errM (λ e, [store_error_text e]) (on_disk (Store.init (data_dir c))));;
  hex ← lift (ok_or (sequencer_pubkey (signer c)) ["sequencer_pubkey is required in full node mode"]);
  raw ← lift (context ("invalid sequencer_pubkey: " +:+ hex) (map_err (λ e, [e]) (pubkey_from_str hex)));
  key ← lift (context "building sequencer verifying key" (map_err (λ e, [e]) (verifying_key raw)));
  registry ← lift (ok_or (filled (sc_registry_id (sui c))) ["sui.registry_id is required in full node mode"]);
  let store := StateStore.new (data_dir c) in
  stored ← tryM (E := StoreError) (on_disk (StateStore.load store));
  let '(synced, fc) := match stored with
                       | Ok (Some st) => (StateStore.cs_height st, parse_forkchoice st)
                       | _ => (0, None)
                       end in
  mret (mk_node registry (sui_rpc_url (sui c)) (N.max (block_time_ms (sequencer c)) 100) synced
          ZERO synced ZERO ZERO fc store receiver (Some key) None (build_deadline_monitor c) None).

(** The head of [FullNode::run]: stored pointers, or the execution layer's. *)
Definition start : Op unit :=
  n ← self;
  match persisted_forkchoice n with
  | Some (h, s, f) => set (set_start (synced_height n) h (synced_height n) s f)
  | None =>
      h ← contextM "discovering chain head" (io engine_err rpc_current_head);
      set (set_head h (head_height n));;
      k ← contextM "querying head height from Reth" (io engine_err rpc_block_number);
      set (set_start k h k h h)
  end.

Definition verify_signature (b : Block) : Op unit :=
  n ← self;
  pk ← lift (ok_or (node_pubkey n) ["cannot verify blocks: no sequencer public key configured"]);
  lift (map_err core_err (verify_block_signature b pk)).

(** [serde_json::from_slice::<ExecutionPayloadV3>] *)
Definition decode_payload (bytes : list byte) : result anyhow ExecutionPayload :=
  context "decoding execution payload"
    (text ← ok_or (from_utf8 bytes) ["invalid utf-8"]; map_err (λ e, [e]) (json_from_str text)).

(** The payload status and the fork-choice status are not looked at. *)
Definition apply_block (b : Block) : Op unit :=
  p ← lift (decode_payload (data b));
  contextM "submitting block to Reth via engine_newPayloadV4"
    (io engine_err (rpc_new_payload p PARENT_BEACON_BLOCK_ROOT));;
  set (set_head (p_block_hash p) (height (header b)));;
  n ← self;
  contextM "advancing forkchoice via engine_forkchoiceUpdatedV3"
    (io engine_err (rpc_forkchoice (mk_fc (head n) (safe n) (finalized n))));;
  mret tt.

Definition mark_finalized (b : Block) : Op unit :=
  p ← lift (decode_payload (data b));
  set (set_finalized (p_block_hash p) (height (header b)));;
  n ← self;
  contextM "advancing finalized via engine_forkchoiceUpdatedV3"
    (io engine_err (rpc_forkchoice (mk_fc (head n) (safe n) (finalized n))));;
  tryM (io (λ e, [store_error_text e])
          (on_disk (StateStore.save (state_store n)
             (StateStore.mk_ChainState (fmt_b256 (head n)) (fmt_b256 (safe n))
                (fmt_b256 (finalized n)) (synced_height n) (timestamp (header b))))));;
  mret tt.

Definition apply_and_finalize (b : Block) : Op unit :=
  p ← lift (decode_payload (data b));
  n ← self;
  already ← (if height (header b) <=? head_height n then
               o ← contextM "querying Reth block for DA verification"
                     (io engine_err (rpc_block_by_number (height (header b))));
               mret (bool_decide (o = Some (p_block_hash p)))
             else mret false);
  (if already : bool then mret tt else apply_block b);;
  mark_finalized b.

(** *** Settlement sync *)

Definition blocks_of (cache : option (BlobId * list Block)) (id : BlobId) : Op (list Block) :=
  match cache with
  | Some (c, blocks) => if bool_decide (c = id) then mret blocks else io core_err (da_fetch id)
  | None => io core_err (da_fetch id)
  end.

Definition sync_height (table : Address) (cache : option (BlobId * list Block)) (h : N)
    : Op (BlobId * list Block) :=
  n ← self;
  o ← contextM ("reading settlement for height " +:+ fmt_dec h)
        (io settlement_err (read_commitment (rpc_url n) table h));
  id ← lift (ok_or o ["height " +:+ fmt_dec h +:+ " not settled"]);
  blocks ← blocks_of cache id;
  b ← lift (ok_or (snd <$> list_find (λ b, height (header b) = h) blocks)
              ["height " +:+ fmt_dec h +:+ " not found in DA batch"]);
  verify_signature b;;
  apply_and_finalize b;;
  mret (id, blocks).

Fixpoint sync_heights (table : Address) (cache : option (BlobId * list Block)) (heights : list N)
    : Op unit :=
  match heights with
  | [] => mret tt
  | h :: heights => c ← sync_height table cache h; sync_heights table (Some c) heights
  end.

Definition table_address : Op Address :=
  n ← self;
  match cached_table n with
  | Some a => mret a
  | None =>
      a ← contextM "reading commitments table UID from registry"
            (io settlement_err (read_table (rpc_url n) (registry_id n)));
      set (set_table a);; mret a
  end.

Definition sync_from_settlement : Op unit :=
  n ← self;
  latest ← io settlement_err (read_latest (rpc_url n) (registry_id n));
  if latest <=? synced_height n then mret tt
  else table ← table_address; sync_heights table None (range (synced_height n + 1) (latest + 1)).

(** *** Broadcasts *)

Definition poll_p2p : Op unit :=
  n ← self;
  if negb (has_receiver n) then mret tt
  else
    announce ← eff (λ s, let '(a, w) := poll_next s.2 in (Ok a, (s.1, w)));
    match announce with
    | None => mret tt
    | Some a =>
        if ann_height a <=? synced_height n then mret tt
        else
          block ← eff (λ s, let '(b, w) := receive (ann_digest a) s.2 in (Ok b, (s.1, w)));
          match block with
          | None => mret tt
          | Some b => verify_signature b;; apply_block b
          end
    end.

(** One tick of the loop; failures of the two passes are logged. *)
Definition halted : Op bool :=
  n ← self;
  match node_deadline n with
  | None => mret false
  | Some m =>
      read ← tryM (E := DeadlineError) (zoom snd (λ w s, (s.1, w)) (status m));
      let '(g, stop) := gate_update (halt_gate n) read in
      set (set_gate g);; mret stop
  end.
Definition tick : Op unit :=
  stop ← halted;
  if (stop : bool) then mret tt
  else tryM (E := anyhow) sync_from_settlement;; tryM (E := anyhow) poll_p2p;; mret tt.
End Ops.

(** ** Committee admission *)

Section AdmissionPoll.
Context {W PeerKey Identity : Type} `{InboxTransport W} `{SuiSdk} `{Bcs FieldBookBcs}
  `{PeerKeys PeerKey Identity}.

(** [poll_admission]: the version read, the handle and the applied version. *)
Definition poll_admission (registry package : Address) (h : @AdmissionHandle PeerKey)
    (applied : option N) : M W InboxError (N * @AdmissionHandle PeerKey * option N) :=
  snapshot ← peer_book_snapshot registry package;
  let v := book_version snapshot in
  if bool_decide (applied = Some v) then mret (v, h, applied)
  else mret (v, admit_peers v (peer_pubkey <$> book_peers snapshot) h, Some v).

(** [build_admission]: the handle with the registry and package to read. *)
Definition build_admission (c : Config) (h : option (@AdmissionHandle PeerKey))
    : option (@AdmissionHandle PeerKey * Address * Address) :=
  h ← h;
  registry ← filled (sc_registry_id (sui c)) ≫= λ s, to_option (parse_address s "sui.registry_id");
  package ← filled (settlement_package_id (sui c)) ≫= λ s,
              to_option (parse_address s "sui.settlement_package_id");
  Some (h, registry, package).
End AdmissionPoll.

(** ** What a node has seen *)

Module NodeWorld.
(** Answers the node got, in order. *)
Inductive event :=
| Latest (h : N)
| Commitment (h : N) (id : BlobId)
| Fetched (id : BlobId) (blocks : list Block)
| Imported (p : ExecutionPayload) (s : PayloadStatusEnum)
| Forkchoice (fc : ForkchoiceState).

Record t (E D S R X : Type) := mk {
  el : E; da : D; chain : S; net : R; inbox : X; dsk : disk; log : list event
}.
#[global] Arguments mk {E D S R X}. #[global] Arguments el {E D S R X}.
#[global] Arguments da {E D S R X}. #[global] Arguments chain {E D S R X}.
#[global] Arguments net {E D S R X}. #[global] Arguments inbox {E D S R X}.
#[global] Arguments dsk {E D S R X}. #[global] Arguments log {E D S R X}.

Section world.
Context {E D S R X : Type}.
Abbreviation world := (t E D S R X).
Definition put_el (e : E) (w : world) : world :=
  mk e (da w) (chain w) (net w) (inbox w) (dsk w) (log w).
Definition put_da (d : D) (w : world) : world :=
  mk (el w) d (chain w) (net w) (inbox w) (dsk w) (log w).
Definition put_chain (s : S) (w : world) : world :=
  mk (el w) (da w) s (net w) (inbox w) (dsk w) (log w).
Definition put_net (r : R) (w : world) : world :=
  mk (el w) (da w) (chain w) r (inbox w) (dsk w) (log w).
Definition put_inbox (x : X) (w : world) : world :=
  mk (el w) (da w) (chain w) (net w) x (dsk w) (log w).
Definition put_dsk (d : disk) (w : world) : world :=
  mk (el w) (da w) (chain w) (net w) (inbox w) d (log w).
Definition note (e : option event) (w : world) : world :=
  mk (el w) (da w) (chain w) (net w) (inbox w) (dsk w) (log w ++ option_list e).

(** Run on a component and note the answer. *)
Definition on {Y Er A} (get : world → Y) (put : Y → world → world) (m : M Y Er A)
    (ev : A → option event) : M world Er A := λ w,
  let '(r, y) := m (get w) in
  (r, note (match r with Ok a => ev a | Err _ => None end) (put y w)).

#[global] Instance nw_engine `{ExecutionRpc E} : ExecutionRpc world := {|
  rpc_new_payload p root := on el put_el (rpc_new_payload p root) (λ s, Some (Imported p s));
  rpc_forkchoice fc := on el put_el (rpc_forkchoice fc) (λ _, Some (Forkchoice fc));
  rpc_current_head := on el put_el rpc_current_head (λ _, None);
  rpc_block_number := on el put_el rpc_block_number (λ _, None);
  rpc_block_by_number h := on el put_el (rpc_block_by_number h) (λ _, None)
|}.
#[global] Instance nw_da `{DataAvailability D} : DataAvailability world := {|
  da_publish bs := on da put_da (da_publish bs) (λ _, None);
  da_fetch id := on da put_da (da_fetch id) (λ bs, Some (Fetched id bs))
|}.
#[global] Instance nw_chain `{SettlementReads S} : SettlementReads world := {|
  read_latest u r := on chain put_chain (read_latest u r) (λ h, Some (Latest h));
  read_table u r := on chain put_chain (read_table u r) (λ _, None);
  read_commitment u a h :=
    on chain put_chain (read_commitment u a h) (fmap (Commitment h))
|}.
#[global] Instance nw_disk : HasDisk world := {| get_disk := dsk; put_disk := put_dsk |}.
#[global] Instance nw_net `{BlockReceiver R} : BlockReceiver world := {|
  poll_buffer w := let '(b, r) := poll_buffer (net w) in (b, put_net r w);
  receive d w := let '(b, r) := receive d (net w) in (b, put_net r w)
|}.
#[global] Instance nw_inbox `{InboxTransport X} : InboxTransport world := {|
  tr_object_contents id := zoom inbox put_inbox (tr_object_contents id);
  tr_field_contents table key := zoom inbox put_inbox (tr_field_contents table key)
|}.
End world.
End NodeWorld.

(** ** The node follows settlement *)

Section Sync.
Import NodeWorld.
Context {E D S R X PrivKey PubKey : Type} `{ExecutionRpc E} `{DataAvailability D}
  `{SettlementReads S} `{BlockReceiver R} `{InboxTransport X} `{Ed25519 PrivKey PubKey} `{Hex}
  `{Json StateStore.ChainState} `{Json ExecutionPayload}.
Abbreviation state := (FullNode PubKey * NodeWorld.t E D S R X)%type.
Implicit Types (P : state → Prop) (n : FullNode PubKey).

(** More answers, same fields. *)
Definition later (s s' : state) : Prop := s'.1 = s.1 ∧ log s.2 ⊆ log s'.2.
Definition stable P : Prop := ∀ s s', P s → later s s' → P s'.
Lemma stable_seen P e : stable P → stable (λ s, P s ∧ e ∈ log s.2).
Proof. intros Hs s s' [HP He] Hl. split; [by eapply Hs|]. by apply Hl. Qed.

Lemma io_on {Y Er A} (get : NodeWorld.t E D S R X → Y) put (m : M Y Er A) ev f P :
  stable P → (∀ y w, log (put y w) = log w) →
  triple P (io f (on get put m ev)) (λ a s, P s ∧ ∀ e, ev a = Some e → e ∈ log s.2) P.
Proof.
  intros HP Hput [n w] Hw. unfold io, errM, zoom, on. cbn.
  destruct (m (get w)) as [r y]. 
  assert (∀ o, later (n, w) (n, note o (put y w))) as Hl.
  { intros o. split; [done|]. cbn. rewrite Hput. intros e ?. apply elem_of_app. by left. }
  destruct r as [a|]; cbn; [|by eapply HP].
  split; [by eapply HP|]. intros e ->. cbn. apply elem_of_app. right. by apply list_elem_of_singleton.
Qed.
Lemma io_disk {A} (m : M disk StoreError A) f P :
  stable P → triple P (io f (on_disk m)) (λ _, P) P.
Proof.
  intros HP [n w] Hw. unfold io, errM, on_disk, zoom. cbn. destruct (m (dsk w)) as [[] d];
    (eapply HP; [exact Hw|]; by split).
Qed.
Lemma triple_self P (Q : _ → state → Prop) Rr :
  (∀ s, P s → Q s.1 s) → triple P self Q Rr.
Proof. intros HQ s Hs. by apply HQ. Qed.

(** The block settled at height [h], as the node saw it. *)
Definition settled_block (pk : PubKey) (l : list event) (h : N) (b : Block) : Prop :=
  height (header b) = h ∧ verify_block_signature b pk = Ok tt ∧
  ∃ id blocks i, Commitment h id ∈ l ∧ Fetched id blocks ∈ l ∧
    list_find (λ b, height (header b) = h) blocks = Some (i, b).
Definition payload_hash (b : Block) : option B256 :=
  p_block_hash <$> to_option (decode_payload (data b)).

(** The node has followed settlement from [n0] by the blocks [bs], with at
    least the answers [L]. *)
Definition followed n0 (L : list event) (bs : list Block) (s : state) : Prop :=
  L ⊆ log s.2 ∧ node_pubkey s.1 = node_pubkey n0 ∧
  synced_height s.1 = synced_height n0 + N.of_nat (length bs) ∧
  (∀ i b, bs !! i = Some b → ∃ pk, node_pubkey n0 = Some pk ∧
     settled_block pk (log s.2) (synced_height n0 + N.of_nat i + 1) b) ∧
  match last bs with
  | None => finalized s.1 = finalized n0 ∧ safe s.1 = safe n0
  | Some b => payload_hash b = Some (finalized s.1) ∧ safe s.1 = finalized s.1
  end.

Lemma settled_block_mono pk l l' h b : l ⊆ l' → settled_block pk l h b → settled_block pk l' h b.
Proof. intros Hl (? & ? & id & bs & i & ? & ? & ?). split_and!; try done. exists id, bs, i. auto. Qed.
Lemma followed_stable n0 L bs : stable (followed n0 L bs).
Proof.
  intros s s' (HL & Hk & Hh & Hb & Hf) [Hn Hl]. unfold followed. rewrite Hn. split_and!; try done.
  { etrans; [exact HL|exact Hl]. }
  intros i b Hi. destruct (Hb i b Hi) as (pk & ? & ?). exists pk. split; [done|].
  by eapply settled_block_mono.
Qed.

(** Applying a block moves the head only. *)
Definition headless P : Prop := ∀ h k s, P s → P (set_head h k s.1, s.2).
Lemma followed_headless n0 L bs : headless (followed n0 L bs).
Proof. intros h k s Hf. exact Hf. Qed.

Lemma apply_block_triple P b : stable P → headless P → triple P (apply_block b) (λ _, P) P.
Proof.
  intros HP Hh. unfold apply_block.
  eapply triple_bind; [apply triple_lift with (Q := λ _, P); auto|intros p].
  eapply triple_bind; [apply triple_err, io_on; [done|by intros]|intros st].
  eapply triple_bind.
  { apply triple_mod with (Q := λ _, P). intros s [Hs _]. by apply Hh. }
  intros []. eapply triple_bind; [apply triple_self with (Q := λ _, P); auto|intros n].
  eapply triple_bind; [apply triple_err, io_on; [done|by intros]|intros fc].
  apply triple_ret. by intros s [].
Qed.

(** Wherever it stops, the node has followed some blocks. *)
Definition following n0 (s : state) : Prop := ∃ L bs, followed n0 L bs s.
Lemma followed_following n0 L bs s : followed n0 L bs s → following n0 s.
Proof. by exists L, bs. Qed.
#[local] Hint Resolve followed_following : core.

Lemma mark_finalized_triple n0 L bs b :
  triple (λ s, followed n0 L bs s ∧ ∃ pk, node_pubkey n0 = Some pk ∧
            settled_block pk (log s.2) (synced_height n0 + N.of_nat (length bs) + 1) b)
    (mark_finalized b) (λ _, followed n0 L (bs ++ [b])) (following n0).
Proof.
  unfold mark_finalized.
  eapply triple_bind.
  { apply triple_lift with (Q := λ p s, (followed n0 L bs s ∧ ∃ pk, node_pubkey n0 = Some pk ∧
      settled_block pk (log s.2) (synced_height n0 + N.of_nat (length bs) + 1) b)
      ∧ payload_hash b = Some (p_block_hash p)).
    - intros s p [Hf Hs] Hp. split; [done|]. unfold payload_hash. by rewrite Hp.
    - intros s [Hf _]. eauto. }
  intros p. eapply triple_bind.
  { apply triple_mod with (Q := λ _, followed n0 L (bs ++ [b])).
    intros s [[(HL & Hk & Hh & Hb & Hl) (pk & Hpk & Hs)] Hp].
    pose proof Hs as (Hhb & _). unfold followed. cbn. split_and!; [done|done| | |].
    - rewrite length_app. cbn. lia.
    - intros i c Hi. apply lookup_app_Some in Hi as [Hi|[Hle Hi]]; [by apply Hb|].
      assert (i = length bs) as -> by (apply lookup_lt_Some in Hi; cbn in Hi; lia).
      rewrite Nat.sub_diag in Hi. injection Hi as <-. by exists pk.
    - by rewrite last_snoc. }
  intros []. eapply triple_bind; [apply triple_self with (Q := λ _, followed n0 L (bs ++ [b])); auto|].
  intros n. eapply triple_bind.
  { eapply triple_weaken; [apply triple_err, io_on; [apply followed_stable|by intros]|..]; cbn;
      [intros s Hs; exact Hs|intros a s Hs; exact Hs|eauto]. }
  intros fc. eapply triple_bind.
  { apply triple_try with (Q := λ _, followed n0 L (bs ++ [b])) (R' := followed n0 L (bs ++ [b])).
    eapply triple_weaken; [apply io_disk, followed_stable|by intros s []|by intros []|by intros]. }
  intros [[]|]; by apply triple_ret.
Qed.

Lemma apply_and_finalize_triple n0 L bs b :
  triple (λ s, followed n0 L bs s ∧ ∃ pk, node_pubkey n0 = Some pk ∧
            settled_block pk (log s.2) (synced_height n0 + N.of_nat (length bs) + 1) b)
    (apply_and_finalize b) (λ _, followed n0 L (bs ++ [b])) (following n0).
Proof.
  set (P := λ s : state, followed n0 L bs s ∧ ∃ pk, node_pubkey n0 = Some pk ∧
            settled_block pk (log s.2) (synced_height n0 + N.of_nat (length bs) + 1) b).
  assert (stable P) as HP.
  { intros s s' [Hf (pk & ? & ?)] Hl. split; [by eapply followed_stable|]. exists pk.
    split; [done|]. eapply settled_block_mono; [apply Hl|done]. }
  assert (headless P) as Hh by (intros h k s Hs; exact Hs).
  assert (∀ s, P s → following n0 s) as HR by (intros s []; eauto).
  unfold apply_and_finalize.
  eapply triple_bind; [apply triple_lift with (Q := λ _, P); auto|intros p].
  eapply triple_bind; [apply triple_self with (Q := λ _, P); auto|intros n].
  eapply triple_bind with (Q := λ _, P).
  { destruct (_ <=? _); [|by apply triple_ret].
    eapply triple_bind.
    - eapply triple_weaken; [apply triple_err, io_on; [exact HP|by intros]|auto| |auto].
      intros a s Hs. exact Hs.
    - intros o. apply triple_ret. by intros s []. }
  intros already. eapply triple_bind with (Q := λ _, P); [|intros _; apply mark_finalized_triple].
  destruct already; [by apply triple_ret|].
  eapply triple_weaken; [apply (apply_block_triple P b HP Hh)|auto|auto|auto].
Qed.

Lemma followed_seen n0 L bs s e : followed n0 L bs s → e ∈ log s.2 → followed n0 (e :: L) bs s.
Proof.
  intros (HL & Hr) He. split; [|done]. intros x [->|Hx]%elem_of_cons; [done|]. by apply HL.
Qed.
Lemma followed_weaken n0 L L' bs s : L' ⊆ L → followed n0 L bs s → followed n0 L' bs s.
Proof. intros Hs (HL & Hr). split; [by etrans|done]. Qed.

(** What is cached was fetched. *)
Definition cached (cache : option (BlobId * list Block)) (l : list event) : Prop :=
  ∀ id blocks, cache = Some (id, blocks) → Fetched id blocks ∈ l.
Lemma cached_stable n0 L bs c : stable (λ s, followed n0 L bs s ∧ cached c (log s.2)).
Proof.
  intros s s' [Hf Hc] Hl. split; [by eapply followed_stable|]. intros id blocks Hi.
  apply Hl. by apply Hc.
Qed.

Lemma blocks_of_triple n0 L bs cache id :
  triple (λ s, followed n0 L bs s ∧ cached cache (log s.2)) (blocks_of cache id)
    (λ blocks s, followed n0 L bs s ∧ Fetched id blocks ∈ log s.2) (following n0).
Proof.
  assert (triple (λ s, followed n0 L bs s ∧ cached cache (log s.2)) (io core_err (da_fetch id))
            (λ blocks s, followed n0 L bs s ∧ Fetched id blocks ∈ log s.2) (following n0)) as Hf.
  { eapply triple_weaken; [apply io_on; [apply cached_stable|by intros]|cbn..].
    - intros s Hs. exact Hs.
    - intros blocks s [[Hf _] He]. split; [exact Hf|by apply He].
    - intros s [Hf _]. eauto. }
  unfold blocks_of. destruct cache as [[c blocks]|]; [|exact Hf].
  case_bool_decide; [|exact Hf]. subst c. apply triple_ret. intros s [Hs Hc]. split; [done|]. by apply Hc.
Qed.

Lemma verify_triple n0 L bs b :
  triple (followed n0 L bs) (verify_signature b)
    (λ _ s, followed n0 L bs s ∧
       ∃ pk, node_pubkey n0 = Some pk ∧ verify_block_signature b pk = Ok tt) (following n0).
Proof.
  unfold verify_signature.
  eapply triple_bind; [apply triple_self with
    (Q := λ n s, followed n0 L bs s ∧ node_pubkey n = node_pubkey n0); intros s Hs; split; [done|apply Hs]|].
  intros n. eapply triple_bind.
  { apply triple_lift with (Q := λ pk s, followed n0 L bs s ∧ node_pubkey n0 = Some pk).
    - intros s pk [Hf Hn] Hpk. split; [done|]. rewrite Hn in Hpk. by destruct (node_pubkey n0); [injection Hpk as ->|].
    - intros s [Hf _]. eauto. }
  intros pk. apply triple_lift; [|intros s []; eauto]. intros s [] [Hf Hpk] Hv.
  split; [done|]. exists pk. split; [done|]. by destruct (verify_block_signature b pk) as [[]|].
Qed.

Lemma sync_height_triple n0 L bs table cache h :
  h = synced_height n0 + N.of_nat (length bs) + 1 →
  triple (λ s, followed n0 L bs s ∧ cached cache (log s.2)) (sync_height table cache h)
    (λ c s, (∃ b, followed n0 L (bs ++ [b]) s) ∧ cached (Some c) (log s.2)) (following n0).
Proof.
  intros ->. unfold sync_height.
  eapply triple_bind; [apply triple_self with (Q := λ _ s, followed n0 L bs s ∧ cached cache (log s.2)); auto|].
  intros n. eapply triple_bind.
  { apply triple_err. eapply triple_weaken; [apply io_on; [apply cached_stable|by intros]|cbn..].
    - intros s Hs. exact Hs.
    - intros o s Hs. exact Hs.
    - intros s [Hf _]. eauto. }
  intros o. cbn. eapply triple_bind.
  { apply triple_lift with (Q := λ id s, (followed n0 L bs s ∧ cached cache (log s.2)) ∧
      Commitment (synced_height n0 + N.of_nat (length bs) + 1) id ∈ log s.2).
    - intros s id [Hf Ho] Hid. destruct o as [i|]; [|done]. injection Hid as ->.
      split; [done|]. by apply Ho.
    - intros s [[Hf _] _]. eauto. }
  intros id. eapply triple_bind.
  { eapply triple_weaken; [apply (blocks_of_triple n0
      (Commitment (synced_height n0 + N.of_nat (length bs) + 1) id :: L) bs cache id)|cbn..].
    - intros s [[Hf Hc] He]. split; [by apply followed_seen|done].
    - intros blocks s [Hf He]. exact (followed_seen _ _ _ _ _ Hf He).
    - done. }
  intros blocks. cbn. eapply triple_bind.
  { apply triple_lift with (Q := λ b s, followed n0
      (Fetched id blocks :: Commitment (synced_height n0 + N.of_nat (length bs) + 1) id :: L) bs s ∧
      ∃ i, list_find (λ b, height (header b) = synced_height n0 + N.of_nat (length bs) + 1) blocks
           = Some (i, b)); [|eauto].
    intros s b Hf Hb. split; [done|]. destruct (list_find _ blocks) as [[i x]|]; [|done].
    injection Hb as <-. by exists i. }
  intros b. apply triple_pure. intros [i Hin].
  pose proof (proj1 (list_find_Some _ _ _ _) Hin) as (_ & Hb & _).
  eapply triple_bind; [apply verify_triple|intros []].
  eapply triple_bind with (Q := λ _ s, (∃ b, followed n0 L (bs ++ [b]) s) ∧
      cached (Some (id, blocks)) (log s.2)); [|intros []; by apply triple_ret].
  eapply triple_weaken; [apply (apply_and_finalize_triple n0
    (Fetched id blocks :: Commitment (synced_height n0 + N.of_nat (length bs) + 1) id :: L) bs b)|cbn..].
  - intros s [Hf (pk & Hpk & Hv)]. split; [done|]. exists pk. split; [done|]. split_and!; [done..|].
    exists id, blocks, i. destruct Hf as [HL _]. split_and!; [apply HL; right; left|apply HL; left|done].
  - intros [] s Hf. split.
    + exists b. eapply followed_weaken; [|exact Hf]. intros e He. right. by right.
    + intros j bl [= <- <-]. apply (proj1 Hf). left.
  - done.
Qed.

Lemma sync_heights_triple n0 L table k len bs cache :
  length bs = k →
  triple (λ s, followed n0 L bs s ∧ cached cache (log s.2))
    (sync_heights table cache ((λ i, synced_height n0 + 1 + N.of_nat i) <$> seq k len))
    (λ _ s, ∃ bs', length bs' = (k + len)%nat ∧ followed n0 L bs' s) (following n0).
Proof.
  revert k bs cache. induction len as [|len IH]; intros k bs cache Hk; cbn.
  { apply triple_ret. intros s [Hf _]. exists bs. split; [lia|done]. }
  eapply triple_bind; [apply sync_height_triple; lia|]. intros c s [[b Hf] Hc].
  assert (length (bs ++ [b]) = Datatypes.S k) as Hl by (rewrite length_app; cbn; lia).
  specialize (IH (Datatypes.S k) (bs ++ [b]) (Some c) Hl s (conj Hf Hc)).
  destruct (sync_heights _ _ _ s) as [[[]|] s']; [|done].
  destruct IH as (bs' & Hl' & Hf'). exists bs'. split; [lia|done].
Qed.

Lemma table_triple n0 L bs :
  triple (followed n0 L bs) table_address (λ _, followed n0 L bs) (following n0).
Proof.
  unfold table_address. eapply triple_bind; [apply triple_self with (Q := λ _, followed n0 L bs); auto|].
  intros n. destruct (cached_table n); [by apply triple_ret|]. eapply triple_bind.
  { eapply triple_weaken; [apply triple_err, io_on; [apply (followed_stable n0 L bs)|by intros]|cbn..].
    - done.
    - intros a s Hs. exact Hs.
    - eauto. }
  intros a. eapply triple_bind with (Q := λ _, followed n0 L bs); [|intros []; by apply triple_ret].
  apply triple_mod. intros s [Hs _]. exact Hs.
Qed.

Lemma sync_triple n0 :
  triple (λ s, s.1 = n0) sync_from_settlement
    (λ _ s, ∃ bs latest, followed n0 [Latest latest] bs s ∧
              synced_height s.1 = N.max (synced_height n0) latest) (following n0).
Proof.
  unfold sync_from_settlement.
  assert (∀ s, s.1 = n0 → followed n0 [] [] s) as H0'.
  { intros s <-. split; [intros e He; by apply not_elem_of_nil in He|].
    split_and!; try done. by rewrite N.add_0_r. }
  eapply triple_bind; [apply triple_self with (Q := λ n s, n = n0 ∧ followed n0 [] [] s)|].
  { intros s Hs. split; [done|]. by apply H0'. }
  intros n. eapply triple_weaken with (P' := λ s, followed n0 [] [] s ∧ n = n0);
    [apply triple_pure; intros -> |by intros s []|intros a s Hs; exact Hs|intros s Hs; exact Hs].
  eapply triple_bind.
  { eapply triple_weaken; [apply io_on; [apply (followed_stable n0 [] [])|by intros]|cbn..].
    - done.
    - intros h s Hs. exact Hs.
    - eauto. }
  intros latest. cbn.
  eapply triple_weaken with (P' := followed n0 [Latest latest] []);
    [|intros s [Hf He]; apply followed_seen; auto|intros a s Hs; exact Hs|intros s Hs; exact Hs].
  destruct (N.leb_spec latest (synced_height n0)) as [Hle|Hlt].
  - apply triple_ret. intros s Hf. exists [], latest. split; [done|].
    destruct Hf as (_ & _ & -> & _). cbn. lia.
  - eapply triple_bind; [apply table_triple|]. intros a. unfold range.
    replace (N.to_nat (latest + 1 - (synced_height n0 + 1))) with (N.to_nat (latest - synced_height n0)) by lia.
    eapply triple_weaken; [apply (sync_heights_triple n0 [Latest latest] a 0 _ [] None); done|cbn..].
    + intros s Hf. by split.
    + intros [] s (bs & Hl & Hf). exists bs, latest. split; [done|].
      destruct Hf as (_ & _ & -> & _). lia.
    + done.
Qed.

(** *** Broadcasts *)

(** Only the head has moved, to a block signed by the sequencer. *)
Definition optimistic n0 (s : state) : Prop :=
  s.1 = n0 ∨
  ∃ b pk, node_pubkey n0 = Some pk ∧ verify_block_signature b pk = Ok tt ∧
    payload_hash b = Some (head s.1) ∧ s.1 = set_head (head s.1) (height (header b)) n0.
Lemma optimistic_stable n0 : stable (optimistic n0).
Proof. intros s s' Hs [Hn _]. unfold optimistic. by rewrite Hn. Qed.

Lemma apply_optimistic n0 b pk :
  node_pubkey n0 = Some pk → verify_block_signature b pk = Ok tt →
  triple (λ s, s.1 = n0) (apply_block b) (λ _, optimistic n0) (optimistic n0).
Proof.
  intros Hpk Hv. unfold apply_block.
  eapply triple_bind.
  { apply triple_lift with (Q := λ p s, s.1 = n0 ∧ payload_hash b = Some (p_block_hash p)).
    - intros s p Hs Hp. split; [done|]. unfold payload_hash. by rewrite Hp.
    - by left. }
  intros p. apply triple_bind with (Q := λ _ s, s.1 = n0 ∧ payload_hash b = Some (p_block_hash p)).
  { eapply triple_weaken; [apply triple_err, io_on;
      [|by intros]|intros s Hs; exact Hs|intros a s Hs; apply Hs|intros s [Hs _]; by left].
    intros s s' [Hs ?] [Hl _]. by rewrite Hl. }
  intros _. eapply triple_bind with (Q := λ _, optimistic n0).
  { apply triple_mod. intros s [<- Hp]. right. by exists b, pk. }
  intros []. eapply triple_bind; [apply triple_self with (Q := λ _, optimistic n0); auto|intros n].
  eapply triple_bind; [apply triple_err, io_on; [apply optimistic_stable|by intros]|intros fc].
  apply triple_ret. by intros s [].
Qed.

Lemma poll_optimistic n0 : triple (λ s, s.1 = n0) poll_p2p (λ _, optimistic n0) (optimistic n0).
Proof.
  unfold poll_p2p.
  eapply triple_bind; [apply triple_self with (Q := λ n s, s.1 = n0 ∧ n = n0); by intros s <-|].
  intros n. apply triple_pure. intros ->.
  destruct (negb _); [apply triple_ret; by left|].
  eapply triple_bind with (Q := λ _ s, s.1 = n0).
  { intros [n w] Hs. unfold eff. cbn [fst snd]. by destruct (poll_next w). }
  intros [a|]; [|apply triple_ret; by left].
  destruct (_ <=? _); [apply triple_ret; by left|].
  eapply triple_bind with (Q := λ _ s, s.1 = n0).
  { intros [n w] Hs. unfold eff. cbn [fst snd]. by destruct (receive (ann_digest a) w). }
  intros [b|]; [|apply triple_ret; by left]. unfold verify_signature.
  eapply triple_bind with (Q := λ _ s, s.1 = n0 ∧
    ∃ pk, node_pubkey n0 = Some pk ∧ verify_block_signature b pk = Ok tt).
  { eapply triple_bind; [apply triple_self with (Q := λ n s, s.1 = n0 ∧ n = n0); by intros s <-|].
    intros n. apply triple_pure. intros ->. eapply triple_bind.
    - apply triple_lift with (Q := λ pk s, s.1 = n0 ∧ node_pubkey n0 = Some pk); [|by left].
      intros s pk Hs Hk. split; [done|]. by destruct (node_pubkey n0); [injection Hk as ->|].
    - intros pk. apply triple_lift; [|intros s []; by left]. intros s [] [Hs Hk] Hv. split; [done|].
      exists pk. split; [done|]. by destruct (verify_block_signature b pk) as [[]|]. }
  intros []. apply triple_pure. intros (pk & Hk & Hv). by apply apply_optimistic with pk.
Qed.

(** *** Runs that cannot fail *)

Abbreviation at_node n0 := (λ s : state, s.1 = n0).
Abbreviation never := (λ _ : state, False).

Lemma io_total {Y Er A} (get : NodeWorld.t E D S R X → Y) put (m : M Y Er A) ev f n0 :
  (∀ y, is_ok (m y).1 = true) →
  triple (at_node n0) (io f (on get put m ev)) (λ _, at_node n0) never.
Proof.
  intros Hm [n w] Hn. unfold io, errM, zoom, on. cbn. specialize (Hm (get w)).
  by destruct (m (get w)) as [[]].
Qed.

Section Trusting.
Context (takes : ∀ q root (e : E), is_ok (rpc_new_payload q root e).1 = true).
Context (moves : ∀ fc (e : E), is_ok (rpc_forkchoice fc e).1 = true).
Context (b : Block) (p : ExecutionPayload) (decodes : decode_payload (data b) = Ok p).

Lemma apply_total n0 :
  triple (at_node n0) (apply_block b)
    (λ _, at_node (set_head (p_block_hash p) (height (header b)) n0)) never.
Proof using takes moves decodes.
  unfold apply_block. rewrite decodes.
  eapply triple_bind; [by apply (triple_lift_ok _ p (λ q s, s.1 = n0 ∧ q = p))|].
  intros q. apply triple_pure. intros ->.
  eapply triple_bind; [by apply triple_err, io_total|intros st].
  eapply triple_bind.
  { apply (triple_mod _ _ (λ _, at_node (set_head (p_block_hash p) (height (header b)) n0))).
    by intros s <-. }
  intros []. eapply triple_bind;
    [by apply (triple_self _ (λ _, at_node (set_head (p_block_hash p) (height (header b)) n0)))|].
  intros n. eapply triple_bind; [by apply triple_err, io_total|intros fc]. by apply triple_ret.
Qed.

Lemma finalize_total n0 :
  triple (at_node n0) (mark_finalized b)
    (λ _, at_node (set_finalized (p_block_hash p) (height (header b)) n0)) never.
Proof using moves decodes.
  set (n1 := set_finalized (p_block_hash p) (height (header b)) n0).
  unfold mark_finalized. rewrite decodes.
  eapply triple_bind; [by apply (triple_lift_ok _ p (λ q s, s.1 = n0 ∧ q = p))|].
  intros q. apply triple_pure. intros ->.
  eapply triple_bind; [apply (triple_mod _ _ (λ _, at_node n1)); by intros s <-|].
  intros []. eapply triple_bind; [by apply (triple_self _ (λ _, at_node n1))|].
  intros n. eapply triple_bind; [by apply triple_err, io_total|intros fc].
  eapply triple_bind.
  { apply triple_try with (Q := λ _, at_node n1) (R' := at_node n1).
    apply io_disk. intros s s' Hs [Hn _]. by rewrite Hn. }
  intros [[]|]; by apply triple_ret.
Qed.
End Trusting.
End Sync.

(** C6: A full node follows settlement and nothing else.  Whatever the
    execution layer, the availability layer, the chain's RPC and the disk
    answer, one pass moves the synced height by exactly the blocks it found,
    one per height; each of them is the first block of that height in a batch the
    node fetched under the identifier it read from the settlement registry for
    that height, signed by the configured sequencer key.  The finalized and
    safe pointers are the last such block's payload hash (or unchanged), and a
    pass that succeeds ends at the height the registry reported. *)
Theorem full_node_follows_settlement {E D S R X PrivKey PubKey : Type} `{ExecutionRpc E}
    `{DataAvailability D} `{SettlementReads S}
    `{Ed25519 PrivKey PubKey} `{Hex} `{Json StateStore.ChainState} `{Json ExecutionPayload}
    (n n' : FullNode PubKey) (w w' : NodeWorld.t E D S R X) r :
  sync_from_settlement (n, w) = (r, (n', w')) →
  ∃ bs, synced_height n' = synced_height n + N.of_nat (length bs) ∧
    (∀ i b, bs !! i = Some b → ∃ pk, node_pubkey n = Some pk ∧
       settled_block pk (NodeWorld.log w') (synced_height n + N.of_nat i + 1) b) ∧
    match last bs with
    | None => finalized n' = finalized n ∧ safe n' = safe n
    | Some b => payload_hash b = Some (finalized n') ∧ safe n' = finalized n'
    end ∧
    (r = Ok tt → ∃ latest, NodeWorld.Latest latest ∈ NodeWorld.log w' ∧
       synced_height n' = N.max (synced_height n) latest).
Proof.
  intros Hr. pose proof (sync_triple n (n, w) eq_refl) as Ht. rewrite Hr in Ht.
  destruct r as [[]|e].
  - destruct Ht as (bs & latest & (HL & _ & Hh & Hb & Hf) & Hmax). exists bs. split_and!; try done.
    intros _. exists latest. split; [|done]. apply HL. left.
  - destruct Ht as (L & bs & (_ & _ & Hh & Hb & Hf)). by exists bs.
Qed.

(** Broadcasts never finalize.  Handling an announcement leaves every field
    of the node but the head and its height unchanged, and moves the head only
    to the payload hash of a block whose header the sequencer's key signed,
    whatever the network and the execution layer do. *)
Theorem broadcast_never_finalizes {E D S R X PrivKey PubKey : Type} `{ExecutionRpc E}
    `{BlockReceiver R}
    `{Ed25519 PrivKey PubKey} `{Hex} `{Json StateStore.ChainState} `{Json ExecutionPayload}
    (n n' : FullNode PubKey) (w w' : NodeWorld.t E D S R X) r :
  poll_p2p (n, w) = (r, (n', w')) →
  n' = n ∨
  ∃ b pk, node_pubkey n = Some pk ∧ verify_block_signature b pk = Ok tt ∧
    payload_hash b = Some (head n') ∧ n' = set_head (head n') (height (header b)) n.
Proof.
  intros Hr. pose proof (poll_optimistic n (n, w) eq_refl) as Ht. rewrite Hr in Ht.
  by destruct r.
Qed.

(** C32: The execution layer's verdict is not looked at.  Even when every
    [newPayload] comes back [Invalid], a settled block above the head is
    applied and finalized: the pass succeeds, the head, safe and finalized
    pointers become the rejected payload's hash and the cursor moves past
    it. *)
Theorem rejected_block_is_finalized {E D S R X PubKey : Type} `{ExecutionRpc E}
   
    `{Hex} `{Json StateStore.ChainState} `{Json ExecutionPayload}
    (n : FullNode PubKey) (w : NodeWorld.t E D S R X) b p reason :
  (∀ q root (e : E), (rpc_new_payload q root e).1 = Ok (Invalid reason)) →
  (∀ fc (e : E), is_ok (rpc_forkchoice fc e).1 = true) →
  head_height n < height (header b) → decode_payload (data b) = Ok p →
  ∃ s, apply_and_finalize b (n, w) = (Ok tt, s) ∧
    s.1 = set_finalized (p_block_hash p) (height (header b))
            (set_head (p_block_hash p) (height (header b)) n).
Proof.
  intros Hnew Hfc Hh Hp.
  assert (triple (λ s, s.1 = n) (apply_and_finalize b)
            (λ _ s, s.1 = set_finalized (p_block_hash p) (height (header b))
                            (set_head (p_block_hash p) (height (header b)) n))
            (λ _ : FullNode PubKey * NodeWorld.t E D S R X, False)) as Ht.
  { unfold apply_and_finalize. rewrite Hp.
    eapply triple_bind; [by apply (triple_lift_ok _ p (λ q s, s.1 = n ∧ q = p))|].
    intros q. apply triple_pure. intros ->.
    eapply triple_bind; [apply (triple_self _ (λ m s, s.1 = n ∧ m = n)); by intros s <-|].
    intros m. apply triple_pure. intros ->.
    replace (height (header b) <=? head_height n) with false by (symmetry; apply N.leb_gt; lia).
    eapply triple_bind; [by apply (triple_ret _ false (λ a s, s.1 = n ∧ a = false))|].
    intros a. apply triple_pure. intros ->.
    eapply triple_bind; [apply apply_total; [by intros; rewrite Hnew|done..]|].
    intros []. by apply finalize_total. }
  specialize (Ht (n, w) eq_refl). destruct (apply_and_finalize b (n, w)) as [[[]|] s]; [|done].
  by exists s.
Qed.

Section NodeWitness.
Import Codec.Demo Codec.CountableCodec NodeWorld.
Definition demo_key : Ed25519BlockSigner (array 32) := mk_signer (array_fill 32 x05).
(** A payload's text is its height; its hash is its height too. *)
#[local] Instance height_json : Json ExecutionPayload := {|
  json_to_string_pretty p := Ok (fmt_dec (p_block_number p));
  json_from_str s :=
    match parse_u64 s with
    | Some h => Ok (mk_payload ZERO ZERO (array_of_N 32 h) h 0 [] [])
    | None => Err "not a height"
    end
|}.
Definition signed (h : N) : Block :=
  let hd := mk_Header h (array_fill 32 x00) (array_fill 32 x07) (h * 100) in
  mk_Block hd (string_bytes (fmt_dec h)) (to_option (sign_header demo_key hd)).

(** An execution layer that rejects every payload but answers. *)
#[local] Instance rejecting : ExecutionRpc unit := {|
  rpc_new_payload _ _ := mret (Invalid "bad state root");
  rpc_forkchoice _ := mret (mk_updated Syncing None);
  rpc_current_head := mret ZERO;
  rpc_block_number := mret 0;
  rpc_block_by_number _ := mret None
|}.
(** Two settled heights under one blob. *)
#[local] Instance two_settled : SettlementReads unit := {|
  read_latest _ _ := mret 2;
  read_table _ _ := mret (array_fill 32 x0e);
  read_commitment _ _ h := mret (if h <=? 2 then Some (mk_BlobId (array_of_N 32 9)) else None)
|}.
#[local] Instance one_batch : DataAvailability unit := {|
  da_publish _ := throw (DataAvailabilityE "read only");
  da_fetch _ := mret [signed 1; signed 2]
|}.
(** A network that announces and serves the block at height 3. *)
#[local] Instance announcing : BlockReceiver bool := {|
  poll_buffer w := (Some (announce_encode (mk_announce 3 (digest (signed 3)))), w);
  receive _ w := (Some (signed 3), w)
|}.
Definition demo_node : FullNode (array 32) :=
  mk_node "0xreg" "http://sui" 1000 0 ZERO 0 ZERO ZERO None (StateStore.new ["data"]) true
    (Some (pub_key demo_key)) None None None.
Definition node_world : NodeWorld.t unit unit unit bool unit :=
  NodeWorld.mk tt tt tt true tt (disk0 []) [].

Lemma demo_sync_ok :
  let s := sync_from_settlement (demo_node, node_world) in
  is_ok s.1 = true ∧ synced_height s.2.1 = 2.
Proof. by vm_compute. Qed.

Lemma full_node_follows_settlement_witness :
  ∃ r n' w', sync_from_settlement (demo_node, node_world) = (r, (n', w')) ∧
  ∃ bs, synced_height n' = synced_height demo_node + N.of_nat (length bs) ∧
    (∀ i b, bs !! i = Some b → ∃ pk, node_pubkey demo_node = Some pk ∧
       settled_block pk (NodeWorld.log w') (synced_height demo_node + N.of_nat i + 1) b) ∧
    match last bs with
    | None => finalized n' = finalized demo_node ∧ safe n' = safe demo_node
    | Some b => payload_hash b = Some (finalized n') ∧ safe n' = finalized n'
    end ∧
    (r = Ok tt → ∃ latest, NodeWorld.Latest latest ∈ NodeWorld.log w' ∧
       synced_height n' = N.max (synced_height demo_node) latest).
Proof.
  destruct (sync_from_settlement (demo_node, node_world)) as [r [n' w']] eqn:Hs.
  exists r, n', w'. split; [reflexivity|].
  exact (full_node_follows_settlement demo_node n' node_world w' r Hs).
Defined.

Lemma broadcast_never_finalizes_witness :
  ∃ r n' w', poll_p2p (demo_node, node_world) = (r, (n', w')) ∧
  (n' = demo_node ∨
   ∃ b pk, node_pubkey demo_node = Some pk ∧ verify_block_signature b pk = Ok tt ∧
    payload_hash b = Some (head n') ∧ n' = set_head (head n') (height (header b)) demo_node).
Proof.
  destruct (poll_p2p (demo_node, node_world)) as [r [n' w']] eqn:Hp.
  exists r, n', w'. split; [reflexivity|].
  exact (broadcast_never_finalizes demo_node n' node_world w' r Hp).
Defined.

Lemma rejected_block_is_finalized_witness :
  ∃ s, apply_and_finalize (signed 1) (demo_node, node_world) = (Ok tt, s) ∧
    s.1 = set_finalized (array_of_N 32 1) 1 (set_head (array_of_N 32 1) 1 demo_node).
Proof.
  exact (rejected_block_is_finalized demo_node node_world (signed 1)
           (mk_payload ZERO ZERO (array_of_N 32 1) 1 0 [] []) "bad state root"
           ltac:(done) ltac:(done) ltac:(by vm_compute) ltac:(by vm_compute)).
Defined.
End NodeWitness.
