(* ===== verification/Pipeline.v ===== *)
(** The pipeline end to end: what a sequencer settles is what full nodes
    finalize.

    The first part follows a full node of [FullNode] through any number of
    ticks, with an environment that moves between them, and shows that full
    nodes agree.  The second reads the chain of [Chain] through the client of
    [Sui] (table entries are dynamic fields, found by their derived ids) and
    runs a full node on the chain that the finalizer of [Sequencer] settled. *)

From Stdlib Require Import Lia.
From S2P Require Import Prelude Text Codec Disk Core Store Wire Contract Sui Chain Client.
From S2P Require Import SuiInbox Deadline Config JsonValue Engine L2Rpc P2p Tracker Runner.
From S2P Require Import Sequencer FullNode.
Local Open Scope string_scope.
Local Open Scope list_scope.
Local Open Scope N_scope.

(** ** A node through its ticks *)

Section Ticks.
Import NodeWorld.
Context {E D S R X PrivKey PubKey : Type} `{ExecutionRpc E} `{DataAvailability D}
  `{SettlementReads S} `{BlockReceiver R} `{InboxTransport X} `{Ed25519 PrivKey PubKey} `{Hex}
  `{Json StateStore.ChainState} `{Json ExecutionPayload}.
Context `{Bcs InboxBcs} `{Bcs FieldPendingBcs} `{Bcs ClockBcs}.
Abbreviation state := (FullNode PubKey * NodeWorld.t E D S R X)%type.

(** A tick of the loop; in between, everything outside the node's own fields
    and what it was answered may change. *)
Inductive step : state → state → Prop :=
| step_tick s : step s (tick s).2
| step_environment n w w' : log w' = log w → step (n, w) (n, w').

(** Properties that hold on as the node gets more answers. *)
Definition ambient (P : state → Prop) : Prop := ∀ s s', P s → log s.2 ⊆ log s'.2 → P s'.

Lemma ambient_log (l : list event) : ambient (λ s, l ⊆ log s.2).
Proof. intros s s' Hs Hl. by transitivity (log s.2). Qed.
Lemma grows {Er A} (m : M state Er A) s :
  (∀ P, ambient P → preserves P m) → log s.2 ⊆ log (m s).2.2.
Proof.
  intros Hm. specialize (Hm _ (ambient_log (log s.2)) s). cbv beta in Hm.
  specialize (Hm ltac:(reflexivity)). by destruct (m s) as [[] s'].
Qed.

(** Primitive steps keep what depends on the fields and grows with the log. *)
Section Stable.
Context (P : state → Prop) (Hst : stable P).

Lemma keeps_on {Y Er A} (get : NodeWorld.t E D S R X → Y) put (m : M Y Er A) ev f :
  (∀ y w, log (put y w) = log w) → preserves P (io (PubKey := PubKey) f (on get put m ev)).
Proof using Hst.
  intros Hput. eapply triple_weaken; [by apply io_on|auto|by intros a s []|auto].
Qed.
Lemma keeps_store {A} (m : M disk StoreError A) f : preserves P (io (PubKey := PubKey) f (on_disk m)).
Proof using Hst. by apply io_disk. Qed.
Lemma keeps_self : preserves P (self (W := NodeWorld.t E D S R X) (PubKey := PubKey)).
Proof using. by intros s Hs. Qed.
Lemma keeps_quiet {Er A} (m : M (NodeWorld.t E D S R X) Er A) :
  (∀ w, log (m w).2 = log w) → preserves P (zoom snd (λ w (s : state), (s.1, w)) m).
Proof using Hst.
  intros Hm [n w] Hw. specialize (Hm w). unfold zoom. cbn [fst snd]. destruct (m w) as [r w'].
  assert (P (n, w')) as Hp.
  { apply (Hst (n, w)); [done|]. cbn in Hm. by split; cbn; [|rewrite Hm]. }
  by destruct r.
Qed.
Lemma keeps_next :
  preserves P (eff (E := anyhow) (λ s : state, let '(a, w) := poll_next s.2 in (Ok a, (s.1, w)))).
Proof using Hst.
  intros [n w] Hw. unfold eff, poll_next. cbn. destruct (poll_buffer (net w)) as [o r].
  by eapply Hst.
Qed.
Lemma keeps_receive d :
  preserves P (eff (E := anyhow) (λ s : state, let '(b, w) := receive d s.2 in (Ok b, (s.1, w)))).
Proof using Hst.
  intros [n w] Hw. unfold eff. cbn. destruct (receive d (net w)) as [o r]. by eapply Hst.
Qed.
End Stable.

(** The halt check only reads the inbox. *)
Lemma status_quiet m (w : NodeWorld.t E D S R X) :
  log (status m w).2 = log w ∧ dsk (status m w).2 = dsk w.
Proof.
  set (P := λ w' : NodeWorld.t E D S R X, log w' = log w ∧ dsk w' = dsk w).
  assert (preserves P (status m)) as Hst.
  { assert (∀ id, preserves P (tr_object_contents id)) as Ho.
    { intros id w' Hw. cbn. unfold zoom. by destruct (tr_object_contents id _) as [[]]. }
    assert (∀ t h, preserves P (tr_field_contents t h)) as Hf.
    { intros t h w' Hw. cbn. unfold zoom. by destruct (tr_field_contents t h _) as [[]]. }
    unfold status. generalize CONFIRM_LIMIT. intros k.
    induction k as [|k IH]; cbn [status_attempts]; unfold read_snapshot, confirm_unchanged;
      walk_with ltac:(idtac; solve [auto]). }
  specialize (Hst w (conj eq_refl eq_refl)). by destruct (status m w) as [[] w'].
Qed.

Section Ambient.
Context (P : state → Prop) (Hamb : ambient P).

Lemma ambient_stable : stable P.
Proof using Hamb. intros s s' Hs [_ Hl]. by eapply Hamb. Qed.
Lemma keeps_set f : preserves P (set (W := NodeWorld.t E D S R X) (PubKey := PubKey) f).
Proof using Hamb. intros s Hs. by eapply Hamb. Qed.

(** Every operation of the node keeps what is ambient. *)
Ltac passes := walk_with ltac:(idtac; lazymatch goal with
  | |- preserves _ self => apply keeps_self
  | |- preserves _ (set _) => apply keeps_set
  | |- preserves _ (io _ (on_disk _)) => apply (keeps_store P ambient_stable)
  | |- preserves _ (io _ _) => apply (keeps_on P ambient_stable); by intros
  end).

Lemma keeps_apply b : preserves P (apply_block (W := NodeWorld.t E D S R X) (PubKey := PubKey) b).
Proof using Hamb. unfold apply_block, contextM. passes. Qed.
Lemma keeps_finalized b : preserves P (mark_finalized (W := NodeWorld.t E D S R X) (PubKey := PubKey) b).
Proof using Hamb. unfold mark_finalized, contextM. passes. Qed.
Lemma keeps_verify b : preserves P (verify_signature (W := NodeWorld.t E D S R X) b).
Proof using Hamb. unfold verify_signature. passes. Qed.
Lemma keeps_sync : preserves P (sync_from_settlement (W := NodeWorld.t E D S R X) (PubKey := PubKey)).
Proof using Hamb.
  unfold sync_from_settlement, table_address, contextM. passes.
  match goal with |- preserves _ (sync_heights _ _ ?l) => generalize l end. intros l.
  generalize (@None (BlobId * list Block)) as c. induction l as [|h l IH]; intros c; cbn [sync_heights].
  { apply preserves_ret. }
  unfold sync_height, apply_and_finalize, blocks_of, contextM.
  passes; auto using keeps_verify, keeps_apply, keeps_finalized.
Qed.
Lemma keeps_p2p : preserves P (poll_p2p (W := NodeWorld.t E D S R X) (PubKey := PubKey)).
Proof using Hamb.
  unfold poll_p2p. passes; auto using keeps_verify, keeps_apply, keeps_next, keeps_receive, ambient_stable.
Qed.
End Ambient.

(** *** What a node has finalized *)

Lemma sync_extends n0 bs (s : state) :
  followed n0 [] bs s → ∃ bs', followed n0 [] (bs ++ bs') (sync_from_settlement s).2.
Proof.
  intros Hf. pose proof (sync_triple s.1 s eq_refl) as Hs.
  pose proof (grows _ s keeps_sync) as Hl.
  assert (∃ L bs', followed s.1 L bs' (sync_from_settlement s).2 ∧
            log s.2 ⊆ log (sync_from_settlement s).2.2) as (L & bs' & (_ & Hk & Hh & Hb & Hfin) & Hlog).
  { destruct (sync_from_settlement s) as [[[]|] s'].
    - destruct Hs as (bs' & latest & Hs & _). by exists [Latest latest], bs'.
    - destruct Hs as (L & bs' & Hs). by exists L, bs'. }
  destruct Hf as (_ & Hk0 & Hh0 & Hb0 & Hfin0). exists bs'. unfold followed. split_and!.
  - intros e He. by apply not_elem_of_nil in He.
  - congruence.
  - rewrite length_app. lia.
  - intros i b Hi. apply lookup_app_Some in Hi as [Hi|[Hle Hi]].
    + destruct (Hb0 i b Hi) as (pk & ? & ?). exists pk. split; [done|]. by eapply settled_block_mono.
    + destruct (Hb _ b Hi) as (pk & Hpk & Hset). exists pk. split; [congruence|].
      by replace (synced_height n0 + N.of_nat i + 1)
        with (synced_height s.1 + N.of_nat (i - length bs) + 1) by lia.
  - rewrite last_app. destruct (last bs') as [b|]; [done|]. destruct Hfin as [-> ->]. done.
Qed.

Lemma p2p_keeps_settled n0 bs (s : state) : followed n0 [] bs s → followed n0 [] bs (poll_p2p s).2.
Proof.
  intros Hf. pose proof (poll_optimistic s.1 s eq_refl) as Ho.
  pose proof (grows _ s keeps_p2p) as Hl.
  assert (optimistic s.1 (poll_p2p s).2 ∧ log s.2 ⊆ log (poll_p2p s).2.2) as [Ho' Hl'].
  { by destruct (poll_p2p s) as [[] ?]. }
  destruct Ho' as [Hn|(b & pk & _ & _ & _ & Hn)].
  - eapply followed_stable; [exact Hf|]. by split.
  - destruct (poll_p2p s).2 as [n' w']. cbn in Hn, Hl'. rewrite Hn.
    apply (followed_stable n0 [] bs (set_head (head n') (height (header b)) s.1, s.2)); [exact Hf|].
    by split.
Qed.

(** The halt gate touches neither. *)
Lemma halted_keeps_settled n0 bs :
  preserves (followed n0 [] bs) (halted (W := NodeWorld.t E D S R X) (PubKey := PubKey)).
Proof.
  unfold halted. apply preserves_bind; [apply keeps_self|intros n]. case_match; [|apply preserves_ret].
  apply preserves_bind.
  { apply preserves_tryM, keeps_quiet; [apply followed_stable|intros w; apply status_quiet]. }
  intros r. case_match. apply preserves_bind; [|intros ?; apply preserves_ret]. by intros s Hs.
Qed.

Lemma tick_extends n0 bs (s : state) :
  followed n0 [] bs s → ∃ bs', followed n0 [] (bs ++ bs') (tick s).2.
Proof.
  intros Hf. unfold tick. rewrite run_bind. pose proof (halted_keeps_settled n0 bs s Hf) as Hh.
  destruct (halted s) as [[stop|e] s1]; [|exists []; by rewrite app_nil_r].
  destruct stop; [exists []; by rewrite app_nil_r|]. rewrite run_bind. unfold tryM at 1.
  destruct (sync_extends n0 bs s1 Hh) as [bs' Hs]. exists bs'.
  destruct (sync_from_settlement s1) as [r s2]. rewrite run_bind. unfold tryM at 1.
  apply p2p_keeps_settled in Hs. cbn [snd] in Hs. by destruct (poll_p2p s2).
Qed.

Lemma steps_follow s s' bs n0 :
  rtc step s s' → followed n0 [] bs s → ∃ bs', followed n0 [] (bs ++ bs') s'.
Proof.
  intros Hs. revert bs. induction Hs as [s|s s1 s' Hs _ IH]; intros bs Hf.
  { exists []. by rewrite app_nil_r. }
  destruct Hs as [s|n w w' Hl].
  - destruct (tick_extends n0 bs s Hf) as [b1 H1']. destruct (IH _ H1') as [b2 Hb].
    exists (b1 ++ b2). by rewrite app_assoc.
  - apply IH. eapply followed_stable; [exact Hf|]. by split; cbn; [|rewrite Hl].
Qed.

(** *** Agreement *)

(** The answers are those of one registry and one blob store. *)
Definition answers_of (reg : N → option BlobId) (blob : BlobId → option (list Block))
    (l : list event) : Prop :=
  (∀ h id, Commitment h id ∈ l → reg h = Some id) ∧
  (∀ id blocks, Fetched id blocks ∈ l → blob id = Some blocks).

Lemma settled_block_agrees pk pk' reg blob l l' h b b' :
  answers_of reg blob l → answers_of reg blob l' →
  settled_block pk l h b → settled_block pk' l' h b' → b = b'.
Proof.
  intros [Hr Hb] [Hr' Hb'] (_ & _ & id & bs & i & Hc & Hf & Hx) (_ & _ & id' & bs' & i' & Hc' & Hf' & Hx').
  apply Hr in Hc. apply Hr' in Hc'. assert (id' = id) as -> by congruence.
  apply Hb in Hf. apply Hb' in Hf'. congruence.
Qed.

Lemma last_settled n0 bs (s : state) :
  followed n0 [] bs s → synced_height n0 < synced_height s.1 →
  ∃ b pk, settled_block pk (log s.2) (synced_height s.1) b ∧
    payload_hash b = Some (finalized s.1) ∧ safe s.1 = finalized s.1.
Proof.
  intros (_ & _ & Hh & Hb & Hl) Hlt. destruct (last bs) as [b|] eqn:Hlast.
  2:{ apply last_None in Hlast as ->. cbn in Hh. lia. }
  rewrite last_lookup in Hlast. destruct (Hb _ b Hlast) as (pk & _ & Hs). exists b, pk.
  split; [|done]. apply lookup_lt_Some in Hlast.
  by replace (synced_height s.1) with (synced_height n0 + N.of_nat (Nat.pred (length bs)) + 1) by lia.
Qed.
Lemma steps_settled (s s' : state) :
  rtc step s s' → synced_height s.1 < synced_height s'.1 →
  ∃ b pk, settled_block pk (log s'.2) (synced_height s'.1) b ∧
    payload_hash b = Some (finalized s'.1) ∧ safe s'.1 = finalized s'.1.
Proof.
  intros Hs Hlt. destruct (steps_follow s s' [] s.1 Hs) as [bs Hf].
  { split; [intros e He; by apply not_elem_of_nil in He|]. split_and!; try done. by rewrite N.add_0_r. }
  by eapply last_settled.
Qed.
End Ticks.

(** Full nodes agree.  Take two full nodes, with any keys, start heights and
    worlds, after any number of ticks each, while everything around them moves
    (the chain, the availability layer, the execution layers, the network,
    their disks).  If the commitments they read are those of one registry and
    the batches they fetched those of one blob store, then whenever both have
    reached the same height they have finalized the same block hash there. *)
Theorem full_nodes_agree {E D S R X PrivKey PubKey : Type} `{ExecutionRpc E} `{DataAvailability D}
    `{SettlementReads S} `{BlockReceiver R} `{InboxTransport X} `{Ed25519 PrivKey PubKey} `{Hex}
    `{Json StateStore.ChainState} `{Json ExecutionPayload} `{Bcs InboxBcs} `{Bcs FieldPendingBcs}
    `{Bcs ClockBcs} (s1 s2 s1' s2' : FullNode PubKey * NodeWorld.t E D S R X) reg blob :
  rtc step s1 s1' → rtc step s2 s2' →
  answers_of reg blob (NodeWorld.log s1'.2) → answers_of reg blob (NodeWorld.log s2'.2) →
  synced_height s1.1 < synced_height s1'.1 → synced_height s2.1 < synced_height s2'.1 →
  synced_height s1'.1 = synced_height s2'.1 →
  finalized s1'.1 = finalized s2'.1 ∧ safe s1'.1 = safe s2'.1.
Proof.
  intros Hs1 Hs2 Ha1 Ha2 Hl1 Hl2 Heq.
  destruct (steps_settled s1 s1' Hs1 Hl1) as (b1 & pk1 & Hb1 & Hp1 & ->).
  destruct (steps_settled s2 s2' Hs2 Hl2) as (b2 & pk2 & Hb2 & Hp2 & ->).
  rewrite Heq in Hb1. pose proof (settled_block_agrees _ _ _ _ _ _ _ _ _ Ha1 Ha2 Hb1 Hb2) as ->.
  assert (finalized s1'.1 = finalized s2'.1) by congruence. done.
Qed.

(** ** Reading the chain *)

Section Reads.
Context {PrivKey PubKey : Type} `{Ed25519 PrivKey PubKey} `{SuiSdk} `{Bcs RegistryBcs}
  `{Bcs FieldBlobBcs}.

(** The commitments table's entries are dynamic-field objects: id, key, value. *)
Definition table_entry (x : ids) (r : Settle.Registry) (a : Address) : option (option (list byte)) :=
  '(h, v) ← snd <$> list_find (λ kv, table_field_id (id_table x) kv.1 = a)
                      (map_to_list (Settle.commitments r));
  Some (to_option (bcs_to_bytes (A := FieldBlobBcs) (a, h, v))).

(** The chain of [Chain], with its table entries. *)
Definition node_rpc : SuiRpc sim PrivKey ptb PrivKey := {|
  rpc_connect := rpc_connect;
  rpc_get_object _ a := λ s,
    match next_rpc_fault s with
    | Served => (Ok (match sim_get_object a s with
                     | Some o => Some o
                     | None => table_entry (sim_ids s) (registry (sim_chain s)) a
                     end), pop s)
    | _ => (Err "unavailable", pop s)
    end;
  rpc_build := rpc_build;
  sign_transaction := sign_transaction;
  rpc_execute := rpc_execute;
  rpc_get_epoch := rpc_get_epoch;
  rpc_list_balances := rpc_list_balances
|}.

(** Derived ids do not collide. *)
Record apart (x : ids) : Prop := {
  registry_apart : id_registry x ≠ id_inbox x;
  entry_apart h : is_u64 h →
    table_field_id (id_table x) h ≠ id_inbox x ∧ table_field_id (id_table x) h ≠ id_registry x;
  entries_apart h h' : is_u64 h → is_u64 h' →
    table_field_id (id_table x) h = table_field_id (id_table x) h' → h = h'
}.
(** BCS writes a struct's fields in order, and an entry of a 32-byte value can
    be written and reads back. *)
Class BlobLayout : Prop := {
  registry_layout a hb t nb : length hb = 8%nat → length nb = 8%nat →
    bcs_from_bytes (A := RegistryBcs) (arr_bytes a ++ hb ++ arr_bytes t ++ nb)
      = Ok (a, from_le_bytes hb, (t, from_le_bytes nb));
  entry_roundtrip (a : Address) (h : N) (v : list byte) : is_u64 h → length v = 32%nat →
    ∃ bs, bcs_to_bytes (A := FieldBlobBcs) (a, h, v) = Ok bs ∧ bcs_from_bytes (A := FieldBlobBcs) bs = Ok (a, h, v)
}.

Context `{!BlobLayout}.
Implicit Types (m : sim).

Lemma table_entry_at x r h : 
  apart x → is_u64 h → Settle.wf r →
  table_entry x r (table_field_id (id_table x) h) =
    v ← Settle.commitments r !! h;
    Some (to_option (bcs_to_bytes (A := FieldBlobBcs) (table_field_id (id_table x) h, h, v))).
Proof.
  intros Hx Hh Hr. unfold table_entry.
  assert (∀ k v, (k, v) ∈ map_to_list (Settle.commitments r) →
          table_field_id (id_table x) k = table_field_id (id_table x) h → k = h) as Hinj.
  { intros k v Hk%elem_of_map_to_list He. apply (entries_apart x Hx); [|done..].
    destruct Hr as [Hu Hd]. specialize (proj1 (Hd k) ltac:(eauto)). intros. u64. }
  destruct (list_find _ _) as [[i [k v]]|] eqn:Hf; cbn.
  - apply list_find_Some in Hf as (Hi & He & _). cbn in He. apply list_elem_of_lookup_2 in Hi.
    pose proof (Hinj k v Hi He) as ->. apply elem_of_map_to_list in Hi. by rewrite Hi.
  - destruct (Settle.commitments r !! h) as [v|] eqn:Hv; [|done].
    apply elem_of_map_to_list in Hv. apply list_find_None in Hf.
    rewrite Forall_forall in Hf. by destruct (Hf _ Hv).
Qed.

(** The full node's reads, by [sui_reads] over that RPC. *)
Definition chain_reads : SettlementReads sim :=
  let rpc : SuiRpc sim PrivKey ptb PrivKey := node_rpc in sui_reads.

Section Served.
#[local] Existing Instance node_rpc.
Context (m : sim) (served : sim_faults m = []) (separate : apart (sim_ids m))
  (wf : Settle.wf (registry (sim_chain m))).

Lemma pop_served : pop m = m.
Proof using served. clear -served. destruct m as [x c t fs]. cbn in served. by subst. Qed.
Lemma get_object_served url a :
  rpc_get_object (SuiRpc := node_rpc) url a m =
    (Ok (match sim_get_object a m with
         | Some o => Some o
         | None => table_entry (sim_ids m) (registry (sim_chain m)) a
         end), m).
Proof using served. cbn. unfold next_rpc_fault. by rewrite served, pop_served. Qed.

Lemma registry_read url label :
  object_contents url (id_registry (sim_ids m)) label m =
    (Ok (registry_contents (sim_ids m) (registry (sim_chain m))), m).
Proof using served separate.
  unfold object_contents, connect, lift, errM. rewrite run_bind. cbn [rpc_connect node_rpc map_err].
  rewrite run_bind, get_object_served. unfold sim_get_object.
  destruct separate as [Hr _ _]. rewrite bool_decide_false by done. by rewrite bool_decide_true.
Qed.
Lemma entry_read url h : is_u64 h →
  field_contents url (id_table (sim_ids m)) h m =
    (match Settle.commitments (registry (sim_chain m)) !! h with
     | None => Ok None
     | Some v => ok_or (to_option (bcs_to_bytes (A := FieldBlobBcs) (table_field_id (id_table (sim_ids m)) h, h, v)))
                   (Execution "field contents missing raw BCS") ≫= λ bs, Ok (Some bs)
     end, m).
Proof using served separate wf.
  intros Hh. unfold field_contents, connect, lift, errM. rewrite run_bind. cbn [rpc_connect node_rpc map_err].
  rewrite run_bind, get_object_served. unfold sim_get_object.
  destruct (entry_apart _ separate h Hh) as [Hi Hr]. rewrite !bool_decide_false by done.
  rewrite table_entry_at by done.
  destruct (Settle.commitments _ !! h) as [v|]; cbn; [|done]. by destruct (bcs_to_bytes _).
Qed.

Lemma parse_registry_tip : parse_latest_height (registry_contents (sim_ids m) (registry (sim_chain m)))
  = Ok (Settle.latest_height (registry (sim_chain m))).
Proof using wf.
  set (r := registry (sim_chain m)) in *. unfold parse_latest_height.
  assert (length (registry_contents (sim_ids m) r) = 80%nat) as Hl
    by (unfold registry_contents; by rewrite !length_app, !length_to_le_bytes, !length_arr_bytes).
  rewrite Hl. cbn [Nat.ltb Nat.leb]. unfold slice, registry_contents.
  rewrite drop_app_length' by (by rewrite length_arr_bytes).
  rewrite take_app_length' by (by rewrite length_to_le_bytes).
  destruct (try_into_array 8 _) as [a|] eqn:Ha; cbn.
  - apply try_into_array_Some in Ha as <-. f_equal. apply u64_le_roundtrip, wf.
  - apply try_into_array_None in Ha. by rewrite length_to_le_bytes in Ha.
Qed.

Lemma chain_latest url reg :
  address_from_str reg = Ok (id_registry (sim_ids m)) →
  latest_height url reg m = (Ok (Settle.latest_height (registry (sim_chain m))), m).
Proof using served separate wf.
  intros Hreg. unfold latest_height, lift, parse_address. rewrite run_bind, Hreg.
  cbn [map_err]. rewrite run_bind, registry_read. by rewrite parse_registry_tip.
Qed.
Lemma chain_table url reg :
  address_from_str reg = Ok (id_registry (sim_ids m)) →
  table_uid url reg m = (Ok (id_table (sim_ids m)), m).
Proof using All.
  intros Hreg. unfold table_uid, lift, parse_address. rewrite run_bind, Hreg.
  cbn [map_err]. rewrite run_bind, registry_read. unfold parse_table_uid, registry_contents.
  by rewrite registry_layout by (by rewrite length_to_le_bytes).
Qed.
Lemma chain_commitment url h (id : BlobId) : is_u64 h →
  Settle.commitments (registry (sim_chain m)) !! h = Some (arr_bytes (blob_hash id)) →
  commitment_at url (id_table (sim_ids m)) h m = (Ok (Some id), m).
Proof using All.
  intros Hh Hc. unfold commitment_at. rewrite run_bind, entry_read, Hc by done.
  destruct (entry_roundtrip (table_field_id (id_table (sim_ids m)) h) h (arr_bytes (blob_hash id)))
    as (bs & -> & Hd); [done|by rewrite length_arr_bytes|].
  cbn -[parse_field_blob_id]. unfold parse_field_blob_id. rewrite Hd. cbn. unfold parse_blob_id.
  rewrite try_into_array_bytes. by destruct id.
Qed.
End Served.
End Reads.

(** ** A full node over a settled batch *)

Section Follow.
Import NodeWorld.
Context {E D R X PrivKey PubKey : Type} `{ExecutionRpc E} `{DataAvailability D}
  `{Ed25519 PrivKey PubKey} `{SuiSdk} `{Hex} `{Json StateStore.ChainState} `{Json ExecutionPayload}
  `{Bcs RegistryBcs} `{Bcs FieldBlobBcs} `{!BlobLayout}.
#[local] Existing Instance chain_reads.
Abbreviation state := (FullNode PubKey * NodeWorld.t E D sim R X)%type.
Abbreviation never := (λ _ : state, False).

(** The execution layer answers; what it answers does not matter. *)
Record answering : Prop := {
  takes p root (e : E) : is_ok (rpc_new_payload p root e).1 = true;
  moves fc (e : E) : is_ok (rpc_forkchoice fc e).1 = true;
  looks h (e : E) : is_ok (rpc_block_by_number h e).1 = true
}.

(** Properties of the fields, the chain and the availability layer. *)
Definition calm (P : state → Prop) : Prop := ∀ s s', P s →
  s'.1 = s.1 → chain s'.2 = chain s.2 → da s'.2 = da s.2 → P s'.
Definition head_free (P : state → Prop) : Prop := ∀ h k s, P s → P (set_head h k s.1, s.2).

Lemma engine_step P {Er A} (m : M E Er A) ev f :
  calm P → (∀ e, is_ok (m e).1 = true) → triple P (io f (on el put_el m ev)) (λ _, P) never.
Proof.
  intros Hcalm Hm [n w] Hw. unfold io, errM, zoom, on. cbn. specialize (Hm (el w)).
  destruct (m (el w)) as [[]]; [|done]. by eapply Hcalm.
Qed.
Lemma disk_step P {A} (m : M disk StoreError A) f :
  calm P → triple P (tryM (F := anyhow) (io f (on_disk m))) (λ _, P) never.
Proof.
  intros Hcalm [n w] Hw. unfold tryM, io, errM, on_disk, zoom. cbn.
  destruct (m (dsk w)) as [[] d]; by eapply Hcalm.
Qed.
Lemma chain_step P {Er A} (m : M sim Er A) ev f c a :
  calm P → m c = (Ok a, c) →
  triple (λ s, P s ∧ chain s.2 = c) (io f (on chain put_chain m ev))
    (λ a' s, (P s ∧ chain s.2 = c) ∧ a' = a) never.
Proof.
  intros Hcalm Hm [n w] [Hw Hc]. unfold io, errM, zoom, on. cbn in *. rewrite Hc, Hm. cbn.
  split; [|done]. split; [|done]. by eapply Hcalm.
Qed.

Section Steps.
Context (live : answering) (P Q : state → Prop) (calm_P : calm P) (calm_Q : calm Q).
Context (b : Block) (p : ExecutionPayload) (decodes : decode_payload (data b) = Ok p).
Context (head_P : head_free P)
  (finalizes : ∀ s, P s → Q (set_finalized (p_block_hash p) (height (header b)) s.1, s.2)).

Lemma apply_step : triple P (apply_block b) (λ _, P) never.
Proof using live calm_P head_P decodes.
  unfold apply_block, contextM. rewrite decodes.
  eapply triple_bind; [by apply (triple_lift_ok _ p (λ _, P))|intros q].
  eapply triple_bind; [apply triple_err, engine_step; [done|apply live]|intros st].
  eapply triple_bind; [apply (triple_mod _ _ (λ _, P)); by intros; apply head_P|intros []].
  eapply triple_bind with (Q := λ _, P); [by intros s Hs|intros n].
  eapply triple_bind; [apply triple_err, engine_step; [done|apply live]|intros fc]. by apply triple_ret.
Qed.

(** The finalized block moves the pointers and the synced height. *)
Lemma finalize_step : triple P (mark_finalized b) (λ _, Q) never.
Proof using live calm_Q decodes finalizes.
  unfold mark_finalized, contextM. rewrite decodes.
  eapply triple_bind; [by apply (triple_lift_ok _ p (λ q s, P s ∧ q = p))|].
  intros q. apply triple_pure. intros ->.
  eapply triple_bind; [by apply (triple_mod _ _ (λ _, Q))|intros []].
  eapply triple_bind with (Q := λ _, Q); [by intros s Hs|intros n].
  eapply triple_bind; [apply triple_err, engine_step; [done|apply live]|intros fc].
  eapply triple_bind; [by apply disk_step|intros r]. by apply triple_ret.
Qed.

Lemma apply_and_finalize_step : triple P (apply_and_finalize b) (λ _, Q) never.
Proof using live calm_P calm_Q decodes head_P finalizes.
  unfold apply_and_finalize, contextM. rewrite decodes.
  eapply triple_bind; [by apply (triple_lift_ok _ p (λ _, P))|intros q].
  eapply triple_bind with (Q := λ _, P); [by intros s Hs|intros n].
  eapply triple_bind with (Q := λ _, P).
  { case_match; [|by apply triple_ret].
    eapply triple_bind; [apply triple_err, engine_step; [done|apply live]|intros o]. by apply triple_ret. }
  intros already. eapply triple_bind with (Q := λ _, P); [|intros []; apply finalize_step].
  destruct already; [by apply triple_ret|apply apply_step].
Qed.
End Steps.

(** A batch that was settled from height [n] on under one identifier. *)
Record settled_batch (pk : PubKey) (m : sim) (n : N) (id : BlobId) (batch : list Block) : Prop := {
  sb_served : sim_faults m = [];
  sb_apart : apart (sim_ids m);
  sb_wf : Settle.wf (registry (sim_chain m));
  sb_tip : Settle.latest_height (registry (sim_chain m)) = n + N.of_nat (length batch);
  sb_heights i b : batch !! i = Some b → height (header b) = n + 1 + N.of_nat i;
  sb_settled b : b ∈ batch →
    Settle.commitments (registry (sim_chain m)) !! height (header b) = Some (arr_bytes (blob_hash id));
  sb_signed b : b ∈ batch → verify_block_signature b pk = Ok tt;
  sb_payloads b : b ∈ batch → ∃ p, decode_payload (data b) = Ok p
}.

Section Batch.
Context (live : answering) (pk : PubKey) (m : sim) (n : N) (id : BlobId) (batch : list Block)
  (sb : settled_batch pk m n id batch).

(** The node has finalized the first [k] blocks. *)
Definition reached (k : nat) (s : state) : Prop :=
  node_pubkey s.1 = Some pk ∧ synced_height s.1 = n + N.of_nat k ∧ chain s.2 = m ∧
  match k with
  | O => True
  | Datatypes.S j => ∃ b, batch !! j = Some b ∧ payload_hash b = Some (finalized s.1) ∧
                          safe s.1 = finalized s.1
  end.
Definition ready_for (k : nat) (cache : option (BlobId * list Block)) (s : state) : Prop :=
  reached k s ∧
  (cache = Some (id, batch) ∨ cache = None ∧ (da_fetch id (da s.2)).1 = Ok batch).

Lemma reached_calm k : calm (reached k).
Proof.
  intros s s' (Hk & Hh & Hc & Hf) Hn Hch _. unfold reached. rewrite Hn, Hch. by split_and!.
Qed.
Lemma ready_calm k c : calm (ready_for k c).
Proof.
  intros s s' [Hr Hc] Hn Hch Hd. split; [by eapply reached_calm|]. by rewrite Hd.
Qed.
Lemma reached_head_free k : head_free (reached k).
Proof. intros h j s Hr. exact Hr. Qed.

Lemma blocks_step k cache :
  triple (ready_for k cache) (blocks_of cache id) (λ bs s, reached k s ∧ bs = batch) never.
Proof.
  unfold blocks_of. destruct cache as [[c blocks]|].
  - intros s [Hr [[= -> ->]|[? _]]]; [|done]. by rewrite bool_decide_true.
  - intros [f w] [Hr [?|[_ Hd]]]; [done|]. unfold io, errM, zoom. cbn in *. unfold on.
    destruct (da_fetch id (da w)) as [r d]. cbn in Hd. subst r. cbn. split; [|done].
    destruct Hr as (Hk & Hh & Hc & Hf). by split_and!.
Qed.

Lemma verify_step k b : b ∈ batch → triple (reached k) (verify_signature b) (λ _, reached k) never.
Proof using sb.
  intros Hb [f w] Hr. unfold verify_signature. rewrite run_bind. cbv [self fmap M_fmap getM].
  cbn [result_fmap fst]. rewrite run_bind. pose proof Hr as (Hk & _). cbn in Hk. rewrite Hk.
  cbv [lift ok_or]. by rewrite (sb_signed _ _ _ _ _ sb b Hb).
Qed.

Lemma find_block k b :
  batch !! k = Some b → list_find (λ b, height (header b) = n + 1 + N.of_nat k) batch = Some (k, b).
Proof using sb.
  intros Hb. apply list_find_Some. split; [done|]. split; [by eapply sb_heights|].
  intros j y Hj Hlt Hh. rewrite (sb_heights _ _ _ _ _ sb j y Hj) in Hh. lia.
Qed.

Lemma sync_height_step k b cache :
  batch !! k = Some b →
  triple (ready_for k cache) (sync_height (id_table (sim_ids m)) cache (n + 1 + N.of_nat k))
    (λ c, ready_for (Datatypes.S k) (Some c)) never.
Proof using All.
  intros Hb. pose proof (list_elem_of_lookup_2 _ _ _ Hb) as Hin. unfold sync_height, contextM.
  destruct (sb_payloads _ _ _ _ _ sb b Hin) as [p Hp].
  pose proof (sb_heights _ _ _ _ _ sb k b Hb) as Hh.
  assert (is_u64 (n + 1 + N.of_nat k)) as Hu.
  { destruct (sb_wf _ _ _ _ _ sb) as [Hu _]. rewrite (sb_tip _ _ _ _ _ sb) in Hu.
    apply lookup_lt_Some in Hb. unfold is_u64 in *. lia. }
  eapply triple_bind with (Q := λ _, ready_for k cache); [by intros s Hs|intros f].
  eapply triple_bind.
  { apply triple_err. eapply triple_pre with (P' := λ s, ready_for k cache s ∧ chain s.2 = m).
    { intros s Hs. split; [done|]. apply Hs. }
    apply (chain_step _ _ _ _ m (Some id)); [apply ready_calm|]. 
    apply (chain_commitment m); [apply sb|apply sb|apply sb|done|].
    rewrite <- Hh. by apply (sb_settled _ _ _ _ _ sb). }
  intros o. apply triple_pure. intros ->. cbn [ok_or].
  eapply triple_bind with (Q := λ i s, ready_for k cache s ∧ i = id); [by intros s [Hs _]|].
  intros i. apply triple_pure. intros ->.
  eapply triple_bind; [apply blocks_step|intros blocks]. apply triple_pure. intros ->.
  rewrite (find_block k b Hb). cbn [fmap option_fmap option_map snd ok_or].
  eapply triple_bind with (Q := λ b' s, reached k s ∧ b' = b); [by intros s Hs|].
  intros b'. apply triple_pure. intros ->.
  eapply triple_bind; [by apply verify_step|intros []].
  eapply triple_bind with (Q := λ _, reached (Datatypes.S k)).
  { apply (apply_and_finalize_step live _ _ (reached_calm k) (reached_calm (Datatypes.S k)) b p Hp
             (reached_head_free k)).
    intros s (Hk & Hs & Hc & _). unfold reached. cbn. split_and!; [done| |done|].
    - rewrite Hh. lia.
    - exists b. unfold payload_hash. by rewrite Hp. }
  intros []. apply triple_ret. intros s Hs. split; [done|]. by left.
Qed.

Lemma sync_heights_step len k cache :
  (k + len)%nat = length batch →
  triple (ready_for k cache)
    (sync_heights (id_table (sim_ids m)) cache ((λ i, n + 1 + N.of_nat i) <$> seq k len))
    (λ _, reached (length batch)) never.
Proof using All.
  revert k cache. induction len as [|len IH]; intros k cache Hk; cbn.
  { apply triple_ret. intros s [Hs _]. by replace (length batch) with k by lia. }
  destruct (lookup_lt_is_Some_2 batch k) as [b Hb]; [lia|].
  eapply triple_bind; [by apply (sync_height_step k b)|intros c]. apply IH. lia.
Qed.

(** One pass over the settled batch. *)
Lemma sync_step f d :
  node_pubkey f = Some pk → synced_height f = n →
  address_from_str (registry_id f) = Ok (id_registry (sim_ids m)) →
  cached_table f = None ∨ cached_table f = Some (id_table (sim_ids m)) →
  (da_fetch id d).1 = Ok batch →
  triple (λ s, s.1 = f ∧ chain s.2 = m ∧ da s.2 = d) sync_from_settlement
    (λ _, reached (length batch)) never.
Proof using All.
  intros Hk Hn Hreg Htab Hda. set (P := λ s : state, s.1 = f ∧ chain s.2 = m ∧ da s.2 = d).
  assert (calm P) as HP by (intros s s' (? & ? & ?) ???; unfold P; by split_and!; congruence).
  assert (∀ s, P s → P s ∧ chain s.2 = m) as HPm by (intros s Hs; split; [done|apply Hs]).
  pose proof (sb_served _ _ _ _ _ sb) as Hserved. pose proof (sb_apart _ _ _ _ _ sb) as Hapart.
  pose proof (sb_wf _ _ _ _ _ sb) as Hwf.
  unfold sync_from_settlement.
  eapply triple_bind with (Q := λ f' s, P s ∧ f' = f); [by intros s Hs; split; [|apply Hs]|].
  intros f'. apply triple_pure. intros ->.
  eapply triple_bind.
  { eapply triple_pre; [exact HPm|]. eapply chain_step; [exact HP|]. by apply chain_latest. }
  intros latest. apply triple_pure. intros ->. rewrite (sb_tip _ _ _ _ _ sb), Hn.
  assert (∀ s, P s → ready_for 0 None s) as Hready.
  { intros s (Hf & Hc & Hd). split; [|right; split; [done|congruence]].
    unfold reached. rewrite Hf. split_and!; try done. lia. }
  destruct (N.leb_spec (n + N.of_nat (length batch)) n) as [Hle|Hlt].
  { apply triple_ret. intros s [Hs _]. replace (length batch) with 0%nat by lia. by apply Hready. }
  eapply triple_bind with (Q := λ a s, ready_for 0 None s ∧ a = id_table (sim_ids m)).
  - unfold table_address, contextM.
    eapply triple_bind with (Q := λ f' s, P s ∧ f' = f); [by intros s [Hs _]; split; [|apply Hs]|].
    intros f'. apply triple_pure. intros ->. destruct Htab as [->| ->].
    2:{ apply triple_ret. intros s Hs. split; [by apply Hready|done]. }
    eapply triple_bind.
    { apply triple_err. eapply triple_pre; [exact HPm|].
      eapply chain_step; [exact HP|]. by apply chain_table. }
    intros a. apply triple_pure. intros ->.
    eapply triple_bind with (Q := λ _, ready_for 0 None).
    { apply triple_mod. intros s [Hs _]. destruct (Hready s Hs) as [Hr Hd]. by split. }
    intros []. by apply triple_ret.
  - intros a. apply triple_pure. intros ->. unfold range.
    replace (N.to_nat (n + N.of_nat (length batch) + 1 - (n + 1))) with (length batch) by lia.
    by apply sync_heights_step.
Qed.
End Batch.

(** The pass over the chain's own registry. *)
Definition follow_chain (f : FullNode PubKey) (w : NodeWorld.t E D sim R X)
    : result anyhow unit * state := sync_from_settlement (f, w).
End Follow.

(** ** From the sequencer to the full node *)

Lemma in_order_heights n last oldest batch i p :
  in_order n last oldest batch → batch !! i = Some p →
  height (header (pb_block p)) = n + 1 + N.of_nat i.
Proof.
  revert n last i. induction batch as [|q batch IH]; intros n last i Ho Hi; [done|].
  destruct Ho as (Hh & _ & _ & _ & Ho). destruct i as [|i]; cbn in Hi.
  - injection Hi as ->. lia.
  - rewrite (IH _ _ _ Ho Hi). lia.
Qed.

(** What the sequencer signs and a full node can read: the header's signature
    and a payload that decodes. *)
Definition well_made {PrivKey PubKey} `{Ed25519 PrivKey PubKey} `{Json ExecutionPayload}
    (signer : Ed25519BlockSigner PrivKey) (b : Block) : Prop :=
  (∃ sg, signature b = Some sg ∧ sign_header signer (header b) = Ok sg) ∧
  ∃ p, decode_payload (data b) = Ok p.

Lemma well_made_verifies {PrivKey PubKey} `{Ed25519Laws PrivKey PubKey} `{Json ExecutionPayload}
    (signer : Ed25519BlockSigner PrivKey) b :
  well_made signer b → verify_block_signature b (pub_key signer) = Ok tt.
Proof.
  intros [(sg & Hs & Hsg) _]. pose proof (sign_header_verifies signer _ sg Hsg) as Hv.
  unfold verify_block_signature. rewrite Hs. cbn in *. by rewrite Hv.
Qed.


(** ** Witnesses *)

Module PipelineDemo.
Import Codec.Demo Codec.CountableCodec RunnerDemo.

(** BCS by hand: a struct is its fields in order. *)
#[export] Instance registry_bcs : Bcs RegistryBcs := {|
  bcs_to_bytes '(a, h, (t, n)) := Ok (arr_bytes a ++ to_le_bytes 8 h ++ arr_bytes t ++ to_le_bytes 8 n);
  bcs_from_bytes bs :=
    a ← ok_or (try_into_array 32 (take 32 bs)) "id";
    t ← ok_or (try_into_array 32 (take 32 (drop 40 bs))) "table";
    Ok (a, from_le_bytes (take 8 (drop 32 bs)), (t, from_le_bytes (take 8 (drop 72 bs))))
|}.
#[export] Instance entry_bcs : Bcs FieldBlobBcs := {|
  bcs_to_bytes '(a, h, v) := Ok (arr_bytes a ++ to_le_bytes 8 h ++ v);
  bcs_from_bytes bs :=
    a ← ok_or (try_into_array 32 (take 32 bs)) "id";
    Ok (a, from_le_bytes (take 8 (drop 32 bs)), drop 40 bs)
|}.
Lemma take_head {A} (l k : list A) n : length l = n → take n (l ++ k) = l.
Proof. intros. by apply take_app_length'. Qed.
Lemma drop_head {A} (l k : list A) n i : length l = n → drop (n + i) (l ++ k) = drop i k.
Proof. intros <-. by rewrite drop_app_add. Qed.
#[export] Instance layout : BlobLayout.
Proof.
  split.
  - intros a hb t nb Hh Hn. cbn [bcs_from_bytes registry_bcs].
    rewrite take_head by apply length_arr_bytes. rewrite try_into_array_bytes. cbn [ok_or mbind result_bind].
    change 72%nat with (32 + (8 + (32 + 0)))%nat. change 40%nat with (32 + (8 + 0))%nat.
    change (drop 32 (arr_bytes a ++ hb ++ arr_bytes t ++ nb))
      with (drop (32 + 0) (arr_bytes a ++ hb ++ arr_bytes t ++ nb)).
    rewrite !(drop_head (arr_bytes a)) by apply length_arr_bytes.
    rewrite !(drop_head hb) by done. rewrite (drop_head (arr_bytes t)) by apply length_arr_bytes.
    rewrite !drop_0, (take_head (arr_bytes t)) by apply length_arr_bytes.
    rewrite try_into_array_bytes. cbn [ok_or mbind result_bind]. rewrite take_head by done.
    by rewrite take_ge by lia.
  - intros a h v Hh Hv. eexists. split; [done|]. cbn [bcs_from_bytes entry_bcs].
    rewrite take_head by apply length_arr_bytes. rewrite try_into_array_bytes. cbn [ok_or mbind result_bind].
    change 40%nat with (32 + (8 + 0))%nat.
    change (drop 32 (arr_bytes a ++ to_le_bytes 8 h ++ v))
      with (drop (32 + 0) (arr_bytes a ++ to_le_bytes 8 h ++ v)).
    rewrite !(drop_head (arr_bytes a)) by apply length_arr_bytes.
    rewrite drop_head by apply length_to_le_bytes. rewrite !drop_0.
    rewrite take_head by apply length_to_le_bytes. by rewrite u64_le_roundtrip.
Qed.

(** The demonstration SDK derives an id that starts with the key. *)
Lemma derived_bytes (t : Address) (h : N) :
  arr_bytes (table_field_id t h) = to_le_bytes 8 h ++ string_bytes "u64" ++ take 21 (arr_bytes t).
Proof.
  unfold table_field_id. cbn [derive_dynamic_child_id sui]. unfold pad.
  assert (take 32 ((to_le_bytes 8 h ++ string_bytes "u64" ++ arr_bytes t) ++ replicate 32 x00)
          = to_le_bytes 8 h ++ string_bytes "u64" ++ take 21 (arr_bytes t)) as ->.
  { rewrite <- !app_assoc. change 32%nat with (8 + 24)%nat at 1. rewrite take_app_add'.
    2:{ by rewrite length_to_le_bytes. }
    f_equal. change 24%nat with (3 + 21)%nat. rewrite take_app_add' by done. f_equal.
    rewrite take_app_le; [done|]. rewrite length_arr_bytes. lia. }
  destruct (try_into_array 32 _) as [a|] eqn:Ha.
  - by apply try_into_array_Some in Ha.
  - apply try_into_array_None in Ha. exfalso. apply Ha.
    rewrite !length_app, length_to_le_bytes, length_take, length_arr_bytes. reflexivity.
Qed.
Lemma demo_apart fs : apart (sim_ids (demo_sim fs)).
Proof.
  split.
  - intros He%(f_equal arr_bytes). vm_compute in He. discriminate.
  - intros h Hh. split; intros He%(f_equal (drop 8 ∘ arr_bytes)); cbn [compose] in He;
      rewrite derived_bytes, drop_app_length' in He by (by rewrite length_to_le_bytes);
      vm_compute in He; discriminate.
  - intros h h' Hh Hh' He%(f_equal (take 8 ∘ arr_bytes)). cbn [compose] in He.
    rewrite !derived_bytes, !take_app_length' in He by (by rewrite length_to_le_bytes).
    apply (f_equal from_le_bytes) in He. by rewrite !u64_le_roundtrip in He.
Qed.

(** *** The pipeline *)

(** A payload's text is its height; its hash is its height too. *)
#[export] Instance height_json : Json ExecutionPayload := {|
  json_to_string_pretty p := Ok (fmt_dec (p_block_number p));
  json_from_str s :=
    match parse_u64 s with
    | Some h => Ok (mk_payload ZERO ZERO (array_of_N 32 h) h 0 [] [])
    | None => Err "not a height"
    end
|}.
#[export] Instance finalizing : EngineApi unit := {|
  engine_build _ _ := throw (EDecode "no payload");
  engine_accept _ _ _ _ := mret tt;
  engine_finalize _ _ _ := mret tt;
  engine_head := throw (EDecode "no head");
  engine_block_number := throw (EDecode "no head");
  engine_block_by_number _ := mret None
|}.
(** Stores one batch, and serves it. *)
#[export] Instance one_blob : DataAvailability (list Block) := {|
  da_publish bs _ := (Ok (mk_BlobId (array_of_N 32 9)), bs);
  da_fetch _ bs := (Ok bs, bs)
|}.
#[export] Instance answers : ExecutionRpc unit := {|
  rpc_new_payload _ _ := mret Syncing;
  rpc_forkchoice _ := mret (mk_updated Syncing None);
  rpc_current_head := mret ZERO;
  rpc_block_number := mret 0;
  rpc_block_by_number _ := mret None
|}.
Definition batch12 : list PendingBlock :=
  [mk_pending (signed 1) (array_of_N 32 1) 1; mk_pending (signed 2) (array_of_N 32 2) 2].
Definition sequencer_world : RunnerWorld.t unit (list Block) sim :=
  RunnerWorld.mk tt [] (demo_sim []) (disk0 []) chain0 [] 0 None [].
(** A node at height 0 that knows the chain's registry. *)
Definition follower : FullNode (array 32) :=
  mk_node (address_to_hex (id_registry (sim_ids (demo_sim [])))) "http://sui" 1000 0 ZERO 0 ZERO ZERO
    None (StateStore.new ["data"]) false (Some (pub_key demo_key)) None None None.
Definition follower_world : NodeWorld.t unit (list Block) sim unit unit :=
  NodeWorld.mk tt (pb_block <$> batch12) (demo_sim []) tt tt (disk0 []) [].


(** *** Agreement *)

(** Two heights settled under one blob. *)
#[export] Instance two_heights : SettlementReads unit := {|
  read_latest _ _ := mret 2;
  read_table _ _ := mret (array_fill 32 x0e);
  read_commitment _ _ h := mret (if h <=? 2 then Some (mk_BlobId (array_of_N 32 9)) else None)
|}.
#[export] Instance silent : BlockReceiver unit := {|
  poll_buffer w := (None, w); receive _ w := (None, w)
|}.
#[export] Instance no_inbox : InboxTransport unit := {|
  tr_object_contents _ := throw (InboxParse "no inbox");
  tr_field_contents _ _ := throw (InboxParse "no inbox")
|}.
(** A node from height [h], at an RPC of its own. *)
Definition node_from (h : N) : FullNode (array 32) :=
  mk_node "0xreg" "http://sui" 1000 h ZERO h ZERO ZERO None (StateStore.new ["data"]) false
    (Some (pub_key demo_key)) None None None.
Definition demo_world : NodeWorld.t unit (list Block) unit unit unit :=
  NodeWorld.mk tt (pb_block <$> batch12) tt tt tt (disk0 []) [].
Definition demo_reg (h : N) : option BlobId :=
  if (1 <=? h) && (h <=? 2) then Some (mk_BlobId (array_of_N 32 9)) else None.
Definition demo_blobs (_ : BlobId) : option (list Block) := Some (pb_block <$> batch12).
Definition ticked (h : N) : FullNode (array 32) * NodeWorld.t unit (list Block) unit unit unit :=
  (tick (node_from h, demo_world)).2.

Definition agrees (e : NodeWorld.event) : bool :=
  match e with
  | NodeWorld.Commitment h id => bool_decide (demo_reg h = Some id)
  | NodeWorld.Fetched id blocks => bool_decide (demo_blobs id = Some blocks)
  | _ => true
  end.
Lemma agreeing_answers l : forallb agrees l = true → answers_of demo_reg demo_blobs l.
Proof.
  intros Hl%Is_true_true. rewrite forallb_True, Forall_forall in Hl.
  split; intros ? ? He; specialize (Hl _ He); by apply bool_decide_unpack in Hl.
Qed.
Lemma demo_agrees h : h < 2 → answers_of demo_reg demo_blobs (NodeWorld.log (ticked h).2).
Proof.
  intros Hh. apply agreeing_answers. assert (h = 0 ∨ h = 1) as [->| ->] by lia; by vm_compute.
Qed.

Lemma full_nodes_agree_witness :
  synced_height (ticked 0).1 = 2 ∧ finalized (ticked 0).1 = finalized (ticked 1).1 ∧
  safe (ticked 0).1 = safe (ticked 1).1.
Proof.
  assert (synced_height (ticked 0).1 = 2) as H0 by (by vm_compute).
  assert (synced_height (ticked 1).1 = 2) as H1 by (by vm_compute).
  split; [exact H0|].
  apply (full_nodes_agree (node_from 0, demo_world) (node_from 1, demo_world) (ticked 0) (ticked 1)
           demo_reg demo_blobs); [apply rtc_once, step_tick..| | |rewrite H0|rewrite H1|by rewrite H0, H1];
    try (by apply demo_agrees); done.
Defined.
End PipelineDemo.
