(* ===== verification/NodeLife.v ===== *)
(** A full node through its restarts: [FullNode::new] and [FullNode::run] of
    [crates/node/src/full_node.rs] as steps of a process that can stop at any
    point and start again from its state file.

    What a node resumes from is settled, as long as every start finds the state
    file or the execution layer where the first start found it; two theorems
    show what that gives and what happens without it. *)

From S2P Require Import Prelude Text Codec Disk Core Store Wire Contract Sui SuiInbox.
From S2P Require Import Deadline Config JsonValue Engine L2Rpc P2p Tracker Runner FullNode Pipeline.
Local Open Scope string_scope.
Local Open Scope list_scope.
Local Open Scope N_scope.

(** ** The life of a node *)

Section Life.
Import NodeWorld.
Context {E D S R X PrivKey PubKey : Type} `{ExecutionRpc E} `{DataAvailability D}
  `{SettlementReads S} `{BlockReceiver R} `{InboxTransport X}.
Context `{Ed25519 PrivKey PubKey} `{PubKeyText PubKey} `{SuiSdk} `{Hex}.
Context `{Json StateStore.ChainState} `{Json ExecutionPayload}.
Context `{Bcs InboxBcs} `{Bcs FieldPendingBcs} `{Bcs ClockBcs}.
Abbreviation World := (NodeWorld.t E D S R X).
(** The running node, if any, and its world. *)
Abbreviation life := (option (FullNode PubKey) * World)%type.

(** The configuration it starts with, and whether p2p gives it a receiver. *)
Context (c : Config) (receiver : bool) (may_start : World → Prop).

(** A pass that got through [k] of the heights it had to sync. *)
Definition sync_prefix (k : nat) : M (FullNode PubKey * World) anyhow unit :=
  n ← self;
  latest ← io settlement_err (read_latest (rpc_url n) (registry_id n));
  table ← table_address;
  sync_heights table None (take k (range (synced_height n + 1) (latest + 1))).

(** The outside moves; the node's files and what it was answered stay. *)
Definition elsewhere (w w' : World) : Prop :=
  log w' = log w ∧ files (dsk w') = files (dsk w) ∧ dirs (dsk w') = dirs (dsk w).

Inductive life_step : life → life → Prop :=
| NodeStarts w n w1 n' w2 :
    may_start w → full_node_new c receiver w = (Ok n, w1) → start (n, w1) = (Ok tt, (n', w2)) →
    life_step (None, w) (Some n', w2)
| NodeFailsNew w e w1 : full_node_new c receiver w = (Err e, w1) → life_step (None, w) (None, w1)
| NodeFailsStart w n w1 e s :
    full_node_new c receiver w = (Ok n, w1) → start (n, w1) = (Err e, s) → life_step (None, w) (None, s.2)
| NodeTicks n w r s : tick (n, w) = (r, s) → life_step (Some n, w) (Some s.1, s.2)
| NodeStops n w : life_step (Some n, w) (None, w)
| NodeStopsInSync k n w r s : sync_prefix k (n, w) = (r, s) → life_step (Some n, w) (None, s.2)
| Elsewhere o w w' : elsewhere w w' → life_step (o, w) (o, w').
End Life.

(** ** What it keeps *)

Lemma parse_hash_fmt `{HexLaws} (h : B256) : parse_hash (fmt_b256 h) = Some h.
Proof.
  unfold parse_hash, fmt_b256. rewrite trim_plain.
  2:{ repeat (constructor; [done|]). eapply Forall_impl; [apply hex_digits|]. by intros x []%hex_digit_plain. }
  rewrite bool_decide_false by done. unfold b256_from_str. rewrite strip_prefix_app. cbn.
  rewrite hex_roundtrip. cbn. by rewrite try_into_array_bytes.
Qed.

Section Kept.
Import NodeWorld.
Context {E D S R X PrivKey PubKey : Type} `{ExecutionRpc E} `{DataAvailability D}
  `{SettlementReads S} `{BlockReceiver R} `{InboxTransport X}.
Context `{Ed25519 PrivKey PubKey} `{PubKeyText PubKey} `{SuiSdk} `{HexLaws}.
Context `{JsonLaws StateStore.ChainState} `{Json ExecutionPayload}.
Context `{Bcs InboxBcs} `{Bcs FieldPendingBcs} `{Bcs ClockBcs}.
Abbreviation World := (NodeWorld.t E D S R X).
Abbreviation state := (FullNode PubKey * World)%type.
Context (c : Config) (receiver : bool) (h0 : N) (g0 : B256).
Abbreviation store := (StateStore.new (data_dir c)).

(** The verifying key of the configuration. *)
Definition configured_key : option PubKey :=
  hex ← sequencer_pubkey (signer c);
  raw ← to_option (pubkey_from_str hex);
  to_option (verifying_key raw).

(** [hash] is final at height [h]: where the node's first start found the
    execution layer, or a block settled there and signed by that key. *)
Definition settled_by (l : list event) (h : N) (b : Block) : Prop :=
  ∃ pk, configured_key = Some pk ∧ settled_block pk l h b.
Definition anchored (l : list event) (h : N) (hash : B256) : Prop :=
  (h = h0 ∧ hash = g0) ∨ ∃ b, settled_by l h b ∧ payload_hash b = Some hash.
Lemma settled_by_mono l l' h b : l ⊆ l' → settled_by l h b → settled_by l' h b.
Proof. intros Hl (pk & ? & ?). exists pk. split; [done|]. by eapply settled_block_mono. Qed.
Lemma anchored_mono l l' h hash : l ⊆ l' → anchored l h hash → anchored l' h hash.
Proof. intros Hl [?|(b & ? & ?)]; [by left|]. right. exists b. split; [by eapply settled_by_mono|done]. Qed.

Record node_ok (n : FullNode PubKey) (l : list event) : Prop := {
  ok_key : node_pubkey n = configured_key;
  ok_store : state_store n = store;
  ok_safe : safe n = finalized n;
  ok_anchor : anchored l (synced_height n) (finalized n)
}.
Definition file_ok (d : disk) (l : list event) : Prop :=
  view (StateStore.load store) d = Ok None ∨
  ∃ st hd fin, view (StateStore.load store) d = Ok (Some st) ∧
    StateStore.head st = fmt_b256 hd ∧ StateStore.safe st = fmt_b256 fin ∧
    StateStore.finalized st = fmt_b256 fin ∧ anchored l (StateStore.cs_height st) fin.
Definition fine (s : state) : Prop := node_ok s.1 (log s.2) ∧ file_ok (dsk s.2) (log s.2).

(** The same node and files, and more answers. *)
Definition answered (s s' : state) : Prop :=
  s'.1 = s.1 ∧ log s.2 ⊆ log s'.2 ∧ dsk s'.2 = dsk s.2.
Definition held (P : state → Prop) : Prop := ∀ s s', P s → answered s s' → P s'.
Lemma file_ok_mono d l l' : l ⊆ l' → file_ok d l → file_ok d l'.
Proof.
  intros Hl [?|(st & hd & fin & ? & ? & ? & ? & ?)]; [by left|]. right. exists st, hd, fin.
  split_and!; try done. by eapply anchored_mono.
Qed.
Lemma fine_held : held fine.
Proof.
  intros s s' [[? ? ? ?] Hd] (Hn & Hl & Hk). split; rewrite ?Hn, ?Hk; [|by eapply file_ok_mono].
  split; try done. by eapply anchored_mono.
Qed.
Lemma held_and (P Q : state → Prop) : held P → held Q → held (λ s, P s ∧ Q s).
Proof. intros HP HQ s s' [Hp Hq] Ha. split; [by eapply HP|by eapply HQ]. Qed.
Lemma held_log (φ : list event → Prop) :
  (∀ l l', l ⊆ l' → φ l → φ l') → held (λ s, φ (log s.2)).
Proof. intros Hm s s' Hs (_ & Hl & _). by eapply Hm. Qed.

Lemma held_io {Y Er A} (P : state → Prop) (get : World → Y) put (m : M Y Er A) ev f :
  held P → (∀ y w, log (put y w) = log w ∧ dsk (put y w) = dsk w) →
  triple P (io f (on get put m ev)) (λ a s, P s ∧ ∀ e, ev a = Some e → e ∈ log s.2) P.
Proof.
  intros HP Hput [n w] Hw. unfold io, errM, zoom, on. cbn. destruct (m (get w)) as [r y].
  assert (∀ o, answered (n, w) (n, note o (put y w))) as Ha.
  { intros o. destruct (Hput y w) as [Hl Hd]. split_and!; cbn; [done| |done].
    rewrite Hl. intros e ?. apply elem_of_app. by left. }
  destruct r as [a|]; cbn; [|by eapply HP]. split; [by eapply HP|].
  intros e ->. cbn. apply elem_of_app. right. by apply list_elem_of_singleton.
Qed.
Lemma held_call {Y Er A} (P : state → Prop) (get : World → Y) put (m : M Y Er A) ev f :
  held P → (∀ y w, log (put y w) = log w ∧ dsk (put y w) = dsk w) → preserves P (io f (on get put m ev)).
Proof. intros HP Hput. eapply triple_weaken; [by apply held_io|auto|by intros a s []|auto]. Qed.

(** *** Operations *)

Definition head_moves (P : state → Prop) : Prop := ∀ h k s, P s → P (set_head h k s.1, s.2).

Lemma held_apply (P : state → Prop) b : held P → head_moves P → preserves P (apply_block b).
Proof.
  intros HP Hh. unfold apply_block, contextM. walk_with ltac:(idtac; lazymatch goal with
  | |- preserves _ self => by intros s Hs
  | |- preserves _ (set _) => intros s Hs; by apply Hh
  | |- preserves _ (io _ _) => apply held_call; [done|by intros]
  end).
Qed.
Lemma fine_head : head_moves fine.
Proof. by intros h k s [[? ? ? ?] ?]. Qed.

(** A block to finalize, settled at its height. *)
Definition due (b : Block) (φ : list event → Prop) (s : state) : Prop :=
  (fine s ∧ settled_by (log s.2) (height (header b)) b) ∧ φ (log s.2).
Section Due.
Context (φ : list event → Prop) (later_φ : ∀ l l', l ⊆ l' → φ l → φ l').
Lemma due_held b : held (due b φ).
Proof.
  apply held_and; [apply held_and; [apply fine_held|]|by apply held_log].
  apply (held_log (λ l, settled_by l (height (header b)) b)). intros l l'. apply settled_by_mono.
Qed.
Lemma due_head b : head_moves (due b φ).
Proof. intros h k s [[Hf Hs] Hφ]. split; [split|]; [by apply fine_head|done..]. Qed.

Lemma saves (n : FullNode PubKey) ts f :
  triple (λ s, (fine s ∧ φ (log s.2)) ∧ s.1 = n)
    (io f (on_disk (StateStore.save (state_store n)
       (StateStore.mk_ChainState (fmt_b256 (head n)) (fmt_b256 (safe n)) (fmt_b256 (finalized n))
          (synced_height n) ts))))
    (λ _ s, fine s ∧ φ (log s.2)) (λ s, fine s ∧ φ (log s.2)).
Proof.
  intros [n' w] [[[[Hk Hst Hsf Ha] Hd] Hφ] Hn]. cbn in Hn, Hk, Hst, Hsf, Ha, Hd. subst n'.
  unfold io, errM, on_disk, zoom. cbn. rewrite Hst.
  destruct (StateStore.save _ _ (dsk w)) as [r d] eqn:Hs. cbn.
  apply StateFacts.state_save_spec in Hs as (_ & _ & Hr); [|apply snoc_ne].
  assert (file_ok d (log w)) as Hd'.
  { destruct r; [right|unfold file_ok; by rewrite Hr]. eexists _, _, _. split; [exact Hr|]. cbn.
    split; [done|]. rewrite Hsf. by split_and!. }
  by destruct r.
Qed.

Lemma finalizes b : triple (due b φ) (mark_finalized b) (λ _ s, fine s ∧ φ (log s.2)) fine.
Proof.
  unfold mark_finalized.
  eapply triple_bind.
  { apply triple_lift with (Q := λ p s, due b φ s ∧ payload_hash b = Some (p_block_hash p));
      [|by intros s [[]]].
    intros s p Hs Hp. split; [done|]. unfold payload_hash. by rewrite Hp. }
  intros p. apply triple_pure. intros Hp. eapply triple_bind with (Q := λ _ s, fine s ∧ φ (log s.2)).
  { apply triple_mod. intros s [[[[Hk Hst Hsf Ha] Hd] Hb] Hφ]. split; [split; [split|]|]; try done.
    right. by exists b. }
  intros []. eapply triple_bind with (Q := λ n s, (fine s ∧ φ (log s.2)) ∧ s.1 = n).
  { apply triple_self. by intros s Hs. }
  intros n. assert (held (λ s, (fine s ∧ φ (log s.2)) ∧ s.1 = n)) as Hh.
  { apply held_and; [apply held_and; [apply fine_held|by apply held_log]|].
    intros s s' Hs [Hn _]. by rewrite Hn. }
  eapply triple_bind.
  { eapply triple_weaken; [apply triple_err, (held_io _ _ _ _ _ _ Hh); by intros|cbn..]; [done| |].
    - intros a s [Hs _]. exact Hs.
    - by intros s [[]]. }
  intros st. eapply triple_bind.
  { apply triple_try with (Q := λ _ s, fine s ∧ φ (log s.2)) (R' := λ s, fine s ∧ φ (log s.2)).
    eapply triple_weaken; [apply saves|done..]. }
  intros [[]|]; by apply triple_ret.
Qed.
Lemma known b h hash :
  preserves (due b φ)
    (if height (header b) <=? h then
       o ← contextM "querying Reth block for DA verification"
             (io engine_err (rpc_block_by_number (height (header b))));
       mret (bool_decide (o = Some hash))
     else mret false).
Proof.
  unfold contextM. walk_with ltac:(idtac; lazymatch goal with
  | |- preserves _ (io _ _) => apply held_call; [apply due_held|by intros]
  end).
Qed.
Lemma applies b : triple (due b φ) (apply_and_finalize b) (λ _ s, fine s ∧ φ (log s.2)) fine.
Proof.
  assert (∀ s, due b φ s → fine s) as Hfine by by intros s [[]].
  unfold apply_and_finalize.
  eapply triple_bind; [apply triple_lift with (Q := λ _, due b φ); auto|intros p].
  eapply triple_bind; [apply triple_self with (Q := λ _, due b φ); auto|intros n].
  eapply triple_bind with (Q := λ _, due b φ).
  { eapply triple_weaken with (P' := due b φ) (Q' := λ _, due b φ) (R' := due b φ); [|done|done|done].
    apply known. }
  intros already. eapply triple_bind with (Q := λ _, due b φ); [|intros []; apply finalizes].
  destruct already; [by apply triple_ret|].
  eapply triple_weaken; [apply (held_apply _ b (due_held b) (due_head b))|auto..].
Qed.
End Due.

(** *** A pass over settlement *)

Lemma cached_held cache : held (λ s, fine s ∧ cached cache (log s.2)).
Proof.
  apply held_and; [apply fine_held|]. apply held_log. intros l l' Hl Hc id blocks Hi. by apply Hl, Hc.
Qed.
Lemma committed_held cache e : held (λ s, (fine s ∧ cached cache (log s.2)) ∧ e ∈ log s.2).
Proof. apply held_and; [apply cached_held|]. apply (held_log (λ l, e ∈ l)). intros l l' Hl He. by apply Hl. Qed.

Lemma fetches cache id e :
  triple (λ s, (fine s ∧ cached cache (log s.2)) ∧ e ∈ log s.2) (blocks_of cache id)
    (λ blocks s, fine s ∧ e ∈ log s.2 ∧ Fetched id blocks ∈ log s.2) fine.
Proof.
  assert (triple (λ s, (fine s ∧ cached cache (log s.2)) ∧ e ∈ log s.2) (io core_err (da_fetch id))
            (λ blocks s, fine s ∧ e ∈ log s.2 ∧ Fetched id blocks ∈ log s.2) fine) as Hf.
  { eapply triple_weaken; [apply (held_io _ _ _ _ _ _ (committed_held cache e)); by intros|cbn..]; [done| |].
    - intros blocks s [[[Hs _] He] Hb]. split_and!; [done|done|by apply Hb].
    - by intros s [[]]. }
  unfold blocks_of. destruct cache as [[k blocks]|]; [|exact Hf].
  case_bool_decide; [subst k|exact Hf]. apply triple_ret. intros s [[Hs Hc] He].
  split_and!; [done|done|by apply Hc].
Qed.

Lemma verified (P : state → Prop) b :
  (∀ s, P s → fine s) →
  triple P (verify_signature b)
    (λ _ s, P s ∧ ∃ pk, configured_key = Some pk ∧ verify_block_signature b pk = Ok tt) P.
Proof.
  intros HP. unfold verify_signature.
  eapply triple_bind with (Q := λ n s, P s ∧ node_pubkey n = configured_key).
  { apply triple_self. intros s Hs. split; [done|]. apply HP in Hs as [[]]. done. }
  intros n. apply triple_pure. intros ->. eapply triple_bind.
  { apply triple_lift with (Q := λ pk s, P s ∧ configured_key = Some pk); [|done].
    intros s pk Hs Hpk. split; [done|]. by destruct configured_key; [injection Hpk as ->|]. }
  intros pk. apply triple_pure. intros Hpk. apply triple_lift; [|done].
  intros s [] Hs Hv. split; [done|]. exists pk. split; [done|]. by destruct (verify_block_signature b pk) as [[]|].
Qed.

Lemma syncs_height table cache h :
  triple (λ s, fine s ∧ cached cache (log s.2)) (sync_height table cache h)
    (λ k s, fine s ∧ cached (Some k) (log s.2)) fine.
Proof.
  unfold sync_height.
  eapply triple_bind; [apply triple_self with (Q := λ _ s, fine s ∧ cached cache (log s.2)); auto|intros n].
  eapply triple_bind.
  { eapply triple_weaken; [apply triple_err, (held_io _ _ _ _ _ _ (cached_held cache)); by intros|cbn..];
      [done|intros o s Hs; exact Hs|by intros s []]. }
  intros o. eapply triple_bind.
  { apply triple_lift with (Q := λ id s, (fine s ∧ cached cache (log s.2)) ∧ Commitment h id ∈ log s.2).
    - intros s id [Hs Ho] Hid. destruct o as [i|]; [|done]. injection Hid as ->. split; [done|]. by apply Ho.
    - by intros s [[]]. }
  intros id. eapply triple_bind; [apply fetches|]. intros blocks. eapply triple_bind.
  { apply triple_lift with (Q := λ b s, (fine s ∧ Commitment h id ∈ log s.2 ∧ Fetched id blocks ∈ log s.2) ∧
      ∃ i, list_find (λ b, height (header b) = h) blocks = Some (i, b)); [|by intros s []].
    intros s b Hs Hb. split; [done|]. destruct (list_find _ blocks) as [[i x]|]; [|done].
    injection Hb as <-. by exists i. }
  intros b. apply triple_pure. intros [i Hi].
  pose proof (proj1 (list_find_Some _ _ _ _) Hi) as (_ & Hh & _).
  eapply triple_bind.
  { eapply triple_weaken; [apply (verified (λ s, fine s ∧ Commitment h id ∈ log s.2 ∧ Fetched id blocks ∈ log s.2))|cbn..].
    - by intros s [].
    - done.
    - intros a s Hs. exact Hs.
    - by intros s []. }
  intros []. apply triple_pure. intros (pk & Hpk & Hv).
  eapply triple_bind with (Q := λ _ s, fine s ∧ Fetched id blocks ∈ log s.2).
  - eapply triple_weaken; [apply (applies (λ l, Fetched id blocks ∈ l))| |done|done].
    { intros l l' Hl Hb. by apply Hl. }
    intros s (Hs & Hc & Hb). split; [|done]. split; [done|]. exists pk. split; [done|].
    split; [done|]. split; [done|]. exists id, blocks, i. rewrite Hh. by split_and!.
  - intros []. apply triple_ret. intros s [Hs Hb]. split; [done|]. by intros k bl [= <- <-].
Qed.
Lemma syncs_heights table heights cache :
  triple (λ s, fine s ∧ cached cache (log s.2)) (sync_heights table cache heights) (λ _, fine) fine.
Proof.
  revert cache. induction heights as [|h heights IH]; intros cache; cbn [sync_heights].
  { apply triple_ret. by intros s []. }
  eapply triple_bind; [apply syncs_height|intros k; apply IH].
Qed.
Lemma fine_heights table heights : preserves fine (sync_heights table None heights).
Proof. eapply triple_pre; [|apply syncs_heights]. by intros s Hs. Qed.

(** *** A tick *)

Lemma fine_set f :
  (∀ n l, node_ok n l → node_ok (f n) l) → preserves fine (set (W := World) (PubKey := PubKey) f).
Proof. intros Hf s [Hn Hd]. split; [by apply Hf|done]. Qed.
Ltac passes := walk_with ltac:(idtac; lazymatch goal with
  | |- preserves _ self => by intros s Hs
  | |- preserves _ (set _) => apply fine_set; by intros ? ? []
  | |- preserves _ (io _ _) => apply held_call; [apply fine_held|by intros]
  | |- preserves _ (sync_heights _ _ _) => apply fine_heights
  | |- preserves _ (apply_block _) => apply held_apply; [apply fine_held|apply fine_head]
  end).

Lemma fine_sync : preserves fine sync_from_settlement.
Proof. unfold sync_from_settlement. passes. Qed.
Lemma fine_prefix k : preserves fine (sync_prefix k).
Proof. unfold sync_prefix. passes. Qed.
Lemma fine_p2p : preserves fine poll_p2p.
Proof.
  unfold poll_p2p, verify_signature. passes.
  - intros [n w] Hw. unfold eff, poll_next. cbn. destruct (poll_buffer (net w)) as [o r].
    by eapply fine_held.
  - intros [n w] Hw. unfold eff. cbn. destruct (receive (ann_digest _) (net w)) as [o r].
    by eapply fine_held.
Qed.
Lemma fine_halted : preserves fine halted.
Proof.
  unfold halted. passes. intros [n w] Hw. unfold zoom. cbn [fst snd].
  match goal with |- context [status ?m w] => destruct (status_quiet m w) as [Hl Hd]; destruct (status m w) as [r w'] end.
  cbn [snd] in Hl, Hd. assert (fine (n, w')) as Hf by (eapply fine_held; [exact Hw|split_and!; [done|cbn; by rewrite Hl|done]]).
  by destruct r.
Qed.
Lemma fine_tick : preserves fine tick.
Proof.
  unfold tick. walk_with ltac:(idtac; solve [apply fine_halted | apply fine_sync | apply fine_p2p]).
Qed.

(** *** Starts and steps *)

(** What [new] and a failed start leave alone. *)
Definition same_life (w w' : World) : Prop :=
  log w' = log w ∧ el w' = el w ∧
  view (StateStore.load store) (dsk w') = view (StateStore.load store) (dsk w) ∧
  (sound_disk (dsk w) → sound_disk (dsk w')).

Lemma disk_same_life {A} (m : M disk StoreError A) (w : World) :
  (∀ d, view (StateStore.load store) (m d).2 = view (StateStore.load store) d ∧
        (sound_disk d → sound_disk (m d).2)) →
  preserves (same_life w) (on_disk m : M World StoreError A).
Proof.
  intros Hm w' (Hl & He & Hv & Hs). unfold on_disk, zoom. cbn. specialize (Hm (dsk w')) as [Hv' Hs'].
  destruct (m (dsk w')) as [r d]. cbn in Hv', Hs'.
  assert (same_life w (put_dsk d w')) by (split_and!; cbn; [done|done|congruence|auto]).
  by destruct r.
Qed.
Lemma not_above (p : path) a b k : a ≠ b → take k (p ++ [a]) ≠ p ++ [b].
Proof.
  intros Hne Hk. pose proof (f_equal length Hk) as Hl. rewrite length_take, !length_app in Hl. cbn in Hl.
  rewrite take_ge in Hk by (rewrite length_app; cbn; lia). apply app_inj_2 in Hk as [_ [=]]; done.
Qed.
Lemma init_same_life d :
  let d' := (Store.init (data_dir c) d).2 in
  view (StateStore.load store) d' = view (StateStore.load store) d ∧ (sound_disk d → sound_disk d').
Proof.
  unfold Store.init. rewrite io_run. unfold fs_create_dir_all. pose proof (sound_pop d) as Hs.
  destruct (next_fault d); cbn -[StateStore.load store seq take]; (split; [apply StateFacts.state_at; [done|]|done]);
    [|done..]. unfold fs_exists. cbn -[seq take]. f_equal. apply bool_decide_ext.
  rewrite elem_of_union, elem_of_list_to_set, list_elem_of_fmap. split; [|by left].
  intros [?|(k & Hk & _)]; [done|]. by apply eq_sym, not_above in Hk.
Qed.
Lemma load_same_life d :
  let d' := (StateStore.load store d).2 in
  view (StateStore.load store) d' = view (StateStore.load store) d ∧ (sound_disk d → sound_disk d').
Proof.
  cbv zeta. destruct (StateFacts.load_looks store) as [Hr Hs]. specialize (Hr d). specialize (Hs d).
  destruct (StateStore.load store d) as [r d']. destruct (Hr r d' eq_refl) as [Hf Hd].
  cbn [snd]. split; [apply StateFacts.state_at; [by rewrite Hf|by apply fs_exists_same; split; [rewrite Hf|]]|].
  by destruct r.
Qed.
Lemma new_same_life (w : World) : preserves (same_life w) (full_node_new (PubKey := PubKey) c receiver).
Proof.
  unfold full_node_new, contextM. walk_with ltac:(idtac; lazymatch goal with
  | |- preserves _ (on_disk (Store.init _)) => apply disk_same_life, init_same_life
  | |- preserves _ (on_disk (StateStore.load _)) => apply disk_same_life, load_same_life
  end).
Qed.

(** What [new] builds: the configured key and store, and the stored pointers. *)
Lemma new_spec (w : World) n w1 :
  full_node_new c receiver w = (Ok n, w1) → sound_disk (dsk w) →
  node_pubkey n = configured_key ∧ state_store n = store ∧
  match view (StateStore.load store) (dsk w) with
  | Ok (Some st) => synced_height n = StateStore.cs_height st ∧ persisted_forkchoice n = parse_forkchoice st
  | _ => persisted_forkchoice n = None
  end.
Proof.
  unfold full_node_new. intros Hrun Hd. apply bind_ok_inv in Hrun as ([] & wa & Hi & Hrun).
  assert (same_life w wa) as (_ & _ & Hva & Hda).
  { unfold contextM, errM in Hi. pose proof (disk_same_life _ w init_same_life w) as Hk.
    destruct (on_disk _ w) as [[[]|] wb]; [|done]. injection Hi as <-. apply Hk. by split_and!. }
  apply bind_ok_inv in Hrun as (hex & wb & Hhex & Hrun). injection Hhex as Hhex <-.
  apply bind_ok_inv in Hrun as (raw & wb & Hraw & Hrun). injection Hraw as Hraw <-.
  apply bind_ok_inv in Hrun as (key & wb & Hkey & Hrun). injection Hkey as Hkey <-.
  apply bind_ok_inv in Hrun as (reg & wb & Hreg & Hrun). injection Hreg as _ <-. cbv zeta in Hrun.
  apply bind_ok_inv in Hrun as (stored & wb & Hst & Hrun).
  assert (configured_key = Some key) as Hkeys.
  { unfold configured_key. destruct (sequencer_pubkey (signer c)); [|done]. injection Hhex as ->. cbn.
    destruct (pubkey_from_str hex); [|done]. injection Hraw as ->. cbn.
    destruct (verifying_key raw); [|done]. by injection Hkey as ->. }
  assert (stored = view (StateStore.load store) (dsk w)) as ->.
  { rewrite <- Hva. specialize (Hda Hd). unfold tryM, on_disk, zoom in Hst. cbn in Hst.
    unfold view, restart. destruct (dsk wa) as [fs ds flt]. unfold sound_disk in Hda. cbn in Hda |- *. subst flt.
    destruct (StateStore.load _ _). by injection Hst as <-. }
  destruct (view _ _) as [[st|]|]; injection Hrun as <- _; by rewrite Hkeys.
Qed.

(** A start from a disk that answers, and from [h0] and [g0] unless a state
    file says otherwise. *)
Definition starts_well (w : World) : Prop :=
  sound_disk (dsk w) ∧
  (view (StateStore.load store) (dsk w) = Ok None → ∃ e1 e2,
     rpc_current_head (el w) = (Ok g0, e1) ∧ rpc_block_number e1 = (Ok h0, e2)).
Abbreviation careful := (life_step c receiver starts_well).

Lemma asked {A} text (m : M E EngineError A) (n : FullNode PubKey) (w : World) a e :
  m (el w) = (Ok a, e) →
  contextM text (io engine_err (on el put_el m (λ _, None))) (n, w) = (Ok a, (n, note None (put_el e w))).
Proof. intros Hm. unfold contextM, io, errM, zoom, on. cbn. by rewrite Hm. Qed.
Lemma start_fine (w : World) n w1 s :
  starts_well w → file_ok (dsk w) (log w) →
  full_node_new c receiver w = (Ok n, w1) → start (n, w1) = (Ok tt, s) → fine s.
Proof.
  intros [Hd Hel] Hf Hn Hs. pose proof (new_same_life w w) as Hl. rewrite Hn in Hl.
  destruct Hl as (Hl & He & Hv & _); [by split_and!|].
  assert (file_ok (dsk w1) (log w1)) as Hf1 by (unfold file_ok; by rewrite Hv, Hl).
  apply new_spec in Hn as (Hk & Hst & Hp); [|done]. unfold start in Hs. rewrite run_bind in Hs.
  change (self (n, w1)) with (@Ok anyhow _ n, (n, w1)) in Hs. cbn in Hs.
  destruct Hf as [Hv0|(st & hd & fin & Hv0 & Hh & Hsf & Hfin & Ha)]; rewrite Hv0 in Hp.
  - destruct (Hel Hv0) as (e1 & e2 & Hhead & Hnum). rewrite Hp, run_bind in Hs.
    rewrite (asked _ _ n w1 g0 e1) in Hs by by rewrite He. rewrite run_bind in Hs. cbn [set modM fst snd] in Hs.
    rewrite run_bind, (asked _ _ _ _ h0 e2) in Hs by done. injection Hs as <-.
    split; [split; cbn; [done..|by left]|]. cbn. by rewrite !app_nil_r.
  - destruct Hp as [Hsync Hp]. unfold parse_forkchoice in Hp.
    rewrite Hh, Hsf, Hfin, !parse_hash_fmt in Hp. cbn in Hp. rewrite Hp in Hs. injection Hs as <-.
    split; [|done]. split; cbn; [done..|]. by rewrite Hl, Hsync.
Qed.
(** However far a start comes, the files and the answers stay. *)
Lemma start_file (s : state) : dsk (start s).2.2 = dsk s.2 ∧ log (start s).2.2 = log s.2.
Proof.
  set (P := λ s' : state, dsk s'.2 = dsk s.2 ∧ log s'.2 = log s.2).
  assert (preserves P start) as Hp.
  { assert (∀ A (m : M E EngineError A), preserves P (io engine_err (on el put_el m (λ _, None)))) as Hio.
    { intros A m [n w] [Hd Hl]. unfold io, errM, zoom, on. cbn. cbn in Hd, Hl. destruct (m (el w)) as [r e].
      assert (P (n, note None (put_el e w))) by (split; cbn; [done|by rewrite app_nil_r]).
      by destruct r. }
    unfold start, contextM. walk_with ltac:(idtac; lazymatch goal with
    | |- preserves _ self => by intros s' Hs'
    | |- preserves _ (set _) => by intros s' Hs'
    | |- preserves _ (io _ _) => apply Hio
    end). }
  specialize (Hp s (conj eq_refl eq_refl)). by destruct (start s) as [[] ?].
Qed.

(** The invariant of a life. *)
Definition life_ok (σ : option (FullNode PubKey) * World) : Prop :=
  file_ok (dsk σ.2) (log σ.2) ∧ ∀ n, σ.1 = Some n → node_ok n (log σ.2).
Lemma fine_life (s : state) : fine s → life_ok (Some s.1, s.2) ∧ life_ok (None, s.2).
Proof. intros [Hn Hf]. split; split; [done|by intros ? [= <-]|done|done]. Qed.
Lemma run_fine (m : M state anyhow unit) (s : state) r s' :
  preserves fine m → fine s → m s = (r, s') → fine s'.
Proof. intros Hm Hs Hr. specialize (Hm s Hs). rewrite Hr in Hm. by destruct r. Qed.

Lemma step_life σ σ' : careful σ σ' → life_ok σ → life_ok σ'.
Proof.
  intros Hs [Hf Hn]. destruct Hs as [w n w1 n' w2 Hm Hnew Hst|w e w1 Hnew|w n w1 e s Hnew Hst|n w r s Ht|n w
    |k n w r s Ht|o w w' (Hl & Hfs & Hds)].
  - pose proof (start_fine _ _ _ _ Hm Hf Hnew Hst) as Hfine. exact (proj1 (fine_life _ Hfine)).
  - pose proof (new_same_life w w) as Hl. rewrite Hnew in Hl.
    destruct Hl as (Hl & _ & Hv & _); [by split_and!|]. split; [|done]. cbn. unfold file_ok. by rewrite Hv, Hl.
  - pose proof (new_same_life w w) as Hl. rewrite Hnew in Hl.
    destruct Hl as (Hl & _ & Hv & _); [by split_and!|]. destruct (start_file (n, w1)) as [Hd Hlog].
    rewrite Hst in Hd, Hlog. cbn [snd] in Hd, Hlog. split; [|done]. cbn. rewrite Hd, Hlog.
    unfold file_ok. by rewrite Hv, Hl.
  - eapply run_fine in Ht; [|apply fine_tick|split; [by apply Hn|done]]. exact (proj1 (fine_life _ Ht)).
  - by split.
  - eapply run_fine in Ht; [|apply fine_prefix|split; [by apply Hn|done]]. exact (proj2 (fine_life _ Ht)).
  - cbn in Hf, Hn. split; cbn; rewrite Hl; [|done]. unfold file_ok.
    rewrite (StateFacts.state_at store (dsk w) (dsk w')); [done|by rewrite Hfs|].
    apply fs_exists_same. split; [by rewrite Hfs|done].
Qed.
Lemma lives_on σ σ' : rtc careful σ σ' → life_ok σ → life_ok σ'.
Proof. induction 1; [done|]. eauto using step_life. Qed.
End Kept.

(** Every start finds the state file, or the execution layer at [h0]. *)
Definition careful_life {E D S R X PrivKey PubKey : Type} `{ExecutionRpc E} `{DataAvailability D}
    `{SettlementReads S} `{BlockReceiver R} `{InboxTransport X} `{Ed25519 PrivKey PubKey}
    `{PubKeyText PubKey} `{SuiSdk} `{Hex} `{Json StateStore.ChainState} `{Json ExecutionPayload}
    `{Bcs InboxBcs} `{Bcs FieldPendingBcs} `{Bcs ClockBcs} (c : Config) (receiver : bool) (h0 : N) (g0 : B256)
    : relation (option (FullNode PubKey) * NodeWorld.t E D S R X) :=
  life_step c receiver (starts_well c h0 g0).

(** The first block of height [h] in the batch that the registry names there. *)
Definition canonical (reg : N → option BlobId) (blob : BlobId → option (list Block)) (h : N) (b : Block) : Prop :=
  ∃ id blocks i, reg h = Some id ∧ blob id = Some blocks ∧
    list_find (λ b, height (header b) = h) blocks = Some (i, b).

Section Agree.
Context {E D S R X PrivKey PubKey : Type} `{ExecutionRpc E} `{DataAvailability D}
  `{SettlementReads S} `{BlockReceiver R} `{InboxTransport X} `{Ed25519 PrivKey PubKey}
  `{PubKeyText PubKey} `{SuiSdk} `{HexLaws} `{JsonLaws StateStore.ChainState} `{Json ExecutionPayload}
  `{Bcs InboxBcs} `{Bcs FieldPendingBcs} `{Bcs ClockBcs}.
Implicit Types (w : NodeWorld.t E D S R X) (n : FullNode PubKey).

Lemma settled_canonical reg blob c h0 g0 n w :
  answers_of reg blob (NodeWorld.log w) → node_ok c h0 g0 n (NodeWorld.log w) → synced_height n ≠ h0 →
  ∃ b, canonical reg blob (synced_height n) b ∧ payload_hash b = Some (finalized n) ∧ safe n = finalized n.
Proof.
  intros [Hreg Hblob] [_ _ Hs Ha] Hh. destruct Ha as [[? _]|(b & (pk & _ & _ & _ & id & bs & i & Hc & Hf & Hx) & Hp)];
    [done|]. exists b. split_and!; [|done..]. exists id, bs, i. split_and!; [by apply Hreg|by apply Hblob|done].
Qed.
Lemma canonical_unique reg blob h b b' : canonical reg blob h b → canonical reg blob h b' → b = b'.
Proof. intros (? & ? & ? & ? & ? & ?) (? & ? & ? & ? & ? & ?). congruence. Qed.
Lemma life_node c receiver h0 g0 w n w' :
  view (StateStore.load (StateStore.new (data_dir c))) (NodeWorld.dsk w) = Ok None →
  rtc (careful_life c receiver h0 g0) (None, w) (Some n, w') → node_ok c h0 g0 n (NodeWorld.log w').
Proof.
  intros Hv Hl. eapply lives_on in Hl as [_ Hn]; [by apply Hn|]. split; [by left|done].
Qed.
End Agree.

(** C5: Full nodes agree across restarts.  Take two full nodes, each with its own
    configuration, and any lives of theirs from a data directory without a
    state file: starts, failed starts, ticks, stops, also between two heights
    of a pass, and failing disk writes, in any order, while everything around
    them moves.  Every start finds a disk that answers, and either the state
    file or the execution layer where the node's first start found it.  If the
    commitments they read are those of one registry and the batches they fetched
    those of one blob store, then at the same synced height above their first
    starts both have finalized the same block: the one the registry and the
    blob store hold there. *)
Theorem full_nodes_agree_across_restarts {E D S R X PrivKey PubKey : Type} `{ExecutionRpc E}
    `{DataAvailability D} `{SettlementReads S} `{BlockReceiver R} `{InboxTransport X}
    `{Ed25519 PrivKey PubKey} `{PubKeyText PubKey} `{SuiSdk} `{HexLaws} `{JsonLaws StateStore.ChainState}
    `{Json ExecutionPayload} `{Bcs InboxBcs} `{Bcs FieldPendingBcs} `{Bcs ClockBcs}
    c1 c2 receiver1 receiver2 h1 g1 h2 g2 (w1 w2 w1' w2' : NodeWorld.t E D S R X)
    (n1 n2 : FullNode PubKey) reg blob :
  view (StateStore.load (StateStore.new (data_dir c1))) (NodeWorld.dsk w1) = Ok None →
  view (StateStore.load (StateStore.new (data_dir c2))) (NodeWorld.dsk w2) = Ok None →
  rtc (careful_life c1 receiver1 h1 g1) (None, w1) (Some n1, w1') →
  rtc (careful_life c2 receiver2 h2 g2) (None, w2) (Some n2, w2') →
  answers_of reg blob (NodeWorld.log w1') → answers_of reg blob (NodeWorld.log w2') →
  synced_height n1 = synced_height n2 → synced_height n1 ≠ h1 → synced_height n1 ≠ h2 →
  ∃ b, canonical reg blob (synced_height n1) b ∧
    payload_hash b = Some (finalized n1) ∧ payload_hash b = Some (finalized n2) ∧
    safe n1 = finalized n1 ∧ safe n2 = finalized n2.
Proof.
  intros Hv1 Hv2 Hl1 Hl2 Ha1 Ha2 Hh Hne1 Hne2.
  pose proof (life_node _ _ _ _ _ _ _ Hv1 Hl1) as Hn1. pose proof (life_node _ _ _ _ _ _ _ Hv2 Hl2) as Hn2.
  destruct (settled_canonical _ _ _ _ _ _ _ Ha1 Hn1 Hne1) as (b & Hb & Hp & ?).
  destruct (settled_canonical _ _ _ _ _ _ _ Ha2 Hn2) as (b' & Hb' & Hp' & ?); [congruence|].
  rewrite <- Hh in Hb'. pose proof (canonical_unique _ _ _ _ _ Hb Hb') as ->. by exists b'.
Qed.

(** ** Examples *)

Module LifeDemo.
Import Codec.Demo Codec.CountableCodec NodeWorld.
(** A payload's text is a number, its block number and its hash. *)
#[export] Instance number_json : Json ExecutionPayload := {|
  json_to_string_pretty p := Ok (fmt_dec (p_block_number p));
  json_from_str s :=
    match parse_u64 s with
    | Some h => Ok (mk_payload ZERO ZERO (array_of_N 32 h) h 0 [] [])
    | None => Err "not a number"
    end
|}.
(** Two blocks for each height, both signed by the sequencer. *)
Definition made_block (h number : N) : Block :=
  let hd := mk_Header h (array_fill 32 x00) (array_fill 32 x07) (h * 100) in
  mk_Block hd (string_bytes (fmt_dec number)) (to_option (sign_header demo_key hd)).
Definition broadcast (h : N) : Block := made_block h h.
Definition settled (h : N) : Block := made_block h (h + 10).

(** An execution layer that takes every payload and moves to the head it is
    given; its genesis is block 0 with hash zero. *)
Record layer := mk_layer { imported : list (B256 * N); tip : B256 }.
Definition number_of (hash : B256) (e : layer) : N :=
  default 0 (snd <$> (snd <$> list_find (λ x, x.1 = hash) (imported e))).
#[export] Instance accepting : ExecutionRpc layer := {|
  rpc_new_payload p _ := λ e, (Ok Valid, mk_layer ((p_block_hash p, p_block_number p) :: imported e) (tip e));
  rpc_forkchoice fc := λ e, (Ok (mk_updated Valid None), mk_layer (imported e) (head_block_hash fc));
  rpc_current_head := λ e, (Ok (tip e), e);
  rpc_block_number := λ e, (Ok (number_of (tip e) e), e);
  rpc_block_by_number h := λ e, (Ok (fst <$> (snd <$> list_find (λ x, x.2 = h) (imported e))), e)
|}.
(** A registry that holds nothing, then three heights under one batch. *)
Definition blob0 : BlobId := mk_BlobId (array_of_N 32 9).
Definition batch0 : list Block := [settled 1; settled 2; settled 3].
#[export] Instance registry0 : SettlementReads bool := {|
  read_latest _ _ := λ s : bool, (Ok (if s then 3 else 0), s);
  read_table _ _ := mret (array_fill 32 x0e);
  read_commitment _ _ h := λ s : bool, (Ok (if s && (h <=? 3) then Some blob0 else None), s)
|}.
#[export] Instance store0 : DataAvailability unit := {|
  da_publish _ := throw (DataAvailabilityE "read only");
  da_fetch _ := mret batch0
|}.
(** A network that announces and serves block 3 once. *)
#[export] Instance gossip : BlockReceiver bool := {|
  poll_buffer (w : bool) := (if w then Some (announce_encode (mk_announce 3 (digest (broadcast 3)))) else None, w);
  receive _ w := (Some (broadcast 3), false)
|}.
#[export] Instance no_inbox : InboxTransport unit := {|
  tr_object_contents _ := throw (W := unit) (InboxNotFound "inbox"); tr_field_contents _ _ := throw (InboxNotFound "inbox")
|}.
#[export] Instance key_text : PubKeyText (array 32) := {|
  pubkey_from_str _ := Ok (array_fill 32 x00); verifying_key _ := Ok (pub_key demo_key)
|}.
Definition config0 : Config :=
  Config.mk_config (reth testnet) (walrus testnet)
    (mk_sui "http://sui" ["move"] None None (Some "0xreg") None None true)
    (mk_signer_config None (Some "key")) (sequencer testnet) (bridge testnet) (p2p testnet) (Config.metrics testnet)
    ["data"] "full".
Abbreviation world := (NodeWorld.t layer unit bool bool unit).
Abbreviation node := (FullNode (array 32)).
Definition fresh (chain : bool) : world := NodeWorld.mk (mk_layer [] ZERO) tt chain true tt (disk0 []) [].

(** One start, when it succeeds. *)
Definition boot (w : world) : option (node * world) :=
  match full_node_new config0 true w with
  | (Ok n, w1) => match start (n, w1) with (Ok tt, s) => Some s | _ => None end
  | _ => None
  end.
Lemma boots may w (s : node * world) :
  boot w = Some s → may w → life_step config0 true may (None, w) (Some s.1, s.2).
Proof.
  unfold boot. intros Hb Hm. destruct (full_node_new config0 true w) as [[n|] w1] eqn:Hn; [|done].
  destruct (start (n, w1)) as [[[]|] s'] eqn:Hs; [|done]. injection Hb as <-.
  eapply NodeStarts; [done|exact Hn|]. by rewrite Hs, (surjective_pairing s').
Qed.
Lemma ticked may n (w : world) s :
  (tick (n, w)).2 = s → life_step config0 true may (Some n, w) (Some s.1, s.2).
Proof.
  intros <-. apply NodeTicks with (r := (tick (n, w)).1). by rewrite <- (surjective_pairing (tick (n, w))).
Qed.

(** A start before anything is settled, a broadcast, a stop and a second
    start; then settlement. *)
Definition or_else (s : option (node * world)) (w : world) : node * world := default (demo_node, w) s.
Definition at_genesis : node * world := or_else (boot (fresh false)) (fresh false).
Definition on_broadcast : node * world := (tick at_genesis).2.
Definition restarted : node * world := or_else (boot on_broadcast.2) on_broadcast.2.
Definition settled_world : world := put_chain true restarted.2.
Definition after_settlement : node * world := (tick (restarted.1, settled_world)).2.

Definition succeeds (s : option (node * world)) : bool := match s with Some _ => true | None => false end.
Lemma boot_is (s : option (node * world)) w : succeeds s = true → s = Some (or_else s w).
Proof. by destruct s. Qed.
Lemma genesis_boots : succeeds (boot (fresh false)) = true.
Proof. by vm_compute. Qed.
Lemma restart_boots : succeeds (boot on_broadcast.2) = true.
Proof. by vm_compute. Qed.
Abbreviation free_step := (life_step config0 true (λ _ : world, True)).
Lemma chain_moves x (w : world) : elsewhere w (put_chain x w).
Proof. by split_and!. Qed.
Lemma first_start : free_step (None, fresh false) (Some at_genesis.1, at_genesis.2).
Proof. apply boots; [|done]. unfold at_genesis. apply boot_is, genesis_boots. Qed.
Lemma broadcast_eq : (tick (at_genesis.1, at_genesis.2)).2 = on_broadcast.
Proof. rewrite <- surjective_pairing. unfold on_broadcast. reflexivity. Qed.
Lemma first_tick : free_step (Some at_genesis.1, at_genesis.2) (Some on_broadcast.1, on_broadcast.2).
Proof. exact (ticked (λ _, True) at_genesis.1 at_genesis.2 on_broadcast broadcast_eq). Qed.
Lemma second_start : free_step (None, on_broadcast.2) (Some restarted.1, restarted.2).
Proof. apply boots; [|done]. unfold restarted. apply boot_is, restart_boots. Qed.
Lemma settlement_moves : free_step (Some restarted.1, restarted.2) (Some restarted.1, settled_world).
Proof. apply Elsewhere. unfold settled_world. apply chain_moves. Qed.
Lemma after_eq : (tick (restarted.1, settled_world)).2 = after_settlement.
Proof. unfold after_settlement. reflexivity. Qed.
Lemma last_tick :
  free_step (Some restarted.1, settled_world) (Some after_settlement.1, after_settlement.2).
Proof. exact (ticked (λ _, True) restarted.1 settled_world after_settlement after_eq). Qed.
Lemma early_life : rtc free_step (None, fresh false) (Some after_settlement.1, after_settlement.2).
Proof.
  eapply rtc_l; [exact first_start|]. eapply rtc_l; [exact first_tick|]. eapply rtc_l; [apply NodeStops|].
  eapply rtc_l; [exact second_start|]. eapply rtc_l; [exact settlement_moves|]. by apply rtc_once, last_tick.
Qed.

Definition is_commitment (e : event) : bool := match e with Commitment _ _ => true | _ => false end.
Lemma no_commitment (l : list event) :
  existsb is_commitment l = false → ∀ h id, Commitment h id ∉ l.
Proof.
  intros Hl h id Hin. assert (existsb is_commitment l = true) as Hc; [|by rewrite Hc in Hl].
  apply existsb_exists. exists (Commitment h id). by rewrite <- list_elem_of_In.
Qed.
Lemma early_reads : existsb is_commitment (log after_settlement.2) = false.
Proof. by vm_compute. Qed.
Lemma early_state :
  bool_decide (synced_height after_settlement.1 = 3 ∧
    payload_hash (broadcast 3) = Some (finalized after_settlement.1) ∧
    payload_hash (settled 3) ≠ Some (finalized after_settlement.1)) = true.
Proof. by vm_compute. Qed.
Lemma early_tip : existsb (λ e, match e with Latest h => h =? 3 | _ => false end) (log after_settlement.2) = true.
Proof. by vm_compute. Qed.
Lemma tip_seen h (l : list event) :
  existsb (λ e, match e with Latest h' => h' =? h | _ => false end) l = true → Latest h ∈ l.
Proof.
  intros (e & He & Hh)%existsb_exists. destruct e; try done. apply N.eqb_eq in Hh as <-.
  by rewrite list_elem_of_In.
Qed.
Lemma third_block : list_find (λ b, height (header b) = 3) batch0 = Some (2%nat, settled 3).
Proof. by vm_compute. Qed.
End LifeDemo.

Section EarlyRestart.
Import LifeDemo Codec.Demo Codec.CountableCodec NodeWorld.
End EarlyRestart.

(** *** Two nodes that follow the settled blocks *)

Module AgreeDemo.
Import LifeDemo Codec.Demo Codec.CountableCodec NodeWorld.
Definition at_start : node * world := or_else (boot (fresh true)) (fresh true).
Definition in_step : node * world := (tick (at_start.1, at_start.2)).2.
Definition again : node * world := or_else (boot in_step.2) in_step.2.
Abbreviation careful := (careful_life (D := unit) (X := unit) config0 true 0 ZERO).
Abbreviation state_file := (StateStore.load (StateStore.new (data_dir config0))).

Definition agrees (e : event) : bool :=
  match e with
  | Commitment _ id => bool_decide (id = blob0)
  | Fetched _ bs => bool_decide (bs = batch0)
  | _ => true
  end.
Lemma agreeing (l : list event) :
  forallb agrees l = true → answers_of (λ _, Some blob0) (λ _, Some batch0) l.
Proof.
  rewrite forallb_forall. intros Hl. split.
  - intros h id He. apply list_elem_of_In, Hl in He. cbn in He. apply bool_decide_eq_true_1 in He. by subst.
  - intros id bs He. apply list_elem_of_In, Hl in He. cbn in He. apply bool_decide_eq_true_1 in He. by subst.
Qed.

Lemma start_boots : succeeds (boot (fresh true)) = true.
Proof. by vm_compute. Qed.
Lemma again_boots : succeeds (boot in_step.2) = true.
Proof. by vm_compute. Qed.
Lemma no_file : view state_file (dsk (fresh true)) = Ok None.
Proof. by vm_compute. Qed.
Lemma genesis_well : starts_well config0 0 ZERO (fresh true).
Proof. split; [done|]. intros _. by eexists _, _. Qed.
Definition has_file (d : disk) : bool := match view state_file d with Ok None => false | _ => true end.
Lemma file_written : bool_decide (faults (dsk in_step.2) = []) && has_file (dsk in_step.2) = true.
Proof. by vm_compute. Qed.
Lemma file_well (w : world) :
  bool_decide (faults (dsk w) = []) && has_file (dsk w) = true → starts_well config0 0 ZERO w.
Proof.
  intros [Hf Hv]%andb_true_iff. apply bool_decide_eq_true_1 in Hf. split; [done|]. intros He.
  unfold has_file in Hv. by rewrite He in Hv.
Qed.

Lemma one_run : rtc careful (None, fresh true) (Some in_step.1, in_step.2).
Proof.
  eapply rtc_l; [exact (boots _ _ at_start (boot_is _ (fresh true) start_boots) genesis_well)|].
  apply rtc_once. exact (ticked _ at_start.1 at_start.2 in_step eq_refl).
Qed.
Lemma second_boot : boot in_step.2 = Some again.
Proof. unfold again. apply boot_is, again_boots. Qed.
Lemma two_runs : rtc careful (None, fresh true) (Some again.1, again.2).
Proof.
  eapply rtc_r; [eapply rtc_r; [exact one_run|apply NodeStops]|].
  exact (boots _ _ again second_boot (file_well _ file_written)).
Qed.
Lemma one_agrees : forallb agrees (log in_step.2) = true.
Proof. by vm_compute. Qed.
Lemma two_agrees : forallb agrees (log again.2) = true.
Proof. by vm_compute. Qed.
Lemma both_at : synced_height again.1 = 3 ∧ synced_height in_step.1 = 3.
Proof. by vm_compute. Qed.

Lemma full_nodes_agree_across_restarts_witness :
  ∃ b, canonical (λ _, Some blob0) (λ _, Some batch0) 3 b ∧
    payload_hash b = Some (finalized again.1) ∧ payload_hash b = Some (finalized in_step.1) ∧
    safe again.1 = finalized again.1 ∧ safe in_step.1 = finalized in_step.1.
Proof.
  destruct both_at as [Ha Hb]. rewrite <- Ha.
  apply (full_nodes_agree_across_restarts config0 config0 true true 0 ZERO 0 ZERO
           (fresh true) (fresh true) again.2 in_step.2 again.1 in_step.1
           (λ _, Some blob0) (λ _, Some batch0) no_file no_file two_runs one_run
           (agreeing _ two_agrees) (agreeing _ one_agrees)); rewrite Ha; [by rewrite Hb|discriminate..].
Defined.
End AgreeDemo.
