(* ===== verification/Committee.v ===== *)
(** The committee's peer book: [move/sources/settlement.move]'s book of peers,
    and the full nodes that admit exactly the peers it lists.

    The discovery network drops a connection whose two ends disagree about the
    peer set of an index, so nodes register the book under its on-chain version.
    Here nodes poll ([FullNode.poll_admission]) a chain whose book changes
    between and during polls, and read it as late as they like. *)

From Stdlib Require Import Lia.
From S2P Require Import Prelude Text Codec Disk Core Contract Sui SuiInbox P2p FullNode.
Local Open Scope string_scope.
Local Open Scope list_scope.
Local Open Scope N_scope.

(** ** The contract *)

Module PeerBook.
Definition E_INVALID_PEER_KEY : N := 3.
Definition E_INVALID_PEER_ADDR : N := 4.
Definition E_PEER_MISSING : N := 5.
Definition E_PEER_FULL : N := 6.
Definition PEER_KEY_BYTES : N := 32.
Definition MAX_PEER_ADDR_BYTES : N := 256.
Definition MAX_PEERS : N := 100.

(** A [VecMap] keeps its entries in order of insertion. *)
Record book := mk { version : N; peers : list (list byte * string) }.
Definition keys (b : book) : list (list byte) := (peers b).*1.
(** [*vec_map::get_mut(key) = addr] *)
Fixpoint set_addr (key : list byte) (addr : string) (l : list (list byte * string))
    : list (list byte * string) :=
  match l with
  | [] => []
  | (k, a) :: l => if decide (k = key) then (k, addr) :: l else (k, a) :: set_addr key addr l
  end.
(** [vec_map::remove] *)
Fixpoint remove_entry (key : list byte) (l : list (list byte * string)) : list (list byte * string) :=
  match l with
  | [] => []
  | (k, a) :: l => if decide (k = key) then l else (k, a) :: remove_entry key l
  end.

(** [rot] is the registry's rotation state, which says who may act. *)
Definition publish_peer (rot : option Rotation.state) (o : option book) (now : N) (sender : Address)
    (pubkey : list byte) (addr : string) : call book :=
  Rotation.assert_can_act rot now sender;;
  assert (N.of_nat (length pubkey) =? PEER_KEY_BYTES) E_INVALID_PEER_KEY;;
  let addr_len := N.of_nat (String.length addr) in
  assert ((0 <? addr_len) && (addr_len <=? MAX_PEER_ADDR_BYTES)) E_INVALID_PEER_ADDR;;
  let b := default (mk 0 []) o in
  v ← mv_add (version b) 1;
  if decide (pubkey ∈ keys b) then Ok (mk v (set_addr pubkey addr (peers b)))
  else
    assert (N.of_nat (length (peers b)) <? MAX_PEERS) E_PEER_FULL;;
    Ok (mk v (peers b ++ [(pubkey, addr)])).
Definition remove_peer (rot : option Rotation.state) (o : option book) (now : N) (sender : Address)
    (pubkey : list byte) : call book :=
  Rotation.assert_can_act rot now sender;;
  assert (N.of_nat (length pubkey) =? PEER_KEY_BYTES) E_INVALID_PEER_KEY;;
  b ← ok_or o (Abort E_PEER_MISSING);
  assert (bool_decide (pubkey ∈ keys b)) E_PEER_MISSING;;
  v ← mv_add (version b) 1;
  Ok (mk v (remove_entry pubkey (peers b))).
(** [peer_book_version]: 0 before the first publish. *)
Definition peer_book_version (o : option book) : N := default 0 (version <$> o).

(** One transaction on the book; failed calls change nothing. *)
Inductive step (o : option book) : option book → Prop :=
| Publish rot now sender pubkey addr b :
    publish_peer rot o now sender pubkey addr = Ok b → step o (Some b)
| Remove rot now sender pubkey b :
    remove_peer rot o now sender pubkey = Ok b → step o (Some b).

(** The book's states so far, newest first. *)
Inductive history : list (option book) → Prop :=
| history_start : history [None]
| history_step o o' l : step o o' → history (o :: l) → history (o' :: o :: l).

(** ** The book's invariant *)

Record wf (b : book) : Prop := {
  wf_keys : Forall (λ k, length k = 32%nat) (keys b);
  wf_nodup : NoDup (keys b);
  wf_length : N.of_nat (length (peers b)) ≤ MAX_PEERS;
  wf_version : 0 < version b ∧ is_u64 (version b)
}.

Lemma keys_set_addr key addr l : (set_addr key addr l).*1 = l.*1.
Proof. induction l as [|[k a] l IH]; [done|]. cbn. case_decide; cbn; congruence. Qed.
Lemma remove_entry_sublist key l : (remove_entry key l).*1 `sublist_of` l.*1.
Proof.
  induction l as [|[k a] l IH]; [done|]. cbn. case_decide; cbn; by constructor.
Qed.

Lemma publish_ok rot o now sender pubkey addr b :
  publish_peer rot o now sender pubkey addr = Ok b →
  length pubkey = 32%nat ∧ version b = peer_book_version o + 1 ∧ is_u64 (version b) ∧
  (let old := default [] (keys <$> o) in
   (pubkey ∈ old ∧ keys b = old) ∨
   ((pubkey ∉ old) ∧ keys b = old ++ [pubkey] ∧ N.of_nat (length old) < MAX_PEERS)).
Proof.
  unfold publish_peer. intros ([] & _ & H)%result_bind_ok.
  apply result_bind_ok in H as ([] & Hlen%assert_ok & H).
  apply result_bind_ok in H as (? & _ & H).
  apply result_bind_ok in H as (v & [Hv Hu]%mv_add_ok & H).
  apply N.eqb_eq in Hlen. unfold PEER_KEY_BYTES in Hlen.
  assert (version (default (mk 0 []) o) = peer_book_version o) as Hver by by destruct o.
  assert (keys (default (mk 0 []) o) = default [] (keys <$> o)) as Hk by by destruct o.
  rewrite Hk in H. rewrite Hver in Hv. destruct (decide _) as [Hin|Hin].
  - injection H as <-. cbn [version]. split; [lia|]. do 2 (split; [done|]). left. split; [done|].
    unfold keys at 1; cbn [peers]. by rewrite keys_set_addr.
  - apply result_bind_ok in H as ([] & Hfull%assert_ok & [= <-]). apply N.ltb_lt in Hfull.
    cbn [version]. split; [lia|]. do 2 (split; [done|]). right. split; [done|].
    rewrite <- Hk. unfold keys in *. cbn [peers]. rewrite fmap_app, length_fmap. by split.
Qed.
Lemma remove_ok rot o now sender pubkey b :
  remove_peer rot o now sender pubkey = Ok b →
  ∃ old, o = Some old ∧ version b = version old + 1 ∧ is_u64 (version b) ∧
    keys b `sublist_of` keys old.
Proof.
  unfold remove_peer. intros ([] & _ & H)%result_bind_ok.
  apply result_bind_ok in H as (? & _ & H).
  apply result_bind_ok in H as (old & Ho%ok_or_ok & H).
  apply result_bind_ok in H as (? & _ & H).
  apply result_bind_ok in H as (v & [Hv Hu]%mv_add_ok & [= <-]).
  exists old. cbn [version]. split; [done|]. split; [done|]. split; [done|]. apply remove_entry_sublist.
Qed.

Lemma step_version o o' : step o o' → peer_book_version o < peer_book_version o'.
Proof.
  destruct 1 as [?????? (_ & Hv & _)%publish_ok|????? (old & -> & Hv & _)%remove_ok]; cbn in *; lia.
Qed.
Lemma step_wf o b : (∀ b0, o = Some b0 → wf b0) → step o (Some b) → wf b.
Proof.
  intros Ho Hs. inversion Hs as [?????? Hp|????? Hr]; subst.
  - apply publish_ok in Hp as (Hlen & Hv & Hu & Hk).
    assert (∀ l, l = default [] (keys <$> o) →
      Forall (λ k, length k = 32%nat) l ∧ NoDup l ∧ N.of_nat (length l) ≤ MAX_PEERS) as Hold.
    { intros l ->. destruct o as [b0|]; cbn.
      - destruct (Ho b0 eq_refl). unfold keys in *. by rewrite length_fmap.
      - split; [constructor|]. split; [constructor|]. done. }
    destruct (Hold _ eq_refl) as (Hf & Hn & Hl).
    assert (0 < version b ∧ is_u64 (version b)) as Hver by (split; [lia|done]).
    assert (length (peers b) = length (keys b)) as Hlk by by unfold keys; rewrite length_fmap.
    destruct Hk as [[_ Hk]|(Hnew & Hk & Hfull)]; split; rewrite ?Hlk, ?Hk; try done.
    + by apply Forall_app; split; [|constructor].
    + apply NoDup_app. split; [done|]. split; [|apply NoDup_singleton].
      intros x Hx ->%list_elem_of_singleton. done.
    + rewrite length_app. cbn. lia.
  - apply remove_ok in Hr as (old & -> & Hv & Hu & Hsub).
    destruct (Ho old eq_refl) as [Hf Hn Hl Hver]. split; [|by eapply sublist_NoDup| |split; [lia|done]].
    { rewrite Forall_forall in Hf |- *. intros k Hk. by apply Hf, (elem_of_sublist _ _ k Hk Hsub). }
    unfold keys in Hsub. apply sublist_length in Hsub. rewrite !length_fmap in Hsub. lia.
Qed.
Lemma history_wf l b : history l → Some b ∈ l → wf b.
Proof.
  intros Hl. revert b. induction Hl as [|o o' l Hs Hl IH]; intros b.
  - by intros [|[]%not_elem_of_nil]%elem_of_cons.
  - intros [Hb|?]%elem_of_cons; [|by apply IH]. subst o'. eapply step_wf; [|done].
    intros b0 ->. apply IH. left.
Qed.

(** A version names one book. *)
Lemma history_versions l o : history (o :: l) → ∀ o', o' ∈ l → peer_book_version o' < peer_book_version o.
Proof.
  remember (o :: l) as l0 eqn:Hl0. intros Hl. revert o l Hl0.
  induction Hl as [|o1 o2 l1 Hs Hl IH]; intros o l [= <- <-] o'; [by intros []%not_elem_of_nil|].
  apply step_version in Hs. intros [->|Hin]%elem_of_cons; [done|].
  specialize (IH _ _ eq_refl _ Hin). lia.
Qed.
Lemma version_unique l o o' :
  history l → o ∈ l → o' ∈ l → peer_book_version o = peer_book_version o' → o = o'.
Proof.
  intros Hl. induction Hl as [|o1 o2 l1 Hs Hl IH].
  - by intros ->%list_elem_of_singleton ->%list_elem_of_singleton.
  - pose proof (history_versions _ _ (history_step _ _ _ Hs Hl)) as Hv.
    intros [->|H1]%elem_of_cons [->|H2]%elem_of_cons Heq; [done|..|by apply IH].
    + specialize (Hv _ H2). lia.
    + specialize (Hv _ H1). lia.
Qed.
End PeerBook.

(** ** Polling nodes *)

(** The chain as a node's transport shows it: a read of the book's field finds
    some state the book has had, not always the newest, and the chain only
    moves forward meanwhile. *)
Class BookChain (W : Type) `{InboxTransport W} `{SuiSdk} `{Bcs FieldBookBcs}
    (registry package : Address) := {
  chain : W → list (option PeerBook.book);
  chain_history w : PeerBook.history (chain w);
  chain_read w r w' :
    tr_object_contents (peer_book_field_id registry package) w = (r, w') →
    chain w `suffix_of` chain w' ∧
    match r with
    | Ok bytes => ∃ b id, Some b ∈ chain w' ∧
        (bcs_from_bytes bytes : result _ FieldBookBcs) = Ok (id, (PeerBook.version b, PeerBook.peers b))
    | Err _ => True
    end
}.

Section Network.
Context {W PeerKey Identity : Type} `{InboxTransport W} `{SuiSdk} `{Bcs FieldBookBcs}
  `{PeerKeys PeerKey Identity}.
Context (registry package : Address) `{!BookChain W registry package}.
Abbreviation handle := (@AdmissionHandle PeerKey).

(** The identities of a book, and the set a node registers for it. *)
Definition identities (o : option PeerBook.book) : list (array 32) :=
  omap (try_into_array 32) (default [] (PeerBook.keys <$> o)).
Definition peer_set (bound : nat) (o : option PeerBook.book) : result anyhow (list PeerKey) :=
  mapM load_pubkey (admission_set (identities o) bound).

(** What a node remembers: its handle and the version it last applied.  A node
    starts with nothing registered ([initial_tracked_set] in registry mode). *)
Record node := mk_node { n_handle : handle; n_applied : option N }.
Definition start_node (bound : nat) : node := mk_node (mk_admission [] bound 0) None.

(** The chain moves on its own, or a node polls. *)
Inductive net_step : W * list node → W * list node → Prop :=
| ChainMoves w w' ns : chain w `suffix_of` chain w' → net_step (w, ns) (w', ns)
| NodePolls w w' ns i n v h' a' :
    ns !! i = Some n →
    poll_admission registry package (n_handle n) (n_applied n) w = (Ok (v, h', a'), w') →
    net_step (w, ns) (w', <[i := mk_node h' a']> ns)
| PollFails w w' ns i n e :
    ns !! i = Some n →
    poll_admission registry package (n_handle n) (n_applied n) w = (Err e, w') →
    net_step (w, ns) (w', ns).

(** Every set a node tracks is the set of a book of the chain, under its
    version. *)
Definition node_ok (bound : nat) (w : W) (n : node) : Prop :=
  max_peers (n_handle n) = bound ∧
  (∀ v ks, (v, ks) ∈ tracked (n_handle n) →
     ∃ o, o ∈ chain w ∧ PeerBook.peer_book_version o = v ∧ peer_set bound o = Ok ks) ∧
  (∀ v, n_applied n = Some v →
     ∃ o, o ∈ chain w ∧ PeerBook.peer_book_version o = v ∧
       match peer_set bound o with Ok ks => (v, ks) ∈ tracked (n_handle n) | Err _ => True end).

Lemma history_bottom l : PeerBook.history l → None ∈ l.
Proof. induction 1; [left|by right]. Qed.

(** A successful read is a book of the chain. *)
Lemma snapshot_ok w s w' :
  peer_book_snapshot registry package w = (Ok s, w') →
  chain w `suffix_of` chain w' ∧
  ∃ o, o ∈ chain w' ∧ book_version s = PeerBook.peer_book_version o ∧
       peer_pubkey <$> book_peers s = identities o.
Proof.
  unfold peer_book_snapshot. destruct (tr_object_contents _ w) as [r w1] eqn:Hr.
  apply chain_read in Hr as [Hsuf Hr]. destruct r as [bytes|e].
  - intros [= Hp <-]. destruct (parse_peer_book bytes) as [s'|] eqn:Hparse; cbn in Hp; simplify_eq.
    destruct Hr as (b & id & Hb & Hbytes). split; [done|]. exists (Some b). split; [done|].
    unfold parse_peer_book in Hparse. rewrite Hbytes in Hparse. cbn [map_err mbind result_bind] in Hparse.
    apply result_bind_ok in Hparse as (ps & Hps & [= <-]). split; [done|]. cbn [book_peers].
    unfold identities; cbn. apply mapM_result_ok in Hps. unfold PeerBook.keys. clear Hbytes Hb.
    induction Hps as [|[k a] p l ps Hkp _ IH]; [done|].
    apply result_bind_ok in Hkp as (key & Hkey%ok_or_ok & [= <-]). cbn in Hkey |- *.
    rewrite Hkey. by f_equal.
  - destruct e as [|m|]; [done| |done]. intros [= <- <-]. split; [done|]. exists None.
    split; [|done]. apply history_bottom, chain_history.
Qed.

Lemma node_ok_later bound w w' n : chain w `suffix_of` chain w' → node_ok bound w n → node_ok bound w' n.
Proof.
  intros [l Hl] (Hm & Ht & Ha). split; [done|]. rewrite Hl. split.
  - intros v ks (o & Ho & ?)%Ht. exists o. by rewrite elem_of_app; auto.
  - intros v (o & Ho & ?)%Ha. exists o. by rewrite elem_of_app; auto.
Qed.
Lemma poll_node_ok bound w n v h' a' w' :
  node_ok bound w n →
  poll_admission registry package (n_handle n) (n_applied n) w = (Ok (v, h', a'), w') →
  chain w `suffix_of` chain w' ∧ node_ok bound w' (mk_node h' a').
Proof.
  intros Hn. unfold poll_admission. intros (s & w1 & Hs & Hp)%bind_ok_inv.
  apply snapshot_ok in Hs as (Hsuf & o & Ho & Hv & Hids).
  case_bool_decide; cbv [mret M_ret] in Hp; simplify_eq.
  { split; [done|]. destruct n. by eapply node_ok_later. }
  split; [done|]. apply (node_ok_later _ _ _ _ Hsuf) in Hn as (Hm & Ht & Ha).
  rewrite Hv, Hids. unfold admit_peers. rewrite Hm. fold (peer_set bound o).
  split; [by destruct (peer_set bound o)|]. cbn [n_handle n_applied]. split.
  - intros v' ks. destruct (peer_set bound o) as [ks'|] eqn:Hps; [|apply Ht]. cbn [tracked].
    intros [[= -> ->]|Hin]%elem_of_cons; [by exists o|by apply Ht].
  - intros v' [= <-]. exists o. split; [done|]. split; [done|].
    destruct (peer_set bound o); [by left|done].
Qed.

Lemma net_invariant bound s s' :
  rtc net_step s s' → Forall (node_ok bound s.1) s.2 → Forall (node_ok bound s'.1) s'.2.
Proof.
  induction 1 as [|s1 s2 s3 Hs _ IH]; [done|]. intros Hn. apply IH. clear IH.
  inversion Hs as [w w' ns Hsuf|w w' ns i n v h' a' Hi Hp|w w' ns i n e Hi Hp]; subst; cbn in *.
  - eapply Forall_impl; [done|]. intros n. by apply node_ok_later.
  - rewrite Forall_forall in Hn. pose proof (Hn n) as Hni. rewrite list_elem_of_lookup in Hni.
    eapply poll_node_ok in Hp as [Hsuf Hok]; [|by apply Hni; exists i].
    apply Forall_insert; [|done]. apply Forall_forall. intros n' Hn'. by eapply node_ok_later, Hn.
  - assert (chain w `suffix_of` chain w') as Hsuf.
    { unfold poll_admission in Hp. apply bind_err_inv in Hp as [Hp|(s & w1 & Hp & Hk)].
      - unfold peer_book_snapshot in Hp. destruct (tr_object_contents _ w) as [r w1] eqn:Hr.
        apply chain_read in Hr as [Hsuf _]. destruct r as [|[]]; simplify_eq; done.
      - by case_bool_decide. }
    eapply Forall_impl; [done|]. intros n'. by apply node_ok_later.
Qed.
Lemma started_ok bound w count : Forall (node_ok bound w) (replicate count (start_node bound)).
Proof.
  apply Forall_replicate. split; [done|]. split; [|done]. by intros v ks ?%not_elem_of_nil.
Qed.

Lemma identities_length l o : PeerBook.history l → o ∈ l → (length (identities o) ≤ 100)%nat.
Proof.
  intros Hl Ho. unfold identities. destruct o as [b|]; [|cbn; lia].
  pose proof (PeerBook.history_wf _ _ Hl Ho) as [_ _ Hlen _]. unfold PeerBook.MAX_PEERS in Hlen.
  assert (∀ k : list (list byte), (length (omap (try_into_array 32) k) ≤ length k)%nat) as Ho'.
  { induction k as [|x k IH]; [done|]. cbn. destruct (try_into_array 32 x); cbn; lia. }
  etrans; [apply Ho'|]. cbn. unfold PeerBook.keys. rewrite length_fmap. lia.
Qed.
Lemma peer_set_spec bound l o ks pk :
  PeerBook.history l → o ∈ l → (100 ≤ bound)%nat → peer_set bound o = Ok ks →
  pk ∈ ks ↔ ∃ x, x ∈ identities o ∧ load_pubkey x = Ok pk.
Proof.
  intros Hl Ho Hb Hks. apply mapM_result_ok in Hks. unfold peer_set in Hks.
  assert (pk ∈ ks ↔ ∃ x, x ∈ admission_set (identities o) bound ∧ load_pubkey x = Ok pk) as ->.
  { split.
    - intros (i & Hi)%list_elem_of_lookup. destruct (Forall2_lookup_r _ _ _ _ _ Hks Hi) as (x & ? & ?).
      exists x. split; [|done]. by eapply list_elem_of_lookup_2.
    - intros (x & (i & Hi)%list_elem_of_lookup & Hx).
      destruct (Forall2_lookup_l _ _ _ _ _ Hks Hi) as (y & Hy & ?). simplify_eq.
      assert (y = pk) as <- by congruence. by eapply list_elem_of_lookup_2. }
  pose proof (identities_length l o Hl Ho).
  setoid_rewrite elem_of_admission_set; [done|lia].
Qed.

(** C24: full nodes that follow the committee's book agree.  However the book
    changes, however the nodes' polls interleave with the changes and with each
    other, and however late or how often their reads fail: two sets that any
    nodes registered under one version are the same, and are exactly the
    identities a book of that version lists. *)
Theorem committee_agrees bound count w0 w ns i j ni nj v ks ks' :
  (100 ≤ bound)%nat →
  rtc net_step (w0, replicate count (start_node bound)) (w, ns) →
  ns !! i = Some ni → ns !! j = Some nj →
  (v, ks) ∈ tracked (n_handle ni) → (v, ks') ∈ tracked (n_handle nj) →
  ks = ks' ∧
  ∃ o, o ∈ chain w ∧ PeerBook.peer_book_version o = v ∧
    ∀ pk, pk ∈ ks ↔ ∃ x, x ∈ identities o ∧ load_pubkey x = Ok pk.
Proof.
  intros Hb Hr Hi Hj Hks Hks'. apply (net_invariant bound) in Hr; [|apply started_ok]. cbn in Hr.
  rewrite Forall_lookup in Hr. pose proof (Hr _ _ Hi) as (_ & Hti & _).
  pose proof (Hr _ _ Hj) as (_ & Htj & _).
  apply Hti in Hks as (o & Ho & Hv & Hks). apply Htj in Hks' as (o' & Ho' & Hv' & Hks').
  assert (o = o') as <-.
  { eapply PeerBook.version_unique; [apply (chain_history w)|done..|congruence]. }
  split; [congruence|]. exists o. split; [done|]. split; [done|]. intros pk.
  by eapply peer_set_spec; [apply (chain_history w)|..].
Qed.

(** a peer the book lists is admitted.  Once a node's poll has read a
    version whose book lists an identity, and every identity of that book
    decodes, the node tracks that version's set and the identity is in it. *)
Theorem published_peer_admitted bound count w0 w ns i n v h' a' w' b x :
  (100 ≤ bound)%nat →
  rtc net_step (w0, replicate count (start_node bound)) (w, ns) →
  ns !! i = Some n →
  poll_admission registry package (n_handle n) (n_applied n) w = (Ok (v, h', a'), w') →
  Some b ∈ chain w' → PeerBook.version b = v → arr_bytes x ∈ PeerBook.keys b →
  (∀ y, y ∈ identities (Some b) → is_ok (load_pubkey y) = true) →
  ∃ ks pk, (v, ks) ∈ tracked h' ∧ load_pubkey x = Ok pk ∧ pk ∈ ks.
Proof.
  intros Hb Hr Hi Hp Hbook Hv Hx Hdec. apply (net_invariant bound) in Hr; [|apply started_ok].
  cbn in Hr. rewrite Forall_lookup in Hr.
  assert (a' = Some v) as ->.
  { unfold poll_admission in Hp. apply bind_ok_inv in Hp as (s & w1 & _ & Hp).
    case_bool_decide; injection Hp as <- <- <- <-; done. }
  eapply poll_node_ok in Hp as [_ (_ & _ & Ha)]; [|by eapply Hr]. cbn in Ha.
  destruct (Ha v eq_refl) as (o & Ho & Hov & Hset).
  assert (o = Some b) as ->.
  { eapply PeerBook.version_unique; [apply (chain_history w')|done..|]. by rewrite Hov, <- Hv. }
  assert (x ∈ identities (Some b)) as Hxi.
  { unfold identities; cbn. apply list_elem_of_omap. exists (arr_bytes x).
    split; [done|apply try_into_array_bytes]. }
  destruct (peer_set bound (Some b)) as [ks|e] eqn:Hks.
  - specialize (Hdec x Hxi) as Hok. destruct (load_pubkey x) as [pk|] eqn:Hpk; [|done].
    exists ks, pk. split; [done|]. split; [done|].
    eapply (peer_set_spec bound _ _ ks pk (chain_history w') Ho Hb Hks). eauto.
  - exfalso. unfold peer_set in Hks.
    assert (∀ l : list (array 32), (∀ y, y ∈ l → is_ok (load_pubkey y) = true) →
              is_ok (mapM load_pubkey l : result anyhow (list PeerKey)) = true) as Hall.
    { clear. induction l as [|y l IH]; intros Hl; [done|]. cbn.
      specialize (IH (λ z Hz, Hl z ltac:(by right))). specialize (Hl y ltac:(left)).
      destruct (load_pubkey y); [|done]. cbn. by destruct (mapM load_pubkey l). }
    specialize (Hall (admission_set (identities (Some b)) bound)). rewrite Hks in Hall.
    enough (is_ok (Err e : result anyhow (list PeerKey)) = true) by done. apply Hall. intros y Hy. apply Hdec.
    pose proof (identities_length _ _ (chain_history w') Ho).
    by rewrite elem_of_admission_set in Hy by lia.
Qed.
End Network.

(** ** Witnesses *)

Module CommitteeDemo.
Import Codec.CountableCodec.
Definition addr0 : Address := array_fill 32 xaa.
#[export] Instance sdk : SuiSdk := {|
  address_from_str _ := Ok addr0; address_to_hex _ := "0xaa";
  derive_dynamic_child_id a _ _ := a;
  struct_tag_from_str _ := Ok sui_tag; struct_tag_text _ := ""; identifier_new s := Ok s
|}.
#[export] Instance peer_keys : PeerKeys (array 32) (list byte) := {|
  load_pubkey k := Ok k; load_from_seed s := Ok s; identity_pubkey _ := addr0;
  random_identity := []; key_seed s := s
|}.

(** A world is the book's history; a read finds the newest state. *)
Record world := mk_world { w_chain : list (option PeerBook.book); w_ok : PeerBook.history w_chain }.
Definition field_bytes (b : PeerBook.book) : result string (list byte) :=
  bcs_to_bytes ((addr0, (PeerBook.version b, PeerBook.peers b)) : FieldBookBcs).
#[export] Instance transport : InboxTransport world := {|
  tr_object_contents _ w :=
    (match w_chain w with
     | Some b :: _ => map_err InboxParse (field_bytes b)
     | _ => Err (InboxNotFound "no book")
     end, w);
  tr_field_contents _ _ := mret None
|}.
#[export] Instance chain_of_world : BookChain world addr0 addr0.
Proof.
  refine {| chain := w_chain; chain_history := w_ok |}.
  intros [l Hl] r w'. unfold tr_object_contents, transport. intros [= <- <-]. split; [done|].
  cbn [w_chain]. destruct l as [|[b|] l]; [done| |done]. destruct (field_bytes b) as [bytes|] eqn:Hb; [|done]. cbn [map_err].
  exists b, addr0. split; [left|]. by apply bcs_decode_encode.
Defined.

Definition rot : option Rotation.state := Some (Rotation.mk_state addr0 None None).
Definition key : array 32 := array_fill 32 x07.
Definition book1 : PeerBook.book := PeerBook.mk 1 [(arr_bytes key, "10.0.0.1:9000")].
Lemma published : PeerBook.history [Some book1; None].
Proof.
  apply PeerBook.history_step; [|constructor].
  by apply (PeerBook.Publish _ rot 5 addr0 (arr_bytes key) "10.0.0.1:9000").
Qed.
Definition w0 : world := mk_world [None] PeerBook.history_start.
Definition w1 : world := mk_world [Some book1; None] published.
Abbreviation start := (start_node (PeerKey := array 32) 128).
(** The node after its poll, and the set it registered. *)
Definition polled : node :=
  match poll_admission addr0 addr0 (n_handle start) (n_applied start) w1 with
  | (Ok (_, h, a), _) => mk_node h a
  | (Err _, _) => start
  end.
Definition registered : list (array 32) :=
  match tracked (n_handle polled) with (_, ks) :: _ => ks | [] => [] end.
Lemma poll_once : poll_admission addr0 addr0 (n_handle start) (n_applied start) w1
  = (Ok (1, n_handle polled, n_applied polled), w1).
Proof. by vm_compute. Qed.
Lemma polled_tracks : tracked (n_handle polled) = [(1, registered)].
Proof. by vm_compute. Qed.
Lemma both_polled : rtc (net_step addr0 addr0) (w0, replicate 2 start) (w1, [polled; polled]).
Proof.
  eapply rtc_l; [apply (ChainMoves _ _ w0 w1); by exists [Some book1]|].
  eapply rtc_l; [by apply (NodePolls _ _ w1 w1 _ 0%nat start 1 (n_handle polled) (n_applied polled)); [|apply poll_once]|].
  eapply rtc_l; [by apply (NodePolls _ _ w1 w1 _ 1%nat start 1 (n_handle polled) (n_applied polled)); [|apply poll_once]|].
  apply rtc_refl.
Qed.

Lemma committee_agrees_witness :
  registered = registered ∧
  ∃ o, o ∈ chain w1 ∧ PeerBook.peer_book_version o = 1 ∧
    ∀ pk, pk ∈ registered ↔ ∃ x, x ∈ identities o ∧ load_pubkey x = Ok pk.
Proof.
  apply (committee_agrees addr0 addr0 128 2 w0 w1 [polled; polled] 0 1 polled polled 1).
  - lia.
  - exact both_polled.
  - done.
  - done.
  - rewrite polled_tracks. by left.
  - rewrite polled_tracks. by left.
Defined.

Lemma published_peer_admitted_witness :
  ∃ ks pk, (1, ks) ∈ tracked (n_handle polled) ∧ load_pubkey key = Ok pk ∧ pk ∈ ks.
Proof.
  apply (published_peer_admitted addr0 addr0 128 2 w0 w1 (replicate 2 start) 0 start 1
           (n_handle polled) (n_applied polled) w1 book1 key).
  - lia.
  - eapply rtc_l; [apply (ChainMoves _ _ w0 w1); by exists [Some book1]|apply rtc_refl].
  - done.
  - exact poll_once.
  - by left.
  - done.
  - by left.
  - done.
Defined.
End CommitteeDemo.
