(* ===== verification/Vault.v ===== *)
(** [crates/sui/src/bridge.rs], the Sui side of the bridge, and the vault
    contract it calls ([move/sources/bridge.move]). *)

From S2P Require Import Prelude Text Codec Disk Core Wire Contract Sui SuiRotation.
Local Open Scope string_scope.
Local Open Scope list_scope.
Local Open Scope N_scope.

(** ** The client *)

Inductive BridgeError :=
| BIo (e : io_error)
| BKey (msg : string)
| BRpc (msg : string)
| BBuild (msg : string)
| BExecution (msg : string)
| BParse (msg : string).
Definition from_settlement_error (e : SettlementError) : BridgeError :=
  match e with
  | Io e => BIo e | Key s => BKey s | Rpc s => BRpc s | Build s => BBuild s
  | Execution s => BExecution s | Parse s => BParse s
  end.
Definition bridge_error_text (e : BridgeError) : string :=
  settlement_error_text
    match e with
    | BIo e => Io e | BKey s => Key s | BRpc s => Rpc s | BBuild s => Build s
    | BExecution s => Execution s | BParse s => Parse s
    end.

Record DepositRecord := mk_deposit {
  amount : N; recipient_l2 : list byte; coin_type : list byte
}.
#[global] Instance DepositRecord_eq_dec : EqDecision DepositRecord.
Proof. solve_decision. Defined.

Record VaultStatus := mk_vault_status {
  deposit_nonce : N; withdraw_nonce : N; deposits_table_uid : Address
}.

(** BCS shapes: the vault is its id, the two counters, the reserves bag and the
    two tables; a deposit is the value of a dynamic field. *)
Definition VaultBcs : Type := Address * N * N * TableBcs * TableBcs * TableBcs.
Definition FieldDepositBcs : Type := Address * N * (N * list byte * list byte).

Definition parse_vault_status `{Bcs VaultBcs} (contents : list byte) : result BridgeError VaultStatus :=
  v ← map_err (λ e, BParse ("vault BCS: " +:+ e)) (bcs_from_bytes contents : result _ VaultBcs);
  let '(_, d, w, _, (deposits, _), _) := v in Ok (mk_vault_status d w deposits).

Definition parse_field_deposit `{Bcs FieldDepositBcs} (bytes : list byte) : result BridgeError DepositRecord :=
  f ← map_err (λ e, BParse ("field BCS: " +:+ e)) (bcs_from_bytes bytes : result _ FieldDepositBcs);
  let '(_, _, (a, r, c)) := f in
  if negb (Nat.eqb (length r) 20) then
    Err (BParse ("recipient_l2 must be 20 bytes, got " +:+ fmt_dec (N.of_nat (length r))))
  else Ok (mk_deposit a r c).

Record DeployedBridge := mk_deployed_bridge { db_vault_id : string; db_cap_id : string }.

Section Client.
Context {W PrivKey PubKey Tx TxSig : Type} `{Ed25519 PrivKey PubKey} `{Base64} `{SuiSdk}
  `{SuiRpc W PrivKey Tx TxSig} `{HasDisk W}.
Context `{Bcs VaultBcs} `{Bcs FieldDepositBcs}.
Abbreviation Op := (M W BridgeError).

Definition sui_op {A} (m : M W SettlementError A) : Op A := errM from_settlement_error m.
Definition sui_res {A} (r : result SettlementError A) : Op A := lift (map_err from_settlement_error r).

Definition vault_contents (url vault_id : string) : Op (list byte) :=
  vault ← sui_res (parse_address vault_id "vault id");
  sui_op (object_contents url vault "vault").
Definition vault_status (url vault_id : string) : Op VaultStatus :=
  bytes ← vault_contents url vault_id; lift (parse_vault_status bytes).
Definition deposit_at (url : string) (table : Address) (nonce : N) : Op (option DepositRecord) :=
  o ← sui_op (field_contents url table nonce);
  match o with
  | None => mret None
  | Some bytes => Some <$> lift (parse_field_deposit bytes)
  end.

Record BridgeClient := mk_bridge_client {
  bc_key : PrivKey; bc_sender : Address; bc_package : Address; bc_cap : Address;
  bc_vault : Address; bc_rpc : string
}.
Definition from_parts (key : PrivKey) (sender : Address) (package_id cap_id vault_id url : string)
    : Op BridgeClient :=
  sui_op (connect url);;
  p ← sui_res (parse_address package_id "package id");
  c ← sui_res (parse_address cap_id "cap id");
  v ← sui_res (parse_address vault_id "vault id");
  mret (mk_bridge_client key sender p c v url).
Definition client_new (key_path : path) (package_id cap_id vault_id url : string) : Op BridgeClient :=
  '(key, sender) ← sui_op (load_signer key_path);
  from_parts key sender package_id cap_id vault_id url.
(** An adopted key wins over the key file. *)
Definition new_or_adopted (adopted : AdoptedKey PrivKey) (key_path : path)
    (package_id cap_id vault_id url : string) : Op BridgeClient :=
  '(key, sender) ← match adopted_get adopted with
                   | Some key => mret (key, derive_address (public_key key))
                   | None => sui_op (load_signer key_path)
                   end;
  from_parts key sender package_id cap_id vault_id url.
Definition bridge_swap_key (key : PrivKey) (c : BridgeClient) : BridgeClient :=
  mk_bridge_client key (derive_address (public_key key)) (bc_package c) (bc_cap c) (bc_vault c)
    (bc_rpc c).

(** The block [withdraw] submits. *)
Definition withdraw_ptb (c : BridgeClient) (coin : string) (recipient : Address) (amount l2_nonce : N)
    : result SettlementError ptb :=
  cmd ← move_call (bc_package c) "bridge" "withdraw_as" [coin]
          [AObj (bc_vault c); AObj SUI_CLOCK_ID; APure (PAddr recipient); APure (PU64 amount);
           APure (PU64 l2_nonce)];
  Ok (mk_ptb [cmd] (bc_sender c)).
Definition withdraw (c : BridgeClient) (coin : string) (recipient : Address) (amount l2_nonce : N)
    : Op unit :=
  p ← sui_res (withdraw_ptb c coin recipient amount l2_nonce);
  tx ← errM BBuild (rpc_build (bc_rpc c) p);
  sui_op (sign_and_execute (bc_rpc c) (bc_key c) tx "bridge withdraw" DEPLOY_TX_WAIT);;
  mret tt.

Definition initialize_with_key (key : PrivKey) (url package_id : string) : Op DeployedBridge :=
  let sender := derive_address (public_key key) in
  sui_op (connect url);;
  package ← sui_res (parse_address package_id "package id");
  c1 ← sui_res (move_call package "bridge" "initialize" [] []);
  tx ← errM BBuild (rpc_build url (mk_ptb [c1] sender));
  r ← sui_op (sign_and_execute url key tx "bridge initialize" DEPLOY_TX_WAIT);
  vault_id ← lift (ok_or (find_created_object (changed_objects r) OwnerShared)
                     (BExecution "Vault not found in bridge initialize response"));
  cap_id ← lift (ok_or (find_created_object (changed_objects r) OwnerAddress)
                   (BExecution "BridgeCap not found in bridge initialize response"));
  cap ← sui_res (parse_address cap_id "bridge cap id");
  vault ← sui_res (parse_address vault_id "vault id");
  c2 ← sui_res (move_call package "bridge" "entomb_bridge_cap_ops" [] [AObj cap; AObj vault]);
  tx2 ← errM (λ e, BBuild ("entomb bridge cap: " +:+ e)) (rpc_build url (mk_ptb [c2] sender));
  sui_op (sign_and_execute url key tx2 "entomb bridge cap" DEPLOY_TX_WAIT);;
  mret (mk_deployed_bridge vault_id cap_id).
Definition initialize (key_path : path) (url package_id : string) : Op DeployedBridge :=
  '(key, _) ← sui_op (load_signer key_path); initialize_with_key key url package_id.
End Client.
#[global] Arguments BridgeClient PrivKey : clear implicits.

(** ** The contract *)

Module VaultContract.
Definition E_ZERO_AMOUNT : N := 0.
Definition E_INSUFFICIENT_LIQUIDITY : N := 1.
Definition E_INVALID_RECIPIENT : N := 2.

(** Coins are named by their type key; [processed] holds the withdrawal keys. *)
Record Vault := mk_vault {
  v_deposit_nonce : N;
  v_withdraw_nonce : N;
  reserves : gmap (list byte) N;
  deposits : gmap N DepositRecord;
  processed : gset (list byte);
  v_rotation : option Rotation.state
}.
Definition initialize : Vault := mk_vault 0 0 ∅ ∅ ∅ None.

Definition withdraw_key (coin : list byte) (l2_nonce : N) : list byte := coin ++ to_le_bytes 8 l2_nonce.

Definition deposit (v : Vault) (coin : list byte) (value : N) (recipient : list byte) : call Vault :=
  assert (0 <? value) E_ZERO_AMOUNT;;
  assert (Nat.eqb (length recipient) 20) E_INVALID_RECIPIENT;;
  held ← mv_add (default 0 (reserves v !! coin)) value;
  match deposits v !! v_deposit_nonce v with
  | Some _ => Err DynamicFieldError
  | None =>
      next ← mv_add (v_deposit_nonce v) 1;
      Ok (mk_vault next (v_withdraw_nonce v) (<[coin := held]> (reserves v))
            (<[v_deposit_nonce v := mk_deposit value recipient coin]> (deposits v))
            (processed v) (v_rotation v))
  end.

(** The flag tells whether coins left the vault. *)
Definition do_withdraw (v : Vault) (coin : list byte) (value l2_nonce : N) : call (bool * Vault) :=
  let key := withdraw_key coin l2_nonce in
  if bool_decide (key ∈ processed v) then Ok (false, v)
  else
    assert (0 <? value) E_ZERO_AMOUNT;;
    held ← ok_or (reserves v !! coin) (Abort E_INSUFFICIENT_LIQUIDITY);
    assert (value <=? held) E_INSUFFICIENT_LIQUIDITY;;
    next ← mv_add (v_withdraw_nonce v) 1;
    Ok (true, mk_vault (v_deposit_nonce v) next (<[coin := held - value]> (reserves v)) (deposits v)
                (processed v ∪ {[key]}) (v_rotation v)).
Definition withdraw_as (v : Vault) (now : N) (sender : Address) (coin : list byte) (value l2_nonce : N)
    : call (bool * Vault) :=
  Rotation.assert_can_act (v_rotation v) now sender;; do_withdraw v coin value l2_nonce.
End VaultContract.

(** ** Conservation *)

Module VaultFacts.
Import VaultContract.
(** The calls anyone can make; [Rotate] stands for whatever the rotation
    entry points do to the authority. *)
Inductive vcall :=
| Deposit (coin : list byte) (value : N) (recipient : list byte)
| Withdraw (now : N) (sender : Address) (coin : list byte) (value l2_nonce : N)
| Rotate (o : option Rotation.state).

(** One release, and the vault with everything it ever took in and paid out. *)
Record payout := mk_payout { po_coin : list byte; po_value : N; po_nonce : N }.
Record history := mk_history { vault : Vault; credited : list DepositRecord; paid : list payout }.

(** An aborted call changes nothing. *)
Definition run_call (h : history) (c : vcall) : history :=
  match c with
  | Deposit coin value r =>
      match deposit (vault h) coin value r with
      | Ok v => mk_history v (credited h ++ [mk_deposit value r coin]) (paid h)
      | Err _ => h
      end
  | Withdraw now sender coin value n =>
      match withdraw_as (vault h) now sender coin value n with
      | Ok (true, v) => mk_history v (credited h) (mk_payout coin value n :: paid h)
      | Ok (false, v) => mk_history v (credited h) (paid h)
      | Err _ => h
      end
  | Rotate o =>
      mk_history (mk_vault (v_deposit_nonce (vault h)) (v_withdraw_nonce (vault h))
                    (reserves (vault h)) (deposits (vault h)) (processed (vault h)) o)
        (credited h) (paid h)
  end.
Definition run_calls (cs : list vcall) : history :=
  foldl run_call (mk_history initialize [] []) cs.

Definition sum_list (l : list N) : N := foldr N.add 0 l.
Definition taken (coin : list byte) (l : list DepositRecord) : N :=
  sum_list (amount <$> filter (λ d, coin_type d = coin) l).
Definition released (coin : list byte) (l : list payout) : N :=
  sum_list (po_value <$> filter (λ p, po_coin p = coin) l).
#[global] Arguments taken : simpl never.
#[global] Arguments released : simpl never.

(** Every coin that entered is in the reserve or was paid out, each release
    has its own key, and the deposits are stored under consecutive nonces. *)
Record sound (h : history) : Prop := mk_sound {
  so_conserved coin : taken coin (credited h) = default 0 (reserves (vault h) !! coin) + released coin (paid h);
  so_keys k : k ∈ processed (vault h) ↔ k ∈ (λ p, withdraw_key (po_coin p) (po_nonce p)) <$> paid h;
  so_once : NoDup ((λ p, withdraw_key (po_coin p) (po_nonce p)) <$> paid h);
  so_nonce : v_deposit_nonce (vault h) = N.of_nat (length (credited h));
  so_deposits n : deposits (vault h) !! n = credited h !! N.to_nat n;
  so_withdrawals : v_withdraw_nonce (vault h) = N.of_nat (length (paid h))
}.

Lemma sum_list_app a b : sum_list (a ++ b) = sum_list a + sum_list b.
Proof. induction a as [|x a IH]; cbn; [done|]. fold (sum_list (a ++ b)). rewrite IH. unfold sum_list. lia. Qed.
Lemma taken_snoc coin l d :
  taken coin (l ++ [d]) = taken coin l + (if bool_decide (coin_type d = coin) then amount d else 0).
Proof.
  unfold taken. rewrite filter_app, fmap_app, sum_list_app. f_equal.
  case_bool_decide as Hd; [rewrite filter_cons_True by done|rewrite filter_cons_False by done];
    cbn; lia.
Qed.
Lemma released_cons coin l p :
  released coin (p :: l) = released coin l + (if bool_decide (po_coin p = coin) then po_value p else 0).
Proof.
  unfold released. case_bool_decide as Hd;
    [rewrite filter_cons_True by done|rewrite filter_cons_False by done]; cbn; [|lia].
  fold (sum_list (po_value <$> filter (λ p, po_coin p = coin) l)). unfold sum_list. lia.
Qed.

Lemma deposit_sound h coin value r v :
  sound h → deposit (vault h) coin value r = Ok v →
  sound (mk_history v (credited h ++ [mk_deposit value r coin]) (paid h)).
Proof.
  intros [Hc Hk Ho Hn Hd Hw] H. unfold deposit in H.
  apply result_bind_ok in H as ([] & _ & H). apply result_bind_ok in H as ([] & _ & H).
  apply result_bind_ok in H as (held & Hh & H). apply mv_add_ok in Hh as [-> _].
  destruct (deposits (vault h) !! _) eqn:Hdep; [done|].
  apply result_bind_ok in H as (next & Hx & [= <-]). apply mv_add_ok in Hx as [-> _].
  split; cbn; [|done|done|rewrite length_app; cbn; lia| |done].
  - intros c. rewrite taken_snoc, Hc. cbn. case_bool_decide as He.
    + subst c. rewrite lookup_insert_eq. cbn. lia.
    + rewrite lookup_insert_ne by done. lia.
  - intros n. rewrite Hn. destruct (decide (n = N.of_nat (length (credited h)))) as [->|Hne].
    + rewrite lookup_insert_eq, Nat2N.id, lookup_app_r, Nat.sub_diag by lia. done.
    + rewrite lookup_insert_ne by done. rewrite Hd.
      destruct (decide (N.to_nat n < length (credited h))%nat).
      * by rewrite lookup_app_l.
      * rewrite !lookup_ge_None_2; [done|rewrite length_app; cbn; lia|lia].
Qed.

Lemma withdraw_sound h now sender coin value n b v :
  sound h → withdraw_as (vault h) now sender coin value n = Ok (b, v) →
  sound (mk_history v (credited h) (if b then mk_payout coin value n :: paid h else paid h)).
Proof.
  intros [Hc Hk Ho Hn Hd Hw] H. unfold withdraw_as in H. apply result_bind_ok in H as ([] & _ & H).
  unfold do_withdraw in H. case_bool_decide as Hp.
  { injection H as <- <-. by split. }
  apply result_bind_ok in H as ([] & _ & H). apply result_bind_ok in H as (held & Hh & H).
  apply result_bind_ok in H as ([] & Hle & H). apply assert_ok, N.leb_le in Hle.
  apply result_bind_ok in H as (next & Hx & [= <- <-]). apply mv_add_ok in Hx as [-> _].
  destruct (reserves (vault h) !! coin) as [x|] eqn:Hx; [|done]. injection Hh as ->.
  split; cbn; [| | |done|done|lia].
  - intros c. rewrite released_cons, Hc. cbn. case_bool_decide as He.
    + subst c. rewrite lookup_insert_eq, Hx. cbn. lia.
    + rewrite lookup_insert_ne by done. lia.
  - intros k. rewrite elem_of_union, elem_of_singleton, Hk, elem_of_cons. naive_solver.
  - constructor; [by rewrite <- Hk|done].
Qed.

Lemma run_call_sound h c : sound h → sound (run_call h c).
Proof.
  intros Hs. destruct c as [coin value r|now sender coin value n|o]; cbn.
  - destruct (deposit _ _ _ _) as [v|] eqn:Hd; [|done]. by eapply deposit_sound.
  - destruct (withdraw_as _ _ _ _ _ _) as [[[] v]|] eqn:Hw; [| |done];
      by apply withdraw_sound in Hw.
  - destruct Hs. by split.
Qed.
Lemma run_calls_sound cs : sound (run_calls cs).
Proof.
  unfold run_calls. assert (sound (mk_history initialize [] [])) as H0.
  { split; cbn; [|set_solver|constructor|done|done|done]. intros coin. by rewrite lookup_empty. }
  revert H0. generalize (mk_history initialize [] []). induction cs as [|c cs IH]; intros h Hs; [done|].
  apply IH. by apply run_call_sound.
Qed.
End VaultFacts.

(** C27: The vault never pays out more than it took in, and never twice for one
    burn.  After any calls by anyone, aborted ones included, what was deposited
    of each coin is what is still in reserve plus what was released; no two
    releases answer the same coin and L2 withdrawal nonce; and the deposits are
    readable under the consecutive nonces below the vault's counter. *)
Theorem vault_conserves cs :
  let h := VaultFacts.run_calls cs in
  (∀ coin, VaultFacts.taken coin (VaultFacts.credited h) =
           default 0 (VaultContract.reserves (VaultFacts.vault h) !! coin)
           + VaultFacts.released coin (VaultFacts.paid h)) ∧
  (∀ i j p q, VaultFacts.paid h !! i = Some p → VaultFacts.paid h !! j = Some q →
     VaultFacts.po_coin p = VaultFacts.po_coin q → VaultFacts.po_nonce p = VaultFacts.po_nonce q →
     i = j) ∧
  (∀ n, VaultContract.deposits (VaultFacts.vault h) !! n = VaultFacts.credited h !! N.to_nat n) ∧
  VaultContract.v_deposit_nonce (VaultFacts.vault h) = N.of_nat (length (VaultFacts.credited h)).
Proof.
  cbv zeta. destruct (VaultFacts.run_calls_sound cs) as [Hc _ Ho Hn Hd _].
  split_and!; [exact Hc| |exact Hd|exact Hn].
  intros i j p q Hp Hq Hcoin Hnonce.
  eapply NoDup_lookup; [exact Ho|rewrite list_lookup_fmap, Hp; done|].
  rewrite list_lookup_fmap, Hq. cbn. by rewrite Hcoin, Hnonce.
Qed.
