(* ===== verification/Ptb.v ===== *)
(** The transaction blocks of crates/sui/src against the signatures of
    move/sources.

    Sui checks a programmable transaction block before it runs: every argument
    has the type its parameter asks for, an object passed by value is gone
    afterwards, and a result without [drop] has to be consumed.  The first part
    is that checker with the signatures of settlement.move, inbox.move and
    bridge.move; the second runs the clients behind an RPC that records every
    block they build. *)

From S2P Require Import Prelude Text Codec Disk Core Wire Contract Sui SuiInbox SuiRotation Vault.
Local Open Scope string_scope.
Local Open Scope list_scope.
Local Open Scope N_scope.

(** ** Signatures *)

Inductive move_type :=
| MU64 | MU8 | MAddress | MBytes | MString | MBool
| MClock | MRegistry | MInbox | MVault
| MSettlerCap | MBridgeCap | MOpsCap
| MUpgradeCap | MUpgradeTicket | MUpgradeReceipt.
#[global] Instance move_type_eq_dec : EqDecision move_type.
Proof. solve_decision. Defined.

(** [T], [&T] and [&mut T]. *)
Inductive passing := ByValue | ByRef | ByMut.
#[global] Instance passing_eq_dec : EqDecision passing.
Proof. solve_decision. Defined.

(** A function's type parameters, its parameters without the context, and what
    it returns. *)
Record fn_sig := mk_sig { type_params : nat; params : list (passing * move_type); returns : option move_type }.

Definition value (t : move_type) : passing * move_type := (ByValue, t).
Definition ref (t : move_type) : passing * move_type := (ByRef, t).
Definition mut (t : move_type) : passing * move_type := (ByMut, t).

Definition settlement_signature (f : string) : option fn_sig :=
  match f with
  | "initialize" => Some (mk_sig 0 [] None)
  | "settle_as" => Some (mk_sig 0 [mut MRegistry; mut MInbox; ref MClock; value MBytes; value MU64;
                                   value MU64; value MU64] None)
  | "entomb_settler_cap_ops" => Some (mk_sig 0 [value MSettlerCap; mut MRegistry] None)
  | "request_rotation_ops" =>
      Some (mk_sig 0 [mut MRegistry; ref MClock; value MAddress; value MU64; ref MOpsCap] None)
  | "cancel_rotation" => Some (mk_sig 0 [mut MRegistry] None)
  | "request_window_change" =>
      Some (mk_sig 0 [mut MRegistry; mut MInbox; ref MClock; value MU64; value MU64; ref MOpsCap] None)
  | "cancel_window_change" => Some (mk_sig 0 [mut MRegistry; mut MInbox; ref MOpsCap] None)
  | "commit_state_root" => Some (mk_sig 0 [mut MRegistry; ref MClock; value MU64; value MBytes] None)
  | "claim_rotation" => Some (mk_sig 0 [mut MRegistry; ref MClock] None)
  | "retire_previous" => Some (mk_sig 0 [mut MRegistry] None)
  | "publish_peer" => Some (mk_sig 0 [mut MRegistry; ref MClock; value MBytes; value MString] None)
  | "remove_peer" => Some (mk_sig 0 [mut MRegistry; ref MClock; value MBytes] None)
  | "entomb_upgrade_cap" => Some (mk_sig 0 [value MUpgradeCap; mut MRegistry; ref MOpsCap] None)
  | "authorize_package_upgrade" =>
      Some (mk_sig 0 [mut MRegistry; ref MOpsCap; value MU8; value MBytes] (Some MUpgradeTicket))
  | "commit_package_upgrade" => Some (mk_sig 0 [mut MRegistry; ref MOpsCap; value MUpgradeReceipt] None)
  | "restrict_package_upgrades" => Some (mk_sig 0 [mut MRegistry; ref MOpsCap; value MU8] None)
  | "freeze_package" => Some (mk_sig 0 [mut MRegistry; ref MOpsCap] None)
  | _ => None
  end.
Definition inbox_signature (f : string) : option fn_sig :=
  match f with
  | "initialize" => Some (mk_sig 0 [] None)
  | "submit" => Some (mk_sig 0 [mut MInbox; ref MClock; value MBytes] None)
  | _ => None
  end.
Definition bridge_signature (f : string) : option fn_sig :=
  match f with
  | "initialize" => Some (mk_sig 0 [] None)
  | "withdraw_as" =>
      Some (mk_sig 1 [mut MVault; ref MClock; value MAddress; value MU64; value MU64] (Some MBool))
  | "entomb_bridge_cap_ops" => Some (mk_sig 0 [value MBridgeCap; mut MVault] None)
  | "request_rotation_ops" =>
      Some (mk_sig 0 [mut MVault; ref MClock; value MAddress; value MU64; ref MOpsCap] None)
  | "cancel_rotation" => Some (mk_sig 0 [mut MVault] None)
  | "claim_rotation" => Some (mk_sig 0 [mut MVault; ref MClock] None)
  | "retire_previous" => Some (mk_sig 0 [mut MVault] None)
  | _ => None
  end.
Definition signature (m f : string) : option fn_sig :=
  match m with
  | "settlement" => settlement_signature f
  | "inbox" => inbox_signature f
  | "bridge" => bridge_signature f
  | _ => None
  end.

(** [has drop]; and the objects [initialize] shares, which no call takes by
    value. *)
Definition droppable (t : move_type) : bool :=
  match t with MU64 | MU8 | MAddress | MBytes | MString | MBool => true | _ => false end.
Definition shared (t : move_type) : bool :=
  match t with MClock | MRegistry | MInbox | MVault => true | _ => false end.

(** ** The checker *)

(** The package's versions, and the type of each object on chain. *)
Record typing := mk_typing { is_package : Address → bool; object_type : Address → option move_type }.

(** A pure input is BCS bytes: a [String] is a byte vector that is UTF-8. *)
Definition pure_fits (p : pure) (t : move_type) : bool :=
  match p, t with
  | PU64 _, MU64 | PU8 _, MU8 | PBytes _, MBytes | PAddr _, MAddress => true
  | PBytes l, MString => match from_utf8 l with Some _ => true | None => false end
  | _, _ => false
  end.

(** What the earlier commands left ([None]: nothing, or consumed) and the
    objects passed by value. *)
Record flow := mk_flow { results : list (option move_type); taken : list Address }.

Definition check_arg (Γ : typing) (f : flow) (p : passing * move_type) (a : arg) : option flow :=
  match a with
  | APure v => if bool_decide (p.1 = ByValue) && pure_fits v p.2 then Some f else None
  | AObj id =>
      if bool_decide (object_type Γ id = Some p.2) && negb (bool_decide (id ∈ taken f)) then
        match p.1 with
        | ByValue => if shared p.2 then None else Some (mk_flow (results f) (id :: taken f))
        | _ => Some f
        end
      else None
  | ARes i =>
      if bool_decide (results f !! i = Some (Some p.2)) then
        match p.1 with
        | ByValue => Some (mk_flow (<[i := None]> (results f)) (taken f))
        | _ => Some f
        end
      else None
  end.
Fixpoint check_args (Γ : typing) (f : flow) (ps : list (passing * move_type)) (args : list arg) : option flow :=
  match ps, args with
  | [], [] => Some f
  | p :: ps, a :: args => f' ← check_arg Γ f p a; check_args Γ f' ps args
  | _, _ => None
  end.

Definition push (r : option move_type) (f : flow) : flow := mk_flow (results f ++ [r]) (taken f).
Definition check_command (Γ : typing) (f : flow) (c : command) : option flow :=
  match c with
  | MoveCall package m fn ts args =>
      if is_package Γ package then
        s ← signature m fn;
        if Nat.eqb (length ts) (type_params s) then push (returns s) <$> check_args Γ f (params s) args else None
      else None
  | Publish _ _ => Some (push (Some MUpgradeCap) f)
  | Upgrade _ _ package ticket =>
      if is_package Γ package then
        push (Some MUpgradeReceipt) <$> check_arg Γ f (value MUpgradeTicket) ticket
      else None
  end.
Fixpoint check_commands (Γ : typing) (f : flow) (cs : list command) : option flow :=
  match cs with
  | [] => Some f
  | c :: cs => f' ← check_command Γ f c; check_commands Γ f' cs
  end.

(** Nothing without [drop] is left over. *)
Definition well_typed (Γ : typing) (p : ptb) : bool :=
  match check_commands Γ (mk_flow [] []) (commands p) with
  | Some f => forallb (λ r, match r with Some t => droppable t | None => true end) (results f)
  | None => false
  end.

(** ** The clients behind a recording RPC *)

#[global] Instance recorded_rpc {W PrivKey Tx TxSig} `{SuiRpc W PrivKey Tx TxSig} :
  SuiRpc (W * list ptb) PrivKey Tx TxSig := {|
  rpc_connect := rpc_connect (W := W);
  rpc_get_object url a := zoom fst (λ w s, (w, s.2)) (rpc_get_object url a);
  rpc_build url p := λ s, let '(r, w) := rpc_build url p s.1 in (r, (w, s.2 ++ [p]));
  sign_transaction := sign_transaction (W := W);
  rpc_execute url tx sg wait := zoom fst (λ w s, (w, s.2)) (rpc_execute url tx sg wait);
  rpc_get_epoch url := zoom fst (λ w s, (w, s.2)) (rpc_get_epoch url);
  rpc_list_balances url a := λ s, let '(l, w) := rpc_list_balances url a s.1 in (l, (w, s.2))
|}.
#[global] Instance recorded_disk {W} `{HasDisk W} : HasDisk (W * list ptb) := {|
  get_disk s := get_disk s.1; put_disk d s := (put_disk d s.1, s.2)
|}.

Section Operations.
Context {W PrivKey PubKey Tx TxSig : Type} `{Ed25519 PrivKey PubKey} `{Base64} `{SuiSdk}
  `{SuiRpc W PrivKey Tx TxSig} `{HasDisk W} `{Bcs UpgradeCapMirror}.

(** Everything the node and its tools submit to a deployed contract. *)
Inductive operation :=
| Commit (s : @Settlement PrivKey) (h : Header) (blob : BlobId) (cursor : N)
| EntombUpgradeCap (key_path : path) (url package_id registry_id upgrade_cap_id ops_cap_id : string)
| UpgradePackage (key_path : path) (url package_id registry_id ops_cap_id : string) (build : MoveBuild) (policy : N)
| RestrictUpgrades (key_path : path) (url package_id registry_id ops_cap_id : string) (policy : N)
| FreezePackage (key_path : path) (url package_id registry_id ops_cap_id : string)
| WindowChange (url : string) (key : PrivKey) (t : WindowTargets) (new_window delay : N)
| CancelWindow (url : string) (key : PrivKey) (t : WindowTargets)
| PublishPeer (url : string) (key : PrivKey) (package registry : Address) (pubkey : array 32) (addr : string)
| ClaimRotation (url : string) (key : PrivKey) (t : RotationTargets)
| RetirePrevious (url : string) (key : PrivKey) (t : RotationTargets)
| RequestRotation (url : string) (key : PrivKey) (t : RotationTargets) (ops : OpsCaps) (target : Address) (delay : N)
| EntombSettlerCap (url : string) (key : PrivKey) (package registry cap : Address)
| EntombBridgeCap (url : string) (key : PrivKey) (package vault cap : Address)
| Withdraw (c : BridgeClient PrivKey) (coin : string) (recipient : Address) (amount l2_nonce : N).

Definition settled {A} (m : M (W * list ptb) SettlementError A) : M (W * list ptb) string unit :=
  errM settlement_error_text m;; mret tt.
Definition perform (o : operation) : M (W * list ptb) string unit :=
  match o with
  | Commit s h blob cursor => settled (commit_with_cursor s h blob cursor)
  | EntombUpgradeCap k u p r c o => settled (entomb_upgrade_cap k u p r c o)
  | UpgradePackage k u p r o b pol => settled (upgrade_package k u p r o b pol)
  | RestrictUpgrades k u p r o pol => settled (restrict_package_upgrades k u p r o pol)
  | FreezePackage k u p r o => settled (freeze_package k u p r o)
  | WindowChange u k t n d => settled (submit_window_change u k t n d)
  | CancelWindow u k t => settled (submit_cancel_window_change u k t)
  | PublishPeer u k p r key addr => settled (submit_publish_peer u k p r key addr)
  | ClaimRotation u k t => settled (submit_claim u k t)
  | RetirePrevious u k t => settled (submit_retire_previous u k t)
  | RequestRotation u k t o target d => settled (submit_request u k t o target d)
  | EntombSettlerCap u k p r c => settled (submit_entomb_settler u k p r c)
  | EntombBridgeCap u k p v c => settled (submit_entomb_bridge u k p v c)
  | Withdraw c coin r a n => errM bridge_error_text (withdraw c coin r a n)
  end.

(** The ids an operation was given name objects of the right types. *)
Definition names (Γ : typing) (text : string) (t : move_type) : Prop :=
  ∀ a, address_from_str text = Ok a → object_type Γ a = Some t.
Definition names_package (Γ : typing) (text : string) : Prop :=
  ∀ a, address_from_str text = Ok a → is_package Γ a = true.
Definition targets_typed (Γ : typing) (t : RotationTargets) : Prop :=
  is_package Γ (t_package t) = true ∧ object_type Γ (t_registry t) = Some MRegistry ∧
  object_type Γ (t_vault t) = Some MVault.
Definition window_typed (Γ : typing) (t : WindowTargets) : Prop :=
  is_package Γ (wt_package t) = true ∧ object_type Γ (wt_registry t) = Some MRegistry ∧
  object_type Γ (wt_inbox t) = Some MInbox ∧ object_type Γ (wt_ops_cap t) = Some MOpsCap.
Definition configured (Γ : typing) (o : operation) : Prop :=
  match o with
  | Commit s _ _ _ => is_package Γ (s_package s) = true ∧
      object_type Γ (s_registry s) = Some MRegistry ∧ object_type Γ (s_inbox s) = Some MInbox
  | EntombUpgradeCap _ _ p r c o => names_package Γ p ∧ names Γ r MRegistry ∧ names Γ c MUpgradeCap ∧ names Γ o MOpsCap
  | UpgradePackage _ _ p r o _ _ | RestrictUpgrades _ _ p r o _ | FreezePackage _ _ p r o =>
      names_package Γ p ∧ names Γ r MRegistry ∧ names Γ o MOpsCap
  | WindowChange _ _ t _ _ | CancelWindow _ _ t => window_typed Γ t
  | PublishPeer _ _ p r _ addr => is_package Γ p = true ∧ object_type Γ r = Some MRegistry ∧
      from_utf8 (string_bytes addr) = Some addr
  | ClaimRotation _ _ t | RetirePrevious _ _ t => targets_typed Γ t
  | RequestRotation _ _ t o _ _ => targets_typed Γ t ∧
      object_type Γ (oc_settler_cap o) = Some MOpsCap ∧ object_type Γ (oc_bridge_cap o) = Some MOpsCap
  | EntombSettlerCap _ _ p r c => is_package Γ p = true ∧ object_type Γ r = Some MRegistry ∧
      object_type Γ c = Some MSettlerCap
  | EntombBridgeCap _ _ p v c => is_package Γ p = true ∧ object_type Γ v = Some MVault ∧
      object_type Γ c = Some MBridgeCap
  | Withdraw c _ _ _ _ => is_package Γ (bc_package c) = true ∧ object_type Γ (bc_vault c) = Some MVault
  end.
End Operations.
Arguments operation PrivKey : clear implicits.

(** ** Every block is well typed *)

Section Facts.
Context {W PrivKey PubKey Tx TxSig : Type} `{Ed25519 PrivKey PubKey} `{Base64} `{SuiSdk}
  `{SuiRpc W PrivKey Tx TxSig} `{HasDisk W} `{Bcs UpgradeCapMirror}.
Context (identifiers : ∀ m m', identifier_new m = Ok m' → m' = m).
Context (Γ : typing) (clock_typed : object_type Γ SUI_CLOCK_ID = Some MClock).

Lemma check_held f (p : passing) t id :
  p ≠ ByValue → object_type Γ id = Some t → id ∉ taken f → check_arg Γ f (p, t) (AObj id) = Some f.
Proof.
  intros Hp Ht Hn. unfold check_arg. cbn [fst snd]. rewrite bool_decide_true, bool_decide_false by done.
  by destruct p.
Qed.
Lemma check_given f t id :
  shared t = false → object_type Γ id = Some t → id ∉ taken f →
  check_arg Γ f (value t) (AObj id) = Some (mk_flow (results f) (id :: taken f)).
Proof.
  intros Hp Ht Hn. unfold check_arg, value. cbn [fst snd].
  rewrite bool_decide_true, bool_decide_false by done. by rewrite Hp.
Qed.
Lemma check_pure f p t : pure_fits p t = true → check_arg Γ f (value t) (APure p) = Some f.
Proof. intros Hp. unfold check_arg, value. cbn [fst snd]. by rewrite Hp. Qed.
Lemma check_result f t i :
  results f !! i = Some (Some t) →
  check_arg Γ f (value t) (ARes i) = Some (mk_flow (<[i := None]> (results f)) (taken f)).
Proof. intros Hi. unfold check_arg, value. cbn [fst snd]. by rewrite bool_decide_true. Qed.
Lemma check_args_cons f f' p ps a args :
  check_arg Γ f p a = Some f' → check_args Γ f (p :: ps) (a :: args) = check_args Γ f' ps args.
Proof. intros Ha. cbn [check_args]. by rewrite Ha. Qed.

Lemma check_args_nil f : check_args Γ f [] [] = Some f.
Proof. done. Qed.

(** An object of one type is not one of another. *)
Lemma fresh_id id l : Forall (λ a, object_type Γ a ≠ object_type Γ id) l → id ∉ l.
Proof. rewrite Forall_forall. intros Hl Hin. by apply (Hl id). Qed.

Ltac fresh_object := apply fresh_id; cbn [taken]; repeat constructor; congruence.
Ltac check_one := first
  [ apply check_pure; reflexivity
  | apply check_pure; cbn [pure_fits]; by case_match
  | apply check_result; reflexivity
  | apply check_held; [done|eassumption|fresh_object]
  | apply check_given; [reflexivity|eassumption|fresh_object] ].
Ltac reduce := cbn [commands check_commands check_command signature settlement_signature inbox_signature
  bridge_signature params returns type_params length Nat.eqb mbind option_bind fmap option_fmap option_map
  push results taken app insert list_insert].
Ltac typecheck :=
  unfold well_typed; reduce;
  repeat progress (repeat match goal with Hp : is_package _ _ = true |- _ => progress rewrite ?Hp end; reduce;
    repeat (erewrite check_args_cons; [|check_one]); try (erewrite check_result; [|reflexivity]);
    rewrite ?check_args_nil; reduce);
  reflexivity.

Definition recorded (s : W * list ptb) : Prop := Forall (λ p, well_typed Γ p = true) s.2.

(** Only building a block records one. *)
Lemma recorded_outer {E A} (m : M W E A) : preserves recorded (zoom fst (λ w (s : W * list ptb), (w, s.2)) m).
Proof. intros s Hs. unfold zoom. by destruct (m s.1) as [[]]. Qed.
Lemma recorded_build url p : well_typed Γ p = true → preserves recorded (rpc_build url p).
Proof.
  intros Hp [w l] Hs. cbn. destruct (rpc_build url p w) as [[] w']; cbn; apply Forall_app; by split; [|constructor].
Qed.
Lemma recorded_disk_op {E A} (m : M disk E A) : preserves recorded (on_disk m).
Proof. intros s Hs. unfold on_disk, zoom. by destruct (m (get_disk s)) as [[]]. Qed.

(** Function names are what was asked for; parsed ids are what they name. *)
Lemma named p m f ts args c : move_call p m f ts args = Ok c → c = MoveCall p m f ts args.
Proof.
  unfold move_call. destruct (identifier_new m) as [m'|] eqn:Hm; [|done]. apply identifiers in Hm as ->.
  destruct (identifier_new f) as [f'|] eqn:Hf; [|done]. apply identifiers in Hf as ->. by intros [= <-].
Qed.
Lemma recorded_call {A} p m f ts args (k : command → M (W * list ptb) SettlementError A) :
  preserves recorded (k (MoveCall p m f ts args)) →
  preserves recorded (lift (move_call p m f ts args) ≫= k).
Proof.
  intros Hk s Hs. rewrite run_bind. unfold lift. destruct (move_call _ _ _ _ _) as [c|] eqn:Hc; [|done].
  apply named in Hc as ->. by apply Hk.
Qed.
Lemma recorded_parse {A} text label (k : Address → M (W * list ptb) SettlementError A) :
  (∀ a, address_from_str text = Ok a → preserves recorded (k a)) →
  preserves recorded (lift (parse_address text label) ≫= k).
Proof.
  intros Hk s Hs. rewrite run_bind. unfold parse_address, lift.
  destruct (address_from_str text) eqn:Ha; cbn; [by apply Hk|done].
Qed.
Lemma recorded_ids {A} p r o (k : Address * Address * Address → M (W * list ptb) SettlementError A) :
  (∀ a b c, address_from_str p = Ok a → address_from_str r = Ok b → address_from_str o = Ok c →
     preserves recorded (k (a, b, c))) →
  preserves recorded (lift (parse_upgrade_ids p r o) ≫= k).
Proof.
  intros Hk s Hs. rewrite run_bind. unfold parse_upgrade_ids, parse_address, lift.
  destruct (address_from_str p) eqn:Hp; cbn; [|done]. destruct (address_from_str r) eqn:Hr; cbn; [|done].
  destruct (address_from_str o) eqn:Ho; cbn; [by apply Hk|done].
Qed.

Lemma recorded_known {E A B} (r : result E A) (k : A → M (W * list ptb) E B) :
  (∀ a, r = Ok a → preserves recorded (k a)) → preserves recorded (lift r ≫= k).
Proof. intros Hk s Hs. rewrite run_bind. unfold lift. destruct r; [by apply Hk|done]. Qed.

Ltac record := walk_with ltac:(idtac; first
  [ apply recorded_call | apply recorded_parse; intros ? ? | apply recorded_ids; intros ? ? ? ? ? ?
  | apply recorded_known; intros ? ? | apply recorded_outer | apply recorded_disk_op | apply recorded_build; solve [typecheck] ]).
Ltac ids := repeat match goal with
  | Hn : names _ ?t _, Ha : address_from_str ?t = Ok _ |- _ => apply Hn in Ha
  | Hn : names_package _ ?t, Ha : address_from_str ?t = Ok _ |- _ => apply Hn in Ha
  end.

Lemma settle_typed (s : @Settlement PrivKey) h blob tracked cursor p :
  configured Γ (Commit s h blob tracked) → settle_ptb s h blob cursor = Ok p → well_typed Γ p = true.
Proof.
  intros (Hp & Hr & Hi) Hs. unfold settle_ptb in Hs. apply result_bind_ok in Hs as (c & Hc & [= <-]).
  apply named in Hc as ->. unfold append_commit_state_root. destruct (state_root_command _ h); typecheck.
Qed.
Lemma commit_recorded (s : @Settlement PrivKey) h blob cursor :
  configured Γ (Commit s h blob cursor) → preserves recorded (settled (commit_with_cursor s h blob cursor)).
Proof.
  intros Hc. unfold settled, commit_with_cursor, inbox_cursor, build_settle_tx, sign_and_execute.
  record. apply recorded_build. eapply (settle_typed s h blob); [exact Hc|eassumption].
Qed.
Lemma withdraw_typed (c : BridgeClient PrivKey) coin r a n p :
  configured Γ (Withdraw c coin r a n) → withdraw_ptb c coin r a n = Ok p → well_typed Γ p = true.
Proof.
  intros (Hp & Hv) Hs. unfold withdraw_ptb in Hs. apply result_bind_ok in Hs as (cmd & Hc & [= <-]).
  apply named in Hc as ->. typecheck.
Qed.

(** What every submission runs. *)
Ltac unfold_client := unfold settled, load_signer, connect, build_and_execute, sign_and_execute, submit_rotation_tx.
Ltac recorded_by := unfold_client; record; ids; record.

Lemma upgrade_recorded k u p r o build pol :
  configured (PrivKey := PrivKey) Γ (UpgradePackage k u p r o build pol) → preserves recorded (settled (upgrade_package k u p r o build pol)).
Proof. intros (Hp & Hr & Ho). unfold upgrade_package. recorded_by. Qed.
Lemma restrict_recorded k u p r o pol :
  configured (PrivKey := PrivKey) Γ (RestrictUpgrades k u p r o pol) → preserves recorded (settled (restrict_package_upgrades k u p r o pol)).
Proof. intros (Hp & Hr & Ho). unfold restrict_package_upgrades. recorded_by. Qed.
Lemma freeze_recorded k u p r o :
  configured (PrivKey := PrivKey) Γ (FreezePackage k u p r o) → preserves recorded (settled (freeze_package k u p r o)).
Proof. intros (Hp & Hr & Ho). unfold freeze_package. recorded_by. Qed.
Lemma entomb_recorded k u p r c o :
  configured (PrivKey := PrivKey) Γ (EntombUpgradeCap k u p r c o) → preserves recorded (settled (entomb_upgrade_cap k u p r c o)).
Proof.
  intros (Hp & Hr & Hc & Ho). unfold entomb_upgrade_cap, read_upgrade_cap_package, run_entomb_upgrade_cap. recorded_by.
Qed.

(** Every operation submits well-typed blocks only. *)
Lemma perform_recorded (o : operation PrivKey) : configured Γ o → preserves recorded (perform o).
Proof.
  destruct o; intros Hc; cbn [perform];
    [by apply commit_recorded|by apply entomb_recorded|by apply upgrade_recorded|by apply restrict_recorded
    |by apply freeze_recorded|..].
  - destruct Hc as (Hp & Hr & Hi & Ho). unfold submit_window_change. recorded_by.
  - destruct Hc as (Hp & Hr & Hi & Ho). unfold submit_cancel_window_change. recorded_by.
  - destruct Hc as (Hp & Hr & Hu). unfold submit_publish_peer. recorded_by.
  - destruct Hc as (Hp & Hr & Hv). unfold submit_claim, claim_commands. recorded_by.
  - destruct Hc as (Hp & Hr & Hv). unfold submit_retire_previous. recorded_by.
  - destruct Hc as ((Hp & Hr & Hv) & Hs & Hb). unfold submit_request. recorded_by.
  - destruct Hc as (Hp & Hr & Hk). unfold submit_entomb_settler. recorded_by.
  - destruct Hc as (Hp & Hv & Hk). unfold submit_entomb_bridge. recorded_by.
  - unfold withdraw, sui_res, sui_op. recorded_by. apply recorded_build.
    eapply withdraw_typed; [exact Hc|]. by destruct (withdraw_ptb _ _ _ _ _); simplify_eq/=.
Qed.
End Facts.

(** C10: Every transaction block the clients submit is well typed.  Whatever
    operation runs on a deployed contract (settling, the upgrade, restriction,
    freezing and custody ceremonies, window changes, peers, rotation, and
    withdrawals), against any chain state and any RPC, each block it asks the
    RPC to build passes the type check against the Move signatures: the called
    functions exist, every argument has its parameter's type, no capability is
    used after it was given away, and the upgrade ticket and receipt are
    consumed.  It is enough that the ids in the configuration name objects of
    the right types. *)
Theorem submitted_blocks_well_typed {W PrivKey PubKey Tx TxSig : Type} `{Ed25519 PrivKey PubKey}
    `{Base64} `{SuiSdk} `{SuiRpc W PrivKey Tx TxSig} `{HasDisk W} `{Bcs UpgradeCapMirror}
    (Γ : typing) (o : operation PrivKey) (w : W) :
  (∀ m m', identifier_new m = Ok m' → m' = m) →
  object_type Γ SUI_CLOCK_ID = Some MClock →
  configured Γ o →
  Forall (λ p, well_typed Γ p = true) (perform o (w, [])).2.2.
Proof.
  intros Hid Hclk Hc. pose proof (perform_recorded Hid Γ Hclk o Hc (w, []) (List.Forall_nil _)) as Hr.
  by destruct (perform o (w, [])) as [[] s].
Qed.

Section PtbWitness.
Import Codec.Demo Codec.CountableCodec.
(** An RPC that accepts every block. *)
#[local] Instance accepting_rpc : SuiRpc disk (array 32) unit unit := {|
  rpc_connect _ := Ok tt;
  rpc_get_object _ _ := mret None;
  rpc_build _ _ := mret tt;
  sign_transaction _ _ := Ok tt;
  rpc_execute _ _ _ _ := mret (mk_exec true None []);
  rpc_get_epoch _ := mret tt;
  rpc_list_balances _ _ := λ w, ([], w)
|}.
Definition object_at (n : N) : Address := array_of_N 32 n.
Definition demo_typing : typing := mk_typing (λ a, bool_decide (a = object_at 100))
  (λ a, if bool_decide (a = SUI_CLOCK_ID) then Some MClock
        else if bool_decide (a = object_at 101) then Some MRegistry
        else if bool_decide (a = object_at 102) then Some MVault
        else if bool_decide (a = object_at 103) then Some MOpsCap
        else if bool_decide (a = object_at 104) then Some MOpsCap
        else None).
Definition demo_request : operation (array 32) :=
  RequestRotation "sui" (array_fill 32 x05) (mk_targets (object_at 100) (object_at 101) (object_at 102))
    (mk_ops_caps (object_at 103) (object_at 104)) (object_at 9) (48 * 60 * 60 * 1000).
Definition demo_disk : disk := mk_disk ∅ ∅ [].
Definition demo_blocks : list ptb := (perform demo_request (demo_disk, [])).2.2.
Lemma demo_blocks_one : length demo_blocks = 1%nat.
Proof. by vm_compute. Qed.

Lemma submitted_blocks_well_typed_witness : Forall (λ p, well_typed demo_typing p = true) demo_blocks.
Proof.
  unfold demo_blocks.
  apply (submitted_blocks_well_typed demo_typing demo_request demo_disk);
    [by intros m m' [= <-]|by vm_compute|repeat split; by vm_compute].
Defined.

(** The checker tells mistakes: the vault in the registry's place, and a ticket
    left over. *)
Example swapped_objects_rejected :
  well_typed demo_typing (mk_ptb [MoveCall (object_at 100) "settlement" "retire_previous" [] [AObj (object_at 102)]]
    (object_at 9)) = false.
Proof. by vm_compute. Qed.
Example leftover_ticket_rejected :
  well_typed demo_typing (mk_ptb [MoveCall (object_at 100) "settlement" "authorize_package_upgrade" []
    [AObj (object_at 101); AObj (object_at 103); APure (PU8 0); APure (PBytes [])]] (object_at 9)) = false.
Proof. by vm_compute. Qed.
End PtbWitness.
