(* ===== verification/Bridge.v ===== *)
(** [crates/node/src/bridge.rs]: the bridge relayer.

    Deposits and withdrawals are relayed against interfaces ([VaultReads],
    [TokenOps], [BurnOps] and the two cursors); the relayer's own state and the
    JSON-RPC calls of [L2Rpc] implement them ([relayer_vault] and below), and
    the worlds of [Relay] and [Release] do so with the contracts themselves. *)

From S2P Require Import Prelude Text Codec Disk Core Store Wire Contract Sui SuiRotation.
From S2P Require Import Config JsonValue L2Rpc Vault.
Local Open Scope string_scope.
Local Open Scope list_scope.
Local Open Scope N_scope.

Definition BRIDGE_FACTORY_ADDRESS_HEX : string := "0x4200000000000000000000000000000000000010".
Definition BRIDGE_TOKEN_PREDEPLOY_ADDRESS_HEX : string := "0x4200000000000000000000000000000000000011".
Definition MINT_GAS_LIMIT : N := 120000.
Definition CREATE_BRIDGE_GAS_LIMIT : N := 3000000.

(** ** The token registry *)

Module TokenRegistry.
Record t := mk {
  by_coin_type : gmap (list byte) EvmAddress;
  by_address : gmap EvmAddress (list byte)
}.
Definition empty : t := mk ∅ ∅.

(** [false] for a twin: another token already claims the coin type. *)
Definition insert (coin : list byte) (token : EvmAddress) (r : t) : bool * t :=
  let add := (true, mk (<[coin := token]> (by_coin_type r)) (<[token := coin]> (by_address r))) in
  match by_coin_type r !! coin with
  | Some existing => if bool_decide (existing = token) then add else (false, r)
  | None => add
  end.
Definition token_for (coin : list byte) (r : t) : option EvmAddress := by_coin_type r !! coin.
Definition coin_for (token : EvmAddress) (r : t) : option (list byte) := by_address r !! token.
Definition addresses (r : t) : list EvmAddress := (map_to_list (by_address r)).*1.
Definition len (r : t) : N := N.of_nat (size (by_coin_type r)).

Definition snapshot `{Hex} `{EvmSdk} (r : t) : gmap string string :=
  list_to_map ((λ '(coin, token), (hex_encode coin, fmt_evm token)) <$> map_to_list (by_coin_type r)).

(** A [BTreeMap] with string keys, in order. *)
Definition entries (m : gmap string string) : list (string * string) :=
  merge_sort (λ a b, Is_true (String.leb a.1 b.1)) (map_to_list m).

Fixpoint absorb_entries `{Hex} `{EvmSdk} (l : list (string * string)) (r : t) : result anyhow t :=
  match l with
  | [] => Ok r
  | (coin_hex, token_hex) :: l =>
      coin ← context ("corrupt token registry entry " +:+ coin_hex)
               (map_err (λ e, [e]) (hex_decode coin_hex));
      token ← context ("corrupt token registry entry " +:+ token_hex)
                (map_err (λ e, [e]) (evm_from_str token_hex));
      absorb_entries l (insert coin token r).2
  end.
Definition from_snapshot `{Hex} `{EvmSdk} (m : gmap string string) : result anyhow t :=
  absorb_entries (entries m) empty.
End TokenRegistry.

(** *** Cursors *)

Record Cursors := mk_cursors {
  next_deposit_nonce : N; next_l2_block : N; cur_tokens : gmap string string
}.
Definition cursors_default : Cursors := mk_cursors 0 0 ∅.

Section CursorFile.
Context {W : Type} `{HasDisk W} `{Json Cursors}.
Definition load_cursors {E} (p : path) : M W E Cursors :=
  r ← tryM (on_disk (fs_read_to_string p));
  mret (match r with
        | Ok text => match json_from_str text with Ok c => c | Err _ => cursors_default end
        | Err _ => cursors_default
        end).
(** Failures are logged. *)
Definition persist_cursors {E} (p : path) (c : Cursors) : M W E unit :=
  match json_to_string_pretty c with
  | Err _ => mret tt
  | Ok text => tryM (on_disk (fs_write p (string_bytes text)));; mret tt
  end.
End CursorFile.

(** ** Relaying deposits *)

Class VaultReads (W : Type) := {
  read_vault : M W BridgeError VaultStatus;
  read_deposit : N → M W BridgeError (option DepositRecord)
}.
(** A token is resolved by coin type; [mint_cursor] is [(mintedAny,
    lastMintedDepositNonce)]; [mint] returns when the receipt is in. *)
Class TokenOps (W T : Type) := {
  resolve_token : list byte → M W anyhow T;
  mint_cursor : T → M W anyhow (bool * N);
  mint : T → N → list byte → N → M W anyhow unit
}.
(** The deposit cursor; setting it persists cursors and registry together. *)
Class DepositCursor (W : Type) := { get_cursor : W → N; set_cursor : N → W → W }.

Section Deposits.
Context {W T : Type} `{VaultReads W} `{TokenOps W T} `{DepositCursor W}.
Abbreviation Op := (M W anyhow).

(** One round of the loop: [true] to go on with the next nonce. *)
Definition relay_one (nonce : N) : Op bool :=
  rec ← tryM (read_deposit nonce);
  match rec with
  | Err _ | Ok None => mret false
  | Ok (Some rec) =>
      token ← tryM (E := anyhow) (resolve_token (coin_type rec));
      match token with
      | Err _ => mret false
      | Ok token =>
          c ← tryM (E := anyhow) (mint_cursor token);
          let '(minted_any, last_minted) := match c with Ok c => c | Err _ => (false, 0) end in
          minted ← (if minted_any && (nonce <=? last_minted) then mret true
                    else r ← tryM (E := anyhow) (mint token nonce (recipient_l2 rec) (amount rec));
                         mret (is_ok r));
          if (minted : bool) then modM (set_cursor (nonce + 1));; mret true else mret false
      end
  end.
(** The cursor grows by one a round, so [latest - cursor] rounds are enough. *)
Fixpoint relay_rounds (rounds : nat) (latest : N) : Op unit :=
  match rounds with
  | O => mret tt
  | S rounds =>
      w ← getM;
      if latest <=? get_cursor w then mret tt
      else go ← relay_one (get_cursor w);
           if (go : bool) then relay_rounds rounds latest else mret tt
  end.
Definition relay_deposits : Op unit :=
  status ← tryM read_vault;
  match status with
  | Err _ => mret tt
  | Ok s => w ← getM; relay_rounds (N.to_nat (deposit_nonce s - get_cursor w)) (deposit_nonce s)
  end.
End Deposits.

(** ** Relaying withdrawals *)

(** The L2's head, the indexing of the tokens created in a range, the burn logs
    of the known tokens in a range, and the release of one burn on Sui. *)
Class BurnOps (W L : Type) := {
  l2_head : M W anyhow N;
  index_creations : N → N → M W anyhow unit;
  burn_logs : N → N → M W anyhow (list L);
  release_burn : L → M W anyhow unit
}.
(** The block cursor; setting it persists cursors and registry together. *)
Class BlockCursor (W : Type) := { get_block : W → N; set_block : N → W → W }.

Section Withdrawals.
Context {W L : Type} `{BurnOps W L} `{BlockCursor W}.
(** The first log that fails ends the pass. *)
Fixpoint process_logs (logs : list L) : M W anyhow unit :=
  match logs with [] => mret tt | l :: logs => release_burn l;; process_logs logs end.
Definition relay_withdrawals : M W anyhow unit :=
  w ← getM;
  let from_block := get_block w in
  latest ← l2_head;
  if latest <? from_block then mret tt
  else
    index_creations from_block latest;;
    logs ← burn_logs from_block latest;
    process_logs logs;;
    modM (set_block (wadd latest 1)).
End Withdrawals.

(** ** The relayer *)

(** alloy's transaction signing and the call encoders of [alloy_sol_types]. *)
Record Eip1559 := mk_eip1559 {
  tx_chain_id : N; tx_nonce : N; tx_gas_limit : N; tx_max_fee : N; tx_priority_fee : N;
  tx_to : EvmAddress; tx_input : list byte
}.
Class EvmSigner (Key : Type) := {
  key_from_slice : list byte → result string Key;
  evm_address : Key → EvmAddress;
  sign_2718 : Key → Eip1559 → result string (list byte);
  mintCall_abi_encode : EvmAddress → N → N → list byte;
  createBridgeCall_abi_encode : string → string → string → list byte
}.
Definition mint_calldata {Key} `{EvmSigner Key} (recipient : EvmAddress) (amount nonce : N) : list byte :=
  mintCall_abi_encode recipient amount nonce.
Definition create_bridge_calldata {Key} `{EvmSigner Key} (name symbol coin_type : string) : list byte :=
  createBridgeCall_abi_encode name symbol coin_type.

Section Logs.
Context `{Hex} `{Hashes} `{SuiSdk}.
Definition WITHDRAWAL_TOPIC : list byte :=
  arr_bytes (keccak256 (string_bytes "WithdrawalInitiated(uint64,address,bytes32,uint256)")).
Definition BRIDGE_CREATED_TOPIC : list byte :=
  arr_bytes (keccak256 (string_bytes "BridgeCreated(address,string,string,string)")).

Record ParsedWithdrawal := mk_withdrawal { wd_nonce : N; wd_amount : N; wd_recipient : Address }.
Definition parse_withdrawal_log (log : RpcLog) : result anyhow ParsedWithdrawal :=
  t1 ← ok_or (topics log !! 1%nat) ["missing nonce topic"];
  nonce_word ← hex_to_fixed32 t1;
  t3 ← ok_or (topics log !! 3%nat) ["missing suiRecipient topic"];
  sui_word ← hex_to_fixed32 t3;
  amount ← context "missing/short amount" (log_data_u64 (log_data log));
  recipient ← ok_or (try_into_array 32 sui_word) ["unreachable: a topic has 32 bytes"];
  Ok (mk_withdrawal (word_u64 nonce_word) amount recipient).

Definition parse_bridge_created_log (log : RpcLog) : result anyhow (string * EvmAddress) :=
  t0 ← ok_or (topics log !! 0%nat) ["missing topics"];
  topic ← hex_to_fixed32 t0;
  ensure (bool_decide (topic = BRIDGE_CREATED_TOPIC)) "not a BridgeCreated log";;
  t1 ← ok_or (topics log !! 1%nat) ["missing token topic"];
  token_word ← hex_to_fixed32 t1;
  token ← decode_word_address token_word;
  coin ← context "decoding coinType" (decode_first_abi_string (log_data log));
  Ok (coin, token).

Definition parse_struct_tag_flexible (coin_type : string) : result anyhow StructTag :=
  let repaired := if starts_with "0x" coin_type then coin_type else "0x" +:+ coin_type in
  context ("parsing coin type " +:+ coin_type +:+ " as a Sui StructTag")
    (map_err (λ e, [e]) (struct_tag_from_str repaired)).
Definition normalize_coin_type (coin_type : string) : result anyhow (list byte) :=
  t ← parse_struct_tag_flexible coin_type;
  Ok (string_bytes (trim_start_matches "0x" (struct_tag_text t))).
(** A [TypeTag], by its canonical text. *)
Definition coin_type_tag (coin_type : string) : result anyhow string :=
  struct_tag_text <$> parse_struct_tag_flexible coin_type.
Definition derive_token_metadata (coin_type : string) : string * string :=
  (coin_type, rsplit_next "::" coin_type).

(** Twins and undecodable logs are skipped. *)
Fixpoint fold_creations (logs : list RpcLog) (r : TokenRegistry.t) : TokenRegistry.t :=
  match logs with
  | [] => r
  | log :: logs =>
      fold_creations logs
        match parse_bridge_created_log log with
        | Ok (coin_str, token) =>
            match normalize_coin_type coin_str with
            | Ok coin => (TokenRegistry.insert coin token r).2
            | Err _ => r
            end
        | Err _ => r
        end
  end.
End Logs.

Definition CREATION_SCAN_CHUNK : N := 2500.
Definition MIN_CREATION_SCAN_CHUNK : N := 64.
Definition CREATION_SCAN_HALVE_AFTER : N := 500.

Section Scan.
Context {W : Type} `{JsonHttp W} `{Runtime W} `{Hex} `{Hashes} `{EvmSdk} `{SuiSdk}.

(** The number of logs and the registry with them folded in. *)
Definition absorb_creations (l2_rpc : string) (factory : EvmAddress) (tokens : TokenRegistry.t)
    (from_block to_block : N) : M W anyhow (N * TokenRegistry.t) :=
  logs ← eth_get_logs l2_rpc [factory] BRIDGE_CREATED_TOPIC from_block to_block;
  mret (N.of_nat (length logs), fold_creations logs tokens).

(** [while from <= head]; the fuel bounds the rounds. *)
Fixpoint scan_creations (fuel : nat) (l2_rpc : string) (factory : EvmAddress) (head from chunk : N)
    (r : TokenRegistry.t) (w : W) : option (result anyhow TokenRegistry.t * W) :=
  match fuel with
  | O => None
  | S fuel =>
      if head <? from then Some (Ok r, w)
      else
        let to := N.min (sat_add from (chunk - 1)) head in
        match absorb_creations l2_rpc factory r from to w with
        | (Ok (found, r'), w') =>
            let chunk' := if (CREATION_SCAN_HALVE_AFTER <=? found) && (MIN_CREATION_SCAN_CHUNK <? chunk)
                          then chunk / 2 else chunk in
            scan_creations fuel l2_rpc factory head (wadd to 1) chunk' r' w'
        | (Err e, w') =>
            if MIN_CREATION_SCAN_CHUNK <? chunk
            then scan_creations fuel l2_rpc factory head from (chunk / 2) r w'
            else Some (Err ("indexing BridgeCreated history" :: e), w')
        end
  end.
(** Rounds that always suffice ([BridgeFacts.creation_scan_indexes_history]). *)
Definition scan_fuel (head : N) : nat := S (S (N.to_nat head + N.to_nat CREATION_SCAN_CHUNK)).

Context `{HasDisk W} `{Json Cursors}.
Definition restore_token_registry (l2_rpc : string) (factory : EvmAddress) (c : Cursors) (p : path)
    : M W anyhow (TokenRegistry.t * Cursors) :=
  if negb (bool_decide (cur_tokens c = ∅)) && (0 <? next_l2_block c) then
    r ← lift (TokenRegistry.from_snapshot (cur_tokens c)); mret (r, c)
  else
    head ← eth_block_number l2_rpc;
    r ← (λ w, match scan_creations (scan_fuel head) l2_rpc factory head 0 CREATION_SCAN_CHUNK
                      TokenRegistry.empty w with
              | Some x => x
              | None => (Err ["unreachable: the scan ends"], w)
              end);
    let c' := mk_cursors (next_deposit_nonce c) (wadd head 1) (TokenRegistry.snapshot r) in
    persist_cursors p c';;
    mret (r, c').

Definition verify_l2_bridge_factory (l2_rpc : string) (factory expected_relayer : EvmAddress)
    : M W anyhow unit :=
  code ← eth_get_code l2_rpc factory;
  lift (ensure (Nat.ltb 2 (length code)) "BridgeFactory predeploy not found");;
  predeploy ← lift (context "internal: invalid BRIDGE_TOKEN_PREDEPLOY_ADDRESS_HEX"
    (map_err (λ e, [e]) (evm_from_str BRIDGE_TOKEN_PREDEPLOY_ADDRESS_HEX)));
  token_code ← eth_get_code l2_rpc predeploy;
  lift (ensure (Nat.ltb 2 (length token_code)) "Bridge predeploy not found");;
  initialized ← contextM "calling initialized() on L2 BridgeFactory"
                  (eth_call_bool l2_rpc factory (selector "initialized()"));
  lift (ensure initialized "BridgeFactory predeploy is not initialized");;
  onchain ← contextM "calling relayer() on L2 BridgeFactory"
              (eth_call_address l2_rpc factory (selector "relayer()"));
  lift (ensure (bool_decide (onchain = expected_relayer)) "BridgeFactory relayer mismatch").
End Scan.

Section Relayer.
Context {W PrivKey PubKey Tx TxSig Key : Type} `{Ed25519 PrivKey PubKey} `{Base64} `{SuiSdk}
  `{SuiRpc W PrivKey Tx TxSig} `{HasDisk W} `{JsonHttp W} `{Runtime W} `{Hex} `{Hashes} `{EvmSdk}
  `{EvmSigner Key}.
Context `{Bcs VaultBcs} `{Bcs FieldDepositBcs} `{Json Cursors} `{Toml}.

Record BridgeRelayer := mk_relayer {
  br_sui_rpc : string;
  br_client : BridgeClient PrivKey;
  br_vault_id : string;
  br_l2_rpc : string;
  br_factory : EvmAddress;
  br_signer : Key;
  br_chain_id : N;
  br_mint_gas : N;
  br_create_gas : N;
  br_poll : N;
  br_table : Address;
  br_tokens : TokenRegistry.t;
  br_cursors : Cursors;
  br_cursors_path : path
}.
Definition with_tokens (t : TokenRegistry.t) (b : BridgeRelayer) : BridgeRelayer :=
  mk_relayer (br_sui_rpc b) (br_client b) (br_vault_id b) (br_l2_rpc b) (br_factory b) (br_signer b)
    (br_chain_id b) (br_mint_gas b) (br_create_gas b) (br_poll b) (br_table b) t (br_cursors b)
    (br_cursors_path b).
Definition with_cursors (c : Cursors) (b : BridgeRelayer) : BridgeRelayer :=
  mk_relayer (br_sui_rpc b) (br_client b) (br_vault_id b) (br_l2_rpc b) (br_factory b) (br_signer b)
    (br_chain_id b) (br_mint_gas b) (br_create_gas b) (br_poll b) (br_table b) (br_tokens b) c
    (br_cursors_path b).

(** The relayer and the world. *)
Abbreviation RW := (BridgeRelayer * W)%type.
Abbreviation Op := (M RW anyhow).
Definition relayer : Op BridgeRelayer := fst <$> getM.
Definition set_relayer (f : BridgeRelayer → BridgeRelayer) : Op unit := modM (λ s, (f s.1, s.2)).
Definition out {E A} (m : M W E A) : M RW E A := zoom snd (λ w s, (s.1, w)) m.

Definition send_l2_tx (to : EvmAddress) (calldata : list byte) (gas : N) : Op string :=
  b ← relayer;
  nonce ← out (eth_get_transaction_count (br_l2_rpc b) (evm_address (br_signer b)));
  price ← out (eth_gas_price (br_l2_rpc b));
  raw ← lift (context "signing bridge tx" (map_err (λ e, [e])
    (sign_2718 (br_signer b)
       (mk_eip1559 (br_chain_id b) nonce gas price (N.min price 2000000000) to calldata))));
  out (eth_send_raw_transaction (br_l2_rpc b) raw).

Definition ensure_token (coin : list byte) : Op EvmAddress :=
  b ← relayer;
  match TokenRegistry.token_for coin (br_tokens b) with
  | Some token => mret token
  | None =>
      coin_str ← lift (ok_or (from_utf8 coin) ["deposit coin_type bytes are not utf-8"]);
      let '(name, symbol) := derive_token_metadata coin_str in
      tx_hash ← contextM "sending createBridge tx"
                  (send_l2_tx (br_factory b) (create_bridge_calldata (Key := Key) name symbol coin_str) (br_create_gas b));
      receipt ← out (wait_for_receipt (br_l2_rpc b) tx_hash (br_poll b));
      lift (ensure_receipt_success receipt);;
      token ← lift (ok_or (snd <$> head (omap (λ l, to_option (parse_bridge_created_log l))
                                          (receipt_logs receipt)))
                      ["createBridge receipt has no BridgeCreated log"]);
      b ← relayer;
      let '(inserted, tokens) := TokenRegistry.insert coin token (br_tokens b) in
      set_relayer (with_tokens tokens);;
      if inserted then mret token
      else lift (ok_or (TokenRegistry.token_for coin tokens)
                   ["canonical token missing after twin rejection"])
  end.

Definition mint_on_l2 (token : EvmAddress) (nonce : N) (recipient : list byte) (amount : N) : Op unit :=
  b ← relayer;
  r ← lift (ok_or (try_into_array 20 recipient) ["deposit recipient_l2 is not 20 bytes"]);
  tx_hash ← contextM "sending mint tx" (send_l2_tx token (mint_calldata (Key := Key) r amount nonce) (br_mint_gas b));
  out (wait_for_receipt_success (br_l2_rpc b) tx_hash (br_poll b)).

(** *** Deposits *)

#[global] Instance relayer_vault : VaultReads RW := {|
  read_vault := λ s, out (vault_status (br_sui_rpc s.1) (br_vault_id s.1)) s;
  read_deposit n := λ s, out (deposit_at (br_sui_rpc s.1) (br_table s.1) n) s
|}.
#[global] Instance relayer_tokens : TokenOps RW EvmAddress := {|
  resolve_token := ensure_token;
  mint_cursor token := λ s, out (eth_mint_cursor (br_l2_rpc s.1) token) s;
  mint := mint_on_l2
|}.
Definition save_cursors (c : Cursors) : Op unit :=
  set_relayer (with_cursors c);;
  b ← relayer;
  out (persist_cursors (br_cursors_path b) c).
#[global] Instance relayer_cursor : DepositCursor RW := {|
  get_cursor s := next_deposit_nonce (br_cursors s.1);
  set_cursor n s :=
    (save_cursors (mk_cursors n (next_l2_block (br_cursors s.1))
                     (TokenRegistry.snapshot (br_tokens s.1))) s).2
|}.

(** *** Withdrawals *)

Definition process_withdrawal_log (log : RpcLog) : Op unit :=
  emitter ← lift (context "log address not valid hex" (parse_log_address (log_address log)));
  b ← relayer;
  coin ← lift (ok_or (TokenRegistry.coin_for emitter (br_tokens b))
                 ["withdrawal log from unknown token " +:+ to_checksum emitter]);
  coin_str ← lift (ok_or (from_utf8 coin) ["token coin_type not utf-8"]);
  tag ← lift (coin_type_tag coin_str);
  parsed ← lift (parse_withdrawal_log log);
  errM (λ e, ["Sui withdraw failed (nonce " +:+ fmt_dec (wd_nonce parsed) +:+ "): "
              +:+ bridge_error_text e])
    (out (withdraw (br_client b) tag (wd_recipient parsed) (wd_amount parsed) (wd_nonce parsed))).

Definition index_new_tokens (from_block to_block : N) : Op unit :=
  b ← relayer;
  '(_, tokens) ← out (absorb_creations (br_l2_rpc b) (br_factory b) (br_tokens b) from_block to_block);
  set_relayer (with_tokens tokens).
(** Only logs of registered tokens are asked for. *)
Definition withdrawal_logs (from_block to_block : N) : Op (list RpcLog) :=
  b ← relayer;
  let addresses := TokenRegistry.addresses (br_tokens b) in
  if bool_decide (addresses = []) then mret []
  else out (eth_get_logs (br_l2_rpc b) addresses WITHDRAWAL_TOPIC from_block to_block).
#[global] Instance relayer_burns : BurnOps RW RpcLog := {|
  l2_head := λ s, out (eth_block_number (br_l2_rpc s.1)) s;
  index_creations := index_new_tokens;
  burn_logs := withdrawal_logs;
  release_burn := process_withdrawal_log
|}.
#[global] Instance relayer_block_cursor : BlockCursor RW := {|
  get_block s := next_l2_block (br_cursors s.1);
  set_block n s :=
    (save_cursors (mk_cursors (next_deposit_nonce (br_cursors s.1)) n
                     (TokenRegistry.snapshot (br_tokens s.1))) s).2
|}.

(** One round of [run]'s loop, before the sleep; failures are logged. *)
Definition relay_pass : Op unit :=
  tryM (E := anyhow) (relay_deposits (T := EvmAddress));;
  tryM (E := anyhow) (relay_withdrawals (L := RpcLog));; mret tt.
(** [run], for [passes] rounds: [true] when the shutdown flag ended it. *)
Fixpoint run (passes : nat) : Op bool :=
  match passes with
  | O => mret false
  | S passes =>
      s ← getM;
      if shutting_down s.2 then mret true
      else relay_pass;; modM (λ s, (s.1, sleep_ms (br_poll s.1) s.2));; run passes
  end.

(** *** Set-up *)

Definition relayer_new (cfg : BridgeConfig) (key_path : path) (adopted : AdoptedKey PrivKey)
    (package_id cap_id vault_id sui_rpc l2_rpc : string) (data_dir : path) : M W anyhow BridgeRelayer :=
  factory ← lift (context "internal: invalid BRIDGE_FACTORY_ADDRESS_HEX"
    (map_err (λ e, [e]) (evm_from_str BRIDGE_FACTORY_ADDRESS_HEX)));
  relayer_key_path ← lift (ok_or (l2_relayer_key_path cfg) ["bridge.l2_relayer_key_path is required"]);
  text ← contextM ("reading relayer key " +:+ join_path relayer_key_path)
           (errM (λ e, [io_error_text e]) (on_disk (fs_read_to_string relayer_key_path)));
  key_bytes ← lift (decode_hex (trim text) "relayer key is not valid hex");
  signer ← lift (context "invalid relayer private key (need 32-byte secp256k1 scalar)"
                   (map_err (λ e, [e]) (key_from_slice key_bytes)));
  verify_l2_bridge_factory l2_rpc factory (evm_address signer);;
  chain_id ← contextM "reading chain id from Reth via eth_chainId" (eth_chain_id l2_rpc);
  client ← contextM "building Sui bridge client" (errM (λ e, [bridge_error_text e])
             (new_or_adopted adopted key_path package_id cap_id vault_id sui_rpc));
  status ← contextM "reading vault status"
             (errM (λ e, [bridge_error_text e]) (vault_status sui_rpc vault_id));
  let cursors_path := data_dir ++ ["bridge_cursors.json"] in
  cursors ← load_cursors cursors_path;
  '(tokens, cursors) ← restore_token_registry l2_rpc factory cursors cursors_path;
  mret (mk_relayer sui_rpc client vault_id l2_rpc factory signer chain_id MINT_GAS_LIMIT
          CREATE_BRIDGE_GAS_LIMIT (N.max (poll_interval_ms cfg) 100)
          (deposits_table_uid status) tokens cursors cursors_path).

Definition with_bridge_ids (cap vault : string) (c : Config) : Config :=
  mk_config (reth c) (walrus c) (sui c) (signer c) (sequencer c)
    (mk_bridge (bridge_enabled (bridge c)) (Some cap) (Some vault) (l2_relayer_key_path (bridge c))
       (poll_interval_ms (bridge c)))
    (p2p c) (metrics c) (data_dir c) (mode c).

(** The caller's config is updated in place: a set-up that fails later keeps
    the object ids it created. *)
Definition setup_relayer (config_path key_path : path) (adopted : AdoptedKey PrivKey)
    : M (Config * W) anyhow BridgeRelayer :=
  let env {E A} (m : M W E A) : M (Config * W) E A := zoom snd (λ w s, (s.1, w)) m in
  c ← fst <$> getM;
  package_id ← lift (ok_or (settlement_package_id (sui c))
                       ["settlement must be deployed before the bridge can start"]);
  '(cap, vault) ← match bridge_cap_id (bridge c), vault_id (bridge c) with
    | Some cap, Some vault => mret (cap, vault)
    | None, None =>
        deployed ← contextM "initializing bridge Vault on Sui" (errM (λ e, [bridge_error_text e])
          (env match adopted_get adopted with
               | Some key => initialize_with_key key (sui_rpc_url (sui c)) package_id
               | None => initialize key_path (sui_rpc_url (sui c)) package_id
               end));
        let c' := with_bridge_ids (db_cap_id deployed) (db_vault_id deployed) c in
        modM (λ s, (c', s.2));;
        env (on_disk (Config.save c' config_path));;
        mret (db_cap_id deployed, db_vault_id deployed)
    | _, _ => throw ["bridge.cap_id and bridge.vault_id must both be set or both unset"]
    end;
  c ← fst <$> getM;
  env (relayer_new (bridge c) key_path adopted package_id cap vault (sui_rpc_url (sui c))
         (rpc_url (reth c)) (data_dir c)).

(** Set-up is tried again every five seconds until it succeeds; the relayer it
    gives then runs until shutdown.  [attempts] and [passes] bound the loops. *)
Fixpoint relay_until_ready (attempts passes : nat) (config_path key_path : path)
    (adopted : AdoptedKey PrivKey) : M (Config * W) anyhow unit :=
  match attempts with
  | O => mret tt
  | S attempts =>
      s ← getM;
      if shutting_down s.2 then mret tt
      else
        r ← tryM (E := anyhow) (setup_relayer config_path key_path adopted);
        match r with
        | Ok b => modM (λ s, (s.1, (run passes (b, s.2)).2.2))
        | Err _ => mret tt
        end;;
        s ← getM;
        if is_ok r && shutting_down s.2 then mret tt
        else
          modM (λ s, (s.1, sleep_ms 5000 s.2));;
          relay_until_ready attempts passes config_path key_path adopted
  end.
(** [None] when the bridge is disabled; otherwise the task to run. *)
Definition spawn (c : Config) (config_path key_path : path) (adopted : AdoptedKey PrivKey)
    : option (nat → nat → M (Config * W) anyhow unit) :=
  if negb (bridge_enabled (bridge c)) then None
  else Some (λ attempts passes, relay_until_ready attempts passes config_path key_path adopted).
End Relayer.
