(* ===== verification/BridgeFacts.v ===== *)
(** The relayer's token registry: its persisted form reads back, and the scan
    of the factory's history finds every token. *)

From S2P Require Import Prelude Text Codec JsonValue L2Rpc Bridge.
Local Open Scope string_scope.
Local Open Scope list_scope.
Local Open Scope N_scope.

(** ** The registry's snapshot *)

Module RegistryFacts.
Import TokenRegistry.
(** The two maps are each other's inverse. *)
Definition wf (r : t) : Prop :=
  ∀ coin token, by_coin_type r !! coin = Some token ↔ by_address r !! token = Some coin.
Lemma wf_empty : wf empty.
Proof. intros coin token. cbn. by rewrite !lookup_empty. Qed.

(** A token the factory just created is new to the registry. *)
Lemma insert_wf coin token r :
  wf r → by_address r !! token = None ∨ by_address r !! token = Some coin → wf (insert coin token r).2.
Proof.
  intros Hr Ht. unfold insert.
  assert ((∀ t', by_coin_type r !! coin = Some t' → t' = token) →
    wf (mk (<[coin := token]> (by_coin_type r)) (<[token := coin]> (by_address r)))) as Hadd.
  { intros Hc c x. cbn. rewrite !lookup_insert_Some. split.
    - intros [[-> ->]|[Hne Hx]]; [by left|]. right. split; [|by apply Hr].
      intros ->. apply Hr in Hx. destruct Ht; congruence.
    - intros [[-> ->]|[Hne Hx]]; [by left|]. right. split; [|by apply Hr].
      intros ->. apply Hr in Hx. by apply Hc in Hx. }
  destruct (by_coin_type r !! coin) as [t'|] eqn:Hc; [case_bool_decide; [|done]|]; apply Hadd; congruence.
Qed.
Lemma insert_fresh coin token r :
  by_coin_type r !! coin = None →
  insert coin token r = (true, mk (<[coin := token]> (by_coin_type r)) (<[token := coin]> (by_address r))).
Proof. intros Hc. unfold insert. by rewrite Hc. Qed.

Definition of_list (k : list (list byte * EvmAddress)) : t :=
  mk (list_to_map k) (list_to_map (prod_swap <$> k)).
Lemma fst_swap {A B} (l : list (A * B)) : (prod_swap <$> l).*1 = l.*2.
Proof. rewrite <- list_fmap_compose. apply list_fmap_ext. by intros ? []. Qed.

(** A well-formed registry is the one its pairs build. *)
Lemma of_list_wf r l : wf r → l ≡ₚ map_to_list (by_coin_type r) → of_list l = r.
Proof.
  intros Hr Hl. assert (NoDup (l.*1)) as Hn1 by (rewrite Hl; apply NoDup_fst_map_to_list).
  assert (∀ c x, (c, x) ∈ l ↔ by_coin_type r !! c = Some x) as Hin.
  { intros c x. rewrite Hl. apply elem_of_map_to_list. }
  assert (NoDup (l.*2)) as Hn2.
  { apply NoDup_fmap_2_strong; [|by apply NoDup_fmap_1 in Hn1].
    intros [c x] [c' x'] H1%Hin H2%Hin Heq. cbn in Heq. subst x'.
    apply Hr in H1, H2. congruence. }
  destruct r as [bc ba]. unfold of_list. f_equal; cbn in *.
  - rewrite (list_to_map_proper l (map_to_list bc)) by done. apply list_to_map_to_list.
  - apply map_eq. intros x. apply option_eq. intros c.
    rewrite <- elem_of_list_to_map by by rewrite fst_swap.
    rewrite list_elem_of_fmap. split.
    + intros ([c' x'] & [= -> ->] & Hy). by apply Hr, Hin.
    + intros Hx. apply Hr, Hin in Hx. by exists (c, x).
Qed.

Section snapshot.
Context `{HexLaws} `{EvmSdkLaws}.
Definition to_text : list byte * EvmAddress → string * string :=
  λ '(coin, token), (hex_encode coin, fmt_evm token).
#[local] Instance hex_encode_inj : Inj (=) (=) hex_encode.
Proof. intros a b He. pose proof (hex_roundtrip a) as Ha. rewrite He, hex_roundtrip in Ha. congruence. Qed.

Lemma absorb_text l k :
  NoDup ((l ++ k).*1) → absorb_entries (to_text <$> l) (of_list k) = Ok (of_list (rev l ++ k)).
Proof.
  revert k. induction l as [|[c x] l IH]; intros k Hn; [done|]. cbn [fmap list_fmap absorb_entries to_text fst snd].
  rewrite hex_roundtrip, evm_roundtrip. cbn. change (NoDup (c :: (l ++ k).*1)) in Hn. apply NoDup_cons in Hn as [Hc Hn].
  rewrite insert_fresh.
  - cbn. rewrite <- app_assoc. apply (IH ((c, x) :: k)). cbn [fst] in Hc.
    rewrite fmap_app in *. cbn. rewrite <- Permutation_middle. by constructor.
  - cbn. apply not_elem_of_list_to_map_1. intros Hk. apply Hc. cbn. rewrite fmap_app.
    by apply elem_of_app; right.
Qed.
Lemma snapshot_entries r :
  ∃ l, entries (snapshot r) = to_text <$> l ∧ l ≡ₚ map_to_list (by_coin_type r).
Proof.
  assert (entries (snapshot r) ≡ₚ to_text <$> map_to_list (by_coin_type r)) as Hp.
  { unfold entries. rewrite merge_sort_Permutation. unfold snapshot. rewrite map_to_list_to_map.
    - apply reflexivity.
    - rewrite <- list_fmap_compose. apply NoDup_fmap_2_strong; [|apply NoDup_map_to_list].
      intros [c x] [c' x'] Ha%elem_of_map_to_list Hb%elem_of_map_to_list Heq. cbn in Heq.
      apply hex_encode_inj in Heq as ->. congruence. }
  apply Permutation_map_inv in Hp as (l & He & Hl). symmetry in Hl.
  by exists l.
Qed.
End snapshot.
End RegistryFacts.

(** The persisted registry reads back as it was.  For a registry in which no
    token serves two coin types (every token the factory creates keeps it so),
    restoring the snapshot gives the registry itself, whatever order the
    snapshot lists its entries in. *)
Theorem registry_snapshot_roundtrip `{HexLaws} `{EvmSdkLaws} (r : TokenRegistry.t) :
  RegistryFacts.wf r → TokenRegistry.from_snapshot (TokenRegistry.snapshot r) = Ok r.
Proof.
  intros Hr. unfold TokenRegistry.from_snapshot. destruct (RegistryFacts.snapshot_entries r) as (l & -> & Hl).
  assert (NoDup (l.*1)) as Hn by (rewrite Hl; apply NoDup_fst_map_to_list).
  change TokenRegistry.empty with (RegistryFacts.of_list []). rewrite RegistryFacts.absorb_text by by rewrite app_nil_r.
  rewrite app_nil_r. f_equal. apply RegistryFacts.of_list_wf; [done|]. by rewrite <- Hl, <- Permutation_rev.
Qed.

(** ** The history scan *)

Lemma fold_creations_app `{Hex} `{Hashes} `{SuiSdk} a b r :
  fold_creations (a ++ b) r = fold_creations b (fold_creations a r).
Proof. revert r. induction a as [|log a IH]; intros r; [done|]. cbn. apply IH. Qed.

Section ScanFacts.
Context {W : Type} `{JsonHttp W} `{Runtime W} `{Hex} `{Hashes} `{EvmSdk} `{SuiSdk}.
(** The factory's creation logs, block by block. *)
Context (l2_rpc : string) (factory : EvmAddress) (logs : N → list RpcLog).

Definition logs_between (from to : N) : list RpcLog :=
  mjoin ((λ i, logs (N.of_nat i)) <$> seq (N.to_nat from) (N.to_nat (to + 1 - from))).
Lemma logs_between_split from mid to :
  from ≤ mid + 1 → mid ≤ to → logs_between from to = logs_between from mid ++ logs_between (mid + 1) to.
Proof.
  intros Hf Ht. unfold logs_between. rewrite <- join_app, <- fmap_app. do 2 f_equal.
  replace (N.to_nat (to + 1 - from)) with (N.to_nat (mid + 1 - from) + N.to_nat (to + 1 - (mid + 1)))%nat by lia.
  rewrite seq_app. do 2 f_equal. lia.
Qed.

(** Any answer the endpoint gives is the range asked for; it may refuse. *)
Definition serves_logs : Prop :=
  ∀ from to w ls w', from ≤ to → is_u64 to →
    eth_get_logs l2_rpc [factory] BRIDGE_CREATED_TOPIC from to w = (Ok ls, w') → ls = logs_between from to.

Definition chunk_bounded (chunk : N) : Prop := 32 ≤ chunk ≤ CREATION_SCAN_CHUNK.
Lemma chunk_halved chunk :
  chunk_bounded chunk → MIN_CREATION_SCAN_CHUNK < chunk → chunk_bounded (chunk / 2) ∧ chunk / 2 < chunk.
Proof.
  unfold chunk_bounded, MIN_CREATION_SCAN_CHUNK. intros [Hl Hu] Hc.
  pose proof (N.div_lt chunk 2). pose proof (N.Div0.div_le_mono 64 chunk 2 ltac:(lia)).
  change (64 / 2) with 32 in *. lia.
Qed.

Lemma scan_creations_ends fuel head from chunk r w :
  serves_logs → head < U64_MAX → from ≤ head + 1 → chunk_bounded chunk →
  (N.to_nat (head + 1 - from) + N.to_nat chunk < fuel)%nat →
  ∃ res w', scan_creations fuel l2_rpc factory head from chunk r w = Some (res, w') ∧
    ∀ r', res = Ok r' → r' = fold_creations (logs_between from head) r.
Proof.
  intros Hserve Hh. revert from chunk r w.
  induction fuel as [|fuel IH]; intros from chunk r w Hf Hc Hfuel; [lia|]. cbn [scan_creations].
  destruct (N.ltb_spec head from) as [Hlt|Hge].
  { eexists _, _. split; [done|]. intros r' [= <-].
    unfold logs_between. by replace (head + 1 - from) with 0 by lia. }
  set (to := N.min (sat_add from (chunk - 1)) head).
  assert (from ≤ to ≤ head) as Hto by (subst to; unfold chunk_bounded in Hc; u64).
  unfold absorb_creations. rewrite run_bind.
  destruct (eth_get_logs _ _ _ _ _ w) as [[ls|e] w'] eqn:Hg; cbn.
  - apply Hserve in Hg as ->; [|lia|u64]. rewrite (wadd_small to 1) by lia.
    assert (∀ c, chunk_bounded c → c ≤ chunk → ∃ res w'0,
      scan_creations fuel l2_rpc factory head (to + 1) c (fold_creations (logs_between from to) r) w'
        = Some (res, w'0) ∧
      ∀ r', res = Ok r' → r' = fold_creations (logs_between from head) r) as Hgo.
    { intros c Hcb Hle. destruct (IH (to + 1) c (fold_creations (logs_between from to) r) w') as (res & w1 & -> & Hr);
        [lia|done|lia|]. eexists _, _. split; [done|]. intros r' Hok. rewrite (Hr r' Hok).
      by rewrite <- fold_creations_app, <- logs_between_split by lia. }
    destruct (_ && _) eqn:Hb; apply Hgo; try done.
    + apply andb_true_iff in Hb as [_ Hb]. by apply chunk_halved; [|apply N.ltb_lt].
    + apply andb_true_iff in Hb as [_ Hb]. apply N.lt_le_incl, chunk_halved; [done|by apply N.ltb_lt].
  - destruct (N.ltb_spec MIN_CREATION_SCAN_CHUNK chunk) as [Hm|Hm]; [|by eexists _, _].
    destruct (chunk_halved chunk Hc Hm) as [Hcb Hl]. apply IH; [done|done|lia].
Qed.
End ScanFacts.

(** C39: The first-start scan of the factory's history ends, and misses nothing.
    Against an endpoint that refuses ranges as it likes but answers truthfully,
    the chunked scan with its halving always terminates within [scan_fuel]
    rounds, and a registry it returns is the fold of every creation log up to
    the head, as one unbounded query would have given. *)
Theorem creation_scan_indexes_history {W} `{JsonHttp W} `{Runtime W} `{Hex} `{Hashes} `{EvmSdk} `{SuiSdk}
    l2_rpc factory logs head (w : W) :
  serves_logs l2_rpc factory logs → head < U64_MAX →
  ∃ res w',
    scan_creations (scan_fuel head) l2_rpc factory head 0 CREATION_SCAN_CHUNK TokenRegistry.empty w
      = Some (res, w') ∧
    ∀ r, res = Ok r → r = fold_creations (logs_between logs 0 head) TokenRegistry.empty.
Proof.
  intros Hs Hh. apply scan_creations_ends; [done|done|lia|unfold chunk_bounded, CREATION_SCAN_CHUNK; lia|].
  unfold scan_fuel. lia.
Qed.

(** One creation, in block 3; ranges of more than a thousand blocks are
    refused. *)
Module ScanDemo.
Import Demo.
Definition hex_address (a : EvmAddress) : string := "0x" +:+ hex_encode (arr_bytes a).
#[local] Instance checksum : EvmSdk := {|
  to_checksum := hex_address;
  fmt_evm := hex_address;
  evm_from_str s := bs ← hex_decode (default s (strip_prefix "0x" s)); ok_or (try_into_array 20 bs) "invalid string length"
|}.
Lemma checksum_laws : EvmSdkLaws.
Proof.
  split. intros a. cbn [evm_from_str fmt_evm checksum]. unfold hex_address.
  rewrite (strip_prefix_app "0x"). change (default ?x (Some ?y)) with y. rewrite hex_roundtrip.
  cbn [mbind result_bind]. by rewrite try_into_array_bytes.
Qed.
#[local] Instance clock : Runtime N := {| now_ms w := w; sleep_ms n w := w + n; shutting_down _ := false |}.
Definition factory : EvmAddress := array_fill 20 x42.
Definition created : Value :=
  VObj [("address", VStr (fmt_evm factory));
        ("topics", VArr [VStr ("0x" +:+ hex_encode BRIDGE_CREATED_TOPIC);
                         VStr ("0x" +:+ hex_encode (replicate 12 x00 ++ replicate 20 x07))]);
        ("data", VStr ("0x" +:+ hex_encode (replicate 31 x00 ++ [x20] ++ replicate 31 x00 ++ [x0d]
                                            ++ string_bytes "0x2::sui::SUI")))].
Definition created_log : RpcLog :=
  match from_value created with Ok l => l | Err _ => mk_log "" [] "" end.
Definition logs (i : N) : list RpcLog := if i =? 3 then [created_log] else [].

Definition quantity (k : string) (v : Value) : N :=
  default 0 (from_str_radix 16 (trim_start_matches "0x" (default "" (as_str (index k v))))).
Definition range_of (body : Value) : Value := default VNull (get_idx 0 (index "params" body)).
Definition answer (f t : N) : Value :=
  if 1000 <? t - f then VObj [("error", VObj [("code", VInt (-32005)); ("message", VStr "range too wide")])]
  else VObj [("result", VArr (if (f <=? 3) && (3 <=? t) then [created] else []))].
#[local] Instance http : JsonHttp N := {|
  json_post _ body w :=
    (Ok (Ok (answer (quantity "fromBlock" (range_of body)) (quantity "toBlock" (range_of body)))), w + 1)
|}.

Lemma logs_in_range n from :
  mjoin ((λ i, logs (N.of_nat i)) <$> seq from n) =
  if (from <=? 3)%nat && (3 <? from + n)%nat then [created_log] else [].
Proof.
  revert from. induction n as [|n IH]; intros from.
  - rewrite Nat.add_0_r. destruct (Nat.leb_spec from 3), (Nat.ltb_spec 3 from); (done || lia).
  - transitivity (logs (N.of_nat from) ++ mjoin ((λ i, logs (N.of_nat i)) <$> seq (S from) n)); [done|]. rewrite IH. unfold logs. destruct (N.eqb_spec (N.of_nat from) 3) as [He|He].
    + replace from with 3%nat by lia. by destruct n.
    + destruct (Nat.leb_spec from 3), (Nat.leb_spec (S from) 3), (Nat.ltb_spec 3 (S from + n)),
        (Nat.ltb_spec 3 (from + S n)); (done || lia).
Qed.
Lemma quantity_of method (o : list (string * Value)) k n :
  is_u64 n → assoc k o = Some (VStr ("0x" +:+ fmt_hex n)) →
  quantity k (range_of (request method [VObj o])) = n.
Proof.
  intros Hn Ho. unfold quantity. change (range_of _) with (VObj o). unfold index, get. rewrite Ho.
  change (default 0 (from_str_radix 16 (trim_start_matches "0x" ("0x" +:+ fmt_hex n))) = n).
  by rewrite hex_qty_roundtrip.
Qed.
Lemma get_logs url f t w :
  is_u64 f → is_u64 t →
  eth_get_logs url [factory] BRIDGE_CREATED_TOPIC f t w =
    (if 1000 <? t - f then Err ["eth_getLogs"; "L2 rpc error -32005: range too wide"]
     else Ok (if (f <=? 3) && (3 <=? t) then [created_log] else []), w + 1).
Proof.
  intros Hf Ht. unfold eth_get_logs. rewrite run_bind.
  match goal with |- context [lift ?r w] => change (lift r w) with (@Ok anyhow unit tt, w) end. cbv beta iota.
  unfold contextM, rpc_call, errM at 1. rewrite run_bind. unfold contextM, errM. cbn [json_post http].
  rewrite (quantity_of _ _ "fromBlock" f), (quantity_of _ _ "toBlock" t) by done.
  unfold answer. destruct (_ <? _); [by vm_compute|]. destruct (_ && _); by vm_compute.
Qed.
Lemma serves : serves_logs "http://l2" factory logs.
Proof.
  intros f t w ls w' Hle Ht. rewrite get_logs by (done || u64).
  destruct (_ <? _); [done|]. intros [= <- _]. unfold logs_between. rewrite logs_in_range.
  destruct (N.leb_spec f 3), (N.leb_spec 3 t), (Nat.leb_spec (N.to_nat f) 3),
    (Nat.ltb_spec 3 (N.to_nat f + N.to_nat (t + 1 - f))); (done || lia).
Qed.

Definition scanned : option (result anyhow TokenRegistry.t * N) :=
  scan_creations (scan_fuel 3000) "http://l2" factory 3000 0 CREATION_SCAN_CHUNK TokenRegistry.empty 0.
Definition found (o : option (result anyhow TokenRegistry.t * N)) : option (result anyhow N) :=
  match o with
  | Some (Ok r, _) => Some (Ok (TokenRegistry.len r))
  | Some (Err e, _) => Some (Err e)
  | None => None
  end.
Lemma scan_finds : found scanned = Some (Ok 1).
Proof. by vm_compute. Qed.
Definition one_token : TokenRegistry.t :=
  (TokenRegistry.insert (string_bytes "2::sui::SUI") (array_fill 20 x07) TokenRegistry.empty).2.
Definition restored : result anyhow TokenRegistry.t :=
  TokenRegistry.from_snapshot (TokenRegistry.snapshot one_token).
Definition expected : TokenRegistry.t := fold_creations (logs_between logs 0 3000) TokenRegistry.empty.
End ScanDemo.

Lemma registry_snapshot_roundtrip_witness :
  TokenRegistry.len ScanDemo.one_token = 1 ∧ ScanDemo.restored = Ok ScanDemo.one_token.
Proof.
  split; [by vm_compute|].
  apply (@registry_snapshot_roundtrip Demo.hex Demo.hex_laws ScanDemo.checksum ScanDemo.checksum_laws).
  apply RegistryFacts.insert_wf; [exact RegistryFacts.wf_empty|by left].
Defined.
Lemma creation_scan_indexes_history_witness :
  ScanDemo.found ScanDemo.scanned = Some (Ok 1) ∧
  ∃ res w', ScanDemo.scanned = Some (res, w') ∧
    ∀ r, res = Ok r → r = ScanDemo.expected.
Proof.
  split; [exact ScanDemo.scan_finds|].
  exact (@creation_scan_indexes_history N ScanDemo.http ScanDemo.clock Demo.hex Demo.hashes ScanDemo.checksum
           Demo.sui "http://l2" ScanDemo.factory ScanDemo.logs 3000 0 ScanDemo.serves eq_refl).
Defined.
