(* ===== verification/Relay.v ===== *)
(** The deposit relay of [Bridge] against the token contract
    ([solidity/src/Bridge.sol]), over an L2 that runs transactions late, drops
    them or loses the answers. *)

From S2P Require Import Prelude Text Codec Disk Core Wire Contract Sui L2Rpc Vault Bridge.
Local Open Scope string_scope.
Local Open Scope list_scope.
Local Open Scope N_scope.

(** ** The token contract *)

Module L2Token.
Definition ZERO_ADDRESS : EvmAddress := array_fill 20 x00.
Definition UINT256_MAX : N := 2 ^ 256 - 1.
Record t := mk {
  total_supply : N;
  balance_of : gmap EvmAddress N;
  last_minted : N;
  minted_any : bool;
  last_withdrawal : N
}.
Definition fresh : t := mk 0 ∅ 0 false 0.

(** [mint] by the relayer; [None] is a revert (a failed [require] or checked
    arithmetic). *)
Definition mint (k : t) (recipient : EvmAddress) (amount nonce : N) : option t :=
  if negb (if minted_any k then last_minted k <? nonce else nonce =? 0) then None
  else if bool_decide (recipient = ZERO_ADDRESS) then None
  else
    let balance := default 0 (balance_of k !! recipient) + amount in
    if (UINT256_MAX <? total_supply k + amount) || (UINT256_MAX <? balance) then None
    else Some (mk (total_supply k + amount) (<[recipient := balance]> (balance_of k)) nonce true
                 (last_withdrawal k)).

(** [initiateWithdrawal] by [sender]; the nonce of the event it emits. *)
Definition initiate_withdrawal (k : t) (sender : EvmAddress) (sui_recipient : array 32) (amount : N)
    : option (N * t) :=
  if negb (0 <? amount) || bool_decide (sui_recipient = array_fill 32 x00) then None
  else
    let balance := default 0 (balance_of k !! sender) in
    if negb (amount <=? balance) then None
    else
      let nonce := last_withdrawal k + 1 in
      if U64_MAX <? nonce then None
      else Some (nonce, mk (total_supply k - amount) (<[sender := balance - amount]> (balance_of k))
                          (last_minted k) (minted_any k) nonce).
End L2Token.

(** ** An L2 with a transaction pool *)

(** Tokens are named by their coin type. *)
Record mint_tx := mk_tx {
  tx_id : nat; tx_coin : list byte; tx_nonce : N; tx_recipient : EvmAddress; tx_amount : N
}.
#[global] Instance mint_tx_eq_dec : EqDecision mint_tx.
Proof. solve_decision. Defined.
(** What was minted: coin, nonce, recipient, amount. *)
Record minted := mk_minted {
  m_coin : list byte; m_nonce : N; m_recipient : EvmAddress; m_amount : N
}.

(** The oldest pooled transaction runs, or disappears; a holder burns. *)
Inductive pool_event :=
| Run | Drop
| Burn (coin : list byte) (sender : EvmAddress) (sui_recipient : array 32) (amount : N).
(** How a request is answered: fully, without the last nonce (a failed inner
    call), or not at all. *)
Inductive reply := Full | NoLast | Lost.
(** What happens before and during one request: pool events, the vault's
    counter as read, the answer. *)
Record step := mk_step { st_events : list pool_event; st_latest : N; st_reply : reply }.

Record l2 := mk_l2 {
  tokens : gmap (list byte) L2Token.t;
  pool : list mint_tx;
  succeeded : list mint_tx;
  mints : list minted;
  next_id : nat;
  cursor : N;
  saved : N;
  saves : list bool;
  script : list step
}.
Definition l2_init (saves : list bool) (script : list step) : l2 :=
  mk_l2 ∅ [] [] [] 0 0 0 saves script.

Definition token_of (s : l2) (coin : list byte) : L2Token.t := default L2Token.fresh (tokens s !! coin).

Definition pop_tx (s : l2) : l2 :=
  mk_l2 (tokens s) (tail (pool s)) (succeeded s) (mints s) (next_id s) (cursor s) (saved s) (saves s)
    (script s).
Definition execute (tx : mint_tx) (s : l2) : l2 :=
  match L2Token.mint (token_of s (tx_coin tx)) (tx_recipient tx) (tx_amount tx) (tx_nonce tx) with
  | None => s
  | Some k =>
      mk_l2 (<[tx_coin tx := k]> (tokens s)) (pool s) (tx :: succeeded s)
        (mints s ++ [mk_minted (tx_coin tx) (tx_nonce tx) (tx_recipient tx) (tx_amount tx)])
        (next_id s) (cursor s) (saved s) (saves s) (script s)
  end.
Definition burn (coin : list byte) (sender : EvmAddress) (to : array 32) (amount : N) (s : l2) : l2 :=
  match L2Token.initiate_withdrawal (token_of s coin) sender to amount with
  | None => s
  | Some (_, k) =>
      mk_l2 (<[coin := k]> (tokens s)) (pool s) (succeeded s) (mints s) (next_id s) (cursor s) (saved s)
        (saves s) (script s)
  end.
Definition on_event (s : l2) (e : pool_event) : l2 :=
  match e, pool s with
  | Run, tx :: _ => execute tx (pop_tx s)
  | Drop, _ => pop_tx s
  | Burn coin sender to amount, _ => burn coin sender to amount s
  | _, _ => s
  end.
Definition next_step (s : l2) : step := default (mk_step [] 0 Full) (head (script s)).
Definition advance (s : l2) : l2 :=
  let s' := foldl on_event s (st_events (next_step s)) in
  mk_l2 (tokens s') (pool s') (succeeded s') (mints s') (next_id s') (cursor s') (saved s') (saves s')
    (tail (script s')).
Definition submit (coin : list byte) (nonce : N) (r : EvmAddress) (amount : N) (s : l2) : l2 :=
  mk_l2 (tokens s) (pool s ++ [mk_tx (next_id s) coin nonce r amount]) (succeeded s) (mints s)
    (Datatypes.S (next_id s)) (cursor s) (saved s) (saves s) (script s).

(** A request: the world moves, then the answer is given or lost. *)
Definition ask {E A} (lost : E) (answer : reply → l2 → A) : M l2 E A := λ s,
  let s' := advance s in
  match st_reply (next_step s) with
  | Lost => (Err lost, s')
  | r => (Ok (answer r s'), s')
  end.

Section Relay.
Context (ds : list DepositRecord).

#[local] Instance l2_vault : VaultReads l2 := {|
  read_vault := λ s,
    ask (BRpc "unavailable")
      (λ _ _, mk_vault_status (st_latest (next_step s)) 0 (array_fill 32 x00)) s;
  read_deposit n := ask (BRpc "unavailable") (λ _ _, ds !! N.to_nat n)
|}.
#[local] Instance l2_tokens : TokenOps l2 (list byte) := {|
  resolve_token coin := ask ["unavailable"] (λ _ _, coin);
  mint_cursor coin := ask ["unavailable"] (λ r s,
    let k := token_of s coin in
    (L2Token.minted_any k, match r with NoLast => 0 | _ => L2Token.last_minted k end));
  mint coin nonce recipient amount := λ s,
    match try_into_array 20 recipient with
    | None => (Err ["deposit recipient_l2 is not 20 bytes"], s)
    | Some r =>
        let tx := mk_tx (next_id s) coin nonce r amount in
        match ask ["no receipt"] (λ _ s', bool_decide (tx ∈ succeeded s')) (submit coin nonce r amount s) with
        | (Ok true, s') => (Ok tt, s')
        | (Ok false, s') => (Err ["tx reverted on L2"], s')
        | (Err e, s') => (Err e, s')
        end
    end
|}.
(** Writing the cursor file may fail. *)
#[local] Instance l2_cursor : DepositCursor l2 := {|
  get_cursor := cursor;
  set_cursor n s :=
    mk_l2 (tokens s) (pool s) (succeeded s) (mints s) (next_id s) n
      (if default true (head (saves s)) then n else saved s) (tail (saves s)) (script s)
|}.

Definition relay (s : l2) : l2 := (relay_deposits (T := list byte) s).2.

(** A restart reads the saved cursor, or starts over when the file is
    unreadable. *)
Definition restart (readable : bool) (s : l2) : l2 :=
  mk_l2 (tokens s) (pool s) (succeeded s) (mints s) (next_id s) (if readable then saved s else 0)
    (saved s) (saves s) (script s).

Inductive reachable : l2 → Prop :=
| reach_init saves script : reachable (l2_init saves script)
| reach_relay s : reachable s → reachable (relay s)
| reach_restart b s : reachable s → reachable (restart b s).

(** *** What the invariant says *)

(** The mint deposit [i] asks for. *)
Definition mint_of (i : nat) (d : DepositRecord) : option minted :=
  r ← try_into_array 20 (recipient_l2 d);
  Some (mk_minted (coin_type d) (N.of_nat i) r (amount d)).
(** The first [n] mints. *)
Definition mints_upto (n : nat) : list (option minted) := imap mint_of (take n ds).

(** The token contract can never mint deposit [k]: its recipient is the zero
    address, or it is the first of its coin and not deposit 0. *)
Definition unmintable (k : nat) : bool :=
  match ds !! k with
  | None => false
  | Some d =>
      bool_decide (recipient_l2 d = arr_bytes L2Token.ZERO_ADDRESS)
      || (negb (Nat.eqb k 0) && forallb (λ d', negb (bool_decide (coin_type d' = coin_type d))) (take k ds))
  end.

(** A token's state after the first [n] mints. *)
Record token_inv (n : nat) (coin : list byte) (k : L2Token.t) : Prop := mk_token_inv {
  ti_last : ∀ i d, (i < n)%nat → ds !! i = Some d → coin_type d = coin →
            L2Token.minted_any k = true ∧ N.of_nat i ≤ L2Token.last_minted k;
  ti_any : L2Token.minted_any k = true →
           L2Token.last_minted k < N.of_nat n ∧ ∃ i d, (i < n)%nat ∧ ds !! i = Some d ∧ coin_type d = coin;
  ti_supply : L2Token.total_supply k ≤ VaultFacts.taken coin (take n ds);
  ti_balance : ∀ r, default 0 (L2Token.balance_of k !! r) ≤ VaultFacts.taken coin (take n ds)
}.
(** A transaction asks for the mint of a deposit that has none yet to wait
    for. *)
Definition tx_ok (n : nat) (tx : mint_tx) : Prop :=
  tx_nonce tx ≤ N.of_nat n ∧
  ∃ d, ds !! N.to_nat (tx_nonce tx) = Some d ∧
       mint_of (N.to_nat (tx_nonce tx)) d =
         Some (mk_minted (tx_coin tx) (tx_nonce tx) (tx_recipient tx) (tx_amount tx)).
Record inv (s : l2) : Prop := mk_inv {
  i_mints : Some <$> mints s = mints_upto (length (mints s));
  i_tokens : ∀ coin, token_inv (length (mints s)) coin (token_of s coin);
  i_pool : Forall (tx_ok (length (mints s))) (pool s);
  i_done : Forall (λ tx, tx_nonce tx < N.of_nat (length (mints s))) (succeeded s);
  i_cursor : cursor s ≤ N.of_nat (length (mints s));
  i_saved : saved s ≤ N.of_nat (length (mints s));
  i_mintable : ∀ i, (i < length (mints s))%nat → unmintable i = false
}.

(** *** Preservation *)

Lemma taken_take n coin d :
  ds !! n = Some d →
  VaultFacts.taken coin (take (S n) ds) =
  VaultFacts.taken coin (take n ds) + (if bool_decide (coin_type d = coin) then amount d else 0).
Proof. intros H. rewrite (take_S_r _ _ _ H). apply VaultFacts.taken_snoc. Qed.

Lemma mints_upto_S n d :
  ds !! n = Some d → mints_upto (S n) = mints_upto n ++ [mint_of n d].
Proof.
  intros H. unfold mints_upto. rewrite (take_S_r _ _ _ H), imap_app. cbn.
  rewrite Nat.add_0_r, length_take_le; [done|]. apply lookup_lt_Some in H. lia.
Qed.

(** A mint goes to the next deposit, or the token refuses it as stale. *)
Lemma token_fresh_nonce n coin k d i :
  token_inv n coin k → ds !! i = Some d → coin_type d = coin → (i < n)%nat →
  (if L2Token.minted_any k then L2Token.last_minted k <? N.of_nat i else N.of_nat i =? 0) = false.
Proof. intros Hk Hd Hc Hi. destruct (ti_last _ _ _ Hk i d Hi Hd Hc) as [-> Hl]. apply N.ltb_ge. lia. Qed.

Lemma mint_token_inv n coin k d r k' :
  token_inv n coin k → ds !! n = Some d → coin_type d = coin →
  L2Token.mint k r (amount d) (N.of_nat n) = Some k' → token_inv (S n) coin k'.
Proof.
  intros Hk Hd Hc. unfold L2Token.mint. destruct (negb _) eqn:Hn; [done|]. case_bool_decide; [done|].
  destruct (_ || _); [done|]. intros [= <-]. split; cbn.
  - intros i d' Hi Hd' Hc'. split; [done|lia].
  - intros _. split; [lia|]. exists n, d. split_and!; [lia|done|done].
  - rewrite (taken_take _ _ _ Hd), bool_decide_true by done. pose proof (ti_supply _ _ _ Hk). lia.
  - intros x. rewrite (taken_take _ _ _ Hd), bool_decide_true by done.
    destruct (decide (r = x)) as [->|Hne]; [rewrite lookup_insert_eq|rewrite lookup_insert_ne by done];
      pose proof (ti_balance _ _ _ Hk x); cbn; lia.
Qed.
Lemma other_token_inv n coin k d :
  token_inv n coin k → ds !! n = Some d → coin_type d ≠ coin → token_inv (S n) coin k.
Proof.
  intros [Hl Ha Hs Hb] Hd Hc. split.
  - intros i d' Hi Hd' Hc'. destruct (decide (i = n)) as [->|Hne]; [congruence|].
    apply (Hl i d'); [lia|done|done].
  - intros Hm. destruct (Ha Hm) as [? (i & d' & ? & ? & ?)]. split; [lia|]. exists i, d'. split_and!; [lia|done|done].
  - rewrite (taken_take _ _ _ Hd), bool_decide_false by done. lia.
  - intros x. rewrite (taken_take _ _ _ Hd), bool_decide_false by done. specialize (Hb x). lia.
Qed.
Lemma tx_ok_mono n m tx : (n ≤ m)%nat → tx_ok n tx → tx_ok m tx.
Proof. intros H [Hn Hd]. split; [lia|done]. Qed.

(** What a transaction's token contract allows, the deposit is mintable. *)
Lemma mint_mintable n coin k d r k' :
  token_inv n coin k → ds !! n = Some d → coin_type d = coin → try_into_array 20 (recipient_l2 d) = Some r →
  L2Token.mint k r (amount d) (N.of_nat n) = Some k' → unmintable n = false.
Proof.
  intros Hk Hd Hc Hr. unfold L2Token.mint, unmintable. rewrite Hd.
  destruct (negb _) eqn:Hn; [done|]. case_bool_decide as Hz; [done|]. intros _.
  apply orb_false_iff. split.
  - apply bool_decide_false. intros He. apply Hz, array_eq.
    apply try_into_array_Some in Hr. congruence.
  - destruct (L2Token.minted_any k) eqn:Hm.
    + destruct (ti_any _ _ _ Hk Hm) as [_ (i & d' & Hi & Hd' & Hc')].
      apply andb_false_iff. right. apply not_true_iff_false. rewrite forallb_forall. intros Hf.
      assert (In d' (take n ds)) as Hin.
      { apply list_elem_of_In, list_elem_of_lookup. exists i. by rewrite lookup_take_lt. }
      specialize (Hf d' Hin). apply negb_true_iff, bool_decide_eq_false in Hf. congruence.
    + apply negb_false_iff, N.eqb_eq in Hn. destruct n; [done|lia].
Qed.

Lemma execute_inv tx s : inv s → tx_ok (length (mints s)) tx → inv (execute tx s).
Proof.
  intros Hs [Hle (d & Hd & Hm)]. unfold execute. destruct (L2Token.mint _ _ _ _) as [k|] eqn:Hk; [|done].
  unfold mint_of in Hm. destruct (try_into_array 20 (recipient_l2 d)) as [r|] eqn:Hr; [|done].
  cbn in Hm. injection Hm as Hcoin _ Hrec Ham. rewrite <- Hcoin, <- Hrec, <- Ham in *.
  destruct (decide (N.to_nat (tx_nonce tx) < length (mints s))%nat) as [Hlt|Hge].
  { unfold L2Token.mint in Hk. rewrite <- (N2Nat.id (tx_nonce tx)) in Hk.
    by rewrite (token_fresh_nonce _ _ _ _ _ (i_tokens s Hs _) Hd eq_refl Hlt) in Hk. }
  assert (tx_nonce tx = N.of_nat (length (mints s))) as Hn by lia.
  rewrite Hn, Nat2N.id in Hd. rewrite Hn in Hk.
  pose proof (i_tokens s Hs) as Htok.
  split; cbn; rewrite ?length_app; cbn; replace (length (mints s) + 1)%nat with (S (length (mints s))) by lia.
  - rewrite fmap_app, (i_mints s Hs). fold (mints_upto (S (length (mints s)))).
    rewrite (mints_upto_S _ _ Hd). f_equal. cbn. unfold mint_of. rewrite Hr. cbn.
    by rewrite Hn.
  - intros coin. unfold token_of. cbn. destruct (decide (coin_type d = coin)) as [<-|Hne].
    + rewrite lookup_insert_eq. cbn. by eapply mint_token_inv.
    + rewrite lookup_insert_ne by done. by eapply other_token_inv.
  - eapply Forall_impl; [apply (i_pool s Hs)|]. intros tx'. apply tx_ok_mono. lia.
  - constructor; [rewrite Hn; lia|]. eapply Forall_impl; [apply (i_done s Hs)|]. cbn. intros tx' ?. lia.
  - pose proof (i_cursor s Hs). lia.
  - pose proof (i_saved s Hs). lia.
  - intros i Hi. destruct (decide (i = length (mints s))) as [->|Hne].
    + exact (mint_mintable _ _ _ _ _ _ (Htok _) Hd eq_refl Hr Hk).
    + apply (i_mintable s Hs). lia.
Qed.

Lemma pop_inv s : inv s → inv (pop_tx s).
Proof. intros [? ? Hp]. split; cbn; try done. destruct Hp; [constructor|done]. Qed.
Lemma burn_inv coin sender to amount s : inv s → inv (burn coin sender to amount s).
Proof.
  intros Hs. unfold burn. destruct (L2Token.initiate_withdrawal _ _ _ _) as [[n k]|] eqn:Hk; [|done].
  unfold L2Token.initiate_withdrawal in Hk. repeat (case_match; [done|]).
  injection Hk as _ <-. destruct Hs as [? Ht]. split; cbn; try done.
  intros c. unfold token_of. cbn. destruct (decide (coin = c)) as [->|Hne].
  - rewrite lookup_insert_eq. cbn. destruct (Ht c) as [Hl Ha Hs Hb]. unfold token_of in *.
    split; cbn; [done|done|lia|]. intros x. pose proof (Hb x). pose proof (Hb sender).
    destruct (decide (sender = x)) as [->|Hne]; [rewrite lookup_insert_eq|rewrite lookup_insert_ne by done];
      cbn; lia.
  - rewrite lookup_insert_ne by done. apply Ht.
Qed.

Definition grows (s s' : l2) : Prop := inv s' ∧ (length (mints s) ≤ length (mints s'))%nat ∧ cursor s' = cursor s.
Lemma on_event_grows e s : inv s → grows s (on_event s e).
Proof.
  intros Hs. unfold on_event. destruct e as [| |coin sender to amount].
  - destruct (pool s) as [|tx p] eqn:Hp; [by split|].
    assert (tx_ok (length (mints s)) tx) as Htx.
    { pose proof (i_pool s Hs) as H. rewrite Hp in H. by inversion H. }
    split; [apply execute_inv; [by apply pop_inv|done]|].
    unfold execute. case_match; cbn; rewrite ?length_app; split; (done || lia).
  - split; [|by destruct (pool s)]. destruct (pool s); by apply pop_inv.
  - assert (∀ s', s' = burn coin sender to amount s → grows s s') as Hb.
    { intros s' ->. split; [by apply burn_inv|]. unfold burn. repeat case_match; split; (done || cbn; lia). }
    apply Hb. by destruct (pool s).
Qed.
Lemma mints_grow_trans a b c : grows a b → grows b c → grows a c.
Proof. intros (_ & ? & ?) (? & ? & ?). split_and!; [done|lia|congruence]. Qed.
Lemma events_grow es s : inv s → grows s (foldl on_event s es).
Proof.
  revert s. induction es as [|e es IH]; intros s Hs; [by split|]. cbn.
  pose proof (on_event_grows e s Hs) as Hg. eapply mints_grow_trans; [exact Hg|]. apply IH, Hg.
Qed.
Lemma pool_advance_grows s : inv s → grows s (advance s).
Proof.
  intros Hs. destruct (events_grow (st_events (next_step s)) s Hs) as ([] & ? & ?).
  split; [by split|done].
Qed.

(** *** The relayer *)

Definition at_cursor (n : N) (s : l2) : Prop := inv s ∧ cursor s = n.
#[local] Existing Instance l2_vault.
#[local] Existing Instance l2_tokens.
#[local] Existing Instance l2_cursor.

Lemma ask_at {A E} n (lost : E) (answer : reply → l2 → A) :
  triple (at_cursor n) (ask lost answer) (λ a s, at_cursor n s ∧ ∃ r, a = answer r s) (at_cursor n).
Proof.
  intros s [Hs <-]. destruct (pool_advance_grows s Hs) as (Hi & _ & Hc). unfold ask.
  destruct (st_reply (next_step s)); split; try done; by eexists.
Qed.

Lemma submit_inv n d r s :
  at_cursor n s → ds !! N.to_nat n = Some d → try_into_array 20 (recipient_l2 d) = Some r →
  at_cursor n (submit (coin_type d) n r (amount d) s).
Proof.
  intros [Hs <-] Hd Hr. split; [|done]. pose proof (i_cursor s Hs). destruct Hs. split; cbn; try done.
  apply Forall_app. split; [done|]. constructor; [|done]. split; [done|]. exists d. split; [done|].
  unfold mint_of. by rewrite Hr, N2Nat.id.
Qed.

(** A receipt means the nonce is minted. *)
Lemma mint_at n d :
  ds !! N.to_nat n = Some d →
  triple (at_cursor n) (mint (coin_type d) n (recipient_l2 d) (amount d))
    (λ _ s, at_cursor n s ∧ n < N.of_nat (length (mints s))) (at_cursor n).
Proof.
  intros Hd s Hs. cbn. destruct (try_into_array 20 (recipient_l2 d)) as [r|] eqn:Hr; [|done].
  pose proof (submit_inv _ _ _ _ Hs Hd Hr) as Hsub.
  match goal with |- context [ask ?l ?a ?x] => pose proof (ask_at n l a x Hsub) as Ha; destruct (ask l a x) as [[[]|] s'] end;
    cbn in Ha; [|by destruct Ha|done].
  destruct Ha as [Hi [_ Hin]]. symmetry in Hin. apply bool_decide_eq_true in Hin. split; [done|].
  destruct Hi as [Hi _]. exact (proj1 (Forall_forall _ _) (i_done s' Hi) _ Hin).
Qed.

(** The replay guard only skips minted nonces. *)
Lemma mint_cursor_at n d :
  ds !! N.to_nat n = Some d →
  triple (at_cursor n) (mint_cursor (coin_type d))
    (λ c s, at_cursor n s ∧ (c.1 && (n <=? c.2) = true → n < N.of_nat (length (mints s)))) (at_cursor n).
Proof.
  intros Hd. eapply triple_weaken; [apply ask_at|done| |done].
  intros c s [Hs [r ->]]. split; [done|]. intros [Hm Hl]%andb_true_iff. apply N.leb_le in Hl.
  destruct Hs as [Hs _]. destruct (ti_any _ _ _ (i_tokens s Hs _) Hm) as [Hlt (i & d' & Hi & _)].
  destruct r; cbn in Hl; lia.
Qed.

Lemma relay_one_inv n : triple (at_cursor n) (relay_one n) (λ _, inv) inv.
Proof.
  assert (∀ s, at_cursor n s → inv s) as Hw by by intros s [].
  unfold relay_one. eapply triple_bind; [eapply triple_try; apply ask_at|].
  intros [[d|]|]; [|apply triple_ret; intros s [Hs _]; by apply Hw|by apply triple_ret].
  apply (triple_pre _ (λ s, at_cursor n s ∧ ds !! N.to_nat n = Some d)); [by intros s [Hs [_ ->]]|].
  apply triple_pure. intros Hd.
  eapply triple_bind; [eapply triple_try; apply ask_at|].
  intros [coin|]; [|by apply triple_ret].
  apply (triple_pre _ (λ s, at_cursor n s ∧ coin = coin_type d)); [by intros s [Hs [_ ->]]|].
  apply triple_pure. intros ->.
  eapply triple_bind; [eapply triple_try; apply mint_cursor_at, Hd|].
  intros c. apply (triple_pre _ (λ s, at_cursor n s ∧ ∀ c', c = Ok c' → c'.1 && (n <=? c'.2) = true →
      n < N.of_nat (length (mints s)))).
  { intros s Hs. destruct c; [destruct Hs as [? Hc]; split; [done|]; by intros ? [= <-]|by split]. }
  destruct (match c with Ok c => c | Err _ => (false, 0) end) as [any last] eqn:Hc.
  apply (triple_bind _ _ (λ b s, at_cursor n s ∧ (b = true → n < N.of_nat (length (mints s))))).
  - destruct (any && (n <=? last)) eqn:Hg.
    + apply triple_ret. intros s [Hs Hp]. split; [done|]. intros _. destruct c as [c'|]; [subst c'|].
      * by eapply Hp.
      * injection Hc as <- <-. done.
    + apply (triple_pre _ (at_cursor n)); [by intros ? []|].
      eapply triple_bind; [eapply triple_try; apply mint_at, Hd|].
      intros [[]|]; apply triple_ret; intros s Hs; cbn; [|by split]. destruct Hs. by split.
  - intros []; [|apply triple_ret; intros s [[Hs _] _]; exact Hs].
    apply (triple_bind _ _ (λ _, inv)); [apply triple_mod|intros []; by apply triple_ret].
    intros s [[Hs _] Hl]. specialize (Hl eq_refl). pose proof (i_saved s Hs). destruct Hs.
    split; cbn; try done; [lia|]. destruct (default true _); lia.
Qed.

Lemma relay_rounds_inv k latest : triple inv (relay_rounds (T := list byte) k latest) (λ _, inv) inv.
Proof.
  induction k as [|k IH]; [by apply triple_ret|]. intros s Hs. cbn [relay_rounds].
  rewrite run_bind. unfold getM at 1. destruct (_ <=? _); [done|].
  revert s Hs. assert (∀ s, inv s → triple (at_cursor (cursor s))
    (relay_one (T := list byte) (cursor s) ≫= λ go : bool, if go then relay_rounds (T := list byte) k latest else mret tt)
    (λ _, inv) inv) as Hgo; [|intros s Hs; by apply (Hgo s Hs s)].
  intros s Hs. eapply triple_bind; [apply relay_one_inv|]. intros []; [exact IH|by apply triple_ret].
Qed.
Lemma read_vault_inv : triple inv read_vault (λ _, inv) inv.
Proof.
  intros s Hs. cbn. unfold ask. destruct (pool_advance_grows s Hs) as (Hi & _). by destruct (st_reply _).
Qed.
Lemma relay_inv s : inv s → inv (relay s).
Proof.
  intros Hs. unfold relay.
  assert (triple inv (relay_deposits (T := list byte)) (λ _, inv) inv) as Ht.
  { unfold relay_deposits. eapply triple_bind; [eapply triple_try; apply read_vault_inv|].
    intros [st|]; [|by apply triple_ret].
    apply (triple_bind _ _ (λ _, inv)); [by apply triple_get|]. intros w. apply relay_rounds_inv. }
  specialize (Ht s Hs). by destruct (relay_deposits s) as [[]].
Qed.

Lemma relay_reachable_inv s : reachable s → inv s.
Proof.
  induction 1 as [saves script|s _ IH|b s _ IH].
  - split; cbn; try done; try lia. intros coin. unfold token_of; cbn; rewrite lookup_empty. split; cbn; [lia|done|lia|].
    intros r. rewrite lookup_empty. cbn. lia.
  - by apply relay_inv.
  - pose proof (i_saved s IH). destruct IH. split; cbn; try done. destruct b; [done|lia].
Qed.

(** *** A quiet network *)

(** Each request runs [m] pooled transactions and is answered; the vault's
    counter stays at [latest]. *)
Definition quiet (m : nat) (latest : N) (k : nat) : list step :=
  repeat (mk_step (repeat Run m) latest Full) k.
(** The relay can mint deposit [i]. *)
Definition mintable (i : nat) : bool :=
  match ds !! i with
  | Some d => bool_decide (length (recipient_l2 d) = 20%nat) && negb (unmintable i)
  | None => false
  end.
Definition calm (m : nat) (latest : N) (j : nat) (s : l2) : Prop :=
  inv s ∧ pool s = [] ∧ script s = quiet m latest j.
Definition tick (s : l2) : l2 :=
  mk_l2 (tokens s) (pool s) (succeeded s) (mints s) (next_id s) (cursor s) (saved s) (saves s)
    (tail (script s)).

Lemma run_empty m s : pool s = [] → foldl on_event s (repeat Run m) = s.
Proof. intros Hp. induction m as [|m IH]; [done|]. cbn. by rewrite Hp. Qed.
Lemma pool_execute tx s : pool (execute tx s) = pool s.
Proof. unfold execute. by case_match. Qed.
Lemma run_drains m s : (length (pool s) ≤ m)%nat → pool (foldl on_event s (repeat Run m)) = [].
Proof.
  revert s. induction m as [|m IH]; intros s Hm; cbn; [destruct (pool s); [done|cbn in Hm; lia]|].
  apply IH. destruct (pool s) as [|tx p] eqn:Hp; [rewrite Hp; cbn; lia|].
  rewrite pool_execute. cbn. rewrite Hp. cbn in *. lia.
Qed.
Lemma calm_ask {E A} m latest j s (lost : E) (answer : reply → l2 → A) :
  calm m latest (S j) s → ask lost answer s = (Ok (answer Full (tick s)), tick s) ∧ calm m latest j (tick s).
Proof.
  intros (Hi & Hp & Hs). unfold ask, advance, next_step. rewrite Hs. cbn.
  rewrite (run_empty _ _ Hp). split; [done|]. split_and!; [by destruct Hi|done|cbn; by rewrite Hs].
Qed.

Context (latest : N) (m : nat).
Context (Hm : (1 ≤ m)%nat) (Hsum : ∀ coin, VaultFacts.taken coin ds ≤ L2Token.UINT256_MAX).
Context (Hmint : ∀ i, N.of_nat i < latest → mintable i = true).

Lemma mintable_deposit n : n < latest → ∃ d r,
  ds !! N.to_nat n = Some d ∧ try_into_array 20 (recipient_l2 d) = Some r ∧ unmintable (N.to_nat n) = false.
Proof.
  intros Hn. specialize (Hmint (N.to_nat n)). unfold mintable in Hmint. rewrite N2Nat.id in Hmint.
  specialize (Hmint Hn). destruct (ds !! N.to_nat n) as [d|]; [|done].
  apply andb_true_iff in Hmint as [Hl Hu]. apply bool_decide_eq_true in Hl. apply negb_true_iff in Hu.
  destruct (try_into_array 20 (recipient_l2 d)) as [r|] eqn:Hr; [by exists d, r|].
  by apply try_into_array_None in Hr.
Qed.

(** The contract accepts the next deposit. *)
Lemma mint_accepted s n d r :
  inv s → n = N.of_nat (length (mints s)) → ds !! N.to_nat n = Some d →
  try_into_array 20 (recipient_l2 d) = Some r → unmintable (N.to_nat n) = false →
  is_Some (L2Token.mint (token_of s (coin_type d)) r (amount d) n).
Proof.
  intros Hs -> Hd Hr Hu. rewrite Nat2N.id in *. unfold unmintable in Hu. rewrite Hd in Hu.
  apply orb_false_iff in Hu as [Hz Hf]. apply bool_decide_eq_false in Hz.
  pose proof (i_tokens s Hs (coin_type d)) as Ht. unfold L2Token.mint.
  destruct (if L2Token.minted_any _ then _ else _) eqn:Hn; cbn.
  2: { destruct (L2Token.minted_any _) eqn:Ha.
       { destruct (ti_any _ _ _ Ht Ha) as [Hl _]. apply N.ltb_ge in Hn. lia. }
       exfalso. apply N.eqb_neq in Hn. apply andb_false_iff in Hf as [Hf|Hf].
       { apply negb_false_iff, Nat.eqb_eq in Hf. lia. }
       apply not_true_iff_false in Hf. apply Hf, forallb_forall. intros d' Hin.
       apply negb_true_iff, bool_decide_eq_false. intros Hc.
       apply list_elem_of_In, list_elem_of_lookup in Hin as [i Hi]. apply lookup_take_Some in Hi as [Hi Hlt].
       destruct (ti_last _ _ _ Ht i d' Hlt Hi Hc). congruence. }
  rewrite bool_decide_false by (intros ->; apply Hz; by apply try_into_array_Some in Hr).
  assert (VaultFacts.taken (coin_type d) (take (S (length (mints s))) ds) ≤ L2Token.UINT256_MAX) as Hle.
  { etransitivity; [|apply (Hsum (coin_type d))]. rewrite <- (take_drop (S (length (mints s))) ds) at 2.
    unfold VaultFacts.taken. rewrite filter_app, fmap_app, VaultFacts.sum_list_app. lia. }
  rewrite (taken_take _ _ _ Hd), bool_decide_true in Hle by done.
  pose proof (ti_supply _ _ _ Ht). pose proof (ti_balance _ _ _ Ht r).
  destruct (_ || _) eqn:Ho; [|by eexists].
  apply orb_true_iff in Ho as [Ho|Ho]; apply N.ltb_lt in Ho; lia.
Qed.

Lemma run_submitted coin n r a s :
  pool s = [] →
  on_event (submit coin n r a s) Run = execute (mk_tx (next_id s) coin n r a) (pop_tx (submit coin n r a s)).
Proof. intros Hp. unfold on_event. cbn [submit pool]. by rewrite Hp. Qed.
Lemma mint_quiet j s d :
  calm m latest (S j) s → cursor s = N.of_nat (length (mints s)) → cursor s < latest →
  ds !! N.to_nat (cursor s) = Some d →
  ∃ s', mint (coin_type d) (cursor s) (recipient_l2 d) (amount d) s = (Ok tt, s') ∧
        calm m latest j s' ∧ cursor s' = cursor s.
Proof.
  intros (Hi & Hp & Hs) Hc Hlt Hd. destruct (mintable_deposit _ Hlt) as (d' & r & Hd' & Hr & Hu).
  rewrite Hd in Hd'. injection Hd' as <-.
  pose proof (submit_inv _ _ _ _ (conj Hi eq_refl) Hd Hr) as [Hsub _].
  destruct (mint_accepted s (cursor s) d r Hi Hc Hd Hr Hu) as [k Hk].
  destruct m as [|m']; [lia|]. destruct (pool_advance_grows _ Hsub) as (Hi' & _ & Hc').
  cbn [mint l2_tokens]. rewrite Hr. cbv zeta. unfold ask.
  assert (next_step (submit (coin_type d) (cursor s) r (amount d) s) =
          mk_step (repeat Run (S m')) latest Full) as Hn.
  { unfold next_step. cbn. by rewrite Hs. }
  assert (advance (submit (coin_type d) (cursor s) r (amount d) s) =
          tick (execute (mk_tx (next_id s) (coin_type d) (cursor s) r (amount d))
                  (pop_tx (submit (coin_type d) (cursor s) r (amount d) s)))) as Ha.
  { unfold advance. rewrite Hn. cbn [st_events repeat foldl]. rewrite (run_submitted _ _ _ _ _ Hp), run_empty; [done|].
    rewrite pool_execute. cbn. by rewrite Hp. }
  rewrite Hn. cbn [st_reply].
  assert (pool (advance (submit (coin_type d) (cursor s) r (amount d) s)) = []
          ∧ script (advance (submit (coin_type d) (cursor s) r (amount d) s)) = quiet (S m') latest j
          ∧ mk_tx (next_id s) (coin_type d) (cursor s) r (amount d) ∈
              succeeded (advance (submit (coin_type d) (cursor s) r (amount d) s))) as (Hpe & Hse & Hin).
  { rewrite Ha. unfold execute. cbn [tx_coin tx_recipient tx_amount tx_nonce].
    change (token_of (pop_tx _) (coin_type d)) with (token_of s (coin_type d)). rewrite Hk. cbn.
    rewrite Hp, Hs. split_and!; [done|done|]. apply list_elem_of_here. }
  rewrite bool_decide_true by done. eexists. split; [done|]. split; [by split_and!|exact Hc'].
Qed.

Lemma read_quiet j s n :
  calm m latest (S j) s → read_deposit n s = (Ok (ds !! N.to_nat n), tick s) ∧ calm m latest j (tick s).
Proof. apply (calm_ask m latest j s (BRpc "unavailable") (λ _ _, ds !! N.to_nat n)). Qed.
Lemma resolve_quiet j s coin :
  calm m latest (S j) s → resolve_token coin s = (Ok coin, tick s) ∧ calm m latest j (tick s).
Proof. apply (calm_ask m latest j s ["unavailable"] (λ _ _, coin)). Qed.
Lemma guard_quiet j s coin :
  calm m latest (S j) s →
  mint_cursor coin s =
    (Ok (L2Token.minted_any (token_of s coin), L2Token.last_minted (token_of s coin)), tick s) ∧
  calm m latest j (tick s).
Proof.
  apply (calm_ask m latest j s ["unavailable"] (λ r s,
    let k := token_of s coin in
    (L2Token.minted_any k, match r with NoLast => 0 | _ => L2Token.last_minted k end))).
Qed.

Lemma set_cursor_calm j s n :
  calm m latest j s → n ≤ N.of_nat (length (mints s)) → calm m latest j (set_cursor n s).
Proof.
  intros (Hi & Hp & Hs) Hn. split_and!; [|done|done]. pose proof (i_saved _ Hi). destruct Hi.
  split; cbn; try done. by destruct (default true _).
Qed.
(** The last step of a round. *)
Lemma finish_quiet j s :
  calm m latest j s → cursor s + 1 ≤ N.of_nat (length (mints s)) →
  calm m latest j (set_cursor (cursor s + 1) s) ∧ cursor (set_cursor (cursor s + 1) s) = cursor s + 1.
Proof. intros Hs Hn. split; [by apply set_cursor_calm|done]. Qed.

(** A round at a quiet network delivers its deposit. *)
Lemma relay_one_quiet j s :
  calm m latest (4 + j) s → cursor s < latest →
  ∃ s' j', relay_one (T := list byte) (cursor s) s = (Ok true, s') ∧ (j ≤ j')%nat ∧
           calm m latest j' s' ∧ cursor s' = cursor s + 1.
Proof.
  intros Hs Hlt. destruct (mintable_deposit _ Hlt) as (d & r & Hd & Hr & Hu).
  unfold relay_one. rewrite run_bind. unfold tryM at 1.
  destruct (read_quiet (3 + j) s (cursor s) Hs) as [-> H1]. rewrite Hd, run_bind. unfold tryM at 1.
  destruct (resolve_quiet (2 + j) _ (coin_type d) H1) as [-> H2]. rewrite run_bind. unfold tryM at 1.
  destruct (guard_quiet (1 + j) _ (coin_type d) H2) as [-> H3].
  change (token_of _ (coin_type d)) with (token_of s (coin_type d)).
  set (s3 := tick (tick (tick s))) in *. assert (cursor s = cursor s3) as Hc by done.
  pose proof (i_cursor _ (proj1 H3)) as Hle.
  pose proof (i_tokens _ (proj1 H3) (coin_type d)) as Ht.
  change (token_of s3 (coin_type d)) with (token_of s (coin_type d)) in Ht.
  destruct (_ && _) eqn:Hg; rewrite run_bind.
  - pose proof Hg as [Hany Hl]%andb_true_iff. apply N.leb_le in Hl.
    destruct (ti_any _ _ _ Ht Hany) as [Hlast _].
    eexists _, (1 + j)%nat. split; [reflexivity|]. split; [lia|].
    apply (finish_quiet _ s3 H3). lia.
  - assert (cursor s3 = N.of_nat (length (mints s3))) as Heq.
    { destruct (decide (N.to_nat (cursor s) < length (mints s3))%nat) as [Hlt'|]; [|lia].
      destruct (ti_last _ _ _ Ht _ d Hlt' Hd eq_refl) as [Ha Hl]. rewrite Ha in Hg. apply N.leb_gt in Hg. lia. }
    destruct (mint_quiet j s3 d H3 Heq Hlt Hd) as (s' & Hmi & Hs' & Hc').
    pose proof (mint_at (cursor s3) d Hd s3 (conj (proj1 H3) eq_refl)) as Hat. rewrite Hmi in Hat.
    destruct Hat as [_ Hat].
    rewrite run_bind. unfold tryM. change (cursor s) with (cursor s3). rewrite Hmi. cbn [is_ok].
    eexists _, j. split; [reflexivity|]. split; [lia|]. rewrite <- Hc'.
    apply (finish_quiet _ s' Hs'). rewrite Hc'. lia.
Qed.

Lemma relay_rounds_quiet k j s :
  calm m latest (4 * k + j) s → N.to_nat (latest - cursor s) = k →
  cursor (relay_rounds (T := list byte) k latest s).2 = N.max (cursor s) latest.
Proof.
  revert j s. induction k as [|k IH]; intros j s Hs Hk; [cbn; lia|].
  cbn [relay_rounds]. rewrite run_bind. unfold getM at 1. cbv beta iota. change (get_cursor s) with (cursor s).
  assert (cursor s < latest) as Hlt by lia. rewrite (proj2 (N.leb_gt _ _) Hlt).
  rewrite run_bind. destruct (relay_one_quiet (4 * k + j) s) as (s' & j' & -> & Hj & Hs' & Hc).
  { by replace (4 + (4 * k + j))%nat with (4 * S k + j)%nat by lia. }
  { done. }
  rewrite (IH (j' - 4 * k)%nat); [lia| |lia]. by replace (4 * k + (j' - 4 * k))%nat with j' by lia.
Qed.

Lemma relay_quiet s k :
  inv s → (length (pool s) ≤ m)%nat → script s = quiet m latest k → (1 + 4 * N.to_nat latest ≤ k)%nat →
  cursor (relay s) = N.max (cursor s) latest.
Proof.
  intros Hi Hp Hs Hk. destruct k as [|k]; [lia|].
  assert (next_step s = mk_step (repeat Run m) latest Full) as Hn by (unfold next_step; by rewrite Hs).
  destruct (pool_advance_grows s Hi) as (Hi' & _ & Hc).
  assert (script (foldl on_event s (repeat Run m)) = script s) as Hsc.
  { clear. generalize s. induction m as [|m' IH]; [done|]. intros u. cbn. rewrite IH. destruct (pool u); [done|].
    unfold execute. by case_match. }
  assert (calm m latest k (advance s)) as Hcalm.
  { split_and!; [done| |]; unfold advance; rewrite Hn; cbn; [by apply run_drains|]. by rewrite Hsc, Hs. }
  unfold relay, relay_deposits. rewrite run_bind. unfold tryM at 1. cbn [read_vault l2_vault]. unfold ask.
  rewrite Hn. cbn [st_reply st_latest deposit_nonce]. rewrite run_bind. unfold getM at 1.
  cbv beta iota. change (get_cursor (advance s)) with (cursor (advance s)). cbn [deposit_nonce].
  rewrite (relay_rounds_quiet (N.to_nat (latest - cursor (advance s))) (k - 4 * N.to_nat (latest - cursor (advance s)))).
  - by rewrite Hc.
  - replace (4 * N.to_nat (latest - cursor (advance s)) + (k - 4 * N.to_nat (latest - cursor (advance s))))%nat
      with k by lia. done.
  - done.
Qed.
End Relay.



(** A deposit that its token cannot mint stops the relay for good.  The token
    accepts nonce 0 as its first mint and no other, but nonces count the
    deposits of all coins: the first deposit of a second coin, or a deposit to
    the zero address, is never minted, and nothing after it ever is. *)
Theorem unmintable_deposit_blocks ds k s :
  unmintable ds k = true → reachable ds s →
  (length (mints s) ≤ k)%nat ∧ cursor s ≤ N.of_nat k.
Proof.
  intros Hk Hs. apply relay_reachable_inv in Hs.
  assert (length (mints s) ≤ k)%nat as Hle.
  { destruct (decide (k < length (mints s))%nat) as [Hlt|]; [|lia].
    rewrite (i_mintable _ _ Hs _ Hlt) in Hk. done. }
  pose proof (i_cursor _ _ Hs). split; [done|lia].
Qed.

(** ** Concrete histories *)

Module RelayDemo.
Definition coin_a : list byte := string_bytes "0x2::sui::SUI".
Definition coin_b : list byte := string_bytes "0x5::usdc::USDC".
Definition alice : list byte := repeat x01 20.
(** Two deposits of one coin; then one of a second coin. *)
Definition deposits : list DepositRecord := [mk_deposit 5 alice coin_a; mk_deposit 7 alice coin_a].
Definition two_coins : list DepositRecord := deposits ++ [mk_deposit 9 alice coin_b].
(** The first answer is lost after the transaction was pooled. *)
Definition rough : list step :=
  [mk_step [] 2 Full; mk_step [] 2 Full; mk_step [] 2 Full; mk_step [] 2 Full; mk_step [] 2 Lost].
Definition before : l2 := l2_init [] (rough ++ quiet 1 2 20).
Definition interrupted : l2 := relay deposits before.
Definition after : l2 := relay deposits interrupted.
Definition stuck : l2 := relay two_coins (l2_init [] (quiet 1 3 40)).

Lemma before_runs : length (pool interrupted) = 1%nat ∧ script interrupted = quiet 1 2 20 ∧ cursor interrupted = 0.
Proof. vm_compute. done. Qed.
Lemma after_minted : length (mints after) = 2%nat.
Proof. by vm_compute. Qed.
Lemma stuck_minted : length (mints stuck) = 2%nat.
Proof. by vm_compute. Qed.
Lemma sums coin : VaultFacts.taken coin deposits ≤ L2Token.UINT256_MAX.
Proof.
  unfold deposits. change [?a; ?b] with ([] ++ [a] ++ [b]). rewrite app_assoc.
  rewrite !VaultFacts.taken_snoc. cbn [coin_type amount].
  change (VaultFacts.taken coin []) with 0. repeat case_bool_decide; by vm_compute.
Qed.
Lemma all_mintable i : N.of_nat i < 2 → mintable deposits i = true.
Proof. intros Hi. destruct i as [|[|i]]; [by vm_compute|by vm_compute|lia]. Qed.
End RelayDemo.

Lemma unmintable_deposit_blocks_witness :
  length (mints RelayDemo.stuck) = 2%nat ∧ cursor RelayDemo.stuck ≤ 2.
Proof.
  split; [exact RelayDemo.stuck_minted|].
  exact (proj2 (unmintable_deposit_blocks RelayDemo.two_coins 2 RelayDemo.stuck
    ltac:(vm_compute; reflexivity) (reach_relay _ _ (reach_init _ _ _)))).
Defined.
