(* ===== verification/Token.v ===== *)
(** The whole layer-2 token, [solidity/src/Bridge.sol]: the set-up, the
    relayer's and the users' calls, and the ERC-20 part around the two entry
    points of [Relay.L2Token]. *)

From S2P Require Import Prelude Text Codec Disk Core Wire Contract Sui L2Rpc Vault Bridge Relay.
Local Open Scope string_scope.
Local Open Scope list_scope.
Local Open Scope N_scope.

(** ** The contract *)

Module Token.
Import L2Token.
Record t := mk_token {
  core : L2Token.t;
  allowance : gmap (EvmAddress * EvmAddress) N;
  relayer : EvmAddress;
  initialized : bool;
  metadata : string * string * string
}.
(** The genesis predeploy, whose constructor never ran. *)
Definition predeploy : t := mk_token L2Token.fresh ∅ ZERO_ADDRESS false ("", "", "").

Definition with_core (k : t) (c : L2Token.t) : t := mk_token c (allowance k) (relayer k) (initialized k) (metadata k).
Definition balance (k : t) (a : EvmAddress) : N := default 0 (balance_of (core k) !! a).

(** [None] is a revert. *)
Definition require (b : bool) : option unit := if b then Some tt else None.

Definition setup (k : t) (md : string * string * string) (r : EvmAddress) : option t :=
  require (negb (bool_decide (r = ZERO_ADDRESS)));;
  Some (mk_token (core k) (allowance k) r true md).
Definition construct (md : string * string * string) (r : EvmAddress) : option t := setup predeploy md r.
Definition initialize (k : t) (md : string * string * string) (r : EvmAddress) : option t :=
  require (negb (initialized k));; setup k md r.

Definition only_relayer (k : t) (sender : EvmAddress) : option unit := require (bool_decide (sender = relayer k)).
Definition mint_as (k : t) (sender recipient : EvmAddress) (amount nonce : N) : option t :=
  only_relayer k sender;; with_core k <$> mint (core k) recipient amount nonce.
Definition set_relayer (k : t) (sender next : EvmAddress) : option t :=
  only_relayer k sender;;
  require (negb (bool_decide (next = ZERO_ADDRESS)));;
  Some (mk_token (core k) (allowance k) next (initialized k) (metadata k)).

Definition withdraw (k : t) (sender : EvmAddress) (sui_recipient : array 32) (amount : N) : option t :=
  (λ r, with_core k r.2) <$> initiate_withdrawal (core k) sender sui_recipient amount.

(** The [unchecked] block wraps; the sender's new balance is stored before the
    recipient's is read. *)
Definition transfer_from_to (k : t) (from to : EvmAddress) (amount : N) : option t :=
  require (negb (bool_decide (to = ZERO_ADDRESS)));;
  require (amount <=? balance k from);;
  let m := <[from := balance k from - amount]> (balance_of (core k)) in
  let credited := (default 0 (m !! to) + amount) mod (UINT256_MAX + 1) in
  Some (with_core k (mk (total_supply (core k)) (<[to := credited]> m) (last_minted (core k)) (minted_any (core k))
                       (last_withdrawal (core k)))).
Definition transfer (k : t) (sender to : EvmAddress) (amount : N) : option t := transfer_from_to k sender to amount.
Definition approve (k : t) (sender spender : EvmAddress) (amount : N) : option t :=
  Some (mk_token (core k) (<[(sender, spender) := amount]> (allowance k)) (relayer k) (initialized k) (metadata k)).
Definition transfer_from (k : t) (sender from to : EvmAddress) (amount : N) : option t :=
  let allowed := default 0 (allowance k !! (from, sender)) in
  if allowed =? UINT256_MAX then transfer_from_to k from to amount
  else
    require (amount <=? allowed);;
    transfer_from_to
      (mk_token (core k) (<[(from, sender) := allowed - amount]> (allowance k)) (relayer k) (initialized k) (metadata k))
      from to amount.

(** ** Calls *)

Inductive call :=
| Initialize (md : string * string * string) (r : EvmAddress)
| Mint (recipient : EvmAddress) (amount nonce : N)
| SetRelayer (next : EvmAddress)
| Withdraw (sui_recipient : array 32) (amount : N)
| Transfer (to : EvmAddress) (amount : N)
| Approve (spender : EvmAddress) (amount : N)
| TransferFrom (from to : EvmAddress) (amount : N).
Definition exec (k : t) (sender : EvmAddress) (c : call) : option t :=
  match c with
  | Initialize md r => initialize k md r
  | Mint recipient amount nonce => mint_as k sender recipient amount nonce
  | SetRelayer next => set_relayer k sender next
  | Withdraw sui amount => withdraw k sender sui amount
  | Transfer to amount => transfer k sender to amount
  | Approve spender amount => approve k sender spender amount
  | TransferFrom from to amount => transfer_from k sender from to amount
  end.
(** A reverted call leaves no trace. *)
Inductive step : t → t → Prop :=
| called sender c k k' : exec k sender c = Some k' → step k k'.
End Token.

(** ** The sum of all balances *)

Definition held_sum (m : gmap EvmAddress N) : N := map_fold (λ _ x acc, x + acc) 0 m.

Section Sums.
Implicit Types m : gmap EvmAddress N.
Lemma held_sum_fresh m a x : m !! a = None → held_sum (<[a := x]> m) = x + held_sum m.
Proof. intros Ha. unfold held_sum. apply map_fold_insert_L; [intros; lia|done]. Qed.
Lemma held_sum_split m a : held_sum m = default 0 (m !! a) + held_sum (delete a m).
Proof.
  destruct (m !! a) as [x|] eqn:Ha; cbn; [|by rewrite delete_id].
  rewrite <- (insert_delete_id m a x) at 1 by done. apply held_sum_fresh, lookup_delete_eq.
Qed.
Lemma held_sum_insert m a x : held_sum (<[a := x]> m) + default 0 (m !! a) = held_sum m + x.
Proof.
  rewrite (held_sum_split (<[a := x]> m) a), (held_sum_split m a), lookup_insert_eq, delete_insert_eq. cbn. lia.
Qed.
Lemma held_sum_le m a : default 0 (m !! a) ≤ held_sum m.
Proof. rewrite (held_sum_split m a). lia. Qed.
End Sums.

(** ** Properties *)

Section Facts.
Import L2Token Token.
Implicit Types k : Token.t.

Definition supply k : N := total_supply (core k).
(** Every token is in somebody's balance. *)
Definition backed k : Prop := held_sum (balance_of (core k)) = supply k ∧ supply k ≤ UINT256_MAX.

Lemma require_some b (o : option Token.t) k : (require b;; o) = Some k → b = true ∧ o = Some k.
Proof. by destruct b. Qed.

Lemma balance_capped k a : backed k → balance k a ≤ UINT256_MAX.
Proof. intros [Hs Hm]. unfold balance. pose proof (held_sum_le (balance_of (core k)) a). lia. Qed.

Lemma transfer_spec k from to amount k' :
  backed k → transfer_from_to k from to amount = Some k' →
  amount ≤ balance k from ∧ backed k' ∧ supply k' = supply k ∧
  (∀ a, balance k' a + (if decide (a = from) then amount else 0) = balance k a + (if decide (a = to) then amount else 0)).
Proof.
  intros [Hs Hm]. unfold transfer_from_to, balance. intros [_ [Hle [= <-]]%require_some]%require_some. apply N.leb_le in Hle.
  unfold backed, supply, with_core in *. cbn. set (m := balance_of (core k)) in *. set (b := default 0 (m !! from)) in *.
  set (m1 := <[from := b - amount]> m).
  assert (held_sum m1 + amount = total_supply (core k)) as Hm1.
  { pose proof (held_sum_insert m from (b - amount)) as Hi. fold m1 b in Hi. lia. }
  pose proof (held_sum_le m1 to) as Hto.
  assert ((default 0 (m1 !! to) + amount) mod (UINT256_MAX + 1) = default 0 (m1 !! to) + amount) as Hnowrap
    by (apply N.mod_small; lia).
  rewrite Hnowrap. split; [done|]. split; [|split; [done|]].
  - split; [|exact Hm]. pose proof (held_sum_insert m1 to (default 0 (m1 !! to) + amount)). lia.
  - intros a. assert (default 0 (m1 !! from) = b - amount) as Hfrom by (unfold m1; by rewrite lookup_insert_eq).
    assert (∀ x, x ≠ from → m1 !! x = m !! x) as Hother by (intros x Hx; unfold m1; by rewrite lookup_insert_ne).
    destruct (decide (a = to)) as [->|Hto'].
    + rewrite lookup_insert_eq. cbn. destruct (decide (to = from)) as [->|Hf]; [rewrite Hfrom; fold b; lia|].
      rewrite Hother by done. lia.
    + rewrite lookup_insert_ne by done. destruct (decide (a = from)) as [->|Hf]; [rewrite Hfrom; fold b; lia|].
      rewrite Hother by done. lia.
Qed.

Lemma mint_spec k sender recipient amount nonce k' :
  backed k → mint_as k sender recipient amount nonce = Some k' →
  sender = relayer k ∧ backed k' ∧ supply k' = supply k + amount ∧ ∀ a, balance k a ≤ balance k' a.
Proof.
  intros [Hs Hm]. unfold mint_as, only_relayer. intros [Hr Hk]%require_some. apply bool_decide_eq_true in Hr.
  destruct (mint (core k) recipient amount nonce) as [c|] eqn:Hc; [|done]. injection Hk as <-.
  unfold mint in Hc. destruct (negb _); [done|]. destruct (bool_decide _); [done|]. cbv zeta in Hc.
  destruct (orb _ _) eqn:Ho; [done|]. injection Hc as <-. apply orb_false_iff in Ho as [Ho1 Ho2].
  apply N.ltb_ge in Ho1. split; [done|]. split; [|split; [done|]].
  - split; [|exact Ho1]. unfold with_core, supply in *. cbn.
    pose proof (held_sum_insert (balance_of (core k)) recipient (default 0 (balance_of (core k) !! recipient) + amount)). lia.
  - intros a. unfold balance, with_core. cbn. destruct (decide (a = recipient)) as [->|Hne].
    + rewrite lookup_insert_eq. cbn. lia.
    + by rewrite lookup_insert_ne.
Qed.

Lemma withdraw_spec k sender sui amount k' :
  backed k → withdraw k sender sui amount = Some k' →
  backed k' ∧ supply k' + amount = supply k ∧ ∀ a, balance k' a + (if decide (a = sender) then amount else 0) = balance k a.
Proof.
  intros [Hs Hm]. unfold withdraw. destruct (initiate_withdrawal _ _ _ _) as [[n c]|] eqn:Hw; [|done]. intros [= <-].
  unfold initiate_withdrawal in Hw. destruct (orb _ _); [done|]. cbv zeta in Hw.
  destruct (N.leb_spec amount (default 0 (balance_of (core k) !! sender))) as [Hle|]; [|done].
  cbn [negb] in Hw. destruct (_ <? _); [done|]. injection Hw as _ <-.
  pose proof (held_sum_le (balance_of (core k)) sender) as Hto.
  pose proof (held_sum_insert (balance_of (core k)) sender (default 0 (balance_of (core k) !! sender) - amount)).
  unfold backed, supply, balance, with_core in *. cbn. split; [split; lia|]. split; [lia|].
  intros a. destruct (decide (a = sender)) as [->|Hne].
  - rewrite lookup_insert_eq. cbn. lia.
  - rewrite lookup_insert_ne by done. lia.
Qed.

(** What one call may change. *)
Definition lawful k (sender : EvmAddress) (c : call) k' : Prop :=
  backed k' ∧
  (supply k < supply k' → ∃ r n x, c = Mint r n x ∧ sender = relayer k ∧ supply k' = supply k + n) ∧
  ∀ a, balance k' a < balance k a →
    sender = a ∨ ∃ to n, c = TransferFrom a to n ∧ balance k a ≤ balance k' a + n ∧ n ≤ default 0 (allowance k !! (a, sender)).

Lemma lawful_same k sender c k' : core k' = core k → backed k → lawful k sender c k'.
Proof.
  intros Hc Hb. unfold lawful, backed, supply, balance in *. rewrite Hc. split; [done|]. split; [lia|]. intros a Ha. lia.
Qed.

Lemma exec_lawful k sender c k' : backed k → exec k sender c = Some k' → lawful k sender c k'.
Proof.
  intros Hb He. destruct c as [md r|r n x|next|sui n|to n|sp n|from to n]; cbn in He.
  - unfold initialize, setup in He. apply require_some in He as [_ [_ [= <-]]%require_some]. by apply lawful_same.
  - apply mint_spec in He as (Hs & Hb' & Hsup & Hbal); [|done]. split; [done|]. split; [by eauto 6|].
    intros a Ha. specialize (Hbal a). lia.
  - unfold set_relayer, only_relayer in He. apply require_some in He as [_ [_ [= <-]]%require_some]. by apply lawful_same.
  - apply withdraw_spec in He as (Hb' & Hsup & Hbal); [|done]. split; [done|]. split; [lia|].
    intros a Ha. specialize (Hbal a). case_decide; [auto|lia].
  - apply transfer_spec in He as (_ & Hb' & Hsup & Hbal); [|done]. split; [done|]. split; [lia|].
    intros a Ha. specialize (Hbal a). repeat case_decide; auto; lia.
  - injection He as <-. by apply lawful_same.
  - unfold transfer_from in He. assert (∀ k1, core k1 = core k → transfer_from_to k1 from to n = Some k' →
      n ≤ default 0 (allowance k !! (from, sender)) ∨ default 0 (allowance k !! (from, sender)) = UINT256_MAX →
      lawful k sender (TransferFrom from to n) k') as Hmove.
    { intros k1 Hc Ht Ha. assert (backed k1) as Hb1 by (unfold backed, supply in *; by rewrite Hc).
      apply transfer_spec in Ht as (Hle & Hb' & Hsup & Hbal); [|done]. pose proof (balance_capped k1 from Hb1) as Hcap.
      assert (∀ a, balance k1 a = balance k a) as Heq by (intros a; unfold balance; by rewrite Hc).
      assert (supply k1 = supply k) as Hs1 by (unfold supply; by rewrite Hc).
      split; [done|]. split; [lia|]. intros a Hlt. specialize (Hbal a). rewrite Heq in Hbal. right. exists to, n.
      destruct (decide (a = from)) as [->|]; [|case_decide; lia].
      split; [done|]. split; [case_decide; lia|lia]. }
    cbv zeta in He. destruct (N.eqb_spec (default 0 (allowance k !! (from, sender))) UINT256_MAX) as [Hmax|].
    + apply (Hmove k); auto.
    + apply require_some in He as [Hle He]. apply N.leb_le in Hle. eapply Hmove; [|exact He|by left]. done.
Qed.

Lemma backed_start k0 md r : k0 = predeploy ∨ construct md r = Some k0 → backed k0.
Proof.
  intros [->|Hc]; [by split|]. unfold construct, setup in Hc. apply require_some in Hc as [_ [= <-]]. by split.
Qed.

(** C21: The token is backed and nobody's is taken.  From the predeploy or a
    constructed token, through any calls of any senders, the balances sum to the
    total supply, which fits a word, so the unchecked credit of a transfer never
    wraps; only the relayer's mint makes new tokens, as many as it says; and a
    balance shrinks only by its owner's call or within the allowance the owner
    gave the caller. *)
Theorem token_stays_backed k0 md r k :
  k0 = predeploy ∨ construct md r = Some k0 → rtc step k0 k →
  backed k ∧ ∀ sender c k', exec k sender c = Some k' → lawful k sender c k'.
Proof.
  intros Hs%backed_start Hl. assert (backed k) as Hb; [|split; [done|]; intros; by apply exec_lawful].
  induction Hl as [|k1 k2 k3 [sender c ? ? He] _ IH]; [done|]. apply IH. by apply (exec_lawful _ _ _ _ Hs He).
Qed.
End Facts.

(** ** A token in use *)

Module TokenDemo.
Import L2Token Token.
Definition alice : EvmAddress := array_fill 20 x01.
Definition bob : EvmAddress := array_fill 20 x02.
Definition carol : EvmAddress := array_fill 20 x03.
Definition md : string * string * string := ("Bridged SUI", "bSUI", "0x2::sui::SUI").
Definition after (calls : list (EvmAddress * call)) : Token.t :=
  foldl (λ k sc, default k (exec k sc.1 sc.2)) predeploy calls.
Definition used : Token.t :=
  after [(carol, Initialize md carol); (carol, Mint alice 100 0); (alice, Approve bob 60);
         (bob, TransferFrom alice bob 40); (bob, Transfer bob 10)].
Lemma used_balances :
  (supply used, balance used alice, balance used bob, default 0 (allowance used !! (alice, bob))) = (100, 60, 40, 20).
Proof. by vm_compute. Qed.
Lemma used_steps : rtc step predeploy used.
Proof.
  unfold used, after. generalize predeploy.
  assert (∀ calls k, rtc step k (foldl (λ k sc, default k (exec k sc.1 sc.2)) k calls)) as Hall; [|intros k; apply Hall].
  induction calls as [|[s c] calls IH]; intros k; [done|]. cbn. destruct (exec k s c) as [k'|] eqn:He; [|apply IH].
  eapply rtc_l; [by eapply called|apply IH].
Qed.
Lemma token_stays_backed_witness :
  backed used ∧ ∀ sender c k', exec used sender c = Some k' → lawful used sender c k'.
Proof. exact (token_stays_backed predeploy md carol used (or_introl eq_refl) used_steps). Defined.
End TokenDemo.
