(* ===== verification/Release.v ===== *)
(** The withdrawal relay of [Bridge] against the vault contract: burns on the
    L2, lost answers, failed cursor writes and restarts. *)

From S2P Require Import Prelude Text Codec Disk Core Wire Contract Sui L2Rpc Vault Bridge.
Local Open Scope string_scope.
Local Open Scope list_scope.
Local Open Scope N_scope.

(** One [WithdrawalInitiated] log of a registered token. *)
Record burn := mk_burn {
  b_block : N; b_coin : list byte; b_recipient : Address; b_amount : N; b_nonce : N
}.
#[global] Instance burn_eq_dec : EqDecision burn.
Proof. unfold Address. solve_decision. Defined.
Definition key_of (b : burn) : list byte := VaultContract.withdraw_key (b_coin b) (b_nonce b).
Definition payout_of (b : burn) : VaultFacts.payout :=
  VaultFacts.mk_payout (b_coin b) (b_amount b) (b_nonce b).

(** What the vault sees besides the relayer. *)
Inductive vault_event :=
| Deposits (coin : list byte) (value : N) (recipient : list byte)
| Rotates (o : option Contract.Rotation.state).
Definition event_call (e : vault_event) : VaultFacts.vcall :=
  match e with
  | Deposits coin value r => VaultFacts.Deposit coin value r
  | Rotates o => VaultFacts.Rotate o
  end.

(** A request is answered, never arrives, or is executed with its answer lost. *)
Inductive delivery := Answered | Dropped | Unanswered.
(** Around one request: what others do first, the L2's head, Sui's clock, the
    delivery. *)
Record step := mk_step {
  st_events : list vault_event; st_head : N; st_clock : N; st_delivery : delivery
}.

Record world := mk_world {
  hist : VaultFacts.history;
  released : list burn;
  cursor : N;
  saved : N;
  saves : list bool;
  script : list step
}.
Definition world_init (saves : list bool) (script : list step) : world :=
  mk_world (VaultFacts.mk_history VaultContract.initialize [] []) [] 0 0 saves script.

Definition next_step (s : world) : step := default (mk_step [] 0 0 Dropped) (head (script s)).
Definition advance (s : world) : world :=
  mk_world (foldl VaultFacts.run_call (hist s) (event_call <$> st_events (next_step s)))
    (released s) (cursor s) (saved s) (saves s) (tail (script s)).
Definition ask {A} (answer : world → A) : M world anyhow A := λ s,
  let s' := advance s in
  match st_delivery (next_step s) with
  | Answered => (Ok (answer s'), s')
  | _ => (Err ["no answer"], s')
  end.

(** [withdraw_as] by [sender]; a burn the contract pays is recorded. *)
Definition withdraw_call (sender : Address) (now : N) (b : burn) (s : world) : bool * world :=
  match VaultContract.withdraw_as (VaultFacts.vault (hist s)) now sender (b_coin b) (b_amount b) (b_nonce b) with
  | Err _ => (false, s)
  | Ok (pays, _) =>
      (true, mk_world (VaultFacts.run_call (hist s)
                         (VaultFacts.Withdraw now sender (b_coin b) (b_amount b) (b_nonce b)))
               (if (pays : bool) then b :: released s else released s)
               (cursor s) (saved s) (saves s) (script s))
  end.

Section Release.
(** The relayer's address and every burn there will ever be. *)
Context (sender : Address) (burns : list burn).

Definition burns_in (from to : N) : list burn :=
  filter (λ b, from ≤ b_block b ∧ b_block b ≤ to) burns.

#[local] Instance world_burns : BurnOps world burn := {|
  l2_head := λ s, ask (λ _, st_head (next_step s)) s;
  index_creations _ _ := ask (λ _, tt);
  burn_logs from to := ask (λ _, burns_in from to);
  release_burn b := λ s,
    let d := st_delivery (next_step s) in
    let now := st_clock (next_step s) in
    let s1 := advance s in
    match d with
    | Dropped => (Err ["no answer"], s1)
    | Answered =>
        let '(ok, s2) := withdraw_call sender now b s1 in
        (if (ok : bool) then Ok tt else Err ["aborted"], s2)
    | Unanswered => (Err ["no answer"], (withdraw_call sender now b s1).2)
    end
|}.
#[local] Instance world_cursor : BlockCursor world := {|
  get_block := cursor;
  set_block n s :=
    mk_world (hist s) (released s) n (if default true (head (saves s)) then n else saved s)
      (tail (saves s)) (script s)
|}.

Definition pass (s : world) : world := (relay_withdrawals (L := burn) s).2.
Definition restart (readable : bool) (s : world) : world :=
  mk_world (hist s) (released s) (if readable then saved s else 0) (saved s) (saves s) (script s).

Inductive reachable : world → Prop :=
| reach_init saves script : reachable (world_init saves script)
| reach_pass s : reachable s → reachable (pass s)
| reach_restart b s : reachable s → reachable (restart b s).

(** *** The invariant *)

Definition covered (n : N) (s : world) : Prop :=
  ∀ b, b ∈ burns → b_block b < n → key_of b ∈ VaultContract.processed (VaultFacts.vault (hist s)).
Record inv (s : world) : Prop := mk_inv {
  i_sound : VaultFacts.sound (hist s);
  i_paid : VaultFacts.paid (hist s) = payout_of <$> released s;
  i_burns : released s ⊆ burns;
  i_cursor : covered (cursor s) s;
  i_saved : covered (saved s) s
}.
(** What the vault processed stays processed. *)
Definition keeps (s s' : world) : Prop :=
  VaultContract.processed (VaultFacts.vault (hist s)) ⊆ VaultContract.processed (VaultFacts.vault (hist s')).
Lemma covered_keeps n s s' : keeps s s' → covered n s → covered n s'.
Proof. intros Hk Hc b Hb Hn. by apply Hk, Hc. Qed.

Lemma keeps_refl s : keeps s s.
Proof. by unfold keeps. Qed.

Lemma event_frame h e :
  VaultContract.processed (VaultFacts.vault (VaultFacts.run_call h (event_call e))) = VaultContract.processed (VaultFacts.vault h) ∧
  VaultFacts.paid (VaultFacts.run_call h (event_call e)) = VaultFacts.paid h.
Proof.
  destruct e as [coin value r|o]; [|done]. cbn. destruct (VaultContract.deposit _ _ _ _) as [v|] eqn:Hd; [|done].
  split; [|done]. cbn. unfold VaultContract.deposit in Hd.
  apply result_bind_ok in Hd as (? & _ & Hd). apply result_bind_ok in Hd as (? & _ & Hd).
  apply result_bind_ok in Hd as (? & _ & Hd). case_match; [done|].
  by apply result_bind_ok in Hd as (? & _ & [= <-]).
Qed.
Lemma events_frame h es :
  VaultFacts.sound h →
  let h' := foldl VaultFacts.run_call h (event_call <$> es) in
  VaultFacts.sound h' ∧ VaultContract.processed (VaultFacts.vault h') = VaultContract.processed (VaultFacts.vault h) ∧
  VaultFacts.paid h' = VaultFacts.paid h.
Proof.
  revert h. induction es as [|e es IH]; intros h Hs; [done|]. cbn.
  destruct (event_frame h e) as [Hp Hq]. destruct (IH _ (VaultFacts.run_call_sound _ (event_call e) Hs)) as (? & -> & ->).
  done.
Qed.
Lemma advance_inv s : inv s → inv (advance s) ∧ keeps s (advance s).
Proof.
  intros [Hs Hp Hb Hc Hv]. destruct (events_frame _ (st_events (next_step s)) Hs) as (Hs' & Hk & Hp').
  assert (keeps s (advance s)) as Hkeep by (unfold keeps; cbn; by rewrite Hk).
  split; [|done]. split; [done|etransitivity; [exact Hp'|exact Hp]|done|by eapply covered_keeps|by eapply covered_keeps].
Qed.

(** A call that succeeds leaves its key processed. *)
Lemma withdraw_call_spec now b s :
  inv s → b ∈ burns →
  let '(ok, s') := withdraw_call sender now b s in
  inv s' ∧ keeps s s' ∧ cursor s' = cursor s ∧ script s' = script s ∧ saves s' = saves s ∧
  (ok = true → key_of b ∈ VaultContract.processed (VaultFacts.vault (hist s'))).
Proof.
  intros Hi Hin. pose proof Hi as [Hs Hp Hb Hc Hv]. unfold withdraw_call.
  pose proof (VaultFacts.run_call_sound (hist s)
    (VaultFacts.Withdraw now sender (b_coin b) (b_amount b) (b_nonce b)) Hs) as Hs'. cbn in Hs' |- *.
  destruct (VaultContract.withdraw_as _ _ _ _ _ _) as [[pays v]|e] eqn:Hw;
    [|split_and!; (exact Hi || apply keeps_refl || done)].
  assert (VaultContract.processed (VaultFacts.vault (hist s)) ⊆ VaultContract.processed v ∧ key_of b ∈ VaultContract.processed v) as [Hsub Hkey].
  { unfold VaultContract.withdraw_as in Hw. apply result_bind_ok in Hw as (? & _ & Hw). unfold VaultContract.do_withdraw in Hw.
    case_bool_decide as Hd; [by injection Hw as <- <-|].
    apply result_bind_ok in Hw as (? & _ & Hw). apply result_bind_ok in Hw as (? & _ & Hw).
    apply result_bind_ok in Hw as (? & _ & Hw). apply result_bind_ok in Hw as (? & _ & [= <- <-]).
    cbn. set_solver. }
  set (s' := mk_world _ _ _ _ _ _).
  assert (keeps s s') as Hkeep by (unfold keeps; cbn; by destruct pays).
  split_and!; [|done|done|done|done|intros _; cbn; by destruct pays].
  split; [done| | |by eapply covered_keeps|by eapply covered_keeps]; cbn; destruct pays; cbn; try done.
  - by rewrite Hp.
  - set_solver.
Qed.

(** *** A pass *)

Definition during (n : N) (s : world) : Prop := inv s ∧ cursor s = n.
Lemma ask_during {A} n (answer : world → A) :
  triple (during n) (ask answer) (λ a s, during n s ∧ ∃ s0, a = answer s0) (during n).
Proof.
  intros s [Hs <-]. destruct (advance_inv s Hs) as [Hi _]. unfold ask. destruct (st_delivery _); [|done|done].
  split; [done|]. by eexists.
Qed.
Abbreviation processed s := (VaultContract.processed (VaultFacts.vault (hist s))).
Lemma release_during n b K :
  b ∈ burns →
  triple (λ s, during n s ∧ K ⊆ processed s) (release_burn b)
    (λ _ s, during n s ∧ {[key_of b]} ∪ K ⊆ processed s) (during n).
Proof.
  intros Hb s [[Hs <-] Hk]. destruct (advance_inv s Hs) as [Hi Hkeep]. cbn.
  pose proof (withdraw_call_spec (st_clock (next_step s)) b (advance s) Hi Hb) as Hw.
  destruct (st_delivery (next_step s)); [|done|]; destruct (withdraw_call _ _ _ _) as [ok s2];
    destruct Hw as (Hi2 & Hk2 & Hc2 & _ & _ & Hok); [|by split].
  destruct ok; [|by split]. split; [by split|]. apply union_least.
  - apply singleton_subseteq_l. by apply Hok.
  - etransitivity; [exact Hk|]. etransitivity; [exact Hkeep|exact Hk2].
Qed.
Lemma process_during n logs K :
  logs ⊆ burns →
  triple (λ s, during n s ∧ K ⊆ processed s) (process_logs logs)
    (λ _ s, during n s ∧ list_to_set (key_of <$> logs) ∪ K ⊆ processed s) (during n).
Proof.
  revert K. induction logs as [|b logs IH]; intros K Hl; cbn [process_logs].
  - apply triple_ret. intros s [Hs Hk]. split; [done|]. cbn. set_solver.
  - eapply triple_bind; [apply release_during; set_solver|]. intros [].
    eapply triple_weaken; [apply (IH ({[key_of b]} ∪ K)); set_solver|done| |done].
    intros _ s [Hs Hk]. split; [done|]. cbn. set_solver.
Qed.

Lemma covered_le n m s : n ≤ m → covered m s → covered n s.
Proof. intros Hle Hc b Hb Hn. apply Hc; [done|lia]. Qed.
Lemma wadd_le a b : wadd a b ≤ a + b.
Proof. unfold wadd. apply N.Div0.mod_le. Qed.

Lemma head_during n : triple (during n) l2_head (λ _, during n) (during n).
Proof.
  intros s Hs. pose proof (ask_during n (λ _, st_head (next_step s)) s Hs) as Ha. cbn.
  destruct (ask _ s) as [[]]; [apply Ha|done].
Qed.

(** A pass keeps the invariant: its last step is taken with every burn of the
    range processed. *)
Lemma pass_during n : triple (during n) (relay_withdrawals (L := burn)) (λ _, inv) inv.
Proof.
  assert (∀ s, during n s → inv s) as Hw by by intros s [].
  assert (∀ A (m : M world anyhow A) Q, triple (during n) m Q (during n) → triple (during n) m Q inv) as Hr.
  { intros A m Q Hm. eapply triple_weaken; [exact Hm|done|done|exact Hw]. }
  apply (triple_bind _ _ (λ w s, during n s ∧ get_block w = n)).
  { apply triple_get. intros s Hs. split; [done|apply Hs]. }
  intros w. apply triple_pure. intros ->.
  eapply triple_bind; [apply Hr, head_during|]. intros latest.
  destruct (latest <? n); [by apply triple_ret|].
  eapply triple_bind; [apply Hr, ask_during|]. intros [].
  apply (triple_pre _ (during n)); [by intros s []|].
  eapply triple_bind; [apply Hr, ask_during|]. intros logs.
  apply (triple_pre _ (λ s, during n s ∧ logs = burns_in n latest)); [by intros s [Hs [_ ->]]|].
  apply triple_pure. intros ->.
  apply (triple_pre _ (λ s, during n s ∧ ∅ ⊆ processed s)); [intros s Hs; split; [done|apply empty_subseteq]|].
  eapply triple_bind; [eapply triple_weaken; [apply (process_during n (burns_in n latest) ∅)|done|done|exact Hw]|].
  { intros b. unfold burns_in. rewrite list_elem_of_filter. by intros []. }
  intros []. apply triple_mod. intros s [[Hs <-] Hk].
  assert (covered (latest + 1) s) as Hc.
  { intros b Hb Hlt. destruct (decide (b_block b < cursor s)) as [Hlo|]; [by apply (i_cursor s Hs)|].
    apply Hk. apply elem_of_union_l, elem_of_list_to_set, list_elem_of_fmap. exists b. split; [done|].
    apply list_elem_of_filter. split; [lia|done]. }
  pose proof (covered_le _ _ _ (wadd_le latest 1) Hc) as Hc'.
  destruct Hs. split; cbn; try done. by destruct (default true _).
Qed.
Lemma pass_inv s : inv s → inv (pass s).
Proof.
  intros Hs. unfold pass. pose proof (pass_during (cursor s) s (conj Hs eq_refl)) as H.
  by destruct (relay_withdrawals s) as [[]].
Qed.
Lemma release_reachable_inv s : reachable s → inv s.
Proof.
  induction 1 as [saves script|s _ IH|b s _ IH].
  - split; [apply (VaultFacts.run_calls_sound [])|done|apply list_subseteq_nil| |];
      intros b _ Hlt; cbn in Hlt; lia.
  - by apply pass_inv.
  - pose proof (i_saved s IH). destruct IH. split; try done. intros x Hx Hlt. cbn in Hlt.
    destruct b; [by apply (H x)|lia].
Qed.

(** Distinct burns have distinct keys. *)
Lemma processed_released s b :
  NoDup (key_of <$> burns) → inv s → b ∈ burns → key_of b ∈ processed s → b ∈ released s.
Proof.
  intros Hn [Hs Hp Hb _ _] Hin Hk. apply (VaultFacts.so_keys _ Hs) in Hk. rewrite Hp, <- list_fmap_compose in Hk.
  apply list_elem_of_fmap in Hk as (b' & Hk & Hb'). replace b with b'; [done|].
  apply list_elem_of_lookup in Hin as [i Hi]. apply Hb, list_elem_of_lookup in Hb' as [j Hj].
  assert (i = j) as ->; [|congruence].
  eapply (NoDup_lookup (key_of <$> burns)); [done|rewrite list_lookup_fmap, Hi; done|].
  rewrite list_lookup_fmap, Hj. cbn. by rewrite Hk.
Qed.

(** *** A quiet network *)

Definition quiet (latest now : N) (k : nat) : list step := repeat (mk_step [] latest now Answered) k.
Definition burned (coin : list byte) (l : list burn) : N := VaultFacts.released coin (payout_of <$> l).
(** The vault took in what the L2 burns ask for. *)
Definition backed (s : world) : Prop := ∀ coin, burned coin burns ≤ VaultFacts.taken coin (VaultFacts.credited (hist s)).
Definition authorized (now : N) (s : world) : Prop :=
  Contract.Rotation.assert_can_act (VaultContract.v_rotation (VaultFacts.vault (hist s))) now sender = Ok tt.

Lemma burned_submseteq coin l k : l ⊆+ k → burned coin l ≤ burned coin k.
Proof.
  intros Hs. apply (submseteq_Permutation l k) in Hs as [r Hr].
  assert (∀ a b, a ≡ₚ b → burned coin a = burned coin b) as Hp.
  { unfold burned. induction 1 as [|x a b _ IH|x y a|a b c _ IH1 _ IH2]; cbn [fmap list_fmap];
      rewrite ?VaultFacts.released_cons; lia. }
  rewrite (Hp _ _ Hr). clear. induction l as [|x l IH]; [cbn; unfold burned, VaultFacts.released; cbn; lia|].
  unfold burned in *. cbn [app fmap list_fmap]. rewrite !VaultFacts.released_cons. cbn in IH. lia.
Qed.

Context (latest now : N).
Context (Hkeys : NoDup (key_of <$> burns)) (Hpos : ∀ b, b ∈ burns → 0 < b_amount b)
  (Hmany : N.of_nat (length burns) ≤ U64_MAX).

(** The contract pays, or has paid. *)
Lemma withdraw_accepted s b :
  inv s → backed s → authorized now s → b ∈ burns →
  ∃ pays v, VaultContract.withdraw_as (VaultFacts.vault (hist s)) now sender (b_coin b) (b_amount b) (b_nonce b)
              = Ok (pays, v) ∧ VaultContract.v_rotation v = VaultContract.v_rotation (VaultFacts.vault (hist s)).
Proof.
  intros Hi Hb Ha Hin. unfold VaultContract.withdraw_as. rewrite Ha. cbn [mbind result_bind].
  unfold VaultContract.do_withdraw. case_bool_decide as Hk; [by eexists _, _|].
  assert (b :: released s ⊆+ burns) as Hsub.
  { apply NoDup_submseteq.
    - constructor.
      + intros Hr. apply Hk, (VaultFacts.so_keys _ (i_sound s Hi)). rewrite (i_paid s Hi), <- list_fmap_compose.
        apply list_elem_of_fmap. by exists b.
      + apply (NoDup_fmap_1 key_of). pose proof (VaultFacts.so_once _ (i_sound s Hi)) as Ho.
        by rewrite (i_paid s Hi), <- list_fmap_compose in Ho.
    - intros x. rewrite elem_of_cons. intros [->|Hx]; [done|by apply (i_burns s Hi)]. }
  pose proof (burned_submseteq (b_coin b) _ _ Hsub) as Hsum. specialize (Hb (b_coin b)).
  pose proof (VaultFacts.so_conserved _ (i_sound s Hi) (b_coin b)) as Hc. rewrite (i_paid s Hi) in Hc.
  unfold burned in Hsum. cbn [fmap list_fmap] in Hsum. rewrite VaultFacts.released_cons in Hsum.
  cbn [payout_of VaultFacts.po_coin VaultFacts.po_value] in Hsum. rewrite bool_decide_true in Hsum by done.
  fold (burned (b_coin b) burns) in Hsum. specialize (Hpos b Hin).
  destruct (VaultContract.reserves _ !! b_coin b) as [held|]; cbn [default from_option] in Hc.
  2: { exfalso. unfold fmap in *. cbn in Hc. lia. }
  apply submseteq_length in Hsub. cbn [length] in Hsub.
  pose proof (VaultFacts.so_withdrawals _ (i_sound s Hi)) as Hw. rewrite (i_paid s Hi), length_fmap in Hw.
  unfold Contract.assert, Contract.mv_add, checked_add.
  rewrite (proj2 (N.ltb_lt 0 (b_amount b))) by done. cbn [mbind result_bind ok_or].
  rewrite (proj2 (N.leb_le (b_amount b) held)) by (unfold fmap in *; cbn in Hc; lia). cbn [mbind result_bind].
  rewrite (proj2 (N.leb_le _ _)) by lia. by eexists _, _.
Qed.

Definition calm (j : nat) (s : world) : Prop :=
  inv s ∧ script s = quiet latest now j ∧ backed s ∧ authorized now s.
Lemma calm_advance j s : calm (S j) s → calm j (advance s) ∧ next_step s = mk_step [] latest now Answered.
Proof.
  intros (Hi & Hs & Hb & Ha). assert (next_step s = mk_step [] latest now Answered) as Hn.
  { unfold next_step. by rewrite Hs. }
  split; [|done]. pose proof (proj1 (advance_inv s Hi)) as Hi'.
  assert (hist (advance s) = hist s) as Hh by (unfold advance; rewrite Hn; done).
  split_and!; [done|cbn; by rewrite Hs|unfold backed; by rewrite Hh|unfold authorized; by rewrite Hh].
Qed.
Lemma ask_quiet {A} j s (answer : world → A) :
  calm (S j) s → ask answer s = (Ok (answer (advance s)), advance s) ∧ calm j (advance s) ∧
                 cursor (advance s) = cursor s.
Proof. intros Hs. destruct (calm_advance j s Hs) as [Hc Hn]. unfold ask. by rewrite Hn. Qed.

Lemma run_withdraw h at_ms coin value n pays v :
  VaultContract.withdraw_as (VaultFacts.vault h) at_ms sender coin value n = Ok (pays, v) →
  VaultFacts.run_call h (VaultFacts.Withdraw at_ms sender coin value n) =
  VaultFacts.mk_history v (VaultFacts.credited h)
    (if (pays : bool) then VaultFacts.mk_payout coin value n :: VaultFacts.paid h else VaultFacts.paid h).
Proof. intros Hw. cbn. rewrite Hw. by destruct pays. Qed.
Lemma release_quiet j s b :
  calm (S j) s → b ∈ burns →
  ∃ s', release_burn b s = (Ok tt, s') ∧ calm j s' ∧ cursor s' = cursor s.
Proof.
  intros Hs Hin. destruct (calm_advance j s Hs) as [(Hi & Hsc & Hb & Ha) Hn]. cbn. rewrite Hn. cbn.
  destruct (withdraw_accepted _ b Hi Hb Ha Hin) as (pays & v & Hw & Hrot).
  pose proof (withdraw_call_spec now b (advance s) Hi Hin) as Hspec.
  unfold withdraw_call in *. rewrite Hw, (run_withdraw _ _ _ _ _ _ _ Hw) in *. destruct Hspec as (Hi' & _).
  eexists. split; [done|]. split; [|done]. split; [done|]. split; [done|].
  unfold backed, authorized. cbn [hist VaultFacts.credited VaultFacts.vault]. by rewrite Hrot.
Qed.
Lemma process_quiet j logs s :
  calm (length logs + j) s → logs ⊆ burns →
  ∃ s', process_logs logs s = (Ok tt, s') ∧ calm j s' ∧ cursor s' = cursor s.
Proof.
  revert s. induction logs as [|b logs IH]; intros s Hs Hl; [by exists s|].
  destruct (release_quiet (length logs + j) s b Hs) as (s1 & Hr & H1 & Hc); [set_solver|].
  destruct (IH s1 H1) as (s' & Hp & H' & Hc'); [set_solver|].
  exists s'. cbn [process_logs]. rewrite run_bind, Hr. split; [done|]. split; [done|congruence].
Qed.

Lemma pass_quiet s k :
  inv s → backed s → authorized now s → latest < U64_MAX →
  script s = quiet latest now k → (3 + length burns ≤ k)%nat →
  cursor (pass s) = N.max (cursor s) (latest + 1).
Proof.
  intros Hi Hb Ha Hl Hs Hk.
  assert (calm (3 + (k - 3)) s) as Hcalm by (split_and!; [done|rewrite Hs; f_equal; lia|done|done]).
  unfold pass, relay_withdrawals. rewrite run_bind. cbv beta iota delta [getM].
  change (get_block s) with (cursor s). rewrite run_bind.
  destruct (ask_quiet _ s (λ _, st_head (next_step s)) Hcalm) as (Hh & H1 & Hc1).
  change (l2_head s) with (ask (λ _, st_head (next_step s)) s). rewrite Hh.
  destruct (calm_advance _ s Hcalm) as [_ Hn]. rewrite Hn. cbn [st_head].
  destruct (N.ltb_spec latest (cursor s)) as [Hlt|Hge]; [cbn [snd mret M_ret]; rewrite Hc1; lia|].
  rewrite run_bind. destruct (ask_quiet _ _ (λ _, tt) H1) as (Hx & H2 & Hc2).
  change (index_creations (cursor s) latest (advance s)) with (ask (λ _, tt) (advance s)). rewrite Hx.
  rewrite run_bind. destruct (ask_quiet _ _ (λ _, burns_in (cursor s) latest) H2) as (Hy & H3 & Hc3).
  change (burn_logs (cursor s) latest (advance (advance s)))
    with (ask (λ _, burns_in (cursor s) latest) (advance (advance s))). rewrite Hy.
  rewrite run_bind.
  assert (length (burns_in (cursor s) latest) ≤ length burns)%nat as Hlen by apply length_filter.
  destruct (process_quiet (k - 3 - length (burns_in (cursor s) latest)) (burns_in (cursor s) latest)
              (advance (advance (advance s)))) as (s' & -> & _ & _).
  - replace (length (burns_in (cursor s) latest) + (k - 3 - length (burns_in (cursor s) latest)))%nat
      with (k - 3)%nat by lia. exact H3.
  - intros b. unfold burns_in. rewrite list_elem_of_filter. by intros [].
  - cbn. rewrite wadd_small by lia. lia.
Qed.
End Release.



(** ** A concrete history *)

Module ReleaseDemo.
Definition relayer : Address := array_fill 32 x07.
Definition coin : list byte := string_bytes "0x2::sui::SUI".
Definition bob : Address := array_fill 32 x09.
Definition burns : list burn := [mk_burn 3 coin bob 4 1; mk_burn 5 coin bob 6 2].
(** A deposit and the set-up of the authority; then the first release is
    executed but its answer is lost. *)
Definition rough : list step :=
  [mk_step [Deposits coin 20 (repeat x01 20);
            Rotates (Some (Contract.Rotation.mk_state relayer None None))] 5 100 Answered;
   mk_step [] 5 100 Answered; mk_step [] 5 100 Answered; mk_step [] 5 100 Unanswered].
Definition interrupted : world := pass relayer burns (world_init [] (rough ++ quiet 5 200 8)).
Definition after : world := pass relayer burns interrupted.

Lemma interrupted_state :
  length (released interrupted) = 1%nat ∧ cursor interrupted = 0 ∧ script interrupted = quiet 5 200 8.
Proof. by vm_compute. Qed.
Lemma after_state : length (released after) = 2%nat ∧ cursor after = 6.
Proof. by vm_compute. Qed.
Lemma keys : NoDup (key_of <$> burns).
Proof. apply (bool_decide_unpack _). by vm_compute. Qed.
Lemma trusted : authorized relayer 200 interrupted.
Proof. by vm_compute. Qed.
Lemma backing : backed burns interrupted.
Proof.
  intros c. change (VaultFacts.credited (hist interrupted)) with ([] ++ [mk_deposit 20 (repeat x01 20) coin]).
  rewrite VaultFacts.taken_snoc. cbn [coin_type amount].
  unfold burned, burns. cbn [fmap list_fmap]. rewrite !VaultFacts.released_cons.
  change (VaultFacts.released c []) with 0. change (VaultFacts.taken c []) with 0.
  cbn [payout_of VaultFacts.po_coin VaultFacts.po_value b_coin b_amount].
  case_bool_decide; lia.
Qed.
Lemma reachable_interrupted : reachable relayer burns interrupted.
Proof. exact (reach_pass _ _ _ (reach_init _ _ _ _)). Qed.
End ReleaseDemo.

