(* ===== verification/Setup.v ===== *)
(** Bringing a node up: [crates/node/src/settlement.rs] (preflight, the
    first-start deployment and the settlement signer), [keyring.rs] (key files)
    and the parts of [main.rs] that read the configuration (the p2p set-up and
    the advertisement of the node in the committee's book).

    The configuration is a shared, mutable value: [setup_signer] threads it next
    to the world, through failures too. *)

From Stdlib Require Import Lia Ascii.
From S2P Require Import Prelude Text Codec Disk Core Store Sui SuiInbox Config P2p L2Rpc Bridge.
Local Open Scope string_scope.
Local Open Scope list_scope.
Local Open Scope N_scope.

(** [Path::extension]: the text after the last dot, unless the only dot starts
    the name. *)
Definition extension (name : string) : option string :=
  match after_last "." name with
  | Some e => if decide (name = "." +:+ e) then None else Some e
  | None => None
  end.
Definition is_module (name : string) : bool := bool_decide (extension name = Some "mv").
(** [Path::is_file] and [Path::is_dir] *)
Definition is_file (p : path) (d : disk) : bool := bool_decide (is_Some (files d !! p)).
Definition is_dir (p : path) (d : disk) : bool := bool_decide (p ∈ dirs d).

(** ** Settlement *)

Section SettlementSetup.
Context {W PrivKey PubKey Tx TxSig : Type} `{Ed25519 PrivKey PubKey} `{Base64} `{SuiSdk}
  `{SuiRpc W PrivKey Tx TxSig} `{HasDisk W} `{Runtime W} `{Toml}.
Context `{Bcs RegistryBcs} `{Bcs FieldBlobBcs} `{Bcs UpgradeCapMirror}.
Abbreviation Op := (M W anyhow).

Definition DEPLOY_RETRY_BACKOFF : N := 15000.

(** The four object ids: package, settler cap, registry and inbox. *)
Definition Ids : Type := option string * option string * option string * option string.
Definition sui_ids (s : SuiConfig) : Ids :=
  (settlement_package_id s, sc_settler_cap_id s, sc_registry_id s, sc_inbox_id s).
Definition PARTIAL_IDS : string :=
  "settlement IDs are partially configured; either set all four (settlement_package_id, settler_cap_id, registry_id, inbox_id) or none".
Definition bytecode_dir (s : SuiConfig) : path :=
  move_dir s ++ ["build"; "podseq_settlement"; "bytecode_modules"].

(** Some module is in the bytecode directory. *)
Definition modules_built (s : SuiConfig) : Op bool :=
  w ← getM;
  if is_dir (bytecode_dir s) (get_disk w) then
    r ← tryM (on_disk (fs_read_dir (bytecode_dir s)));
    mret (match r with Ok names => existsb is_module names | Err _ => false end)
  else mret false.

Definition preflight (s : SuiConfig) (ids : Ids) (signer_key_path : path) : Op unit :=
  reachable ← tryM (ping_rpc (PrivKey := PrivKey) (Config.sui_rpc_url s));
  match reachable with
  | Err e => throw ["Sui RPC unreachable at " +:+ Config.sui_rpc_url s
                    +:+ "; is the node running and the URL correct? (error: "
                    +:+ settlement_error_text e +:+ ")"]
  | Ok _ =>
      match ids with
      | (Some _, Some _, Some registry_id, Some _) =>
          r ← tryM (latest_height (PrivKey := PrivKey) (Config.sui_rpc_url s) registry_id);
          match r with
          | Err e => throw ["cannot read settlement Registry " +:+ registry_id +:+ " on "
                            +:+ Config.sui_rpc_url s
                            +:+ "; verify sui.registry_id and that the contract is deployed (error: "
                            +:+ settlement_error_text e +:+ ")"]
          | Ok _ => mret tt
          end
      | (None, None, None, None) =>
          built ← modules_built s;
          if negb built then
            throw ["settlement contract is not deployed and the Move package is not built: no .mv modules in "
                   +:+ join_path (bytecode_dir s) +:+ ". Run `sui move build` in "
                   +:+ join_path (move_dir s) +:+ " first."]
          else
            w ← getM;
            if negb (is_file signer_key_path (get_disk w)) then
              throw ["signer key not found at " +:+ join_path signer_key_path
                     +:+ "; settlement deploy needs a suiprivkey (fund its address with SUI for gas)"]
            else mret tt
      | _ => throw [PARTIAL_IDS]
      end
  end.

(** The modules of the bytecode directory, in the directory's order. *)
Fixpoint read_files (dir : path) (names : list string) : M disk io_error (list (list byte)) :=
  match names with
  | [] => mret []
  | name :: names =>
      if is_module name then
        bs ← fs_read (dir ++ [name]); rest ← read_files dir names; mret (bs :: rest)
      else read_files dir names
  end.
Definition read_modules (s : SuiConfig) : Op (list (list byte)) :=
  names ← contextM ("reading " +:+ join_path (bytecode_dir s) +:+ " (run `sui move build` in "
                    +:+ join_path (move_dir s) +:+ " first)")
            (errM (λ e, [io_error_text e]) (on_disk (fs_read_dir (bytecode_dir s))));
  errM (λ e, [io_error_text e]) (on_disk (read_files (bytecode_dir s) names)).

(** Deploy, again every fifteen seconds until it works: [None] when [attempts]
    ran out, so more attempts are needed. *)
Fixpoint deploy_with_retry (attempts : nat) (signer_key_path : path) (url : string)
    (modules : list (list byte)) : Op (option DeployedContract) :=
  match attempts with
  | O => mret None
  | S attempts =>
      r ← tryM (deploy signer_key_path url modules);
      match r with
      | Ok deployed => mret (Some deployed)
      | Err _ =>
          modM (sleep_ms DEPLOY_RETRY_BACKOFF);;
          deploy_with_retry attempts signer_key_path url modules
      end
  end.

Definition with_settlement_ids (d : DeployedContract) (c : Config) : Config :=
  mk_config (reth c) (walrus c)
    (let s := sui c in
     mk_sui (Config.sui_rpc_url s) (move_dir s) (Some (package_id d)) (Some (settler_cap_id d))
       (Some (registry_id d)) (Some (inbox_id d)) (rotation_key_path s) (commit_state_roots s))
    (signer c) (sequencer c) (bridge c) (p2p c) (metrics c) (data_dir c) (mode c).

Definition env {E A} (m : M W E A) : M (Config * W) E A := zoom snd (λ w s, (s.1, w)) m.
Definition new_signer (label : string) (signer_key_path : path) (package cap registry inbox url : string)
    : M (Config * W) anyhow (Settlement PrivKey) :=
  contextM label (errM (λ e, [settlement_error_text e])
    (env (settlement_new signer_key_path package cap registry inbox url))).

(** [None] while the deployment is still being retried. *)
Definition setup_signer (attempts : nat) (config_path signer_key_path : path)
    : M (Config * W) anyhow (option (Settlement PrivKey)) :=
  c ← fst <$> getM;
  match sui_ids (sui c) with
  | (Some package, Some cap, Some registry, Some inbox) =>
      settlement ← new_signer "building settlement signer" signer_key_path package cap registry inbox
                     (Config.sui_rpc_url (sui c));
      mret (Some (with_commit_state_roots settlement (commit_state_roots (sui c))))
  | (None, None, None, None) =>
      modules ← env (read_modules (sui c));
      deployed ← env (deploy_with_retry attempts signer_key_path (Config.sui_rpc_url (sui c)) modules);
      match deployed with
      | None => mret None
      | Some d =>
          modM (λ s, (with_settlement_ids d c, s.2));;
          env (on_disk (Config.save (with_settlement_ids d c) config_path));;
          Some <$> new_signer "building settlement signer after deploy" signer_key_path
                     (package_id d) (settler_cap_id d) (registry_id d) (inbox_id d)
                     (Config.sui_rpc_url (sui c))
      end
  | _ => throw [PARTIAL_IDS]
  end.
End SettlementSetup.

(** ** Keys *)

Module Keyring.
(** Key generation is the callers' randomness; [to_suiprivkey] and the secp256k1
    key's bytes are the crypto crates'. *)
Class KeyText (PrivKey EvmKey : Type) := {
  to_suiprivkey : PrivKey → result string string;
  evm_to_bytes : EvmKey → array 32
}.

Section Keyring.
Context {PrivKey PubKey EvmKey PeerKey Identity : Type} `{Ed25519 PrivKey PubKey} `{Base64} `{SuiSdk}
  `{Hex} `{EvmSdk} `{EvmSigner EvmKey} `{KeyText PrivKey EvmKey} `{PeerKeys PeerKey Identity}.
(** The result is what the command prints. *)
Abbreviation Cmd := (M disk anyhow (list string)).

Definition generate_key (key : PrivKey) (out : path) (label : string) : Cmd :=
  suiprivkey ← lift (map_err (λ e, ["encoding key: " +:+ e]) (to_suiprivkey key));
  let address := derive_address (public_key key) in
  contextM ("writing " +:+ label +:+ " key to " +:+ join_path out)
    (errM (λ e, [io_error_text e]) (fs_write out (string_bytes suiprivkey)));;
  mret [label +:+ " key written to: " +:+ join_path out; "Address: " +:+ address_to_hex address].
Definition generate_signer (key : PrivKey) (out : path) : Cmd :=
  lines ← generate_key key out "Signer";
  mret (lines ++ [""; "Fund this address with SUI (for gas) on the target network."]).
Definition generate_evm_key (key : EvmKey) (out : path) : Cmd :=
  contextM ("writing EVM key to " +:+ join_path out)
    (errM (λ e, [io_error_text e])
      (fs_write out (string_bytes (hex_encode (arr_bytes (evm_to_bytes key))))));;
  mret ["EVM relayer key written to: " +:+ join_path out;
        "L2 address: " +:+ to_checksum (Bridge.evm_address key);
        ""; "Set this address as the `relayer` on Bridge.sol at predeploy,";
        "and fund it with L2 gas."].

Definition sui_address (p : path) : M disk anyhow string :=
  raw ← contextM ("reading signer key " +:+ join_path p)
          (errM (λ e, [io_error_text e]) (fs_read_to_string p));
  key ← lift (map_err (λ e, ["parsing signer key: " +:+ e]) (parse_signer_key (trim raw)));
  mret (address_to_hex (derive_address (public_key key))).
Definition evm_address (p : path) : M disk anyhow string :=
  raw ← contextM ("reading EVM key " +:+ join_path p)
          (errM (λ e, [io_error_text e]) (fs_read_to_string p));
  bytes ← lift (context "decoding EVM key hex" (map_err (λ e, [e]) (hex_decode (trim raw))));
  signer ← lift (context "invalid EVM key" (map_err (λ e, [e]) (key_from_slice bytes)));
  mret (to_checksum (Bridge.evm_address signer)).

(** [{e:#}]: the chain of messages on one line. *)
Definition print_derived (label : string) (m : M disk anyhow string) : Cmd :=
  derived ← tryM m;
  mret (match derived with
        | Ok value => ["    " +:+ label +:+ ": " +:+ value]
        | Err e => ["    " +:+ label +:+ ": unavailable (" +:+ String.concat ": " e +:+ ")"]
        end).
(** The command-line path of the p2p key is one component here. *)
Definition list (c : Config) : Cmd :=
  signer_lines ←
    match Config.key_path (signer c) with
    | Some p => l ← print_derived "address" (sui_address p);
                mret (("  signer (Sui, ed25519): " +:+ join_path p) :: l)
    | None => mret ["  signer (Sui, ed25519): (not configured)"]
    end;
  p2p_lines ←
    match p2p_key_path (p2p c) with
    | Some p => l ← print_derived "pubkey" (read_pubkey_hex [p]);
                mret (("  p2p:                   " +:+ p) :: l)
    | None => mret ["  p2p:                   (not configured)"]
    end;
  relayer_lines ←
    match l2_relayer_key_path (bridge c) with
    | Some p =>
        let note := if bridge_enabled (bridge c) then "" else " (bridge disabled)" in
        l ← print_derived "address" (evm_address p);
        mret (("  bridge relayer (EVM):  " +:+ join_path p +:+ note) :: l)
    | None =>
        mret (if bridge_enabled (bridge c)
              then ["  bridge relayer (EVM):  MISSING (bridge.enabled but no key)"] else [])
    end;
  mret ("Configured keys:" :: signer_lines ++ p2p_lines ++ relayer_lines).
End Keyring.
End Keyring.

(** ** Advertising the node *)

Section Advertise.
Context {W PrivKey PubKey Tx TxSig PeerKey Identity : Type} `{Ed25519 PrivKey PubKey} `{SuiSdk}
  `{SuiRpc W PrivKey Tx TxSig} `{HasDisk W} `{Runtime W} `{Hex} `{PeerKeys PeerKey Identity}.

(** [require]: a value that is not blank, trimmed. *)
Definition require (value : option string) : option string :=
  v ← value; if is_blank v then None else Some (trim v).

(** [peers::PeerTargets], the node's identity and its dial address. *)
Record Advertisement := mk_advertisement {
  target_package : Address; target_registry : Address; ad_pubkey : array 32; ad_addr : string
}.
Definition advertise_targets (c : Config) : M disk anyhow (option Advertisement) :=
  match require (settlement_package_id (sui c)), require (sc_registry_id (sui c)),
        require (Config.dialable_addr (p2p c)) with
  | Some package, Some registry, Some dialable =>
      match parse_address package "sui.settlement_package_id",
            parse_address registry "sui.registry_id" with
      | Ok package, Ok registry =>
          hex ← tryM (read_pubkey_hex [default "" (p2p_key_path (p2p c))]);
          mret (hex ← to_option hex;
                bytes ← to_option (hex_decode hex);
                pubkey ← try_into_array 32 bytes;
                Some (mk_advertisement package registry pubkey dialable))
      | _, _ => mret None
      end
  | _, _, _ => mret None
  end.

(** [signer_key]: the key of the shared settlement signer at that moment.
    Whether the publication succeeded within the attempts left. *)
Context (signer_key : W → PrivKey).
Fixpoint publish_attempts (attempts : nat) (rpc_url : string) (a : Advertisement) : M W anyhow bool :=
  match attempts with
  | O => mret false
  | S attempts =>
      w ← getM;
      r ← tryM (submit_publish_peer rpc_url (signer_key w) (target_package a) (target_registry a)
                  (ad_pubkey a) (ad_addr a));
      match r with
      | Ok _ => mret true
      | Err _ => modM (sleep_ms 10000);; publish_attempts attempts rpc_url a
      end
  end.
Definition spawn_advertise : string → Advertisement → M W anyhow bool := publish_attempts 5.
(** [None]: no task is spawned. *)
Definition maybe_spawn_advertise (c : Config) : M W anyhow (option (M W anyhow bool)) :=
  if negb (advertise (p2p c)) then mret None
  else
    targets ← on_disk (advertise_targets c);
    mret (spawn_advertise (Config.sui_rpc_url (sui c)) <$> targets).
End Advertise.

(** ** The p2p configuration *)

Section P2pSetup.
(** [str::parse::<SocketAddr>]: the address as canonical text. *)
Variable socket_addr : string → result string string.

Definition parse_bootstrap_peer (s : string) : result anyhow (string * string) :=
  '(hex, addr) ← ok_or (split_once "@"%char s) ["bootstrap peer missing '@' separator: " +:+ s];
  addr ← context ("bootstrap peer addr invalid for " +:+ s) (map_err (λ e, [e]) (socket_addr addr));
  Ok (hex, addr).
(** [build_p2p] up to the node's construction; [None] when p2p is off. *)
Definition build_p2p_config (cfg : Config.P2pConfig) : result anyhow (option P2p.P2pConfig) :=
  if no_p2p cfg then Ok None
  else
    key_path ← ok_or (p2p_key_path cfg) ["p2p key path is required (set p2p.key_path in config)"];
    listen ← map_err (λ e, [e]) (socket_addr (Config.listen_addr cfg));
    dialable ← match Config.dialable_addr cfg with
               | None => Ok None
               | Some s => Some <$> map_err (λ e, [e]) (socket_addr s)
               end;
    peers ← mapM parse_bootstrap_peer (Config.bootstrap_peers cfg);
    let d := p2p_config_default in
    Ok (Some (mk_p2p_config (Some [key_path]) listen dialable (string_bytes "podseq-v1") peers
                (Config.registry_admission cfg) (max_message_size d) (broadcast_cache_size d)
                (broadcast_mailbox_size d) (mailbox_size d) (max_peers_per_set d))).
End P2pSetup.
