(* ===== verification/SetupFacts.v ===== *)
(** Facts about a node's start ([Setup]): what the first start deploys and saves
    is what every later start attaches to, the preflight's promise to the
    deployment, and the key files. *)

From Stdlib Require Import Lia Ascii.
From S2P Require Import Prelude Text Codec Disk Core Store Sui SuiInbox Config P2p L2Rpc Bridge Setup.
Local Open Scope string_scope.
Local Open Scope list_scope.
Local Open Scope N_scope.

(** The toml crate reads back what it writes, as text. *)
Class TomlLaws `{Toml} := {
  toml_roundtrip c text : toml_to_string_pretty (raw_of c) = Ok text → toml_from_str text = Ok (raw_of c);
  toml_utf8 c text : toml_to_string_pretty (raw_of c) = Ok text → from_utf8 (string_bytes text) = Some text
}.

(** A disk without faults answers a read with the file, and is unchanged. *)
Lemma read_calm p d bs s :
  faults d = [] → files d !! p = Some bs → from_utf8 bs = Some s → fs_read_to_string p d = (Ok s, d).
Proof.
  intros Hf Hp Hs. unfold fs_read_to_string. rewrite run_bind. unfold fs_read, next_fault, pop_fault.
  rewrite Hf, Hp. cbn. unfold lift. rewrite Hs. destruct d; cbn in *; by subst.
Qed.
Lemma read_ok_file p d s d' :
  fs_read_to_string p d = (Ok s, d') →
  ∃ bs, files d !! p = Some bs ∧ from_utf8 bs = Some s ∧ files d' = files d.
Proof.
  intros H. pose proof (fs_read_to_string_frame _ _ _ _ H) as [Hf _].
  apply fs_read_to_string_ok in H as (bs & ? & ?). eauto.
Qed.

(** ** Starting again *)

Section Restart.
Context {W PrivKey PubKey Tx TxSig : Type} `{Ed25519 PrivKey PubKey} `{Base64} `{SuiSdk}
  `{SuiRpc W PrivKey Tx TxSig} `{HasDisk W} `{Runtime W} `{Toml}.
Context `{Bcs RegistryBcs} `{Bcs FieldBlobBcs} `{Bcs UpgradeCapMirror}.
Context `{!HasDiskLaws W} `{!TomlLaws}.

Definition NO_IDS : Ids := (None, None, None, None).

(** The signer is a function of the key file and the ids. *)
Lemma settlement_new_ok kp p c r i url w (s : Settlement PrivKey) w' :
  settlement_new kp p c r i url w = (Ok s, w') →
  files (get_disk w') = files (get_disk w) ∧ s_commit_state_roots s = true ∧
  ∀ w2, faults (get_disk w2) = [] →
    files (get_disk w2) !! kp = files (get_disk w) !! kp →
    ∃ w3, settlement_new kp p c r i url w2 = (Ok s, w3) ∧ get_disk w3 = get_disk w2.
Proof.
  unfold settlement_new, load_signer. intros ([key sender] & w1 & Hl & Hrun)%bind_ok_inv.
  apply bind_ok_inv in Hl as (text & wa & Ht & Hk).
  apply bind_ok_inv in Hk as (key' & wb & Hkey & Hret). cbv [lift] in Hkey.
  injection Hkey as Hkey <-. injection Hret as -> <- <-.
  unfold errM, on_disk, zoom in Ht. destruct (fs_read_to_string kp (get_disk w)) as [rt d'] eqn:Hr.
  destruct rt as [text'|]; [|done]. injection Ht as -> <-.
  apply read_ok_file in Hr as (bs & Hbs & Hu & Hf).
  apply bind_ok_inv in Hrun as (u & wc & Hc & Hrun). unfold connect, lift in Hc. injection Hc as Hc <-.
  apply bind_ok_inv in Hrun as ([[[p' c'] r'] i'] & wd & Hids & Hret). cbv [lift] in Hids.
  injection Hids as Hids <-. cbv [mret M_ret] in Hret. injection Hret as <- <-.
  rewrite get_put_disk. split; [done|]. split; [done|]. intros w2 Hnf Hsame.
  exists (put_disk (get_disk w2) w2). rewrite get_put_disk. split; [|done].
  rewrite !run_bind. unfold errM, on_disk, zoom.
  rewrite (read_calm kp (get_disk w2) bs text) by (done || by rewrite Hsame).
  cbn [map_err]. rewrite !run_bind. unfold lift. rewrite Hkey. cbn [mret M_ret].
  rewrite run_bind. unfold connect, lift. rewrite Hc. rewrite run_bind, Hids. done.
Qed.

Lemma new_signer_ok label kp p c r i url (cfg : Config) w (s : Settlement PrivKey) st :
  new_signer label kp p c r i url (cfg, w) = (Ok s, st) →
  ∃ w', settlement_new kp p c r i url w = (Ok s, w') ∧ st = (cfg, w').
Proof.
  unfold new_signer, contextM, errM, env, zoom. cbn [snd fst].
  destruct (settlement_new kp p c r i url w) as [[s'|e] w'] eqn:Hs; cbn; [|done].
  intros [= -> <-]. eauto.
Qed.
Lemma new_signer_run label kp p c r i url (cfg : Config) w (s : Settlement PrivKey) w' :
  settlement_new kp p c r i url w = (Ok s, w') →
  new_signer label kp p c r i url (cfg, w) = (Ok s, (cfg, w')).
Proof.
  unfold new_signer, contextM, errM, env, zoom. cbn [snd fst]. by intros ->.
Qed.

(** The saved file holds the configuration the process goes on with. *)
Lemma save_ok c p d d' :
  p ≠ [] → with_extension p "toml.tmp" ≠ p → Config.save c p d = (Ok tt, d') →
  ∃ text, toml_to_string_pretty (raw_of c) = Ok text ∧ files d' !! p = Some (string_bytes text).
Proof.
  intros Hp Ht Hs. destruct (toml_to_string_pretty (raw_of c)) as [text|e] eqn:Htext.
  - exists text. split; [done|].
    apply (config_save_atomic c p d (Ok tt) d' text Hp Ht); [|done]. unfold to_toml. by rewrite Htext.
  - unfold Config.save, write, to_toml in Hs. rewrite Htext in Hs. done.
Qed.
Lemma load_saved_config c p d text :
  faults d = [] → toml_to_string_pretty (raw_of c) = Ok text → files d !! p = Some (string_bytes text) →
  Config.load p d = (Ok (reloaded c), d).
Proof.
  intros Hf Ht Hp. unfold Config.load. rewrite run_bind. unfold errM.
  rewrite (read_calm p d (string_bytes text) text Hf Hp) by by eapply toml_utf8.
  cbn [map_err]. unfold lift, from_str, context. rewrite (toml_roundtrip c text Ht).
  cbn [map_err mbind result_bind]. by rewrite resolve_raw_of.
Qed.

(** C23: a node deploys once.  When a first start, without object ids, returns a
    settlement signer, the ids of its deployment are in the configuration it
    goes on with and in the saved file: any later start that finds the same two
    files, however many deployment attempts it is allowed, even none, loads
    those ids and attaches to the same objects with the same key.  The one
    thing the first start ignores is [commit_state_roots]: its signer always
    anchors state roots, and only a later start obeys the setting. *)
Theorem restart_attaches attempts cp kp c w (s : Settlement PrivKey) c1 w1 attempts' w2 :
  cp ≠ [] → with_extension cp "toml.tmp" ≠ cp →
  sui_ids (sui c) = NO_IDS →
  setup_signer attempts cp kp (c, w) = (Ok (Some s), (c1, w1)) →
  faults (get_disk w2) = [] →
  files (get_disk w2) !! cp = files (get_disk w1) !! cp →
  files (get_disk w2) !! kp = files (get_disk w1) !! kp →
  s_commit_state_roots s = true ∧
  ∃ c2 w3,
    Config.load cp (get_disk w2) = (Ok c2, get_disk w2) ∧ sui c2 = sui c1 ∧
    setup_signer attempts' cp kp (c2, w2)
    = (Ok (Some (with_commit_state_roots s (commit_state_roots (sui c)))), (c2, w3)).
Proof.
  intros Hcp Htmp Hids Hsetup Hnf Hfc Hfk. unfold setup_signer in Hsetup.
  apply bind_ok_inv in Hsetup as (c0 & st0 & Hget & Hsetup).
  cbv [fmap M_fmap getM result_fmap] in Hget. injection Hget as <- <-. cbn [fst] in Hsetup.
  rewrite Hids in Hsetup. unfold NO_IDS in Hsetup.
  apply bind_ok_inv in Hsetup as (mods & [ca wa] & Hm & Hsetup).
  assert (ca = c) as ->.
  { unfold env, zoom in Hm. cbn [fst snd] in Hm. destruct (read_modules (sui c) w); congruence. }
  apply bind_ok_inv in Hsetup as ([d|] & [cb wb] & Hd & Hsetup); [|done].
  assert (cb = c) as ->.
  { unfold env, zoom in Hd. cbn [fst snd] in Hd. destruct (deploy_with_retry _ _ _ _ wa); congruence. }
  clear Hm Hd. apply bind_ok_inv in Hsetup as (u & st & Hmod & Hsetup). cbv [modM] in Hmod.
  injection Hmod as _ <-. cbn [snd] in Hsetup. set (c' := with_settlement_ids d c) in *.
  apply bind_ok_inv in Hsetup as (u' & st & Hsave & Hsetup).
  unfold env, on_disk, zoom in Hsave. cbn [fst snd] in Hsave.
  destruct (Config.save c' cp (get_disk wb)) as [rs d'] eqn:Hs. injection Hsave as -> <-.
  destruct u'. apply save_ok in Hs as (text & Htext & Hfile); [|done..].
  cbv [fmap M_fmap] in Hsetup.
  destruct (new_signer _ kp _ _ _ _ _ (c', put_disk d' wb)) as [[s'|e] st] eqn:Hn; [|done].
  injection Hsetup as -> ->. apply new_signer_ok in Hn as (w1' & Hnew & [= -> <-]).
  apply settlement_new_ok in Hnew as (Hf1 & Hflag & Hagain). rewrite get_put_disk in Hf1.
  rewrite get_put_disk in Hagain. split; [done|].
  destruct (Hagain w2 Hnf) as (w3 & Hnew2 & _); [by rewrite Hfk, Hf1|].
  exists (reloaded c'), w3.
  assert (sui (reloaded c') = sui c') as Hsui by done.
  split; [|split; [done|]].
  { apply (load_saved_config c' cp (get_disk w2) text Hnf Htext).
    etrans; [exact Hfc|]. rewrite Hf1. exact Hfile. }
  unfold setup_signer. rewrite run_bind. cbv [fmap M_fmap getM result_fmap]. cbn [fst].
  rewrite Hsui. cbn [sui_ids sui c' with_settlement_ids settlement_package_id sc_settler_cap_id
    sc_registry_id sc_inbox_id].
  rewrite run_bind, (new_signer_run _ _ _ _ _ _ _ _ _ _ _ Hnew2). done.
Qed.
End Restart.

(** ** Preflight *)

Section Preflight.
Context {W PrivKey PubKey Tx TxSig : Type} `{Ed25519 PrivKey PubKey} `{Base64} `{SuiSdk}
  `{SuiRpc W PrivKey Tx TxSig} `{HasDisk W} `{Runtime W}.
Context `{Bcs RegistryBcs} `{Bcs FieldBlobBcs} `{Bcs UpgradeCapMirror}.
Context `{!HasDiskLaws W}.

(** The names [read_dir] gives, apart from faults. *)
Definition names_in (p : path) (d : disk) : list string :=
  omap (λ '(q, _), if bool_decide (parent q = p) then last q else None) (map_to_list (files d)).
Lemma read_dir_ok p d names d' :
  fs_read_dir p d = (Ok names, d') → p ∈ dirs d ∧ names = names_in p d.
Proof.
  unfold fs_read_dir. destruct (next_fault d); [|done..]. case_bool_decide; [|done]. by intros [= <- _].
Qed.
Lemma calm_pop d : faults d = [] → pop_fault d = d.
Proof. intros Hf. destruct d; cbn in *. by subst. Qed.
Lemma read_dir_calm p d : faults d = [] → p ∈ dirs d → fs_read_dir p d = (Ok (names_in p d), d).
Proof.
  intros Hf Hp. unfold fs_read_dir, next_fault. rewrite Hf, bool_decide_true, calm_pop by done. done.
Qed.
Lemma read_files_calm p d names :
  faults d = [] → (∀ n, n ∈ names → is_Some (files d !! (p ++ [n]))) →
  ∃ ms, read_files p names d = (Ok ms, d) ∧ length ms = length (List.filter is_module names).
Proof.
  intros Hf. induction names as [|n names IH]; intros Hn; [by exists []|].
  destruct IH as (ms & Hms & Hlen); [intros m Hm; apply Hn; by right|].
  destruct (Hn n ltac:(left)) as [bs Hbs]. cbn [read_files List.filter].
  destruct (is_module n); [|by exists ms]. exists (bs :: ms). split; [|cbn; congruence].
  rewrite run_bind. unfold fs_read, next_fault. rewrite Hf. change (list string) with path in Hbs.
  rewrite Hbs, calm_pop by done. cbn [ok_or]. by rewrite run_bind, Hms.
Qed.

(** what the preflight lets through can start.  When it succeeds, the ids
    are all set, or none is; and in the second case the signer key exists and
    the deployment finds compiled modules to publish, as long as the disk still
    holds the same files and reads work. *)
Theorem preflight_guards_deploy (s : SuiConfig) kp w w' :
  preflight s (sui_ids s) kp w = (Ok tt, w') →
  (∃ p c r i, sui_ids s = (Some p, Some c, Some r, Some i)) ∨
  (sui_ids s = NO_IDS ∧ is_Some (files (get_disk w') !! kp) ∧
   ∀ w2, faults (get_disk w2) = [] → files (get_disk w2) = files (get_disk w') →
     dirs (get_disk w2) = dirs (get_disk w') →
     ∃ m ms w3, read_modules s w2 = (Ok (m :: ms), w3)).
Proof.
  unfold preflight. intros (reach & w1 & _ & Hp)%bind_ok_inv. destruct reach as [u|e]; [|done].
  destruct (sui_ids s) as [[[[p|] [c|]] [r|]] [i|]]; try done; [by left; eauto|]. right.
  split; [done|]. apply bind_ok_inv in Hp as (built & w2 & Hb & Hp).
  destruct built; cbn [negb] in Hp; [|done]. apply bind_ok_inv in Hp as (wg & w3 & Hg & Hp).
  unfold getM in Hg. injection Hg as <- <-. destruct (is_file kp (get_disk w2)) eqn:Hfile; [|done].
  cbn [negb] in Hp. injection Hp as <-.
  unfold is_file in Hfile. apply bool_decide_eq_true in Hfile. split; [done|].
  unfold modules_built in Hb. apply bind_ok_inv in Hb as (wg & w3 & Hg & Hb).
  unfold getM in Hg. injection Hg as <- <-. destruct (is_dir _ _) eqn:Hdir; [|done].
  apply bind_ok_inv in Hb as (names & w3 & Hn & Hb). cbv [mret M_ret] in Hb. injection Hb as Hnames <-.
  unfold tryM, on_disk, zoom in Hn. destruct (fs_read_dir _ (get_disk w1)) as [rn d'] eqn:Hr.
  injection Hn as -> <-. destruct names as [names|]; [|done]. rewrite get_put_disk in *.
  assert (files d' = files (get_disk w1) ∧ dirs d' = dirs (get_disk w1)) as [Hfd Hdd].
  { unfold fs_read_dir in Hr. destruct (next_fault _); [|done..].
    case_bool_decide; [|done]. by injection Hr as _ <-. }
  apply read_dir_ok in Hr as [Hin ->]. intros w4 Hnf Hf4 Hd4.
  assert (names_in (bytecode_dir s) (get_disk w4) = names_in (bytecode_dir s) (get_disk w1)) as Hsame.
  { unfold names_in. by rewrite Hf4, Hfd. }
  unfold read_modules. rewrite run_bind. unfold contextM, errM, on_disk, zoom.
  rewrite read_dir_calm, Hsame by (done || by rewrite Hd4, Hdd).
  cbn [map_err]. rewrite get_put_disk.
  destruct (read_files_calm (bytecode_dir s) (get_disk w4) (names_in (bytecode_dir s) (get_disk w1)))
    as (ms & Hms & Hlen); [done| |].
  { intros n. rewrite <- Hsame. apply (BlockFacts.elem_of_names (BlockStore.mk (bytecode_dir s))). }
  rewrite Hms. cbn [map_err]. destruct ms as [|m ms]; [|by eauto]. exfalso.
  apply existsb_exists in Hnames as (n & Hn & Hmod).
  assert (n ∈ List.filter is_module (names_in (bytecode_dir s) (get_disk w1))) as Hfilt.
  { apply list_elem_of_In, filter_In. done. }
  destruct (List.filter _ _); [by apply not_elem_of_nil in Hfilt|done].
Qed.
End Preflight.

(** ** Key files *)

(** The key encoders read back what they write. *)
Class KeyTextLaws (PrivKey PubKey EvmKey : Type) `{Ed25519 PrivKey PubKey} `{EvmSigner EvmKey}
    `{!Keyring.KeyText PrivKey EvmKey} := {
  suiprivkey_text key t : Keyring.to_suiprivkey key = Ok t →
    from_suiprivkey (to_lowercase t) = Ok key ∧ trim t = t ∧ starts_with "suiprivkey" t = true ∧
    from_utf8 (string_bytes t) = Some t;
  evm_key_bytes (k : EvmKey) : key_from_slice (arr_bytes (Keyring.evm_to_bytes k)) = Ok k
}.

Section Keys.
Context {PrivKey PubKey EvmKey : Type} `{Ed25519 PrivKey PubKey} `{Base64} `{SuiSdk}
  `{Hex} `{EvmSdk} `{EvmSigner EvmKey} `{!Keyring.KeyText PrivKey EvmKey}.
Context `{!HexLaws} `{!KeyTextLaws PrivKey PubKey EvmKey}.

Lemma write_calm p bs d u d' :
  faults d = [] → fs_write p bs d = (Ok u, d') → faults d' = [] ∧ files d' !! p = Some bs.
Proof.
  intros Hf. unfold fs_write, next_fault. rewrite Hf. destruct (bool_decide _); [|done].
  intros [= _ <-]. cbn. by rewrite Hf, lookup_insert_eq.
Qed.

(** the keyring's files hold the keys it made.  A generated signer key
    reads back from its file as itself: the printed address is the one the file
    derives, and the block signer loads that key.  The file of a generated EVM
    key derives the printed L2 address. *)
Theorem keyring_roundtrip (key : PrivKey) (evm : EvmKey) out d lines d1 :
  faults d = [] →
  (Keyring.generate_signer (EvmKey := EvmKey) key out d = (Ok lines, d1) →
   let address := address_to_hex (derive_address (public_key key)) in
   "Address: " +:+ address ∈ lines ∧
   Keyring.sui_address out d1 = (Ok address, d1) ∧
   from_suiprivkey_file out d1 = (Ok (mk_signer key), d1)) ∧
  (Keyring.generate_evm_key (PrivKey := PrivKey) evm out d = (Ok lines, d1) →
   let address := to_checksum (Bridge.evm_address evm) in
   "L2 address: " +:+ address ∈ lines ∧
   Keyring.evm_address out d1 = (Ok address, d1)).
Proof.
  intros Hnf. split.
  - unfold Keyring.generate_signer, Keyring.generate_key.
    intros (l & d2 & Hg & Hret)%bind_ok_inv.
    apply bind_ok_inv in Hg as (t & d3 & Ht & Hg). cbv [lift] in Ht. injection Ht as Ht <-.
    destruct (Keyring.to_suiprivkey key) as [t'|] eqn:Hkey; [|done]. injection Ht as ->.
    apply bind_ok_inv in Hg as (u & d3 & Hw & Hg). unfold contextM, errM in Hw.
    destruct (fs_write out _ d) as [[u'|] d4] eqn:Hwr; [|done]. injection Hw as -> <-.
    cbv [mret M_ret] in Hg, Hret. injection Hg as <- <-. injection Hret as <- <-.
    apply write_calm in Hwr as [Hf4 Hfile]; [|done].
    destruct (suiprivkey_text key t Hkey) as (Hfrom & Htrim & Hstart & Hu).
    assert (parse_signer_key t = Ok key) as Hparse.
    { unfold parse_signer_key. by rewrite Htrim, Hstart. }
    split; [right; left|]. unfold Keyring.sui_address, from_suiprivkey_file, contextM.
    rewrite !run_bind. unfold errM. rewrite (read_calm out d4 _ t Hf4 Hfile Hu). cbn [map_err].
    rewrite !run_bind, Htrim. unfold lift. by rewrite Hparse.
  - unfold Keyring.generate_evm_key. intros (u & d2 & Hw & Hret)%bind_ok_inv.
    unfold contextM, errM in Hw. destruct (fs_write out _ d) as [[u'|] d4] eqn:Hwr; [|done].
    injection Hw as -> <-. cbv [mret M_ret] in Hret. injection Hret as <- <-.
    apply write_calm in Hwr as [Hf4 Hfile]; [|done]. split; [right; left|].
    set (text := hex_encode (arr_bytes (Keyring.evm_to_bytes evm))) in *.
    assert (from_utf8 (string_bytes text) = Some text) as Hu by apply utf8_digits, hex_digits.
    unfold Keyring.evm_address, contextM. rewrite run_bind. unfold errM.
    rewrite (read_calm out d4 _ text Hf4 Hfile Hu). cbn [map_err]. rewrite run_bind.
    assert (trim text = text) as -> by apply trim_digits, hex_digits.
    unfold lift, context, text. rewrite hex_roundtrip. cbn [map_err]. rewrite run_bind.
    unfold lift. by rewrite evm_key_bytes.
Qed.
End Keys.

(** ** Witnesses *)

Module SetupDemo.
Import Codec.Demo.

(** A package, a registry, a cap and an inbox whatever is executed. *)
Definition id_of (b : byte) : string := "0x" +:+ hex_enc (replicate 32 b).
Definition response : ExecResponse := mk_exec true None
  [mk_changed (Some (id_of x0a)) false true OwnerOther;
   mk_changed (Some (id_of x0b)) true false OwnerAddress;
   mk_changed (Some (id_of x0c)) true false OwnerShared].
#[export] Instance rpc : SuiRpc disk (array 32) ptb unit := {|
  rpc_connect _ := Ok tt;
  rpc_get_object _ _ := mret (Some (Some (replicate 48 x00)));
  rpc_build _ t := mret t;
  sign_transaction _ _ := Ok tt;
  rpc_execute _ _ _ _ := mret response;
  rpc_get_epoch _ := mret tt;
  rpc_list_balances _ _ w := ([], w)
|}.
#[export] Instance runtime : Runtime disk :=
  {| now_ms _ := 0; sleep_ms _ w := w; shutting_down _ := false |}.
#[export] Instance no_bcs {A} : Bcs A :=
  {| bcs_to_bytes _ := Err "bcs"; bcs_from_bytes _ := Err "bcs" |}.

Definition deployed : DeployedContract :=
  mk_deployed (id_of x0a) (id_of x0b) (id_of x0c) (id_of x0c) (id_of x0b) (id_of x0b).
Definition saved : Config := with_settlement_ids deployed testnet.

#[export] Instance raw_reth_dec : EqDecision RawReth. Proof. solve_decision. Defined.
#[export] Instance raw_walrus_dec : EqDecision RawWalrus. Proof. solve_decision. Defined.
#[export] Instance raw_sui_dec : EqDecision RawSui. Proof. solve_decision. Defined.
#[export] Instance raw_signer_dec : EqDecision RawSigner. Proof. solve_decision. Defined.
#[export] Instance raw_p2p_dec : EqDecision RawP2p. Proof. solve_decision. Defined.
#[export] Instance raw_bridge_dec : EqDecision RawBridge. Proof. solve_decision. Defined.
#[export] Instance raw_metrics_dec : EqDecision RawMetrics. Proof. solve_decision. Defined.
#[export] Instance raw_sequencer_dec : EqDecision RawSequencer. Proof. solve_decision. Defined.
#[export] Instance raw_config_dec : EqDecision RawConfig. Proof. solve_decision. Defined.
(** A codec of one document. *)
#[export] Instance toml : Toml := {|
  toml_from_str s := if decide (s = "saved") then Ok (raw_of saved) else Err "toml";
  toml_to_string_pretty r := if decide (r = raw_of saved) then Ok "saved" else Err "toml"
|}.
#[export] Instance toml_laws : TomlLaws.
Proof.
  split; intros c text; cbn [toml_to_string_pretty toml_from_str toml]; case_decide as Hc; try done;
    intros [= <-]; [|done]. rewrite decide_True by done. by rewrite Hc.
Qed.

Definition cp : path := ["node.toml"].
Definition kp : path := ["signer.key"].
Definition dir : path := bytecode_dir (Config.sui testnet).
Definition disk0 : disk := mk_disk
  (<[kp := x00 :: replicate 32 x07]> {[ dir ++ ["settlement.mv"] := [x01; x02] ]})
  {[ []; dir ]} [].
(** The first start: it gives a signer and leaves a disk without faults. *)
Definition start : result anyhow (option (Settlement (array 32))) * (Config * disk) :=
  setup_signer (Tx := ptb) 1 cp kp (testnet, disk0).
Definition started : bool :=
  match start with
  | (Ok (Some _), (_, d)) => match faults d with [] => true | _ => false end
  | _ => false
  end.
Lemma start_ok : started = true.
Proof. by vm_compute. Qed.

Lemma restart_attaches_witness :
  ∃ (s : Settlement (array 32)) c1 w1, start = (Ok (Some s), (c1, w1)) ∧
  s_commit_state_roots s = true ∧
  ∃ c2 w3,
    Config.load cp (get_disk w1) = (Ok c2, get_disk w1) ∧ Config.sui c2 = Config.sui c1 ∧
    setup_signer (Tx := ptb) 0 cp kp (c2, w1)
    = (Ok (Some (with_commit_state_roots s (commit_state_roots (Config.sui testnet)))), (c2, w3)).
Proof.
  pose proof start_ok as Hok. unfold started in Hok.
  destruct start as [[[s|]|e] [c1 w1]] eqn:Hs; [|discriminate..].
  exists s, c1, w1. refine (conj eq_refl _).
  apply (restart_attaches (Tx := ptb) 1 cp kp testnet disk0 s c1 w1 0 w1).
  - discriminate.
  - vm_compute. discriminate.
  - reflexivity.
  - exact Hs.
  - cbn [get_disk disk_has_disk]. destruct (faults w1); [reflexivity|discriminate].
  - reflexivity.
  - reflexivity.
Defined.

Definition checked : result anyhow unit * disk :=
  preflight (PrivKey := array 32) (Tx := ptb) (Config.sui testnet) (sui_ids (Config.sui testnet)) kp disk0.
Lemma preflight_ok : is_ok checked.1 = true.
Proof. by vm_compute. Qed.
Lemma preflight_guards_deploy_witness :
  ∃ w, checked = (Ok tt, w) ∧
  ((∃ p c r i, sui_ids (Config.sui testnet) = (Some p, Some c, Some r, Some i)) ∨
   (sui_ids (Config.sui testnet) = NO_IDS ∧ is_Some (files (get_disk w) !! kp) ∧
    ∀ w2 : disk, faults (get_disk w2) = [] → files (get_disk w2) = files (get_disk w) →
      dirs (get_disk w2) = dirs (get_disk w) →
      ∃ m ms w3, read_modules (Config.sui testnet) w2 = (Ok (m :: ms), w3))).
Proof.
  pose proof preflight_ok as Hok. destruct checked as [[[]|e] w] eqn:Hc; [|discriminate].
  exists w. refine (conj eq_refl _).
  exact (preflight_guards_deploy (PrivKey := array 32) (Tx := ptb) (Config.sui testnet) kp disk0 w Hc).
Defined.
End SetupDemo.

Module KeysDemo.
Import Codec.Demo.
(** Two keys. *)
#[export] Instance ed25519 : Ed25519 bool bool := {|
  key_new _ := true;
  from_suiprivkey s := if decide (s = "suiprivkey1aa") then Ok true
                       else if decide (s = "suiprivkey1bb") then Ok false else Err "bech32";
  public_key k := k;
  derive_address k := array_fill 32 (if k then x01 else x02);
  try_sign _ _ := Err "no signing"; verify _ _ _ := Err "no signing"
|}.
#[export] Instance evm_signer : EvmSigner (array 32) := {|
  key_from_slice l := ok_or (try_into_array 32 l) "length";
  evm_address k := array_fill 20 x05;
  sign_2718 _ _ := Err "no signing";
  mintCall_abi_encode _ _ _ := [];
  createBridgeCall_abi_encode _ _ _ := []
|}.
#[export] Instance evm_sdk : EvmSdk :=
  {| to_checksum _ := "0x0505"; fmt_evm _ := "0x0505"; evm_from_str _ := Err "unused" |}.
#[export] Instance key_text : Keyring.KeyText bool (array 32) := {|
  Keyring.to_suiprivkey k := Ok (if (k : bool) then "suiprivkey1aa" else "suiprivkey1bb");
  Keyring.evm_to_bytes k := k
|}.
#[export] Instance key_text_laws : KeyTextLaws bool bool (array 32).
Proof.
  split.
  - intros [] t [= <-]; by vm_compute.
  - intros k. cbn. by rewrite try_into_array_bytes.
Qed.
Definition evm0 : array 32 := array_fill 32 x09.
Definition empty : disk := mk_disk ∅ {[ [] ]} [].

Lemma keyring_roundtrip_witness :
  ∃ lines d1,
    Keyring.generate_signer (EvmKey := array 32) true ["sequencer.key"] empty = (Ok lines, d1) ∧
    "Address: " +:+ address_to_hex (array_fill 32 x01) ∈ lines ∧
    Keyring.sui_address ["sequencer.key"] d1 = (Ok (address_to_hex (array_fill 32 x01)), d1) ∧
    from_suiprivkey_file ["sequencer.key"] d1 = (Ok (mk_signer true), d1).
Proof.
  eexists _, _. refine (conj eq_refl _).
  exact (proj1 (keyring_roundtrip (PubKey := bool) true evm0 ["sequencer.key"] empty _ _ eq_refl) eq_refl).
Defined.
End KeysDemo.
