(* ===== verification/Boot.v ===== *)
(** [start_sequencer] of [crates/node/src/main.rs]: the order in which a
    sequencer reads its configuration, takes its keys, deploys or attaches to its
    contracts and builds the components that then run side by side.

    What a start gives is the record [Booted]; the tasks it spawns are those of
    [Runner], [Bridge], [NodeRotation] and [Setup]. *)

From Stdlib Require Import Lia.
From S2P Require Import Prelude Text Codec Disk Core Store Wire Contract Sui Client SuiInbox SuiRotation.
From S2P Require Import P2p Config NodeRotation JsonValue Engine L2Rpc Tracker Runner.
From S2P Require Import Vault Bridge Setup SetupFacts.
Local Open Scope string_scope.
Local Open Scope list_scope.
Local Open Scope N_scope.

(** ** The p2p node *)

Section P2pNode.
Context {PeerKey Identity : Type} `{PeerKeys PeerKey Identity} `{Hex}.

Definition bootstrap_key (hex_key : string) : result anyhow (array 32) :=
  context ("bootstrap peer pubkey must be valid 64-char hex, got " +:+ hex_key)
    (bs ← map_err (λ e, [e]) (hex_decode hex_key);
     ok_or (try_into_array 32 bs) ["Invalid string length"]).
(** [P2pNode::new] up to the network's construction: the identity and the set
    tracked at start. *)
Definition p2p_node_new (c : P2p.P2pConfig) : M disk anyhow (Identity * option (list PeerKey)) :=
  key_path ← lift (ok_or (P2p.key_path c) ["p2p key path is required; set key_path in config"]);
  signer ← load_or_generate_key key_path;
  bootstrapper_keys ← lift (mapM bootstrap_key ((P2p.bootstrap_peers c).*1));
  lift (mapM load_pubkey bootstrapper_keys);;
  initial_set ← lift (initial_tracked_set c (identity_pubkey signer) bootstrapper_keys);
  mret (signer, initial_set).
End P2pNode.

(** ** The sequencer *)

Section Sequencer.
Context {W PrivKey PubKey Tx TxSig PeerKey Identity Secret : Type} `{Ed25519 PrivKey PubKey} `{Base64}
  `{SuiSdk} `{SuiRpc W PrivKey Tx TxSig} `{HasDisk W} `{Runtime W} `{Toml} `{Hex}
  `{PeerKeys PeerKey Identity}.
Context `{Bcs RegistryBcs} `{Bcs FieldBlobBcs} `{Bcs UpgradeCapMirror}.
(** [SocketAddr]'s parser, and the JWT secret read from a file. *)
Variables (socket_addr : string → result string string) (jwt_from_file : path → M disk string Secret).
Abbreviation Op := (M (Config * W) anyhow).

Definition on_files {A} (m : M disk anyhow A) : Op A := env (on_disk m).
Definition config_now : Op Config := fst <$> getM.

(** [build_p2p]: [None] when p2p is off. *)
Definition build_p2p (cfg : Config.P2pConfig) : Op (option (Identity * option (list PeerKey))) :=
  c ← lift (build_p2p_config socket_addr cfg);
  match c with
  | None => mret None
  | Some c => Some <$> on_files (p2p_node_new c)
  end.
(** [start_metrics_endpoint]: the address to serve on. *)
Definition metrics_addr (c : Config) : result anyhow (option string) :=
  if metrics_enabled (metrics c) then
    Some <$> context "invalid metrics.listen_addr"
               (map_err (λ e, [e]) (socket_addr (metrics_listen_addr (metrics c))))
  else Ok None.

(** [Runner::new] with the settings it takes from the configuration. *)
Record RunnerParts := mk_runner {
  rn_stores : Stores;
  rn_block_time : N;
  rn_genesis : option B256;
  rn_batch_size : N;
  rn_flush_after : option N
}.
Definition runner_new (c : Config) (genesis_hash : option B256) : Op RunnerParts :=
  contextM "initializing storage under data_dir"
    (on_files (errM (λ e, [store_error_text e]) (Store.init (data_dir c))));;
  mret (mk_runner (stores_at (data_dir c)) (N.max (block_time_ms (sequencer c)) 100) genesis_hash
          (batch_size_bytes (walrus c)) (da_flush_after (batch_flush_ms (walrus c)))).

(** The rotation watcher's ids and keys; [None] leaves it off. *)
Definition rotation_targets (c : Config) (settlement : Settlement PrivKey)
    : Op (option (Address * Address * Address * Address * option Address)) :=
  match resolve_contract_ids c with
  | None => mret None
  | Some (package_id, registry_id, vault_id) =>
      staged ← tryM (F := anyhow) (on_files (resolve_staged_key c));
      mret (match staged, parse_targets package_id registry_id vault_id settlement with
            | Ok key, Ok ids => Some (ids, (λ k, derive_address (public_key k)) <$> key)
            | _, _ => None
            end)
  end.

Record Booted := mk_booted {
  bt_p2p : option (Identity * option (list PeerKey));
  bt_metrics : option string;
  bt_secret : Secret;
  bt_client : Client.Client PrivKey;
  bt_settlement : Settlement PrivKey;
  bt_inbox : option (InboxIntegration * N);
  bt_block_signer : @Ed25519BlockSigner PrivKey;
  bt_runner : RunnerParts;
  bt_rotation : option (Address * Address * Address * Address * option Address);
  bt_advertise : option Advertisement
}.

(** [None] while the first deployment is still being retried. *)
Definition start_sequencer (attempts : nat) (config_path : path) : Op (option Booted) :=
  c ← config_now;
  p2p_node ← build_p2p (p2p c);
  metrics_at ← lift (metrics_addr c);
  signer_key_path ← lift (ok_or (Config.key_path (signer c))
    ["signer key path is required (set signer.key_path in config)"]);
  secret ← contextM ("loading JWT from " +:+ join_path (jwt_path (reth c)))
             (on_files (errM (λ e, [e]) (jwt_from_file (jwt_path (reth c)))));
  let sui_client := Client.client_new (Client.mk_config (Config.publisher_url (walrus c))
    (Config.aggregator_url (walrus c)) (Config.epochs (walrus c)) (Config.sui_rpc_url (sui c))
    (Config.publisher_auth_token (walrus c))) in
  contextM "settlement preflight failed"
    (env (preflight (PrivKey := PrivKey) (sui c) (sui_ids (sui c)) signer_key_path));;
  attached ← setup_signer attempts config_path signer_key_path;
  match attached with
  | None => mret None
  | Some settlement =>
      c ← config_now;
      let sui_client := Client.with_settlement settlement sui_client in
      genesis_hash ← lift (context "invalid genesis_hash"
        (match genesis_hash (sequencer c) with
         | None => Ok None
         | Some h => Some <$> map_err (λ e, [e]) (b256_from_str h)
         end));
      inbox ← lift (context "building force-inclusion inbox integration"
        (map_err (λ e, [tracker_error_text e])
          (from_config (sui c) (rpc_url (reth c)) (data_dir c) (block_time_ms (sequencer c)))));
      block_signer ← contextM "loading signer key for block signing"
        (on_files (errM (λ e, [Core.display e]) (from_suiprivkey_file signer_key_path)));
      runner ← runner_new c genesis_hash;
      rotation ← rotation_targets c settlement;
      targets ← (if advertise (p2p c) then on_files (advertise_targets c) else mret None);
      mret (Some (mk_booted p2p_node metrics_at secret sui_client settlement inbox block_signer
                    runner rotation targets))
  end.

(** ** One key, one set of contracts *)

Context `{!HasDiskLaws W}.

(** What a settlement signer is made of. *)
Definition signer_of (kp : path) (p cap r i : string) (w : W) (s : Settlement PrivKey) : Prop :=
  (∃ bs text, files (get_disk w) !! kp = Some bs ∧ from_utf8 bs = Some text ∧
     parse_signer_key (trim text) = Ok (s_key s)) ∧
  s_sender s = derive_address (public_key (s_key s)) ∧
  parse_contract_ids p cap r i = Ok (s_package s, s_cap s, s_registry s, s_inbox s).
Lemma settlement_new_of kp p cap r i url w s w' :
  settlement_new kp p cap r i url w = (Ok s, w') → signer_of kp p cap r i w' s.
Proof using HasDiskLaws0.
  unfold settlement_new, load_signer. intros ([key sender] & w1 & Hl & Hrun)%bind_ok_inv.
  apply bind_ok_inv in Hl as (text & wa & Ht & Hk).
  apply bind_ok_inv in Hk as (key' & wb & Hkey & Hret). cbv [lift] in Hkey.
  injection Hkey as Hkey <-. injection Hret as -> <- <-.
  unfold errM, on_disk, zoom in Ht. destruct (fs_read_to_string kp (get_disk w)) as [rt d'] eqn:Hr.
  destruct rt as [text'|]; [|done]. injection Ht as -> <-.
  apply read_ok_file in Hr as (bs & Hbs & Hu & Hf).
  apply bind_ok_inv in Hrun as (u & wc & Hc & Hrun). unfold connect, lift in Hc. injection Hc as Hc <-.
  apply bind_ok_inv in Hrun as ([[[p' c'] r'] i'] & wd & Hids & Hret). cbv [lift] in Hids.
  injection Hids as Hids <-. cbv [mret M_ret] in Hret. injection Hret as <- <-.
  split; [|done]. exists bs, text. rewrite get_put_disk, Hf. split; [done|]. split; [done|].
  cbn [s_key]. destruct (parse_signer_key (trim text)); [|done]. by injection Hkey as ->.
Qed.
Lemma setup_signer_of attempts cp kp c w s c1 w1 :
  setup_signer attempts cp kp (c, w) = (Ok (Some s), (c1, w1)) →
  ∃ p cap r i, sui_ids (sui c1) = (Some p, Some cap, Some r, Some i) ∧ signer_of kp p cap r i w1 s.
Proof using HasDiskLaws0.
  unfold setup_signer. intros (c0 & st0 & Hget & Hs)%bind_ok_inv.
  cbv [fmap M_fmap getM result_fmap] in Hget. injection Hget as <- <-. cbn [fst] in Hs.
  destruct (sui_ids (sui c)) as [[[[p|] [cap|]] [r|]] [i|]] eqn:Hids; try done.
  - apply bind_ok_inv in Hs as (s' & st & Hn & Hret). apply new_signer_ok in Hn as (w' & Hn & ->).
    cbv [mret M_ret] in Hret. injection Hret as <- <- <-. exists p, cap, r, i. split; [done|].
    by apply settlement_new_of in Hn.
  - apply bind_ok_inv in Hs as (mods & [ca wa] & _ & Hs).
    apply bind_ok_inv in Hs as ([d|] & [cb wb] & Hd & Hs); [|done].
    apply bind_ok_inv in Hs as (u & st & Hmod & Hs). cbv [modM] in Hmod. injection Hmod as _ <-.
    cbn [snd] in Hs. apply bind_ok_inv in Hs as (u' & [cc wc] & Hsave & Hs).
    assert (cc = with_settlement_ids d c) as ->.
    { unfold env, zoom in Hsave. cbn [fst snd] in Hsave.
      destruct (on_disk _ wb). injection Hsave as _ <- _. done. }
    cbv [fmap M_fmap] in Hs. destruct (new_signer _ kp _ _ _ _ _ _) as [[s'|e] st] eqn:Hn; [|done].
    injection Hs as -> ->. apply new_signer_ok in Hn as (w' & Hn & [= -> ->]).
    eexists _, _, _, _. split; [reflexivity|]. by apply settlement_new_of in Hn.
Qed.

Lemma parse_address_of sa label (a b : Address) :
  parse_address sa label = Ok a → address_from_str sa = Ok b → a = b.
Proof. unfold parse_address. intros Ha Hb. rewrite Hb in Ha. by injection Ha. Qed.
Lemma parse_address_same sa label label' (a b : Address) :
  parse_address sa label = Ok a → parse_address sa label' = Ok b → a = b.
Proof. unfold parse_address. destruct (address_from_str sa); cbn; congruence. Qed.
Lemma parse_contract_ids_ok p cap r i (a b c d : Address) :
  parse_contract_ids p cap r i = Ok (a, b, c, d) →
  parse_address p "package id" = Ok a ∧ parse_address cap "cap id" = Ok b ∧
  parse_address r "registry id" = Ok c ∧ parse_address i "inbox id" = Ok d.
Proof.
  unfold parse_contract_ids. intros (? & ? & Hp)%result_bind_ok.
  apply result_bind_ok in Hp as (? & ? & Hp). apply result_bind_ok in Hp as (? & ? & Hp).
  apply result_bind_ok in Hp as (? & ? & Hp). by injection Hp as <- <- <- <-.
Qed.
Lemma env_ok {E A} (m : M W E A) c w r st : env m (c, w) = (r, st) → ∃ w', m w = (r, w') ∧ st = (c, w').
Proof. unfold env, zoom. cbn [fst snd]. destruct (m w) as [r' w'] eqn:Hm. intros [= <- <-]. eauto. Qed.
(** The tracker and the rotation watcher read the same identifiers as the signer. *)
Lemma tracker_same s url dir t p i (pa ia : Address) parts :
  settlement_package_id s = Some p → sc_inbox_id s = Some i →
  parse_address p "package id" = Ok pa → parse_address i "inbox id" = Ok ia →
  from_config s url dir t = Ok parts →
  ∃ inbox budget, parts = Some (inbox, budget) ∧
    tr_inbox (tracker inbox) = ia ∧ tr_window_package (tracker inbox) = Some pa.
Proof.
  intros Hp Hi Hpa Hia Hin. unfold from_config in Hin. rewrite Hi in Hin.
  destruct (build_tracker _ i _ _) as [[tr seed]|e] eqn:Ht; [|done]. cbn in Hin. injection Hin as <-.
  eexists _, _. split; [reflexivity|]. cbn [tracker]. unfold build_tracker in Ht. rewrite Hp in Ht.
  apply result_bind_ok in Ht as (ia' & Hia' & Ht). apply result_bind_ok in Ht as (pa' & Hpa' & Ht).
  injection Ht as <- _. cbn [tr_inbox tr_window_package].
  destruct (address_from_str i) as [?|] eqn:Hai; [|done]. injection Hia' as <-.
  destruct (address_from_str p) as [?|] eqn:Hap; [|done]. injection Hpa' as <-.
  split; [symmetry; by eapply parse_address_of|]. f_equal. symmetry. by eapply parse_address_of.
Qed.
Lemma rotation_same c (s : Settlement PrivKey) st p r package registry vault active staged st' :
  settlement_package_id (sui c) = Some p → sc_registry_id (sui c) = Some r →
  parse_address p "package id" = Ok (s_package s) → parse_address r "registry id" = Ok (s_registry s) →
  rotation_targets c s st = (Ok (Some (package, registry, vault, active, staged)), st') →
  package = s_package s ∧ registry = s_registry s ∧ active = s_sender s.
Proof.
  intros Hp Hr Hpa Hra Hrot. unfold rotation_targets in Hrot.
  destruct (resolve_contract_ids c) as [[[pid rid] vid]|] eqn:Hres; [|done].
  apply bind_ok_inv in Hrot as (key & st1 & _ & Hrot). injection Hrot as Hrot _.
  destruct key as [key|]; [|done].
  destruct (parse_targets pid rid vid s) as [ids|] eqn:Hpt; [|done]. injection Hrot as -> _.
  unfold parse_targets in Hpt. apply result_bind_ok in Hpt as (pa & Hpa' & Hpt).
  apply result_bind_ok in Hpt as (ra & Hra' & Hpt). apply result_bind_ok in Hpt as (va & _ & Hpt).
  injection Hpt as -> -> -> ->. unfold resolve_contract_ids in Hres. rewrite Hp, Hr in Hres.
  destruct (vault_id (bridge c)); [|done]. injection Hres as -> -> ->.
  split; [by eapply parse_address_same|]. split; [by eapply parse_address_same|done].
Qed.

(** The block signer a started node reads is the settlement signer's key. *)
Lemma block_key kp p cap r i w s (signer : @Ed25519BlockSigner PrivKey) w' :
  signer_of kp p cap r i w s →
  on_disk (errM (λ e, [Core.display e]) (from_suiprivkey_file kp)) w = (Ok signer, w') →
  signer_key signer = s_key s.
Proof.
  intros ((bs & text & Hbs & Hu & Hkey) & _ & _) Hr. unfold on_disk, zoom, errM in Hr.
  destruct (from_suiprivkey_file kp (get_disk w)) as [[s'|] d'] eqn:Hf; [|done].
  injection Hr as -> _. unfold from_suiprivkey_file in Hf.
  apply bind_ok_inv in Hf as (t & d1 & Ht & Hf). unfold errM in Ht.
  destruct (fs_read_to_string kp (get_disk w)) as [[t'|] d2] eqn:Hread; [|done]. injection Ht as -> <-.
  apply read_ok_file in Hread as (bs' & Hbs' & Hu' & _).
  assert (bs' = bs) as -> by congruence. assert (t = text) as -> by congruence.
  apply bind_ok_inv in Hf as (k & d3 & Hk & Hf). cbv [lift] in Hk. rewrite Hkey in Hk.
  injection Hk as <- <-. by injection Hf as <-.
Qed.

(** C22: a sequencer that starts is of one piece, whether it deployed its
    contracts or attached to them.  Blocks are signed with the key that settles
    them, and that key's address is the settlement sender; the availability
    client settles through that signer; the force-inclusion tracker watches the
    inbox and the package the signer settles on; and the rotation watcher, when
    it runs, follows the same package and registry from the same address. *)
Theorem boot_is_consistent attempts cp c w b c1 w1 :
  start_sequencer attempts cp (c, w) = (Ok (Some b), (c1, w1)) →
  let s := bt_settlement b in
  signer_key (bt_block_signer b) = s_key s ∧
  s_sender s = Core.address (bt_block_signer b) ∧
  Client.settlement (bt_client b) = Some s ∧
  (∃ inbox budget, bt_inbox b = Some (inbox, budget) ∧
     tr_inbox (tracker inbox) = s_inbox s ∧
     tr_window_package (tracker inbox) = Some (s_package s)) ∧
  (∀ package registry vault active staged,
     bt_rotation b = Some (package, registry, vault, active, staged) →
     package = s_package s ∧ registry = s_registry s ∧ active = s_sender s).
Proof using HasDiskLaws0.
  unfold start_sequencer. intros (c0 & st & _ & Hs)%bind_ok_inv.
  apply bind_ok_inv in Hs as (p2p_node & st1 & _ & Hs).
  apply bind_ok_inv in Hs as (maddr & st2 & _ & Hs).
  apply bind_ok_inv in Hs as (kp & st3 & _ & Hs).
  apply bind_ok_inv in Hs as (secret & st4 & _ & Hs). cbv zeta in Hs.
  apply bind_ok_inv in Hs as (u & [c5 w5] & _ & Hs).
  apply bind_ok_inv in Hs as ([s|] & [c6 w6] & Hsetup & Hs); [|done].
  apply setup_signer_of in Hsetup as (p & cap & r & i & Hids & Hof).
  apply bind_ok_inv in Hs as (c7 & st7 & Hget & Hs).
  cbv [config_now fmap M_fmap getM result_fmap] in Hget. injection Hget as <- <-. cbn [fst] in Hs.
  apply bind_ok_inv in Hs as (genesis & st8 & Hg & Hs). cbv [lift] in Hg. injection Hg as _ <-.
  apply bind_ok_inv in Hs as (inbox & st9 & Hin & Hs). cbv [lift] in Hin. injection Hin as Hin <-.
  apply bind_ok_inv in Hs as (signer & st10 & Hsig & Hs).
  apply context_ok in Hsig. apply env_ok in Hsig as (w10 & Hsig & ->).
  pose proof (block_key _ _ _ _ _ _ _ _ _ Hof Hsig) as Hkey.
  apply bind_ok_inv in Hs as (runner & st11 & _ & Hs).
  apply bind_ok_inv in Hs as (rotation & st12 & Hrot & Hs).
  apply bind_ok_inv in Hs as (targets & st13 & _ & Hs). cbv [mret M_ret] in Hs.
  injection Hs as <- _. cbn [bt_settlement bt_block_signer bt_client bt_inbox bt_rotation].
  destruct Hof as (_ & Hsender & (Hp & Hcap & Hr & Hi)%parse_contract_ids_ok).
  unfold sui_ids in Hids. injection Hids as Hid_p Hid_cap Hid_r Hid_i.
  destruct (from_config _ _ _ _) as [parts|] eqn:Hfrom; [|done]. cbn in Hin. injection Hin as <-.
  split; [done|]. split; [unfold Core.address, pub_key; congruence|]. split; [done|].
  split; [eapply tracker_same; [exact Hid_p|exact Hid_i|exact Hp|exact Hi|exact Hfrom]|]. intros package registry vault active staged ->. eapply rotation_same; [exact Hid_p|exact Hid_r|exact Hp|exact Hr|exact Hrot].
Qed.
End Sequencer.

(** ** Witness *)

Module BootDemo.
Import Codec.Demo SetupDemo.
#[export] Instance peer_keys : PeerKeys (array 32) (list byte) := {|
  load_pubkey k := Ok k; load_from_seed s := Ok s; identity_pubkey _ := array_fill 32 x01;
  random_identity := []; key_seed s := s
|}.
(** A deployed node without p2p, its key in [kp]. *)
Definition config0 : Config :=
  let c := with_settlement_ids deployed testnet in
  mk_config (reth c) (walrus c) (Config.sui c) (mk_signer_config (Some kp) None) (sequencer c) (bridge c)
    (Config.mk_p2p None "0.0.0.0:9000" None [] true false false) (metrics c) (data_dir c) (mode c).
Definition small_disk : disk := mk_disk {[ kp := x00 :: replicate 32 x07 ]} {[ [] ]} [].
Definition boot : result anyhow (option (Booted (PrivKey := array 32) (PeerKey := array 32)
                                          (Identity := list byte) (Secret := unit))) * (Config * disk) :=
  start_sequencer (Tx := ptb) Ok (λ _, mret tt) 0 cp (config0, small_disk).
Lemma boot_ok : match boot.1 with Ok (Some _) => true | _ => false end = true.
Proof. by vm_compute. Qed.

Lemma boot_is_consistent_witness :
  ∃ b st, boot = (Ok (Some b), st) ∧
  let s := bt_settlement b in
  signer_key (bt_block_signer b) = s_key s ∧
  s_sender s = Core.address (bt_block_signer b) ∧
  Client.settlement (bt_client b) = Some s ∧
  (∃ inbox budget, bt_inbox b = Some (inbox, budget) ∧
     tr_inbox (tracker inbox) = s_inbox s ∧
     tr_window_package (tracker inbox) = Some (s_package s)) ∧
  (∀ package registry vault active staged,
     bt_rotation b = Some (package, registry, vault, active, staged) →
     package = s_package s ∧ registry = s_registry s ∧ active = s_sender s).
Proof.
  pose proof boot_ok as Hok. destruct boot as [[[b|]|e] [c1 w1]] eqn:Hb; [|discriminate..].
  exists b, (c1, w1). refine (conj eq_refl _).
  exact (boot_is_consistent (Tx := ptb) Ok (λ _, mret tt) 0 cp config0 small_disk b c1 w1 Hb).
Defined.
End BootDemo.
