(* ===== verification/Shutdown.v ===== *)
(** The accept loops of [crates/node/src/metrics.rs] and [mcp.rs], the gas
    gauge, and how [crates/node/src/main.rs] stops its tasks.

    tokio's [Notify::notify_waiters] wakes the tasks that wait at that moment
    and stores nothing for those that come later; a [select!] waits while it is
    polled, and not in the body of its branch. *)

From S2P Require Import Prelude Text Codec Disk Core Wire Contract Sui SuiInbox Deadline SuiRotation Config Client.
Local Open Scope string_scope.
Local Open Scope list_scope.
Local Open Scope N_scope.

(** ** Accept loops *)

Module Server.
(** [serve] binds and enters its loop; [Selecting] is the [select!] over the
    listener and the notification, [Handling] the rest of the loop's body. *)
Inductive phase := Binding | Selecting | Handling | Stopped.
#[global] Instance phase_eq_dec : EqDecision phase.
Proof. solve_decision. Defined.
(** The connections whose handlers were spawned. *)
Record t (C : Type) := mk_server { at_phase : phase; spawned : list C }.
#[global] Arguments mk_server {C}. #[global] Arguments at_phase {C}. #[global] Arguments spawned {C}.

Section server.
Context {C : Type}.
Inductive event :=
| Bound (ok : bool)
| Accepted (c : option C)
| Looped.

Definition start : t C := mk_server Binding [].
(** A failed [bind] ends the task; a failed [accept] is logged. *)
Definition advance (s : t C) (e : event) : t C :=
  match at_phase s, e with
  | Binding, Bound ok => mk_server (if ok then Selecting else Stopped) (spawned s)
  | Selecting, Accepted c => mk_server Handling (spawned s ++ option_list c)
  | Handling, Looped => mk_server Selecting (spawned s)
  | _, _ => s
  end.
(** [notify_waiters] *)
Definition notified (s : t C) : t C :=
  match at_phase s with Selecting => mk_server Stopped (spawned s) | _ => s end.
End server.
End Server.

(** ** [mcp::run] *)

Module McpRun.
Import Server.
(** The main thread waits for Ctrl+C, notifies once, and awaits the task. *)
Inductive main := AwaitsCtrlC | AwaitsTask | Returned.
Record t (C : Type) := mk_run { task : Server.t C; thread : main }.
#[global] Arguments mk_run {C}. #[global] Arguments task {C}. #[global] Arguments thread {C}.

Section run.
Context {C : Type}.
Inductive event := Task (e : Server.event (C := C)) | CtrlC | Joined.
Definition start : t C := mk_run Server.start AwaitsCtrlC.
Definition advance (s : t C) (e : event) : t C :=
  match e with
  | Task e => mk_run (Server.advance (task s) e) (thread s)
  | CtrlC => match thread s with AwaitsCtrlC => mk_run (notified (task s)) AwaitsTask | _ => s end
  | Joined =>
      match thread s, at_phase (task s) with
      | AwaitsTask, Stopped => mk_run (task s) Returned
      | _, _ => s
      end
  end.
Definition after (es : list event) : t C := foldl advance start es.
End run.
End McpRun.

(** ** The gas gauge *)

Section Gauge.
(** [mist as i64] *)
Definition as_i64 (n : N) : Z := if n <? 2 ^ 63 then Z.of_N n else (Z.of_N n - 2 ^ 64)%Z.

Class GasGauge (W : Type) := {
  sui_gas : M W Core.Error (option N);
  set_gauge : Z → W → W
}.
(** When the shutdown is notified. *)
Class Notified (W : Type) := { notified_at : W → option N }.
Context {W : Type} `{GasGauge W} `{Notified W} `{Runtime W}.
Definition REFRESH_MS : N := 900000.

(** The [select!] of a sleep and the notification: [true] when it was notified
    while it waited. *)
Definition sleep_or_notified (ms : N) (w : W) : bool * W :=
  match notified_at w with
  | Some t => if (now_ms w <=? t) && (t <? now_ms w + ms) then (true, sleep_ms (t - now_ms w) w) else (false, sleep_ms ms w)
  | None => (false, sleep_ms ms w)
  end.

(** [None] when the fuel runs out. *)
Fixpoint refresh_sui_gas_balance (fuel : nat) (w : W) : option W :=
  match fuel with
  | O => None
  | S fuel =>
      let again w := let '(stop, w) := sleep_or_notified REFRESH_MS w in
                     if (stop : bool) then Some w else refresh_sui_gas_balance fuel w in
      match sui_gas w with
      | (Ok (Some mist), w) => again (set_gauge (as_i64 mist) w)
      | (Ok None, w) => Some w
      | (Err _, w) => again w
      end
  end.
End Gauge.

(** ** Stopping the tasks *)

(** A task's handle: when it ends, [None] for never. *)
Definition handle := option N.
Inductive joined := Ended | TimedOut.
(** [tokio::time::timeout(limit, handle)] from [now]: the outcome and the time
    after it. *)
Definition timeout (limit : N) (h : handle) (now : N) : joined * N :=
  match h with
  | Some t => if t <=? now + limit then (Ended, N.max now t) else (TimedOut, now + limit)
  | None => (TimedOut, now + limit)
  end.
(** [shutdown_metrics]; the outcome is ignored. *)
Definition shutdown_metrics (h : option handle) (now : N) : N :=
  match h with Some h => (timeout 2000 h now).2 | None => now end.
(** The end of [start_sequencer] after the runner returned: the rotation task
    is aborted, the metrics endpoint gets two seconds, the relayer is told to
    stop and gets ten before it is aborted.  The result is whether the relayer
    was aborted, and the time. *)
Definition stop_tasks (metrics_handle bridge_handle : option handle) (now : N) : bool * N :=
  let t := shutdown_metrics metrics_handle now in
  match bridge_handle with
  | None => (false, t)
  | Some h => match timeout 10000 h t with (Ended, t') => (false, t') | (TimedOut, t') => (true, t') end
  end.

(** ** Properties *)

(** A task that the notification missed serves on. *)
Lemma missed_runs {C} (s : McpRun.t C) es :
  McpRun.thread s = McpRun.AwaitsTask → Server.at_phase (McpRun.task s) ≠ Server.Stopped →
  McpRun.Task (Server.Bound false) ∉ es →
  McpRun.thread (foldl McpRun.advance s es) = McpRun.AwaitsTask.
Proof.
  revert s. induction es as [|e es IH]; intros s Ht Hp Hno; [done|].
  apply not_elem_of_cons in Hno as [Hne Hno]. cbn. destruct s as [[p l] th]. cbn in *. subst th.
  apply IH; [..|done]; destruct e as [[[]|c|]| |], p; cbn; done.
Qed.

(** The Ctrl+C of [mcp::run] reaches the endpoint exactly when it waits in its
    [select!].  Then, or when the endpoint is already stopped, the command
    returns; when it comes while the endpoint binds, or between two connections,
    the notification is lost and the command never returns, whatever arrives,
    further Ctrl+C included, unless the bind fails. *)
Theorem mcp_ctrl_c_exact {C} (es : list (McpRun.event (C := C))) :
  McpRun.thread (McpRun.after es) = McpRun.AwaitsCtrlC →
  match Server.at_phase (McpRun.task (McpRun.after es)) with
  | Server.Selecting | Server.Stopped =>
      McpRun.thread (McpRun.after (es ++ [McpRun.CtrlC; McpRun.Joined])) = McpRun.Returned
  | Server.Binding | Server.Handling =>
      ∀ es', McpRun.Task (Server.Bound false) ∉ es' →
        McpRun.thread (McpRun.after (es ++ McpRun.CtrlC :: es')) = McpRun.AwaitsTask
  end.
Proof.
  intros Ht. unfold McpRun.after in *.
  destruct (foldl McpRun.advance McpRun.start es) as [[p l] th] eqn:Hs. cbn in *. subst th.
  destruct p; try (by rewrite foldl_app, Hs); intros es' Hno; rewrite foldl_app, Hs; cbn [foldl]; by apply missed_runs.
Qed.
Lemma mcp_ctrl_c_exact_witness :
  ∀ es', McpRun.Task (Server.Bound false) ∉ es' →
    McpRun.thread (McpRun.after ([McpRun.Task (Server.Bound true); McpRun.Task (Server.Accepted (Some 7))]
                                 ++ McpRun.CtrlC :: es')) = McpRun.AwaitsTask.
Proof. exact (mcp_ctrl_c_exact [McpRun.Task (Server.Bound true); McpRun.Task (Server.Accepted (Some 7))] eq_refl). Defined.

(** Every connection accepted while serving gets its handler, once, in order. *)
Lemma spawned_in_order {C} (es : list (Server.event (C := C))) s :
  ∃ l, Server.spawned (foldl Server.advance s es) = Server.spawned s ++ l ∧
       l `sublist_of` omap (λ e, match e with Server.Accepted c => c | _ => None end) es.
Proof.
  revert s. induction es as [|e es IH]; intros s; [exists []; by rewrite app_nil_r|].
  destruct (IH (Server.advance s e)) as (l & Hl & Hsub). cbn. rewrite Hl.
  destruct s as [p l0], e as [[]|[c|]|], p; cbn; try (exists l; split; [done|]; first [exact Hsub|by apply sublist_cons]).
  - exists (c :: l). split; [by rewrite <- app_assoc|by apply sublist_skip].
  - exists l. split; [by rewrite app_nil_r|done].
Qed.

Section GaugeFacts.
Context {W : Type} `{GasGauge W} `{Notified W} `{Runtime W}.
(** Time passes, the notification has its time, and a signer is attached. *)
Class GaugeLaws := {
  sleep_now n w : now_ms (sleep_ms n w) = now_ms w + n;
  sleep_notified n w : notified_at (sleep_ms n w) = notified_at w;
  gauge_now z w : now_ms (set_gauge z w) = now_ms w;
  gauge_notified z w : notified_at (set_gauge z w) = notified_at w;
  gas_now w : now_ms w ≤ now_ms (sui_gas w).2;
  gas_notified w : notified_at (sui_gas w).2 = notified_at w;
  signer_attached w : (sui_gas w).1 ≠ Ok None
}.
Context `{!GaugeLaws}.

(** A shutdown that comes while the balance is read is lost: the gauge task
    then never ends, for any number of refreshes. *)
Theorem missed_notice_keeps_refreshing fuel w t :
  notified_at w = Some t → t < now_ms (sui_gas w).2 → refresh_sui_gas_balance fuel w = None.
Proof.
  revert w. induction fuel as [|fuel IH]; intros w Ht Hlate; [done|]. cbn [refresh_sui_gas_balance].
  assert (∀ v, notified_at v = Some t → t < now_ms v →
            (let '(stop, v') := sleep_or_notified REFRESH_MS v in
             if (stop : bool) then Some v' else refresh_sui_gas_balance fuel v') = None) as Hagain.
  { intros v Hv Hlt. unfold sleep_or_notified. rewrite Hv.
    rewrite (proj2 (N.leb_gt _ _) Hlt). cbn [andb]. apply IH; [by rewrite sleep_notified|].
    pose proof (gas_now (sleep_ms REFRESH_MS v)). rewrite sleep_now in *. lia. }
  pose proof (gas_notified w) as Hn. pose proof (signer_attached w) as Hs. rewrite Ht in Hn.
  destruct (sui_gas w) as [[[mist|]|e] v]; cbn in *; [|done|by apply Hagain].
  apply Hagain; [by rewrite gauge_notified|by rewrite gauge_now].
Qed.

(** One that comes while the task sleeps ends it at that moment. *)
Theorem notice_stops_the_gauge fuel w t mist v :
  sui_gas w = (Ok (Some mist), v) → notified_at w = Some t → now_ms v ≤ t → t < now_ms v + REFRESH_MS →
  ∃ w', refresh_sui_gas_balance (S fuel) w = Some w' ∧ now_ms w' = t.
Proof.
  intros Hg Ht Hle Hlt. cbn [refresh_sui_gas_balance]. rewrite Hg. unfold sleep_or_notified.
  pose proof (gas_notified w) as Hn. rewrite Hg, Ht in Hn. cbn in Hn.
  rewrite gauge_notified, gauge_now, Hn, (proj2 (N.leb_le _ _) Hle), (proj2 (N.ltb_lt _ _) Hlt). cbn [andb].
  eexists. split; [done|]. rewrite sleep_now, gauge_now. lia.
Qed.
End GaugeFacts.

(** A node stops: after its runner returned, the end of [start_sequencer] takes
    at most twelve seconds whatever its tasks do, and the relayer is aborted
    exactly when it outlives its ten. *)
Theorem stop_is_bounded m b now :
  let '(aborted, t) := stop_tasks m b now in
  now ≤ t ∧ t ≤ now + 12000 ∧
  (aborted = true ↔ ∃ h, b = Some h ∧ ∀ e, h = Some e → shutdown_metrics m now + 10000 < e).
Proof.
  unfold stop_tasks, shutdown_metrics, timeout.
  assert (∀ t0, now ≤ t0 → t0 ≤ now + 2000 →
    let '(aborted, t) := match b with
      | None => (false, t0)
      | Some h => match match h with
                        | Some t => if t <=? t0 + 10000 then (Ended, N.max t0 t) else (TimedOut, t0 + 10000)
                        | None => (TimedOut, t0 + 10000)
                        end with (Ended, t') => (false, t') | (TimedOut, t') => (true, t') end
      end in
    now ≤ t ∧ t ≤ now + 12000 ∧ (aborted = true ↔ ∃ h, b = Some h ∧ ∀ e, h = Some e → t0 + 10000 < e)) as Hall.
  { intros t0 H1 H2. destruct b as [[e|]|].
    - destruct (N.leb_spec e (t0 + 10000)); (split; [lia|]; split; [lia|]; split; [|done || intros (h & [= <-] & Hh); specialize (Hh e eq_refl); lia]).
      + done.
      + intros _. exists (Some e). split; [done|]. by intros ? [= <-].
    - split; [lia|]. split; [lia|]. split; [|done]. intros _. by exists None.
    - split; [lia|]. split; [lia|]. split; [done|]. by intros (h & ? & _). }
  destruct m as [[e|]|]; [destruct (N.leb_spec e (now + 2000))| |]; apply Hall; cbn; lia.
Qed.

Module GaugeDemo.
(** The balance read takes five seconds, and the shutdown comes in the third. *)
#[export] Instance slow_balance : GasGauge N := {| sui_gas w := (Ok (Some 7), w + 5000); set_gauge _ w := w |}.
#[export] Instance third_second : Notified N := {| notified_at _ := Some 3000 |}.
#[export] Instance clock_only : Runtime N := {| now_ms w := w; sleep_ms n w := w + n; shutting_down _ := false |}.
#[export] Instance gauge_laws : @GaugeLaws N _ _ _.
Proof. split; cbn; try done; lia. Qed.
Lemma missed_notice_keeps_refreshing_witness fuel : refresh_sui_gas_balance fuel 0 = None.
Proof. by apply (missed_notice_keeps_refreshing fuel 0 3000). Defined.
Lemma balances_wrap : as_i64 (2 ^ 63) = (- 2 ^ 63)%Z ∧ as_i64 1000000000 = 1000000000%Z.
Proof. by vm_compute. Qed.
End GaugeDemo.
