(* ===== verification/NodeBoot.v ===== *)
(** [start_full_node] and [full_node_p2p_parts] of [crates/node/src/main.rs]: how
    a full node is put together from its configuration.

    A full node that runs with the identifiers a sequencer deployed or attached
    to reads that sequencer's contracts. *)

From S2P Require Import Prelude Text Codec Disk Core Store Wire Contract Sui Client SuiInbox SuiRotation.
From S2P Require Import Deadline P2p Config NodeRotation JsonValue Engine L2Rpc Tracker Runner FullNode.
From S2P Require Import Setup SetupFacts Boot.
Local Open Scope string_scope.
Local Open Scope list_scope.
Local Open Scope N_scope.

Section FullNodeBoot.
Context {W PrivKey PubKey PeerKey Identity Secret : Type} `{HasDisk W} `{PubKeyText PubKey} `{SuiSdk} `{Hex}
  `{PeerKeys PeerKey Identity} `{Json StateStore.ChainState}.
Variables (socket_addr : string → result string string) (jwt_from_file : path → M disk string Secret).

(** The handle of a node just started: the static set under index 0, none in
    registry mode. *)
Definition started_admission (c : P2p.P2pConfig) (initial : option (list PeerKey)) : AdmissionHandle :=
  mk_admission (option_list ((λ set, (0, set)) <$> initial)) (max_peers_per_set c) 0.
(** Whether there is a receiver, and the admission handle in registry mode. *)
Definition full_node_p2p_parts (cfg : Config.P2pConfig)
    : M W anyhow (bool * option (@AdmissionHandle PeerKey)) :=
  c ← lift (build_p2p_config socket_addr cfg);
  match c with
  | None => mret (false, None)
  | Some c =>
      '(_, initial) ← on_disk (p2p_node_new c);
      mret (true, if Config.registry_admission cfg then Some (started_admission c initial) else None)
  end.

Record BootedNode := mk_booted_node {
  bn_metrics : option string;
  bn_secret : Secret;
  bn_client : Client.Client PrivKey;
  bn_node : FullNode PubKey;
  bn_admission : option (@AdmissionHandle PeerKey * Address * Address)
}.
(** Up to [node.run()]. *)
Definition start_full_node (c : Config) : M W anyhow BootedNode :=
  metrics_at ← lift (metrics_addr socket_addr c);
  '(receiver, admission) ← full_node_p2p_parts (p2p c);
  secret ← contextM ("loading JWT from " +:+ join_path (jwt_path (reth c)))
             (on_disk (errM (λ e, [e]) (jwt_from_file (jwt_path (reth c)))));
  let sui_client := Client.client_new (Client.mk_config (Config.publisher_url (walrus c))
    (Config.aggregator_url (walrus c)) (Config.epochs (walrus c)) (Config.sui_rpc_url (sui c))
    (Config.publisher_auth_token (walrus c))) in
  node ← full_node_new c receiver;
  mret (mk_booted_node metrics_at secret sui_client node (build_admission c admission)).

(** What a started node was built from. *)
Lemma start_full_node_of c w f w' :
  start_full_node c w = (Ok f, w') →
  Some (registry_id (bn_node f)) = filled (sc_registry_id (sui c)) ∧
  node_deadline (bn_node f) = build_deadline_monitor c ∧
  ∃ admission, bn_admission f = build_admission c admission.
Proof.
  unfold start_full_node. intros (m & w1 & _ & Hs)%bind_ok_inv.
  apply bind_ok_inv in Hs as ([receiver admission] & w2 & _ & Hs).
  apply bind_ok_inv in Hs as (secret & w3 & _ & Hs). cbv zeta in Hs.
  apply bind_ok_inv in Hs as (n & w4 & Hn & Hs). injection Hs as <- _. cbn [bn_node bn_admission].
  unfold full_node_new in Hn. apply bind_ok_inv in Hn as (u & w5 & _ & Hn).
  apply bind_ok_inv in Hn as (hex & w6 & _ & Hn). apply bind_ok_inv in Hn as (raw & w7 & _ & Hn).
  apply bind_ok_inv in Hn as (key & w8 & _ & Hn). apply bind_ok_inv in Hn as (reg & w9 & Hreg & Hn).
  cbv zeta in Hn. apply bind_ok_inv in Hn as (stored & w10 & _ & Hn).
  injection Hreg as Hreg _. apply ok_or_ok in Hreg.
  destruct stored as [[st|]|]; injection Hn as <- _; (split; [done|split; [done|by exists admission]]).
Qed.
End FullNodeBoot.

(** [Address::from_str] takes no text with white space around it and not the
    empty one. *)
Class AddressText `{SuiSdk} := {
  address_plain s a : address_from_str s = Ok a → trim s = s;
  address_nonempty : is_ok (address_from_str "") = false
}.

Section Contracts.
Context `{AddressText}.

Lemma parsed_filled s label a :
  parse_address s label = Ok a → filled (Some s) = Some s ∧ trim s = s ∧ s ≠ "" ∧ address_from_str s = Ok a.
Proof.
  unfold parse_address, filled, is_blank. destruct (address_from_str s) as [a'|] eqn:Ha; [|done]. intros [= ->].
  pose proof (address_plain _ _ Ha) as Ht.
  assert (s ≠ "") as Hne by (intros ->; pose proof address_nonempty as Hn; by rewrite Ha in Hn).
  split_and!; try done. cbn. rewrite Ht. by rewrite bool_decide_false.
Qed.
Lemma monitor_of c i a :
  sc_inbox_id (sui c) = Some i → parse_address i "inbox id" = Ok a →
  build_deadline_monitor c = Some (mk_monitor a DEFAULT_MARGIN_MS).
Proof.
  intros Hi (_ & Ht & Hne & Ha)%parsed_filled. unfold build_deadline_monitor. rewrite Hi. change (default "" (Some i)) with i. cbv zeta. rewrite Ht.
  rewrite bool_decide_false by done. unfold monitor_from_config. by rewrite Ha.
Qed.
Lemma admission_of {PeerKey} c p r (pa ra : Address) (h : @AdmissionHandle PeerKey) :
  settlement_package_id (sui c) = Some p → sc_registry_id (sui c) = Some r →
  parse_address p "package id" = Ok pa → parse_address r "registry id" = Ok ra →
  build_admission c (Some h) = Some (h, ra, pa).
Proof.
  intros Hp Hr (Hfp & _ & _ & Hpa)%parsed_filled (Hfr & _ & _ & Hra)%parsed_filled.
  unfold build_admission. rewrite Hp, Hr, Hfp, Hfr. cbn. unfold parse_address. by rewrite Hpa, Hra.
Qed.
End Contracts.

(** ** A node and its sequencer *)

Section Follows.
Context {W V PrivKey PubKey Tx TxSig PeerKey Identity Secret : Type} `{Ed25519 PrivKey PubKey} `{Base64}
  `{AddressText} `{SuiRpc W PrivKey Tx TxSig} `{HasDiskLaws W} `{Runtime W} `{Toml} `{Hex}
  `{PeerKeys PeerKey Identity} `{HasDisk V} `{PubKeyText PubKey} `{Json StateStore.ChainState}.
Context `{Bcs RegistryBcs} `{Bcs FieldBlobBcs} `{Bcs UpgradeCapMirror}.
Variables (socket_addr : string → result string string) (jwt_from_file : path → M disk string Secret).

(** After the set-up the configuration stays. *)
Lemma env_keeps (c : Config) {E A} (m : M W E A) : preserves (λ st, st.1 = c) (env m).
Proof. intros [c' w] Hc. unfold env, zoom. cbn. destruct (m w) as [[] w']; exact Hc. Qed.
Lemma rotation_targets_keeps (c c' : Config) (s : Settlement PrivKey) :
  preserves (λ st : Config * W, st.1 = c) (rotation_targets c' s).
Proof.
  unfold rotation_targets, on_files. walk_with ltac:(idtac; lazymatch goal with
  | |- preserves _ (env _) => apply env_keeps
  end).
Qed.

Lemma booted_ids attempts cp (c : Config) (w : W)
    (b : Booted (PrivKey := PrivKey) (PeerKey := PeerKey) (Identity := Identity) (Secret := Secret)) c1 w1 :
  start_sequencer (Tx := Tx) socket_addr jwt_from_file attempts cp (c, w) = (Ok (Some b), (c1, w1)) →
  ∃ p cap r i, sui_ids (sui c1) = (Some p, Some cap, Some r, Some i) ∧
    let s := bt_settlement b in
    parse_contract_ids p cap r i = Ok (s_package s, s_cap s, s_registry s, s_inbox s).
Proof.
  unfold start_sequencer. intros (c0 & st & _ & Hs)%bind_ok_inv.
  do 4 (apply bind_ok_inv in Hs as (? & ? & _ & Hs)). cbv zeta in Hs.
  apply bind_ok_inv in Hs as (u & [c5 w5] & _ & Hs).
  apply bind_ok_inv in Hs as ([s|] & [c6 w6] & Hsetup & Hs); [|done].
  apply setup_signer_of in Hsetup as (p & cap & r & i & Hids & _ & _ & Hparse).
  exists p, cap, r, i.
  match type of Hs with ?k _ = _ => assert (preserves (λ st, st.1 = c6) k) as Hk end.
  { unfold config_now, on_files, contextM, context. walk_with ltac:(idtac; lazymatch goal with
    | |- preserves _ getM => by intros st' Hst'
    | |- preserves _ (env _) => apply env_keeps
    end).
    all: first [apply rotation_targets_keeps | apply env_keeps]. }
  specialize (Hk (c6, w6) eq_refl). rewrite Hs in Hk. cbn [fst] in Hk. subst c1. split; [done|]. revert Hs.
  intros (c7 & ? & _ & Hs)%bind_ok_inv.
  do 5 (apply bind_ok_inv in Hs as (? & ? & _ & Hs)).
  apply bind_ok_inv in Hs as (? & ? & _ & Hs). by injection Hs as <- _.
Qed.

(** A full node that shares the sequencer's contract identifiers follows the
    sequencer's contracts: it reads the registry the sequencer settles to,
    watches the inbox the sequencer settles with, and, in registry mode, admits
    the peers of that registry's book under that package. *)
Theorem node_follows_sequencer attempts cp (c : Config) (w : W)
    (b : Booted (PrivKey := PrivKey) (PeerKey := PeerKey) (Identity := Identity) (Secret := Secret)) c1 w1
    (cf : Config) (v v' : V)
    (f : BootedNode (PrivKey := PrivKey) (PubKey := PubKey) (PeerKey := PeerKey) (Secret := Secret)) :
  start_sequencer (Tx := Tx) socket_addr jwt_from_file attempts cp (c, w) = (Ok (Some b), (c1, w1)) →
  sui cf = sui c1 →
  start_full_node (Identity := Identity) socket_addr jwt_from_file cf v = (Ok f, v') →
  let s := bt_settlement b in
  parse_address (registry_id (bn_node f)) "registry id" = Ok (s_registry s) ∧
  node_deadline (bn_node f) = Some (mk_monitor (s_inbox s) DEFAULT_MARGIN_MS) ∧
  ∀ h registry package, bn_admission f = Some (h, registry, package) →
    registry = s_registry s ∧ package = s_package s.
Proof.
  intros Hb Hsui Hf s. apply booted_ids in Hb as (p & cap & r & i & Hids & Hparse). subst s.
  apply parse_contract_ids_ok in Hparse as (Hp & _ & Hr & Hi).
  unfold sui_ids in Hids. rewrite <- Hsui in Hids. injection Hids as Hidp _ Hidr Hidi.
  apply start_full_node_of in Hf as (Hreg & Hdl & admission & Hadm).
  rewrite Hidr in Hreg. pose proof (parsed_filled _ _ _ Hr) as (Hfill & _). rewrite Hfill in Hreg.
  injection Hreg as ->. split_and!; [done| |].
  - rewrite Hdl. by eapply monitor_of.
  - intros h registry package Ha. rewrite Ha in Hadm. destruct admission as [h'|]; [|done].
    erewrite admission_of in Hadm by done. by injection Hadm as <- <- <-.
Qed.
End Follows.

(** ** Example *)

Module NodeBootDemo.
Import Codec.Demo Codec.CountableCodec SetupDemo BootDemo.
Abbreviation plain s := (Forall (λ c, is_space c = false) (String.list_ascii_of_string s)).
Lemma digit_plain c d : digit_val c = Some d → is_space c = false.
Proof. destruct c as [[] [] [] [] [] [] [] []]; done. Qed.
Lemma hex_dec_plain n s l : (String.length s ≤ n)%nat → hex_dec s = Ok l → plain s.
Proof.
  revert s l. induction n as [|n IH]; intros s l Hn; (destruct s as [|a [|b s]]; cbn in Hn; [constructor|try done; lia|]).
  { lia. }
  cbn [hex_dec]. intros (x & Hx%ok_or_ok & Hr)%result_bind_ok.
  apply result_bind_ok in Hr as (y & Hy%ok_or_ok & Hr). apply result_bind_ok in Hr as (r & Hr & _).
  cbn. constructor; [by eapply digit_plain|]. constructor; [by eapply digit_plain|].
  eapply IH; [|exact Hr]. lia.
Qed.
Lemma strip_plain s : plain (default s (strip_prefix "0x" s)) → plain s.
Proof.
  destruct s as [|a [|b s]]; cbn [strip_prefix]; [done|by case_decide|].
  destruct (decide _) as [<-|]; [|done]. destruct (decide _) as [<-|]; [|done].
  cbn. intros Hs. by repeat (constructor; [done|]).
Qed.
#[export] Instance address_text : AddressText.
Proof.
  split; [|done]. intros s a. cbn [address_from_str sui]. intros (bs & Hbs & _)%result_bind_ok.
  by apply trim_plain, strip_plain, (hex_dec_plain (String.length (default s (strip_prefix "0x" s))) _ bs).
Qed.

#[export] Instance any_key : PubKeyText (array 32) := {|
  pubkey_from_str _ := Ok (array_fill 32 x00); verifying_key := Ok
|}.
(** A full node in registry mode with the sequencer's identifiers. *)
Definition node_config (c : Config) : Config :=
  mk_config (reth c) (walrus c) (Config.sui c) (mk_signer_config None (Some "key")) (sequencer c) (bridge c)
    (Config.mk_p2p (Some "p2p.key") "0.0.0.0:9000" None [] false true false) (Config.metrics c) ["node"] "full".
Definition boot_node (c : Config)
    : result anyhow (BootedNode (PrivKey := array 32) (PubKey := array 32) (PeerKey := array 32) (Secret := unit)) * disk :=
  start_full_node (Identity := list byte) Ok (λ _, mret tt) (node_config c) (mk_disk ∅ {[ [] ]} []).
Lemma boots_node : is_ok (boot_node boot.2.1).1 = true.
Proof. by vm_compute. Qed.
Lemma admits : match (boot_node boot.2.1).1 with Ok f => bool_decide (is_Some (bn_admission f)) | Err _ => false end = true.
Proof. by vm_compute. Qed.

Lemma node_follows_sequencer_witness :
  ∃ b f, boot.1 = Ok (Some b) ∧ (boot_node boot.2.1).1 = Ok f ∧
  let s := bt_settlement b in
  parse_address (registry_id (bn_node f)) "registry id" = Ok (s_registry s) ∧
  node_deadline (bn_node f) = Some (mk_monitor (s_inbox s) DEFAULT_MARGIN_MS) ∧
  ∀ h registry package, bn_admission f = Some (h, registry, package) →
    registry = s_registry s ∧ package = s_package s.
Proof.
  pose proof boot_ok as Hok. pose proof boots_node as Hn.
  destruct boot as [[[b|]|e] [c1 w1]] eqn:Hb; [|discriminate..]. cbn [fst snd] in Hn |- *.
  destruct (boot_node c1) as [[f|] v'] eqn:Hf; [|discriminate]. exists b, f. split; [reflexivity|]. split; [reflexivity|].
  exact (node_follows_sequencer (Tx := ptb) Ok (λ _, mret tt) 0 cp config0 small_disk b c1 w1
           (node_config c1) (mk_disk ∅ {[ [] ]} []) v' f Hb eq_refl Hf).
Defined.
End NodeBootDemo.
