(* ===== verification/Mcp.v ===== *)
(** [crates/node/src/mcp.rs]: the read-only MCP server.

    The HTTP exchange is a function of the bytes a client sends; JSON-RPC
    messages are the values of [JsonValue].  Reads of Sui and Walrus are the
    class [NodeReads], which [sui_walrus_reads] implements with the clients of
    [Sui], [Client] and [Vault]. *)

From Stdlib Require Import Ascii.
From S2P Require Import Prelude Text Codec Disk Core Store Wire Sui Config JsonValue Client Vault.
Local Open Scope string_scope.
Local Open Scope list_scope.
Local Open Scope N_scope.

Definition LATEST_PROTOCOL_VERSION : string := "2025-06-18".
Definition SUPPORTED_PROTOCOL_VERSIONS : list string := ["2025-06-18"; "2025-03-26"].
Definition MAX_BODY_BYTES : N := 1048576.
Definition MAX_HEADER_BYTES : N := 16384.
Definition SUI_READ_TIMEOUT : N := 10000.
(** The crate's version ([Cargo.toml]). *)
Definition CARGO_PKG_VERSION : string := "0.1.0".
Definition DEFAULT_LISTEN_ADDR : string := "127.0.0.1:9101".

(** ** What the server reads *)

(** serde_json's text of a value: compact, pretty, and parsing. *)
Class JsonText := {
  value_to_string : Value → string;
  value_pretty : Value → option string;
  value_from_slice : list byte → option Value
}.
(** Errors as their text. *)
Class NodeReads (W : Type) := {
  settled_height : string → string → M W string N;
  registry_table : string → string → M W string Address;
  settled_blob : string → Address → N → M W string (option BlobId);
  walrus_blob : Client.Config → BlobId → M W string (list byte);
  vault_nonces : string → string → M W string VaultStatus
}.
(** The cached UID of the commitments table. *)
Class HasTableUid (W : Type) := { cached_uid : W → option Address; cache_uid : Address → W → W }.

Definition walrus_config (c : Config.Config) : Client.Config :=
  Client.mk_config (Config.publisher_url (walrus c)) (Config.aggregator_url (walrus c))
    (Config.epochs (walrus c)) (Config.sui_rpc_url (sui c)) (Config.publisher_auth_token (walrus c)).
Definition sui_walrus_reads {W PrivKey PubKey Tx TxSig : Type} `{Ed25519 PrivKey PubKey} `{Base64} `{SuiSdk}
    `{SuiRpc W PrivKey Tx TxSig} `{Http W} `{Bcs VaultBcs}
    `{Bcs RegistryBcs} `{Bcs FieldBlobBcs} : NodeReads W := {|
  settled_height url id := errM settlement_error_text (Sui.latest_height url id);
  registry_table url id := errM settlement_error_text (Sui.table_uid url id);
  settled_blob url table h := errM settlement_error_text (Sui.commitment_at url table h);
  walrus_blob c id := errM Walrus.display (fetch_blob (PrivKey := PrivKey) (Client.client_new c) id);
  vault_nonces url id := errM bridge_error_text (vault_status url id)
|}.

Definition obj : list (string * Value) → Value := VObj.
Definition opt_value {A} (f : A → Value) (o : option A) : Value := match o with Some a => f a | None => VNull end.
Definition opt_str : option string → Value := opt_value VStr.

(** [pointer("/a/b")] for names that are not numbers. *)
Definition pointer2 (a b : string) (v : Value) : option Value := x ← get a v; get b x.

Definition ok_response (id result : Value) : Value :=
  obj [("jsonrpc", VStr "2.0"); ("id", id); ("result", result)].
Definition err_response (id : Value) (code : Z) (message : string) : Value :=
  obj [("jsonrpc", VStr "2.0"); ("id", id);
       ("error", obj [("code", VInt code); ("message", VStr message)])].

Record ToolOutcome := mk_outcome { text : string; is_error : bool }.
Definition error_outcome (message : string) : ToolOutcome := mk_outcome message true.

Definition chain_json (s : StateStore.ChainState) : Value :=
  obj [("height", int (StateStore.cs_height s)); ("head", VStr (StateStore.head s));
       ("safe", VStr (StateStore.safe s)); ("finalized", VStr (StateStore.finalized s));
       ("timestamp", int (StateStore.cs_timestamp s))].
Definition block_brief (b : Block) : Value :=
  obj [("height", int (height (header b))); ("timestamp", int (timestamp (header b)));
       ("data_len", int (N.of_nat (length (data b))));
       ("signed", VBool (bool_decide (is_Some (signature b))))].
Definition hex0x `{Hex} (h : array 32) : string := "0x" +:+ hex_encode (arr_bytes h).

(** ** The server *)

Record McpServer := mk_server {
  srv_mode : string;
  srv_data_dir : path;
  srv_registry_id : option string;
  srv_package_id : option string;
  srv_vault_id : option string;
  srv_sui : Client.Config
}.
Definition mcp_from_config (c : Config.Config) : McpServer :=
  mk_server (mode c) (data_dir c) (Config.sc_registry_id (sui c)) (settlement_package_id (sui c))
    (vault_id (bridge c)) (walrus_config c).

Section Tools.
Context {W : Type} `{NodeReads W} `{HasDisk W} `{HasTableUid W} `{Runtime W} `{JsonText} `{Hex} `{Base64}.
Context `{Bcs serde_block} `{Json StateStore.ChainState} `{Json PendingStore.PendingFile}
  `{Bcs (list Wire.WireBlock)}.
Abbreviation Op := (M W anyhow).
Variable srv : McpServer.

Definition pretty (v : Value) : string := default "" (value_pretty v).

(** A read that takes longer than ten seconds is given up. *)
Definition timeout_ok {A} (m : M W string A) : Op (result string A) := λ w,
  let '(r, w') := m w in
  (Ok (if now_ms w + SUI_READ_TIMEOUT <? now_ms w' then Err "sui rpc timed out after 10s" else r), w').

Definition local {A} (m : M disk StoreError A) : Op (result StoreError A) := tryM (on_disk m).
Definition stored_block_count : Op N :=
  r ← tryM (on_disk (fs_read_dir (srv_data_dir srv ++ ["blocks"])));
  mret (match r with Ok names => N.of_nat (length (omap parse_u64 names)) | Err _ => 0 end).
Definition blocks : Op BlockStore.t :=
  errM (λ e, [store_error_text e]) (on_disk (BlockStore.new (srv_data_dir srv))).

Definition commitments_table_uid : Op (result string Address) :=
  w ← getM;
  match cached_uid w with
  | Some uid => mret (Ok uid)
  | None =>
      match srv_registry_id srv with
      | None => mret (Err "settlement not configured")
      | Some registry =>
          r ← timeout_ok (registry_table (Client.sui_rpc_url (srv_sui srv)) registry);
          match r with
          | Ok uid => modM (cache_uid uid);; mret (Ok uid)
          | Err e => mret (Err e)
          end
      end
  end.
Definition blob_id_for_height (h : N) : Op (Value * option string) :=
  match srv_registry_id srv with
  | None => mret (VNull, None)
  | Some _ =>
      u ← commitments_table_uid;
      match u with
      | Err e => mret (VNull, Some e)
      | Ok uid =>
          r ← timeout_ok (settled_blob (Client.sui_rpc_url (srv_sui srv)) uid h);
          mret (match r with
                | Ok (Some blob) => (VStr (BlobIds.encode blob), None)
                | Ok None => (VNull, None)
                | Err e => (VNull, Some e)
                end)
      end
  end.

Definition settlement_section (latest_block : option N) : Op Value :=
  match srv_registry_id srv with
  | None => mret (obj [("configured", VBool false)])
  | Some registry =>
      let base := [("configured", VBool true); ("registry_id", VStr registry);
                   ("package_id", opt_str (srv_package_id srv))] in
      r ← timeout_ok (settled_height (Client.sui_rpc_url (srv_sui srv)) registry);
      mret (obj (base ++
        match r with
        | Ok settled =>
            [("settled_height", int settled);
             ("lag", opt_value (λ latest, int (sat_sub latest settled)) latest_block)]
        | Err e => [("error", VStr e)]
        end))
  end.
Definition tool_status : Op ToolOutcome :=
  state ← local (StateStore.load (StateStore.new (srv_data_dir srv)));
  pending ← local (PendingStore.pending (PendingStore.new (srv_data_dir srv)));
  match state, pending with
  | Err e, _ => mret (error_outcome ("reading store: " +:+ store_error_text e))
  | Ok _, Err e => mret (error_outcome ("reading pending markers: " +:+ store_error_text e))
  | Ok chain, Ok heights =>
      store ← blocks;
      w ← getM;
      let latest := BlockStore.latest_height store (get_disk w) in
      stored ← stored_block_count;
      settlement ← settlement_section latest;
      mret (mk_outcome (pretty (obj
        [("mode", VStr (srv_mode srv)); ("data_dir", VStr (join_path (srv_data_dir srv)));
         ("chain", opt_value chain_json chain); ("latest_block", opt_value int latest);
         ("stored_blocks", int stored); ("pending_heights", VArr (int <$> heights));
         ("settlement", settlement);
         ("bridge", obj [("configured", VBool (bool_decide (is_Some (srv_vault_id srv))));
                         ("vault_id", opt_str (srv_vault_id srv))])])) false)
  end.

Definition height_arg (args : Value) : option N := get "height" args ≫= as_u64.
Definition tool_get_block (args : Value) : Op ToolOutcome :=
  match height_arg args with
  | None => mret (error_outcome "missing required argument: height (integer)")
  | Some h =>
      store ← blocks;
      r ← local (BlockStore.get store h);
      match r with
      | Err (BlockNotFound _) =>
          mret (mk_outcome ("Block " +:+ fmt_dec h +:+ " not found in the local store") false)
      | Err e => mret (error_outcome ("reading block: " +:+ store_error_text e))
      | Ok b =>
          p ← local (PendingStore.pending (PendingStore.new (srv_data_dir srv)));
          let pending := match p with Ok l => bool_decide (h ∈ l) | Err _ => false end in
          '(blob, e) ← blob_id_for_height h;
          mret (mk_outcome (pretty (obj
            ([("height", int (height (header b))); ("parent_hash", VStr (hex0x (parent_hash (header b))));
              ("state_root", VStr (hex0x (state_root (header b))));
              ("timestamp", int (timestamp (header b)));
              ("data_len", int (N.of_nat (length (data b))));
              ("signed", VBool (bool_decide (is_Some (signature b))));
              ("pending_finalization", VBool pending); ("settled_blob_id", blob)]
             ++ match e with Some e => [("settlement_error", VStr e)] | None => [] end))) false)
      end
  end.

Definition tool_get_blob (args : Value) : Op ToolOutcome :=
  match get "blob_id" args ≫= as_str with
  | None => mret (error_outcome "missing required argument: blob_id (base64url)")
  | Some blob_id =>
      match BlobIds.decode blob_id with
      | Err e => mret (error_outcome ("invalid blob_id: " +:+ Walrus.display e))
      | Ok id =>
          r ← tryM (E := string) (walrus_blob (srv_sui srv) id);
          match r with
          | Err e => mret (error_outcome ("fetching blob from Walrus: " +:+ e))
          | Ok bytes =>
              mret (mk_outcome (pretty (obj
                ([("blob_id", VStr blob_id); ("size", int (N.of_nat (length bytes)))]
                 ++ match Wire.Wire.decode bytes with
                    | Ok bs => [("block_count", int (N.of_nat (length bs)));
                                ("blocks", VArr (block_brief <$> bs))]
                    | Err _ => [("decoded", VBool false)]
                    end))) false)
          end
      end
  end.

Definition tool_settlement (args : Value) : Op ToolOutcome :=
  match srv_registry_id srv with
  | None => mret (error_outcome "settlement not configured (set sui.registry_id in the config)")
  | Some registry =>
      r ← timeout_ok (settled_height (Client.sui_rpc_url (srv_sui srv)) registry);
      match r with
      | Err e => mret (error_outcome ("reading settlement registry: " +:+ e))
      | Ok latest =>
          commitment ← match height_arg args with
            | None => mret []
            | Some h => '(blob, _) ← blob_id_for_height h;
                        mret [("commitment", obj [("height", int h); ("blob_id", blob)])]
            end;
          mret (mk_outcome (pretty (obj
            ([("registry_id", VStr registry); ("package_id", opt_str (srv_package_id srv));
              ("latest_settled_height", int latest)] ++ commitment))) false)
      end
  end.

Definition tool_bridge : Op ToolOutcome :=
  match srv_vault_id srv with
  | None => mret (error_outcome "bridge not configured (set bridge.vault_id in the config)")
  | Some vault =>
      r ← timeout_ok (vault_nonces (Client.sui_rpc_url (srv_sui srv)) vault);
      mret (match r with
            | Ok s => mk_outcome (pretty (obj
                [("vault_id", VStr vault); ("next_deposit_nonce", int (deposit_nonce s));
                 ("next_withdraw_nonce", int (withdraw_nonce s))])) false
            | Err e => error_outcome ("reading bridge vault: " +:+ e)
            end)
  end.

Definition call_tool (name : string) (args : Value) : Op (option ToolOutcome) :=
  if decide (name = "status") then Some <$> tool_status
  else if decide (name = "get_block") then Some <$> tool_get_block args
  else if decide (name = "get_blob") then Some <$> tool_get_blob args
  else if decide (name = "settlement") then Some <$> tool_settlement args
  else if decide (name = "bridge") then Some <$> tool_bridge
  else mret None.

(** ** JSON-RPC *)

Definition no_args : Value := obj [("type", VStr "object"); ("properties", obj [])].
Definition tools_metadata : Value := VArr [
  obj [("name", VStr "status");
       ("description", VStr "Podseq node status: mode, chain head from the local store, stored block count, heights pending finalization, and settlement progress (settled height, lag).");
       ("inputSchema", no_args)];
  obj [("name", VStr "get_block");
       ("description", VStr "Fetch a podseq block from the local store by height: header hashes, timestamp, payload size, signature presence, whether it is still pending finalization, and the Walrus blob id it settled into (when configured).");
       ("inputSchema", obj [("type", VStr "object");
          ("properties", obj [("height", obj [("description", VStr "Block height."); ("type", VStr "integer")])]);
          ("required", VArr [VStr "height"])])];
  obj [("name", VStr "get_blob");
       ("description", VStr "Fetch a Walrus blob by id from the aggregator and decode the podseq block batch it carries.");
       ("inputSchema", obj [("type", VStr "object");
          ("properties", obj [("blob_id", obj [
              ("description", VStr "Walrus blob id, base64url (as logged by the node and reported by get_block).");
              ("type", VStr "string")])]);
          ("required", VArr [VStr "blob_id"])])];
  obj [("name", VStr "settlement");
       ("description", VStr "Sui settlement registry: latest settled height, and optionally the Walrus blob commitment for one height.");
       ("inputSchema", obj [("type", VStr "object");
          ("properties", obj [("height", obj [
              ("description", VStr "Height to look up the settled blob id for. Optional.");
              ("type", VStr "integer")])])])];
  obj [("name", VStr "bridge");
       ("description", VStr "Bridge vault state on Sui: next deposit and withdraw nonce.");
       ("inputSchema", no_args)]].

Definition is_supported (v : string) : bool := bool_decide (v ∈ SUPPORTED_PROTOCOL_VERSIONS).
(** [filter(supported).unwrap_or(LATEST_PROTOCOL_VERSION)] *)
Definition negotiate (requested : option string) : string :=
  match requested with
  | Some v => if is_supported v then v else LATEST_PROTOCOL_VERSION
  | None => LATEST_PROTOCOL_VERSION
  end.
Definition initialize_result (version : string) : Value :=
  obj [("protocolVersion", VStr version);
       ("capabilities", obj [("tools", obj [("listChanged", VBool false)])]);
       ("serverInfo", obj [("name", VStr "podseq"); ("version", VStr CARGO_PKG_VERSION)]);
       ("instructions", VStr "Read-only inspection of a podseq node: local store, Sui settlement, Walrus data availability, and the bridge. Nothing is signed or sent.")].
Definition outcome_result (o : ToolOutcome) : Value :=
  obj [("content", VArr [obj [("type", VStr "text"); ("text", VStr (text o))]]);
       ("isError", VBool (is_error o))].

(** A message with an [id] gets a response; a notification gets none. *)
Definition dispatch (message : Value) : Op (option Value) :=
  match get "id" message with
  | None => mret None
  | Some id =>
      match get "method" message ≫= as_str with
      | None => mret (Some (err_response id (-32600) "missing method"))
      | Some method =>
          if decide (method = "initialize") then
            mret (Some (ok_response id (initialize_result
              (negotiate (pointer2 "params" "protocolVersion" message ≫= as_str)))))
          else if decide (method = "ping") then mret (Some (ok_response id (obj [])))
          else if decide (method = "tools/list") then
            mret (Some (ok_response id (obj [("tools", tools_metadata)])))
          else if decide (method = "tools/call") then
            let name := default "" (pointer2 "params" "name" message ≫= as_str) in
            let arguments := default (obj []) (pointer2 "params" "arguments" message) in
            outcome ← call_tool name arguments;
            mret (Some (match outcome with
                        | Some o => ok_response id (outcome_result o)
                        | None => err_response id (-32602) ("unknown tool: " +:+ name)
                        end))
          else mret (Some (err_response id (-32601) ("method not found: " +:+ method)))
      end
  end.

Definition is_object (v : Value) : bool := match v with VObj _ => true | _ => false end.
(** An array is a batch, answered in order. *)
Fixpoint dispatch_batch (entries : list Value) : Op (list Value) :=
  match entries with
  | [] => mret []
  | entry :: rest =>
      rs ← (if is_object entry then option_list <$> dispatch entry
            else mret [err_response VNull (-32600) "invalid request"]);
      more ← dispatch_batch rest;
      mret (rs ++ more)
  end.

(** ** HTTP *)

Record HttpRequest := mk_request {
  req_method : string;
  req_path : string;
  req_headers : list (string * string);
  content_length : option N
}.
Definition header (name : string) (r : HttpRequest) : option string := assoc name (req_headers r).

(** A response before it is written out. *)
Record HttpResponse := mk_response {
  status : string;
  content_type : string;
  protocol_version : option string;
  extra_headers : list (string * string);
  resp_body : list byte
}.
Definition CRLF : string := String (ascii_of_N 13) (String (ascii_of_N 10) "").
Definition header_line (name value : string) : string := name +:+ ": " +:+ value +:+ CRLF.
Definition write_response (r : HttpResponse) : list byte :=
  string_bytes
    ("HTTP/1.1 " +:+ status r +:+ CRLF
     +:+ header_line "Content-Type" (content_type r)
     +:+ header_line "Content-Length" (fmt_dec (N.of_nat (length (resp_body r))))
     +:+ match protocol_version r with
         | Some v => header_line "MCP-Protocol-Version" v | None => "" end
     +:+ foldr (λ '(n, v) s, header_line n v +:+ s) "" (extra_headers r)
     +:+ "Connection: close" +:+ CRLF +:+ CRLF)
  ++ resp_body r.

(** [read_line]: up to and with the next newline, or the end of the stream;
    the text, the bytes it took, and the rest of the stream. *)
Fixpoint split_line (l : list byte) : list byte * list byte :=
  match l with
  | [] => ([], [])
  | b :: l => if decide (b = x0a) then ([b], l) else let '(a, r) := split_line l in (b :: a, r)
  end.
Definition read_line (stream : list byte) : result anyhow (string * N * list byte) :=
  let '(line, rest) := split_line stream in
  s ← ok_or (from_utf8 line) ["stream did not contain valid UTF-8"];
  Ok (s, N.of_nat (length line), rest).

(** The words [split_whitespace] yields first and second. *)
Fixpoint next_word (s : string) : string * string :=
  match s with
  | "" => ("", "")
  | String c s' => if is_space c then ("", s) else let '(w, r) := next_word s' in (String c w, r)
  end.
Definition split_word (s : string) : string * string := next_word (trim_start s).

Record HeaderBlock := mk_headers {
  hb_headers : list (string * string);
  hb_length : option N
}.
Definition add_header (line : string) (h : HeaderBlock) : HeaderBlock :=
  match split_once ":"%char line with
  | None => h
  | Some (name, value) =>
      let name := to_lowercase (trim name) in
      mk_headers (hb_headers h ++ [(name, trim value)])
        (if decide (name = "content-length") then parse_u64 (trim value) else hb_length h)
  end.
(** Each line takes at least one byte, so more fuel than the stream has bytes
    is enough ([headers_terminate]). *)
Fixpoint read_headers (fuel : nat) (header_bytes : N) (h : HeaderBlock) (stream : list byte)
    : result anyhow (HeaderBlock * list byte) :=
  match fuel with
  | O => Err ["out of fuel"]
  | S fuel =>
      '(line, n, rest) ← read_line stream;
      if n =? 0 then bail "connection closed mid-headers"
      else
        let header_bytes := header_bytes + n in
        if MAX_HEADER_BYTES <? header_bytes then bail "header block too large"
        else
          let trimmed := trim_end line in
          if decide (trimmed = "") then Ok (h, rest)
          else read_headers fuel header_bytes (add_header trimmed h) rest
  end.
Definition read_request (stream : list byte) : result anyhow (option (HttpRequest * list byte)) :=
  '(line, n, rest) ← read_line stream;
  if n =? 0 then Ok None
  else
    let '(method, line') := split_word line in
    let '(path, _) := split_word line' in
    '(h, rest) ← read_headers (S (length rest)) 0 (mk_headers [] None) rest;
    Ok (Some (mk_request method path (hb_headers h) (hb_length h), rest)).

Definition plain (st : string) (b : string) : HttpResponse := mk_response st "text/plain" None [] (string_bytes b).

Definition check_body (request : HttpRequest) : HttpResponse + N :=
  if bool_decide (is_Some (header "transfer-encoding" request)) then
    inl (plain "400 Bad Request" "chunked bodies are not supported")
  else
    match content_length request with
    | None => inl (plain "400 Bad Request" "content-length required")
    | Some n => if MAX_BODY_BYTES <? n then inl (plain "413 Content Too Large" "body too large") else inr n
    end.
(** The checks before the body is read, in the handler's order: the response
    that refuses the request, or the body's length. *)
Definition check_request (request : HttpRequest) : HttpResponse + N :=
  if negb (bool_decide (req_path request = "/mcp")) then inl (plain "404 Not Found" "not found")
  else if negb (bool_decide (req_method request = "POST")) then
    inl (mk_response "405 Method Not Allowed" "text/plain" None [("Allow", "POST")]
           (string_bytes "POST JSON-RPC messages only"))
  else
    match header "mcp-protocol-version" request with
    | Some version =>
        if is_supported version then check_body request
        else inl (plain "400 Bad Request" ("unsupported MCP-Protocol-Version: " +:+ version))
    | None => check_body request
    end.

(** The messages of a body: [None] refuses the request. *)
Definition dispatch_body (message : Value) : Op (option (list Value * bool)) :=
  match message with
  | VArr entries => responses ← dispatch_batch entries; mret (Some (responses, true))
  | VObj _ => response ← dispatch message; mret (Some (option_list response, false))
  | _ => mret None
  end.
Definition body_response (version : string) (responses : list Value) (was_array : bool) : HttpResponse :=
  match responses with
  | [] => mk_response "202 Accepted" "text/plain" (Some version) [] []
  | first :: _ =>
      let response := if was_array then VArr responses else first in
      mk_response "200 OK" "application/json" (Some version) []
        (string_bytes (value_to_string response))
  end.

(** One connection: from the bytes the client sends until it closes to the
    response, or [None] when it closes without a request. *)
Definition handle_connection (stream : list byte) : Op (option HttpResponse) :=
  request ← lift (read_request stream);
  match request with
  | None => mret None
  | Some (request, rest) =>
      match check_request request with
      | inl refused => mret (Some refused)
      | inr content_length =>
          let body := take (N.to_nat content_length) rest in
          if N.of_nat (length body) <? content_length then
            throw ["client closed the connection mid-body"]
          else
            match value_from_slice body with
            | None => mret (Some (plain "400 Bad Request" "invalid JSON"))
            | Some message =>
                r ← dispatch_body message;
                mret (Some (match r with
                  | None => plain "400 Bad Request" "expected a JSON object or array"
                  | Some (responses, was_array) =>
                      body_response (negotiate (header "mcp-protocol-version" request))
                        responses was_array
                  end))
            end
      end
  end.
(** The task [serve_on] spawns per connection: the bytes the client receives;
    a handler's error is only logged. *)
Definition serve_connection (stream : list byte) (w : W) : list byte * W :=
  match handle_connection stream w with
  | (Ok (Some response), w') => (write_response response, w')
  | (_, w') => ([], w')
  end.
End Tools.
