(* ===== verification/Cli.v ===== *)
(** The command line: [run] and [load_config] of [crates/node/src/main.rs].

    What a command prints is its result; keys to generate and the JWT reader are
    arguments. *)

From S2P Require Import Prelude Text Codec Disk Core Store Wire Contract Sui Client SuiInbox SuiRotation.
From S2P Require Import Deadline P2p Config NodeRotation JsonValue Engine L2Rpc Tracker Runner FullNode.
From S2P Require Import Vault Bridge Setup SetupFacts Boot NodeBoot Mcp.
Local Open Scope string_scope.
Local Open Scope list_scope.
Local Open Scope N_scope.

(** ** Commands *)

(** [Cli] and [Commands]. *)
Inductive command :=
| InitConfig (out : option path)
| GenerateKey (out : path)
| GenerateEvmKey (out : path)
| ListKeys
| Start
| Status
| ServeMcp (listen : string).
Record cli := mk_cli { cli_config : option path; cli_command : command }.

Section Cli.
Context {W PrivKey PubKey EvmKey Tx TxSig PeerKey Identity Secret : Type} `{Ed25519 PrivKey PubKey} `{Base64}
  `{SuiSdk} `{SuiRpc W PrivKey Tx TxSig} `{HasDisk W} `{Runtime W} `{Toml} `{Hex} `{PeerKeys PeerKey Identity}
  `{EvmSdk} `{EvmSigner EvmKey} `{Keyring.KeyText PrivKey EvmKey} `{PubKeyText PubKey} `{ExecutionRpc W}
  `{Json StateStore.ChainState}.
Context `{Bcs RegistryBcs} `{Bcs FieldBlobBcs} `{Bcs UpgradeCapMirror}.
Variables (socket_addr : string → result string string) (jwt_from_file : path → M disk string Secret).
(** The keys a generating command draws, and the deployment attempts a start
    gets to see. *)
Variables (new_key : PrivKey) (new_evm_key : EvmKey) (attempts : nat).

(** What a command leaves running. *)
Inductive outcome :=
| Printed (lines : list string)
| Serving (server : McpServer) (listen : string)
| Sequencing (booted : option (Booted (PrivKey := PrivKey) (PeerKey := PeerKey) (Identity := Identity) (Secret := Secret)))
| Following (node : BootedNode (PrivKey := PrivKey) (PubKey := PubKey) (PeerKey := PeerKey) (Secret := Secret)).

Definition no_config : string := "no config file provided (use --config or PODSEQ_CONFIG)".
Definition load_config (p : option path) : M W anyhow Config :=
  p ← lift (ok_or p [no_config]);
  on_disk (Config.load p).

Definition status_lines (c : Config) : M W anyhow (list string) :=
  contextM ("loading JWT from " +:+ join_path (jwt_path (reth c)))
    (on_disk (errM (λ e, [e]) (jwt_from_file (jwt_path (reth c)))));;
  height ← tryM rpc_block_number;
  mret [ match height with
         | Ok h => "Reth block height: " +:+ fmt_dec h
         | Err e => "Reth: unreachable (" +:+ engine_error_text e +:+ ")"
         end;
         match settlement_package_id (sui c) with
         | Some p => "Settlement package: " +:+ p
         | None => "Settlement: not configured"
         end ].

Definition run_start (config_path : path) : M W anyhow outcome :=
  c ← on_disk (Config.load config_path);
  if bool_decide (mode c = "full") then
    Following <$> start_full_node (Identity := Identity) socket_addr jwt_from_file c
  else λ w,
    let '(r, s) := start_sequencer (Tx := Tx) socket_addr jwt_from_file attempts config_path (c, w) in
    (Sequencing <$> r, s.2).

Definition run (a : cli) : M W anyhow outcome :=
  match cli_command a with
  | InitConfig (Some p) => on_disk (Config.save testnet p);; mret (Printed [])
  | InitConfig None => text ← lift (to_toml testnet); mret (Printed [text])
  | GenerateKey out => Printed <$> on_disk (Keyring.generate_signer new_key out)
  | GenerateEvmKey out => Printed <$> on_disk (Keyring.generate_evm_key new_evm_key out)
  | ListKeys => c ← load_config (cli_config a); Printed <$> on_disk (Keyring.list c)
  | Status => c ← load_config (cli_config a); Printed <$> status_lines c
  | ServeMcp listen => c ← load_config (cli_config a); mret (Serving (mcp_from_config c) listen)
  | Start => p ← lift (ok_or (cli_config a) [no_config]); run_start p
  end.
End Cli.

(** ** What the commands leave on disk *)

(** [init config] writes a file that every command loads as the default
    configuration. *)
Section Commands.
Context {W PrivKey PubKey EvmKey Tx TxSig PeerKey Identity Secret : Type} `{Ed25519 PrivKey PubKey} `{Base64}
  `{SuiSdk} `{SuiRpc W PrivKey Tx TxSig} `{HasDiskLaws W} `{Runtime W} `{TomlLaws} `{Hex}
  `{PeerKeys PeerKey Identity} `{EvmSdk} `{EvmSigner EvmKey} `{!Keyring.KeyText PrivKey EvmKey}
  `{PubKeyText PubKey} `{ExecutionRpc W} `{Json StateStore.ChainState}.
Context `{Bcs RegistryBcs} `{Bcs FieldBlobBcs} `{Bcs UpgradeCapMirror}.
Variables (socket_addr : string → result string string) (jwt_from_file : path → M disk string Secret).
Variables (new_key : PrivKey) (new_evm_key : EvmKey) (attempts : nat).
Abbreviation run_cli := (run (W := W) (Tx := Tx) (TxSig := TxSig) (PeerKey := PeerKey) (Identity := Identity)
  socket_addr jwt_from_file new_key new_evm_key attempts).

Theorem init_then_load x p (w : W) o w1 :
  p ≠ [] → with_extension p "toml.tmp" ≠ p →
  run_cli (mk_cli x (InitConfig (Some p))) w = (Ok o, w1) →
  ∀ w2, faults (get_disk w2) = [] → files (get_disk w2) !! p = files (get_disk w1) !! p →
  ∃ w3, load_config (Some p) w2 = (Ok testnet, w3) ∧ get_disk w3 = get_disk w2.
Proof.
  intros Hp Ht Hrun w2 Hnf Hsame. unfold run in Hrun. cbn [cli_command] in Hrun.
  apply bind_ok_inv in Hrun as ([] & wa & Hsave & Hret). injection Hret as _ <-.
  unfold on_disk, zoom in Hsave. destruct (Config.save testnet p (get_disk w)) as [r d] eqn:Hs.
  injection Hsave as -> <-. apply save_ok in Hs as (text & Htext & Hfile); [|done..].
  rewrite get_put_disk, Hfile in Hsame. exists (put_disk (get_disk w2) w2). rewrite get_put_disk. split; [|done].
  unfold load_config. rewrite run_bind. unfold lift. cbn [ok_or]. unfold on_disk, zoom.
  by rewrite (load_saved_config testnet p (get_disk w2) text Hnf Htext Hsame).
Qed.

(** *** Commands that only show *)

Definition shows (a : command) : bool :=
  match a with InitConfig None | ListKeys | Status | ServeMcp _ => true | _ => false end.
(** Reading the JWT and asking the engine touch no file. *)
Context (jwt_reads : ∀ p d, files (jwt_from_file p d).2 = files d ∧ dirs (jwt_from_file p d).2 = dirs d)
  (engine_apart : ∀ w : W, get_disk (rpc_block_number w).2 = get_disk w).

Definition same_files (d0 d : disk) : Prop := files d = files d0 ∧ dirs d = dirs d0.
Lemma same_read (d0 : disk) p : preserves (same_files d0) (fs_read_to_string p).
Proof.
  intros d [Hf Hd]. destruct (fs_read_to_string p d) as [r d'] eqn:Hr.
  apply fs_read_to_string_frame in Hr as [Hf' Hd']. assert (same_files d0 d') by (split; congruence). by destruct r.
Qed.
Lemma same_jwt (d0 : disk) p : preserves (same_files d0) (jwt_from_file p).
Proof.
  intros d [Hf Hd]. destruct (jwt_reads p d) as [Hf' Hd']. destruct (jwt_from_file p d) as [r d'].
  cbn in Hf', Hd'. assert (same_files d0 d') by (split; congruence). by destruct r.
Qed.
Lemma same_on_disk {A} (d0 : disk) (m : M disk anyhow A) :
  preserves (same_files d0) m → preserves (λ w : W, same_files d0 (get_disk w)) (on_disk m).
Proof.
  intros Hm w Hw. unfold on_disk, zoom. specialize (Hm _ Hw).
  destruct (m (get_disk w)) as [[] d]; by rewrite get_put_disk.
Qed.
Ltac same := walk_with ltac:(idtac; lazymatch goal with
  | |- preserves _ (fs_read_to_string _) => apply same_read
  | |- preserves _ (jwt_from_file _) => apply same_jwt
  end).
Lemma same_load d0 p : preserves (same_files d0) (Config.load p).
Proof. unfold Config.load. same. Qed.
Lemma same_list d0 c : preserves (same_files d0) (Keyring.list c).
Proof.
  unfold Keyring.list, Keyring.print_derived, Keyring.sui_address, Keyring.evm_address, read_pubkey_hex,
    read_key, contextM. same.
Qed.

(** A command that only shows changes no file. *)
Theorem showing_changes_nothing x a (w : W) r w' :
  shows a = true → run_cli (mk_cli x a) w = (r, w') → same_files (get_disk w) (get_disk w').
Proof.
  intros Ha Hr.
  assert (preserves (λ v : W, same_files (get_disk w) (get_disk v)) (run_cli (mk_cli x a))) as Hk.
  { unfold run, load_config, status_lines, contextM. cbn [cli_command cli_config].
    destruct a as [[]|? |? | | | |]; try done; walk_with ltac:(idtac; lazymatch goal with
    | |- preserves _ (on_disk (Config.load _)) => apply same_on_disk, same_load
    | |- preserves _ (on_disk (Keyring.list _)) => apply same_on_disk, same_list
    | |- preserves _ (on_disk (errM _ (jwt_from_file _))) => apply same_on_disk; same
    | |- preserves _ rpc_block_number =>
        intros v Hv; specialize (engine_apart v); destruct (rpc_block_number v) as [[] ?]; cbn in engine_apart |- *;
        by rewrite engine_apart
    end). }
  specialize (Hk w (conj eq_refl eq_refl)). rewrite Hr in Hk. by destruct r.
Qed.
End Commands.

(** ** Examples *)

Module CliDemo.
Import Codec.Demo SetupDemo BootDemo KeysDemo.
#[local] Existing Instances Codec.Demo.ed25519 CountableCodec.countable_json.
(** A codec of the default configuration. *)
#[local] Instance toml : Toml := {|
  toml_from_str s := if decide (s = "testnet") then Ok (raw_of testnet) else Err "toml";
  toml_to_string_pretty r := if decide (r = raw_of testnet) then Ok "testnet" else Err "toml"
|}.
#[local] Instance toml_laws : TomlLaws.
Proof.
  split; intros c text; cbn [toml_to_string_pretty toml_from_str toml]; case_decide as Hc; try done;
    intros [= <-]; [|done]. rewrite decide_True by done. by rewrite Hc.
Qed.
#[local] Instance keys : Keyring.KeyText (array 32) (array 32) := {|
  Keyring.to_suiprivkey _ := Err "no text"; Keyring.evm_to_bytes k := k
|}.
#[local] Instance reth_at_five : ExecutionRpc disk := {|
  rpc_new_payload _ _ := mret Valid; rpc_forkchoice _ := mret (mk_updated Valid None);
  rpc_current_head := mret ZERO; rpc_block_number := mret 5; rpc_block_by_number _ := mret None
|}.
#[local] Instance verifying : PubKeyText (array 32) := {|
  pubkey_from_str _ := Ok (array_fill 32 x00); verifying_key := Ok
|}.
Definition run_demo (a : command) (d : disk) :=
  run (W := disk) (PrivKey := array 32) (EvmKey := array 32) (Tx := ptb) (PeerKey := array 32)
    (Identity := list byte) (Secret := unit) Ok (λ _, mret tt) (array_fill 32 x07) evm0 0
    (mk_cli (Some cp) a) d.
Definition configured : disk := (run_demo (InitConfig (Some cp)) KeysDemo.empty).2.

Lemma init_runs : run_demo (InitConfig (Some cp)) KeysDemo.empty = (Ok (Printed []), configured).
Proof. by vm_compute. Qed.
Lemma configured_calm : bool_decide (faults configured = []) = true.
Proof. by vm_compute. Qed.
Lemma init_then_load_witness :
  ∃ w3, load_config (Some cp) configured = (Ok testnet, w3) ∧ w3 = configured.
Proof.
  exact (init_then_load (PeerKey := array 32) (Identity := list byte) (Tx := ptb) Ok (λ _, mret tt)
    (array_fill 32 x07) evm0 0 (Some cp) cp KeysDemo.empty (Printed []) configured
    ltac:(discriminate) ltac:(by vm_compute) init_runs configured (bool_decide_eq_true_1 _ configured_calm) eq_refl).
Defined.

Example status_shows :
  (run_demo Status configured).1 =
    Ok (Printed ["Reth block height: 5"; "Settlement: not configured"]).
Proof. by vm_compute. Qed.
Lemma showing_changes_nothing_witness : same_files configured (run_demo Status configured).2.
Proof.
  apply (showing_changes_nothing (W := disk) (PeerKey := array 32) (Identity := list byte) (Tx := ptb) Ok
    (λ _, mret tt) (array_fill 32 x07) evm0 0 ltac:(done) ltac:(done) (Some cp) Status configured
    (run_demo Status configured).1); [done|]. apply surjective_pairing.
Defined.
End CliDemo.
