(* ===== verification/McpFacts.v ===== *)
(** Facts about the MCP server of [Mcp].

    Its HTTP reader always stops and recovers what a client wrote; it only
    dispatches bounded requests; every JSON-RPC message with an id is answered
    once, in order; and no request changes the node's files. *)

From Stdlib Require Import Lia Ascii.
From S2P Require Import Prelude Text Codec Disk Core Store Wire Sui Config JsonValue Client Vault Mcp.
Local Open Scope string_scope.
Local Open Scope list_scope.
Local Open Scope N_scope.

(** ** Lines *)

Lemma split_line_app l : l = (split_line l).1 ++ (split_line l).2.
Proof.
  induction l as [|b l IH]; [done|]. cbn [split_line]. case_decide; [done|].
  destruct (split_line l) as [a r]. cbn in *. by rewrite IH at 1.
Qed.
Lemma read_line_ok stream s n rest :
  read_line stream = Ok (s, n, rest) →
  ∃ line, stream = line ++ rest ∧ n = N.of_nat (length line) ∧ from_utf8 line = Some s.
Proof.
  unfold read_line. pose proof (split_line_app stream) as Happ.
  destruct (split_line stream) as [line rest']. cbn in Happ.
  destruct (from_utf8 line) as [s'|] eqn:Hu; cbn; [|done]. intros [= -> <- ->]. eauto.
Qed.
Lemma split_line_line a l : Forall (.≠ x0a) a → split_line (a ++ x0a :: l) = (a ++ [x0a], l).
Proof.
  induction 1 as [|b a Hb _ IH]; cbn [split_line app]; [by rewrite decide_True|].
  by rewrite decide_False, IH.
Qed.

(** A text is plain when its bytes are ASCII and none is a newline. *)
Definition plain_byte (b : byte) : bool := in_range 0 0x7F b && negb (bool_decide (b = x0a)).
Definition plain_text (s : string) : Prop := Forall (λ b, plain_byte b = true) (string_bytes s).

Lemma plain_app a b : plain_text (a +:+ b) ↔ plain_text a ∧ plain_text b.
Proof. unfold plain_text. by rewrite string_bytes_app, Forall_app. Qed.

Lemma read_plain_line s l :
  plain_text s →
  read_line (string_bytes (s +:+ CRLF) ++ l)
  = Ok (s +:+ CRLF, N.of_nat (length (string_bytes (s +:+ CRLF))), l).
Proof.
  intros Hs. assert (plain_text (s +:+ String (ascii_of_N 13) "")) as Hp.
  { apply plain_app. split; [done|]. by repeat constructor. }
  assert (string_bytes (s +:+ CRLF) = string_bytes (s +:+ String (ascii_of_N 13) "") ++ [x0a]) as Hb.
  { by rewrite !string_bytes_app, <- app_assoc. }
  unfold read_line. rewrite Hb, <- app_assoc. cbn [app]. rewrite split_line_line, <- Hb.
  - rewrite from_utf8_ascii; [done|]. apply forallb_forall. rewrite Hb.
    intros b [Hin|[<-|[]]]%in_app_or; [|done].
    unfold plain_text in Hp. rewrite List.Forall_forall in Hp. specialize (Hp _ Hin).
    by apply andb_true_iff in Hp as [].
  - eapply Forall_impl; [exact Hp|]. intros b Hpb ->. done.
Qed.

(** ** Termination and bounds of the header reader *)

Lemma read_headers_bounds fuel hb h stream h' rest :
  hb ≤ MAX_HEADER_BYTES →
  read_headers fuel hb h stream = Ok (h', rest) →
  ∃ block, stream = block ++ rest ∧ hb + N.of_nat (length block) ≤ MAX_HEADER_BYTES.
Proof.
  revert hb h stream. induction fuel as [|fuel IH]; intros hb h stream Hhb; cbn [read_headers]; [done|].
  intros ([[line n] rest1] & Hr & H)%result_bind_ok.
  apply read_line_ok in Hr as (bytes & -> & -> & _).
  destruct (N.eqb_spec (N.of_nat (length bytes)) 0) as [|Hn]; [done|].
  destruct (N.ltb_spec MAX_HEADER_BYTES (hb + N.of_nat (length bytes))) as [|Hle]; [done|].
  case_decide.
  - injection H as <- <-. eauto.
  - apply IH in H as (block & -> & Hb); [|done]. exists (bytes ++ block).
    rewrite app_assoc. split; [done|]. rewrite length_app. lia.
Qed.

(** the header reader always stops: more fuel than the stream has bytes
    never runs out, and the result does not depend on how much more. *)
Theorem headers_terminate fuel fuel' hb h stream :
  (length stream < fuel)%nat → (length stream < fuel')%nat →
  read_headers fuel hb h stream = read_headers fuel' hb h stream
  ∧ read_headers fuel hb h stream ≠ Err ["out of fuel"].
Proof.
  revert fuel' hb h stream. induction fuel as [|fuel IH]; intros fuel' hb h stream Hf Hf'; [lia|].
  destruct fuel' as [|fuel']; [lia|]. cbn [read_headers].
  destruct (read_line stream) as [[[line n] rest]|e] eqn:Hr; cbn.
  - apply read_line_ok in Hr as (bytes & -> & -> & _). rewrite length_app in Hf, Hf'.
    destruct (N.eqb_spec (N.of_nat (length bytes)) 0) as [|Hn]; [done|].
    destruct (_ <? _); [done|]. case_decide; [done|]. apply IH; lia.
  - split; [done|]. unfold read_line in Hr. destruct (split_line stream).
    destruct (from_utf8 _); cbn in Hr; congruence.
Qed.

(** ** What a client writes is what the server reads *)

Definition str_spaces (s : string) : Prop := trim_start s = "".
Lemma trim_end_spaces s t : trim_end t = "" → trim_end s = s → trim_end (s +:+ t) = s.
Proof.
  intros Ht. induction s as [|c s IH]; [done|]. intros Hs.
  change (String c s +:+ t) with (String c (s +:+ t)). cbn [trim_end] in *.
  assert (trim_end s = s) as Hs'.
  { destruct (trim_end s) as [|a u].
    - destruct (is_space c); congruence.
    - by injection Hs. }
  rewrite IH by done. rewrite Hs' in Hs. by destruct s.
Qed.
Lemma trim_end_app a b : b ≠ "" → trim_end b = b → trim_end (a +:+ b) = a +:+ b.
Proof.
  intros Hb Ht. induction a as [|c a IH]; [done|].
  change (String c a +:+ b) with (String c (a +:+ b)). cbn [trim_end]. rewrite IH.
  destruct a, b; done.
Qed.

(** A word no trimming changes. *)
Record token (s : string) : Prop := {
  tk_nonempty : s ≠ "";
  tk_start : trim_start s = s;
  tk_end : trim_end s = s;
  tk_plain : plain_text s
}.
Lemma trim_token s : token s → trim s = s.
Proof. intros []. unfold trim. congruence. Qed.
#[export] Instance token_dec s : Decision (token s).
Proof.
  refine (cast_if_and4 (decide (s ≠ "")) (decide (trim_start s = s)) (decide (trim_end s = s))
    (decide (plain_text s))); [by constructor|intros []; done..].
Defined.

(** A header as a client writes it: the name in lower case and without a colon. *)
Definition header_name (s : string) : Prop :=
  token s ∧ to_lowercase s = s ∧ Forall (.≠ ":"%char) (String.list_ascii_of_string s).
#[export] Instance header_name_dec s : Decision (header_name s).
Proof. unfold header_name. apply _. Defined.
(** A word of the request line. *)
Definition request_word (s : string) : Prop :=
  token s ∧ Forall (λ c, is_space c = false) (String.list_ascii_of_string s).
#[export] Instance request_word_dec s : Decision (request_word s).
Proof. unfold request_word. apply _. Defined.

Lemma split_once_app s t :
  Forall (.≠ ":"%char) (String.list_ascii_of_string s) →
  split_once ":"%char (s +:+ String ":"%char t) = Some (s, t).
Proof.
  induction s as [|c s IH]; intros Hs; [done|].
  cbn [String.list_ascii_of_string] in Hs. inversion_clear Hs as [|?? Hc Hs'].
  change (String c s +:+ ?u) with (String c (s +:+ u)). cbn [split_once].
  rewrite decide_False by done. by rewrite IH.
Qed.
Lemma next_word_app s c t :
  Forall (λ c, is_space c = false) (String.list_ascii_of_string s) → is_space c = true →
  next_word (s +:+ String c t) = (s, String c t).
Proof.
  intros Hs Hc. induction s as [|a s IH].
  - change ("" +:+ ?u) with u. cbn [next_word]. by rewrite Hc.
  - cbn [String.list_ascii_of_string] in Hs. inversion_clear Hs as [|?? Ha Hs'].
    change (String a s +:+ ?u) with (String a (s +:+ u)). cbn [next_word].
    by rewrite Ha, IH.
Qed.
Lemma trim_start_token_app s t : token s → trim_start (s +:+ t) = s +:+ t.
Proof.
  intros [Hn Hs _ _]. destruct s as [|c s]; [done|]. cbn [trim_start] in Hs.
  change (String c s +:+ t) with (String c (s +:+ t)). cbn [trim_start].
  destruct (is_space c); [|done]. exfalso.
  assert (∀ u, (String.length (trim_start u) ≤ String.length u)%nat) as Hlen.
  { induction u as [|a u IH]; cbn; [lia|]. destruct (is_space a); cbn in *; lia. }
  specialize (Hlen s). rewrite Hs in Hlen. cbn in Hlen. lia.
Qed.
Lemma split_word_app s c t :
  request_word s → is_space c = true → split_word (s +:+ String c t) = (s, String c t).
Proof.
  intros [Hs Hw] Hc. unfold split_word. rewrite trim_start_token_app by done.
  by apply next_word_app.
Qed.

(** A request on the wire: the request line, the headers and an empty line. *)
Definition header_text (h : string * string) : string := h.1 +:+ ": " +:+ h.2.
Definition headers_wire (hs : list (string * string)) : list byte :=
  foldr (λ h l, string_bytes (header_text h +:+ CRLF) ++ l) (string_bytes CRLF) hs.
Definition request_wire (method path : string) (hs : list (string * string)) : list byte :=
  string_bytes ((method +:+ " " +:+ path +:+ " HTTP/1.1") +:+ CRLF) ++ headers_wire hs.
Definition length_header (acc : option N) (h : string * string) : option N :=
  if decide (h.1 = "content-length") then parse_u64 h.2 else acc.

Lemma add_header_text h b :
  header_name h.1 → token h.2 →
  add_header (header_text h) b
  = mk_headers (hb_headers b ++ [h]) (length_header (hb_length b) h).
Proof.
  destruct h as [n v]; cbn. intros (Hn & Hl & Hc) Hv.
  unfold add_header, header_text; cbn [fst snd].
  change (": " +:+ v) with (String ":"%char (" " +:+ v)). rewrite split_once_app by done.
  rewrite (trim_token n), Hl by done.
  assert (trim (" " +:+ v) = v) as ->; [|done].
  unfold trim. change (trim_start (" " +:+ v)) with (trim_start v). by destruct Hv as [_ -> -> _].
Qed.
Lemma header_text_token h : header_name h.1 → token h.2 → token (header_text h).
Proof.
  destruct h as [n v]; cbn. intros (Hn & _ & _) Hv. unfold header_text; cbn [fst snd]. split.
  - destruct n; [by destruct Hn|done].
  - by apply trim_start_token_app.
  - rewrite <- string_app_assoc. apply trim_end_app; apply Hv.
  - apply plain_app; split; [apply Hn|]. apply plain_app; split; [|apply Hv]. by repeat constructor.
Qed.

Lemma read_headers_wire fuel hb b hs l :
  (length (headers_wire hs) < fuel)%nat →
  Forall (λ h, header_name h.1 ∧ token h.2) hs →
  hb + N.of_nat (length (headers_wire hs)) ≤ MAX_HEADER_BYTES →
  read_headers fuel hb b (headers_wire hs ++ l)
  = Ok (mk_headers (hb_headers b ++ hs) (foldl length_header (hb_length b) hs), l).
Proof.
  intros Hf Hhs. revert fuel hb b Hf. induction Hhs as [|h hs [Hn Hv] _ IH]; intros fuel hb b Hf Hb.
  - destruct fuel as [|fuel]; [cbn in Hf; lia|]. cbn [headers_wire foldr read_headers].
    change CRLF with ("" +:+ CRLF) at 1. rewrite read_plain_line by constructor.
    change (N.of_nat (length (string_bytes ("" +:+ CRLF)))) with 2.
    change (N.of_nat (length (headers_wire []))) with 2 in Hb. cbn [mbind result_bind].
    change (2 =? 0) with false. cbn [hb_headers foldl].
    destruct (N.ltb_spec MAX_HEADER_BYTES (hb + 2)); [lia|].
    rewrite decide_True, app_nil_r by done. by destruct b.
  - pose proof (header_text_token h Hn Hv) as Ht.
    destruct fuel as [|fuel]; [cbn in Hf; lia|].
    cbn [headers_wire foldr read_headers] in *. fold (headers_wire hs) in *.
    rewrite length_app in *. rewrite <- app_assoc, read_plain_line by apply Ht. cbn [mbind result_bind].
    assert (length (string_bytes (header_text h +:+ CRLF)) ≠ O) as Hlen.
    { rewrite string_bytes_app, length_app. cbn. lia. }
    destruct (N.eqb_spec (N.of_nat (length (string_bytes (header_text h +:+ CRLF)))) 0); [lia|].
    destruct (N.ltb_spec MAX_HEADER_BYTES (hb + N.of_nat (length (string_bytes (header_text h +:+ CRLF))))); [lia|].
    rewrite (trim_end_spaces (header_text h) CRLF eq_refl) by apply Ht.
    rewrite decide_False by apply Ht. rewrite IH by lia.
    rewrite add_header_text by done. cbn. by rewrite <- app_assoc.
Qed.

(** the server's request reader recovers what a client writes: the method,
    the path, every header, the last content length, and the bytes after the
    empty line untouched. *)
Theorem request_roundtrip method path hs l :
  request_word method → request_word path →
  Forall (λ h, header_name h.1 ∧ token h.2) hs →
  N.of_nat (length (headers_wire hs)) ≤ MAX_HEADER_BYTES →
  read_request (request_wire method path hs ++ l)
  = Ok (Some (mk_request method path hs (foldl length_header None hs), l)).
Proof.
  intros Hm Hp Hhs Hb. unfold read_request, request_wire. rewrite <- app_assoc, read_plain_line.
  2:{ assert (plain_text " " ∧ plain_text " HTTP/1.1") as [] by (split; by repeat constructor).
      destruct Hm as [[] _], Hp as [[] _]. rewrite !plain_app. done. }
  cbn [mbind result_bind].
  set (n := N.of_nat _). assert (n ≠ 0) as Hn.
  { subst n. rewrite string_bytes_app, length_app. cbn. lia. }
  destruct (N.eqb_spec n 0) as [|_]; [done|].
  rewrite !string_app_assoc. change (" " +:+ ?u) with (String " "%char u).
  rewrite split_word_app by done.
  assert (∀ u, split_word (String " "%char u) = split_word u) as Hsp by done. rewrite Hsp.
  change (" HTTP/1.1" +:+ CRLF) with (String " "%char ("HTTP/1.1" +:+ CRLF)).
  rewrite split_word_app by done.
  rewrite read_headers_wire; [done|rewrite length_app; lia|done|lia].
Qed.

(** ** What a connection does *)

(** Reads over the network, and the cache of the table's UID, leave the disk
    alone. *)
Class OffDisk (W : Type) `{HasDisk W} `{NodeReads W} `{HasTableUid W} := {
  od_height url id w : get_disk (settled_height url id w).2 = get_disk w;
  od_table url id w : get_disk (registry_table url id w).2 = get_disk w;
  od_settled url t h w : get_disk (settled_blob url t h w).2 = get_disk w;
  od_blob c id w : get_disk (walrus_blob c id w).2 = get_disk w;
  od_vault url id w : get_disk (vault_nonces url id w).2 = get_disk w;
  od_cache uid w : get_disk (cache_uid uid w) = get_disk w
}.

(** The files are the same; the only directories that can be new are the block
    store's and its ancestors, which [BlockStore::new] creates. *)
Definition untouched (blocks_dir : path) (d d' : disk) : Prop :=
  files d' = files d ∧ ∀ p, p ∈ dirs d' → p ∈ dirs d ∨ p `prefix_of` blocks_dir.

(** A response that answers the message with this id: it carries the id, the
    protocol version, and either a result or an error. *)
Definition answers (id response : Value) : Prop :=
  get "jsonrpc" response = Some (VStr "2.0") ∧ get "id" response = Some id ∧
  ((is_Some (get "result" response) ∧ get "error" response = None) ∨
   (get "result" response = None ∧ is_Some (get "error" response))).
Lemma ok_answers id v : answers id (ok_response id v).
Proof. repeat split. left. split; [by eexists|done]. Qed.
Lemma err_answers id c m : answers id (err_response id c m).
Proof. repeat split. right. split; [done|by eexists]. Qed.
(** The ids a body asks answers for: its requests' in order, [null] for an
    entry of a batch that is no object, none for a notification. *)
Definition entry_id (v : Value) : option Value := if is_object v then get "id" v else Some VNull.
Definition body_ids (v : Value) : list Value :=
  match v with VArr l => omap entry_id l | _ => option_list (entry_id v) end.

Section Connection.
Context {W : Type} `{NodeReads W} `{HasDisk W} `{HasTableUid W} `{Runtime W} `{JsonText} `{Hex} `{Base64}.
Context `{Bcs serde_block} `{Json StateStore.ChainState} `{Json PendingStore.PendingFile}
  `{Bcs (list Wire.WireBlock)}.
Context `{!HasDiskLaws W} `{!OffDisk W}.
Variable srv : McpServer.
Let blocks_dir := srv_data_dir srv ++ ["blocks"].

Definition calm (d : disk) (w : W) : Prop := untouched blocks_dir d (get_disk w).
(** The computation always succeeds and leaves the disk [untouched]. *)
Definition quiet {E A} (m : M W E A) : Prop := ∀ d, triple (calm d) m (λ _, calm d) (λ _, False).

Lemma quiet_ret {E A} (a : A) : quiet (mret a : M W E A).
Proof. intros d. by apply triple_ret. Qed.
Lemma quiet_bind {E A B} (m : M W E A) (k : A → M W E B) :
  quiet m → (∀ a, quiet (k a)) → quiet (m ≫= k).
Proof. intros Hm Hk d. eapply triple_bind; [apply Hm|]. intros a. apply Hk. Qed.
Lemma quiet_fmap {E A B} (f : A → B) (m : M W E A) : quiet m → quiet (f <$> m).
Proof.
  intros Hm d w Hw. specialize (Hm d w Hw). cbv [fmap M_fmap]. by destruct (m w) as [[]].
Qed.
Lemma quiet_getM {E} : quiet (getM : M W E W).
Proof. intros d. by apply triple_get. Qed.
(** A read off the disk, its error observed. *)
Lemma quiet_try {E F A} (m : M W E A) :
  (∀ w, get_disk (m w).2 = get_disk w) → quiet (tryM m : M W F _).
Proof.
  intros Hm d w Hw. unfold tryM. specialize (Hm w). destruct (m w) as [r w']; cbn in *.
  unfold calm in *. congruence.
Qed.
Lemma quiet_timeout {A} (m : M W string A) :
  (∀ w, get_disk (m w).2 = get_disk w) → quiet (timeout_ok m).
Proof.
  intros Hm d w Hw. unfold timeout_ok. specialize (Hm w). destruct (m w) as [r w']; cbn in *.
  unfold calm in *. congruence.
Qed.
Lemma quiet_local {E F A} (m : M disk E A) :
  (∀ d r d', m d = (r, d') → untouched blocks_dir d d') → quiet (tryM (on_disk m) : M W F _).
Proof.
  intros Hm d w [Hf Hd]. unfold tryM, on_disk, zoom. destruct (m (get_disk w)) as [r d'] eqn:Hr.
  apply Hm in Hr as [Hf' Hd']. unfold calm, untouched. rewrite get_put_disk. split; [congruence|].
  intros p [Hp|Hp]%Hd'; auto.
Qed.
Lemma reads_untouched {A} (m : M disk StoreError A) d r d' :
  reads m → m d = (r, d') → untouched blocks_dir d d'.
Proof. intros Hm [Hf Hd]%Hm. split; [done|]. rewrite Hd. auto. Qed.

Lemma quiet_blocks : quiet (blocks srv).
Proof.
  intros d w [Hf Hd]. unfold blocks, errM, on_disk, zoom, BlockStore.new, fs_create_dir_all.
  rewrite run_bind. unfold tryM. destruct (next_fault (get_disk w)); cbn -[seq]; unfold calm, untouched;
    rewrite get_put_disk; cbn -[seq]; (split; [done|]); [|done..].
  intros p [Hp|Hp]%elem_of_union; [by apply Hd|]. right.
  apply elem_of_list_to_set, list_elem_of_fmap in Hp as (k & -> & _). apply prefix_take.
Qed.
Lemma fs_read_dir_frame p d r d' : fs_read_dir p d = (r, d') → untouched blocks_dir d d'.
Proof.
  unfold fs_read_dir. destruct (next_fault d); [destruct (bool_decide _)|..]; intros [= <- <-];
    split; naive_solver.
Qed.

Lemma reads_map {A B} (f : A → B) (m : M disk StoreError A) : reads m → reads (f <$> m).
Proof.
  intros Hm d r d'. cbv [fmap M_fmap]. destruct (m d) as [r1 d1] eqn:Hd. intros [= <- <-]. by eapply Hm.
Qed.
Lemma reads_throw {A} (e : StoreError) : reads (throw e : M disk StoreError A).
Proof. by intros d r d' [= <- <-]. Qed.
Lemma reads_bytes p : reads (io (fs_read p)).
Proof. apply reads_fs, fs_read_frame. Qed.
Ltac reads := repeat first
  [ apply reads_ret | apply reads_lift | apply reads_getM | apply reads_throw | apply reads_bytes
  | apply reads_text | apply reads_map | apply reads_bind; [|intros ?] | case_match ].
Lemma reads_state s : reads (StateStore.load s).
Proof. unfold StateStore.load. reads. Qed.
Lemma reads_pending s : reads (PendingStore.pending s).
Proof. unfold PendingStore.pending, PendingStore.load_raw. reads. Qed.
Lemma reads_block s h : reads (BlockStore.get s h).
Proof. unfold BlockStore.get. reads. Qed.

(** The rules above, applied to a tool's text. *)
Ltac quiet := repeat first
  [ solve [eauto 2] | apply quiet_ret | apply quiet_getM | apply quiet_blocks
  | apply quiet_timeout; intros ?; first [apply od_height|apply od_table|apply od_settled|apply od_vault]
  | apply quiet_try; intros ?; apply od_blob
  | apply quiet_local; intros ???; first
      [ apply reads_untouched; first [apply reads_state|apply reads_pending|apply reads_block]
      | apply fs_read_dir_frame ]
  | apply quiet_fmap | apply quiet_bind; [|intros ?] | case_match ].

Lemma quiet_table_uid : quiet (commitments_table_uid srv).
Proof.
  unfold commitments_table_uid. quiet. intros d w Hw.
  unfold modM, calm. cbn. by rewrite od_cache.
Qed.
Lemma quiet_blob_id h : quiet (blob_id_for_height srv h).
Proof. unfold blob_id_for_height. pose proof quiet_table_uid. quiet. Qed.
Lemma quiet_stored : quiet (stored_block_count srv).
Proof. unfold stored_block_count. quiet. Qed.
Lemma quiet_section latest : quiet (settlement_section srv latest).
Proof. unfold settlement_section. quiet. Qed.
Lemma quiet_call name args : quiet (call_tool srv name args).
Proof.
  pose proof quiet_blob_id. pose proof quiet_stored. pose proof quiet_section.
  unfold call_tool, tool_status, tool_get_block, tool_get_blob, tool_settlement, tool_bridge, local.
  quiet.
Qed.

(** *** Dispatch *)

Definition answered (ids : list Value) (d : disk) (rs : list Value) (w : W) : Prop :=
  calm d w ∧ Forall2 answers ids rs.
Lemma dispatch_answers d message :
  triple (calm d) (dispatch srv message)
    (λ r, answered (option_list (get "id" message)) d (option_list r)) (λ _, False).
Proof.
  unfold dispatch. destruct (get "id" message) as [id|] eqn:Hid.
  2:{ apply triple_ret. intros w Hw. split; [done|constructor]. }
  assert (∀ v, answers id v → ∀ w, calm d w →
            answered (option_list (Some id)) d (option_list (Some v)) w) as Hone.
  { intros v Hv w Hw. split; [done|]. constructor; [done|constructor]. }
  destruct (get "method" message ≫= as_str) as [method|].
  2:{ apply triple_ret, Hone, err_answers. }
  repeat case_decide; try (apply triple_ret, Hone, ok_answers); [|apply triple_ret, Hone, err_answers].
  eapply triple_bind; [apply quiet_call|]. intros [o|]; apply triple_ret, Hone;
    [apply ok_answers|apply err_answers].
Qed.
Lemma dispatch_batch_answers d entries :
  triple (calm d) (dispatch_batch srv entries) (answered (omap entry_id entries) d) (λ _, False).
Proof.
  induction entries as [|entry entries IH]; cbn [dispatch_batch].
  { apply triple_ret. intros w Hw. split; [done|constructor]. }
  apply (triple_bind _ _ (λ rs, answered (option_list (entry_id entry)) d rs)).
  - destruct (is_object entry) eqn:Ho; unfold entry_id; rewrite Ho.
    + intros w Hw. pose proof (dispatch_answers d entry w Hw) as Hd.
      cbv [fmap M_fmap]. by destruct (dispatch srv entry w) as [[]].
    + apply triple_ret. intros w Hw. split; [done|]. constructor; [apply err_answers|constructor].
  - intros rs w [Hw Hrs]. rewrite run_bind. specialize (IH w Hw).
    destruct (dispatch_batch srv entries w) as [[more|] w']; [|done]. destruct IH as [Hw' Hm].
    cbn [mret M_ret]. split; [done|].
    replace (omap entry_id (entry :: entries))
      with (option_list (entry_id entry) ++ omap entry_id entries) by (cbn; by destruct (entry_id entry)).
    by apply Forall2_app.
Qed.

Definition is_array (v : Value) : bool := match v with VArr _ => true | _ => false end.
Definition is_message (v : Value) : bool := is_object v || is_array v.
Lemma dispatch_body_answers d message :
  triple (calm d) (dispatch_body srv message)
    (λ r w, calm d w ∧
       match r with
       | Some (rs, arr) => Forall2 answers (body_ids message) rs ∧ arr = is_array message
       | None => is_message message = false
       end) (λ _, False).
Proof.
  destruct message as [| | | | |l|l]; cbn [dispatch_body]; try (by apply triple_ret).
  - eapply triple_bind; [apply dispatch_batch_answers|]. intros rs. by apply triple_ret; intros w [].
  - eapply triple_bind; [apply dispatch_answers|]. intros r. by apply triple_ret; intros w [].
Qed.

(** *** Connections *)

(** C35: no request changes a file of the node, whatever bytes the client sends
    and however the reads fail: the files are the same afterwards, and the only
    directories that can be new are the block store's own. *)
Theorem mcp_read_only stream w :
  untouched (srv_data_dir srv ++ ["blocks"]) (get_disk w)
    (get_disk (serve_connection srv stream w).2).
Proof.
  assert (∀ A (a : A), untouched (srv_data_dir srv ++ ["blocks"]) (get_disk w) (get_disk w)) as Hrefl.
  { intros. split; naive_solver. }
  unfold serve_connection, handle_connection. rewrite run_bind. cbv [lift].
  destruct (read_request stream) as [[[request rest]|]|]; [|apply (Hrefl _ 0)..].
  destruct (check_request request) as [r|n]; [apply (Hrefl _ 0)|].
  destruct (_ <? n); [apply (Hrefl _ 0)|].
  destruct (value_from_slice _) as [message|]; [|apply (Hrefl _ 0)].
  rewrite run_bind. pose proof (dispatch_body_answers (get_disk w) message w (Hrefl _ 0)) as Hb.
  destruct (dispatch_body srv message w) as [[r|] w']; [|done]. cbn. apply Hb.
Qed.

Lemma check_request_ok r n :
  check_request r = inr n →
  req_method r = "POST" ∧ req_path r = "/mcp" ∧ content_length r = Some n ∧ n ≤ MAX_BODY_BYTES.
Proof.
  unfold check_request, check_body. repeat case_bool_decide; cbn; try done.
  all: repeat (case_match; try done); intros [= <-]; repeat split; try done.
  all: match goal with Hn : (_ <? _) = false |- _ => by apply N.ltb_ge in Hn end.
Qed.
Lemma check_request_refused r resp :
  check_request r = inl resp → status resp ∉ ["200 OK"; "202 Accepted"].
Proof.
  unfold check_request, check_body. repeat (case_match; try done); intros [= <-];
    by apply (bool_decide_unpack _).
Qed.


(** C33: the server answers a client that speaks the protocol.  When a client
    POSTs a JSON message or batch to [/mcp] with its length and any other
    well-formed headers, the connection always answers: one response per
    message that has an id, in order, each carrying that id and either a result
    or an error, and none for a notification. *)
Theorem mcp_call_answered hs body tail message w :
  Forall (λ h, header_name h.1 ∧ token h.2) hs →
  N.of_nat (length (headers_wire hs)) ≤ MAX_HEADER_BYTES →
  assoc "transfer-encoding" hs = None →
  match assoc "mcp-protocol-version" hs with Some v => is_supported v = true | None => True end →
  foldl length_header None hs = Some (N.of_nat (length body)) →
  N.of_nat (length body) ≤ MAX_BODY_BYTES →
  value_from_slice body = Some message → is_message message = true →
  ∃ responses w',
    handle_connection srv (request_wire "POST" "/mcp" hs ++ body ++ tail) w
    = (Ok (Some (body_response (negotiate (assoc "mcp-protocol-version" hs)) responses
                   (is_array message))), w') ∧
    Forall2 answers (body_ids message) responses.
Proof.
  intros Hhs Hb Hte Hv Hcl Hlen Hmsg Hkind. unfold handle_connection.
  rewrite run_bind. cbv [lift].
  rewrite (request_roundtrip "POST" "/mcp") by (try done; by apply (bool_decide_unpack _)).
  set (request := mk_request _ _ _ _).
  assert (check_request request = inr (N.of_nat (length body))) as ->.
  { unfold check_request, check_body, header. cbn -[MAX_BODY_BYTES is_supported]. rewrite Hte, Hcl.
    destruct (assoc "mcp-protocol-version" hs); [rewrite Hv|]; rewrite (bool_decide_false (is_Some None))
      by (by intros []); destruct (N.ltb_spec MAX_BODY_BYTES (N.of_nat (length body))); lia || done. }
  rewrite Nat2N.id, take_app_length, N.ltb_irrefl, Hmsg, run_bind.
  pose proof (dispatch_body_answers (get_disk w) message w) as Hd.
  destruct (dispatch_body srv message w) as [[[[rs arr]|]|] w'].
  - destruct Hd as (_ & Hans & ->); [split; naive_solver|]. by exists rs, w'.
  - destruct Hd as [_ Hk]; [split; naive_solver|]. congruence.
  - destruct Hd. split; naive_solver.
Qed.
End Connection.

(** ** Witnesses *)

Module McpDemo.
Import Codec.CountableCodec Codec.Demo.

(** A node with an empty disk, a registry settled at height 5, and reads that
    take no time. *)
Record world := mk_world { w_disk : disk; w_uid : option Address }.
#[export] Instance w_has_disk : HasDisk world :=
  {| get_disk := w_disk; put_disk d w := mk_world d (w_uid w) |}.
#[export] Instance w_has_disk_laws : HasDiskLaws world.
Proof. done. Qed.
#[export] Instance w_table : HasTableUid world :=
  {| cached_uid := w_uid; cache_uid u w := mk_world (w_disk w) (Some u) |}.
#[export] Instance w_runtime : Runtime world :=
  {| now_ms _ := 0; sleep_ms _ w := w; shutting_down _ := false |}.
#[export] Instance w_reads : NodeReads world := {|
  settled_height _ _ := mret 5;
  registry_table _ _ := mret (array_fill 32 x01);
  settled_blob _ _ _ := mret None;
  walrus_blob _ _ := throw "walrus read failed: 404";
  vault_nonces _ _ := throw "vault not found"
|}.
#[export] Instance w_off_disk : OffDisk world.
Proof. by constructor. Qed.

(** A batch of a request, a notification and a number. *)
Definition batch : Value := VArr
  [VObj [("jsonrpc", VStr "2.0"); ("id", VInt 7); ("method", VStr "tools/call");
         ("params", VObj [("name", VStr "status")])];
   VObj [("jsonrpc", VStr "2.0"); ("method", VStr "notifications/initialized")];
   VInt 3].
Definition body : list byte := string_bytes "[{id:7,tools/call status},{notification},3]".
#[export] Instance demo_json : JsonText := {|
  value_to_string _ := "(responses)";
  value_pretty _ := Some "(status)";
  value_from_slice bs := if decide (bs = body) then Some batch else None
|}.
Definition server : McpServer :=
  mk_server "sequencer" ["data"] (Some "0xregistry") None None
    (Client.mk_config "pub" "agg" 5 "http://sui" None).
Definition hs : list (string * string) :=
  [("host", "127.0.0.1:9101"); ("content-length", "43"); ("mcp-protocol-version", "2025-03-26")].
Definition w0 : world := mk_world (mk_disk ∅ {[ ["data"] ]} []) None.
Definition tail : list byte := string_bytes "GET /".
Definition stream : list byte := request_wire "POST" "/mcp" hs ++ body ++ tail.

Lemma hs_ok : Forall (λ h, header_name h.1 ∧ token h.2) hs.
Proof. apply (bool_decide_unpack _). by vm_compute. Qed.

Lemma headers_terminate_witness :
  read_headers 200 0 (mk_headers [] None) (headers_wire hs)
  = read_headers 300 0 (mk_headers [] None) (headers_wire hs)
  ∧ read_headers 200 0 (mk_headers [] None) (headers_wire hs) ≠ Err ["out of fuel"].
Proof. apply (headers_terminate 200 300); apply Nat.ltb_lt; by vm_compute. Defined.

Lemma request_roundtrip_witness :
  read_request (request_wire "POST" "/mcp" hs ++ body)
  = Ok (Some (mk_request "POST" "/mcp" hs (Some 43), body)).
Proof.
  apply (request_roundtrip "POST" "/mcp" hs body).
  - by apply (bool_decide_unpack _).
  - by apply (bool_decide_unpack _).
  - apply hs_ok.
  - by apply N.leb_le.
Defined.

Lemma mcp_call_answered_witness :
  ∃ responses w',
    handle_connection server stream w0
    = (Ok (Some (body_response "2025-03-26" responses true)), w') ∧
    Forall2 answers [VInt 7; VNull] responses.
Proof.
  apply (mcp_call_answered server hs body tail batch w0 hs_ok).
  - by apply N.leb_le.
  - done.
  - done.
  - done.
  - by apply N.leb_le.
  - done.
  - done.
Defined.

Lemma mcp_read_only_witness :
  files (w_disk (serve_connection server stream w0).2) = ∅ ∧
  ∀ p, p ∈ dirs (w_disk (serve_connection server stream w0).2) →
    p ∈ ({[ ["data"] ]} : gset path) ∨ p `prefix_of` ["data"; "blocks"].
Proof. exact (mcp_read_only server stream w0). Defined.
End McpDemo.
