(* ===== verification/Metrics.v ===== *)
(** [crates/node/src/metrics.rs]: the instruments and the endpoint a monitoring
    system scrapes.  The text format is the prometheus crate's; observations and
    histogram bounds are in hundredths of a second. *)

From Stdlib Require Import Lia Ascii.
From S2P Require Import Prelude Text Disk Mcp.
Local Open Scope string_scope.
Local Open Scope list_scope.
Local Open Scope N_scope.

Inductive Instrument :=
| Gauge (value : Z)
| Counter (count : N)
| Histogram (bounds : list N) (observed : list N).
(** Names, help texts and instruments, in the order they were registered. *)
Definition Registry : Type := list (string * string * Instrument).

(** [exponential_buckets(0.01, 2.0, 13)] *)
Definition exponential_buckets (start factor : N) (length : nat) : list N :=
  (λ i, start * factor ^ N.of_nat i) <$> seq 0 length.
Definition latency : Instrument := Histogram (exponential_buckets 1 2 13) [].

Definition metrics_new : Registry := [
  ("podseq_block_height", "Current chain head height", Gauge 0);
  ("podseq_blocks_built_total", "Total blocks produced since startup", Counter 0);
  ("podseq_da_publish_duration_seconds",
   "Walrus DA publish latency per attempt (success and failure)", latency);
  ("podseq_da_publish_errors_total", "Total Walrus DA publish attempts that failed", Counter 0);
  ("podseq_da_time_flushes_total",
   "DA batches flushed by batch_flush_ms age before the size threshold", Counter 0);
  ("podseq_settlement_duration_seconds",
   "Latency of the successful Sui settlement RPC for each block", latency);
  ("podseq_pending_blocks", "Blocks buffered in the finalizer channel", Gauge 0);
  ("podseq_sui_gas_balance_mist", "Settlement key SUI balance in mistos", Gauge 0);
  ("podseq_bridge_deposits_total", "Bridge deposits minted on L2", Counter 0);
  ("podseq_bridge_withdrawals_total", "Bridge withdrawals released on Sui", Counter 0);
  ("podseq_bridge_tokens_created_total",
   "Canonical L2 bridge tokens created through the factory", Counter 0)].

Section Endpoint.
(** [prometheus_client::encoding::text::encode] *)
Variable encode : Registry → result string string.

(** [request_line.split_whitespace().nth(1).unwrap_or("/")] *)
Definition request_path (request_line : string) : string :=
  let path := (split_word (split_word request_line).2).1 in
  if decide (path = "") then "/" else path.

(** From what the client sends to what it receives; an error closes the
    connection. *)
Definition handle_connection (metrics : Registry) (stream : list byte) : result anyhow (list byte) :=
  '(request_line, _, _) ← read_line stream;
  let path := request_path request_line in
  body ← (if decide (path = "/healthz") then Ok []
          else string_bytes <$> map_err (λ e, [e]) (encode metrics));
  let content_type := if decide (path = "/healthz") then "text/plain"
                      else "text/plain; version=0.0.4; charset=utf-8" in
  Ok (string_bytes
        ("HTTP/1.1 200 OK" +:+ CRLF +:+ header_line "Content-Type" content_type
         +:+ header_line "Content-Length" (fmt_dec (N.of_nat (length body)))
         +:+ "Connection: close" +:+ CRLF +:+ CRLF) ++ body).
End Endpoint.

(** Every instrument has its own name. *)
Lemma metric_names_distinct : NoDup ((λ '(n, _, _), n) <$> metrics_new).
Proof. by apply (bool_decide_unpack _). Qed.

(** A liveness probe is answered whatever the encoder does, and with the
    same bytes. *)
Lemma healthz_independent encode encode' m m' stream line n rest :
  read_line stream = Ok (line, n, rest) → request_path line = "/healthz" →
  is_ok (handle_connection encode m stream) = true ∧
  handle_connection encode m stream = handle_connection encode' m' stream.
Proof. intros Hr Hp. unfold handle_connection. rewrite Hr. cbn [mbind result_bind]. by rewrite Hp. Qed.

Example healthz_text encode :
  handle_connection encode metrics_new (string_bytes ("GET /healthz HTTP/1.1" +:+ CRLF))
  = Ok (string_bytes ("HTTP/1.1 200 OK" +:+ CRLF +:+ "Content-Type: text/plain" +:+ CRLF
        +:+ "Content-Length: 0" +:+ CRLF +:+ "Connection: close" +:+ CRLF +:+ CRLF)).
Proof. reflexivity. Qed.
